(* ===== verification/_CoqProject ===== *)
-Q . S2P
Prelude.v
Utf8.v
GoStrings.v
GoTime.v
Json.v
JsonValid.v
GoUrl.v
Message.v
GoChan.v
Room.v
RoomRegistry.v
Sensitive.v
RateLimit.v
GoFlag.v
Bus.v
InMemory.v
Kafka.v
KafkaConsume.v
Generation.v
Broadcast.v
Consumer.v
Routing.v
Redis.v
Publisher.v
PublisherLife.v
Renewal.v
Connections.v
Handshake.v
Monitor.v
WebSocket.v
Connect.v
Session.v
Flush.v
Deadlines.v
Metrics.v
Logging.v
Config.v
Server.v
Teardown.v
Gateway.v
LoadTest.v
LoadRun.v
Pipeline.v
Sockets.v
EndToEnd.v
