(* ===== verification/Prelude.v ===== *)
(** * DanmuFlow: a verification development

    DanmuFlow is a Go service that carries live comments (danmaku).  Clients hold a
    WebSocket to a gateway; a frame is checked, rate-limited and published to Kafka
    under its room's key; the gateway that owns the room's partition consumes it and
    broadcasts it to the clients of the room.  A Redis directory tells clients which
    gateway owns a room.  The development models the program under src/ file by file
    and proves what makes each part correct.  Names follow the source.

    ** Files, bottom up

    Language and standard library:
    - Prelude: Go errors with errors.Is and errors.Join, panics ([outcome]), 64-bit
      integers with their wrap-around, times and durations, list lemmas, tactics.
    - Utf8, GoStrings: strings as bytes, unicode/utf8, the functions of package strings
      the program uses, hex and decimal texts.  The case mapping of runes above ASCII is
      the class [CaseTable]: it is generated Unicode data.
    - GoTime: the calendar and RFC 3339.  Json: encoding/json for flat structs, with
      the scanner's grammar; JsonValid: decoded strings are valid UTF-8.  GoUrl:
      url.Parse (netip.ParseAddr is the class [IPLiterals]).  GoChan: channels and select.
      GoFlag: flag.Parse, strconv.ParseInt with base 0, time.ParseDuration.

    Components:
    - Message (internal/message): the danmaku, Validate, its JSON.
    - Room, RoomRegistry (internal/room): clients, channels, broadcast; the table of
      rooms.
    - Sensitive (internal/sensitive), RateLimit (internal/ratelimit).
    - Bus (internal/bus/bus.go): the interfaces as classes, with the laws their comments
      promise.  InMemory (inmemory.go), Kafka (kafka.go without its loops),
      KafkaConsume (Consume, and consumeGeneration and consumePartition as functions) and
      Generation (the workers of a generation and their caller as goroutines).
    - Broadcast, Consumer (internal/httpserver/messagebus.go): the consumer's handler and
      the retry loop; the two goroutines of the consumer with its stop function.
    - Routing, Redis, Publisher, PublisherLife, Renewal (internal/routing): the directory's
      interface, the Redis implementation with its Lua script, the loop that keeps the
      leases, that loop as a goroutine with the callers of Stop and the answers of its
      calls, and the goroutine in time on a real directory that others write to as well.
    - internal/httpserver/websocket.go: Connections (the table and its bulk closing),
      WebSocket (the guards of the handshake and what happens to a frame), Connect (a
      whole handshake with its exits), Session (the reader, writer and heartbeat of an
      established connection), Flush (what its writer can always do), Deadlines (the same
      goroutines by the clock).  Handshake: the races between handshakes, ownership
      changes and shutdown, with the ownership revision compared as a uint64.
    - internal/httpserver/server.go: Monitor (the ownership monitor and its stop function),
      Server (construction, readiness, /route, Shutdown), Teardown (Shutdown as a goroutine
      among the monitor, the publisher, the consumer and the closing workers it ends, with
      the calls of third-party code it waits in, KafkaBus.Close included),
      Gateway (the server assembled, its endpoints, the other constructors, and the process
      of cmd/server).  Config (kafka_config.go, routing_config.go), Logging
      (internal/logging, logging.go).
    - Metrics (internal/metrics): the collectors, and what a connection counts.
    - LoadTest, LoadRun (cmd/loadtest): its functions, and its goroutines on the shared
      statistics.

    Compositions:
    - Pipeline: a partition's log, its consumer and the clients of the gateway.  It runs
      the worker of Generation, the handler of Broadcast on the registry of RoomRegistry,
      and each room by the steps of Room.
    - Sockets: a gateway with any number of connections, each by the steps of Session, on the
      rooms, consumer and log of Pipeline.
    - Teardown: see above; each part keeps to the step relation of its own file.
    - EndToEnd: the way of a message through all parts, and the JSON of the socket.

    ** How code becomes definitions

    A function that runs under a mutex is one function on the state the mutex guards.
    Code whose statements interleave with other goroutines (Consume with Close, the workers
    of a generation, handshakes with the monitor and Shutdown, closeWebSockets, the
    in-memory bus, rooms with their readers, the goroutines of a connection, of the
    consumer, the monitor, the publisher, Shutdown and the load generator) is a step
    relation, and theorems about it hold in every reachable state.  Where the same code is
    also given as a function of what the environment answers, a theorem says that the
    goroutine refines the function (Consumer, Session, Generation, PublisherLife, Teardown,
    LoadRun), so that what is proved of the function holds of it.  Systems of several files
    (Pipeline, Sockets, Teardown, Renewal) are built from the steps of their parts, and what is
    proved of a part holds in the whole.  A select is the list of its ready cases.  Loops that run
    until the environment stops them read a script of what the environment answers, one entry per
    iteration, and theorems quantify over scripts, so no bound is assumed on their
    length.  The order in which Go visits a map is an argument.  Where recursion needs
    fuel (decoding runes, trimming, parsing JSON or durations) the fuel is the length of the input
    or twice that, and a lemma says it suffices ([runes_go_fuel], [parse_fuel],
    [duration_parts_fuel]).

    Third-party code is a parameter: kafka-go's answers and its balancer ([KafkaHash]),
    the Redis server ([RedisServer]) with its cjson, gorilla's connections (their
    results), Prometheus's registry, zap ([Zap]) and gin's recovery ([Gin]).  What is
    assumed of them is a class of laws, with an instance for the witnesses.  The texts of wrapped errors are kept, quoted operands
    in them are not.

    ** What is proved

    - Delivery: at-least-once consumption per partition over any history of sessions,
      order within a partition, within a room and on each socket, nothing lost or
      duplicated in the in-memory bus, exact broadcast and drop counts, that what is
      published is what is handled, that a content reaches every member unchanged, and
      that every client sees the order of the partition's log, over rebalances and restarts,
      with no more repeats than cuts between handling and committing (KafkaConsume, Room,
      Session, InMemory, Broadcast, EndToEnd, Pipeline).  As long as frames can be written on
      the socket, what waits for a client can be (Flush).
    - The whole: a gateway full of connections is a refinement of its parts, the order of the
      partition is that of every socket, and what a client sees is what somebody sent in an
      accepted frame on a connection to its room (Sockets, EndToEnd).
    - Ownership: readiness and ownership follow the consumer-group generation; served
      connections are owned, if their handshake began after the monitor's first reading;
      every connection is handed to a shutdown; leases do not lapse while a partition stays
      assigned and the turns come in time, and live and vanish as the directory promises;
      /route leads to the owner (KafkaConsume, Handshake, Kafka, Renewal, Redis, Server).
    - Admission: what a frame must satisfy, rate limits in exact arithmetic (and, for one
      schedule, in binary64), the word filter, refused handshakes while draining and handshakes that
      leave no trace (WebSocket, RateLimit, Sensitive, Server, Connect).
    - Goroutines: no reachable state of a connection, of the consumer, the monitor, the
      publisher, a generation or the load generator panics or is stuck, each ends when told,
      what it held is given back, and the interleaved steps do what the sequential loops do
      (Session, Consumer, Monitor, PublisherLife, Generation, LoadRun).
    - Heartbeat: a client that answers within the margin is never dropped, one that cannot be
      written to does not stay (Deadlines).
    - Shutdown: it tells every part in order and returns what its calls answered; it waits
      only for goroutines of the program that can move on and for third-party calls, and
      takes a bounded number of statements; it leaves no connection or goroutine it was to
      end, and of the leases only those whose last Release failed (Handshake, Connections,
      Teardown, Server).
    - Load generator: any command line is safe, its report is that of a sequential run and
      never claims more than was sent, and it recognises exactly its own messages in what
      the server answers (LoadTest, LoadRun, EndToEnd).
    - Failure: back-off, atomic installation of a generation, construction that leaks
      nothing, a Shutdown that performs every step, error reporting of a generation,
      bounded labels and gauges that tell the truth, requests that are answered and logged
      though their handler panics, exit statuses (Broadcast, Kafka, Server, Metrics,
      Consumer, Logging, Gateway).

    ** Bounds

    No bound is assumed on lengths, counts or runs, except where the code has one: 2^64
    publishes of a room and changes of the ownership, 64-bit offsets and load-test
    arithmetic, years of four digits.
    Termination is by measures that are in the statements: eight steps after a socket is
    closed, eight after a consumer is cancelled, five between two ticks of the monitor, five
    per worker of a generation that has ended, fifteen for Shutdown, two per message that
    waits for a client, two per client and three more for the end of the load generator.  The
    publisher, once it has taken the end of its context, takes three statements and one per
    published partition; before that its statements are bounded by the ticks and
    assignments that come in between, not absolutely.

    ** Not modelled

    Sockets (an operation on one is its result; deadlines are in Deadlines, and that of a bulk
    close's frame in Connections; that a close frame has gone out, after which gorilla
    refuses to write, is an event of the environment in Session), whether third-party calls
    without a context return, the texts of other log entries, buckets
    and help texts of metrics, and the Go collector: they are calls of third-party code
    without logic of the program's own. *)

From stdpp Require Export base tactics option list sorting gmap strings.
From Stdlib Require Export ZArith Lia Ascii.

(** ** Scope of the development's own notations *)
Declare Scope danmu_scope.
Delimit Scope danmu_scope with danmu.
Open Scope danmu_scope.

Create HintDb danmu.
Create Rewrite HintDb danmu.

(** ** Go errors

    An [error] value of the program is one of: a package-level sentinel made by
    [errors.New] (identified by the package and the variable, as [errors.Is]
    compares pointers, not texts), an anonymous [fmt.Errorf] text, a
    [fmt.Errorf("...: %w", err)] wrapper, or an [errors.Join]. *)
Record sentinel := mkSentinel { s_pkg : string; s_name : string }.

#[export] Instance sentinel_eq_dec : EqDecision sentinel.
Proof. solve_decision. Defined.

Inductive error :=
  | Sentinel (s : sentinel)
  | Errorf (msg : string)
  | Wrap (msg : string) (inner : error)
  | Joined (es : list error).

Coercion Sentinel : sentinel >-> error.

(** [errors.Is(e, target)] for a sentinel target: the tree of wrapped errors is
    searched. *)
Fixpoint errors_Is (e : error) (target : sentinel) : bool :=
  match e with
  | Sentinel s => bool_decide (s = target)
  | Errorf _ => false
  | Wrap _ inner => errors_Is inner target
  | Joined es => existsb (fun e' => errors_Is e' target) es
  end.

(** [errors.Join(errs...)]: nil arguments are dropped; nil when nothing is left. *)
Definition errors_Join (es : list (option error)) : option error :=
  match omap id es with
  | [] => None
  | es' => Some (Joined es')
  end.

(** A Go function returning [(T, error)]; a function returning only [error] has
    type [option error], [None] being nil. *)
Inductive result (A : Type) :=
  | Ok (a : A)
  | Err (e : error).
Arguments Ok {A} a.
Arguments Err {A} e.

#[export] Instance result_ret : MRet result := fun A a => Ok a.
#[export] Instance result_bind : MBind result := fun A B f r =>
  match r with Ok a => f a | Err e => Err e end.

(** A text that ends in a line feed. *)
Definition line (s : string) : string := s +:+ String "010" "".

(** A Go statement that may panic: the value it produces, or the panic's text. *)
Inductive outcome (A : Type) :=
  | Returns (a : A)
  | Panics (why : string).
Arguments Returns {A} a.
Arguments Panics {A} why.

#[export] Instance outcome_ret : MRet outcome := fun A a => Returns a.
#[export] Instance outcome_bind : MBind outcome := fun A B f r =>
  match r with Returns a => f a | Panics w => Panics w end.

Definition is_ok {A} (r : result A) : bool :=
  match r with Ok _ => true | Err _ => false end.

(** ** Machine integers and time

    [uint64] values are kept in [0, 2^64), [int64] values in [-2^63, 2^63). *)
Definition wrap_u64 (z : Z) : Z := (z mod 2 ^ 64)%Z.
Definition wrap_i64 (z : Z) : Z := ((z + 2 ^ 63) mod 2 ^ 64 - 2 ^ 63)%Z.
Definition max_i64 : Z := (2 ^ 63 - 1)%Z.
Definition min_i64 : Z := (- 2 ^ 63)%Z.

(** A [time.Time] is a number of nanoseconds since Go's zero time; a
    [time.Duration] is an [int64] number of nanoseconds. *)
Definition time := Z.
Definition duration := Z.
Definition time_zero : time := 0%Z.
Definition IsZero (t : time) : bool := (t =? 0)%Z.
(** [t.Sub(u)] saturates at the limits of a duration. *)
Definition time_Sub (t u : time) : duration := Z.max min_i64 (Z.min max_i64 (t - u))%Z.

Definition Nanosecond : duration := 1%Z.
Definition Microsecond : duration := (1000 * Nanosecond)%Z.
Definition Millisecond : duration := (1000 * Microsecond)%Z.
Definition Second : duration := (1000 * Millisecond)%Z.
Definition Minute : duration := (60 * Second)%Z.

(** ** Notations *)
Notation "e 'is_error' s" := (errors_Is e s = true)
  (at level 70, no associativity) : danmu_scope.

(** ** Tactics *)

(** Case analysis on every [match] and [if] of the goal or the hypotheses whose
    subject is a term, keeping the equation. *)
Ltac case_match_in H :=
  match type of H with
  | context [ match ?x with _ => _ end ] => destruct x eqn:?
  end.

Ltac split_cases :=
  repeat (case_match; simplify_eq/=).

(** Split a conjunction and solve each part by [tac]. *)
Ltac split_by tac := repeat split; tac.

(** ** Generic lemmas *)

Lemma errors_Is_refl (s : sentinel) : errors_Is s s = true.
Proof. simpl. by rewrite bool_decide_eq_true. Qed.

Lemma errors_Is_wrap msg e s : errors_Is (Wrap msg e) s = errors_Is e s.
Proof. done. Qed.

#[export] Hint Resolve errors_Is_refl : danmu.
#[export] Hint Rewrite errors_Is_wrap : danmu.

Lemma wrap_u64_range z : (0 <= wrap_u64 z < 2 ^ 64)%Z.
Proof. unfold wrap_u64. apply Z.mod_pos_bound. lia. Qed.

Lemma wrap_u64_small z : (0 <= z < 2 ^ 64)%Z -> wrap_u64 z = z.
Proof. intros. unfold wrap_u64. by rewrite Z.mod_small. Qed.

Lemma wrap_i64_range z : (min_i64 <= wrap_i64 z <= max_i64)%Z.
Proof.
  unfold wrap_i64, min_i64, max_i64.
  pose proof (Z.mod_pos_bound (z + 2 ^ 63) (2 ^ 64) ltac:(lia)). lia.
Qed.

Lemma wrap_i64_small z : (min_i64 <= z <= max_i64)%Z -> wrap_i64 z = z.
Proof.
  unfold wrap_i64, min_i64, max_i64. intros.
  rewrite Z.mod_small; lia.
Qed.

Lemma time_Sub_range t u : (min_i64 <= time_Sub t u <= max_i64)%Z.
Proof. unfold time_Sub, min_i64, max_i64. lia. Qed.

Lemma time_Sub_diag t : time_Sub t t = 0%Z.
Proof. unfold time_Sub, min_i64, max_i64. lia. Qed.

#[export] Hint Resolve wrap_u64_range wrap_i64_range time_Sub_range : danmu.

(** The elements of a list that satisfy a test, counted. *)
Definition count_if {A} (f : A -> bool) (l : list A) : nat := length (List.filter f l).

Lemma count_if_cons {A} (f : A -> bool) x l :
  count_if f (x :: l) = (if f x then 1 else 0) + count_if f l.
Proof. unfold count_if. simpl. by destruct (f x). Qed.

Lemma count_if_perm {A} (f : A -> bool) l1 l2 :
  l1 ≡ₚ l2 -> count_if f l1 = count_if f l2.
Proof. unfold count_if. induction 1; simpl; try done; split_cases; lia. Qed.

Lemma count_if_le {A} (f : A -> bool) l : count_if f l <= length l.
Proof. unfold count_if. induction l; simpl; [done|]. destruct (f a); simpl; lia. Qed.

Lemma count_if_ext {A} (f g : A -> bool) l :
  (forall x, x ∈ l -> f x = g x) -> count_if f l = count_if g l.
Proof.
  induction l as [|a l IH]; intros H; [done|].
  rewrite !count_if_cons, (H a) by (left).
  rewrite IH; [done|]. intros x Hx. apply H. by right.
Qed.

Lemma prefix_app_split {A} (t l1 l2 : list A) :
  t `prefix_of` l1 ++ l2 -> t `prefix_of` l1 \/ exists t', t = l1 ++ t' /\ t' `prefix_of` l2.
Proof.
  revert t. induction l1 as [|x l1 IH]; intros t Ht; [right; by exists t|].
  destruct t as [|y t]; [left; apply prefix_nil|].
  apply prefix_cons_inv_1 in Ht as Hx. apply prefix_cons_inv_2 in Ht. subst y.
  destruct (IH t Ht) as [H|(t' & -> & H)]; [left; by apply prefix_cons|right; by exists t'].
Qed.

Lemma last_default_cons {A} (a d : A) l : List.last (a :: l) d = List.last l a.
Proof.
  revert a d. induction l as [|b l IH]; intros a d; [done|].
  change (List.last (b :: l) d = List.last (b :: l) a). by rewrite !IH.
Qed.
