(* ===== verification/Utf8.v ===== *)
(** * Strings as bytes, and UTF-8

    A Go string is a sequence of bytes, here a [string]; the algorithms work on
    its bytes as a [list Z] with entries in [0, 256).  The file models package
    unicode/utf8 with the lead-byte table and the accept ranges of its source
    ([DecodeRune], [DecodeLastRune], [EncodeRune], [RuneCountInString]) and
    unicode.IsSpace ([IsSpace]: Latin-1 switch and White_Space table), and proves
    that decoding inverts encoding. *)

From S2P Require Import Prelude.

(** ** Bytes of a string *)

Definition byte_of_ascii (a : ascii) : Z := Z.of_N (Ascii.N_of_ascii a).
Definition ascii_of_byte (z : Z) : ascii := Ascii.ascii_of_N (Z.to_N z).
Definition bytes (s : string) : list Z := byte_of_ascii <$> String.list_ascii_of_string s.
Definition str (l : list Z) : string := String.string_of_list_ascii (ascii_of_byte <$> l).
Definition is_byte (z : Z) : Prop := (0 <= z < 256)%Z.

(** ** UTF-8 *)

Definition RuneError : Z := 0xFFFD.

(** utf8.first: for a lead byte of a multi-byte rune, its size and the range
    accepted for the second byte; [None] for a byte that cannot lead. *)
Definition lead (b : Z) : option (nat * Z * Z) :=
  (if b <? 0xC2 then None
   else if b <=? 0xDF then Some (2%nat, 0x80, 0xBF)
   else if b =? 0xE0 then Some (3%nat, 0xA0, 0xBF)
   else if b <=? 0xEC then Some (3%nat, 0x80, 0xBF)
   else if b =? 0xED then Some (3%nat, 0x80, 0x9F)
   else if b <=? 0xEF then Some (3%nat, 0x80, 0xBF)
   else if b =? 0xF0 then Some (4%nat, 0x90, 0xBF)
   else if b <=? 0xF3 then Some (4%nat, 0x80, 0xBF)
   else if b =? 0xF4 then Some (4%nat, 0x80, 0x8F)
   else None)%Z.

(** The low bits of a byte and the payload of a continuation byte. *)
Definition cont (b : Z) : Z := Z.land b 0x3F.
Definition is_cont (b : Z) : bool := (0x80 <=? b)%Z && (b <=? 0xBF)%Z.

(** utf8.DecodeRuneInString: the first rune and its width; an invalid encoding
    is [(RuneError, 1)], the empty string [(RuneError, 0)]. *)
Definition DecodeRune (p : list Z) : Z * nat :=
  match p with
  | [] => (RuneError, 0)
  | b0 :: p1 =>
    if (b0 <? 0x80)%Z then (b0, 1) else
    match lead b0 with
    | None => (RuneError, 1)
    | Some (sz, lo, hi) =>
      match p1 with
      | b1 :: p2 =>
        if negb ((lo <=? b1)%Z && (b1 <=? hi)%Z) then (RuneError, 1)
        else if bool_decide (sz = 2)
        then (Z.lor (Z.shiftl (Z.land b0 0x1F) 6) (cont b1), 2)
        else match p2 with
        | b2 :: p3 =>
          if negb (is_cont b2) then (RuneError, 1)
          else if bool_decide (sz = 3)
          then (Z.lor (Z.lor (Z.shiftl (Z.land b0 0x0F) 12) (Z.shiftl (cont b1) 6)) (cont b2), 3)
          else match p3 with
          | b3 :: _ =>
            if negb (is_cont b3) then (RuneError, 1)
            else (Z.lor (Z.lor (Z.lor (Z.shiftl (Z.land b0 0x07) 18) (Z.shiftl (cont b1) 12))
                               (Z.shiftl (cont b2) 6)) (cont b3), 4)
          | [] => (RuneError, 1)
          end
        | [] => (RuneError, 1)
        end
      | [] => (RuneError, 1)
      end
    end
  end.

(** utf8.RuneStart *)
Definition RuneStart (b : Z) : bool := negb (is_cont b).

(** utf8.DecodeLastRuneInString, on the reversed bytes of the string: the
    candidate start is the nearest rune-start byte at most four bytes from the
    end, and the rune that starts there must end at the end of the string. *)
Definition DecodeLastRune (r : list Z) : Z * nat :=
  match r with
  | [] => (RuneError, 0)
  | b :: r1 =>
    if (b <? 0x80)%Z then (b, 1) else
    let try_from k :=
      let '(rn, size) := DecodeRune (rev (take k r)) in
      if bool_decide (size = k) then (rn, size) else (RuneError, 1) in
    match r1 with
    | b1 :: r2 =>
      if RuneStart b1 then try_from 2 else
      match r2 with
      | b2 :: r3 =>
        if RuneStart b2 then try_from 3 else
        match r3 with
        | b3 :: _ => if RuneStart b3 then try_from 4 else (RuneError, 1)
        | [] => (RuneError, 1)
        end
      | [] => (RuneError, 1)
      end
    | [] => (RuneError, 1)
    end
  end.

(** utf8.AppendRune: the encoding of a rune; a value that is no code point is
    encoded as [RuneError]. *)
Definition enc3 (r : Z) : list Z :=
  [Z.lor 0xE0 (Z.shiftr r 12); Z.lor 0x80 (Z.land (Z.shiftr r 6) 0x3F); Z.lor 0x80 (Z.land r 0x3F)].
Definition EncodeRune (r : Z) : list Z :=
  (if (0 <=? r) && (r <=? 0x7F) then [r]
   else if (0 <=? r) && (r <=? 0x7FF) then
     [Z.lor 0xC0 (Z.shiftr r 6); Z.lor 0x80 (Z.land r 0x3F)]
   else if (r <? 0) || (0x10FFFF <? r) || ((0xD800 <=? r) && (r <=? 0xDFFF)) then enc3 RuneError
   else if r <=? 0xFFFF then enc3 r
   else [Z.lor 0xF0 (Z.shiftr r 18); Z.lor 0x80 (Z.land (Z.shiftr r 12) 0x3F);
         Z.lor 0x80 (Z.land (Z.shiftr r 6) 0x3F); Z.lor 0x80 (Z.land r 0x3F)])%Z.

(** The runes a [for range] over the string visits. The fuel is the length of
    the string: every step consumes at least one byte. *)
Fixpoint runes_go (fuel : nat) (l : list Z) : list Z :=
  match fuel, l with
  | S n, _ :: _ => let '(r, k) := DecodeRune l in r :: runes_go n (drop k l)
  | _, _ => []
  end.
Definition runes (l : list Z) : list Z := runes_go (length l) l.
Definition RuneCountInString (s : string) : nat := length (runes (bytes s)).

(** ** unicode.IsSpace *)
Definition IsSpace (r : Z) : bool :=
  (if r <=? 0xFF then bool_decide (r ∈ [9; 10; 11; 12; 13; 32; 0x85; 0xA0])
   else (r =? 0x1680) || ((0x2000 <=? r) && (r <=? 0x200a)) || (r =? 0x2028) || (r =? 0x2029)
        || (r =? 0x202f) || (r =? 0x205f) || (r =? 0x3000))%Z.

(** * Lemmas *)

Ltac Zify.zify_post_hook ::= Z.to_euclidean_division_equations.

(** ** Bytes *)

Lemma byte_of_ascii_range a : is_byte (byte_of_ascii a).
Proof.
  unfold is_byte, byte_of_ascii. pose proof (Ascii.N_ascii_bounded a). lia.
Qed.

Lemma ascii_byte_id a : ascii_of_byte (byte_of_ascii a) = a.
Proof. unfold ascii_of_byte, byte_of_ascii. by rewrite N2Z.id, Ascii.ascii_N_embedding. Qed.

Lemma byte_ascii_id z : is_byte z -> byte_of_ascii (ascii_of_byte z) = z.
Proof.
  unfold is_byte, ascii_of_byte, byte_of_ascii. intros.
  rewrite Ascii.N_ascii_embedding; lia.
Qed.

Lemma bytes_range s : Forall is_byte (bytes s).
Proof.
  unfold bytes. apply Forall_fmap, Forall_true. intros a. apply byte_of_ascii_range.
Qed.

Lemma str_bytes s : str (bytes s) = s.
Proof.
  unfold str, bytes. induction s as [|a s IH]; simpl; [done|].
  f_equal; [apply ascii_byte_id|exact IH].
Qed.

Lemma bytes_str l : Forall is_byte l -> bytes (str l) = l.
Proof.
  intros Hl. unfold str, bytes.
  rewrite String.list_ascii_of_string_of_list_ascii.
  induction Hl as [|z l Hz _ IH]; simpl; [done|].
  f_equal; [by apply byte_ascii_id|exact IH].
Qed.

Lemma bytes_inj s t : bytes s = bytes t -> s = t.
Proof. intros H. by rewrite <- (str_bytes s), <- (str_bytes t), H. Qed.

Lemma bytes_nil s : bytes s = [] <-> s = ""%string.
Proof. split; [intros H; by apply bytes_inj|by intros ->]. Qed.

Lemma bytes_app s t : bytes (s +:+ t) = bytes s ++ bytes t.
Proof. induction s as [|a s IH]; simpl; [done|]. unfold bytes in *. simpl. by f_equal. Qed.

#[export] Hint Resolve bytes_range byte_of_ascii_range : danmu.
#[export] Hint Rewrite str_bytes : danmu.

(** ** Bit arithmetic *)

Lemma land_low n b : (0 <= n)%Z -> Z.land b (Z.ones n) = (b mod 2 ^ n)%Z.
Proof. intros. by rewrite Z.land_ones. Qed.

Lemma lor_shift n a b : (0 <= n -> 0 <= b < 2 ^ n -> Z.lor (Z.shiftl a n) b = a * 2 ^ n + b)%Z.
Proof.
  intros Hn Hb. rewrite <- Z.add_lor_land, Z.shiftl_mul_pow2 by done.
  replace (Z.land (a * 2 ^ n) b) with 0%Z; [lia|]. symmetry.
  apply Z.bits_inj'. intros i Hi. rewrite Z.land_spec, Z.bits_0.
  destruct (Z.lt_ge_cases i n).
  - by rewrite Z.mul_pow2_bits_low.
  - assert (Z.testbit b i = false) as ->; [|by rewrite andb_false_r].
    destruct (Z.eq_dec b 0) as [->|]; [by rewrite Z.bits_0|].
    apply Z.bits_above_log2; [lia|].
    apply Z.log2_lt_pow2; [lia|]. apply Z.lt_le_trans with (2 ^ n)%Z; [lia|].
    apply Z.pow_le_mono_r; lia.
Qed.

Lemma cont_mod b : cont b = (b mod 64)%Z.
Proof. exact (land_low 6 b ltac:(lia)). Qed.

(** ** Encoding and decoding of one rune *)

Definition valid_rune (r : Z) : Prop := (0 <= r < 0xD800 \/ 0xE000 <= r <= 0x10FFFF)%Z.

(** The bytes of an encoding as arithmetic expressions. *)
Definition enc_arith (r : Z) : list Z :=
  (if r <=? 0x7F then [r]
   else if r <=? 0x7FF then [0xC0 + r / 64; 0x80 + r mod 64]
   else if r <=? 0xFFFF then [0xE0 + r / 4096; 0x80 + r / 64 mod 64; 0x80 + r mod 64]
   else [0xF0 + r / 262144; 0x80 + r / 4096 mod 64; 0x80 + r / 64 mod 64; 0x80 + r mod 64])%Z.

Lemma lor_cont x : (Z.lor 0x80 (Z.land x 0x3F) = 0x80 + x mod 64)%Z.
Proof.
  change (Z.land x 63) with (Z.land x (Z.ones 6)). rewrite land_low by lia.
  exact (lor_shift 6 2 (x mod 64) ltac:(lia) (Z.mod_pos_bound _ 64 ltac:(lia))).
Qed.

Lemma EncodeRune_arith r : valid_rune r -> EncodeRune r = enc_arith r.
Proof.
  intros Hv. unfold EncodeRune, enc_arith, enc3, valid_rune in *.
  rewrite !lor_cont, !Z.shiftr_div_pow2 by lia.
  change (2 ^ 6)%Z with 64%Z. change (2 ^ 12)%Z with 4096%Z. change (2 ^ 18)%Z with 262144%Z.
  repeat case_match; try lia; try done.
  - f_equal. apply (lor_shift 6 3); lia.
  - f_equal. apply (lor_shift 4 14); lia.
  - f_equal. apply (lor_shift 3 30); lia.
Qed.

Lemma join2 x b : (Z.lor (Z.shiftl x 6) (cont b) = x * 64 + b mod 64)%Z.
Proof. rewrite cont_mod. exact (lor_shift 6 x (b mod 64) ltac:(lia) ltac:(lia)). Qed.

Lemma join3 x b c :
  (Z.lor (Z.lor (Z.shiftl x 12) (Z.shiftl (cont b) 6)) (cont c)
   = x * 4096 + b mod 64 * 64 + c mod 64)%Z.
Proof.
  rewrite <- Z.lor_assoc, join2, cont_mod.
  rewrite (lor_shift 12 x) by lia. lia.
Qed.

Lemma join4 x b c d :
  (Z.lor (Z.lor (Z.lor (Z.shiftl x 18) (Z.shiftl (cont b) 12)) (Z.shiftl (cont c) 6)) (cont d)
   = x * 262144 + b mod 64 * 4096 + c mod 64 * 64 + d mod 64)%Z.
Proof.
  rewrite <- !Z.lor_assoc, Z.lor_assoc, (Z.lor_comm (Z.shiftl x 18)).
  rewrite (Z.lor_comm _ (Z.lor (Z.shiftl (cont c) 6) (cont d))), Z.lor_assoc.
  rewrite <- (Z.lor_comm (Z.shiftl (cont b) 12)), Z.lor_assoc, join3, Z.lor_comm, cont_mod.
  rewrite (lor_shift 18 x) by lia. lia.
Qed.

(** The three results of decoding: the empty string, an invalid byte, or the
    encoding of a valid rune. *)
Definition decoded (l : list Z) (r : Z) (k : nat) : Prop :=
  (l = [] /\ r = RuneError /\ k = 0) \/
  (l <> [] /\ r = RuneError /\ k = 1) \/
  (exists rest, valid_rune r /\ l = enc_arith r ++ rest /\ k = length (enc_arith r)).

Lemma decoded_valid l r k enc rest :
  valid_rune r /\ enc_arith r = enc -> l = enc ++ rest -> k = length enc -> decoded l r k.
Proof. intros [Hv <-] -> ->. right; right. by exists rest. Qed.

Lemma lead_spec b sz lo hi :
  lead b = Some (sz, lo, hi) ->
  (sz = 2%nat /\ 0xC2 <= b <= 0xDF /\ lo = 0x80 /\ hi = 0xBF)%Z \/
  (sz = 3%nat /\ 0xE0 <= b <= 0xEF /\ lo = (if b =? 0xE0 then 0xA0 else 0x80) /\
     hi = (if b =? 0xED then 0x9F else 0xBF))%Z \/
  (sz = 4%nat /\ 0xF0 <= b <= 0xF4 /\ lo = (if b =? 0xF0 then 0x90 else 0x80) /\
     hi = (if b =? 0xF4 then 0x8F else 0xBF))%Z.
Proof. unfold lead. intros H. repeat case_match; simplify_eq; lia. Qed.

Lemma enc2_arith b0 b1 (r := (b0 mod 32 * 64 + b1 mod 64)%Z) :
  (0xC2 <= b0 <= 0xDF -> 0x80 <= b1 <= 0xBF ->
   valid_rune r /\ enc_arith r = [b0; b1])%Z.
Proof.
  intros. subst r. split; [unfold valid_rune; lia|].
  unfold enc_arith. repeat case_match; try lia. repeat f_equal; lia.
Qed.

Lemma enc3_arith b0 b1 b2 (r := (b0 mod 16 * 4096 + b1 mod 64 * 64 + b2 mod 64)%Z) :
  (0xE0 <= b0 <= 0xEF -> 0x80 <= b1 <= 0xBF -> 0x80 <= b2 <= 0xBF ->
   (b0 = 0xE0 -> 0xA0 <= b1) -> (b0 = 0xED -> b1 <= 0x9F) ->
   valid_rune r /\ enc_arith r = [b0; b1; b2])%Z.
Proof.
  intros. subst r. split; [unfold valid_rune; lia|].
  unfold enc_arith. repeat case_match; try lia. repeat f_equal; lia.
Qed.

Lemma enc4_arith b0 b1 b2 b3
  (r := (b0 mod 8 * 262144 + b1 mod 64 * 4096 + b2 mod 64 * 64 + b3 mod 64)%Z) :
  (0xF0 <= b0 <= 0xF4 -> 0x80 <= b1 <= 0xBF -> 0x80 <= b2 <= 0xBF -> 0x80 <= b3 <= 0xBF ->
   (b0 = 0xF0 -> 0x90 <= b1) -> (b0 = 0xF4 -> b1 <= 0x8F) ->
   valid_rune r /\ enc_arith r = [b0; b1; b2; b3])%Z.
Proof.
  intros. subst r. split; [unfold valid_rune; lia|].
  unfold enc_arith. repeat case_match; try lia. repeat f_equal; lia.
Qed.

Lemma is_cont_range b : is_cont b = true -> (0x80 <= b <= 0xBF)%Z.
Proof. unfold is_cont. lia. Qed.

Lemma decode_sound l r k :
  Forall is_byte l -> DecodeRune l = (r, k) -> decoded l r k.
Proof.
  intros Hl Hd. destruct l as [|b0 l]; [left; by simplify_eq/=|].
  inversion_clear Hl as [|? ? Hb0 Hl']. unfold is_byte in Hb0. simpl in Hd.
  assert (forall r' k', (RuneError, 1) = (r', k') -> decoded (b0 :: l) r' k') as Hbad.
  { intros r' k' [= <- <-]. right; left. done. }
  destruct (b0 <? 0x80)%Z eqn:Ha.
  { simplify_eq. apply (decoded_valid _ _ _ [r] l); [|done..].
    unfold valid_rune, enc_arith. case_match; [split; [lia|done]|lia]. }
  destruct (lead b0) as [[[sz lo] hi]|] eqn:Hlead; [|by apply Hbad].
  apply lead_spec in Hlead.
  destruct l as [|b1 l]; [by apply Hbad|].
  destruct ((lo <=? b1)%Z && (b1 <=? hi)%Z) eqn:H1; simpl in Hd; [|by apply Hbad].
  case_bool_decide as E2.
  { rewrite join2 in Hd. simplify_eq. apply (decoded_valid _ _ _ [b0; b1] l); [|done..].
    change 31%Z with (Z.ones 5). rewrite land_low by lia. apply enc2_arith; lia. }
  destruct l as [|b2 l]; [by apply Hbad|].
  destruct (is_cont b2) eqn:H2; simpl in Hd; [|by apply Hbad].
  apply is_cont_range in H2.
  case_bool_decide as E3.
  { rewrite join3 in Hd. simplify_eq. apply (decoded_valid _ _ _ [b0; b1; b2] l); [|done..].
    change 15%Z with (Z.ones 4). rewrite land_low by lia.
    apply enc3_arith; repeat case_match; lia. }
  destruct l as [|b3 l]; [by apply Hbad|].
  destruct (is_cont b3) eqn:H3; simpl in Hd; [|by apply Hbad].
  apply is_cont_range in H3.
  rewrite join4 in Hd. simplify_eq. apply (decoded_valid _ _ _ [b0; b1; b2; b3] l); [|done..].
  change 7%Z with (Z.ones 3). rewrite land_low by lia.
  apply enc4_arith; repeat case_match; lia.
Qed.

Lemma lead2 b : (0xC2 <= b <= 0xDF)%Z -> lead b = Some (2, 0x80%Z, 0xBF%Z).
Proof. intros. unfold lead. repeat case_match; try lia; done. Qed.

Lemma lead3 b :
  (0xE0 <= b <= 0xEF)%Z ->
  lead b = Some (3%nat, if b =? 0xE0 then 0xA0 else 0x80, if b =? 0xED then 0x9F else 0xBF)%Z.
Proof. intros. unfold lead. repeat case_match; try lia; done. Qed.

Lemma lead4 b :
  (0xF0 <= b <= 0xF4)%Z ->
  lead b = Some (4%nat, if b =? 0xF0 then 0x90 else 0x80, if b =? 0xF4 then 0x8F else 0xBF)%Z.
Proof. intros. unfold lead. repeat case_match; try lia; done. Qed.

Lemma decode2 b0 b1 rest :
  (0xC2 <= b0 <= 0xDF -> 0x80 <= b1 <= 0xBF ->
   DecodeRune (b0 :: b1 :: rest) = (b0 mod 32 * 64 + b1 mod 64, 2%nat))%Z.
Proof.
  intros. unfold DecodeRune. rewrite lead2 by lia. case_match; [lia|].
  replace ((0x80 <=? b1)%Z && (b1 <=? 0xBF)%Z) with true by lia. simpl.
  rewrite join2. by change 31%Z with (Z.ones 5); rewrite land_low by lia.
Qed.

Lemma decode3 b0 b1 b2 rest :
  (0xE0 <= b0 <= 0xEF -> 0x80 <= b1 <= 0xBF -> 0x80 <= b2 <= 0xBF ->
   (b0 = 0xE0 -> 0xA0 <= b1) -> (b0 = 0xED -> b1 <= 0x9F) ->
   DecodeRune (b0 :: b1 :: b2 :: rest)
   = (b0 mod 16 * 4096 + b1 mod 64 * 64 + b2 mod 64, 3%nat))%Z.
Proof.
  intros. unfold DecodeRune. rewrite lead3 by lia. case_match; [lia|].
  replace (_ && _) with true by (repeat case_match; lia). simpl.
  replace (is_cont b2) with true by (unfold is_cont; lia). simpl.
  rewrite join3. by change 15%Z with (Z.ones 4); rewrite land_low by lia.
Qed.

Lemma decode4 b0 b1 b2 b3 rest :
  (0xF0 <= b0 <= 0xF4 -> 0x80 <= b1 <= 0xBF -> 0x80 <= b2 <= 0xBF -> 0x80 <= b3 <= 0xBF ->
   (b0 = 0xF0 -> 0x90 <= b1) -> (b0 = 0xF4 -> b1 <= 0x8F) ->
   DecodeRune (b0 :: b1 :: b2 :: b3 :: rest)
   = (b0 mod 8 * 262144 + b1 mod 64 * 4096 + b2 mod 64 * 64 + b3 mod 64, 4%nat))%Z.
Proof.
  intros. unfold DecodeRune. rewrite lead4 by lia. case_match; [lia|].
  replace (_ && _) with true by (repeat case_match; lia). simpl.
  replace (is_cont b2) with true by (unfold is_cont; lia). simpl.
  replace (is_cont b3) with true by (unfold is_cont; lia). simpl.
  rewrite join4. by change 7%Z with (Z.ones 3); rewrite land_low by lia.
Qed.

Lemma decode_complete r rest :
  valid_rune r -> DecodeRune (enc_arith r ++ rest) = (r, length (enc_arith r)).
Proof.
  unfold valid_rune, enc_arith. intros Hv. repeat case_match; simpl app; simpl length.
  - unfold DecodeRune. case_match; [done|lia].
  - rewrite decode2 by lia. f_equal. lia.
  - rewrite decode3 by lia. f_equal. lia.
  - rewrite decode4 by lia. f_equal. lia.
Qed.

Lemma enc_arith_pos r : 0 < length (enc_arith r).
Proof. unfold enc_arith. repeat case_match; simpl; lia. Qed.

Lemma enc_arith_bytes r : valid_rune r -> Forall is_byte (enc_arith r).
Proof.
  unfold valid_rune, enc_arith, is_byte. intros.
  repeat case_match; repeat constructor; lia.
Qed.

(** Only an encoding can be decoded to a rune that is a space. *)
Lemma IsSpace_cases r :
  IsSpace r = true ->
  (r ∈ [9; 10; 11; 12; 13; 32; 0x85; 0xA0; 0x1680; 0x2028; 0x2029; 0x202f; 0x205f; 0x3000]
   \/ 0x2000 <= r <= 0x200a)%Z.
Proof.
  unfold IsSpace. case_match.
  - rewrite bool_decide_eq_true. rewrite !elem_of_cons. tauto.
  - rewrite !elem_of_cons. lia.
Qed.

Lemma IsSpace_valid r : IsSpace r = true -> valid_rune r /\ r <> RuneError.
Proof.
  intros [H|H]%IsSpace_cases; unfold valid_rune, RuneError; [|lia].
  rewrite !elem_of_cons, elem_of_nil in H. lia.
Qed.

Lemma decode_space l r k :
  Forall is_byte l -> DecodeRune l = (r, k) -> IsSpace r = true ->
  exists rest, l = enc_arith r ++ rest /\ k = length (enc_arith r).
Proof.
  intros Hl Hd Hs. destruct (IsSpace_valid r Hs) as [Hv Hne].
  destruct (decode_sound l r k Hl Hd) as [(_ & -> & _)|[(_ & -> & _)|(rest & _ & -> & ->)]];
    [done|done|]. by exists rest.
Qed.

(** The bytes of an encoding: an ASCII byte, or a start byte and continuations. *)
Lemma enc_arith_shape r :
  valid_rune r ->
  (enc_arith r = [r] /\ r < 0x80)%Z \/
  (exists b0 b1, enc_arith r = [b0; b1] /\ RuneStart b0 = true /\ 0x80 <= b1 /\ is_cont b1 = true)%Z \/
  (exists b0 b1 b2, enc_arith r = [b0; b1; b2] /\ RuneStart b0 = true /\
     is_cont b1 = true /\ is_cont b2 = true)%Z \/
  (exists b0 b1 b2 b3, enc_arith r = [b0; b1; b2; b3] /\ RuneStart b0 = true /\
     is_cont b1 = true /\ is_cont b2 = true /\ is_cont b3 = true)%Z.
Proof.
  unfold enc_arith, valid_rune, RuneStart, is_cont. intros. repeat case_match.
  - left. split; [done|lia].
  - right; left. eexists _, _. split; [done|]. lia.
  - right; right; left. eexists _, _, _. split; [done|]. lia.
  - right; right; right. eexists _, _, _, _. split; [done|]. lia.
Qed.

#[export] Hint Resolve enc_arith_bytes : danmu.

(** A Go string that is valid UTF-8. *)
Definition valid_utf8 (s : string) : Prop :=
  exists rs, Forall valid_rune rs /\ bytes s = rs ≫= enc_arith.
