(* ===== verification/GoStrings.v ===== *)
(** * Package strings, encoding/hex and fmt's %d

    [TrimSpace], [TrimSuffix], [Contains], [Split] and [ToLower] of package
    strings, [EncodeToString] of encoding/hex, [Itoa] for the verb %d.

    The case mapping of runes above ASCII is generated Unicode data that the
    repository does not hold: it is the field of the class [CaseTable]. *)

From stdpp Require Import pretty.
From S2P Require Import Prelude.
From S2P Require Import Utf8.

(** ** strings.TrimSpace *)
Fixpoint trim_left_go (fuel : nat) (l : list Z) : list Z :=
  match fuel, l with
  | S n, _ :: _ => let '(r, k) := DecodeRune l in
                   if IsSpace r then trim_left_go n (drop k l) else l
  | _, _ => l
  end.
Fixpoint trim_right_go (fuel : nat) (rl : list Z) : list Z :=
  match fuel, rl with
  | S n, _ :: _ => let '(r, k) := DecodeLastRune rl in
                   if IsSpace r then trim_right_go n (drop k rl) else rl
  | _, _ => rl
  end.
Definition trim_left (l : list Z) : list Z := trim_left_go (length l) l.
Definition trim_right (l : list Z) : list Z := rev (trim_right_go (length l) (rev l)).
Definition trim_space (l : list Z) : list Z := trim_right (trim_left l).
Definition TrimSpace (s : string) : string := str (trim_space (bytes s)).

(** The test whether [strings.TrimSpace(s)] is empty. *)
Definition is_blank (s : string) : bool := bool_decide (TrimSpace s = ""%string).

(** ** strings.Contains, HasSuffix, TrimSuffix, Split *)
Fixpoint has_prefix (l p : list Z) : bool :=
  match p, l with
  | [], _ => true
  | x :: p', y :: l' => (x =? y)%Z && has_prefix l' p'
  | _ :: _, [] => false
  end.
Fixpoint contains (l sub : list Z) : bool :=
  has_prefix l sub || match l with [] => false | _ :: l' => contains l' sub end.
Definition Contains (s sub : string) : bool := contains (bytes s) (bytes sub).
Definition HasSuffix (s suffix : string) : bool := has_prefix (rev (bytes s)) (rev (bytes suffix)).
Definition TrimSuffix (s suffix : string) : string :=
  if HasSuffix s suffix then str (take (length (bytes s) - length (bytes suffix)) (bytes s)) else s.

(** strings.Split with a separator of one byte. *)
Fixpoint split_go (sep : Z) (l : list Z) : list (list Z) :=
  match l with
  | [] => [[]]
  | b :: l' =>
    if (b =? sep)%Z then [] :: split_go sep l'
    else match split_go sep l' with
         | piece :: rest => (b :: piece) :: rest
         | [] => [[b]]
         end
  end.
Definition Split (s : string) (sep : ascii) : list string :=
  str <$> split_go (byte_of_ascii sep) (bytes s).

(** ** strings.ToLower *)
Class CaseTable := { lower_table : Z -> Z }.

(** unicode.ToLower: ASCII by arithmetic, the other runes by the case table. *)
Definition unicode_ToLower `{CaseTable} (r : Z) : Z :=
  (if r <=? 0x7F then (if (65 <=? r) && (r <=? 90) then r + 32 else r) else lower_table r)%Z.
(** strings.ToLower is strings.Map(unicode.ToLower, s). *)
Definition ToLower `{CaseTable} (s : string) : string :=
  str (r ← runes (bytes s); EncodeRune (unicode_ToLower r)).

(** ** encoding/hex and fmt's %d *)
Definition hex_digit (n : Z) : Z := (if n <? 10 then 48 + n else 87 + n)%Z.
Definition hex_byte (b : Z) : list Z := [hex_digit (Z.shiftr b 4); hex_digit (Z.land b 0x0F)].
Definition EncodeToString (l : list Z) : string := str (l ≫= hex_byte).
Definition Itoa (z : Z) : string := pretty z.

(** * Lemmas *)

Ltac Zify.zify_post_hook ::= Z.to_euclidean_division_equations.

(** ** Trimming *)

(** A sequence of encoded spaces, and the two ways a string can have a space at
    its border. *)
Inductive blank : list Z -> Prop :=
  | blank_nil : blank []
  | blank_cons r l : IsSpace r = true -> blank l -> blank (enc_arith r ++ l).
Definition starts_space (l : list Z) : Prop :=
  exists r rest, IsSpace r = true /\ l = enc_arith r ++ rest.
Definition ends_space (l : list Z) : Prop :=
  exists r rest, IsSpace r = true /\ l = rest ++ enc_arith r.
#[export] Hint Constructors blank : danmu.

Lemma blank_app l1 l2 : blank l1 -> blank l2 -> blank (l1 ++ l2).
Proof. induction 1; intros; simpl; [done|]. rewrite <- app_assoc. auto with danmu. Qed.

Lemma blank_one r : IsSpace r = true -> blank (enc_arith r).
Proof. intros. rewrite <- (app_nil_r (enc_arith r)). auto with danmu. Qed.

Lemma starts_space_nil : ~ starts_space [].
Proof.
  intros (r & rest & _ & He). pose proof (enc_arith_pos r).
  symmetry in He. apply app_eq_nil in He as [He _]. rewrite He in *. simpl in *. lia.
Qed.

Lemma ends_space_nil : ~ ends_space [].
Proof.
  intros (r & rest & _ & He). pose proof (enc_arith_pos r).
  symmetry in He. apply app_eq_nil in He as [_ He]. rewrite He in *. simpl in *. lia.
Qed.

Lemma trim_left_go_step n l r rest :
  IsSpace r = true -> l = enc_arith r ++ rest ->
  trim_left_go (S n) l = trim_left_go n rest.
Proof.
  intros Hs ->. pose proof (decode_complete r rest (proj1 (IsSpace_valid r Hs))) as Hd.
  pose proof (enc_arith_pos r).
  destruct (enc_arith r ++ rest) as [|b l] eqn:He.
  { apply (f_equal length) in He. rewrite length_app in He. simpl in He. lia. }
  cbn [trim_left_go]. rewrite Hd, Hs, <- He. f_equal. by rewrite drop_app_length.
Qed.

Lemma trim_left_go_stop n l :
  Forall is_byte l -> ~ starts_space l -> trim_left_go n l = l.
Proof.
  intros Hl Hns. destruct n as [|n], l as [|b l]; try done.
  cbn [trim_left_go]. destruct (DecodeRune (b :: l)) as [r k] eqn:Hd.
  destruct (IsSpace r) eqn:Hs; [|done].
  destruct (decode_space _ _ _ Hl Hd Hs) as (rest & He & _).
  destruct Hns. by exists r, rest.
Qed.

(** A string of bytes starts with a space or does not: the decoder decides. *)
Lemma starts_space_dec l : Forall is_byte l -> starts_space l \/ ~ starts_space l.
Proof.
  intros Hl. destruct (DecodeRune l) as [r k] eqn:Hd. destruct (IsSpace r) eqn:Hs.
  - left. destruct (decode_space _ _ _ Hl Hd Hs) as (rest & He & _). by exists r, rest.
  - right. intros (r' & rest & Hs' & ->).
    rewrite (decode_complete r' rest) in Hd by (by apply IsSpace_valid). congruence.
Qed.

Lemma trim_left_go_spec n l :
  Forall is_byte l -> length l <= n ->
  exists pre, blank pre /\ l = pre ++ trim_left_go n l /\ ~ starts_space (trim_left_go n l).
Proof.
  revert l. induction n as [|n IH]; intros l Hl Hn.
  { destruct l; [|simpl in Hn; lia].
    exists []. split_and!; eauto using starts_space_nil with danmu. }
  destruct (starts_space_dec l Hl) as [(r & rest & Hs & He)|Hns].
  - rewrite (trim_left_go_step n l r rest Hs He). subst l.
    apply Forall_app in Hl as [_ Hrest]. rewrite length_app in Hn.
    pose proof (enc_arith_pos r).
    destruct (IH rest Hrest ltac:(lia)) as (pre & Hb & He & Hns).
    exists (enc_arith r ++ pre). split_and!; [by constructor| |done].
    by rewrite <- app_assoc, <- He.
  - rewrite trim_left_go_stop by done. exists []. eauto with danmu.
Qed.

(** The same steps from the right. *)

#[local] Arguments DecodeRune : simpl never.

Lemma decode_last_complete r rest :
  valid_rune r -> DecodeLastRune (rev (rest ++ enc_arith r)) = (r, length (enc_arith r)).
Proof.
  intros Hv. pose proof (decode_complete r [] Hv) as Hd. rewrite app_nil_r in Hd.
  rewrite rev_app_distr. generalize (rev rest) as t. clear rest. intros t.
  assert (forall b x y : bool, b = true -> (if negb b then x else y) = y) as Hneg by (by intros [] ???).
  assert (forall b, is_cont b = true -> (b <? 0x80)%Z = false /\ RuneStart b = false) as Hc.
  { unfold RuneStart, is_cont. lia. }
  destruct (enc_arith_shape r Hv) as [[He ?]|[(b0&b1&He&?&?&?)|[(b0&b1&b2&He&?&?&?)|(b0&b1&b2&b3&He&?&?&?&?)]]];
    rewrite He in *; cbn [rev app DecodeLastRune length] in *.
  - by replace (r <? 128)%Z with true by lia.
  - destruct (Hc b1) as [-> _]; [done|].
    rewrite H. simpl. rewrite Hd. done.
  - destruct (Hc b2) as [-> _]; [done|].
    destruct (Hc b1) as [_ ->]; [done|].
    rewrite H. simpl. rewrite Hd. done.
  - destruct (Hc b3) as [-> _]; [done|]. destruct (Hc b1) as [_ ->]; [done|].
    destruct (Hc b2) as [_ ->]; [done|].
    rewrite H. simpl. rewrite Hd. done.
Qed.

Lemma decode_last_space l r k :
  Forall is_byte l -> DecodeLastRune (rev l) = (r, k) -> IsSpace r = true -> ends_space l.
Proof.
  intros Hl Hd Hs. destruct (IsSpace_valid r Hs) as [Hv Hne].
  assert (forall m, (let '(rn, size) := DecodeRune (rev (take m (rev l))) in
                if bool_decide (size = m) then (rn, size) else (RuneError, 1)) = (r, k) ->
               ends_space l) as Htry.
  { intros m Hm. destruct (DecodeRune (rev (take m (rev l)))) as [rn size] eqn:Hdm.
    case_bool_decide; [|by simplify_eq]. simplify_eq.
    assert (l = rev (drop k (rev l)) ++ rev (take k (rev l))) as Hsplit.
    { by rewrite <- rev_app_distr, take_drop, rev_involutive. }
    destruct (decode_space (rev (take k (rev l))) r k) as (rest & He & Hk); [|done..|].
    { rewrite Hsplit in Hl. by apply Forall_app in Hl as [_ ?]. }
    assert (rest = []) as ->.
    { apply (f_equal length) in He. rewrite length_app, <- Hk, length_rev, length_take in He.
      destruct rest; [done|simpl in He; lia]. }
    exists r, (rev (drop k (rev l))). split; [done|]. by rewrite app_nil_r in He; rewrite <- He. }
  destruct (rev l) as [|b rl] eqn:Hrev; [by simplify_eq/=|].
  unfold DecodeLastRune in Hd. case_match eqn:Ha.
  - simplify_eq. exists r, (rev rl). split; [done|].
    rewrite <- (rev_involutive l), Hrev. simpl. f_equal. unfold enc_arith.
    destruct (proj1 (Forall_forall _ _) Hl r); [|by case_match; [|lia]].
    apply list_elem_of_In, in_rev. rewrite Hrev. by left.
  - destruct rl as [|b1 rl]; [by simplify_eq|]. destruct (RuneStart b1); [by apply (Htry 2)|].
    destruct rl as [|b2 rl]; [by simplify_eq|]. destruct (RuneStart b2); [by apply (Htry 3)|].
    destruct rl as [|b3 rl]; [by simplify_eq|]. destruct (RuneStart b3); [by apply (Htry 4)|].
    by simplify_eq.
Qed.

Lemma trim_right_go_step n rl r rest :
  IsSpace r = true -> rl = rev (rest ++ enc_arith r) ->
  trim_right_go (S n) rl = trim_right_go n (rev rest).
Proof.
  intros Hs ->. pose proof (decode_last_complete r rest (proj1 (IsSpace_valid r Hs))) as Hd.
  pose proof (enc_arith_pos r).
  assert (drop (length (enc_arith r)) (rev (rest ++ enc_arith r)) = rev rest) as Hdrop.
  { rewrite rev_app_distr, <- (length_rev (enc_arith r)). by rewrite drop_app_length. }
  destruct (rev (rest ++ enc_arith r)) as [|b l] eqn:He.
  { apply (f_equal length) in He. rewrite length_rev, length_app in He. simpl in He. lia. }
  cbn [trim_right_go]. by rewrite Hd, Hs, Hdrop.
Qed.

Lemma trim_right_go_stop n l :
  Forall is_byte l -> ~ ends_space l -> trim_right_go n (rev l) = rev l.
Proof.
  intros Hl Hns. destruct n as [|n]; [done|]. destruct (rev l) as [|b rl] eqn:Hrev; [done|].
  cbn [trim_right_go]. destruct (DecodeLastRune (b :: rl)) as [r k] eqn:Hd.
  destruct (IsSpace r) eqn:Hs; [|done].
  rewrite <- Hrev in Hd. by destruct Hns; eapply decode_last_space.
Qed.

Lemma ends_space_dec l : Forall is_byte l -> ends_space l \/ ~ ends_space l.
Proof.
  intros Hl. destruct (DecodeLastRune (rev l)) as [r k] eqn:Hd. destruct (IsSpace r) eqn:Hs.
  - left. by eapply decode_last_space.
  - right. intros (r' & rest & Hs' & ->).
    rewrite decode_last_complete in Hd by (by apply IsSpace_valid). congruence.
Qed.

Lemma trim_right_go_spec n l :
  Forall is_byte l -> length l <= n ->
  exists post, blank post /\ l = rev (trim_right_go n (rev l)) ++ post /\
    ~ ends_space (rev (trim_right_go n (rev l))).
Proof.
  revert l. induction n as [|n IH]; intros l Hl Hn.
  { destruct l; [|simpl in Hn; lia].
    exists []. split_and!; eauto using ends_space_nil with danmu. }
  destruct (ends_space_dec l Hl) as [(r & rest & Hs & He)|Hns].
  - rewrite (trim_right_go_step n (rev l) r rest Hs (f_equal (@rev Z) He)). subst l.
    apply Forall_app in Hl as [Hrest _]. rewrite length_app in Hn.
    pose proof (enc_arith_pos r).
    destruct (IH rest Hrest ltac:(lia)) as (post & Hb & He & Hns).
    exists (post ++ enc_arith r). split_and!; [auto using blank_app, blank_one| |done].
    by rewrite app_assoc, <- He.
  - rewrite trim_right_go_stop, rev_involutive by done. exists [].
    split_and!; [auto with danmu|by rewrite app_nil_r|done].
Qed.

(** [trim_space l] is [l] without blank borders, and has no border left to trim. *)
Lemma trim_space_spec l :
  Forall is_byte l ->
  exists pre post, blank pre /\ blank post /\ l = pre ++ trim_space l ++ post /\
    ~ starts_space (trim_space l) /\ ~ ends_space (trim_space l).
Proof.
  intros Hl. unfold trim_space, trim_left, trim_right.
  destruct (trim_left_go_spec (length l) l Hl ltac:(lia)) as (pre & Hpre & He1 & Hns1).
  set (m := trim_left_go (length l) l) in *. clearbody m.
  assert (Forall is_byte m) as Hm by (rewrite He1 in Hl; by apply Forall_app in Hl as [_ ?]).
  destruct (trim_right_go_spec (length m) m Hm ltac:(lia)) as (post & Hpost & He2 & Hns2).
  set (c := rev (trim_right_go (length m) (rev m))) in *. clearbody c.
  exists pre, post. split_and!; [done..|by rewrite <- He2| |done].
  intros (r & rest & Hs & Hc). destruct Hns1. exists r, (rest ++ post).
  split; [done|]. by rewrite He2, Hc, app_assoc.
Qed.

Lemma trim_space_bytes l : Forall is_byte l -> Forall is_byte (trim_space l).
Proof.
  intros Hl. destruct (trim_space_spec l Hl) as (pre & post & _ & _ & He & _).
  rewrite He in Hl. apply Forall_app in Hl as [_ Hl]. by apply Forall_app in Hl as [? _].
Qed.

Lemma trim_space_fixed l :
  Forall is_byte l -> ~ starts_space l -> ~ ends_space l -> trim_space l = l.
Proof.
  intros Hl Hs He. unfold trim_space, trim_left, trim_right.
  rewrite trim_left_go_stop by done. by rewrite trim_right_go_stop, rev_involutive by done.
Qed.

Lemma trim_space_idemp l : Forall is_byte l -> trim_space (trim_space l) = trim_space l.
Proof.
  intros Hl. destruct (trim_space_spec l Hl) as (pre & post & _ & _ & _ & Hs & He).
  by apply trim_space_fixed; [apply trim_space_bytes|..].
Qed.

Lemma trim_left_blank l : blank l -> trim_left l = [].
Proof.
  unfold trim_left. intros Hb.
  assert (forall n, length l <= n -> trim_left_go n l = []) as H; [|by apply H].
  induction Hb as [|r l Hs Hb IH]; intros n Hn; [by destruct n|].
  rewrite length_app in Hn. pose proof (enc_arith_pos r).
  destruct n as [|n]; [lia|]. rewrite (trim_left_go_step n _ r l) by done. apply IH. lia.
Qed.

Lemma trim_space_nil_iff l : Forall is_byte l -> trim_space l = [] <-> blank l.
Proof.
  intros Hl. split.
  - intros H. destruct (trim_space_spec l Hl) as (pre & post & ? & ? & He & _).
    rewrite H in He. simpl in He. subst l. by apply blank_app.
  - intros Hb. unfold trim_space. by rewrite trim_left_blank.
Qed.

(** The string-level statements the components use. *)
Definition blank_string (s : string) : Prop := blank (bytes s).

Lemma bytes_TrimSpace s : bytes (TrimSpace s) = trim_space (bytes s).
Proof. unfold TrimSpace. rewrite bytes_str; [done|]. apply trim_space_bytes, bytes_range. Qed.

Lemma TrimSpace_idemp s : TrimSpace (TrimSpace s) = TrimSpace s.
Proof. apply bytes_inj. rewrite !bytes_TrimSpace. apply trim_space_idemp, bytes_range. Qed.

Lemma TrimSpace_blank s : TrimSpace s = ""%string <-> blank_string s.
Proof.
  rewrite <- bytes_nil, bytes_TrimSpace. apply trim_space_nil_iff, bytes_range.
Qed.

#[export] Hint Rewrite TrimSpace_idemp bytes_TrimSpace : danmu.

Lemma is_blank_spec s : is_blank s = true <-> blank_string s.
Proof. unfold is_blank. by rewrite bool_decide_eq_true, TrimSpace_blank. Qed.

Lemma is_blank_false s : is_blank s = false <-> ~ blank_string s.
Proof. rewrite <- is_blank_spec. by destruct (is_blank s). Qed.

Lemma is_blank_TrimSpace s : is_blank (TrimSpace s) = is_blank s.
Proof. unfold is_blank. by rewrite TrimSpace_idemp. Qed.

#[export] Hint Rewrite is_blank_TrimSpace : danmu.

(** ** Substrings *)

Lemma has_prefix_spec l p : has_prefix l p = true <-> exists rest, l = p ++ rest.
Proof.
  revert l. induction p as [|x p IH]; intros [|y l]; simpl.
  - split; [by exists []|done].
  - split; [by exists (y :: l)|done].
  - split; [done|]. by intros [rest ?].
  - rewrite andb_true_iff, Z.eqb_eq, IH. split.
    + intros [-> [rest ->]]. by exists rest.
    + intros [rest [= -> ->]]. eauto.
Qed.

Lemma contains_spec l sub : contains l sub = true <-> exists a b, l = a ++ sub ++ b.
Proof.
  induction l as [|x l IH]; cbn [contains]; rewrite orb_true_iff, has_prefix_spec.
  - split.
    + intros [[b ->]|[=]]. by exists [], b.
    + intros (a & b & He). left. destruct a; [by exists b|done].
  - rewrite IH. split.
    + intros [[b ->]|(a & b & ->)]; [by exists [], b|by exists (x :: a), b].
    + intros ([|y a] & b & He); simpl in He; [left; by exists b|].
      right. injection He as _ ->. by exists a, b.
Qed.

Lemma Contains_spec s sub : Contains s sub = true <-> exists a b, s = a +:+ sub +:+ b.
Proof.
  unfold Contains. rewrite contains_spec. split.
  - intros (a & b & He). exists (str a), (str b). apply bytes_inj.
    pose proof (bytes_range s) as Hs. rewrite He in Hs.
    apply Forall_app in Hs as [Ha Hs]. apply Forall_app in Hs as [_ Hb].
    by rewrite !bytes_app, !bytes_str.
  - intros (a & b & ->). exists (bytes a), (bytes b). by rewrite !bytes_app.
Qed.

(** ** Splitting *)

Fixpoint join_go (sep : Z) (ps : list (list Z)) : list Z :=
  match ps with
  | [] => []
  | [p] => p
  | p :: ps' => p ++ sep :: join_go sep ps'
  end.

Lemma split_go_nonempty sep l : split_go sep l <> [].
Proof. destruct l as [|b l]; simpl; [done|]. repeat case_match; done. Qed.

Lemma split_go_join sep l : join_go sep (split_go sep l) = l.
Proof.
  induction l as [|b l IH]; [done|]. simpl. pose proof (split_go_nonempty sep l).
  destruct (split_go sep l) as [|p ps]; [done|]. case_match eqn:E.
  - apply Z.eqb_eq in E as ->. simpl. by rewrite <- IH.
  - rewrite <- IH. by destruct ps.
Qed.

Lemma split_go_sep_free sep l : Forall (fun p => sep ∉ p) (split_go sep l).
Proof.
  induction l as [|b l IH]; simpl.
  - repeat constructor. apply not_elem_of_nil.
  - case_match eqn:E; [constructor; [apply not_elem_of_nil|done]|].
    destruct (split_go sep l) as [|p ps].
    + repeat constructor. rewrite not_elem_of_cons. split; [lia|apply not_elem_of_nil].
    + inversion_clear IH. constructor; [|done]. rewrite not_elem_of_cons. split; [lia|done].
Qed.

(** ** Counting runes *)

Lemma runes_go_enc n rs :
  Forall valid_rune rs -> length (rs ≫= enc_arith) <= n -> runes_go n (rs ≫= enc_arith) = rs.
Proof.
  revert n. induction rs as [|r rs IH]; intros n Hv Hn; [by destruct n|].
  inversion_clear Hv as [|? ? Hr Hrs]. cbn [mbind list_bind] in *. rewrite length_app in Hn.
  pose proof (enc_arith_pos r). destruct n as [|n]; [lia|].
  pose proof (decode_complete r (rs ≫= enc_arith) Hr) as Hd.
  change (list_bind _ _ enc_arith rs) with (rs ≫= enc_arith) in *.
  destruct (enc_arith r ++ (rs ≫= enc_arith)) as [|b l] eqn:He.
  { apply (f_equal length) in He. rewrite length_app in He. simpl in He. lia. }
  cbn [runes_go]. rewrite Hd, <- He, drop_app_length. by rewrite IH by (done || lia).
Qed.

Lemma bind_EncodeRune rs :
  Forall valid_rune rs -> (rs ≫= EncodeRune) = (rs ≫= enc_arith).
Proof.
  induction 1 as [|r rs Hr _ IH]; [done|]. cbn [mbind list_bind].
  rewrite EncodeRune_arith by done. f_equal. exact IH.
Qed.

Lemma bind_enc_bytes rs : Forall valid_rune rs -> Forall is_byte (rs ≫= enc_arith).
Proof.
  induction 1 as [|r rs Hr _ IH]; [constructor|]. cbn [mbind list_bind].
  apply Forall_app. split; [by apply enc_arith_bytes|exact IH].
Qed.

(** Counting the runes of an encoded text counts its code points. *)
Lemma RuneCount_encoded rs :
  Forall valid_rune rs -> RuneCountInString (str (rs ≫= EncodeRune)) = length rs.
Proof.
  intros Hv. unfold RuneCountInString, runes.
  rewrite bytes_str; rewrite bind_EncodeRune by done; [|by apply bind_enc_bytes].
  by rewrite runes_go_enc.
Qed.

Lemma runes_go_length n l : length (runes_go n l) <= length l.
Proof.
  revert l. induction n as [|n IH]; intros [|b l]; simpl; try lia.
  destruct (DecodeRune (b :: l)) as [r k] eqn:Hd. simpl.
  assert (1 <= k).
  { unfold DecodeRune in Hd. repeat case_match; simplify_eq; lia. }
  specialize (IH (drop k (b :: l))). rewrite length_drop in IH. simpl in IH. lia.
Qed.

Lemma RuneCount_le s : RuneCountInString s <= length (bytes s).
Proof. apply runes_go_length. Qed.

(** ** Hexadecimal *)

Lemma EncodeToString_length l : length (bytes (EncodeToString l)) = 2 * length l.
Proof.
  unfold EncodeToString, bytes, str.
  rewrite String.list_ascii_of_string_of_list_ascii, !length_fmap.
  induction l as [|b l IH]; [done|]. cbn. cbn in IH. rewrite IH. lia.
Qed.

(** Go's [len(s)]. *)
Lemma length_bytes s : length (bytes s) = String.length s.
Proof. unfold bytes. rewrite length_fmap. induction s as [|c s IH]; [done|]. exact (f_equal S IH). Qed.

(** ** Hexadecimal text *)

Lemma hex_byte_inj a b : is_byte a -> is_byte b -> hex_byte a = hex_byte b -> a = b.
Proof.
  intros Ha Hb. assert (H : forallb (fun a => forallb (fun b =>
    implb (bool_decide (hex_byte a = hex_byte b)) (a =? b)%Z) (seqZ 0 256)) (seqZ 0 256) = true)
    by (vm_compute; reflexivity).
  rewrite forallb_forall in H. specialize (H a). rewrite <- list_elem_of_In, elem_of_seqZ in H.
  specialize (H ltac:(unfold is_byte in *; lia)). rewrite forallb_forall in H. specialize (H b).
  rewrite <- list_elem_of_In, elem_of_seqZ in H. specialize (H ltac:(unfold is_byte in *; lia)).
  intros Heq. rewrite bool_decide_true in H by done. by apply Z.eqb_eq in H.
Qed.

Lemma hex_inj l1 : forall l2, Forall is_byte l1 -> Forall is_byte l2 ->
  l1 ≫= hex_byte = l2 ≫= hex_byte -> l1 = l2.
Proof.
  induction l1 as [|a l1 IH]; intros [|b l2] H1 H2 Heq; try done.
  apply Forall_cons in H1 as [Ha H1]. apply Forall_cons in H2 as [Hb H2].
  cbn in Heq. injection Heq as Hhi Hlo Heq. f_equal; [|by apply IH].
  apply hex_byte_inj; [done..|]. unfold hex_byte. by rewrite Hhi, Hlo.
Qed.

Lemma hex_byte_bytes a : is_byte a -> Forall is_byte (hex_byte a).
Proof.
  intros Ha. assert (H : forallb (fun a => forallb (fun d => (0 <=? d)%Z && (d <? 256)%Z) (hex_byte a))
    (seqZ 0 256) = true) by (vm_compute; reflexivity).
  rewrite forallb_forall in H. specialize (H a). rewrite <- list_elem_of_In, elem_of_seqZ in H.
  specialize (H ltac:(unfold is_byte in *; lia)). rewrite forallb_forall in H.
  apply Forall_forall. intros d Hd. specialize (H d ltac:(by apply list_elem_of_In)).
  unfold is_byte. lia.
Qed.

(** Hexadecimal text is not blank: no space character is encoded by a hex digit. *)
Lemma space_head r : IsSpace r = true -> exists b rest, enc_arith r = b :: rest /\ ~ (48 <= b <= 102)%Z.
Proof.
  intros [H|H]%IsSpace_cases.
  - rewrite !elem_of_cons, elem_of_nil in H.
    repeat destruct H as [->|H]; [by eexists _, _; split; [vm_compute; reflexivity|lia]..|done].
  - unfold enc_arith. rewrite !(proj2 (Z.leb_gt _ _)) by lia. rewrite (proj2 (Z.leb_le _ _)) by lia.
    eexists _, _. split; [done|]. pose proof (Z.div_pos r 4096 ltac:(lia) ltac:(lia)). lia.
Qed.

Lemma hex_not_blank value : Forall is_byte value -> blank_string (EncodeToString value) -> value = [].
Proof.
  intros Hv Hb. destruct Hv as [|a value Ha Hv]; [done|]. exfalso.
  unfold blank_string, EncodeToString in Hb. rewrite bytes_str in Hb.
  - cbn in Hb. inversion Hb as [|r l Hr Hl Heq].
    destruct (space_head r Hr) as (b & rest & Hr' & Hb'). rewrite Hr' in Heq.
    injection Heq as Heq _. apply Hb'. rewrite Heq.
    assert (H : forallb (fun a => (48 <=? hex_digit (Z.shiftr a 4))%Z && (hex_digit (Z.shiftr a 4) <=? 102)%Z)
      (seqZ 0 256) = true) by (vm_compute; reflexivity).
    rewrite forallb_forall in H. specialize (H a). rewrite <- list_elem_of_In, elem_of_seqZ in H.
    specialize (H ltac:(unfold is_byte in *; lia)). lia.
  - apply Forall_app. split; [by apply hex_byte_bytes|]. clear Hb Ha.
    induction Hv; [constructor|]. apply Forall_app. split; [by apply hex_byte_bytes|done].
Qed.

(** ** Decimal text: fmt's %d and strconv.ParseInt(s, 10, 64) *)

Definition is_digit (b : Z) : Prop := (48 <= b <= 57)%Z.

Fixpoint parse_digits (l : list Z) (acc : Z) : option Z :=
  match l with
  | [] => Some acc
  | b :: l => if (48 <=? b)%Z && (b <=? 57)%Z then parse_digits l (10 * acc + (b - 48))%Z else None
  end.

(** The value, when the error is nil. *)
Definition ParseInt64 (s : string) : option Z :=
  let '(neg, digits) :=
    match bytes s with
    | 45%Z :: l => (true, l)
    | 43%Z :: l => (false, l)
    | l => (false, l)
    end in
  match digits with
  | [] => None
  | _ =>
    match parse_digits digits 0 with
    | None => None
    | Some un =>
      if neg : bool then (if (2 ^ 63 <? un)%Z then None else Some (- un)%Z)
      else if (2 ^ 63 <=? un)%Z then None else Some un
    end
  end.

Lemma bytes_cons c s : bytes (String c s) = byte_of_ascii c :: bytes s.
Proof. done. Qed.

Lemma pretty_N_char_byte (x : N) : (x < 10)%N -> byte_of_ascii (pretty_N_char x) = (48 + Z.of_N x)%Z.
Proof.
  intros Hx. assert (H : forallb (fun n => byte_of_ascii (pretty_N_char (N.of_nat n)) =? 48 + Z.of_nat n)%Z
    (seq 0 10) = true) by (vm_compute; reflexivity).
  rewrite forallb_forall in H. specialize (H (N.to_nat x) ltac:(apply in_seq; lia)).
  rewrite N2Nat.id, N_nat_Z in H. by apply Z.eqb_eq.
Qed.

Lemma pretty_N_go_spec x : forall s,
  (Forall is_digit (bytes s) -> Forall is_digit (bytes (pretty_N_go x s))) /\
  parse_digits (bytes (pretty_N_go x s)) 0 = parse_digits (bytes s) (Z.of_N x).
Proof.
  induction (N.lt_wf_0 x) as [x _ IH]. intros s.
  destruct (decide (x = 0)%N) as [->|Hx]; [by rewrite pretty_N_go_0|].
  rewrite pretty_N_go_step by lia.
  pose proof (N.mod_lt x 10 ltac:(lia)) as Hm.
  destruct (IH (x `div` 10)%N ltac:(by apply N.div_lt; lia) (String (pretty_N_char (x `mod` 10)) s)) as [H1 H2].
  rewrite bytes_cons, pretty_N_char_byte in H1, H2 by done. split.
  - intros Hs. apply H1. constructor; [unfold is_digit; lia|done].
  - rewrite H2. cbn [parse_digits]. rewrite (proj2 (Z.leb_le _ _)), (proj2 (Z.leb_le _ _)) by lia. cbn.
    f_equal. pose proof (N.div_mod x 10 ltac:(lia)). lia.
Qed.

Lemma pretty_N_go_head x : forall s, (0 < x)%N ->
  exists b l, bytes (pretty_N_go x s) = b :: l /\ (49 <= b <= 57)%Z.
Proof.
  induction (N.lt_wf_0 x) as [x _ IH]. intros s Hx. rewrite pretty_N_go_step by lia.
  destruct (decide (x `div` 10 = 0)%N) as [Hz|Hz].
  - rewrite Hz, pretty_N_go_0, bytes_cons, pretty_N_char_byte by (apply N.mod_lt; lia).
    eexists _, _. split; [done|]. apply N.div_small_iff in Hz; [|done]. rewrite N.mod_small by done. lia.
  - apply IH; [by apply N.div_lt; lia|lia].
Qed.

Lemma pretty_N_spec (x : N) :
  Forall is_digit (bytes (pretty x)) /\ bytes (pretty x) <> [] /\
  parse_digits (bytes (pretty x)) 0 = Some (Z.of_N x).
Proof.
  unfold pretty, pretty_N. case_decide as Hx; [subst; vm_compute; split_and!; [repeat constructor; done|done|done]|].
  destruct (pretty_N_go_spec x "") as [H1 H2]. split_and!; [by apply H1| |done].
  intros Hnil. rewrite Hnil in H2. cbn in H2. injection H2 as H2. lia.
Qed.

Lemma Itoa_cases z :
  (exists x, z = Z.of_N x /\ Itoa z = pretty x) \/
  (exists x, z = (- Z.of_N x)%Z /\ bytes (Itoa z) = 45%Z :: bytes (pretty x)).
Proof.
  destruct z as [|p|p].
  - left. by exists 0%N.
  - left. by exists (Npos p).
  - right. exists (Npos p). split; [done|]. done.
Qed.

Lemma Itoa_bytes z : Forall (fun b => is_digit b \/ b = 45%Z) (bytes (Itoa z)).
Proof.
  destruct (Itoa_cases z) as [(x & _ & ->)|(x & _ & ->)].
  - eapply Forall_impl; [apply (pretty_N_spec x)|]. by left.
  - constructor; [by right|]. eapply Forall_impl; [apply (pretty_N_spec x)|]. by left.
Qed.

Lemma Itoa_no_colon z : 58%Z ∉ bytes (Itoa z).
Proof.
  intros Hin. pose proof (Itoa_bytes z) as H. rewrite Forall_forall in H. specialize (H _ Hin).
  unfold is_digit in H. lia.
Qed.

Lemma ParseInt64_Itoa z : (min_i64 <= z <= max_i64)%Z -> ParseInt64 (Itoa z) = Some z.
Proof.
  unfold min_i64, max_i64. intros Hz. unfold ParseInt64.
  destruct (Itoa_cases z) as [(x & Hx & ->)|(x & Hx & ->)]; destruct (pretty_N_spec x) as (Hd & Hne & Hp).
  - destruct (bytes (pretty x)) as [|b l] eqn:Hb; [done|]. apply Forall_cons in Hd as [Hd _]. unfold is_digit in Hd.
    assert (Hm : match b :: l with
      | 45%Z :: l0 => (true, l0) | 43%Z :: l0 => (false, l0) | l0 => (false, l0) end = (false, b :: l)).
    { assert (H : (b = 48 \/ b = 49 \/ b = 50 \/ b = 51 \/ b = 52 \/ b = 53 \/ b = 54 \/ b = 55 \/
                   b = 56 \/ b = 57)%Z) by lia.
      by repeat destruct H as [->|H]; [..|subst b]. }
    rewrite Hm, Hp. rewrite (proj2 (Z.leb_gt _ _)) by lia. by rewrite Hx.
  - destruct (bytes (pretty x)) as [|b l] eqn:Hb; [done|].
    rewrite Hp. rewrite (proj2 (Z.ltb_ge _ _)) by lia. by rewrite Hx.
Qed.

(** Splitting where the pieces are known. *)
Lemma split_go_free sep l : sep ∉ l -> split_go sep l = [l].
Proof.
  induction l as [|b l IH]; intros Hl; [done|]. apply not_elem_of_cons in Hl as [Hb Hl].
  cbn. rewrite IH by done. by destruct (Z.eqb_spec b sep).
Qed.

Lemma split_go_app sep l rest : sep ∉ l -> split_go sep (l ++ sep :: rest) = l :: split_go sep rest.
Proof.
  induction l as [|b l IH]; intros Hl; cbn; [by rewrite Z.eqb_refl|].
  apply not_elem_of_cons in Hl as [Hb Hl]. rewrite IH by done. by destruct (Z.eqb_spec b sep).
Qed.
