(* ===== verification/GoTime.v ===== *)
(** * Package time: calendar dates and RFC 3339

    What encoding/json uses of a time.Time: [MarshalTime] (Time.MarshalJSON: RFC
    3339 with the fraction's trailing zeros dropped) and [UnmarshalTime]
    (Time.UnmarshalJSON, which accepts what time.Parse accepts for the layout
    time.RFC3339), on the proleptic Gregorian calendar, and the proof that the
    second inverts the first.  A time is the instant (file Prelude); the offset of
    its location, in seconds east of UTC, is the argument [zone]. *)

From S2P Require Import Prelude.
From S2P Require Import Utf8.
From S2P Require Import GoStrings.

(** ** The calendar

    Days are counted from January 1 of year 1. *)

Definition isLeap (year : Z) : bool :=
  ((year mod 4 =? 0) && (negb (year mod 100 =? 0) || (year mod 400 =? 0)))%Z.

Definition month_lengths (leap : bool) : list Z :=
  [31; if leap then 29 else 28; 31; 30; 31; 30; 31; 31; 30; 31; 30; 31]%Z.

Definition daysIn (month year : Z) : Z :=
  nth (Z.to_nat (month - 1)) (month_lengths (isLeap year)) 0%Z.

Definition sum_Z (l : list Z) : Z := foldr Z.add 0%Z l.

Definition days_before_year (year : Z) : Z :=
  let y := (year - 1)%Z in (365 * y + y / 4 - y / 100 + y / 400)%Z.

Definition days_of_date (year month day : Z) : Z :=
  (days_before_year year + sum_Z (take (Z.to_nat (month - 1)) (month_lengths (isLeap year))) + (day - 1))%Z.

(** The month (counted from [m]) and the day of the month of a day of the year. *)
Fixpoint month_of (lengths : list Z) (m doy : Z) : Z * Z :=
  match lengths with
  | [] => (m, doy + 1)%Z
  | l :: lengths => if (doy <? l)%Z then (m, doy + 1)%Z else month_of lengths (m + 1)%Z (doy - l)%Z
  end.

(** Cutting off 400-, 100-, 4- and 1-year cycles; the last century of the four and
    the last year of a quadrennium are a day longer. *)
Definition year_of (days : Z) : Z * Z :=
  let n400 := (days / 146097)%Z in let d := (days mod 146097)%Z in
  let n100 := Z.min 3 (d / 36524) in let d := (d - 36524 * n100)%Z in
  let n4 := (d / 1461)%Z in let d := (d mod 1461)%Z in
  let n1 := Z.min 3 (d / 365) in let d := (d - 365 * n1)%Z in
  ((400 * n400 + 100 * n100 + 4 * n4 + n1 + 1)%Z, d).

Definition date (days : Z) : Z * Z * Z :=
  let '(year, doy) := year_of days in
  let '(month, day) := month_of (month_lengths (isLeap year)) 1 doy in
  (year, month, day).

(** ** Formatting *)

(** [k] decimal digits of a non-negative number. *)
Fixpoint digits (k : nat) (n : Z) : list Z :=
  match k with O => [] | S k => digits k (n / 10)%Z ++ [48 + n mod 10]%Z end.

Fixpoint drop_zeros (l : list Z) : list Z :=
  match l with b :: l' => if (b =? 48)%Z then drop_zeros l' else l | [] => [] end.

(** The fraction of a second, nothing when it is zero. *)
Definition format_nano (ns : Z) : list Z :=
  if (ns =? 0)%Z then [] else 46%Z :: rev (drop_zeros (rev (digits 9 ns))).

Definition format_zone (zone : Z) : list Z :=
  if (zone =? 0)%Z then [90%Z]
  else
    let m := Z.quot zone 60 in
    (if (m <? 0)%Z then 45%Z else 43%Z) :: digits 2 (Z.abs m / 60) ++ 58%Z :: digits 2 (Z.abs m mod 60).

Definition nano : Z := 1000000000%Z.

(** appendFormatRFC3339 with nanoseconds, for a year of four digits. *)
Definition format_rfc3339 (zone : Z) (t : time) : list Z :=
  let local := (t / nano + zone)%Z in
  let '(year, month, day) := date (local / 86400) in
  let s := (local mod 86400)%Z in
  digits 4 year ++ 45%Z :: digits 2 month ++ 45%Z :: digits 2 day
  ++ 84%Z :: digits 2 (s / 3600) ++ 58%Z :: digits 2 (s / 60 mod 60) ++ 58%Z :: digits 2 (s mod 60)
  ++ format_nano (t mod nano) ++ format_zone zone.

(** Time.MarshalJSON, without the quotes. *)
Definition MarshalTime (zone : Z) (t : time) : result (list Z) :=
  let '(year, _, _) := date ((t / nano + zone) / 86400)%Z in
  if negb ((0 <=? year)%Z && (year <=? 9999)%Z) then
    Err (Errorf "Time.MarshalJSON: year outside of range [0,9999]")
  else if (24 <=? Z.abs (Z.quot zone 60) / 60)%Z then
    Err (Errorf "Time.MarshalJSON: timezone hour outside of range [0,23]")
  else Ok (format_rfc3339 zone t).

(** ** Parsing *)

Definition digit (b : Z) : bool := (48 <=? b)%Z && (b <=? 57)%Z.

(** getnum: two digits; only one when [fixed] is false and the second is none. *)
Definition getnum (fixed : bool) (l : list Z) : option (Z * list Z) :=
  match l with
  | a :: l1 =>
    if digit a then
      match l1 with
      | b :: l2 => if digit b then Some (10 * (a - 48) + (b - 48), l2)%Z
                   else if fixed then None else Some (a - 48, l1)%Z
      | [] => if fixed then None else Some (a - 48, l1)%Z
      end
    else None
  | [] => None
  end.

Definition expect (c : Z) (l : list Z) : option (list Z) :=
  match l with b :: l => if (b =? c)%Z then Some l else None | [] => None end.

Definition guard (b : bool) : option unit := if b then Some tt else None.

(** A number read by [getnum] that must lie within bounds. *)
Definition bounded (fixed : bool) (lo hi : Z) (l : list Z) : option (Z * list Z) :=
  '(n, l) ← getnum fixed l;
  _ ← guard ((lo <=? n)%Z && (n <=? hi)%Z);
  Some (n, l).

Definition parse_year (l : list Z) : option (Z * list Z) :=
  y ← (if length l <? 4 then None else if digit (hd 0%Z l) then parse_digits (take 4 l) 0 else None);
  Some (y, drop 4 l).

Fixpoint take_digits (l : list Z) : list Z :=
  match l with b :: l => if digit b then b :: take_digits l else [] | [] => [] end.

(** A fraction after the seconds, although the layout has none: a period or a comma
    and digits, of which nine count. *)
Definition parse_nano (l : list Z) : option (Z * list Z) :=
  match l with
  | c :: d :: _ =>
    if ((c =? 46) || (c =? 44))%Z && digit d then
      let ds := take_digits (tail l) in
      n ← parse_digits (take 9 ds) 0;
      Some (n * 10 ^ Z.of_nat (9 - length ds), drop (S (length ds)) l)%Z
    else Some (0%Z, l)
  | _ => Some (0%Z, l)
  end.

(** The zone's offset in seconds; the bounds are those of time.Parse. *)
Definition parse_zone (l : list Z) : option (Z * list Z) :=
  match l with
  | 90%Z :: l => Some (0%Z, l)
  | sign :: h1 :: h2 :: colon :: m1 :: m2 :: l =>
    _ ← guard (colon =? 58)%Z;
    '(h, _) ← bounded true 0 24 [h1; h2];
    '(m, _) ← bounded true 0 60 [m1; m2];
    if (sign =? 43)%Z then Some ((h * 60 + m) * 60, l)%Z
    else if (sign =? 45)%Z then Some (- ((h * 60 + m) * 60), l)%Z
    else None
  | _ => None
  end.

Definition ParseRFC3339 (l : list Z) : option time :=
  '(year, l) ← parse_year l;
  l ← expect 45 l; '(month, l) ← bounded true 1 12 l;
  l ← expect 45 l; '(day, l) ← getnum true l;
  l ← expect 84 l; '(hour, l) ← bounded false 0 23 l;
  l ← expect 58 l; '(minute, l) ← bounded true 0 59 l;
  l ← expect 58 l; '(sec, l) ← bounded true 0 59 l;
  '(ns, l) ← parse_nano l;
  '(zone, l) ← parse_zone l;
  _ ← guard (bool_decide (l = []));
  _ ← guard ((1 <=? day)%Z && (day <=? daysIn month year)%Z);
  Some ((days_of_date year month day * 86400 + hour * 3600 + minute * 60 + sec - zone) * nano + ns)%Z.

(** Time.UnmarshalJSON on the text between the quotes, which is not unescaped. *)
Definition UnmarshalTime (raw : list Z) : result time :=
  match ParseRFC3339 raw with
  | Some t => Ok t
  | None => Err (Errorf "parsing time")
  end.

(** ** The calendar is consistent *)

Lemma isLeap_spec year :
  isLeap year = true <-> (year mod 4 = 0 /\ (year mod 100 <> 0 \/ year mod 400 = 0))%Z.
Proof. unfold isLeap. rewrite andb_true_iff, orb_true_iff, negb_true_iff. lia. Qed.

Lemma sum_months leap : sum_Z (month_lengths leap) = (if leap then 366 else 365)%Z.
Proof. by destruct leap. Qed.

Lemma year_of_spec days year doy :
  year_of days = (year, doy) ->
  (days = days_before_year year + doy /\ 0 <= doy < sum_Z (month_lengths (isLeap year)))%Z.
Proof.
  unfold year_of, days_before_year. intros [= <- <-].
  set (a := (days / 146097)%Z). set (d := (days mod 146097)%Z).
  assert (Hd : (days = 146097 * a + d /\ 0 <= d < 146097)%Z) by (unfold a, d; lia). clearbody a d.
  set (b := Z.min 3 (d / 36524)). set (d1 := (d - 36524 * b)%Z).
  assert (Hb : (0 <= b <= 3 /\ 0 <= d1 /\ d1 <= 36524 /\ (d1 = 36524 -> b = 3))%Z) by (unfold d1, b; lia).
  assert (Hd1 : (d = 36524 * b + d1)%Z) by (unfold d1; lia). clearbody d1. clearbody b.
  set (c := (d1 / 1461)%Z). set (d2 := (d1 mod 1461)%Z).
  assert (Hc : (d1 = 1461 * c + d2 /\ 0 <= d2 < 1461 /\ 0 <= c <= 24)%Z) by (unfold c, d2; lia). clearbody c d2.
  set (e := Z.min 3 (d2 / 365)). set (d3 := (d2 - 365 * e)%Z).
  assert (He : (0 <= e <= 3 /\ 0 <= d3 <= 365 /\ (d3 = 365 -> e = 3))%Z) by (unfold d3, e; lia).
  assert (Hd3 : (d2 = 365 * e + d3)%Z) by (unfold d3; lia). clearbody d3. clearbody e.
  rewrite sum_months. set (y := (400 * a + 100 * b + 4 * c + e)%Z).
  replace (y + 1 - 1)%Z with y by lia.
  assert (H4 : (y / 4 = 100 * a + 25 * b + c)%Z) by (unfold y; lia).
  assert (H100 : (y / 100 = 4 * a + b)%Z) by (unfold y; lia).
  assert (H400 : (y / 400 = a)%Z) by (unfold y; lia).
  rewrite H4, H100, H400. split; [unfold y; lia|]. split; [lia|].
  destruct (isLeap (y + 1)) eqn:Hl; [lia|].
  destruct (decide (d3 = 365%Z)) as [H3|]; [|lia]. exfalso.
  assert (H : isLeap (y + 1) = true); [|congruence].
  apply isLeap_spec. assert (e = 3%Z) as -> by lia.
  assert (c <> 24%Z \/ b = 3%Z) by lia.
  assert (((y + 1) mod 100 = 4 * c + 4 - (if decide (c = 24) then 100 else 0))%Z) by (unfold y; case_decide; lia).
  split; [unfold y; lia|]. case_decide; [right; unfold y; lia|left; lia].
Qed.

Lemma month_of_spec lengths : forall m doy month day,
  Forall (fun l => 0 < l <= 31)%Z lengths -> (0 <= doy < sum_Z lengths)%Z ->
  month_of lengths m doy = (month, day) ->
  (m <= month < m + Z.of_nat (length lengths) /\
   1 <= day <= nth (Z.to_nat (month - m)) lengths 0 /\
   doy = sum_Z (take (Z.to_nat (month - m)) lengths) + (day - 1))%Z.
Proof.
  induction lengths as [|l lengths IH]; intros m doy month day Hl Hd He; [cbn in Hd; lia|].
  apply Forall_cons in Hl as [Hl Hls]. cbn in He, Hd. destruct (Z.ltb_spec doy l).
  - injection He as <- <-. rewrite Z.sub_diag. change (Z.to_nat 0) with 0. unfold sum_Z. cbn. lia.
  - apply IH in He as (H1 & H2 & H3); [|done|unfold sum_Z in *; cbn in Hd; lia].
    assert (Hk : Z.to_nat (month - m) = S (Z.to_nat (month - (m + 1)))) by lia.
    rewrite Hk. cbn. unfold sum_Z in *. lia.
Qed.

Lemma month_lengths_ok leap : Forall (fun l => 0 < l <= 31)%Z (month_lengths leap).
Proof. destruct leap; repeat constructor; lia. Qed.

(** Every day has a date of the calendar, and the date determines the day. *)
Lemma date_spec days year month day :
  date days = (year, month, day) ->
  days_of_date year month day = days /\ (1 <= month <= 12)%Z /\ (1 <= day <= daysIn month year)%Z.
Proof.
  unfold date. destruct (year_of days) as [y doy] eqn:Hy.
  destruct (month_of _ _ _) as [m d] eqn:Hm. intros [= <- <- <-].
  apply year_of_spec in Hy as [Hdays Hdoy].
  apply month_of_spec in Hm as (H1 & H2 & H3); [|apply month_lengths_ok|done].
  unfold days_of_date, daysIn. cbn [length month_lengths] in H1. lia.
Qed.

(** ** Digits *)

Lemma digit_spec b : digit b = true <-> is_digit b.
Proof. unfold digit, is_digit. lia. Qed.

Lemma digits_length k : forall n, length (digits k n) = k.
Proof. induction k as [|k IH]; intros n; [done|]. cbn. rewrite length_app, IH. cbn. lia. Qed.

Lemma digits_digit k : forall n, Forall (fun b => digit b = true) (digits k n).
Proof.
  induction k as [|k IH]; intros n; [constructor|]. cbn [digits]. apply Forall_app. split; [apply IH|].
  repeat constructor. unfold digit. lia.
Qed.

Lemma parse_digits_app a : forall b acc,
  parse_digits (a ++ b) acc = parse_digits a acc ≫= parse_digits b.
Proof. induction a as [|d a IH]; intros b acc; [done|]. cbn. case_match; [apply IH|done]. Qed.

Lemma parse_digits_digits k : forall n, (0 <= n < 10 ^ Z.of_nat k)%Z -> parse_digits (digits k n) 0 = Some n.
Proof.
  induction k as [|k IH]; intros n Hn; [cbn in *; f_equal; lia|].
  rewrite Nat2Z.inj_succ, Z.pow_succ_r in Hn by lia. cbn [digits].
  rewrite parse_digits_app, IH by lia. cbn [mbind option_bind parse_digits].
  rewrite (proj2 (andb_true_iff _ _)) by lia. f_equal. lia.
Qed.

Lemma parse_digits_zeros j : forall acc, parse_digits (replicate j 48%Z) acc = Some (acc * 10 ^ Z.of_nat j)%Z.
Proof.
  induction j as [|j IH]; intros acc; [cbn; f_equal; lia|].
  cbn [replicate parse_digits]. change ((48 <=? 48)%Z && (48 <=? 57)%Z) with true. cbv iota.
  rewrite IH, Nat2Z.inj_succ, Z.pow_succ_r by lia. f_equal. lia.
Qed.

Lemma digits_2 n : (0 <= n < 100)%Z -> digits 2 n = [48 + n / 10; 48 + n mod 10]%Z.
Proof. intros Hn. cbn. repeat f_equal. lia. Qed.

Lemma getnum_digits fixed n rest : (0 <= n < 100)%Z -> getnum fixed (digits 2 n ++ rest) = Some (n, rest).
Proof.
  intros Hn. rewrite digits_2 by done. cbn.
  rewrite !(proj2 (digit_spec _)) by (unfold is_digit; lia). f_equal. f_equal. lia.
Qed.

Lemma bounded_digits fixed lo hi n rest :
  (0 <= n < 100)%Z -> (lo <= n <= hi)%Z -> bounded fixed lo hi (digits 2 n ++ rest) = Some (n, rest).
Proof.
  intros Hn Hb. unfold bounded. rewrite getnum_digits by done. cbn.
  by rewrite (proj2 (andb_true_iff _ _)) by lia.
Qed.

Lemma parse_year_digits n rest : (0 <= n <= 9999)%Z -> parse_year (digits 4 n ++ rest) = Some (n, rest).
Proof.
  intros Hn. unfold parse_year. pose proof (digits_length 4 n) as Hl.
  pose proof (digits_digit 4 n) as Hd.
  rewrite (proj2 (Nat.ltb_ge _ _)) by (rewrite length_app; lia).
  rewrite take_app_length', drop_app_length' by done.
  rewrite parse_digits_digits by (change (10 ^ Z.of_nat 4)%Z with 10000%Z; lia).
  destruct (digits 4 n) as [|b l]; [done|]. apply Forall_cons in Hd as [Hd _]. cbn. by rewrite Hd.
Qed.

Lemma take_digits_stop ds rest :
  Forall (fun b => digit b = true) ds -> digit (hd 0%Z rest) = false -> take_digits (ds ++ rest) = ds.
Proof.
  intros Hds Hr. induction Hds as [|b ds Hb _ IH]; cbn; [|by rewrite Hb, IH].
  destruct rest as [|c rest]; [done|]. cbn in *. by rewrite Hr.
Qed.

Lemma drop_zeros_spec l : exists j, l = replicate j 48%Z ++ drop_zeros l.
Proof.
  induction l as [|b l [j IH]]; [by exists 0|]. cbn. destruct (Z.eqb_spec b 48) as [->|]; [|by exists 0].
  exists (S j). cbn. by f_equal.
Qed.

(** What follows a fraction: no digit, no period, no comma. *)
Definition ends_number (l : list Z) : Prop := digit (hd 0%Z l) = false /\ hd 0%Z l <> 46%Z /\ hd 0%Z l <> 44%Z.

Lemma parse_nano_none l : ends_number l -> parse_nano l = Some (0%Z, l).
Proof.
  intros (_ & H1 & H2). destruct l as [|c [|d l]]; [done..|]. cbn in *.
  by rewrite !(proj2 (Z.eqb_neq _ _)) by done.
Qed.

Lemma parse_nano_format ns rest :
  (0 <= ns < nano)%Z -> ends_number rest -> parse_nano (format_nano ns ++ rest) = Some (ns, rest).
Proof.
  intros Hn Hr. unfold format_nano. destruct (Z.eqb_spec ns 0) as [->|Hne]; [by apply parse_nano_none|].
  destruct (drop_zeros_spec (rev (digits 9 ns))) as [j Hj].
  apply (f_equal (@rev Z)) in Hj. rewrite rev_involutive, rev_app_distr in Hj.
  set (ds := rev (drop_zeros (rev (digits 9 ns)))) in *.
  assert (Hz : rev (replicate j 48%Z) = replicate j 48%Z).
  { clear. induction j as [|j IH]; [done|]. cbn. rewrite IH. by rewrite <- replicate_cons_app. }
  rewrite Hz in Hj. pose proof (digits_length 9 ns) as Hlen. rewrite Hj, length_app, length_replicate in Hlen.
  assert (Hd : Forall (fun b => digit b = true) ds).
  { pose proof (digits_digit 9 ns) as H. rewrite Hj in H. by apply Forall_app in H as [H _]. }
  assert (Hp : exists n, parse_digits ds 0 = Some n /\ (n * 10 ^ Z.of_nat j)%Z = ns).
  { pose proof (parse_digits_digits 9 ns ltac:(unfold nano in Hn; lia)) as H.
    rewrite Hj, parse_digits_app in H. destruct (parse_digits ds 0) as [n|]; [|done].
    cbn in H. rewrite parse_digits_zeros in H. injection H as H. by exists n. }
  destruct Hp as (n & Hp & Hns). destruct ds as [|d ds'] eqn:Hds.
  { cbn in Hp. injection Hp as <-. lia. }
  apply Forall_cons in Hd as Hd'. destruct Hd' as [Hd0 _].
  unfold parse_nano. cbn [app tail]. rewrite Hd0. cbn [andb orb]. rewrite Z.eqb_refl. cbn [orb andb].
  change (d :: ds' ++ rest) with ((d :: ds') ++ rest).
  rewrite take_digits_stop by (done || apply Hr). rewrite take_ge by lia. rewrite Hp. cbn [mbind option_bind].
  replace (9 - length (d :: ds')) with j by lia. rewrite Hns. f_equal. f_equal.
  cbn [drop]. by rewrite drop_app_length.
Qed.

(** ** Offsets, and the round trip *)

(** An offset that RFC 3339 can express: whole minutes, less than a day. *)
Definition zone_ok (zone : Z) : Prop := (zone mod 60 = 0 /\ -86400 < zone < 86400)%Z.

Lemma format_zone_ends zone : ends_number (format_zone zone).
Proof. unfold format_zone. repeat case_match; by vm_compute. Qed.

Lemma parse_zone_format zone : zone_ok zone -> parse_zone (format_zone zone) = Some (zone, []).
Proof.
  intros [Hm Hz]. unfold format_zone. destruct (Z.eqb_spec zone 0) as [->|]; [done|].
  set (m := Z.quot zone 60). assert (Hm' : (zone = 60 * m /\ -1440 < m < 1440)%Z) by (unfold m; lia).
  clearbody m. destruct Hm' as [-> Hm'].
  assert (Hb : (0 <= Z.abs m / 60 < 24 /\ 0 <= Z.abs m mod 60 < 60)%Z) by lia.
  pose proof (bounded_digits true 0 24 (Z.abs m / 60) [] ltac:(lia) ltac:(lia)) as H1.
  pose proof (bounded_digits true 0 60 (Z.abs m mod 60) [] ltac:(lia) ltac:(lia)) as H2.
  rewrite app_nil_r, digits_2 in H1 by lia. rewrite app_nil_r, digits_2 in H2 by lia.
  rewrite !digits_2 by lia. destruct (Z.ltb_spec m 0).
  - cbn [app parse_zone guard mbind option_bind]. rewrite Z.eqb_refl. cbn [mbind option_bind guard].
    rewrite H1. cbn [mbind option_bind]. rewrite H2. cbn. f_equal. f_equal. lia.
  - cbn [app parse_zone guard mbind option_bind]. rewrite Z.eqb_refl. cbn [mbind option_bind guard].
    rewrite H1. cbn [mbind option_bind]. rewrite H2. cbn. f_equal. f_equal. lia.
Qed.

(** The time of day is recovered. *)
Lemma clock_sum s : (0 <= s -> s / 3600 * 3600 + s / 60 mod 60 * 60 + s mod 60 = s)%Z.
Proof. lia. Qed.

Lemma daysIn_le month year : (daysIn month year <= 31)%Z.
Proof.
  unfold daysIn. destruct (nth_in_or_default (Z.to_nat (month - 1)) (month_lengths (isLeap year)) 0%Z) as [H| ->]; [|lia].
  apply list_elem_of_In in H. pose proof (month_lengths_ok (isLeap year)) as Hl.
  rewrite Forall_forall in Hl. apply Hl in H. lia.
Qed.

(** Formatting and parsing a time of a year with four digits gives the same instant,
    whatever the location it is printed for. *)
Lemma parse_format_rfc3339 zone t :
  zone_ok zone -> (0 <= (date ((t / nano + zone) / 86400)).1.1 <= 9999)%Z ->
  ParseRFC3339 (format_rfc3339 zone t) = Some t.
Proof.
  intros Hz Hy. unfold format_rfc3339, ParseRFC3339.
  destruct (date ((t / nano + zone) / 86400)%Z) as [[year month] day] eqn:Hd. cbn in Hy.
  apply date_spec in Hd as (Hd & Hm & Hday). pose proof (daysIn_le month year) as H31.
  set (s := ((t / nano + zone) mod 86400)%Z). assert (Hs : (0 <= s < 86400)%Z) by (unfold s; lia).
  rewrite parse_year_digits by done. cbn [mbind option_bind expect]. rewrite Z.eqb_refl. cbn [mbind option_bind].
  rewrite bounded_digits by lia. cbn [mbind option_bind expect]. rewrite Z.eqb_refl. cbn [mbind option_bind].
  rewrite getnum_digits by lia. cbn [mbind option_bind expect]. rewrite Z.eqb_refl. cbn [mbind option_bind].
  do 2 (rewrite bounded_digits by lia; cbn [mbind option_bind expect]; rewrite Z.eqb_refl; cbn [mbind option_bind]).
  rewrite bounded_digits by lia. cbn [mbind option_bind].
  rewrite parse_nano_format by (apply format_zone_ends || (unfold nano; lia)). cbn [mbind option_bind].
  rewrite parse_zone_format by done. cbn [mbind option_bind].
  rewrite bool_decide_eq_true_2 by done. cbn [mbind option_bind guard].
  rewrite (proj2 (andb_true_iff _ _)) by lia. cbn [mbind option_bind guard]. apply (f_equal Some).
  rewrite Hd. pose proof (clock_sum s ltac:(lia)) as Hc.
  pose proof (Z.div_mod (t / nano + zone) 86400 ltac:(lia)) as Hl. fold s in Hl.
  pose proof (Z.div_mod t nano ltac:(unfold nano; lia)) as Ht.
  generalize dependent ((t / nano + zone) / 86400)%Z. intros days _ Hl. clearbody s.
  transitivity (nano * (t / nano) + t mod nano)%Z; [|done]. rewrite (Z.mul_comm nano). f_equal. f_equal. lia.
Qed.

Lemma MarshalTime_ok zone t raw :
  MarshalTime zone t = Ok raw ->
  raw = format_rfc3339 zone t /\ (0 <= (date ((t / nano + zone) / 86400)).1.1 <= 9999)%Z.
Proof.
  unfold MarshalTime. destruct (date _) as [[year month] day]. repeat case_match; intros; simplify_eq.
  split; [done|]. cbn. rewrite negb_false_iff, andb_true_iff in *. lia.
Qed.

(** UnmarshalJSON inverts MarshalJSON. *)
Lemma UnmarshalTime_Marshal zone t raw :
  zone_ok zone -> MarshalTime zone t = Ok raw -> UnmarshalTime raw = Ok t.
Proof.
  intros Hz [-> Hy]%MarshalTime_ok. unfold UnmarshalTime. by rewrite parse_format_rfc3339.
Qed.

(** The bytes of a formatted time: digits and - T : . Z +, none of which JSON escapes. *)
Definition plain_byte (b : Z) : Prop := (43 <= b <= 58 \/ b = 84 \/ b = 90)%Z.

Lemma digits_plain k n : Forall plain_byte (digits k n).
Proof.
  eapply Forall_impl; [apply digits_digit|]. intros b H%digit_spec. unfold plain_byte, is_digit in *. lia.
Qed.

Lemma drop_zeros_plain l : Forall plain_byte l -> Forall plain_byte (drop_zeros l).
Proof.
  intros H. destruct (drop_zeros_spec l) as [j Hj]. rewrite Hj in H. by apply Forall_app in H as [_ H].
Qed.

Lemma format_rfc3339_plain zone t : Forall plain_byte (format_rfc3339 zone t).
Proof.
  unfold format_rfc3339. destruct (date _) as [[year month] day].
  assert (Hc : forall c l, plain_byte c -> Forall plain_byte l -> Forall plain_byte (c :: l)) by (by constructor).
  assert (Hn : Forall plain_byte (format_nano (t mod nano))).
  { unfold format_nano. case_match; [constructor|]. apply Hc; [unfold plain_byte; lia|].
    apply Forall_rev, drop_zeros_plain, Forall_rev, digits_plain. }
  assert (Hz : Forall plain_byte (format_zone zone)).
  { unfold format_zone. case_match; [repeat constructor; unfold plain_byte; lia|].
    apply Hc; [unfold plain_byte; case_match; lia|]. apply Forall_app. split; [apply digits_plain|].
    apply Hc; [unfold plain_byte; lia|apply digits_plain]. }
  repeat first [apply Forall_app; split; [apply digits_plain|]
    | apply Hc; [unfold plain_byte; lia|]].
  by apply Forall_app.
Qed.

(** A day the calendar knows well. *)
Example date_2024 : date 738944 = (2024, 2, 29)%Z.
Proof. reflexivity. Qed.
