(* ===== verification/Json.v ===== *)
(** * Package encoding/json

    What the program uses of it: [Marshal] of flat structs of strings, integers and
    times, and [Unmarshal] of arbitrary bytes into such structs.  A text is a list of
    bytes.  [parse_json] is the scanner's grammar: it yields a tree whose strings are
    still escaped, and rejects what the scanner rejects; [decode_struct] is the decoding
    of a tree into a struct given by the setters of its fields.  The file proves that
    decoding an encoded struct returns every string with its invalid bytes replaced by
    U+FFFD, hence the struct itself when its strings are valid UTF-8. *)

From S2P Require Import Prelude.
From S2P Require Import Utf8.
From S2P Require Import GoStrings.
From S2P Require Import GoTime.
From stdpp Require Import pretty.

(** ** Strings: encoding *)

(** The bytes below 0x80 that need no escape when HTML is escaped. *)
Definition html_safe (b : Z) : bool :=
  (32 <=? b)%Z && negb (bool_decide (b ∈ [34; 38; 60; 62; 92]%Z)).

(** [\u00XX], with the digits in lower case. *)
Definition escape_u (b : Z) : list Z := [92; 117; 48; 48]%Z ++ hex_byte b.

Definition escape_ascii (b : Z) : list Z :=
  if html_safe b then [b]
  else if bool_decide (b ∈ [34; 92]%Z) then [92; b]%Z
  else if (b =? 8)%Z then [92; 98]%Z
  else if (b =? 12)%Z then [92; 102]%Z
  else if (b =? 10)%Z then [92; 110]%Z
  else if (b =? 13)%Z then [92; 114]%Z
  else if (b =? 9)%Z then [92; 116]%Z
  else escape_u b.

(** The text for one rune of [width] bytes at the head of [l]. *)
Definition quote_rune (l : list Z) (r : Z) (width : nat) : list Z :=
  if bool_decide (r = RuneError) && bool_decide (width = 1) then [92; 117; 102; 102; 102; 100]%Z
  else if (r =? 0x2028)%Z || (r =? 0x2029)%Z then [92; 117; 50; 48; 50; hex_digit (Z.land r 0x0F)]%Z
  else take width l.

(** appendString's loop; [skip] bytes at the head belong to a rune already written. *)
Fixpoint quote (skip : nat) (l : list Z) : list Z :=
  match l with
  | [] => []
  | b :: l' =>
    match skip with
    | S skip => quote skip l'
    | O =>
      if (b <? 0x80)%Z then escape_ascii b ++ quote 0 l'
      else let '(r, width) := DecodeRune l in quote_rune l r width ++ quote (width - 1) l'
    end
  end.

Definition encode_string (l : list Z) : list Z := 34%Z :: quote 0 l ++ [34%Z].

(** ** Strings: scanning and decoding *)

Definition is_hex (b : Z) : bool :=
  ((48 <=? b) && (b <=? 57) || (97 <=? b) && (b <=? 102) || (65 <=? b) && (b <=? 70))%Z.
Definition hex_value (b : Z) : Z :=
  (if b <=? 57 then b - 48 else if b <=? 70 then b - 55 else b - 87)%Z.

(** The bytes that may follow a backslash, except u: quote, backslash, / and bfnrt. *)
Definition is_escape (b : Z) : bool := bool_decide (b ∈ [34; 47; 92; 98; 102; 110; 114; 116]%Z).

(** After the opening quote: the text up to the closing quote, and the rest. *)
Fixpoint scan_string (l : list Z) : option (list Z * list Z) :=
  match l with
  | [] => None
  | b :: l1 =>
    if (b =? 34)%Z then Some ([], l1)
    else if (b =? 92)%Z then
      match l1 with
      | e :: l2 =>
        if is_escape e then '(raw, rest) ← scan_string l2; Some (b :: e :: raw, rest)
        else if (e =? 117)%Z then
          match l2 with
          | h1 :: h2 :: h3 :: h4 :: l3 =>
            if is_hex h1 && is_hex h2 && is_hex h3 && is_hex h4 then
              '(raw, rest) ← scan_string l3; Some (b :: e :: h1 :: h2 :: h3 :: h4 :: raw, rest)
            else None
          | _ => None
          end
        else None
      | [] => None
      end
    else if (b <? 32)%Z then None
    else '(raw, rest) ← scan_string l1; Some (b :: raw, rest)
  end.

(** The value of a one-letter escape. *)
Definition unescape (e : Z) : Z :=
  (if e =? 98 then 8 else if e =? 102 then 12 else if e =? 110 then 10
   else if e =? 114 then 13 else if e =? 116 then 9 else e)%Z.

(** getu4: the code of [\uXXXX] at the head of the text. *)
Definition getu4 (l : list Z) : option Z :=
  match l with
  | b :: u :: h1 :: h2 :: h3 :: h4 :: _ =>
    if (b =? 92)%Z && (u =? 117)%Z && is_hex h1 && is_hex h2 && is_hex h3 && is_hex h4
    then Some (((hex_value h1 * 16 + hex_value h2) * 16 + hex_value h3) * 16 + hex_value h4)%Z
    else None
  | _ => None
  end.

Definition is_surrogate (r : Z) : bool := (0xD800 <=? r)%Z && (r <? 0xE000)%Z.

(** utf16.DecodeRune *)
Definition decode_surrogates (r1 r2 : Z) : option Z :=
  if ((0xD800 <=? r1) && (r1 <? 0xDC00) && (0xDC00 <=? r2) && (r2 <? 0xE000))%Z
  then Some (Z.lor (Z.shiftl (r1 - 0xD800) 10) (r2 - 0xDC00) + 0x10000)%Z else None.

(** The rune of the [\u] escape at the head of [l], and its width; a second escape is
    consumed when both form a surrogate pair. *)
Definition unquote_u (l : list Z) : Z * nat :=
  match getu4 l with
  | None => (RuneError, 1)
  | Some r =>
    if is_surrogate r then
      match getu4 (drop 6 l) ≫= decode_surrogates r with
      | Some dec => (dec, 12)
      | None => (RuneError, 6)
      end
    else (r, 6)
  end.

(** unquoteBytes on a text the scanner accepted. *)
Fixpoint unquote (skip : nat) (l : list Z) : list Z :=
  match l with
  | [] => []
  | b :: l1 =>
    match skip with
    | S skip => unquote skip l1
    | O =>
      if (b =? 92)%Z then
        match l1 with
        | e :: _ =>
          if (e =? 117)%Z then
            let '(r, width) := unquote_u l in EncodeRune r ++ unquote (width - 1) l1
          else unescape e :: unquote 1 l1
        | [] => []
        end
      else if (b <? 0x80)%Z then b :: unquote 0 l1
      else let '(r, width) := DecodeRune l in EncodeRune r ++ unquote (width - 1) l1
    end
  end.

(** ** The grammar *)

Inductive json :=
  | JNull | JBool (b : bool) | JNumber (literal : list Z) | JString (raw : list Z)
  | JArray (elements : list json) | JObject (members : list (list Z * json)).

Fixpoint skip_ws (l : list Z) : list Z :=
  match l with
  | b :: l' => if bool_decide (b ∈ [32; 9; 10; 13]%Z) then skip_ws l' else l
  | [] => []
  end.

Fixpoint span_digits (l : list Z) : list Z * list Z :=
  match l with
  | b :: l' => if digit b then let '(ds, rest) := span_digits l' in (b :: ds, rest) else ([], l)
  | [] => ([], [])
  end.

(** At least one digit. *)
Definition digits1 (l : list Z) : option (list Z * list Z) :=
  match span_digits l with ([], _) => None | (ds, rest) => Some (ds, rest) end.

(** A zero, or digits that do not start with one. *)
Definition scan_int (l : list Z) : option (list Z * list Z) :=
  match l with
  | b :: l' => if (b =? 48)%Z then Some ([b], l') else digits1 l
  | [] => None
  end.

Definition scan_frac (l : list Z) : option (list Z * list Z) :=
  match l with
  | b :: l' => if (b =? 46)%Z then '(ds, rest) ← digits1 l'; Some (b :: ds, rest) else Some ([], l)
  | [] => Some ([], [])
  end.

Definition scan_exp (l : list Z) : option (list Z * list Z) :=
  match l with
  | b :: l' =>
    if (b =? 101)%Z || (b =? 69)%Z then
      match l' with
      | s :: l'' =>
        if (s =? 43)%Z || (s =? 45)%Z then '(ds, rest) ← digits1 l''; Some (b :: s :: ds, rest)
        else '(ds, rest) ← digits1 l'; Some (b :: ds, rest)
      | [] => None
      end
    else Some ([], l)
  | [] => Some ([], [])
  end.

Definition scan_number (l : list Z) : option (list Z * list Z) :=
  let '(sign, l) := match l with b :: l' => if (b =? 45)%Z then ([b], l') else ([], l) | [] => ([], l) end in
  '(int, l) ← scan_int l; '(frac, l) ← scan_frac l; '(exp, l) ← scan_exp l;
  Some (sign ++ int ++ frac ++ exp, l).

(** A literal word at the head of the text. *)
Fixpoint scan_word (word l : list Z) : option (list Z) :=
  match word, l with
  | [], _ => Some l
  | w :: word, b :: l => if (w =? b)%Z then scan_word word l else None
  | _ :: _, [] => None
  end.

Definition maxNestingDepth : Z := 10000.

(** A value, and the text after it.  [depth] is the nesting still allowed.  A byte is
    consumed in at most two calls, so a fuel greater than twice the length is enough
    (lemma [parse_fuel]). *)
Fixpoint parse_value (fuel : nat) (depth : Z) (l : list Z) {struct fuel} : option (json * list Z) :=
  match fuel, skip_ws l with
  | S fuel, b :: rest =>
    if (b =? 123)%Z then
      if (depth <=? 0)%Z then None
      else match skip_ws rest with
      | c :: rest' =>
        if (c =? 125)%Z then Some (JObject [], rest')
        else '(ms, rest) ← parse_members fuel (depth - 1) rest; Some (JObject ms, rest)
      | [] => None
      end
    else if (b =? 91)%Z then
      if (depth <=? 0)%Z then None
      else match skip_ws rest with
      | c :: rest' =>
        if (c =? 93)%Z then Some (JArray [], rest')
        else '(vs, rest) ← parse_elements fuel (depth - 1) rest; Some (JArray vs, rest)
      | [] => None
      end
    else if (b =? 34)%Z then '(raw, rest) ← scan_string rest; Some (JString raw, rest)
    else if (b =? 116)%Z then rest ← scan_word (bytes "true") (b :: rest); Some (JBool true, rest)
    else if (b =? 102)%Z then rest ← scan_word (bytes "false") (b :: rest); Some (JBool false, rest)
    else if (b =? 110)%Z then rest ← scan_word (bytes "null") (b :: rest); Some (JNull, rest)
    else '(literal, rest) ← scan_number (b :: rest); Some (JNumber literal, rest)
  | _, _ => None
  end
with parse_members (fuel : nat) (depth : Z) (l : list Z) {struct fuel} : option (list (list Z * json) * list Z) :=
  match fuel, skip_ws l with
  | S fuel, q :: l =>
    if negb (q =? 34)%Z then None
    else
      '(key, l) ← scan_string l; l ← expect 58 (skip_ws l);
      '(v, l) ← parse_value fuel depth l;
      match skip_ws l with
      | c :: l =>
        if (c =? 125)%Z then Some ([(key, v)], l)
        else if (c =? 44)%Z then '(ms, l) ← parse_members fuel depth l; Some ((key, v) :: ms, l)
        else None
      | [] => None
      end
  | _, _ => None
  end
with parse_elements (fuel : nat) (depth : Z) (l : list Z) {struct fuel} : option (list json * list Z) :=
  match fuel with
  | O => None
  | S fuel =>
    '(v, l) ← parse_value fuel depth l;
    match skip_ws l with
    | c :: l =>
      if (c =? 93)%Z then Some ([v], l)
      else if (c =? 44)%Z then '(vs, l) ← parse_elements fuel depth l; Some (v :: vs, l)
      else None
    | [] => None
    end
  end.

(** A whole text: one value with white space around it. *)
Definition parse_json (l : list Z) : option json :=
  '(v, rest) ← parse_value (S (2 * length l)) maxNestingDepth l;
  if bool_decide (skip_ws rest = []) then Some v else None.

(** ** Structs *)

(** foldRune, the representative of a rune under simple case folding.  Only its values
    in ASCII matter, because it is compared with folded field names, which are ASCII:
    besides the letters, the long s and the Kelvin sign. *)
Definition fold_rune (r : Z) : Z :=
  (if (97 <=? r) && (r <=? 122) then r - 32
   else if r =? 0x17F then 83 else if r =? 0x212A then 75 else r)%Z.
Definition fold_name (l : list Z) : list Z := r ← runes l; EncodeRune (fold_rune r).

(** The field a key denotes: the one of that name, else one of a name equal to it up to
    case folding. *)
Definition find_field (names : list string) (key : list Z) : option string :=
  match List.find (fun name => bool_decide (bytes name = key)) names with
  | Some name => Some name
  | None => List.find (fun name => bool_decide (fold_name (bytes name) = fold_name key)) names
  end.

(** The members in order; a key without a field is skipped, a repeated field is set
    again.  json.Unmarshal goes on after a value of the wrong type and reports the first
    such error at the end; its callers drop the struct then. *)
Fixpoint decode_members {A} (names : list string) (set : string -> json -> A -> result A)
  (members : list (list Z * json)) (acc : A) : result A :=
  match members with
  | [] => Ok acc
  | (key, v) :: members =>
    acc ← match find_field names (unquote 0 key) with Some name => set name v acc | None => Ok acc end;
    decode_members names set members acc
  end.

Definition syntax_error : error := Errorf "invalid JSON".
Definition type_error : error := Errorf "json: cannot unmarshal value into Go struct field".

Definition decode_struct {A} (names : list string) (set : string -> json -> A -> result A)
  (zero : A) (text : string) : result A :=
  match parse_json (bytes text) with
  | None => Err syntax_error
  | Some JNull => Ok zero
  | Some (JObject members) => decode_members names set members zero
  | Some _ => Err type_error
  end.

(** The value of a field of type string, uint64 or time.Time that holds [cur]. *)
Definition decode_string (v : json) (cur : string) : result string :=
  match v with
  | JString raw => Ok (str (unquote 0 raw))
  | JNull => Ok cur
  | _ => Err type_error
  end.

(** strconv.ParseUint(s, 10, 64), on a literal the scanner accepted. *)
Definition ParseUint64 (l : list Z) : option Z :=
  match l with
  | [] => None
  | _ => match parse_digits l 0 with
         | Some n => if (n <? 2 ^ 64)%Z then Some n else None
         | None => None
         end
  end.
Definition decode_uint64 (v : json) (cur : Z) : result Z :=
  match v with
  | JNumber literal => match ParseUint64 literal with Some n => Ok n | None => Err type_error end
  | JNull => Ok cur
  | _ => Err type_error
  end.

Definition decode_time (v : json) (cur : time) : result time :=
  match v with
  | JString raw => UnmarshalTime raw
  | JNull => Ok cur
  | _ => Err (Errorf "Time.UnmarshalJSON: input is not a JSON string")
  end.

(** A struct's fields, each with the text of its value. *)
Fixpoint encode_members (fields : list (string * list Z)) : list Z :=
  match fields with
  | [] => []
  | [(name, v)] => encode_string (bytes name) ++ 58%Z :: v
  | (name, v) :: fields => encode_string (bytes name) ++ 58%Z :: v ++ 44%Z :: encode_members fields
  end.
Definition encode_struct (fields : list (string * list Z)) : string :=
  str (123%Z :: encode_members fields ++ [125%Z]).

Definition encode_text (s : string) : list Z := encode_string (bytes s).
Definition encode_uint64 (n : Z) : list Z := bytes (Itoa n).
Definition encode_time (raw : list Z) : list Z := 34%Z :: raw ++ [34%Z].

(** ** Invalid bytes replaced *)

(** What a string is turned into by a round trip: every byte that is no part of an
    encoded rune becomes U+FFFD. *)
Definition to_valid (l : list Z) : list Z := r ← runes l; EncodeRune r.
Definition ToValid (s : string) : string := str (to_valid (bytes s)).

(** ** Lemmas *)

Section chunks.

(** A piece of an encoded string that stands for the bytes [q']: the scanner reads over
    it, and decoding it yields [q']. *)
Definition chunk (q q' : list Z) : Prop :=
  forall x, scan_string (q ++ x) = ('(raw, rest) ← scan_string x; Some (q ++ raw, rest))
         /\ unquote 0 (q ++ x) = q' ++ unquote 0 x.

Lemma unquote_skip k : forall l x, length l = k -> unquote k (l ++ x) = unquote 0 x.
Proof.
  induction k as [|k IH]; intros l x Hl; [by destruct l|].
  destruct l as [|b l]; [done|]. cbn. apply IH. by injection Hl.
Qed.

(** A byte the scanner takes as it is. *)
Definition plain (b : Z) : Prop := (32 <= b)%Z /\ b <> 34%Z /\ b <> 92%Z.

Lemma scan_plain q x :
  Forall plain q -> scan_string (q ++ x) = ('(raw, rest) ← scan_string x; Some (q ++ raw, rest)).
Proof.
  induction 1 as [|b q (H1 & H2 & H3) _ IH]; cbn; [by destruct (scan_string x) as [[]|]|].
  rewrite (proj2 (Z.eqb_neq _ _)), (proj2 (Z.eqb_neq b 92)), (proj2 (Z.ltb_ge _ _)) by done.
  rewrite IH. by destruct (scan_string x) as [[]|].
Qed.

Lemma chunk_ascii b : plain b -> (b < 0x80)%Z -> chunk [b] [b].
Proof.
  intros Hp Hb x. split; [apply (scan_plain [b]); by apply Forall_singleton|].
  destruct Hp as (H1 & H2 & H3). cbn.
  by rewrite (proj2 (Z.eqb_neq b 92)), (proj2 (Z.ltb_lt _ _)) by done.
Qed.

Lemma chunk_escape e : is_escape e = true -> chunk [92%Z; e] [unescape e].
Proof.
  intros He x. cbn. rewrite He. split; [by destruct (scan_string x) as [[]|]|].
  rewrite (proj2 (Z.eqb_neq e 117)); [done|]. by intros ->.
Qed.

Definition hexes (l : list Z) : Prop := Forall (fun h => is_hex h = true) l /\ length l = 4.

Lemma chunk_u h r :
  hexes h -> getu4 (92%Z :: 117%Z :: h) = Some r -> is_surrogate r = false ->
  chunk (92%Z :: 117%Z :: h) (EncodeRune r).
Proof.
  intros [Hh Hl] Hg Hs x. destruct h as [|h1 [|h2 [|h3 [|h4 [|]]]]]; try done.
  inversion_clear Hh as [|? ? H1 Hh']. inversion_clear Hh' as [|? ? H2 Hh''].
  inversion_clear Hh'' as [|? ? H3 Hh3]. inversion_clear Hh3 as [|? ? H4 _].
  split.
  - cbn. rewrite H1, H2, H3, H4. cbn. by destruct (scan_string x) as [[]|].
  - assert (Hu : unquote_u ([92; 117; h1; h2; h3; h4]%Z ++ x) = (r, 6)).
    { unfold unquote_u. assert (Hg' : getu4 ([92; 117; h1; h2; h3; h4]%Z ++ x) = Some r) by exact Hg.
      by rewrite Hg', Hs. }
    change (unquote 0 ([92; 117; h1; h2; h3; h4]%Z ++ x)) with
      (let '(r, width) := unquote_u ([92; 117; h1; h2; h3; h4]%Z ++ x) in
       EncodeRune r ++ unquote (width - 1) ([117; h1; h2; h3; h4]%Z ++ x)).
    by rewrite Hu.
Qed.

(** The two digits of an [\u00XX] escape stand for the byte. *)
Lemma chunk_escape_u b : (0 <= b < 0x80)%Z -> chunk (escape_u b) [b].
Proof.
  intros Hb.
  assert (H : forallb (fun b => forallb is_hex (48 :: 48 :: hex_byte b)%Z &&
    bool_decide (getu4 (92 :: 117 :: 48 :: 48 :: hex_byte b)%Z = Some b) &&
    bool_decide (EncodeRune b = [b])) (seqZ 0 0x80) = true) by (vm_compute; reflexivity).
  rewrite forallb_forall in H. specialize (H b). rewrite !andb_true_iff, !bool_decide_eq_true in H.
  destruct H as [[Hh Hg] He]; [by apply list_elem_of_In, elem_of_seqZ|].
  assert (Hc : chunk (escape_u b) (EncodeRune b)); [|by rewrite He in Hc].
  apply chunk_u; [|done|unfold is_surrogate; lia]. split; [|done].
  apply Forall_forall. intros h Hin. apply list_elem_of_In in Hin. by apply (proj1 (forallb_forall _ _) Hh).
Qed.

Lemma html_safe_plain b : html_safe b = true -> plain b.
Proof.
  unfold html_safe, plain. rewrite andb_true_iff, negb_true_iff, bool_decide_eq_false, Z.leb_le.
  intros [H1 H2]. split_and!; [done|by intros ->; apply H2; set_solver|by intros ->; apply H2; set_solver].
Qed.

Lemma chunk_escape_ascii b : (0 <= b < 0x80)%Z -> chunk (escape_ascii b) [b].
Proof.
  intros Hb. unfold escape_ascii. destruct (html_safe b) eqn:Hs.
  { apply chunk_ascii; [by apply html_safe_plain|lia]. }
  case_bool_decide as H2.
  { rewrite !elem_of_cons, elem_of_nil in H2.
    destruct H2 as [->|[->|[]]]; [exact (chunk_escape 34 eq_refl)|exact (chunk_escape 92 eq_refl)]. }
  destruct (Z.eqb_spec b 8) as [->|]; [exact (chunk_escape 98 eq_refl)|].
  destruct (Z.eqb_spec b 12) as [->|]; [exact (chunk_escape 102 eq_refl)|].
  destruct (Z.eqb_spec b 10) as [->|]; [exact (chunk_escape 110 eq_refl)|].
  destruct (Z.eqb_spec b 13) as [->|]; [exact (chunk_escape 114 eq_refl)|].
  destruct (Z.eqb_spec b 9) as [->|]; [exact (chunk_escape 116 eq_refl)|].
  by apply chunk_escape_u.
Qed.

Lemma chunk_nil : chunk [] [].
Proof. intros x. cbn. split; [by destruct (scan_string x) as [[]|]|done]. Qed.

Lemma chunk_app q1 q1' q2 q2' : chunk q1 q1' -> chunk q2 q2' -> chunk (q1 ++ q2) (q1' ++ q2').
Proof.
  intros H1 H2 x. destruct (H1 (q2 ++ x)) as [Hs1 Hu1]. destruct (H2 x) as [Hs2 Hu2]. split.
  - rewrite <- app_assoc, Hs1, Hs2. destruct (scan_string x) as [[raw rest]|]; [|done]. cbn. by rewrite app_assoc.
  - by rewrite <- !app_assoc, Hu1, Hu2.
Qed.

(** The bytes of a rune that is no ASCII character. *)
Lemma enc_arith_high r : valid_rune r -> (0x80 <= r)%Z -> Forall (fun b => 0x80 <= b)%Z (enc_arith r).
Proof. unfold valid_rune, enc_arith. intros. repeat case_match; repeat constructor; lia. Qed.

Lemma chunk_rune r : valid_rune r -> (0x80 <= r)%Z -> chunk (enc_arith r) (EncodeRune r).
Proof.
  intros Hv Hr x. pose proof (enc_arith_high r Hv Hr) as Hb. split.
  - apply scan_plain. eapply Forall_impl; [exact Hb|]. cbn. unfold plain. lia.
  - pose proof (decode_complete r x Hv) as Hd. pose proof (enc_arith_pos r) as Hpos.
    destruct (enc_arith r) as [|b l] eqn:He; [cbn in Hpos; lia|].
    apply Forall_cons in Hb as [Hb _]. cbn [app unquote] in *.
    rewrite (proj2 (Z.eqb_neq b 92)), (proj2 (Z.ltb_ge _ _)) by lia. rewrite Hd. f_equal.
    apply unquote_skip. cbn. lia.
Qed.

Lemma quote_skip k : forall l, k <= length l -> quote k l = quote 0 (drop k l).
Proof.
  induction k as [|k IH]; intros l Hl; [by rewrite drop_0|].
  destruct l as [|b l]; [done|]. cbn. apply IH. cbn in Hl. lia.
Qed.

Lemma DecodeRune_ascii b l : (b < 0x80)%Z -> DecodeRune (b :: l) = (b, 1).
Proof. intros Hb. unfold DecodeRune. by rewrite (proj2 (Z.ltb_lt _ _)). Qed.

(** One rune of the text. *)
Lemma quote_step b l r k :
  Forall is_byte (b :: l) -> DecodeRune (b :: l) = (r, k) ->
  1 <= k <= length (b :: l) /\
  exists q, quote 0 (b :: l) = q ++ quote 0 (drop k (b :: l)) /\ chunk q (EncodeRune r).
Proof.
  intros Hb Hd. apply Forall_cons in Hb as Hb'. destruct Hb' as [Hb0 _]. unfold is_byte in Hb0.
  destruct (Z.ltb_spec b 0x80).
  { rewrite DecodeRune_ascii in Hd by done. injection Hd as <- <-. split; [cbn; lia|].
    exists (escape_ascii b). cbn [quote drop]. rewrite (proj2 (Z.ltb_lt _ _)) by done.
    rewrite drop_0. split; [done|]. rewrite EncodeRune_arith by (left; lia).
    unfold enc_arith. rewrite (proj2 (Z.leb_le _ _)) by lia. apply chunk_escape_ascii. lia. }
  assert (Hq : forall q, quote_rune (b :: l) r k = q -> 1 <= k <= length (b :: l) ->
    quote 0 (b :: l) = q ++ quote 0 (drop k (b :: l))).
  { intros q <- Hk. cbn [quote]. rewrite (proj2 (Z.ltb_ge _ _)) by done. rewrite Hd. f_equal.
    destruct k as [|k]; [lia|]. cbn in Hk |- *. rewrite Nat.sub_0_r. apply quote_skip. lia. }
  destruct (decode_sound _ _ _ Hb Hd) as [(? & _)|[(_ & -> & ->)|(rest & Hv & He & Hk)]]; [done| |].
  { split; [cbn; lia|]. eexists. split; [apply Hq; [done|cbn; lia]|].
    by apply (chunk_u [102; 102; 102; 100]%Z); [split; [repeat constructor|]| |]. }
  assert (Hlen : 1 <= k <= length (b :: l)).
  { pose proof (enc_arith_pos r). rewrite He, length_app. lia. }
  split; [done|]. assert (Hr : (0x80 <= r)%Z).
  { destruct (Z.leb_spec 0x80 r) as [|Hlt]; [done|]. exfalso. unfold enc_arith in He.
    rewrite (proj2 (Z.leb_le _ _)) in He by lia. injection He as -> _. lia. }
  destruct (decide (r = 0x2028 \/ r = 0x2029)%Z) as [[->| ->]|Hn].
  1,2: eexists; (split; [apply Hq; [vm_compute; reflexivity|done]|]).
  1,2: apply chunk_u; [split; [repeat constructor|done]|reflexivity|reflexivity].
  exists (enc_arith r). split; [apply Hq; [|done]|by apply chunk_rune].
  unfold quote_rune. rewrite (proj2 (Z.eqb_neq r 0x2028)), (proj2 (Z.eqb_neq r 0x2029)) by naive_solver.
  rewrite (bool_decide_eq_false_2 (k = 1)), andb_false_r.
  2: { subst k. unfold enc_arith. unfold valid_rune in Hv. repeat case_match; cbn; lia. }
  cbn [orb]. rewrite He, Hk. by rewrite take_app_length.
Qed.

Lemma runes_go_fuel n : forall m l, length l <= n -> length l <= m -> Forall is_byte l -> runes_go n l = runes_go m l.
Proof.
  induction n as [|n IH]; intros m l Hn Hm Hb; [by destruct l; [destruct m|cbn in Hn; lia]|].
  destruct l as [|b l]; [by destruct m|]. destruct m as [|m]; [cbn in Hm; lia|].
  cbn [runes_go]. destruct (DecodeRune (b :: l)) as [r k] eqn:Hd.
  destruct (quote_step b l r k Hb Hd) as [Hk _]. f_equal. apply IH.
  1,2: rewrite length_drop; cbn in *; lia. by apply Forall_drop.
Qed.

Lemma to_valid_step b l r k :
  Forall is_byte (b :: l) -> DecodeRune (b :: l) = (r, k) ->
  to_valid (b :: l) = EncodeRune r ++ to_valid (drop k (b :: l)).
Proof.
  intros Hb Hd. unfold to_valid, runes. cbn [length runes_go]. rewrite Hd. cbn [mbind list_bind]. f_equal.
  destruct (quote_step b l r k Hb Hd) as [Hk _]. unfold mbind. f_equal. apply runes_go_fuel; [|done|by apply Forall_drop].
  rewrite length_drop. cbn in *. lia.
Qed.

(** The scanner reads over an encoded string, and decoding it yields the string with
    its invalid bytes replaced. *)
Lemma chunk_quote l : Forall is_byte l -> chunk (quote 0 l) (to_valid l).
Proof.
  remember (length l) as n eqn:Hn. revert l Hn. induction (lt_wf n) as [n _ IH]. intros l -> Hb.
  destruct l as [|b l]; [apply chunk_nil|].
  destruct (DecodeRune (b :: l)) as [r k] eqn:Hd.
  destruct (quote_step b l r k Hb Hd) as (Hk & q & -> & Hc). rewrite (to_valid_step b l r k) by done.
  apply chunk_app; [done|]. eapply IH; [|done|by apply Forall_drop].
  rewrite length_drop. cbn in *. lia.
Qed.

End chunks.

Lemma scan_quote l rest : Forall is_byte l -> scan_string (quote 0 l ++ 34%Z :: rest) = Some (quote 0 l, rest).
Proof.
  intros Hl. destruct (chunk_quote l Hl (34%Z :: rest)) as [H _]. rewrite H. cbn. by rewrite app_nil_r.
Qed.

Lemma unquote_quote l : Forall is_byte l -> unquote 0 (quote 0 l) = to_valid l.
Proof.
  intros Hl. destruct (chunk_quote l Hl []) as [_ H]. by rewrite !app_nil_r in H.
Qed.

(** A valid string is not changed. *)
Lemma to_valid_id rs : Forall valid_rune rs -> to_valid (rs ≫= enc_arith) = (rs ≫= enc_arith).
Proof.
  intros Hv. unfold to_valid, runes. rewrite runes_go_enc by done. by apply bind_EncodeRune.
Qed.

Lemma ToValid_id s : valid_utf8 s -> ToValid s = s.
Proof.
  intros (rs & Hv & Hs). unfold ToValid. rewrite Hs, to_valid_id by done. rewrite <- Hs. apply str_bytes.
Qed.

Lemma runes_go_valid n : forall l, Forall is_byte l -> Forall valid_rune (runes_go n l).
Proof.
  induction n as [|n IH]; intros l Hb; [by destruct l|]. destruct l as [|b l]; [constructor|].
  cbn [runes_go]. destruct (DecodeRune (b :: l)) as [r k] eqn:Hd.
  constructor; [|by apply IH, Forall_drop].
  destruct (decode_sound _ _ _ Hb Hd) as [(? & _)|[(_ & -> & _)|(rest & Hv & _)]]; [done| |done].
  unfold valid_rune, RuneError. lia.
Qed.

(** The result is always valid, so [ToValid] changes exactly the invalid strings. *)
Lemma valid_utf8_ToValid s : valid_utf8 (ToValid s).
Proof.
  pose proof (runes_go_valid (length (bytes s)) (bytes s) (bytes_range s)) as Hv.
  exists (runes (bytes s)). split; [exact Hv|]. unfold ToValid, to_valid.
  rewrite bytes_str, bind_EncodeRune by (exact Hv || (rewrite bind_EncodeRune by exact Hv; by apply bind_enc_bytes)).
  done.
Qed.

Lemma ToValid_fixed s : ToValid s = s <-> valid_utf8 s.
Proof. split; [intros <-; apply valid_utf8_ToValid|apply ToValid_id]. Qed.

(** A string is blank exactly when what it becomes is. *)
Lemma runes_go_exact n : forall l, Forall is_byte l -> length l <= n ->
  (RuneError ∉ runes_go n l) -> l = (runes_go n l ≫= enc_arith).
Proof.
  induction n as [|n IH]; intros l Hb Hn He; [by destruct l; [|cbn in Hn; lia]|].
  destruct l as [|b l]; [done|]. cbn [runes_go] in *. destruct (DecodeRune (b :: l)) as [r k] eqn:Hd.
  apply not_elem_of_cons in He as [Hr He].
  destruct (quote_step b l r k Hb Hd) as [Hk _].
  destruct (decode_sound _ _ _ Hb Hd) as [(? & _)|[(_ & -> & _)|(rest & Hv & Hl & ->)]]; [done|done|].
  rewrite Hl in He |- *. rewrite drop_app_length in *. cbn [mbind list_bind]. f_equal.
  assert (Hlen : length (b :: l) = length (enc_arith r) + length rest) by (rewrite Hl; apply length_app).
  pose proof (enc_arith_pos r). apply IH; [|cbn in *; lia|done].
  rewrite Hl in Hb. by apply Forall_app in Hb as [_ Hb].
Qed.

Lemma blank_spaces l : blank l <-> exists rs, Forall (fun r => IsSpace r = true) rs /\ l = (rs ≫= enc_arith).
Proof.
  split.
  - induction 1 as [|r l Hr _ (rs & Hrs & ->)]; [by exists []|]. exists (r :: rs). by split; [constructor|].
  - intros (rs & Hrs & ->). induction Hrs as [|r rs Hr _ IH]; [constructor|]. by apply blank_cons.
Qed.

Lemma spaces_valid rs : Forall (fun r => IsSpace r = true) rs -> Forall valid_rune rs /\ (RuneError ∉ rs).
Proof.
  intros Hrs. split; [eapply Forall_impl; [exact Hrs|]; intros r Hr; by apply IsSpace_valid|].
  intros Hin. rewrite Forall_forall in Hrs. by apply Hrs in Hin.
Qed.

Lemma ToValid_blank s : is_blank (ToValid s) = is_blank s.
Proof.
  assert (H : blank_string (ToValid s) <-> blank_string s).
  { unfold blank_string. split; intros (rs & Hrs & He)%blank_spaces;
      destruct (spaces_valid rs Hrs) as [Hv Hne].
    - pose proof (runes_go_valid (length (bytes s)) (bytes s) (bytes_range s)) as Hv'.
      unfold ToValid, to_valid, runes in He.
      rewrite bind_EncodeRune in He by exact Hv'. rewrite bytes_str in He by by apply bind_enc_bytes.
      assert (Heq : runes_go (length (bytes s)) (bytes s) = rs).
      { pose proof (runes_go_enc _ rs Hv (Nat.le_refl _)) as H1. rewrite <- He in H1.
        by rewrite runes_go_enc in H1. }
      apply blank_spaces. exists rs. split; [done|].
      rewrite (runes_go_exact _ (bytes s) (bytes_range s) (Nat.le_refl _)) by by rewrite Heq. by rewrite Heq.
    - rewrite ToValid_id; [|by exists rs]. apply blank_spaces. by exists rs. }
  destruct (is_blank s) eqn:H1; [by apply is_blank_spec, H, is_blank_spec|].
  apply is_blank_false. rewrite H. by apply is_blank_false.
Qed.

(** ** The fuel of the parser is enough *)

Lemma skip_ws_length l : length (skip_ws l) <= length l.
Proof. induction l as [|b l IH]; cbn; [done|]. case_bool_decide; cbn; lia. Qed.

(** Case analysis of an option-valued computation that succeeds. *)
Ltac unbind H :=
  repeat (try unfold mbind, option_bind in H; cbn beta iota in H;
          match type of H with
          | match ?x with _ => _ end = Some _ => destruct x eqn:?; try discriminate H
          end);
  simplify_eq/=.

Lemma scan_string_length n : forall l raw rest, length l <= n -> scan_string l = Some (raw, rest) -> length rest < length l.
Proof.
  induction n as [|n IH]; intros l raw rest Hn H; [by destruct l; [|cbn in Hn; lia]|].
  destruct l as [|b l]; [done|]. cbn in H, Hn. unbind H; try lia;
    match goal with H : scan_string _ = Some _ |- _ => apply IH in H; cbn in *; lia end.
Qed.

Lemma span_digits_length l : forall ds rest, span_digits l = (ds, rest) -> length rest <= length l.
Proof.
  induction l as [|b l IH]; intros ds rest H; cbn in H; [by simplify_eq|].
  destruct (digit b); [|by simplify_eq]. destruct (span_digits l) as [ds' rest'].
  simplify_eq. specialize (IH _ _ eq_refl). cbn. lia.
Qed.

Lemma digits1_length l ds rest : digits1 l = Some (ds, rest) -> length rest < length l.
Proof.
  unfold digits1. destruct l as [|b l]; [done|]. cbn. destruct (digit b); [|done].
  destruct (span_digits l) as [ds' rest'] eqn:Hs. intros [= _ <-]. apply span_digits_length in Hs. lia.
Qed.

Lemma scan_int_length l int rest : scan_int l = Some (int, rest) -> length rest < length l.
Proof.
  unfold scan_int. destruct l as [|b l]; [done|]. case_match; [intros [= _ <-]; cbn; lia|].
  by intros Hd%digits1_length.
Qed.

Lemma scan_frac_length l frac rest : scan_frac l = Some (frac, rest) -> length rest <= length l.
Proof.
  unfold scan_frac. destruct l as [|b l]; [by intros [= _ <-]|]. case_match; [|by intros [= _ <-]].
  destruct (digits1 l) as [[ds r]|] eqn:Hd; [|done]. intros [= _ <-]. apply digits1_length in Hd. cbn. lia.
Qed.

Lemma scan_exp_length l ex rest : scan_exp l = Some (ex, rest) -> length rest <= length l.
Proof.
  unfold scan_exp. destruct l as [|b l]; [by intros [= _ <-]|]. case_match; [|by intros [= _ <-]].
  destruct l as [|c l]; [done|]. case_match.
  - destruct (digits1 l) as [[ds r]|] eqn:Hd; [|done]. intros [= _ <-]. apply digits1_length in Hd. cbn. lia.
  - destruct (digits1 (c :: l)) as [[ds r]|] eqn:Hd; [|done]. intros [= _ <-]. apply digits1_length in Hd. cbn in *. lia.
Qed.

Lemma scan_number_length l n rest : scan_number l = Some (n, rest) -> length rest < length l.
Proof.
  unfold scan_number.
  destruct (match l with b :: l' => if (b =? 45)%Z then ([b], l') else ([], l) | [] => ([], l) end) as [sign l0] eqn:Hs.
  assert (Hl : length l0 <= length l).
  { destruct l as [|b l]; [by injection Hs as _ <-|]. destruct (b =? 45)%Z; injection Hs as _ <-; cbn; lia. }
  destruct (scan_int l0) as [[i l1]|] eqn:H1; [|done]. apply scan_int_length in H1. cbn.
  destruct (scan_frac l1) as [[f l2]|] eqn:H2; [|done]. apply scan_frac_length in H2. cbn.
  destruct (scan_exp l2) as [[e l3]|] eqn:H3; [|done]. apply scan_exp_length in H3. cbn.
  intros [= _ <-]. lia.
Qed.

Lemma scan_word_length word : forall l rest, scan_word word l = Some rest -> length rest + length word = length l.
Proof.
  induction word as [|w word IH]; intros l rest H; cbn in H; [injection H as ->; cbn; lia|].
  destruct l as [|b l]; [done|]. case_match; [|done]. apply IH in H. cbn. lia.
Qed.

Lemma expect_length c l rest : expect c l = Some rest -> length rest < length l.
Proof. destruct l as [|b l]; [done|]. cbn. case_match; [|done]. intros [= <-]. lia. Qed.

(** The texts after a value, after the members of an object and after the elements of
    an array are shorter. *)
Definition shorter (n : nat) : Prop :=
  (forall d l v rest, parse_value n d l = Some (v, rest) -> length rest < length l) /\
  (forall d l ms rest, parse_members n d l = Some (ms, rest) -> length rest < length l) /\
  (forall d l vs rest, parse_elements n d l = Some (vs, rest) -> length rest < length l).

Lemma skip_ws_cons l b l' : skip_ws l = b :: l' -> length l' < length l.
Proof. intros H. pose proof (skip_ws_length l) as Hl. rewrite H in Hl. cbn in Hl. lia. Qed.

(** The lengths of the texts after the pieces that were read. *)
Ltac lengths :=
  repeat match goal with
  | H : scan_word _ _ = Some _ |- _ => apply scan_word_length in H
  | H : scan_string _ = Some _ |- _ => eapply scan_string_length in H; [|done]
  | H : scan_number _ = Some _ |- _ => apply scan_number_length in H
  | H : expect _ _ = Some _ |- _ => apply expect_length in H
  | H : skip_ws _ = _ :: _ |- _ => apply skip_ws_cons in H
  | H : context [length (skip_ws ?l)] |- _ => unless (length (skip_ws l) <= length l) by assumption;
      pose proof (skip_ws_length l)
  end; cbn in *; lia.

#[local] Arguments scan_word : simpl never.
#[local] Arguments scan_string : simpl never.
#[local] Arguments scan_number : simpl never.

Lemma parse_shorter n : shorter n.
Proof.
  induction n as [|n (IHv & IHm & IHe)]; [by split_and!|]. split_and!; intros d l v rest H; cbn in H; unbind H;
    repeat match goal with
    | H : parse_value _ _ _ = Some _ |- _ => apply IHv in H
    | H : parse_members _ _ _ = Some _ |- _ => apply IHm in H
    | H : parse_elements _ _ _ = Some _ |- _ => apply IHe in H
    end; lengths.
Qed.

(** Two fuels that are enough agree. *)
Lemma parse_fuel n : forall m,
  (forall d l, 2 * length l < n -> 2 * length l < m -> parse_value n d l = parse_value m d l) /\
  (forall d l, 2 * length l < n -> 2 * length l < m -> parse_members n d l = parse_members m d l) /\
  (forall d l, 2 * length l + 1 < n -> 2 * length l + 1 < m -> parse_elements n d l = parse_elements m d l).
Proof.
  induction n as [|n IH]; intros m; [split_and!; intros; lia|]. destruct m as [|m]; [split_and!; intros; lia|].
  destruct (IH m) as (IHv & IHm & IHe). clear IH. split_and!; intros d l Hn Hm; cbn [parse_value parse_members parse_elements].
  - destruct (skip_ws l) as [|b l1] eqn:Hl; [done|]. apply skip_ws_cons in Hl.
    rewrite IHm, IHe by lia. done.
  - destruct (skip_ws l) as [|b l1] eqn:Hl; [done|]. apply skip_ws_cons in Hl.
    destruct (negb (b =? 34)%Z); [done|].
    destruct (scan_string l1) as [[key l2]|] eqn:Hs; [|done]. eapply scan_string_length in Hs; [|done]. cbn.
    destruct (expect 58 (skip_ws l2)) as [l3|] eqn:He; [|done]. apply expect_length in He.
    pose proof (skip_ws_length l2). cbn. rewrite IHv by lia.
    destruct (parse_value m d l3) as [[v l4]|] eqn:Hv; [|done]. apply parse_shorter in Hv. cbn.
    destruct (skip_ws l4) as [|c l5] eqn:Hc; [done|]. apply skip_ws_cons in Hc. by rewrite IHm by lia.
  - rewrite IHv by lia.
    destruct (parse_value m d l) as [[v l4]|] eqn:Hv; [|done]. apply parse_shorter in Hv. cbn.
    destruct (skip_ws l4) as [|c l5] eqn:Hc; [done|]. apply skip_ws_cons in Hc. by rewrite IHe by lia.
Qed.

Lemma parse_value_enough n d l : 2 * length l < n -> parse_value n d l = parse_value (S (2 * length l)) d l.
Proof. intros Hn. apply (parse_fuel n); lia. Qed.

(** ** Reading back an encoded struct *)

Definition stops (rest : list Z) : Prop := hd 0%Z rest = 44%Z \/ hd 0%Z rest = 125%Z.

(** The text [v] of a value is read as the tree [j]. *)
Definition reads (v : list Z) (j : json) : Prop :=
  Forall is_byte v /\
  forall n d rest, 2 * length (v ++ rest) < n -> stops rest -> parse_value n d (v ++ rest) = Some (j, rest).

Lemma skip_ws_id b l : bool_decide (b ∈ [32; 9; 10; 13]%Z) = false -> skip_ws (b :: l) = b :: l.
Proof. intros H. cbn. by rewrite H. Qed.

Lemma bytes_check l : forallb (fun b => (0 <=? b) && (b <? 256))%Z l = true -> Forall is_byte l.
Proof. rewrite forallb_forall. intros H. apply Forall_forall. intros b Hb%list_elem_of_In%H. unfold is_byte. lia. Qed.

Lemma hex_byte_range b : is_byte b -> Forall is_byte (hex_byte b).
Proof.
  intros Hb. apply bytes_check.
  assert (H : forallb (fun b => forallb (fun h => (0 <=? h) && (h <? 256))%Z (hex_byte b))
    (seqZ 0 256) = true) by (vm_compute; reflexivity).
  rewrite forallb_forall in H. apply H, list_elem_of_In, elem_of_seqZ. unfold is_byte in Hb. lia.
Qed.

Lemma escape_ascii_bytes b : is_byte b -> Forall is_byte (escape_ascii b).
Proof.
  intros Hb. unfold escape_ascii, escape_u. repeat case_match.
  all: try (repeat constructor; done || (unfold is_byte in *; lia)).
  apply Forall_app. split; [|by apply hex_byte_range]. repeat constructor; unfold is_byte; lia.
Qed.

Lemma quote_rune_bytes l r width : Forall is_byte l -> Forall is_byte (quote_rune l r width).
Proof.
  intros Hl. unfold quote_rune. case_match; [by apply bytes_check|].
  destruct (Z.eqb_spec r 0x2028) as [->|]; [by apply bytes_check|].
  destruct (Z.eqb_spec r 0x2029) as [->|]; [by apply bytes_check|].
  by apply Forall_take.
Qed.

Lemma quote_bytes l : forall k, Forall is_byte l -> Forall is_byte (quote k l).
Proof.
  induction l as [|b l IH]; intros k Hl; [constructor|]. apply Forall_cons in Hl as Hl'. destruct Hl' as [Hb Hl'].
  cbn [quote]. destruct k as [|k]; [|by apply IH]. case_match.
  - apply Forall_app. split; [by apply escape_ascii_bytes|by apply IH].
  - destruct (DecodeRune (b :: l)) as [r width]. apply Forall_app. split; [by apply quote_rune_bytes|by apply IH].
Qed.

Lemma encode_string_bytes l : Forall is_byte l -> Forall is_byte (encode_string l).
Proof.
  intros Hl. unfold encode_string. constructor; [unfold is_byte; lia|]. apply Forall_app.
  split; [by apply quote_bytes|]. repeat constructor; unfold is_byte; lia.
Qed.

Lemma encode_string_app l rest : encode_string l ++ rest = 34%Z :: quote 0 l ++ 34%Z :: rest.
Proof. unfold encode_string. cbn. by rewrite <- app_assoc. Qed.

Lemma reads_string l : Forall is_byte l -> reads (encode_string l) (JString (quote 0 l)).
Proof.
  intros Hl. split; [by apply encode_string_bytes|]. intros n d rest Hn _. rewrite encode_string_app in *.
  destruct n as [|n]; [lia|]. cbn [parse_value]. rewrite skip_ws_id by reflexivity.
  change (34 =? 123)%Z with false. change (34 =? 91)%Z with false. change (34 =? 34)%Z with true. cbv iota.
  by rewrite scan_quote.
Qed.

Lemma reads_text s : reads (encode_text s) (JString (quote 0 (bytes s))).
Proof. apply reads_string, bytes_range. Qed.

(** A text that needs no escape is its own encoding. *)
Lemma quote_plain l : Forall (fun b => html_safe b = true /\ b < 0x80)%Z l -> quote 0 l = l.
Proof.
  induction 1 as [|b l [H1 H2] _ IH]; [done|]. cbn [quote]. rewrite (proj2 (Z.ltb_lt _ _)) by done.
  unfold escape_ascii. rewrite H1, IH. done.
Qed.

Lemma plain_byte_safe b : plain_byte b -> html_safe b = true /\ (b < 0x80)%Z.
Proof.
  unfold plain_byte. intros Hb. split; [|lia].
  assert (H : forallb html_safe (seqZ 43 16 ++ [84; 90]%Z) = true) by (vm_compute; reflexivity).
  rewrite forallb_forall in H. apply H, list_elem_of_In, elem_of_app. rewrite elem_of_seqZ, !elem_of_cons. lia.
Qed.

Lemma reads_time raw : Forall plain_byte raw -> reads (encode_time raw) (JString raw).
Proof.
  intros Hr. assert (Hq : quote 0 raw = raw).
  { apply quote_plain. eapply Forall_impl; [exact Hr|]. apply plain_byte_safe. }
  pose proof (reads_string raw) as H. unfold encode_string in H. rewrite Hq in H. apply H.
  eapply Forall_impl; [exact Hr|]. unfold plain_byte, is_byte. lia.
Qed.

(** Decimal numbers: digits, no superfluous zero in front. *)
Definition decimal (l : list Z) : Prop :=
  Forall is_digit l /\ (l = [48%Z] \/ exists b l', l = b :: l' /\ b <> 48%Z).

Lemma decimal_Itoa n : (0 <= n)%Z -> decimal (bytes (Itoa n)).
Proof.
  intros Hn. destruct (Itoa_cases n) as [(x & -> & ->)|(x & -> & _)].
  - split; [apply pretty_N_spec|]. unfold pretty, pretty_N. case_decide; [by left|right].
    destruct (pretty_N_go_head x "" ltac:(lia)) as (b & l & Hb & Hr). exists b, l. split; [exact Hb|lia].
  - assert (x = 0%N) as -> by lia. split; [|by left]. by repeat constructor.
Qed.

Lemma span_digits_stop ds rest :
  Forall is_digit ds -> digit (hd 0%Z rest) = false -> span_digits (ds ++ rest) = (ds, rest).
Proof.
  intros Hds Hr. induction Hds as [|b ds Hb _ IH]; cbn.
  - destruct rest as [|c rest]; [done|]. cbn in *. by rewrite Hr.
  - by rewrite (proj2 (digit_spec b) Hb), IH.
Qed.

Lemma scan_number_decimal ds rest :
  decimal ds -> stops rest -> scan_number (ds ++ rest) = Some (ds, rest).
Proof.
  intros [Hd Hz] Hr.
  assert (Hend : scan_frac rest = Some ([], rest) /\ scan_exp rest = Some ([], rest)).
  { destruct rest as [|c rest]; [by destruct Hr|]. destruct Hr as [Hr|Hr]; cbn in Hr; by subst c. }
  assert (Hi : scan_int (ds ++ rest) = Some (ds, rest)).
  { destruct Hz as [->|(b & l & -> & Hb)]; [done|]. cbn [app scan_int].
    rewrite (proj2 (Z.eqb_neq _ _)) by done. unfold digits1.
    change (b :: l ++ rest) with ((b :: l) ++ rest). rewrite span_digits_stop; [done|done|]. destruct Hr as [-> | ->]; done. }
  unfold scan_number. destruct ds as [|b ds]; [by destruct Hz as [|(? & ? & ? & ?)]|].
  apply Forall_cons in Hd as [Hb _]. unfold is_digit in Hb. cbn [app].
  rewrite (proj2 (Z.eqb_neq b 45)) by lia. change (b :: ds ++ rest) with ((b :: ds) ++ rest).
  rewrite Hi. cbn. destruct Hend as [-> He]. cbn. rewrite He. cbn. by rewrite app_nil_r.
Qed.

Lemma reads_decimal ds : decimal ds -> reads ds (JNumber ds).
Proof.
  intros Hds. split; [eapply Forall_impl; [apply Hds|]; unfold is_digit, is_byte; lia|].
  intros n d rest Hn Hr. destruct n as [|n]; [lia|]. cbn [parse_value].
  pose proof (scan_number_decimal ds rest Hds Hr) as Hs.
  destruct Hds as [Hd Hz]. destruct ds as [|b ds]; [by destruct Hz as [|(? & ? & ? & ?)]|].
  apply Forall_cons in Hd as [Hb _]. unfold is_digit in Hb. cbn [app] in *.
  rewrite skip_ws_id by (apply bool_decide_eq_false; rewrite !elem_of_cons, elem_of_nil; lia).
  rewrite (proj2 (Z.eqb_neq b 123)), (proj2 (Z.eqb_neq b 91)), (proj2 (Z.eqb_neq b 34)),
    (proj2 (Z.eqb_neq b 116)), (proj2 (Z.eqb_neq b 102)), (proj2 (Z.eqb_neq b 110)) by lia.
  by rewrite Hs.
Qed.

Lemma reads_uint64 n : (0 <= n)%Z -> reads (encode_uint64 n) (JNumber (encode_uint64 n)).
Proof. intros Hn. by apply reads_decimal, decimal_Itoa. Qed.

(** The members of an encoded struct. *)
Definition tree_of (f : string * list Z) (j : json) : list Z * json := (quote 0 (bytes f.1), j).

Lemma encode_members_bytes fields js : Forall2 (fun f j => reads f.2 j) fields js -> Forall is_byte (encode_members fields).
Proof.
  induction 1 as [|[name v] j fields js [Hv _] _ IH]; [constructor|]. cbn [encode_members].
  pose proof (encode_string_bytes (bytes name) (bytes_range name)) as Hs. cbn in Hv.
  destruct fields; rewrite ?Forall_app, ?Forall_cons; split_and!; try done; rewrite ?Forall_app, ?Forall_cons; split_and!;
    done || (unfold is_byte; lia).
Qed.

Lemma parse_member name v j n d rest :
  reads v j -> 2 * length (encode_string (bytes name) ++ 58%Z :: v ++ rest) < n -> stops rest ->
  parse_members n d (encode_string (bytes name) ++ 58%Z :: v ++ rest) =
  match rest with
  | c :: l => if (c =? 125)%Z then Some ([tree_of (name, v) j], l)
              else '(ms, l) ← parse_members (n - 1) d l; Some (tree_of (name, v) j :: ms, l)
  | [] => None
  end.
Proof.
  intros [_ Hv] Hn Hr. destruct n as [|n]; [lia|]. rewrite encode_string_app in *.
  cbn [parse_members]. rewrite skip_ws_id by reflexivity. change (negb (34 =? 34)%Z) with false. cbv iota.
  rewrite scan_quote by apply bytes_range. cbn [mbind option_bind]. rewrite skip_ws_id by reflexivity.
  cbn [expect mbind option_bind]. rewrite Z.eqb_refl. cbn [mbind option_bind].
  rewrite Hv; [|cbn in Hn; rewrite length_app in Hn; cbn in Hn; lia|done]. cbn [mbind option_bind].
  destruct rest as [|c rest]; [by destruct Hr|]. rewrite Nat.sub_succ, Nat.sub_0_r.
  destruct Hr as [Hr|Hr]; cbn in Hr; subst c; rewrite skip_ws_id by reflexivity; done.
Qed.

Lemma parse_encode_members fields : forall js n d rest,
  Forall2 (fun f j => reads f.2 j) fields js -> fields <> [] ->
  2 * length (encode_members fields ++ 125%Z :: rest) < n ->
  parse_members n d (encode_members fields ++ 125%Z :: rest) = Some (zip_with tree_of fields js, rest).
Proof.
  induction fields as [|[name v] fields IH]; intros js n d rest Hf Hne Hn; [done|].
  apply Forall2_cons_inv_l in Hf as (j & js' & Hv & Hf & ->). cbn in Hv. clear Hne.
  destruct fields as [|f fields].
  - apply Forall2_nil_inv_l in Hf as ->. cbn [encode_members] in *. rewrite <- app_assoc in *. cbn [app] in *.
    by rewrite parse_member with (j := j); [|done|done|right].
  - assert (He : encode_members ((name, v) :: f :: fields) ++ 125%Z :: rest =
      encode_string (bytes name) ++ 58%Z :: v ++ 44%Z :: (encode_members (f :: fields) ++ 125%Z :: rest)).
    { cbn [encode_members]. by rewrite <- app_assoc; cbn [app]; rewrite <- app_assoc. }
    rewrite He in *. rewrite parse_member with (j := j); [|done|done|by left].
    change (44 =? 125)%Z with false. cbv iota.
    rewrite (IH js') by (done || (rewrite !length_app in Hn; cbn [length] in Hn; rewrite length_app in Hn; cbn [length] in *; lia)).
    done.
Qed.

(** An encoded struct is an object with the fields as members. *)
Lemma parse_encode_struct fields js :
  Forall2 (fun f j => reads f.2 j) fields js -> fields <> [] ->
  parse_json (bytes (encode_struct fields)) = Some (JObject (zip_with tree_of fields js)).
Proof.
  intros Hf Hne. unfold encode_struct. rewrite bytes_str.
  2: { constructor; [unfold is_byte; lia|]. apply Forall_app. split; [by eapply encode_members_bytes|].
       repeat constructor; unfold is_byte; lia. }
  set (m := encode_members fields ++ [125%Z]). unfold parse_json. cbn [parse_value length].
  rewrite skip_ws_id by reflexivity. change (123 =? 123)%Z with true. cbv iota.
  change (maxNestingDepth <=? 0)%Z with false. cbv iota.
  assert (Hm : exists m', m = 34%Z :: m').
  { destruct fields as [|[name v] [|f fields]]; [done|..]; by eexists. }
  destruct Hm as [m' Hm]. assert (Hs : skip_ws m = 34%Z :: m') by (by rewrite Hm).
  rewrite Hs. change (34 =? 125)%Z with false. cbv iota. unfold m.
  rewrite (parse_encode_members fields js) by (done || (fold m; lia)). cbn [mbind option_bind]. done.
Qed.

(** Setting the fields of a struct one after the other. *)
Fixpoint set_all {A} (set : string -> json -> A -> result A) (members : list (string * json)) (acc : A) : result A :=
  match members with
  | [] => Ok acc
  | (name, v) :: members => acc ← set name v acc; set_all set members acc
  end.

(** Decoding an encoded struct sets its fields in order. *)
Lemma decode_encode_struct {A} names (set : string -> json -> A -> result A) zero fields js :
  Forall2 (fun f j => reads f.2 j) fields js -> fields <> [] ->
  Forall (fun f => find_field names (to_valid (bytes f.1)) = Some f.1) fields ->
  decode_struct names set zero (encode_struct fields) = set_all set (zip fields.*1 js) zero.
Proof.
  intros Hf Hne Hn. unfold decode_struct. rewrite (parse_encode_struct fields js) by done. clear Hne.
  revert zero Hn. induction Hf as [|[name v] j fields js _ _ IH]; intros zero Hn; [done|].
  apply Forall_cons in Hn as [Hname Hn]. cbn [zip_with fmap list_fmap decode_members set_all tree_of fst] in *.
  rewrite unquote_quote by apply bytes_range. rewrite Hname.
  destruct (set name j zero) as [acc|err]; [|done]. cbn. by apply IH.
Qed.

(** The value of a text field read back. *)
Lemma decode_string_text s cur : decode_string (JString (quote 0 (bytes s))) cur = Ok (ToValid s).
Proof. cbn. by rewrite unquote_quote by apply bytes_range. Qed.

Lemma decode_uint64_Itoa n cur :
  (0 <= n < 2 ^ 64)%Z -> decode_uint64 (JNumber (encode_uint64 n)) cur = Ok n.
Proof.
  intros Hn. cbn. unfold ParseUint64, encode_uint64.
  destruct (Itoa_cases n) as [(x & -> & ->)|(x & Hx & _)].
  - destruct (pretty_N_spec x) as (_ & Hne & Hp). destruct (bytes (pretty x)) eqn:He; [done|].
    rewrite Hp. by rewrite (proj2 (Z.ltb_lt _ _)) by lia.
  - assert (n = 0%Z) as -> by lia. done.
Qed.
