(* ===== verification/JsonValid.v ===== *)
(** * Decoded JSON strings are valid UTF-8

    Whatever bytes json.Unmarshal is given, the strings it stores are valid UTF-8: the
    scanner admits only well-formed escapes, and decoding replaces invalid bytes and
    lone surrogates by U+FFFD. *)

From S2P Require Import Prelude.
From S2P Require Import Utf8.
From S2P Require Import GoStrings.
From S2P Require Import GoTime.
From S2P Require Import Json.

(** ** What the scanner lets through *)

Inductive escaped : list Z -> Prop :=
  | escaped_nil : escaped []
  | escaped_plain b l : b <> 92%Z -> escaped l -> escaped (b :: l)
  | escaped_letter e l : is_escape e = true -> escaped l -> escaped (92%Z :: e :: l)
  | escaped_u h1 h2 h3 h4 l :
      is_hex h1 = true -> is_hex h2 = true -> is_hex h3 = true -> is_hex h4 = true -> escaped l ->
      escaped (92%Z :: 117%Z :: h1 :: h2 :: h3 :: h4 :: l).

#[local] Hint Constructors escaped : core.

(** The text after a string is a suffix of the text, and the string is made of bytes
    before it. *)
Lemma scan_string_escaped n : forall l raw rest, length l <= n ->
  scan_string l = Some (raw, rest) -> escaped raw /\ exists q, l = raw ++ q :: rest.
Proof.
  induction n as [|n IH]; intros l raw rest Hn H; [by destruct l; [|cbn in Hn; lia]|].
  destruct l as [|b l]; [done|]. cbn in H, Hn.
  destruct (b =? 34)%Z; [simplify_eq; split; [done|by eexists]|].
  destruct (Z.eqb_spec b 92) as [->|Hb].
  - destruct l as [|e l]; [done|]. destruct (is_escape e) eqn:He.
    + unbind H. apply IH in Heqo as [He' [q ->]]; [|cbn in Hn; lia]. split; [by constructor|by exists q].
    + destruct (Z.eqb_spec e 117) as [->|]; [|done].
      destruct l as [|h1 [|h2 [|h3 [|h4 l]]]]; try done.
      destruct (is_hex h1 && is_hex h2 && is_hex h3 && is_hex h4) eqn:Hh; [|done].
      apply andb_true_iff in Hh as [[[H1 H2]%andb_true_iff H3]%andb_true_iff H4].
      unbind H. apply IH in Heqo as [He' [q ->]]; [|cbn in Hn; lia]. split; [by constructor|by exists q].
  - destruct (b <? 32)%Z; [done|]. unbind H.
    apply IH in Heqo as [He' [q ->]]; [|lia]. split; [by constructor|by exists q].
Qed.

(** ** Decoding yields runes *)

Definition rune_text (l : list Z) : Prop := exists rs, Forall valid_rune rs /\ l = (rs ≫= enc_arith).

Lemma rune_text_nil : rune_text [].
Proof. by exists []. Qed.

Lemma rune_text_app l1 l2 : rune_text l1 -> rune_text l2 -> rune_text (l1 ++ l2).
Proof.
  intros (r1 & H1 & ->) (r2 & H2 & ->). exists (r1 ++ r2). split; [by apply Forall_app|]. by rewrite bind_app.
Qed.

Lemma rune_text_one r : valid_rune r -> rune_text (enc_arith r).
Proof. intros Hr. exists [r]. split; [by constructor|]. cbn. by rewrite app_nil_r. Qed.

(** EncodeRune yields the encoding of a rune for every number. *)
Lemma rune_text_EncodeRune r : rune_text (EncodeRune r).
Proof.
  assert (H : EncodeRune r = EncodeRune RuneError \/ valid_rune r).
  { unfold EncodeRune at 1, valid_rune. destruct ((0 <=? r) && (r <=? 0x7F))%Z eqn:H1; [right; lia|].
    destruct ((0 <=? r) && (r <=? 0x7FF))%Z eqn:H2; [right; lia|].
    destruct ((r <? 0) || (0x10FFFF <? r) || ((0xD800 <=? r) && (r <=? 0xDFFF)))%Z eqn:H3; [by left|right; lia]. }
  destruct H as [->|Hv]; rewrite EncodeRune_arith; try done; try by apply rune_text_one.
  all: unfold valid_rune, RuneError; try apply rune_text_one; unfold valid_rune; lia.
Qed.

Lemma rune_text_ascii b : (0 <= b < 0x80)%Z -> rune_text [b].
Proof.
  intros Hb. assert (He : enc_arith b = [b]) by (unfold enc_arith; by rewrite (proj2 (Z.leb_le _ _)) by lia).
  rewrite <- He. apply rune_text_one. unfold valid_rune. lia.
Qed.

Lemma unquote_drop k : forall l, k <= length l -> unquote k l = unquote 0 (drop k l).
Proof.
  induction k as [|k IH]; intros l Hl; [by rewrite drop_0|].
  destruct l as [|b l]; [done|]. cbn. apply IH. cbn in Hl. lia.
Qed.

Lemma escaped_tail b l : b <> 92%Z -> escaped (b :: l) -> escaped l.
Proof. intros Hb He. by inversion He. Qed.

Lemma escaped_drop_plain q l : Forall (fun b => 0x80 <= b)%Z q -> escaped (q ++ l) -> escaped l.
Proof. induction 1 as [|b q Hb _ IH]; [done|]. cbn. intros He%escaped_tail; [by apply IH|lia]. Qed.

(** A rune of plain text, or an invalid byte. *)
Lemma decode_escaped b l r k :
  Forall is_byte (b :: l) -> (0x80 <= b)%Z -> escaped (b :: l) -> DecodeRune (b :: l) = (r, k) ->
  1 <= k <= length (b :: l) /\ escaped (drop k (b :: l)).
Proof.
  intros Hb Hhigh He Hd. destruct (quote_step b l r k Hb Hd) as [Hk _]. split; [done|].
  destruct (decode_sound _ _ _ Hb Hd) as [(? & _)|[(_ & _ & ->)|(rest & Hv & Hl & ->)]]; [done| |].
  - cbn. rewrite drop_0. apply (escaped_tail b); [lia|done].
  - rewrite Hl in He |- *. rewrite drop_app_length. eapply escaped_drop_plain; [|exact He].
    apply enc_arith_high; [done|]. destruct (Z.leb_spec 0x80 r) as [|Hlt]; [done|]. exfalso.
    unfold enc_arith in Hl. rewrite (proj2 (Z.leb_le _ _)) in Hl by lia. injection Hl as -> _. lia.
Qed.

Lemma getu4_escaped l r : getu4 l = Some r -> escaped l -> 6 <= length l /\ escaped (drop 6 l).
Proof.
  unfold getu4. destruct l as [|b [|u [|h1 [|h2 [|h3 [|h4 l]]]]]]; try done. intros Hg He.
  destruct ((b =? 92) && (u =? 117))%Z eqn:Hbu; [|by cbn in Hg].
  apply andb_true_iff in Hbu as [->%Z.eqb_eq ->%Z.eqb_eq]. split; [cbn; lia|]. cbn. rewrite drop_0.
  inversion He; subst; done.
Qed.

(** The escape at the head of an escaped text. *)
Lemma unquote_u_escaped l :
  escaped (92%Z :: 117%Z :: l) ->
  let '(_, width) := unquote_u (92%Z :: 117%Z :: l) in
  1 <= width <= length (92%Z :: 117%Z :: l) /\ escaped (drop width (92%Z :: 117%Z :: l)).
Proof.
  intros He. unfold unquote_u. destruct (getu4 (92%Z :: 117%Z :: l)) as [r|] eqn:Hg.
  2: { exfalso. inversion He as [| | |h1 h2 h3 h4 l' H1 H2 H3 H4]; subst; [done|by vm_compute in *|].
       cbn in Hg. by rewrite H1, H2, H3, H4 in Hg. }
  pose proof (getu4_escaped _ _ Hg He) as [Hlen He6]. destruct (is_surrogate r); [|split; [lia|done]].
  destruct (getu4 (drop 6 (92%Z :: 117%Z :: l)) ≫= decode_surrogates r) as [dec|] eqn:Hd; [|split; [lia|done]].
  destruct (getu4 (drop 6 _)) as [r2|] eqn:Hg2 in Hd; [|done].
  pose proof (getu4_escaped _ _ Hg2 He6) as [Hlen2 He12]. rewrite length_drop in Hlen2.
  rewrite drop_drop in He12. split; [lia|exact He12].
Qed.

Lemma unescape_ascii e : is_escape e = true -> (0 <= unescape e < 0x80)%Z.
Proof.
  unfold is_escape. rewrite bool_decide_eq_true, !elem_of_cons, elem_of_nil.
  intros H. repeat destruct H as [->|H]; try done.
Qed.

Lemma unquote_valid n : forall l, length l <= n -> Forall is_byte l -> escaped l -> rune_text (unquote 0 l).
Proof.
  induction n as [|n IH]; intros l Hn Hb He; [by destruct l; [exists []|cbn in Hn; lia]|].
  destruct l as [|b l]; [by exists []|]. cbn [unquote]. destruct (Z.eqb_spec b 92) as [->|Hne].
  - destruct l as [|e l]; [by exists []|]. destruct (Z.eqb_spec e 117) as [->|Hu].
    + pose proof (unquote_u_escaped l He) as Hw. destruct (unquote_u _) as [r width].
      destruct Hw as [Hw Hd]. apply rune_text_app; [apply rune_text_EncodeRune|].
      destruct width as [|width]; [lia|]. cbn in Hw. rewrite Nat.sub_succ, Nat.sub_0_r, unquote_drop by (cbn; lia).
      apply IH; [rewrite length_drop; cbn in *; lia|apply Forall_drop; by inversion Hb|exact Hd].
    + assert (Hi : is_escape e = true /\ escaped l) by (inversion He; subst; [done|done|done]).
      destruct Hi as [Hi Hl]. apply (rune_text_app [unescape e]); [by apply rune_text_ascii, unescape_ascii|].
      cbn. inversion Hb as [|? ? ? Hb']; inversion Hb'; subst. apply IH; [cbn in Hn; lia|done|done].
  - apply Forall_cons in Hb as Hb'. destruct Hb' as [Hb0 Hb']. unfold is_byte in Hb0.
    destruct (Z.ltb_spec b 0x80).
    + apply (rune_text_app [b]); [apply rune_text_ascii; lia|]. apply IH; [cbn in Hn; lia|done|by eapply escaped_tail].
    + destruct (DecodeRune (b :: l)) as [r k] eqn:Hd.
      destruct (decode_escaped b l r k Hb ltac:(lia) He Hd) as [Hk Hdrop].
      apply rune_text_app; [apply rune_text_EncodeRune|]. destruct k as [|k]; [lia|].
      rewrite Nat.sub_succ, Nat.sub_0_r, unquote_drop by (cbn in Hk; lia).
      apply IH; [rewrite length_drop; cbn in *; lia|by apply Forall_drop|exact Hdrop].
Qed.

(** ** The scanner returns suffixes *)

#[local] Abbreviation suffix_bytes l rest := (Forall is_byte l -> Forall is_byte rest) (only parsing).

Lemma skip_ws_suffix l : suffix_bytes l (skip_ws l).
Proof.
  induction l as [|b l IH]; intros H; [done|]. cbn. case_bool_decide; [|done]. apply IH. by inversion H.
Qed.

Lemma span_digits_suffix l : forall ds rest, span_digits l = (ds, rest) -> suffix_bytes l rest.
Proof.
  induction l as [|b l IH]; intros ds rest H Hb; cbn in H; [by simplify_eq|].
  destruct (digit b); [|by simplify_eq]. destruct (span_digits l) as [ds' rest']. simplify_eq.
  apply (IH _ _ eq_refl). by inversion Hb.
Qed.

Lemma digits1_suffix l ds rest : digits1 l = Some (ds, rest) -> suffix_bytes l rest.
Proof.
  unfold digits1. destruct (span_digits l) as [[|d ds'] rest'] eqn:Hs; [done|]. intros [= _ <-].
  by eapply span_digits_suffix.
Qed.

Lemma scan_int_suffix l int rest : scan_int l = Some (int, rest) -> suffix_bytes l rest.
Proof.
  unfold scan_int. destruct l as [|b l]; [done|]. destruct (b =? 48)%Z.
  - intros [= _ <-] Hb. by inversion Hb.
  - apply digits1_suffix.
Qed.

Lemma scan_frac_suffix l frac rest : scan_frac l = Some (frac, rest) -> suffix_bytes l rest.
Proof.
  unfold scan_frac. destruct l as [|b l]; [intros [= _ <-]; exact id|]. destruct (b =? 46)%Z; [|intros [= _ <-]; exact id].
  destruct (digits1 l) as [[ds r]|] eqn:Hd; [|done]. cbn. intros [= _ <-] Hb. eapply digits1_suffix; [done|by inversion Hb].
Qed.

Lemma scan_exp_suffix l ex rest : scan_exp l = Some (ex, rest) -> suffix_bytes l rest.
Proof.
  unfold scan_exp. destruct l as [|b l]; [intros [= _ <-]; exact id|]. destruct (_ || _); [|intros [= _ <-]; exact id].
  destruct l as [|c l]; [done|]. intros He Hb. apply Forall_cons in Hb as [_ Hb]. apply Forall_cons in Hb as Hb'.
  destruct ((c =? 43)%Z || (c =? 45)%Z).
  - destruct (digits1 l) as [[ds r]|] eqn:Hd; [|done]. injection He as _ <-. by eapply digits1_suffix; [|apply Hb'].
  - destruct (digits1 (c :: l)) as [[ds r]|] eqn:Hd; [|done]. injection He as _ <-. by eapply digits1_suffix.
Qed.

Lemma scan_number_suffix l n rest : scan_number l = Some (n, rest) -> suffix_bytes l rest.
Proof.
  unfold scan_number.
  destruct (match l with b :: l' => if (b =? 45)%Z then ([b], l') else ([], l) | [] => ([], l) end) as [sign l0] eqn:Hs.
  assert (Hl : suffix_bytes l l0).
  { intros Hb. destruct l as [|b l]; [by injection Hs as _ <-|].
    destruct (b =? 45)%Z; injection Hs as _ <-; [by inversion Hb|done]. }
  destruct (scan_int l0) as [[i l1]|] eqn:H1; [|done]. pose proof (scan_int_suffix _ _ _ H1) as S1. cbn.
  destruct (scan_frac l1) as [[f l2]|] eqn:H2; [|done]. pose proof (scan_frac_suffix _ _ _ H2) as S2. cbn.
  destruct (scan_exp l2) as [[e l3]|] eqn:H3; [|done]. pose proof (scan_exp_suffix _ _ _ H3) as S3. cbn.
  intros [= _ <-] Hb. by apply S3, S2, S1, Hl.
Qed.

Lemma scan_word_suffix word : forall l rest, scan_word word l = Some rest -> suffix_bytes l rest.
Proof.
  induction word as [|w word IH]; intros l rest H Hb; cbn in H; [by injection H as ->|].
  destruct l as [|b l]; [done|]. destruct (w =? b)%Z; [|done]. apply (IH _ _ H). by inversion Hb.
Qed.

Lemma scan_string_suffix l raw rest : scan_string l = Some (raw, rest) -> suffix_bytes l rest.
Proof.
  intros H Hb. destruct (scan_string_escaped _ l raw rest (Nat.le_refl _) H) as [_ [q ->]].
  apply Forall_app in Hb as [_ Hb]. by inversion Hb.
Qed.

Lemma expect_suffix c l rest : expect c l = Some rest -> suffix_bytes l rest.
Proof. destruct l as [|b l]; [done|]. cbn. destruct (_ =? _)%Z; [|done]. intros [= <-] Hb. by inversion Hb. Qed.

(** ** The strings of a parsed text *)

(** A string that decodes to runes. *)
Definition valid_value (v : json) : Prop :=
  match v with JString raw => rune_text (unquote 0 raw) | _ => True end.

Lemma scan_string_value l raw rest : Forall is_byte l -> scan_string l = Some (raw, rest) -> valid_value (JString raw).
Proof.
  intros Hb H. destruct (scan_string_escaped _ l raw rest (Nat.le_refl _) H) as [He [q ->]].
  apply Forall_app in Hb as [Hb _]. by eapply unquote_valid.
Qed.

Definition parsed_valid (n : nat) : Prop :=
  (forall d l v rest, Forall is_byte l -> parse_value n d l = Some (v, rest) -> Forall is_byte rest /\ valid_value v) /\
  (forall d l ms rest, Forall is_byte l -> parse_members n d l = Some (ms, rest) ->
     Forall is_byte rest /\ Forall (fun m => valid_value m.2) ms) /\
  (forall d l vs rest, Forall is_byte l -> parse_elements n d l = Some (vs, rest) -> Forall is_byte rest).

#[local] Arguments scan_word : simpl never.
#[local] Arguments scan_string : simpl never.
#[local] Arguments scan_number : simpl never.

(** After white space. *)
Lemma skip_ws_bytes l b l' : Forall is_byte l -> skip_ws l = b :: l' -> Forall is_byte (b :: l').
Proof. intros Hb H. pose proof (skip_ws_suffix l Hb) as Hs. by rewrite H in Hs. Qed.

Lemma parse_valid n : parsed_valid n.
Proof.
  induction n as [|n (IHv & IHm & IHe)]; [by split_and!|]. split_and!; intros d l v rest Hb H; cbn in H.
  - destruct (skip_ws l) as [|b l1] eqn:Hl; [done|]. apply (skip_ws_bytes l) in Hl; [|done].
    apply Forall_cons in Hl as Hl1. destruct Hl1 as [_ Hl1].
    destruct (b =? 123)%Z.
    { destruct (d <=? 0)%Z; [done|]. destruct (skip_ws l1) as [|c l2] eqn:Hc; [done|].
      apply (skip_ws_bytes l1) in Hc; [|done]. destruct (c =? 125)%Z.
      - simplify_eq. split; [by inversion Hc|done].
      - unbind H. by split; [apply (IHm _ _ _ _ Hl1 Heqo)|]. }
    destruct (b =? 91)%Z.
    { destruct (d <=? 0)%Z; [done|]. destruct (skip_ws l1) as [|c l2] eqn:Hc; [done|].
      apply (skip_ws_bytes l1) in Hc; [|done]. destruct (c =? 93)%Z.
      - simplify_eq. split; [by inversion Hc|done].
      - unbind H. by split; [apply (IHe _ _ _ _ Hl1 Heqo)|]. }
    unbind H; (split; [|done || by eapply scan_string_value]);
      first [by eapply scan_string_suffix | by eapply scan_word_suffix | by eapply scan_number_suffix].
  - destruct (skip_ws l) as [|b l1] eqn:Hl; [done|]. apply (skip_ws_bytes l) in Hl; [|done].
    apply Forall_cons in Hl as [_ Hl1]. destruct (negb _); [done|].
    destruct (scan_string l1) as [[key l2]|] eqn:Hs; [|done]. apply scan_string_suffix in Hs; [|done]. cbn in H.
    destruct (expect 58 (skip_ws l2)) as [l3|] eqn:He; [|done]. apply expect_suffix in He; [|by apply skip_ws_suffix].
    cbn in H. destruct (parse_value n d l3) as [[w l4]|] eqn:Hv; [|done]. apply IHv in Hv as [H4 Hw]; [|done].
    cbn in H. destruct (skip_ws l4) as [|c l5] eqn:Hc; [done|]. apply (skip_ws_bytes l4) in Hc; [|done].
    apply Forall_cons in Hc as [_ H5]. destruct (c =? 125)%Z; [simplify_eq; by split; [|repeat constructor]|].
    destruct (c =? 44)%Z; [|done]. destruct (parse_members n d l5) as [[ms l6]|] eqn:Hm; [|done].
    apply IHm in Hm as [H6 Hms]; [|done]. cbn in H. simplify_eq. split; [done|]. by constructor.
  - destruct (parse_value n d l) as [[w l4]|] eqn:Hv; [|done]. apply IHv in Hv as [H4 _]; [|done].
    cbn in H. destruct (skip_ws l4) as [|c l5] eqn:Hc; [done|]. apply (skip_ws_bytes l4) in Hc; [|done].
    apply Forall_cons in Hc as [_ H5]. destruct (c =? 93)%Z; [by simplify_eq|].
    destruct (c =? 44)%Z; [|done]. destruct (parse_elements n d l5) as [[vs l6]|] eqn:He; [|done].
    apply IHe in He; [|done]. cbn in H. by simplify_eq.
Qed.

(** The members of a parsed object. *)
Lemma parse_json_valid s ms : parse_json (bytes s) = Some (JObject ms) -> Forall (fun m => valid_value m.2) ms.
Proof.
  unfold parse_json. intros H. destruct (parse_value _ _ _) as [[v rest]|] eqn:Hv; [|done]. cbn in H.
  case_bool_decide; [|done]. simplify_eq. cbn [parse_value] in Hv.
  destruct (skip_ws (bytes s)) as [|b l1] eqn:Hl; [done|]. apply (skip_ws_bytes (bytes s)) in Hl; [|apply bytes_range].
  apply Forall_cons in Hl as [_ Hl1]. unbind Hv; try done.
  by apply (proj1 (proj2 (parse_valid _)) _ _ _ _ Hl1 Heqo).
Qed.

(** A string field decoded from an object is valid UTF-8. *)
Lemma decode_string_valid v cur s : valid_value v -> valid_utf8 cur -> decode_string v cur = Ok s -> valid_utf8 s.
Proof.
  intros Hv Hc. destruct v as [| | |raw| |]; cbn; intros [= <-]; [done|].
  destruct Hv as (rs & Hrs & He). exists rs. split; [done|]. rewrite He. by apply bytes_str, bind_enc_bytes.
Qed.

(** An invariant of a struct that its setters keep on valid values holds of whatever is
    decoded. *)
Lemma decode_struct_valid {A} (P : A -> Prop) names (set : string -> json -> A -> result A) zero text a :
  P zero ->
  (forall name v acc acc', valid_value v -> P acc -> set name v acc = Ok acc' -> P acc') ->
  decode_struct names set zero text = Ok a -> P a.
Proof.
  intros Hz Hset. unfold decode_struct. destruct (parse_json (bytes text)) as [v|] eqn:Hp; [|done].
  destruct v as [| | | | |ms]; try done; [by intros [= <-]|].
  apply parse_json_valid in Hp. revert zero Hz. induction Hp as [|[key v] ms Hv _ IH]; intros zero Hz; cbn; [by intros [= <-]|].
  destruct (find_field names (unquote 0 key)) as [name|].
  - destruct (set name v zero) as [acc|] eqn:Hs; [|done]. cbn. apply IH. by eapply Hset.
  - cbn. by apply IH.
Qed.
