(* ===== verification/GoUrl.v ===== *)
(** * Package net/url: Parse

    url.Parse as of Go 1.26, down to the fields the program reads: the scheme, the
    host, whether there is user information, the raw query and the fragment.  The
    program parses the public WebSocket URL with it, in the configuration and in the
    route directory.  Between the brackets of an IP literal the code asks
    netip.ParseAddr: the argument of class [IPLiterals]. *)

From S2P Require Import Prelude.
From S2P Require Import Utf8.
From S2P Require Import GoStrings.
From S2P Require Import GoTime.
From S2P Require Import Json.

Record URL := mkURL { Scheme : string; Host : string; User : bool; RawQuery : string; Fragment : string }.

(** netip.ParseAddr(s) succeeds and the address is no plain IPv4 address. *)
Class IPLiterals := { is_ipv6 : list Z -> bool }.

(** ** Characters *)

Definition is_letter (b : Z) : bool := ((97 <=? b) && (b <=? 122) || (65 <=? b) && (b <=? 90))%Z.
Definition alnum (b : Z) : bool := is_letter b || digit b.

(** - _ . ~ *)
Definition unreserved (b : Z) : bool := alnum b || bool_decide (b ∈ [45; 95; 46; 126]%Z).

(** The further bytes a host may hold unescaped. *)
Definition host_byte (b : Z) : bool := unreserved b || bool_decide (b ∈ bytes "!$&'()*+,;=:[]<>" ++ [34%Z]).

(** stringContainsCTLByte *)
Definition has_ctl (l : list Z) : bool := existsb (fun b => (b <? 32) || (b =? 127))%Z l.

(** ** Cutting *)

(** strings.Cut with a one-byte separator: what is before, and what is after if the
    separator occurs. *)
Fixpoint cut (sep : Z) (l : list Z) : list Z * option (list Z) :=
  match l with
  | [] => ([], None)
  | b :: l => if (b =? sep)%Z then ([], Some l)
              else let '(before, after) := cut sep l in (b :: before, after)
  end.

(** The text before the last occurrence of a byte, and after it; None when it does not
    occur. *)
Fixpoint cut_last (sep : Z) (l : list Z) : option (list Z * list Z) :=
  match l with
  | [] => None
  | b :: l =>
    match cut_last sep l with
    | Some (before, after) => Some (b :: before, after)
    | None => if (b =? sep)%Z then Some ([], l) else None
    end
  end.

(** ** Escapes *)

Inductive encoding := encodePath | encodeUserPassword | encodeHost | encodeZone | encodeFragment.

Definition hex2 (a b : Z) : Z := (hex_value a * 16 + hex_value b)%Z.

(** The escapes a mode accepts: in a host only non-ASCII bytes and the percent sign. *)
Definition escape_ok (mode : encoding) (a b : Z) : bool :=
  is_hex a && is_hex b &&
  match mode with
  | encodeHost => (8 <=? hex_value a)%Z || (hex2 a b =? 37)%Z
  | encodeZone => bool_decide (hex2 a b ∈ [37; 32]%Z) || host_byte (hex2 a b)
  | _ => true
  end.

Fixpoint unescape (mode : encoding) (l : list Z) : option (list Z) :=
  match l with
  | [] => Some []
  | c :: l1 =>
    if (c =? 37)%Z then
      match l1 with
      | a :: b :: l2 => if escape_ok mode a b then cons (hex2 a b) <$> unescape mode l2 else None
      | _ => None
      end
    else
      match mode with
      | encodeHost | encodeZone =>
        if (c <? 128)%Z && negb (host_byte c) then None else cons c <$> unescape mode l1
      | _ => cons c <$> unescape mode l1
      end
  end.

(** ** The parts of a URL *)

(** A letter, then letters, digits, + - . up to a colon; None is an error, no scheme the
    empty list with the whole text. *)
Fixpoint scheme_go (first : bool) (l : list Z) : option (list Z * list Z) :=
  match l with
  | [] => None
  | b :: l =>
    if is_letter b || negb first && (digit b || bool_decide (b ∈ bytes "+-.")) then
      '(scheme, rest) ← scheme_go false l; Some (b :: scheme, rest)
    else if negb first && (b =? 58)%Z then Some ([], l)
    else None
  end.
Definition getScheme (l : list Z) : option (list Z * list Z) :=
  match l with
  | b :: _ => if (b =? 58)%Z then None
              else Some (match scheme_go true l with Some r => r | None => ([], l) end)
  | [] => Some ([], l)
  end.

Definition lower (l : list Z) : list Z := (fun b => if (65 <=? b)%Z && (b <=? 90)%Z then (b + 32)%Z else b) <$> l.

Definition validOptionalPort (l : list Z) : bool :=
  match l with [] => true | b :: l => (b =? 58)%Z && forallb digit l end.

(** Each rune a letter, a digit, or one of the listed characters. *)
Definition validUserinfo (l : list Z) : bool :=
  forallb (fun b => alnum b || bool_decide (b ∈ bytes "-._:~!$&'()*+,;=%@")) l.

(** The position of "%25", which starts the zone of an IP literal. *)
Fixpoint zone_split (l : list Z) : list Z * list Z :=
  match l with
  | 37%Z :: 50%Z :: 53%Z :: _ => ([], l)
  | b :: l' => let '(host, zone) := zone_split l' in (b :: host, zone)
  | [] => ([], [])
  end.

Section parse.
Context `{IPLiterals}.

(** An IP literal in brackets, or a name with at most one colon, in front of a port;
    several colons are only accepted for the PostgreSQL schemes. *)
Definition parseHost (scheme host : list Z) : option (list Z) :=
  match cut_last 91 host with
  | Some (_ :: _, _) => None
  | Some ([], inner) =>
    match cut_last 93 inner with
    | None => None
    | Some (hostname, colonPort) =>
      if negb (validOptionalPort colonPort) then None
      else
        colonPort ← unescape encodeHost colonPort;
        let '(name, zone) := zone_split hostname in
        name ← unescape encodeHost name;
        zone ← unescape encodeZone zone;
        if is_ipv6 (name ++ zone) then Some (91%Z :: name ++ zone ++ 93%Z :: colonPort) else None
    end
  | None =>
    let colonPort :=
      if bool_decide (scheme ∈ bytes <$> ["postgres"; "postgresql"]%string)
      then match cut_last 58 host with Some (_, port) => 58%Z :: port | None => [] end
      else match cut 58 host with (_, Some port) => 58%Z :: port | (_, None) => [] end in
    if negb (validOptionalPort colonPort) then None else unescape encodeHost host
  end.

(** Whether there is user information, and the host. *)
Definition parseAuthority (scheme authority : list Z) : option (bool * list Z) :=
  match cut_last 64 authority with
  | None => host ← parseHost scheme authority; Some (false, host)
  | Some (userinfo, rest) =>
    host ← parseHost scheme rest;
    if negb (validUserinfo userinfo) then None
    else
      let '(username, password) := cut 58 userinfo in
      _ ← unescape encodeUserPassword username;
      _ ← match password with Some password => unescape encodeUserPassword password | None => Some [] end;
      Some (true, host)
  end.

(** The query; a question mark with nothing after it gives the empty one. *)
Definition cut_query (l : list Z) : list Z * list Z :=
  let '(before, after) := cut 63 l in (before, default [] after).

Definition starts_slash (l : list Z) : bool := bool_decide (head l = Some 47%Z).

(** parse(rawURL, false), on the text before the fragment: the scheme, the host, whether
    there is user information, and the query.  Without a leading slash a text with a
    scheme is opaque; a path's first segment holds no colon; two slashes introduce the
    authority, but three only after a scheme. *)
Definition parse (l : list Z) : option (list Z * list Z * bool * list Z) :=
  if has_ctl l then None
  else if bool_decide (l = [42%Z]) then Some ([], [], false, [])
  else
    '(scheme, rest) ← getScheme l;
    let scheme := lower scheme in
    let '(rest, query) := cut_query rest in
    let path_only := (_ ← unescape encodePath rest; Some (scheme, [], false, query)) in
    if negb (starts_slash rest) then
      if negb (bool_decide (scheme = [])) then Some (scheme, [], false, query)
      else if bool_decide (58%Z ∈ (cut 47 rest).1) then None
      else path_only
    else if starts_slash (tail rest) && negb (bool_decide (scheme = []) && starts_slash (tail (tail rest))) then
      let '(authority, path) := cut 47 (drop 2 rest) in
      '(user, host) ← parseAuthority scheme authority;
      _ ← unescape encodePath (match path with Some path => 47%Z :: path | None => [] end);
      Some (scheme, host, user, query)
    else path_only.

Definition url_Parse (s : string) : result URL :=
  let '(u, frag) := cut 35 (bytes s) in
  match parse u with
  | None => Err (Wrap "parse" (Errorf "invalid URL"))
  | Some (scheme, host, user, query) =>
    match unescape encodeFragment (default [] frag) with
    | None => Err (Wrap "parse" (Errorf "invalid URL escape"))
    | Some fragment => Ok (mkURL (str scheme) (str host) user (str query) (str fragment))
    end
  end.

End parse.

(** ** Lemmas *)

Lemma cut_spec sep l before after :
  cut sep l = (before, after) ->
  (sep ∉ before) /\ match after with None => l = before | Some after => l = before ++ sep :: after end.
Proof.
  revert before after. induction l as [|b l IH]; intros before after Hc; cbn in Hc.
  { simplify_eq. split; [apply not_elem_of_nil|done]. }
  destruct (Z.eqb_spec b sep) as [->|Hne]; [simplify_eq; split; [apply not_elem_of_nil|done]|].
  destruct (cut sep l) as [before' after'] eqn:Hl. simplify_eq.
  destruct (IH _ _ eq_refl) as [Hn Hs]. split; [rewrite not_elem_of_cons; by split|].
  destruct after; by rewrite Hs.
Qed.

Lemma cut_free sep l : sep ∉ l -> cut sep l = (l, None).
Proof.
  induction l as [|b l IH]; intros Hl; [done|]. apply not_elem_of_cons in Hl as [Hb Hl]. cbn.
  rewrite (proj2 (Z.eqb_neq b sep)) by done. by rewrite IH.
Qed.

Lemma cut_app sep before after : sep ∉ before -> cut sep (before ++ sep :: after) = (before, Some after).
Proof.
  induction before as [|b l IH]; intros Hl; cbn; [by rewrite Z.eqb_refl|].
  apply not_elem_of_cons in Hl as [Hb Hl]. rewrite (proj2 (Z.eqb_neq b sep)) by done. by rewrite IH.
Qed.

Lemma cut_last_none sep l : cut_last sep l = None <-> sep ∉ l.
Proof.
  induction l as [|b l IH]; cbn; [split; [intros; apply not_elem_of_nil|done]|].
  rewrite not_elem_of_cons. destruct (cut_last sep l) as [[? ?]|].
  - split; [done|]. intros [_ H]. by apply IH in H.
  - destruct (Z.eqb_spec b sep); split; try done; naive_solver.
Qed.

Lemma scheme_go_spec l : forall first scheme rest,
  scheme_go first l = Some (scheme, rest) ->
  l = scheme ++ 58%Z :: rest /\ (first = true -> scheme <> []).
Proof.
  induction l as [|b l IH]; intros first scheme rest Hs; cbn in Hs; [done|].
  destruct (is_letter b || negb first && _); cbn in Hs.
  - destruct (scheme_go false l) as [[s r]|] eqn:Hg; [|done]. cbn in Hs. simplify_eq.
    destruct (IH _ _ _ Hg) as [-> _]. done.
  - destruct (negb first && (b =? 58)%Z) eqn:Hb; [|done]. apply andb_true_iff in Hb as [Hf Hb].
    simplify_eq. apply Z.eqb_eq in Hb as ->. split; [done|]. intros ->. done.
Qed.

Lemma getScheme_spec l scheme rest :
  getScheme l = Some (scheme, rest) -> scheme <> [] -> l = scheme ++ 58%Z :: rest.
Proof.
  unfold getScheme. destruct l as [|b l]; [by intros [= <- <-]|].
  destruct (b =? 58)%Z; [done|]. destruct (scheme_go true (b :: l)) as [[s r]|] eqn:Hs; [|by intros [= <- <-]].
  intros [= <- <-] _. by apply scheme_go_spec in Hs as [-> _].
Qed.

Lemma unescape_plain mode l :
  Forall (fun b => host_byte b = true /\ b <> 37%Z) l -> unescape mode l = Some l.
Proof.
  induction 1 as [|b l [Hb Hn] _ IH]; [done|]. cbn. rewrite (proj2 (Z.eqb_neq b 37)) by done.
  rewrite Hb, andb_false_r, IH. by destruct mode.
Qed.

Lemma unescape_path l : 37%Z ∉ l -> unescape encodePath l = Some l.
Proof.
  induction l as [|b l IH]; intros Hl; [done|]. apply not_elem_of_cons in Hl as [Hb Hl]. cbn.
  rewrite (proj2 (Z.eqb_neq b 37)) by done. by rewrite IH.
Qed.

Lemma unescape_nil mode l : unescape mode l = Some [] -> l = [].
Proof.
  destruct l as [|c l]; [done|]. cbn. intros H. exfalso.
  destruct (c =? 37)%Z.
  - destruct l as [|a [|b l]]; [done..|]. destruct (escape_ok mode a b); [|done].
    by destruct (unescape mode l).
  - destruct ((c <? 128)%Z && negb (host_byte c)); destruct mode; done || by destruct (unescape _ l).
Qed.

Lemma str_nil l : str l = ""%string <-> l = [].
Proof. unfold str. destruct l; cbn; split; done. Qed.

(** The text of a URL with an authority. *)
Record url_text (l scheme authority path query : list Z) : Prop := {
  text_eq : l = scheme ++ [58; 47; 47]%Z ++ authority ++ path ++ query;
  authority_free : (47%Z ∉ authority) /\ (63%Z ∉ authority);
  path_slash : (path = [] \/ head path = Some 47%Z) /\ (63%Z ∉ path);
  query_mark : query = [] \/ head query = Some 63%Z;
}.

Lemma cut_query_spec l rest query :
  cut_query l = (rest, query) ->
  (63%Z ∉ rest) /\ exists q, l = rest ++ q /\ query = tail q /\ (q = [] \/ head q = Some 63%Z).
Proof.
  unfold cut_query. destruct (cut 63 l) as [before after] eqn:Hc. intros [= <- <-].
  apply cut_spec in Hc as [Hn Hl]. split; [done|]. destruct after as [after|].
  - exists (63%Z :: after). by auto.
  - exists []. rewrite app_nil_r. by auto.
Qed.

Lemma starts_slash_spec l : starts_slash l = true -> l = 47%Z :: tail l.
Proof. unfold starts_slash. rewrite bool_decide_eq_true. destruct l; cbn; congruence. Qed.

(** What a parsed URL with a scheme and a host looks like. *)
Lemma parse_shape `{IPLiterals} l scheme host user query :
  parse l = Some (scheme, host, user, query) -> scheme <> [] -> host <> [] ->
  exists scheme' authority path q, url_text l scheme' authority path q /\
    scheme = lower scheme' /\ parseAuthority scheme authority = Some (user, host) /\
    query = tail q.
Proof.
  unfold parse. intros Hp Hs Hh. destruct (has_ctl l); [done|]. case_bool_decide; [by simplify_eq|].
  destruct (getScheme l) as [[scheme' rest]|] eqn:Hg; [|done]. cbn in Hp.
  destruct (cut_query rest) as [rest' query'] eqn:Hq. apply cut_query_spec in Hq as (Hfree & q & -> & -> & Hq).
  assert (Hno : forall x, x ≫= (fun _ : list Z => Some (lower scheme', @nil Z, false, tail q)) = Some (scheme, host, user, query) -> False).
  { intros [x|] Hx; cbn in Hx; congruence. }
  destruct (starts_slash rest') eqn:H1; cbn [negb] in Hp.
  2: { case_bool_decide; [|cbn in Hp; congruence]. cbn in Hp. case_bool_decide; [done|]. by apply Hno in Hp. }
  destruct (starts_slash (tail rest')) eqn:H2; cbn [andb] in Hp; [|by apply Hno in Hp].
  apply starts_slash_spec in H1, H2. rewrite H2 in H1. rewrite H1 in Hp, Hfree. cbn [drop] in Hp.
  case_match; [|by apply Hno in Hp]. clear Hno.
  destruct (cut 47 _) as [authority path] eqn:Hc. apply cut_spec in Hc as [Ha Hpath].
  rewrite drop_0 in Hpath.
  destruct (parseAuthority (lower scheme') authority) as [[user' host']|] eqn:Hau; [|done]. cbn in Hp.
  destruct (unescape encodePath _); [|done]. cbn in Hp. simplify_eq.
  exists scheme', authority, (match path with Some p => 47%Z :: p | None => [] end), q.
  split_and!; [|done|done|done].
  assert (Hsch : l = scheme' ++ 58%Z :: rest' ++ q).
  { apply getScheme_spec; [done|]. by intros ->. }
  assert (Hr : tail (tail rest') = authority ++ match path with Some p => 47%Z :: p | None => [] end).
  { destruct path; rewrite Hpath; [done|by rewrite app_nil_r]. }
  rewrite Hr in Hfree. rewrite !not_elem_of_cons, not_elem_of_app in Hfree.
  split.
  - rewrite Hsch, H1, Hr. cbn. by rewrite <- app_assoc.
  - by destruct Hfree as (_ & _ & ? & _).
  - split; [destruct path; by auto|]. by destruct Hfree as (_ & _ & _ & ?).
  - done.
Qed.

Lemma parseAuthority_nouser `{IPLiterals} scheme authority host :
  parseAuthority scheme authority = Some (false, host) -> (64%Z ∉ authority) /\ parseHost scheme authority = Some host.
Proof.
  unfold parseAuthority. destruct (cut_last 64 authority) as [[userinfo rest]|] eqn:Hc.
  - destruct (parseHost scheme rest); [|done]. cbn. destruct (negb _); [done|]. destruct (cut 58 userinfo) as [u p].
    destruct (unescape _ u); [|done]. cbn. by destruct (match p with Some _ => _ | None => _ end).
  - intros Hp. apply cut_last_none in Hc. split; [done|]. destruct (parseHost scheme authority); [|done]. cbn in Hp. by simplify_eq.
Qed.

(** A URL of the usual form, [scheme://name:port/path], without escapes, is parsed into
    its parts. *)
Definition name_byte (b : Z) : Prop := unreserved b = true.
Definition port_text (port : list Z) : Prop :=
  port = [] \/ exists ds, port = 58%Z :: ds /\ Forall is_digit ds.
Definition path_text (path : list Z) : Prop :=
  path = [] \/ exists p, path = 47%Z :: p /\ Forall (fun b => unreserved b = true \/ b = 47%Z) p.

Lemma unreserved_range b :
  unreserved b = true -> host_byte b = true /\ (33 <= b < 127)%Z /\
  (b ∉ [35; 37; 42; 47; 58; 63; 64; 91]%Z).
Proof.
  unfold host_byte. intros Hb. rewrite Hb. split; [done|].
  unfold unreserved, alnum, is_letter, digit in Hb.
  rewrite !orb_true_iff, !andb_true_iff, bool_decide_eq_true, !Z.leb_le, !elem_of_cons, elem_of_nil in Hb.
  rewrite !not_elem_of_cons. split; [lia|]. split_and!; lia || apply not_elem_of_nil.
Qed.

Lemma digit_host b : is_digit b -> host_byte b = true /\ b <> 37%Z.
Proof.
  intros Hb. split; [|unfold is_digit in Hb; lia]. unfold host_byte, unreserved, alnum.
  by rewrite (proj2 (digit_spec b) Hb), !orb_true_r.
Qed.

Lemma parseHost_name `{IPLiterals} scheme name port :
  scheme ∉ bytes <$> ["postgres"; "postgresql"]%string -> Forall name_byte name -> port_text port ->
  parseHost scheme (name ++ port) = Some (name ++ port).
Proof.
  intros Hs Hn Hp. unfold parseHost.
  assert (Hfree : forall c, c ∈ [58; 91]%Z -> c ∉ name).
  { intros c Hc Hin. rewrite Forall_forall in Hn. apply Hn, unreserved_range in Hin as (_ & _ & Hin).
    rewrite !not_elem_of_cons in Hin. rewrite !elem_of_cons, elem_of_nil in Hc. naive_solver. }
  assert (Hport : Forall (fun b => host_byte b = true /\ b <> 37%Z) port /\ (91%Z ∉ port)).
  { destruct Hp as [->|(ds & -> & Hd)]; [split; [constructor|apply not_elem_of_nil]|]. split.
    - constructor; [done|]. eapply Forall_impl; [exact Hd|]. apply digit_host.
    - apply not_elem_of_cons. split; [done|]. intros Hin. rewrite Forall_forall in Hd. apply Hd in Hin.
      unfold is_digit in Hin. lia. }
  rewrite (proj2 (cut_last_none 91 _)) by (rewrite not_elem_of_app; split; [apply Hfree; set_solver|apply Hport]).
  rewrite bool_decide_eq_false_2 by done.
  assert (Hc : (match cut 58 (name ++ port) with (_, Some p) => 58%Z :: p | (_, None) => [] end) = port).
  { destruct Hp as [->|(ds & -> & _)]; [rewrite app_nil_r, cut_free by (apply Hfree; set_solver); done|].
    by rewrite cut_app by (apply Hfree; set_solver). }
  rewrite Hc. assert (Hv : validOptionalPort port = true).
  { destruct Hp as [->|(ds & -> & Hd)]; [done|]. cbn. apply forallb_forall. intros b Hb%list_elem_of_In.
    rewrite Forall_forall in Hd. by apply digit_spec, Hd. }
  rewrite Hv. cbn. apply unescape_plain. apply Forall_app. split; [|apply Hport].
  eapply Forall_impl; [exact Hn|]. intros b Hb. apply unreserved_range in Hb as (H1 & H2 & H3).
  split; [done|]. set_solver.
Qed.

(** The bytes of the parts after the scheme. *)
Lemma usual_bytes name port path c :
  Forall name_byte name -> port_text port -> path_text path -> c ∈ name ++ port ++ path ->
  (33 <= c < 127)%Z /\ (c ∉ [35; 37; 63; 64]%Z).
Proof.
  intros Hn Hp Hpath. rewrite !elem_of_app.
  assert (Hu : forall b, unreserved b = true -> (33 <= b < 127)%Z /\ (b ∉ [35; 37; 63; 64]%Z)).
  { intros b (_ & H1 & H2)%unreserved_range. split; [done|]. set_solver. }
  assert (Hl : forall b, (33 <= b < 127)%Z -> (47 <= b <= 58)%Z -> (33 <= b < 127)%Z /\ (b ∉ [35; 37; 63; 64]%Z)).
  { intros b H1 H2. split; [done|]. rewrite !not_elem_of_cons. split_and!; lia || apply not_elem_of_nil. }
  intros [Hc|[Hc|Hc]].
  - rewrite Forall_forall in Hn. by apply Hu, Hn.
  - destruct Hp as [->|(ds & -> & Hd)]; [by apply elem_of_nil in Hc|]. apply elem_of_cons in Hc as [->|Hc]; [apply Hl; lia|].
    rewrite Forall_forall in Hd. apply Hd in Hc. unfold is_digit in Hc. apply Hl; lia.
  - destruct Hpath as [->|(p & -> & Hd)]; [by apply elem_of_nil in Hc|]. apply elem_of_cons in Hc as [->|Hc]; [apply Hl; lia|].
    rewrite Forall_forall in Hd. apply Hd in Hc as [Hc| ->]; [by apply Hu|apply Hl; lia].
Qed.

Lemma cut_authority name port path :
  Forall name_byte name -> port_text port -> path_text path ->
  exists p, cut 47 (name ++ port ++ path) = (name ++ port, p) /\
    path = match p with Some p => 47%Z :: p | None => [] end.
Proof.
  intros Hn Hp Hpath. assert (Hfree : 47%Z ∉ name ++ port).
  { rewrite not_elem_of_app. split; intros Hin.
    - rewrite Forall_forall in Hn. apply Hn, unreserved_range in Hin as (_ & _ & Hin). set_solver.
    - destruct Hp as [->|(ds & -> & Hd)]; [by apply elem_of_nil in Hin|]. apply elem_of_cons in Hin as [|Hin]; [done|].
      rewrite Forall_forall in Hd. apply Hd in Hin. unfold is_digit in Hin. lia. }
  rewrite app_assoc. destruct Hpath as [->|(p & -> & _)].
  - exists None. rewrite app_nil_r, cut_free by done. done.
  - exists (Some p). by rewrite cut_app.
Qed.

Lemma url_Parse_usual `{IPLiterals} scheme name port path :
  scheme ∈ bytes <$> ["ws"; "wss"]%string -> Forall name_byte name -> name <> [] -> port_text port -> path_text path ->
  url_Parse (str (scheme ++ [58; 47; 47]%Z ++ name ++ port ++ path)) = Ok (mkURL (str scheme) (str (name ++ port)) false "" "").
Proof.
  intros Hs Hn Hne Hp Hpath.
  pose proof (fun c => usual_bytes name port path c Hn Hp Hpath) as Hrest.
  destruct (cut_authority name port path Hn Hp Hpath) as (p & Hcut & Hpp).
  set (rest := name ++ port ++ path) in *.
  assert (Hsc : scheme = [119; 115]%Z \/ scheme = [119; 115; 115]%Z).
  { apply elem_of_cons in Hs as [->|Hs]; [by left|]. apply elem_of_cons in Hs as [->|Hs]; [by right|by apply elem_of_nil in Hs]. }
  clear Hs. assert (Hall : forall c, c ∈ scheme ++ [58; 47; 47]%Z ++ rest -> (33 <= c < 127)%Z /\ (c ∉ [35; 37; 63; 64]%Z)).
  { intros c. rewrite !elem_of_app. intros [Hc|[Hc|Hc]]; [| |by apply Hrest].
    1,2: assert (H' : c ∈ [119; 115; 58; 47]%Z) by (destruct Hsc as [Hsc|Hsc]; rewrite ?Hsc in Hc; set_solver).
    1,2: clear -H'; rewrite !elem_of_cons, elem_of_nil in H'; rewrite !not_elem_of_cons;
      split_and!; lia || apply not_elem_of_nil. }
  unfold url_Parse. rewrite bytes_str by (apply Forall_forall; intros c Hc; apply Hall in Hc as [Hc _]; unfold is_byte; lia).
  rewrite cut_free by (intros Hc; apply Hall in Hc as [_ Hc]; set_solver).
  unfold parse. assert (Hctl : has_ctl (scheme ++ [58; 47; 47]%Z ++ rest) = false).
  { apply not_true_is_false. intros Hx. apply existsb_exists in Hx as (c & Hc%list_elem_of_In & Hx). apply Hall in Hc. lia. }
  rewrite Hctl, bool_decide_eq_false_2.
  2: { intros Heq. apply (f_equal length) in Heq. rewrite length_app in Heq. cbn in Heq. lia. }
  assert (Hg : getScheme (scheme ++ [58; 47; 47]%Z ++ rest) = Some (scheme, 47%Z :: 47%Z :: rest) /\
    lower scheme = scheme /\ scheme <> [] /\ (scheme ∉ bytes <$> ["postgres"; "postgresql"]%string)).
  { destruct Hsc as [-> | ->].
    all: split_and!; [reflexivity|reflexivity|done|]; apply (bool_decide_eq_false_1 _); vm_compute; reflexivity. }
  destruct Hg as (-> & Hlow & Hnil & Hpg). cbn [mbind option_bind].
  unfold cut_query. rewrite cut_free.
  2: { rewrite !not_elem_of_cons. split_and!; [done|done|]. intros Hc%Hrest. set_solver. }
  rewrite Hlow, (bool_decide_eq_false_2 (scheme = [])) by done. cbn [tail negb default andb].
  change (starts_slash (47%Z :: 47%Z :: rest)) with true. change (starts_slash (47%Z :: rest)) with true.
  cbn [negb andb drop]. rewrite drop_0, Hcut.
  unfold parseAuthority. rewrite (proj2 (cut_last_none 64 _)).
  2: { intros Hc. assert (Hc' : 64%Z ∈ rest) by (unfold rest; rewrite app_assoc; apply elem_of_app; by left).
       apply Hrest in Hc'. set_solver. }
  rewrite parseHost_name by done. cbn [mbind option_bind]. rewrite <- Hpp, unescape_path.
  2: { intros Hc. assert (Hc' : 37%Z ∈ rest) by (unfold rest; rewrite !elem_of_app; auto). apply Hrest in Hc'. set_solver. }
  done.
Qed.
