(* ===== verification/Message.v ===== *)
(** * Package message (internal/message/message.go)

    The danmaku passed between the gateway, the bus, the consumer and the rooms,
    and the validation every consumer applies to it. *)

From S2P Require Import Prelude.
From S2P Require Import Utf8.
From S2P Require Import GoStrings.
From S2P Require Import GoTime.
From S2P Require Import Json.

Definition ErrEmptyMessageID : sentinel := mkSentinel "message" "ErrEmptyMessageID".
Definition ErrEmptyRoomID : sentinel := mkSentinel "message" "ErrEmptyRoomID".
Definition ErrEmptyUserID : sentinel := mkSentinel "message" "ErrEmptyUserID".
Definition ErrEmptyContent : sentinel := mkSentinel "message" "ErrEmptyContent".
Definition ErrEmptyCreatedAt : sentinel := mkSentinel "message" "ErrEmptyCreatedAt".

(** [Sequence] is a uint64. *)
Record Danmaku := mkDanmaku {
  MessageID : string;
  RoomID : string;
  UserID : string;
  Content : string;
  Sequence : Z;
  CreatedAt : time;
}.

#[export] Instance Danmaku_eq_dec : EqDecision Danmaku.
Proof. solve_decision. Defined.

Definition Validate (d : Danmaku) : option error :=
  if is_blank (MessageID d) then Some (Sentinel ErrEmptyMessageID)
  else if is_blank (RoomID d) then Some (Sentinel ErrEmptyRoomID)
  else if is_blank (UserID d) then Some (Sentinel ErrEmptyUserID)
  else if is_blank (Content d) then Some (Sentinel ErrEmptyContent)
  else if IsZero (CreatedAt d) then Some (Sentinel ErrEmptyCreatedAt)
  else None.

(** ** JSON: json.Marshal and json.Unmarshal with the struct's tags *)

Definition danmaku_names : list string :=
  ["message_id"; "room_id"; "user_id"; "content"; "sequence"; "created_at"].

(** [zone] is the offset of the location of [CreatedAt]. *)
Definition MarshalDanmaku (zone : Z) (d : Danmaku) : result string :=
  raw ← MarshalTime zone (CreatedAt d);
  Ok (encode_struct
    [("message_id", encode_text (MessageID d)); ("room_id", encode_text (RoomID d));
     ("user_id", encode_text (UserID d)); ("content", encode_text (Content d));
     ("sequence", encode_uint64 (Sequence d)); ("created_at", encode_time raw)]%string).

Definition set_danmaku (name : string) (v : json) (d : Danmaku) : result Danmaku :=
  let '(mkDanmaku id room user text n at_time) := d in
  if bool_decide (name = "message_id"%string) then
    id ← decode_string v id; Ok (mkDanmaku id room user text n at_time)
  else if bool_decide (name = "room_id"%string) then
    room ← decode_string v room; Ok (mkDanmaku id room user text n at_time)
  else if bool_decide (name = "user_id"%string) then
    user ← decode_string v user; Ok (mkDanmaku id room user text n at_time)
  else if bool_decide (name = "content"%string) then
    text ← decode_string v text; Ok (mkDanmaku id room user text n at_time)
  else if bool_decide (name = "sequence"%string) then
    n ← decode_uint64 v n; Ok (mkDanmaku id room user text n at_time)
  else
    at_time ← decode_time v at_time; Ok (mkDanmaku id room user text n at_time).

Definition zero_danmaku : Danmaku := mkDanmaku "" "" "" "" 0 time_zero.
Definition UnmarshalDanmaku (text : string) : result Danmaku :=
  decode_struct danmaku_names set_danmaku zero_danmaku text.

(** ** Lemmas *)

(** What a valid message promises to the parts that handle it. *)
Definition well_formed (d : Danmaku) : Prop :=
  ~ blank_string (MessageID d) /\ ~ blank_string (RoomID d) /\ ~ blank_string (UserID d) /\
  ~ blank_string (Content d) /\ CreatedAt d <> time_zero.

Lemma Validate_well_formed d : Validate d = None <-> well_formed d.
Proof.
  unfold Validate, well_formed. rewrite <- !is_blank_false. unfold IsZero, time_zero.
  repeat case_match; split; try done; intros; naive_solver lia.
Qed.

(** The field a validation error names, in the order the fields are checked. *)
Definition field_errors (d : Danmaku) : list (bool * sentinel) :=
  [(is_blank (MessageID d), ErrEmptyMessageID); (is_blank (RoomID d), ErrEmptyRoomID);
   (is_blank (UserID d), ErrEmptyUserID); (is_blank (Content d), ErrEmptyContent);
   (IsZero (CreatedAt d), ErrEmptyCreatedAt)].

(** [Validate] accepts exactly the messages whose four text fields hold a
    non-space rune and whose creation time is set; on any other message it
    reports the first missing field in the order id, room, user, content, time,
    and never looks at the sequence number. *)
Theorem Validate_spec d :
  (Validate d = None <-> well_formed d) /\
  Validate d = (snd <$> List.find fst (field_errors d)) ≫= (fun s => Some (Sentinel s)) /\
  (forall n, Validate (mkDanmaku (MessageID d) (RoomID d) (UserID d) (Content d) n (CreatedAt d))
             = Validate d).
Proof.
  split_and!; [apply Validate_well_formed| |done].
  unfold Validate, field_errors. simpl. by repeat case_match.
Qed.

(** ** What a danmaku becomes on the wire *)

(** Every text field with its invalid bytes replaced. *)
Definition wire (d : Danmaku) : Danmaku :=
  mkDanmaku (ToValid (MessageID d)) (ToValid (RoomID d)) (ToValid (UserID d)) (ToValid (Content d))
    (Sequence d) (CreatedAt d).

Lemma wire_valid d :
  valid_utf8 (MessageID d) -> valid_utf8 (RoomID d) -> valid_utf8 (UserID d) -> valid_utf8 (Content d) ->
  wire d = d.
Proof. intros H1 H2 H3 H4. destruct d. unfold wire. cbn [MessageID RoomID UserID Content] in *. by rewrite !ToValid_id. Qed.

Lemma Validate_wire d : Validate (wire d) = Validate d.
Proof. unfold Validate, wire. cbn [MessageID RoomID UserID Content CreatedAt]. by rewrite !ToValid_blank. Qed.

Lemma Unmarshal_Marshal zone d text :
  zone_ok zone -> (0 <= Sequence d < 2 ^ 64)%Z -> MarshalDanmaku zone d = Ok text ->
  UnmarshalDanmaku text = Ok (wire d).
Proof.
  intros Hz Hs. unfold MarshalDanmaku. destruct (MarshalTime zone (CreatedAt d)) as [raw|] eqn:Ht; [|done].
  intros [= <-]. pose proof (UnmarshalTime_Marshal zone _ _ Hz Ht) as Hu.
  apply MarshalTime_ok in Ht as [-> _]. unfold UnmarshalDanmaku.
  rewrite (decode_encode_struct _ _ _ _
    [JString (quote 0 (bytes (MessageID d))); JString (quote 0 (bytes (RoomID d)));
     JString (quote 0 (bytes (UserID d))); JString (quote 0 (bytes (Content d)));
     JNumber (encode_uint64 (Sequence d)); JString (format_rfc3339 zone (CreatedAt d))]).
  - cbn [zip zip_with fmap list_fmap set_all fst]. unfold set_danmaku, zero_danmaku.
    rewrite !decode_string_text.
    repeat (cbn [set_danmaku mbind result_bind zero_danmaku]; rewrite ?bool_decide_eq_true_2, ?bool_decide_eq_false_2 by done;
      rewrite ?decode_string_text, ?decode_uint64_Itoa by done).
    cbn [decode_time]. rewrite Hu. done.
  - repeat first [apply Forall2_nil_2 | apply Forall2_cons_2]; cbn [snd]; try apply reads_text;
      [apply reads_uint64; lia|apply reads_time, format_rfc3339_plain].
  - done.
  - repeat first [apply Forall_nil_2 | apply Forall_cons_2]; reflexivity.
Qed.

#[global] Arguments UnmarshalDanmaku : simpl never.
#[global] Arguments MarshalDanmaku : simpl never.
