(* ===== verification/GoChan.v ===== *)
(** * Go channels and select

    A buffered channel is its capacity, its queue (head first) and whether it is
    closed.  A blocked operation is [None]; a send on a closed channel and a
    second close panic, as in the language.

    A [select] statement offers a list of cases; the ready ones are the [Some]
    entries and the runtime picks any of them.  [select] returns the list of the
    possible results (the empty list: the statement blocks); [select_default]
    adds the default clause, taken exactly when no case is ready. *)

From S2P Require Import Prelude.

Record chan (A : Type) := mkChan { cap : nat; buf : list A; closed : bool }.
Arguments mkChan {A} cap buf closed.
Arguments cap {A} c.
Arguments buf {A} c.
Arguments closed {A} c.

#[export] Instance chan_eq_dec `{EqDecision A} : EqDecision (chan A).
Proof. solve_decision. Defined.

Section chan.
Context {A : Type}.
Implicit Types (c : chan A) (x : A).

Definition make_chan (n : nat) : chan A := mkChan n [] false.

(** One case [c <- x] of a select: [None] when it is not ready. *)
Definition send (c : chan A) (x : A) : option (outcome (chan A)) :=
  if closed c then Some (Panics "send on closed channel")
  else if bool_decide (length (buf c) < cap c)
  then Some (Returns (mkChan (cap c) (buf c ++ [x]) false))
  else None.

(** One case [x, ok := <-c] of a select: a closed drained channel yields
    [None] as its value ([ok = false]). *)
Definition recv (c : chan A) : option (option A * chan A) :=
  match buf c with
  | x :: rest => Some (Some x, mkChan (cap c) rest (closed c))
  | [] => if closed c then Some (None, c) else None
  end.

Definition close (c : chan A) : outcome (chan A) :=
  if closed c then Panics "close of closed channel"
  else Returns (mkChan (cap c) (buf c) true).

(** The select statement. *)
Definition select {B} (cases : list (option B)) : list B := omap id cases.
Definition select_default {B} (cases : list (option B)) (default : B) : list B :=
  match select cases with [] => [default] | rs => rs end.

Definition full (c : chan A) : bool := bool_decide (cap c <= length (buf c)).

Definition chan_ok (c : chan A) : Prop := length (buf c) <= cap c.

(** ** Lemmas *)

Lemma send_open c x :
  closed c = false ->
  send c x = (if full c then None else Some (Returns (mkChan (cap c) (buf c ++ [x]) false))).
Proof.
  intros Ho. unfold send, full. rewrite Ho. repeat case_bool_decide; try done; lia.
Qed.

Lemma send_ok c c' x : chan_ok c -> send c x = Some (Returns c') -> chan_ok c'.
Proof.
  unfold chan_ok, send. intros Hc Hs. destruct (closed c); [done|].
  case_bool_decide; simplify_eq/=. rewrite length_app. simpl. lia.
Qed.

Lemma recv_ok c c' v : chan_ok c -> recv c = Some (v, c') -> chan_ok c'.
Proof.
  unfold chan_ok, recv. intros Hc H. destruct (buf c) eqn:E; [destruct (closed c)|];
    simplify_eq/=; rewrite ?E; simpl; lia.
Qed.

Lemma make_chan_ok n : chan_ok (make_chan n).
Proof. unfold chan_ok. simpl. lia. Qed.
End chan.

Lemma elem_of_select {B} (cases : list (option B)) b : b ∈ select cases <-> Some b ∈ cases.
Proof.
  unfold select. rewrite list_elem_of_omap. unfold id. split.
  - by intros ([x|] & Hx & [= <-]).
  - intros Hb. eauto.
Qed.

Lemma elem_of_two {B} (x y z : B) : x ∈ [y; z] <-> x = y \/ x = z.
Proof. rewrite !elem_of_cons, elem_of_nil. tauto. Qed.

#[export] Hint Resolve @make_chan_ok @send_ok @recv_ok : danmu.
