(* ===== verification/Room.v ===== *)
(** * Rooms (internal/room/room.go)

    A [Room] is its table of clients and the last sequence number it assigned;
    the clients' message channels live in a [heap], because the goroutine that
    writes to the network keeps the channel after the room has forgotten the
    client.  Every method runs under the room's mutex, so each is one function
    on (room, heap).  The iteration order of [range r.clients] is chosen by the
    runtime: [Publish] takes it as the argument [order]. *)

From S2P Require Import Prelude.
From S2P Require Import Utf8.
From S2P Require Import GoStrings.
From S2P Require Import GoChan.

Module Room.

Definition ErrEmptyClientID : sentinel := mkSentinel "room" "ErrEmptyClientID".
Definition ErrClientAlreadyJoined : sentinel := mkSentinel "room" "ErrClientAlreadyJoined".
Definition ErrClientNotFound : sentinel := mkSentinel "room" "ErrClientNotFound".
Definition ErrEmptyContent : sentinel := mkSentinel "room" "ErrEmptyContent".
Definition ErrNoClient : sentinel := mkSentinel "room" "ErrNoClient".

(** [Sequence] is a uint64. *)
Record Message := mkMessage { Sequence : Z; Content : string }.

#[export] Instance Message_eq_dec : EqDecision Message.
Proof. solve_decision. Defined.

Record PublishResult := mkPublishResult { DroppedClients : nat }.

(** [Messages] is the address of the channel. *)
Abbreviation loc := nat (only parsing).
Record Client := mkClient { ID : string; Messages : loc }.

#[export] Instance Client_eq_dec : EqDecision Client.
Proof. solve_decision. Defined.

Record Room := mkRoom { clients : gmap string Client; sequence : Z }.

Record heap := mkHeap { chans : gmap loc (chan Message); next_chan : loc }.

Definition New : Room := mkRoom ∅ 0.

(** [make(chan Message, 1)] *)
Definition alloc_chan (h : heap) : loc * heap :=
  (next_chan h, mkHeap (<[next_chan h := make_chan 1]> (chans h)) (S (next_chan h))).

Definition Join (clientID : string) (r : Room) (h : heap) : result Client * Room * heap :=
  if is_blank clientID then (Err ErrEmptyClientID, r, h)
  else match clients r !! clientID with
  | Some _ => (Err ErrClientAlreadyJoined, r, h)
  | None =>
    let '(messages, h') := alloc_chan h in
    let client := mkClient clientID messages in
    (Ok client, mkRoom (<[clientID := client]> (clients r)) (sequence r), h')
  end.

(** Reading a channel variable of a client. *)
Definition chan_at (h : heap) (l : loc) : outcome (chan Message) :=
  match chans h !! l with Some c => Returns c | None => Panics "invalid memory address" end.

Definition set_chan (h : heap) (l : loc) (c : chan Message) : heap :=
  mkHeap (<[l := c]> (chans h)) (next_chan h).

Definition Leave (clientID : string) (r : Room) (h : heap)
  : outcome (option error * Room * heap) :=
  match clients r !! clientID with
  | None => Returns (Some (Sentinel ErrClientNotFound), r, h)
  | Some client =>
    let r' := mkRoom (delete clientID (clients r)) (sequence r) in
    c ← chan_at h (Messages client);
    c' ← close c;
    Returns (None, r', set_chan h (Messages client) c')
  end.

(** The loop of [Publish]: one non-blocking send per client; the default clause
    of the select counts the client as dropped. *)
Fixpoint broadcast (message : Message) (order : list Client) (h : heap) (dropped : nat)
  : outcome (heap * nat) :=
  match order with
  | [] => Returns (h, dropped)
  | client :: rest =>
    c ← chan_at h (Messages client);
    match send c message with
    | Some sent => c' ← sent; broadcast message rest (set_chan h (Messages client) c') dropped
    | None => broadcast message rest h (S dropped)
    end
  end.

Definition Publish (order : list Client) (content : string) (r : Room) (h : heap)
  : outcome (result PublishResult * Room * heap) :=
  if is_blank content then Returns (Err ErrEmptyContent, r, h)
  else if bool_decide (size (clients r) = 0) then Returns (Err ErrNoClient, r, h)
  else
    let r' := mkRoom (clients r) (wrap_u64 (sequence r + 1)) in
    let message := mkMessage (sequence r') content in
    '(h', dropped) ← broadcast message order h 0;
    Returns (Ok (mkPublishResult dropped), r', h').

(** The orders in which the runtime may visit the clients. *)
Definition range_order (r : Room) (order : list Client) : Prop :=
  order ≡ₚ (map_to_list (clients r)).*2.

(** A receive from a channel, as the connection's write goroutine does it;
    [None]: the receive blocks. *)
Definition Receive (l : loc) (h : heap) : option (option Message * heap) :=
  c ← chans h !! l;
  '(v, c') ← recv c;
  Some (v, set_chan h l c').

(** ** The room invariant *)

(** A member's channel is allocated, open, of capacity one, and not overfull. *)
Definition member_ok (h : heap) (k : string) (c : Client) : Prop :=
  ID c = k /\ ~ blank_string k /\
  exists ch, chans h !! Messages c = Some ch /\ closed ch = false /\ cap ch = 1 /\ chan_ok ch.

Record room_inv (r : Room) (h : heap) : Prop := {
  inv_members : map_Forall (member_ok h) (clients r);
  inv_distinct : forall k1 k2 c1 c2, clients r !! k1 = Some c1 -> clients r !! k2 = Some c2 ->
    Messages c1 = Messages c2 -> k1 = k2;
  inv_alloc : forall l, is_Some (chans h !! l) -> l < next_chan h;
  inv_sequence : (0 <= sequence r < 2 ^ 64)%Z;
}.

(** What a broadcast does to one channel. *)
Definition push (m : Message) (c : chan Message) : chan Message :=
  if full c then c else mkChan (cap c) (buf c ++ [m]) (closed c).
Definition is_full (h : heap) (c : Client) : bool :=
  match chans h !! Messages c with Some ch => full ch | None => false end.

(** ** Runs of a room

    The calls of a room's clients, in any interleaving.  Two histories that the
    code does not keep are carried along: the messages published so far, and
    the messages each channel has delivered to its reader. *)
Record sys := mkSys {
  s_room : Room;
  s_heap : heap;
  s_log : list Message;
  s_got : gmap loc (list Message);
}.

Definition sys_init : sys := mkSys New (mkHeap ∅ 0) [] ∅.

Definition got (s : sys) (l : loc) : list Message := default [] (s_got s !! l).

(** What the reader of channel [l] has received, and what waits for it. *)
Definition stream (s : sys) (l : loc) : list Message :=
  got s l ++ match chans (s_heap s) !! l with Some ch => buf ch | None => [] end.

Definition logged (res : result PublishResult) (r' : Room) (content : string) : list Message :=
  match res with Ok _ => [mkMessage (sequence r') content] | Err _ => [] end.

Inductive step (s : sys) : sys -> Prop :=
  | step_join id res r' h' :
      Join id (s_room s) (s_heap s) = (res, r', h') ->
      step s (mkSys r' h' (s_log s) (s_got s))
  | step_leave id res r' h' :
      Leave id (s_room s) (s_heap s) = Returns (res, r', h') ->
      step s (mkSys r' h' (s_log s) (s_got s))
  | step_publish order content res r' h' :
      range_order (s_room s) order ->
      Publish order content (s_room s) (s_heap s) = Returns (res, r', h') ->
      step s (mkSys r' h' (s_log s ++ logged res r' content) (s_got s))
  | step_receive l v h' :
      Receive l (s_heap s) = Some (v, h') ->
      step s (mkSys (s_room s) h' (s_log s)
                (<[l := got s l ++ option_list v]> (s_got s))).

Inductive reachable : sys -> Prop :=
  | reachable_init : reachable sys_init
  | reachable_step s s' : reachable s -> step s s' -> reachable s'.

(** The invariant of a run: the room's own, the numbering of the log, and that
    every channel carries a part of the log, in order. *)
Record sys_inv (s : sys) : Prop := {
  sys_room : room_inv (s_room s) (s_heap s);
  sys_seq : sequence (s_room s) = wrap_u64 (Z.of_nat (length (s_log s)));
  sys_log : forall i m, s_log s !! i = Some m -> Sequence m = wrap_u64 (Z.of_nat (S i));
  sys_stream : forall l, sublist (stream s l) (s_log s);
  sys_fresh : forall l, next_chan (s_heap s) <= l -> stream s l = [];
}.

(** ** Lemmas *)

#[local] Arguments send : simpl never.
#[local] Arguments wrap_u64 : simpl never.

Lemma lookup_set_chan h l l' c :
  chans (set_chan h l c) !! l' = if decide (l = l') then Some c else chans h !! l'.
Proof. apply lookup_insert. Qed.

Lemma broadcast_spec m order h d :
  NoDup (Messages <$> order) ->
  Forall (fun c => exists ch, chans h !! Messages c = Some ch /\ closed ch = false) order ->
  exists h', broadcast m order h d = Returns (h', d + count_if (is_full h) order) /\
    next_chan h' = next_chan h /\
    forall l, chans h' !! l =
      if decide (l ∈ Messages <$> order) then push m <$> chans h !! l else chans h !! l.
Proof.
  revert h d. induction order as [|c order IH]; intros h d Hnd Hopen.
  { exists h. split_and!; [by rewrite Nat.add_0_r|done|]. intros l. by rewrite decide_False by set_solver. }
  rewrite fmap_cons, NoDup_cons in Hnd. destruct Hnd as [Hc Hnd].
  apply Forall_cons in Hopen as [(ch & Hch & Ho) Hopen].
  cbn [broadcast]. unfold chan_at. rewrite Hch. simpl. rewrite send_open by done.
  rewrite count_if_cons. unfold is_full at 1. rewrite Hch.
  destruct (full ch) eqn:Hf.
  - destruct (IH h (S d) Hnd Hopen) as (h' & -> & Hn & Hl). exists h'.
    split_and!; [do 2 f_equal; lia|done|]. intros l. rewrite Hl.
    destruct (decide (l = Messages c)) as [->|].
    + rewrite decide_False, decide_True, Hch by set_solver. simpl. unfold push. by rewrite Hf.
    + by repeat case_decide; set_solver.
  - simpl. set (ch' := mkChan _ _ _). set (h1 := set_chan _ _ _).
    assert (forall l, l <> Messages c -> chans h1 !! l = chans h !! l) as Hother.
    { intros l Hl. unfold h1. rewrite lookup_set_chan. by rewrite decide_False. }
    destruct (IH h1 d Hnd) as (h' & -> & Hn & Hl).
    { rewrite Forall_forall in Hopen |- *. intros c' Hc'. rewrite Hother; [by apply Hopen|].
      intros He. apply Hc. rewrite <- He. by apply list_elem_of_fmap_2. }
    exists h'. split_and!; [|done|].
    + do 3 f_equal. apply count_if_ext. intros c' Hc'. unfold is_full. rewrite Hother; [done|].
      intros He. apply Hc. rewrite <- He. by apply list_elem_of_fmap_2.
    + intros l. rewrite Hl. destruct (decide (l = Messages c)) as [->|].
      * rewrite decide_False, decide_True, Hch by set_solver.
        unfold h1. rewrite lookup_set_chan, decide_True by done. simpl.
        unfold push. by rewrite Hf, Ho.
      * rewrite Hother by done. by repeat case_decide; set_solver.
Qed.

(** The addresses of the members' channels. *)
Definition member_loc (r : Room) (l : loc) : Prop :=
  exists k c, clients r !! k = Some c /\ Messages c = l.

Section invariant.
Context {r : Room} {h : heap} (Hinv : room_inv r h).

Lemma inv_member k c :
  clients r !! k = Some c ->
  ID c = k /\ ~ blank_string k /\
  exists ch, chans h !! Messages c = Some ch /\ closed ch = false /\ cap ch = 1 /\ chan_ok ch.
Proof. intros Hk. exact (inv_members _ _ Hinv k c Hk). Qed.

Lemma member_loc_alloc l : member_loc r l -> l < next_chan h.
Proof.
  intros (k & c & Hk & <-). apply (inv_alloc _ _ Hinv).
  destruct (inv_member k c Hk) as (_ & _ & ch & -> & _). eauto.
Qed.

Lemma range_order_locs order l :
  range_order r order -> l ∈ Messages <$> order <-> member_loc r l.
Proof.
  unfold range_order. intros ->. rewrite list_elem_of_fmap. split.
  - intros (c & -> & Hc). apply list_elem_of_fmap in Hc as ([k c'] & -> & Hc).
    apply elem_of_map_to_list in Hc. by exists k, c'.
  - intros (k & c & Hk & <-). exists c. split; [done|].
    apply list_elem_of_fmap. exists (k, c). split; [done|]. by apply elem_of_map_to_list.
Qed.

Lemma range_order_member order c :
  range_order r order -> c ∈ order <-> exists k, clients r !! k = Some c.
Proof.
  unfold range_order. intros ->. rewrite list_elem_of_fmap. split.
  - intros ([k c'] & -> & Hc). apply elem_of_map_to_list in Hc. eauto.
  - intros (k & Hk). exists (k, c). split; [done|]. by apply elem_of_map_to_list.
Qed.

Lemma range_order_open order :
  range_order r order ->
  Forall (fun c => exists ch, chans h !! Messages c = Some ch /\ closed ch = false) order.
Proof.
  intros Ho. apply Forall_forall. intros c (k & Hk)%(range_order_member _ _ Ho).
  destruct (inv_member k c Hk) as (_ & _ & ch & ? & ? & _). eauto.
Qed.

Lemma range_order_NoDup order : range_order r order -> NoDup (Messages <$> order).
Proof.
  unfold range_order. intros ->. rewrite <- list_fmap_compose.
  apply NoDup_fmap_2_strong; [|apply NoDup_map_to_list].
  intros [k1 c1] [k2 c2] H1%elem_of_map_to_list H2%elem_of_map_to_list Heq. simpl in Heq.
  pose proof (inv_distinct _ _ Hinv _ _ _ _ H1 H2 Heq) as ->. by simplify_map_eq.
Qed.

(** The heap after a message has been offered to every member. *)
Lemma broadcast_members m order :
  range_order r order ->
  exists h', broadcast m order h 0
               = Returns (h', count_if (is_full h) (map_to_list (clients r)).*2) /\
    next_chan h' = next_chan h /\
    (forall l, member_loc r l -> chans h' !! l = push m <$> chans h !! l) /\
    (forall l, ~ member_loc r l -> chans h' !! l = chans h !! l).
Proof.
  intros Ho.
  destruct (broadcast_spec m order h 0 (range_order_NoDup _ Ho) (range_order_open _ Ho))
    as (h' & He & Hn & Hl).
  exists h'. rewrite He, (count_if_perm _ _ _ Ho). split_and!; [done..| |].
  - intros l Hm. rewrite Hl, decide_True; [done|]. by apply range_order_locs.
  - intros l Hm. rewrite Hl, decide_False; [done|]. by rewrite range_order_locs.
Qed.
End invariant.

Lemma push_ok m c : chan_ok c -> chan_ok (push m c).
Proof.
  unfold push, full, chan_ok. case_bool_decide; [done|]. simpl. rewrite length_app. simpl. lia.
Qed.

Lemma push_cap m c : cap (push m c) = cap c /\ closed (push m c) = closed c.
Proof. unfold push. by case_match. Qed.

(** A heap whose member channels keep their capacity and stay open keeps the
    invariant: what Publish and Receive need. *)
Lemma inv_heap r h h' n :
  room_inv r h -> (0 <= n < 2 ^ 64)%Z -> next_chan h' = next_chan h ->
  (forall l ch, chans h !! l = Some ch -> exists ch', chans h' !! l = Some ch' /\
     closed ch' = closed ch /\ cap ch' = cap ch /\ (chan_ok ch -> chan_ok ch')) ->
  (forall l, chans h !! l = None -> chans h' !! l = None) ->
  room_inv (mkRoom (clients r) n) h'.
Proof.
  intros Hinv Hn Hnext Hs Hnone. constructor; simpl.
  - intros k c Hk. destruct (inv_member Hinv k c Hk) as (Hid & Hb & ch & Hch & Ho & Hc & Hok).
    destruct (Hs _ _ Hch) as (ch' & ? & Ho' & Hc' & ?).
    split_and!; [done..|]. exists ch'. rewrite Ho', Hc'. auto.
  - apply (inv_distinct _ _ Hinv).
  - intros l [ch' Hl]. rewrite Hnext. apply (inv_alloc _ _ Hinv).
    destruct (chans h !! l) eqn:E; [eauto|]. by rewrite (Hnone l E) in Hl.
  - done.
Qed.

Lemma Join_inv id r h res r' h' :
  room_inv r h -> Join id r h = (res, r', h') -> room_inv r' h'.
Proof.
  unfold Join, alloc_chan. intros Hinv HJ. destruct (is_blank id) eqn:Hb; [by simplify_eq|].
  destruct (clients r !! id) eqn:Hid; simplify_eq; [done|].
  assert (forall l ch, chans h !! l = Some ch -> l <> next_chan h) as Hfresh.
  { intros l ch Hl ->. pose proof (inv_alloc _ _ Hinv _ (mk_is_Some _ _ Hl)). lia. }
  constructor; simpl.
  - intros k c [[-> <-]|[Hne Hk]]%lookup_insert_Some.
    + split_and!; [done|by apply is_blank_false|]. exists (make_chan 1). simpl.
      rewrite lookup_insert_eq. auto with danmu.
    + destruct (inv_member Hinv k c Hk) as (Hid' & Hb' & ch & Hch & ?).
      split_and!; [done..|]. exists ch. simpl. rewrite lookup_insert_ne; [auto|].
      apply not_eq_sym. by eapply Hfresh.
  - assert (forall k c, clients r !! k = Some c -> Messages c <> next_chan h) as Hm.
    { intros k c Hk He. pose proof (member_loc_alloc Hinv (Messages c)) as Hlt.
      specialize (Hlt ltac:(by exists k, c)). lia. }
    intros k1 k2 c1 c2 [[<- <-]|[? H1]]%lookup_insert_Some [[<- <-]|[? H2]]%lookup_insert_Some He;
      simpl in He; [done| | |by eapply (inv_distinct _ _ Hinv)].
    + by destruct (Hm _ _ H2).
    + by destruct (Hm _ _ H1).
  - intros l [ch [[<- _]|[_ Hl]]%lookup_insert_Some]; [lia|].
    pose proof (inv_alloc _ _ Hinv l ltac:(eauto)). lia.
  - apply (inv_sequence _ _ Hinv).
Qed.

Lemma set_chan_keeps h l ch ch' (P : chan Message -> chan Message -> Prop) :
  chans h !! l = Some ch -> P ch ch' -> (forall c, P c c) ->
  forall l0 c0, chans h !! l0 = Some c0 ->
    exists c1, chans (set_chan h l ch') !! l0 = Some c1 /\ P c0 c1.
Proof.
  intros Hl HP Hr l0 c0 H0. rewrite lookup_set_chan. case_decide as E; [|eauto].
  subst. rewrite Hl in H0. simplify_eq. eauto.
Qed.

Lemma Publish_cases order content r h :
  room_inv r h -> range_order r order ->
  (is_blank content = true /\ Publish order content r h = Returns (Err ErrEmptyContent, r, h)) \/
  (is_blank content = false /\ clients r = ∅ /\
     Publish order content r h = Returns (Err ErrNoClient, r, h)) \/
  (is_blank content = false /\ clients r <> ∅ /\ exists h',
     Publish order content r h
       = Returns (Ok (mkPublishResult (count_if (is_full h) (map_to_list (clients r)).*2)),
                  mkRoom (clients r) (wrap_u64 (sequence r + 1)), h') /\
     next_chan h' = next_chan h /\
     (forall l, member_loc r l ->
        chans h' !! l = push (mkMessage (wrap_u64 (sequence r + 1)) content) <$> chans h !! l) /\
     (forall l, ~ member_loc r l -> chans h' !! l = chans h !! l)).
Proof.
  intros Hinv Ho. unfold Publish. destruct (is_blank content); [by left|right].
  case_bool_decide as Hsz; [left; by apply map_size_empty_iff in Hsz|right].
  split_and!; [done|by rewrite <- map_size_empty_iff|]. simpl.
  destruct (broadcast_members Hinv (mkMessage (wrap_u64 (sequence r + 1)) content) order Ho)
    as (h' & -> & Hn & Hm & Hnm).
  exists h'. by split_and!.
Qed.

Lemma member_loc_dec r l : member_loc r l \/ ~ member_loc r l.
Proof.
  destruct (decide (l ∈ (Messages <$> (map_to_list (clients r)).*2))) as [Hl|Hl];
    rewrite (range_order_locs _ l (reflexivity _)) in Hl; auto.
Qed.

Lemma Publish_inv order content r h res r' h' :
  room_inv r h -> range_order r order ->
  Publish order content r h = Returns (res, r', h') -> room_inv r' h'.
Proof.
  intros Hinv Ho HP.
  destruct (Publish_cases order content r h Hinv Ho)
    as [[_ He]|[(_ & _ & He)|(_ & _ & h1 & He & Hn & Hm & Hnm)]];
    rewrite He in HP; simplify_eq; [done..|].
  eapply inv_heap; [done|apply wrap_u64_range|done| |].
  - intros l ch Hl. destruct (member_loc_dec r l) as [Hml|Hml].
    + rewrite (Hm l Hml), Hl. simpl. eexists. split; [done|].
      destruct (push_cap (mkMessage (wrap_u64 (sequence r + 1)) content) ch). auto using push_ok.
    + rewrite (Hnm l Hml). eauto.
  - intros l Hl. destruct (member_loc_dec r l) as [Hml|Hml].
    + by rewrite (Hm l Hml), Hl.
    + by rewrite (Hnm l Hml).
Qed.

Lemma Receive_inv r h l v h' :
  room_inv r h -> Receive l h = Some (v, h') -> room_inv r h'.
Proof.
  unfold Receive. intros Hinv HR. destruct (chans h !! l) as [ch|] eqn:Hl; [|done].
  simpl in HR. destruct (recv ch) as [[v' ch']|] eqn:Hr; simplify_eq/=.
  replace r with (mkRoom (clients r) (sequence r)) by (by destruct r).
  eapply inv_heap; [done|apply (inv_sequence _ _ Hinv)|done|..].
  - intros l0 c0 H0. eapply (set_chan_keeps _ _ _ _ (fun c0 ch1 =>
      closed ch1 = closed c0 /\ cap ch1 = cap c0 /\ (chan_ok c0 -> chan_ok ch1))); eauto.
    split_and!; [..|intros; by eapply recv_ok]; unfold recv in Hr;
      repeat case_match; by simplify_eq/=.
  - intros l0 H0. rewrite lookup_set_chan. case_decide; [congruence|done].
Qed.

Lemma Leave_cases id r h :
  room_inv r h ->
  (clients r !! id = None /\ Leave id r h = Returns (Some (Sentinel ErrClientNotFound), r, h)) \/
  (exists c ch, clients r !! id = Some c /\ chans h !! Messages c = Some ch /\
     Leave id r h = Returns (None, mkRoom (delete id (clients r)) (sequence r),
                             set_chan h (Messages c) (mkChan (cap ch) (buf ch) true))).
Proof.
  intros Hinv. unfold Leave. destruct (clients r !! id) as [c|] eqn:Hid; [right|by left].
  destruct (inv_member Hinv id c Hid) as (_ & _ & ch & Hch & Ho & _).
  exists c, ch. unfold chan_at, close. rewrite Hch. simpl. by rewrite Ho.
Qed.

Lemma Leave_inv id r h res r' h' :
  room_inv r h -> Leave id r h = Returns (res, r', h') -> room_inv r' h'.
Proof.
  intros Hinv HL. destruct (Leave_cases id r h Hinv) as [[_ He]|(c & ch & Hid & Hch & He)];
    rewrite He in HL; simplify_eq; [done|]. constructor; simpl.
  - intros k c' [Hne Hk]%lookup_delete_Some.
    destruct (inv_member Hinv k c' Hk) as (? & ? & ch' & Hch' & ?).
    split_and!; [done..|]. exists ch'. rewrite lookup_set_chan, decide_False; [done|].
    intros He'. by destruct Hne; eapply (inv_distinct _ _ Hinv).
  - intros k1 k2 c1 c2 [_ H1]%lookup_delete_Some [_ H2]%lookup_delete_Some.
    by eapply (inv_distinct _ _ Hinv).
  - intros l [ch' [[<- _]|[_ Hl]]%lookup_insert_Some]; apply (inv_alloc _ _ Hinv); eauto.
  - apply (inv_sequence _ _ Hinv).
Qed.

(** ** Runs *)

Lemma stream_same s r' h' log :
  (forall l, (buf <$> chans h' !! l) = (buf <$> chans (s_heap s) !! l)) ->
  forall l, stream (mkSys r' h' log (s_got s)) l = stream s l.
Proof.
  intros Hb l. unfold stream, got. simpl. f_equal. specialize (Hb l).
  by destruct (chans h' !! l), (chans (s_heap s) !! l); simplify_eq/=.
Qed.

Lemma wrap_u64_succ n : wrap_u64 (wrap_u64 (Z.of_nat n) + 1) = wrap_u64 (Z.of_nat (S n)).
Proof. unfold wrap_u64. rewrite Zplus_mod_idemp_l. f_equal. lia. Qed.

Lemma sys_init_inv : sys_inv sys_init.
Proof.
  constructor; simpl; [constructor; simpl; try done|done..| |].
  - by intros l [? H].
  - intros l. constructor.
  - done.
Qed.

Lemma step_join_inv s id res r' h' :
  sys_inv s -> Join id (s_room s) (s_heap s) = (res, r', h') ->
  sys_inv (mkSys r' h' (s_log s) (s_got s)).
Proof.
  intros Hs HJ. pose proof (Join_inv _ _ _ _ _ _ (sys_room _ Hs) HJ) as Hr.
  destruct Hs as [Hroom Hseq Hlog Hstr Hfr].
  assert (sequence r' = sequence (s_room s) /\ next_chan (s_heap s) <= next_chan h' /\
          forall l, stream (mkSys r' h' (s_log s) (s_got s)) l = stream s l) as (Hq & Hn & Hst).
  { unfold Join, alloc_chan in HJ.
    destruct (is_blank id); [by simplify_eq|]. destruct (clients (s_room s) !! id); [by simplify_eq|].
    simplify_eq/=. split_and!; [done|lia|]. intros l.
    destruct (decide (l = next_chan (s_heap s))) as [->|Hne].
    - rewrite Hfr by done. specialize (Hfr (next_chan (s_heap s)) ltac:(lia)).
      unfold stream, got in *. simpl. rewrite lookup_insert_eq.
      apply app_eq_nil in Hfr as [-> _]. done.
    - unfold stream, got. simpl. by rewrite lookup_insert_ne. }
  constructor; simpl; [done|congruence|done| |].
  - intros l. by rewrite Hst.
  - intros l Hl. rewrite Hst. apply Hfr. lia.
Qed.

Lemma step_leave_inv s id res r' h' :
  sys_inv s -> Leave id (s_room s) (s_heap s) = Returns (res, r', h') ->
  sys_inv (mkSys r' h' (s_log s) (s_got s)).
Proof.
  intros Hs HL. pose proof (Leave_inv _ _ _ _ _ _ (sys_room _ Hs) HL) as Hr.
  destruct Hs as [Hroom Hseq Hlog Hstr Hfr].
  assert (sequence r' = sequence (s_room s) /\ next_chan h' = next_chan (s_heap s) /\
          forall l, stream (mkSys r' h' (s_log s) (s_got s)) l = stream s l) as (Hq & Hn & Hst).
  { destruct (Leave_cases id _ _ Hroom) as [[_ He]|(c & ch & Hid & Hch & He)];
      rewrite He in HL; simplify_eq; [done|]. split_and!; [done..|].
    apply stream_same. intros l. rewrite lookup_set_chan.
    case_decide; [subst; by rewrite Hch|done]. }
  constructor; simpl; [done|congruence|done| |].
  - intros l. by rewrite Hst.
  - intros l Hl. rewrite Hst. apply Hfr. lia.
Qed.

Lemma push_buf m ch : buf (push m ch) = buf ch \/ buf (push m ch) = buf ch ++ [m].
Proof. unfold push. case_match; auto. Qed.

Lemma step_publish_inv s order content res r' h' :
  sys_inv s -> range_order (s_room s) order ->
  Publish order content (s_room s) (s_heap s) = Returns (res, r', h') ->
  sys_inv (mkSys r' h' (s_log s ++ logged res r' content) (s_got s)).
Proof.
  intros Hs Ho HP. pose proof (Publish_inv _ _ _ _ _ _ _ (sys_room _ Hs) Ho HP) as Hr.
  destruct Hs as [Hroom Hseq Hlog Hstr Hfr].
  destruct (Publish_cases order content _ _ Hroom Ho)
    as [[_ He]|[(_ & _ & He)|(_ & _ & h1 & He & Hn & Hm & Hnm)]];
    rewrite He in HP; simplify_eq; simpl; rewrite ?app_nil_r; [by constructor..|].
  rewrite Hseq, wrap_u64_succ in *. set (m := mkMessage _ content) in *.
  constructor; simpl; [done| | | |].
  - rewrite length_app. simpl. by rewrite Nat.add_1_r.
  - intros i m' [Hi|[Hi Hm']]%lookup_app_Some; [by apply Hlog|].
    apply list_lookup_singleton_Some in Hm' as [Hi0 <-]. simpl. do 2 f_equal. lia.
  - intros l. specialize (Hstr l). unfold stream, got in *. simpl.
    destruct (member_loc_dec (s_room s) l) as [Hml|Hml].
    + rewrite (Hm l Hml). destruct (chans (s_heap s) !! l) as [ch|]; simpl;
        [|by apply sublist_inserts_r].
      destruct (push_buf m ch) as [->| ->]; [by apply sublist_inserts_r|].
      rewrite app_assoc. by apply sublist_app.
    + rewrite (Hnm l Hml). by apply sublist_inserts_r.
  - intros l Hl. rewrite Hn in Hl. rewrite <- (Hfr l Hl). unfold stream, got. simpl.
    rewrite Hnm; [done|]. intros Hml%(member_loc_alloc Hroom). lia.
Qed.

Lemma step_receive_inv s l v h' :
  sys_inv s -> Receive l (s_heap s) = Some (v, h') ->
  sys_inv (mkSys (s_room s) h' (s_log s) (<[l := got s l ++ option_list v]> (s_got s))).
Proof.
  intros Hs HR. pose proof (Receive_inv _ _ _ _ _ (sys_room _ Hs) HR) as Hr.
  destruct Hs as [Hroom Hseq Hlog Hstr Hfr].
  assert (next_chan h' = next_chan (s_heap s) /\ forall l0, stream (mkSys (s_room s) h' (s_log s)
    (<[l := got s l ++ option_list v]> (s_got s))) l0 = stream s l0) as [Hn Hst].
  { unfold Receive in HR. destruct (chans (s_heap s) !! l) as [ch|] eqn:Hl; [|done].
    simpl in HR. destruct (recv ch) as [[v' ch']|] eqn:Hrv; simplify_eq/=.
    split; [done|]. intros l0. unfold stream, got at 1. simpl.
    destruct (decide (l = l0)) as [<-|Hne].
    - rewrite !lookup_insert_eq, Hl. simpl. rewrite <- app_assoc. f_equal.
      unfold recv in Hrv. destruct (buf ch) eqn:Hb; [destruct (closed ch)|]; simplify_eq/=;
        by rewrite ?Hb.
    - by rewrite !lookup_insert_ne. }
  constructor; simpl; [done..| |].
  - intros l0. by rewrite Hst.
  - intros l0 Hl0. rewrite Hst. apply Hfr. lia.
Qed.

Lemma reachable_inv s : reachable s -> sys_inv s.
Proof.
  induction 1 as [|s s' _ IH Hstep]; [apply sys_init_inv|]. destruct Hstep.
  - by eapply step_join_inv.
  - by eapply step_leave_inv.
  - by eapply step_publish_inv.
  - by eapply step_receive_inv.
Qed.

(** The messages of a list carry strictly increasing sequence numbers. *)
Definition increasing (l : list Message) : Prop :=
  StronglySorted (fun m1 m2 => Sequence m1 < Sequence m2)%Z l.

Lemma sublist_increasing l1 l2 : sublist l1 l2 -> increasing l2 -> increasing l1.
Proof.
  unfold increasing. induction 1 as [|x l1 l2 Hsub IH|x l1 l2 Hsub IH]; intros Hs.
  - constructor.
  - inversion_clear Hs. constructor; [auto|].
    rewrite Forall_forall in *. eauto using elem_of_sublist.
  - inversion_clear Hs. auto.
Qed.

Lemma numbered_increasing l n :
  (forall i m, l !! i = Some m -> Sequence m = Z.of_nat (n + i)) -> increasing l.
Proof.
  unfold increasing. revert n. induction l as [|m l IH]; intros n Hl; constructor.
  - apply (IH (S n)). intros i m' Hi. rewrite (Hl (S i) m' Hi). lia.
  - apply Forall_lookup. intros i m' Hi. rewrite (Hl 0 m eq_refl), (Hl (S i) m' Hi). lia.
Qed.

Lemma reachable_numbering s :
  reachable s -> (Z.of_nat (length (s_log s)) < 2 ^ 64)%Z ->
  forall i m, s_log s !! i = Some m -> Sequence m = Z.of_nat (S i).
Proof.
  intros Hr%reachable_inv Hlen i m Hi. rewrite (sys_log _ Hr i m Hi).
  apply lookup_lt_Some in Hi. apply wrap_u64_small. lia.
Qed.

(** ** A concrete run: alice joins, "hello" is published, alice reads it,
    "again" is published. *)

Definition alice : Client := mkClient "alice" 0.
Definition demo_joined : sys :=
  let '(_, r, h) := Join "alice" New (mkHeap ∅ 0) in mkSys r h [] ∅.
Definition demo_hello : sys :=
  match Publish [alice] "hello" (s_room demo_joined) (s_heap demo_joined) with
  | Returns (res, r, h) => mkSys r h (logged res r "hello") ∅
  | Panics _ => demo_joined
  end.
Definition demo_read : sys :=
  match Receive 0 (s_heap demo_hello) with
  | Some (v, h) => mkSys (s_room demo_hello) h (s_log demo_hello) {[ 0 := option_list v ]}
  | None => demo_hello
  end.

Lemma demo_joined_reachable : reachable demo_joined.
Proof.
  apply (reachable_step sys_init); [apply reachable_init|].
  exact (step_join sys_init "alice" (Ok alice) (s_room demo_joined) (s_heap demo_joined) eq_refl).
Qed.

Lemma demo_order : range_order (s_room demo_joined) [alice].
Proof. unfold range_order. by vm_compute. Qed.

Lemma demo_hello_reachable : reachable demo_hello.
Proof.
  apply (reachable_step demo_joined); [apply demo_joined_reachable|].
  exact (step_publish demo_joined [alice] "hello" (Ok (mkPublishResult 0))
           (s_room demo_hello) (s_heap demo_hello) demo_order eq_refl).
Qed.

Lemma demo_read_reachable : reachable demo_read.
Proof.
  apply (reachable_step demo_hello); [apply demo_hello_reachable|].
  exact (step_receive demo_hello 0 (Some (mkMessage 1 "hello")) (s_heap demo_read) eq_refl).
Qed.

Lemma demo_joined_inv : room_inv (s_room demo_joined) (s_heap demo_joined).
Proof. apply sys_room, reachable_inv, demo_joined_reachable. Qed.

(** * Properties *)

(** C11: in every run of a room, whatever the interleaving of joins, leaves,
    publishes and reads, what a client's channel has delivered plus what it
    still holds is a subsequence of the messages published in the room, in
    publication order; while fewer than 2^64 messages were published they are
    numbered 1, 2, 3, ... and every client sees strictly increasing numbers. *)
Theorem delivery_in_publication_order s :
  reachable s ->
  (forall l, sublist (stream s l) (s_log s)) /\
  ((Z.of_nat (length (s_log s)) < 2 ^ 64)%Z ->
     (forall i m, s_log s !! i = Some m -> Sequence m = Z.of_nat (S i)) /\
     forall l, increasing (stream s l)).
Proof.
  intros Hr. pose proof (reachable_inv s Hr) as Hs. split; [apply (sys_stream _ Hs)|].
  intros Hlen. split; [by apply reachable_numbering|]. intros l.
  eapply sublist_increasing; [apply (sys_stream _ Hs)|].
  apply (numbered_increasing _ 1). intros i m Hi.
  by rewrite (reachable_numbering s Hr Hlen i m Hi).
Qed.

Lemma delivery_in_publication_order_witness :
  reachable demo_read /\ stream demo_read 0 = [mkMessage 1 "hello"] /\
  sublist (stream demo_read 0) (s_log demo_read) /\ increasing (stream demo_read 0).
Proof.
  split; [exact demo_read_reachable|]. split; [vm_compute; reflexivity|]. split.
  - apply (delivery_in_publication_order demo_read demo_read_reachable).
  - apply (delivery_in_publication_order demo_read demo_read_reachable). vm_compute. reflexivity.
Defined.

(** No method of a reachable room panics: [Leave] never closes a closed
    channel, [Publish] never sends on one, and both return for every argument
    and every iteration order; the room invariant holds afterwards. *)
Theorem room_methods_safe s :
  reachable s ->
  (forall id, exists res r' h',
     Leave id (s_room s) (s_heap s) = Returns (res, r', h') /\ room_inv r' h') /\
  (forall order content, range_order (s_room s) order -> exists res r' h',
     Publish order content (s_room s) (s_heap s) = Returns (res, r', h') /\ room_inv r' h').
Proof.
  intros Hr%reachable_inv%sys_room. split.
  - intros id. destruct (Leave_cases id _ _ Hr) as [[_ He]|(c & ch & _ & _ & He)];
      do 3 eexists; (split; [exact He|by eapply Leave_inv]).
  - intros order content Ho.
    destruct (Publish_cases order content _ _ Hr Ho)
      as [[_ He]|[(_ & _ & He)|(_ & _ & h1 & He & _)]];
      do 3 eexists; (split; [exact He|by eapply Publish_inv]).
Qed.

Lemma room_methods_safe_witness :
  reachable demo_joined /\ exists res r' h',
    Publish [alice] "hello" (s_room demo_joined) (s_heap demo_joined) = Returns (res, r', h') /\
    room_inv r' h'.
Proof.
  split; [exact demo_joined_reachable|].
  exact (proj2 (room_methods_safe demo_joined demo_joined_reachable) [alice] "hello"%string demo_order).
Defined.

(** A successful [Publish] numbers the message with the successor of the
    room's sequence (modulo 2^64), appends it to the channel of every member
    whose queue is not full, leaves the full ones and every other channel
    unchanged, and reports exactly the number of full ones as dropped. *)
Theorem Publish_broadcasts order content r h :
  room_inv r h -> range_order r order -> is_blank content = false -> clients r <> ∅ ->
  exists h',
    let m := mkMessage (wrap_u64 (sequence r + 1)) content in
    Publish order content r h
      = Returns (Ok (mkPublishResult (count_if (is_full h) (map_to_list (clients r)).*2)),
                 mkRoom (clients r) (Sequence m), h') /\
    (forall k c ch, clients r !! k = Some c -> chans h !! Messages c = Some ch ->
       chans h' !! Messages c =
         Some (if full ch then ch else mkChan (cap ch) (buf ch ++ [m]) (closed ch))) /\
    (forall l, ~ member_loc r l -> chans h' !! l = chans h !! l).
Proof.
  intros Hinv Ho Hb Hc.
  destruct (Publish_cases order content r h Hinv Ho)
    as [[? _]|[(_ & ? & _)|(_ & _ & h' & He & _ & Hm & Hnm)]]; [congruence|done|].
  exists h'. split_and!; [exact He| |exact Hnm]. intros k c ch Hk Hch.
  rewrite Hm, Hch by (by exists k, c). done.
Qed.

Lemma Publish_broadcasts_witness :
  exists h', Publish [alice] "hello" (s_room demo_joined) (s_heap demo_joined)
    = Returns (Ok (mkPublishResult 0), mkRoom (clients (s_room demo_joined)) 1, h') /\
    chans h' !! 0 = Some (mkChan 1 [mkMessage 1 "hello"] false).
Proof.
  destruct (Publish_broadcasts [alice] "hello" (s_room demo_joined) (s_heap demo_joined)
    demo_joined_inv demo_order) as (h' & He & Hm & _).
  - reflexivity.
  - intros H. apply (f_equal (fun m => m !! "alice"%string)) in H. vm_compute in H. discriminate H.
  - exists h'. split; [exact He|].
    exact (Hm "alice"%string alice (make_chan 1) eq_refl eq_refl).
Defined.

(** The result of [Publish] does not depend on the order in which the runtime
    iterates over the members: same report, same room, same channels. *)
Theorem Publish_order_irrelevant order1 order2 content r h :
  room_inv r h -> range_order r order1 -> range_order r order2 ->
  exists res r' h1 h2,
    Publish order1 content r h = Returns (res, r', h1) /\
    Publish order2 content r h = Returns (res, r', h2) /\
    next_chan h1 = next_chan h2 /\ chans h1 = chans h2.
Proof.
  intros Hinv H1 H2.
  destruct (Publish_cases order1 content r h Hinv H1)
    as [[? E1]|[(? & ? & E1)|(? & ? & h1 & E1 & Hn1 & Hm1 & Hnm1)]];
  destruct (Publish_cases order2 content r h Hinv H2)
    as [[? E2]|[(? & ? & E2)|(? & ? & h2 & E2 & Hn2 & Hm2 & Hnm2)]]; try congruence.
  1, 2: by do 4 eexists.
  do 4 eexists. split_and!; [exact E1|exact E2|congruence|].
  apply map_eq. intros l. destruct (member_loc_dec r l) as [Hl|Hl].
  - by rewrite Hm1, Hm2.
  - by rewrite Hnm1, Hnm2.
Qed.

Lemma Publish_order_irrelevant_witness :
  exists res r' h1 h2,
    Publish [alice] "hello" (s_room demo_joined) (s_heap demo_joined) = Returns (res, r', h1) /\
    Publish [alice] "hello" (s_room demo_joined) (s_heap demo_joined) = Returns (res, r', h2) /\
    next_chan h1 = next_chan h2 /\ chans h1 = chans h2.
Proof. exact (Publish_order_irrelevant _ _ "hello" _ _ demo_joined_inv demo_order demo_order). Defined.

(** After [Leave] the identifier is free, no broadcast reaches the departed
    client's channel any more, and its reader first drains what was queued and
    then sees the channel closed. *)
Theorem Leave_detaches id r h c ch :
  room_inv r h -> clients r !! id = Some c -> chans h !! Messages c = Some ch ->
  exists r' h',
    Leave id r h = Returns (None, r', h') /\ clients r' = delete id (clients r) /\
    ~ member_loc r' (Messages c) /\
    (forall v h'', Receive (Messages c) h' = Some (v, h'') ->
       v = head (buf ch) /\
       (buf ch <> [] -> exists h3, Receive (Messages c) h'' = Some (None, h3))) /\
    is_Some (Receive (Messages c) h').
Proof.
  intros Hinv Hid Hch.
  destruct (Leave_cases id r h Hinv) as [[? _]|(c0 & ch0 & Hid0 & Hch0 & He)]; simplify_eq.
  do 2 eexists. split_and!; [exact He|done| | |].
  - intros (k & c' & Hk & Hm). simpl in Hk. apply lookup_delete_Some in Hk as [Hne Hk].
    apply Hne. symmetry. by eapply (inv_distinct _ _ Hinv).
  - intros v h'' HR.
    destruct (inv_member Hinv id c Hid) as (_ & _ & ch' & Hch' & _ & Hcap & Hok). simplify_eq.
    unfold Receive in *. rewrite lookup_set_chan, decide_True in HR by done.
    unfold recv in HR. simpl in HR. unfold chan_ok in Hok.
    destruct (buf ch) as [|m [|]] eqn:Hb; simplify_eq/=; [done| |lia].
    split; [done|]. intros _. rewrite lookup_insert_eq. simpl. eauto.
  - unfold Receive. rewrite lookup_set_chan, decide_True by done. simpl.
    unfold recv. simpl. destruct (buf ch); simpl; eauto.
Qed.

Lemma Leave_detaches_witness :
  exists r' h', Leave "alice" (s_room demo_hello) (s_heap demo_hello) = Returns (None, r', h') /\
    clients r' = delete "alice"%string (clients (s_room demo_hello)) /\
    is_Some (Receive 0 h').
Proof.
  destruct (Leave_detaches "alice" (s_room demo_hello) (s_heap demo_hello) alice
    (mkChan 1 [mkMessage 1 "hello"] false)) as (r' & h' & He & Hd & _ & _ & Hs).
  - apply sys_room, reachable_inv, demo_hello_reachable.
  - reflexivity.
  - reflexivity.
  - exists r', h'. exact (conj He (conj Hd Hs)).
Defined.

(** [Join] refuses a blank identifier and an identifier already present,
    changing nothing, and otherwise enters the client under its identifier with
    a fresh, open, empty channel of capacity one; it never touches a channel
    already allocated. *)
Theorem Join_spec id r h :
  room_inv r h ->
  exists res r' h', Join id r h = (res, r', h') /\ room_inv r' h' /\
    sequence r' = sequence r /\
    (forall l, is_Some (chans h !! l) -> chans h' !! l = chans h !! l) /\
    ((blank_string id /\ res = Err ErrEmptyClientID /\ r' = r /\ h' = h) \/
     (~ blank_string id /\ is_Some (clients r !! id) /\
        res = Err ErrClientAlreadyJoined /\ r' = r /\ h' = h) \/
     (~ blank_string id /\ clients r !! id = None /\ exists l,
        res = Ok (mkClient id l) /\ chans h !! l = None /\ chans h' !! l = Some (make_chan 1) /\
        clients r' = <[id := mkClient id l]> (clients r))).
Proof.
  intros Hinv. destruct (Join id r h) as [[res r'] h'] eqn:HJ.
  exists res, r', h'. split; [done|]. split; [by eapply Join_inv|].
  unfold Join, alloc_chan in HJ. destruct (is_blank id) eqn:Hb.
  { simplify_eq. apply is_blank_spec in Hb. split_and!; [done..|]. left. done. }
  apply is_blank_false in Hb.
  destruct (clients r !! id) as [c|] eqn:Hid; simplify_eq/=.
  { split_and!; [done..|]. right; left. by split_and!. }
  assert (chans h !! next_chan h = None) as Hn.
  { destruct (chans h !! next_chan h) eqn:E; [|done].
    pose proof (inv_alloc _ _ Hinv _ (mk_is_Some _ _ E)). lia. }
  split_and!; [done| |].
  - intros l [ch Hl]. rewrite lookup_insert_ne; [done|]. intros <-. congruence.
  - right; right. split_and!; [done..|]. exists (next_chan h).
    split_and!; [done..| |done]. by rewrite lookup_insert_eq.
Qed.

Lemma Join_spec_witness :
  exists r' h', Join "alice" (s_room demo_joined) (s_heap demo_joined)
    = (Err ErrClientAlreadyJoined, r', h') /\ room_inv r' h'.
Proof.
  destruct (Join_spec "alice" (s_room demo_joined) (s_heap demo_joined) demo_joined_inv)
    as (res & r' & h' & HJ & Hi & _).
  exists r', h'. split; [|exact Hi]. rewrite HJ. vm_compute in HJ. injection HJ as <- _ _.
  reflexivity.
Defined.

End Room.
