(* ===== verification/RoomRegistry.v ===== *)
(** * The room registry (internal/room/registry.go)

    The registry's table maps trimmed room identifiers to room objects.  A room
    object is an address in the [store]; what it points to is the room together
    with the channels its clients use.  Methods of a room reached through the
    registry act on the store ([join_at], [leave_at], [publish_at]). *)

From S2P Require Import Prelude.
From S2P Require Import Utf8.
From S2P Require Import GoStrings.
From S2P Require Import GoChan.
From S2P Require Import Room.

Module Registry.

Definition ErrEmptyRoomID : sentinel := mkSentinel "room" "ErrEmptyRoomID".

Abbreviation ptr := nat (only parsing).

(** [rooms] is the registry's field; [store] the room objects of the process. *)
Record world := mkWorld {
  rooms : gmap string ptr;
  store : gmap ptr (Room.Room * Room.heap);
  next_room : ptr;
}.

Definition NewRegistry : world := mkWorld ∅ ∅ 0.

Definition GetOrCreate (roomID : string) (w : world) : result ptr * world :=
  let roomID := TrimSpace roomID in
  if bool_decide (roomID = ""%string) then (Err ErrEmptyRoomID, w)
  else match rooms w !! roomID with
  | Some existing => (Ok existing, w)
  | None =>
    let newRoom := next_room w in
    (Ok newRoom,
     mkWorld (<[roomID := newRoom]> (rooms w))
             (<[newRoom := (Room.New, Room.mkHeap ∅ 0)]> (store w)) (S newRoom))
  end.

(** Calling a method of the room at an address; a dangling address is a nil
    pointer dereference. *)
Definition at_room {A} (p : ptr) (f : Room.Room -> Room.heap -> outcome (A * Room.Room * Room.heap))
  (w : world) : outcome (A * world) :=
  match store w !! p with
  | None => Panics "invalid memory address"
  | Some (r, h) =>
    '(a, r', h') ← f r h;
    Returns (a, mkWorld (rooms w) (<[p := (r', h')]> (store w)) (next_room w))
  end.

Definition join_at (p : ptr) (id : string) : world -> outcome (result Room.Client * world) :=
  at_room p (fun r h => Returns (Room.Join id r h)).
Definition leave_at (p : ptr) (id : string) : world -> outcome (option error * world) :=
  at_room p (Room.Leave id).
Definition publish_at (p : ptr) (order : list Room.Client) (content : string)
  : world -> outcome (result Room.PublishResult * world) :=
  at_room p (Room.Publish order content).

(** ** Invariant *)

Record world_inv (w : world) : Prop := {
  inv_keys : forall k p, rooms w !! k = Some p ->
    TrimSpace k = k /\ k <> ""%string /\ is_Some (store w !! p);
  inv_inj : forall k1 k2 p, rooms w !! k1 = Some p -> rooms w !! k2 = Some p -> k1 = k2;
  inv_next : forall p, is_Some (store w !! p) -> p < next_room w;
  inv_rooms : forall p r h, store w !! p = Some (r, h) -> Room.room_inv r h;
}.

(** ** Lemmas *)

Lemma New_inv : Room.room_inv Room.New (Room.mkHeap ∅ 0).
Proof. apply (Room.sys_room _ Room.sys_init_inv). Qed.

Lemma NewRegistry_inv : world_inv NewRegistry.
Proof. constructor; simpl; try done. by intros p [? H]. Qed.

(** The three branches of [GetOrCreate]. *)
Lemma GetOrCreate_cases id w :
  (blank_string id /\ GetOrCreate id w = (Err ErrEmptyRoomID, w)) \/
  (~ blank_string id /\ exists p, rooms w !! TrimSpace id = Some p /\
     GetOrCreate id w = (Ok p, w)) \/
  (~ blank_string id /\ rooms w !! TrimSpace id = None /\
     GetOrCreate id w
     = (Ok (next_room w),
        mkWorld (<[TrimSpace id := next_room w]> (rooms w))
                (<[next_room w := (Room.New, Room.mkHeap ∅ 0)]> (store w)) (S (next_room w)))).
Proof.
  unfold GetOrCreate. rewrite <- TrimSpace_blank. case_bool_decide; [by left|right].
  destruct (rooms w !! TrimSpace id) as [p|] eqn:E; [left|right]; eauto.
Qed.

Lemma GetOrCreate_inv id w res w' :
  world_inv w -> GetOrCreate id w = (res, w') -> world_inv w'.
Proof.
  intros Hw HG. destruct (GetOrCreate_cases id w) as [[_ He]|[(_ & p & _ & He)|(Hb & Hn & He)]];
    rewrite He in HG; simplify_eq; [done..|].
  assert (store w !! next_room w = None) as Hfresh.
  { destruct (store w !! next_room w) eqn:E; [|done].
    pose proof (inv_next _ Hw _ (mk_is_Some _ _ E)). lia. }
  constructor; simpl.
  - intros k p [[<- <-]|[_ Hk]]%lookup_insert_Some.
    + rewrite TrimSpace_idemp, TrimSpace_blank, lookup_insert_eq. eauto.
    + destruct (inv_keys _ Hw k p Hk) as (? & ? & Hs). split_and!; [done..|].
      apply lookup_insert_is_Some'. auto.
  - assert (forall k, rooms w !! k <> Some (next_room w)) as Hno.
    { intros k Hk. destruct (inv_keys _ Hw k _ Hk) as (_ & _ & [x Hx]).
      by rewrite Hfresh in Hx. }
    intros k1 k2 p H1 H2. apply lookup_insert_Some in H1 as [[<- <-]|[_ H1]];
      apply lookup_insert_Some in H2 as [[? ?]|[_ H2]]; subst;
      [done|by destruct (Hno k2)|by destruct (Hno k1)|by eapply inv_inj].
  - intros p Hp. apply lookup_insert_is_Some' in Hp as [<-|Hp]; [lia|].
    pose proof (inv_next _ Hw p Hp). lia.
  - intros p r h [[<- [= <- <-]]|[_ Hp]]%lookup_insert_Some; [apply New_inv|by eapply inv_rooms].
Qed.

(** Replacing what a room object holds keeps the invariant of the world. *)
Lemma store_update_inv w p r h r' h' :
  world_inv w -> store w !! p = Some (r, h) -> Room.room_inv r' h' ->
  world_inv (mkWorld (rooms w) (<[p := (r', h')]> (store w)) (next_room w)).
Proof.
  intros Hw Hp Hr. constructor; simpl.
  - intros k q Hk. destruct (inv_keys _ Hw k q Hk) as (? & ? & ?). split_and!; [done..|].
    apply lookup_insert_is_Some'. auto.
  - apply (inv_inj _ Hw).
  - intros q Hq. apply lookup_insert_is_Some' in Hq as [<-|Hq]; apply (inv_next _ Hw); eauto.
  - intros q r0 h0 [[<- [= <- <-]]|[_ Hq]]%lookup_insert_Some; [done|]. by eapply (inv_rooms _ Hw).
Qed.

(** A method that keeps its room's invariant keeps the invariant of the world
    and touches no other room. *)
Lemma at_room_spec {A} p (f : Room.Room -> Room.heap -> outcome (A * Room.Room * Room.heap)) w a w' :
  (forall r h a r' h', Room.room_inv r h -> f r h = Returns (a, r', h') -> Room.room_inv r' h') ->
  world_inv w -> at_room p f w = Returns (a, w') ->
  world_inv w' /\ rooms w' = rooms w /\ next_room w' = next_room w /\
  exists r h r' h', store w !! p = Some (r, h) /\ f r h = Returns (a, r', h') /\
    store w' = <[p := (r', h')]> (store w).
Proof.
  intros Hf Hw Ha. unfold at_room in Ha.
  destruct (store w !! p) as [[r h]|] eqn:Hp; [|done].
  destruct (f r h) as [[[a0 r'] h']|] eqn:Hfr; simplify_eq/=.
  split_and!; [|done|done|by do 4 eexists].
  eapply store_update_inv; [done|done|]. eapply Hf; [|done]. by eapply (inv_rooms _ Hw).
Qed.

Lemma join_at_inv p id w res w' :
  world_inv w -> join_at p id w = Returns (res, w') -> world_inv w'.
Proof.
  intros Hw HJ. eapply at_room_spec in HJ; [apply HJ| |done].
  intros r h a r' h' Hr [= He]. by eapply Room.Join_inv.
Qed.

Lemma leave_at_inv p id w res w' :
  world_inv w -> leave_at p id w = Returns (res, w') -> world_inv w'.
Proof.
  intros Hw HL. eapply at_room_spec in HL; [apply HL| |done].
  intros r h a r' h' Hr He. by eapply Room.Leave_inv.
Qed.

(** * Properties *)

(** On a registry whose invariant holds, [GetOrCreate] fails exactly on a
    blank identifier; otherwise it returns a live room, asking again for the
    same identifier up to surrounding space returns the same room and changes
    nothing, identifiers that differ after trimming get different rooms, and no
    existing room is replaced or modified. *)
Theorem GetOrCreate_spec id w :
  world_inv w ->
  exists res w', GetOrCreate id w = (res, w') /\ world_inv w' /\
    (forall q x, store w !! q = Some x -> store w' !! q = Some x) /\
    ((blank_string id /\ res = Err ErrEmptyRoomID /\ w' = w) \/
     (~ blank_string id /\ exists p, res = Ok p /\ is_Some (store w' !! p) /\
        forall id' , ~ blank_string id' ->
          (TrimSpace id' = TrimSpace id -> GetOrCreate id' w' = (Ok p, w')) /\
          (TrimSpace id' <> TrimSpace id -> fst (GetOrCreate id' w') <> Ok p))).
Proof.
  intros Hw. destruct (GetOrCreate id w) as [res w'] eqn:HG.
  pose proof (GetOrCreate_inv id w res w' Hw HG) as Hw'.
  exists res, w'. split_and!; [done|done| |].
  - intros q x Hq.
    destruct (GetOrCreate_cases id w) as [[_ He]|[(_ & p & _ & He)|(_ & _ & He)]];
      rewrite He in HG; simplify_eq; [done..|]. simpl.
    rewrite lookup_insert_ne; [done|]. pose proof (inv_next _ Hw q ltac:(eauto)). lia.
  - assert (blank_string id /\ res = Err ErrEmptyRoomID /\ w' = w \/
            ~ blank_string id /\ exists p, res = Ok p /\ rooms w' !! TrimSpace id = Some p)
      as [?|(Hb & p & -> & Hp)]; [|by left|right].
    { destruct (GetOrCreate_cases id w) as [[Hb He]|[(Hb & p & Hp & He)|(Hb & _ & He)]];
        rewrite He in HG; simplify_eq; [by left|right; eauto..].
      split; [done|]. eexists. split; [done|]. apply lookup_insert_eq. }
    split; [done|]. exists p. split_and!; [done|by eapply inv_keys|].
    intros id' Hb'. destruct (GetOrCreate_cases id' w') as [[? _]|[(_ & p' & Hp' & ->)|(_ & Hn & ->)]];
      [done|..]; (split; [intros Heq|intros Hne]); simpl.
    + rewrite Heq in Hp'. by simplify_eq.
    + intros [= ->]. by destruct Hne; eapply (inv_inj _ Hw').
    + by rewrite Heq, Hp in Hn.
    + intros [= <-]. destruct (inv_keys _ Hw' _ _ Hp) as (_ & _ & Hs).
      pose proof (inv_next _ Hw' _ Hs). lia.
Qed.

Lemma GetOrCreate_spec_witness :
  exists w', GetOrCreate " lobby " NewRegistry = (Ok 0, w') /\ world_inv w' /\
    GetOrCreate "lobby" w' = (Ok 0, w').
Proof.
  destruct (GetOrCreate_spec " lobby " NewRegistry NewRegistry_inv)
    as (res & w' & HG & Hw' & _ & [(_ & -> & _)|(_ & p & -> & _ & Hsame)]).
  - vm_compute in HG. discriminate HG.
  - assert (p = 0) as -> by (vm_compute in HG; congruence).
    exists w'. split; [exact HG|]. split; [exact Hw'|].
    apply Hsame; [|vm_compute; reflexivity].
    intros Hb. apply is_blank_spec in Hb. vm_compute in Hb. discriminate Hb.
Defined.

End Registry.
