(* ===== verification/Sensitive.v ===== *)
(** * The sensitive-word filter (internal/sensitive/filter.go)

    The filter is a list of normalised words; matching normalises the content
    and looks for the first word that occurs in it.  The case mapping of runes
    above ASCII comes from the Unicode tables ([CaseTable]). *)

From S2P Require Import Prelude.
From S2P Require Import Utf8.
From S2P Require Import GoStrings.

Module Sensitive.

Record Filter := mkFilter { words : list string }.

Definition normalize `{CaseTable} (value : string) : string := ToLower (TrimSpace value).

(** The loop of [New]. *)
Fixpoint clean `{CaseTable} (words : list string) (cleaned : list string) : list string :=
  match words with
  | [] => cleaned
  | word :: rest =>
    let word := normalize word in
    if bool_decide (word = ""%string) then clean rest cleaned
    else clean rest (cleaned ++ [word])
  end.
Definition New `{CaseTable} (words : list string) : Filter := mkFilter (clean words []).

(** The loop of [Match] over the words. *)
Fixpoint match_words (content : string) (words : list string) : string * bool :=
  match words with
  | [] => (""%string, false)
  | word :: rest => if Contains content word then (word, true) else match_words content rest
  end.
Definition Match `{CaseTable} (f : Filter) (content : string) : string * bool :=
  match_words (normalize content) (words f).

(** ** Lemmas *)

Lemma clean_app `{CaseTable} ws acc :
  clean ws acc = acc ++ filter (fun w => w <> ""%string) (normalize <$> ws).
Proof.
  revert acc. induction ws as [|w ws IH]; intros acc; simpl; [by rewrite app_nil_r|].
  case_bool_decide as Hw; rewrite IH.
  - rewrite Hw. by rewrite filter_cons_False by auto.
  - rewrite filter_cons_True by done. by rewrite <- app_assoc.
Qed.

Lemma words_New `{CaseTable} ws w :
  w ∈ words (New ws) <-> w <> ""%string /\ exists raw, raw ∈ ws /\ w = normalize raw.
Proof.
  unfold New. simpl. rewrite clean_app, app_nil_l, list_elem_of_filter, list_elem_of_fmap. naive_solver.
Qed.

Lemma match_words_spec content ws :
  match match_words content ws with
  | (w, true) => exists before after, ws = before ++ w :: after /\ Contains content w = true /\
                   Forall (fun v => Contains content v = false) before
  | (w, false) => w = ""%string /\ Forall (fun v => Contains content v = false) ws
  end.
Proof.
  induction ws as [|w ws IH]; simpl; [by split|].
  destruct (Contains content w) eqn:Hc.
  - exists [], ws. auto.
  - destruct (match_words content ws) as [v [|]].
    + destruct IH as (before & after & -> & Hv & Hb). exists (w :: before), after. auto.
    + destruct IH as [-> Hb]. auto.
Qed.

(** ** Texts given by their runes

    [text rs] is the string whose code points are [rs]. *)
Definition text (rs : list Z) : string := str (rs ≫= EncodeRune).

Lemma bytes_text rs : Forall valid_rune rs -> bytes (text rs) = (rs ≫= enc_arith).
Proof.
  intros Hv. unfold text. rewrite bind_EncodeRune by done.
  apply bytes_str. by apply bind_enc_bytes.
Qed.

Lemma text_app rs1 rs2 :
  Forall valid_rune rs1 -> Forall valid_rune rs2 -> text (rs1 ++ rs2) = text rs1 +:+ text rs2.
Proof.
  intros H1 H2. apply bytes_inj.
  rewrite bytes_app, !bytes_text, bind_app by (try apply Forall_app; done). done.
Qed.

Lemma starts_space_enc r l : valid_rune r -> starts_space (enc_arith r ++ l) -> IsSpace r = true.
Proof.
  intros Hv (r' & rest & Hs & He). destruct (IsSpace_valid r' Hs) as [Hv' _].
  pose proof (decode_complete r l Hv) as H1. pose proof (decode_complete r' rest Hv') as H2.
  rewrite He in H1. congruence.
Qed.

Lemma ends_space_enc r l : valid_rune r -> ends_space (l ++ enc_arith r) -> IsSpace r = true.
Proof.
  intros Hv (r' & rest & Hs & He). destruct (IsSpace_valid r' Hs) as [Hv' _].
  pose proof (decode_last_complete r l Hv) as H1.
  pose proof (decode_last_complete r' rest Hv') as H2.
  rewrite He in H1. congruence.
Qed.

(** Trimming a text drops the space runes at its borders. *)
Fixpoint drop_spaces (rs : list Z) : list Z :=
  match rs with
  | [] => []
  | r :: rs' => if IsSpace r then drop_spaces rs' else rs
  end.

Lemma enc_cons r rs : ((r :: rs) ≫= enc_arith) = enc_arith r ++ (rs ≫= enc_arith).
Proof. done. Qed.

Lemma drop_spaces_valid rs : Forall valid_rune rs -> Forall valid_rune (drop_spaces rs).
Proof. induction 1; simpl; [done|]. case_match; [done|by constructor]. Qed.

Lemma trim_left_go_enc n rs :
  Forall valid_rune rs -> length (rs ≫= enc_arith) <= n ->
  trim_left_go n (rs ≫= enc_arith) = (drop_spaces rs ≫= enc_arith).
Proof.
  intros Hv. revert n. induction Hv as [|r rs Hr Hv IH]; intros n Hn; [by destruct n|].
  rewrite enc_cons in *. rewrite length_app in Hn. pose proof (enc_arith_pos r).
  destruct n as [|n]; [lia|]. cbn [drop_spaces]. destruct (IsSpace r) eqn:Hs.
  - rewrite (trim_left_go_step n _ r _ Hs eq_refl). apply IH. lia.
  - rewrite enc_cons. apply trim_left_go_stop.
    + apply Forall_app. split; [by apply enc_arith_bytes|by apply bind_enc_bytes].
    + intros Hst%starts_space_enc; [congruence|done].
Qed.

Lemma trim_right_go_enc n rs :
  Forall valid_rune rs -> length (rev rs ≫= enc_arith) <= n ->
  trim_right_go n (rev (rev rs ≫= enc_arith)) = rev (rev (drop_spaces rs) ≫= enc_arith).
Proof.
  intros Hv. revert n. induction Hv as [|r rs Hr Hv IH]; intros n Hn; [by destruct n|].
  assert ((rev (r :: rs) ≫= enc_arith) = (rev rs ≫= enc_arith) ++ enc_arith r) as Hrev.
  { cbn [rev]. rewrite bind_app. f_equal. apply app_nil_r. }
  rewrite Hrev in *. rewrite length_app in Hn. pose proof (enc_arith_pos r).
  destruct n as [|n]; [lia|]. cbn [drop_spaces]. destruct (IsSpace r) eqn:Hs.
  - rewrite (trim_right_go_step n _ r _ Hs eq_refl). apply IH. lia.
  - rewrite Hrev. apply trim_right_go_stop.
    + apply Forall_app. split; [|by apply enc_arith_bytes]. by apply bind_enc_bytes, Forall_rev.
    + intros Hst%ends_space_enc; [congruence|done].
Qed.

Lemma TrimSpace_text rs :
  Forall valid_rune rs ->
  TrimSpace (text rs) = text (rev (drop_spaces (rev (drop_spaces rs)))).
Proof.
  intros Hv. pose proof (drop_spaces_valid rs Hv) as Hv1.
  pose proof (Forall_rev Hv1) as Hv2. pose proof (drop_spaces_valid _ Hv2) as Hv3.
  apply bytes_inj. rewrite bytes_TrimSpace, !bytes_text by (try apply Forall_rev; done).
  unfold trim_space, trim_left, trim_right. rewrite trim_left_go_enc by done.
  pose proof (trim_right_go_enc (length (drop_spaces rs ≫= enc_arith)) (rev (drop_spaces rs)) Hv2)
    as Ht.
  rewrite rev_involutive in Ht. rewrite Ht by done. apply rev_involutive.
Qed.

(** A word without border spaces survives trimming, wherever it stands. *)
Definition solid (rw : list Z) : Prop :=
  (exists r rw', rw = r :: rw' /\ IsSpace r = false) /\
  (exists r rw', rw = rw' ++ [r] /\ IsSpace r = false).

Lemma drop_spaces_before rs1 m r m' :
  m = r :: m' -> IsSpace r = false ->
  exists rs1', drop_spaces (rs1 ++ m) = rs1' ++ m /\ rs1' `suffix_of` rs1.
Proof.
  intros -> Hr. induction rs1 as [|r1 rs1 IH]; simpl.
  - exists []. by rewrite Hr.
  - destruct (IsSpace r1); [|by exists (r1 :: rs1)].
    destruct IH as (rs1' & -> & Hs). exists rs1'. split; [done|]. by apply suffix_cons_r.
Qed.

Lemma trim_around rs1 rw rs2 :
  solid rw ->
  exists rs1' rs2', rev (drop_spaces (rev (drop_spaces (rs1 ++ rw ++ rs2)))) = rs1' ++ rw ++ rs2' /\
    rs1' `suffix_of` rs1 /\ rev rs2' `suffix_of` rev rs2.
Proof.
  intros [(r & rw1 & H1 & Hr) (r' & rw2 & H2 & Hr')].
  destruct (drop_spaces_before rs1 (rw ++ rs2) r (rw1 ++ rs2)) as (rs1' & -> & Hs1); [by rewrite H1|done|].
  rewrite rev_app_distr, rev_app_distr, <- app_assoc.
  destruct (drop_spaces_before (rev rs2) (rev rw ++ rev rs1') r' (rev rw2 ++ rev rs1'))
    as (rs2' & -> & Hs2); [by rewrite H2, rev_app_distr|done|].
  exists rs1', (rev rs2'). split_and!; [|done|by rewrite rev_involutive].
  by rewrite !rev_app_distr, !rev_involutive, app_assoc.
Qed.

(** ** Lower-casing a text *)

(** What the Unicode case table promises: code points map to code points. *)
Class CaseLaws `{CaseTable} := {
  lower_table_valid : forall r, valid_rune r -> valid_rune (lower_table r);
}.

Section lower.
Context `{CaseLaws}.

Lemma unicode_ToLower_valid r : valid_rune r -> valid_rune (unicode_ToLower r).
Proof.
  intros Hv. unfold unicode_ToLower. case_match; [|by apply lower_table_valid].
  unfold valid_rune in *. case_match; lia.
Qed.

Lemma lower_valid rs : Forall valid_rune rs -> Forall valid_rune (unicode_ToLower <$> rs).
Proof.
  intros Hrs. apply Forall_fmap. eapply Forall_impl; [done|]. apply unicode_ToLower_valid.
Qed.

Lemma ToLower_text rs :
  Forall valid_rune rs -> ToLower (text rs) = text (unicode_ToLower <$> rs).
Proof.
  intros Hv. unfold ToLower, runes. rewrite bytes_text, runes_go_enc by done.
  unfold text. f_equal. induction Hv as [|r rs _ _ IH]; [done|]. cbn. f_equal. exact IH.
Qed.

Lemma normalize_around rs1 rw rs2 :
  Forall valid_rune rs1 -> Forall valid_rune rw -> Forall valid_rune rs2 -> solid rw ->
  exists before after, normalize (text (rs1 ++ rw ++ rs2))
    = before +:+ text (unicode_ToLower <$> rw) +:+ after.
Proof.
  intros H1 Hw H2 Hs. unfold normalize.
  rewrite TrimSpace_text by (by rewrite !Forall_app).
  destruct (trim_around rs1 rw rs2 Hs) as (rs1' & rs2' & -> & Hs1 & Hs2).
  assert (Forall valid_rune rs1') as H1' by (destruct Hs1 as [k ->]; by apply Forall_app in H1 as [_ ?]).
  assert (Forall valid_rune rs2') as H2'.
  { apply Forall_rev in H2. destruct Hs2 as [k Hk]. rewrite Hk in H2.
    apply Forall_app in H2 as [_ H2]. apply Forall_rev in H2. by rewrite rev_involutive in H2. }
  rewrite ToLower_text, !fmap_app by (by rewrite !Forall_app).
  rewrite !text_app by (rewrite ?Forall_app; auto using lower_valid). eauto.
Qed.

Lemma normalize_solid rw :
  Forall valid_rune rw -> solid rw -> normalize (text rw) = text (unicode_ToLower <$> rw).
Proof.
  intros Hw [(r & rw1 & H1 & Hr) (r' & rw2 & H2 & Hr')]. unfold normalize.
  rewrite TrimSpace_text by done.
  assert (drop_spaces rw = rw) as -> by (rewrite H1; simpl; by rewrite Hr).
  assert (drop_spaces (rev rw) = rev rw) as ->.
  { rewrite H2, rev_app_distr. simpl. by rewrite Hr'. }
  rewrite rev_involutive. by apply ToLower_text.
Qed.
End lower.

Lemma text_nonempty r rs : Forall valid_rune (r :: rs) -> text (r :: rs) <> ""%string.
Proof.
  intros Hv He. apply (f_equal bytes) in He. rewrite bytes_text, enc_cons in He by done.
  pose proof (enc_arith_pos r). apply (f_equal length) in He.
  rewrite length_app in He. simpl in He. lia.
Qed.

Lemma match_words_some content ws w :
  w ∈ ws -> Contains content w = true -> exists w', match_words content ws = (w', true) /\ w' ∈ ws.
Proof.
  intros Hw Hc. pose proof (match_words_spec content ws) as Hm.
  destruct (match_words content ws) as [w' [|]].
  - destruct Hm as (b & a & -> & _ & _). exists w'. split; [done|]. set_solver.
  - destruct Hm as [_ Hf]. rewrite Forall_forall in Hf. rewrite (Hf w Hw) in Hc. done.
Qed.

(** A case table for the examples: only ASCII letters have two cases. *)
Definition ascii_cases : CaseTable := {| lower_table := fun r => r |}.

Lemma ascii_cases_laws : @CaseLaws ascii_cases.
Proof. constructor. done. Qed.

Lemma solid_of r1 r2 rs :
  IsSpace r1 = false -> IsSpace r2 = false -> solid (r1 :: rs ++ [r2]).
Proof. intros H1 H2. split; [by exists r1, (rs ++ [r2])|by exists r2, (r1 :: rs)]. Qed.

Definition SCAM : list Z := [83; 67; 65; 77]%Z.
Definition scam : list Z := [115; 99; 97; 109]%Z.

(** * Properties *)

(** C37: no listed word can hide: when a listed word occurs anywhere in a text, in
    any mix of cases (the two have the same lower-case runes), the filter built
    from the list matches that text, whatever surrounds the word. *)
Theorem Match_complete `{CaseLaws} ws rw rw' rs1 rs2 :
  text rw ∈ ws -> Forall valid_rune rw -> solid rw -> Forall valid_rune rw' -> solid rw' ->
  unicode_ToLower <$> rw' = unicode_ToLower <$> rw ->
  Forall valid_rune rs1 -> Forall valid_rune rs2 ->
  exists w, Match (New ws) (text (rs1 ++ rw' ++ rs2)) = (w, true) /\ w ∈ words (New ws).
Proof.
  intros Hin Hw Hs Hw' Hs' Heq H1 H2.
  destruct (normalize_around rs1 rw' rs2 H1 Hw' H2 Hs') as (b & a & Hn).
  apply (match_words_some _ _ (normalize (text rw))).
  - apply words_New. split; [|eauto]. rewrite normalize_solid by done.
    destruct Hs as [(r & rw1 & -> & _) _]. apply text_nonempty.
    by apply (lower_valid (r :: rw1)).
  - apply Contains_spec. exists b, a. rewrite Hn, normalize_solid by done. by rewrite Heq.
Qed.

Lemma Match_complete_witness :
  exists w, @Match ascii_cases (@New ascii_cases ["SCAM"%string]) (text ([33] ++ scam ++ [32])%Z)
    = (w, true) /\ w ∈ words (@New ascii_cases ["SCAM"%string]).
Proof.
  pose ascii_cases_laws as laws.
  apply (@Match_complete ascii_cases laws ["SCAM"%string] SCAM scam [33]%Z [32]%Z).
  - apply list_elem_of_singleton. vm_compute. reflexivity.
  - repeat constructor; unfold valid_rune; lia.
  - exact (solid_of 83 77 [67; 65]%Z eq_refl eq_refl).
  - repeat constructor; unfold valid_rune; lia.
  - exact (solid_of 115 109 [99; 97]%Z eq_refl eq_refl).
  - reflexivity.
  - repeat constructor; unfold valid_rune; lia.
  - repeat constructor; unfold valid_rune; lia.
Defined.

(** What [Match] reports is the first word of the filter, in list order, that
    occurs in the normalised content, and it is never empty; when it reports
    nothing no word occurs.  Blank entries of the original list match nothing. *)
Theorem Match_sound `{CaseTable} ws content :
  match Match (New ws) content with
  | (w, true) =>
      w <> ""%string /\ (exists raw, raw ∈ ws /\ w = normalize raw) /\
      (exists a b, normalize content = a +:+ w +:+ b) /\
      exists before after, words (New ws) = before ++ w :: after /\
        Forall (fun v => Contains (normalize content) v = false) before
  | (w, false) =>
      w = ""%string /\ Forall (fun v => Contains (normalize content) v = false) (words (New ws))
  end.
Proof.
  unfold Match. pose proof (match_words_spec (normalize content) (words (New ws))) as Hm.
  destruct (match_words _ _) as [w [|]]; [|done].
  destruct Hm as (b & a & Hw & Hc & Hb).
  assert (w ∈ words (New ws)) as Hin by (rewrite Hw; set_solver).
  apply words_New in Hin as [Hne Hraw]. apply Contains_spec in Hc. eauto 10.
Qed.

End Sensitive.
