(* ===== verification/RateLimit.v ===== *)
(** * The rate limiter (internal/ratelimit/limiter.go)

    One token bucket per key.  The arithmetic of the code is float64: the
    operations are the fields of the class [Float], instantiated by IEEE
    binary64 with round-to-nearest ([binary64], executable) and by exact
    rationals ([exact]), the arithmetic the algorithm is designed in.  The clock
    [l.now] is read once per call: [Allow] takes its value. *)

From Stdlib Require Import QArith Lqa.
From Stdlib Require Import Floats.SpecFloat.
From S2P Require Import Prelude.

(** ** Arithmetic *)

Class Float (F : Type) := {
  of_int : Z -> F;
  fadd : F -> F -> F;
  fsub : F -> F -> F;
  fmul : F -> F -> F;
  fdiv : F -> F -> F;
  fltb : F -> F -> bool;
  fleb : F -> F -> bool;
}.

(** float64: 53 bits of precision, exponents up to 1024, no fused operations. *)
Definition binary64 : Float spec_float := {|
  of_int z := binary_normalize 53 1024 z 0 false;
  fadd := SFadd 53 1024;
  fsub := SFsub 53 1024;
  fmul := SFmul 53 1024;
  fdiv := SFdiv 53 1024;
  fltb := SFltb;
  fleb := SFleb;
|}.

Definition exact : Float Q := {|
  of_int := inject_Z;
  fadd := Qplus;
  fsub := Qminus;
  fmul := Qmult;
  fdiv := Qdiv;
  fltb a b := negb (Qle_bool b a);
  fleb := Qle_bool;
|}.

(** [Duration.Seconds] *)
Definition Seconds `{Float F} (d : duration) : F :=
  fadd (of_int (Z.quot d Second)) (fdiv (of_int (Z.rem d Second)) (of_int 1000000000)).

(** ** The limiter *)

Definition ErrInvalidRate : sentinel := mkSentinel "ratelimit" "ErrInvalidRate".
Definition ErrInvalidBurst : sentinel := mkSentinel "ratelimit" "ErrInvalidBurst".

Record bucket (F : Type) := mkBucket { tokens : F; last : time }.
Arguments mkBucket {F} tokens last.
Arguments tokens {F} b.
Arguments last {F} b.

Record Limiter (F : Type) := mkLimiter {
  buckets : gmap string (bucket F);
  tokensPerSecond : F;
  burst : F;
}.
Arguments mkLimiter {F} buckets tokensPerSecond burst.
Arguments buckets {F} l.
Arguments tokensPerSecond {F} l.
Arguments burst {F} l.

Definition New `{Float F} (tokensPerSecond : F) (burst : Z) : result (Limiter F) :=
  if fleb tokensPerSecond (of_int 0) then Err ErrInvalidRate
  else if (burst <=? 0)%Z then Err ErrInvalidBurst
  else Ok (mkLimiter ∅ tokensPerSecond (of_int burst)).

Definition fmin `{Float F} (a b : F) : F := if fltb a b then a else b.

(** Refilling and spending on the bucket found in the table. *)
Definition refill `{Float F} (l : Limiter F) (current : bucket F) (now : time) : F :=
  fmin (burst l)
       (fadd (tokens current) (fmul (Seconds (time_Sub now (last current))) (tokensPerSecond l))).

Definition Allow `{Float F} (key : string) (now : time) (l : Limiter F) : bool * Limiter F :=
  let store b := mkLimiter (<[key := b]> (buckets l)) (tokensPerSecond l) (burst l) in
  if bool_decide (key = ""%string) then (false, l)
  else match buckets l !! key with
  | None => (true, store (mkBucket (fsub (burst l) (of_int 1)) now))
  | Some current =>
    let t := refill l current now in
    if fltb t (of_int 1) then (false, store (mkBucket t now))
    else (true, store (mkBucket (fsub t (of_int 1)) now))
  end.

(** A sequence of calls for one key: the answers, and the limiter at the end. *)
Fixpoint Allow_all `{Float F} (key : string) (nows : list time) (l : Limiter F)
  : list bool * Limiter F :=
  match nows with
  | [] => ([], l)
  | now :: rest =>
    let '(a, l') := Allow key now l in
    let '(answers, l'') := Allow_all key rest l' in
    (a :: answers, l'')
  end.

Definition granted (answers : list bool) : nat := count_if id answers.

(** ** Lemmas *)

Lemma Allow_all_cons `{Float F} key now rest (l : Limiter F) :
  Allow_all key (now :: rest) l =
    let '(a, l') := Allow key now l in
    let '(answers, l'') := Allow_all key rest l' in (a :: answers, l'').
Proof. done. Qed.

Lemma Allow_all_app `{Float F} key xs ys (l : Limiter F) :
  Allow_all key (xs ++ ys) l =
    let '(a, l') := Allow_all key xs l in
    let '(b, l'') := Allow_all key ys l' in (a ++ b, l'').
Proof.
  revert l. induction xs as [|x xs IH]; intros l; simpl; [by destruct (Allow_all key ys l)|].
  destruct (Allow key x l) as [a l1]. rewrite IH. destruct (Allow_all key xs l1) as [b l2].
  by destruct (Allow_all key ys l2).
Qed.

Section generic.
Context `{Float F}.
Implicit Types (l : Limiter F).

Lemma Allow_params key now l :
  tokensPerSecond (snd (Allow key now l)) = tokensPerSecond l /\
  burst (snd (Allow key now l)) = burst l.
Proof. unfold Allow. case_bool_decide; [done|]. destruct (buckets l !! key); [case_match|]; done. Qed.

Lemma Allow_other key key' now l :
  key <> key' -> buckets (snd (Allow key now l)) !! key' = buckets l !! key'.
Proof.
  intros Hne. unfold Allow. case_bool_decide; [done|].
  destruct (buckets l !! key); [case_match|]; simpl; by rewrite lookup_insert_ne.
Qed.

(** The answer for a key depends on its own bucket only. *)
Lemma Allow_own key now l1 l2 :
  buckets l1 !! key = buckets l2 !! key -> tokensPerSecond l1 = tokensPerSecond l2 ->
  burst l1 = burst l2 ->
  fst (Allow key now l1) = fst (Allow key now l2) /\
  buckets (snd (Allow key now l1)) !! key = buckets (snd (Allow key now l2)) !! key.
Proof.
  intros Hb Ht Hu. unfold Allow, refill. case_bool_decide; [by split|].
  rewrite Hb, Ht, Hu. destruct (buckets l2 !! key); [case_match|]; simpl;
    by rewrite !lookup_insert_eq.
Qed.
End generic.

(** ** Exact arithmetic *)

Section exact.
#[local] Existing Instance exact.
Open Scope Q_scope.

Definition sec (d : Z) : Q := inject_Z d / inject_Z 1000000000.

Lemma Seconds_exact d : Seconds d == sec d.
Proof.
  unfold Seconds, sec, Second, Millisecond, Microsecond, Nanosecond. cbn [fadd fdiv of_int exact].
  change (1000 * (1000 * (1000 * 1)))%Z with 1000000000%Z.
  rewrite (Z.quot_rem' d 1000000000) at 3. rewrite inject_Z_plus, inject_Z_mult.
  field.
Qed.

Lemma sec_plus a b : sec (a + b) == sec a + sec b.
Proof. unfold sec. rewrite inject_Z_plus. field. Qed.

Lemma sec_nonneg d : (0 <= d)%Z -> 0 <= sec d.
Proof.
  intros Hd. unfold sec, Qle. simpl. lia.
Qed.

Lemma fltb_exact a b : fltb a b = true <-> a < b.
Proof.
  cbn. rewrite negb_true_iff. split.
  - intros Hf. apply Qnot_le_lt. intros Hle. apply Qle_bool_iff in Hle. congruence.
  - intros Hlt. destruct (Qle_bool b a) eqn:E; [|done]. apply Qle_bool_iff in E. lra.
Qed.

Lemma fltb_exact_false a b : fltb a b = false <-> b <= a.
Proof.
  rewrite <- not_true_iff_false, fltb_exact. split; [apply Qnot_lt_le|]. intros ? ?. lra.
Qed.

Lemma fmin_exact a b : fmin a b <= a /\ fmin a b <= b /\ (fmin a b == a \/ fmin a b == b).
Proof.
  unfold fmin. destruct (fltb a b) eqn:E.
  - apply fltb_exact in E. split_and!; [lra|lra|left; lra].
  - apply fltb_exact_false in E. split_and!; [lra|lra|right; lra].
Qed.

(** Refilling after an elapsed time that a duration can hold. *)
Lemma refill_exact l (b : bucket Q) now :
  (0 <= now - last b <= max_i64)%Z ->
  let full := tokens b + sec (now - last b) * tokensPerSecond l in
  refill l b now <= burst l /\ refill l b now <= full /\
  (refill l b now == burst l \/ refill l b now == full).
Proof.
  intros Hd. unfold refill. assert (time_Sub now (last b) = (now - last b)%Z) as ->.
  { unfold time_Sub, min_i64, max_i64 in *. lia. }
  set (x := fadd (tokens b) (fmul (Seconds (now - last b)%Z) (tokensPerSecond l))).
  destruct (fmin_exact (burst l) x) as (H1 & H2 & H3).
  assert (x == tokens b + sec (now - last b) * tokensPerSecond l) as Hx.
  { unfold x. cbn [fadd fmul exact]. by rewrite Seconds_exact. }
  rewrite <- Hx. done.
Qed.

(** The tokens after one call, and what the call answered. *)
Lemma Allow_exact key now l b :
  key <> ""%string -> buckets l !! key = Some b -> (0 <= now - last b <= max_i64)%Z ->
  exists t, t <= burst l /\ t <= tokens b + sec (now - last b) * tokensPerSecond l /\
    (t == burst l \/ t == tokens b + sec (now - last b) * tokensPerSecond l) /\
    ((t < 1 /\ fst (Allow key now l) = false /\
        buckets (snd (Allow key now l)) !! key = Some (mkBucket t now)) \/
     (1 <= t /\ fst (Allow key now l) = true /\
        buckets (snd (Allow key now l)) !! key = Some (mkBucket (t - 1) now))).
Proof.
  intros Hk Hb Hd. destruct (refill_exact l b now Hd) as (H1 & H2 & H3).
  exists (refill l b now). split_and!; [done..|]. unfold Allow.
  rewrite bool_decide_false, Hb by done. destruct (fltb (refill l b now) (of_int 1)) eqn:E.
  - apply fltb_exact in E. left. split_and!; [exact E|done|apply lookup_insert_eq].
  - apply fltb_exact_false in E. right. split_and!; [exact E|done|apply lookup_insert_eq].
Qed.

(** The clock readings of a run: not decreasing, from [t] on, for a span that a
    duration can hold. *)
Fixpoint clock_from (t : time) (nows : list time) : Prop :=
  match nows with
  | [] => True
  | now :: rest => (0 <= now - t <= max_i64)%Z /\ clock_from now rest
  end.

Definition end_time (t : time) (nows : list time) : time := List.last nows t.

Lemma end_time_cons t now nows : end_time t (now :: nows) = end_time now nows.
Proof. apply last_default_cons. Qed.

Lemma end_time_le t nows : clock_from t nows -> (t <= end_time t nows)%Z.
Proof.
  revert t. induction nows as [|n nows IH]; intros t Hc; [unfold end_time; simpl; lia|].
  rewrite end_time_cons. destruct Hc as [Hd Hc]. specialize (IH n Hc). lia.
Qed.

Lemma granted_cons a answers : granted (a :: answers) = ((if a then 1 else 0) + granted answers)%nat.
Proof. unfold granted. by rewrite count_if_cons. Qed.

Lemma Allow_all_bound key nows l b :
  key <> ""%string -> buckets l !! key = Some b -> 0 <= tokensPerSecond l ->
  0 <= burst l -> 0 <= tokens b -> clock_from (last b) nows ->
  inject_Z (Z.of_nat (granted (fst (Allow_all key nows l))))
    <= tokens b + sec (end_time (last b) nows - last b) * tokensPerSecond l.
Proof.
  intros Hk. revert l b. induction nows as [|now nows IH]; intros l b Hb Hr Hu Ht Hc.
  { unfold end_time. simpl. rewrite Z.sub_diag.
    assert (sec 0 == 0) as -> by reflexivity. change (inject_Z _) with 0. lra. }
  destruct Hc as [Hd Hc]. rewrite end_time_cons.
  pose proof (end_time_le now nows Hc) as Hle.
  destruct (Allow_exact key now l b Hk Hb Hd) as (t & H1 & H2 & H3 & Hcase).
  destruct (Allow_params key now l) as [Hrate Hburst]. cbn [Allow_all].
  destruct (Allow key now l) as [a l'] eqn:HA. cbn [fst snd] in *.
  assert (0 <= sec (now - last b) * tokensPerSecond l) as Hpos.
  { apply Qmult_le_0_compat; [apply sec_nonneg; lia|done]. }
  assert (sec (end_time now nows - last b)
          == sec (now - last b) + sec (end_time now nows - now)) as Hsec.
  { rewrite <- sec_plus. by replace (end_time now nows - last b)%Z
      with ((now - last b) + (end_time now nows - now))%Z by lia. }
  destruct (Allow_all key nows l') as [answers l''] eqn:HR. cbn [fst].
  rewrite granted_cons, Hsec, Qmult_plus_distr_l.
  assert (0 <= t) as Ht0 by (destruct H3; lra).
  destruct Hcase as [(Hlt & -> & Hb')|(Hge & -> & Hb')]; specialize (IH l' _ Hb');
    rewrite HR, Hrate, Hburst in IH; cbn [fst tokens last] in IH.
  - specialize (IH Hr Hu Ht0 Hc). rewrite Nat.add_0_l. lra.
  - rewrite Nat2Z.inj_add, inject_Z_plus. change (inject_Z (Z.of_nat 1)) with 1.
    specialize (IH Hr Hu ltac:(lra) Hc). lra.
Qed.

(** Calls at least 1/rate apart. *)
Fixpoint spaced (rate : Q) (t : time) (nows : list time) : Prop :=
  match nows with
  | [] => True
  | now :: rest => 1 <= sec (now - t) * rate /\ spaced rate now rest
  end.

Lemma Allow_all_spaced key nows l b :
  key <> ""%string -> buckets l !! key = Some b -> 1 <= burst l -> 0 <= tokens b ->
  clock_from (last b) nows -> spaced (tokensPerSecond l) (last b) nows ->
  fst (Allow_all key nows l) = replicate (length nows) true.
Proof.
  intros Hk. revert l b. induction nows as [|now nows IH]; intros l b Hb Hu Ht Hc Hs; [done|].
  destruct Hc as [Hd Hc]. destruct Hs as [Hs1 Hs].
  destruct (Allow_exact key now l b Hk Hb Hd) as (t & H1 & H2 & H3 & Hcase).
  destruct (Allow_params key now l) as [Hrate Hburst]. cbn [Allow_all].
  destruct (Allow key now l) as [a l'] eqn:HA. cbn [fst snd] in *.
  destruct Hcase as [(Hlt & -> & Hb')|(Hge & -> & Hb')]; [destruct H3; lra|].
  specialize (IH l' _ Hb'). rewrite Hrate, Hburst in IH. cbn [tokens last] in IH.
  specialize (IH Hu ltac:(lra) Hc Hs).
  destruct (Allow_all key nows l') as [answers l'']. simpl in *. by rewrite IH.
Qed.
End exact.

(** ** Interleaved calls for several keys *)

Fixpoint Allow_run `{Float F} (calls : list (string * time)) (l : Limiter F)
  : list (string * bool) * Limiter F :=
  match calls with
  | [] => ([], l)
  | (key, now) :: rest =>
    let '(a, l') := Allow key now l in
    let '(answers, l'') := Allow_run rest l' in
    ((key, a) :: answers, l'')
  end.

(** The part of a sequence that concerns one key. *)
Definition for_key {A} (key : string) (l : list (string * A)) : list A :=
  snd <$> filter (fun p => p.1 = key) l.

Lemma for_key_cons {A} key k (a : A) l :
  for_key key ((k, a) :: l) = (if decide (k = key) then [a] else []) ++ for_key key l.
Proof.
  unfold for_key. destruct (decide (k = key)).
  - by rewrite filter_cons_True.
  - by rewrite filter_cons_False.
Qed.

Definition same_bucket `{Float F} (key : string) (l1 l2 : Limiter F) : Prop :=
  buckets l1 !! key = buckets l2 !! key /\ tokensPerSecond l1 = tokensPerSecond l2 /\
  burst l1 = burst l2.

Lemma Allow_run_own `{Float F} key calls l1 l2 :
  same_bucket key l1 l2 ->
  for_key key (fst (Allow_run calls l1)) = fst (Allow_all key (for_key key calls) l2).
Proof.
  revert l1 l2. induction calls as [|[k now] calls IH]; intros l1 l2 (Hb & Ht & Hu); [done|].
  rewrite for_key_cons. cbn [Allow_run].
  destruct (Allow_params k now l1) as [Ht1 Hu1].
  destruct (decide (k = key)) as [->|Hne]; simpl.
  - destruct (Allow_own key now l1 l2 Hb Ht Hu) as [Ha Hb'].
    destruct (Allow_params key now l2) as [Ht2 Hu2].
    destruct (Allow key now l1) as [a1 l1'], (Allow key now l2) as [a2 l2']; simpl in *.
    specialize (IH l1' l2' ltac:(unfold same_bucket; by rewrite Hb', Ht1, Ht2, Hu1, Hu2)).
    destruct (Allow_run calls l1') as [r1 l1''], (Allow_all key (for_key key calls) l2') as [r2 l2''].
    simpl in *. by rewrite for_key_cons, decide_True, IH, Ha by done.
  - pose proof (Allow_other k key now l1 Hne) as Ho.
    destruct (Allow k now l1) as [a1 l1']; simpl in *.
    specialize (IH l1' l2 ltac:(unfold same_bucket; by rewrite Ho, Ht1, Hu1)).
    destruct (Allow_run calls l1') as [r1 l1'']; simpl in *.
    by rewrite for_key_cons, decide_False.
Qed.

(** ** The limiter of the server: ratelimit.New(5, 10) in float64 *)

Section server.
#[local] Existing Instance binary64.

Definition five : spec_float := Eval vm_compute in of_int 5.
Definition ten : spec_float := Eval vm_compute in of_int 10.

Lemma Allow_at key now l b t a t' :
  key <> ""%string -> buckets l !! key = Some b -> refill l b now = t ->
  (if fltb t (of_int 1) then (false, t) else (true, fsub t (of_int 1))) = (a, t') ->
  Allow key now l = (a, mkLimiter (<[key := mkBucket t' now]> (buckets l)) (tokensPerSecond l) (burst l)).
Proof.
  intros Hk Hb <- He. unfold Allow. rewrite bool_decide_false, Hb by done.
  destruct (fltb _ _); by simplify_eq.
Qed.

Definition empty : spec_float := S754_zero false.

(** At one instant the tokens go down by one per call, and the refill adds
    nothing. *)
Lemma Allow_frozen key now m (n : nat) :
  key <> ""%string -> n < 10 -> m !! key = Some (mkBucket (of_int (Z.of_nat n)) now) ->
  exists m', Allow_all key (replicate (S n) now) (mkLimiter m five ten)
    = (replicate n true ++ [false], mkLimiter m' five ten) /\
    m' !! key = Some (mkBucket empty now).
Proof.
  intros Hk. revert m. induction n as [|n IH]; intros m Hn Hm.
  - cbn [Allow_all replicate]. erewrite (Allow_at key now (mkLimiter m five ten) _ empty false empty);
      [|done|exact Hm| |by vm_compute].
    + eexists. split; [done|]. simpl. apply lookup_insert_eq.
    + unfold refill. simpl. rewrite time_Sub_diag. by vm_compute.
  - change (replicate (S (S n)) now) with (now :: replicate (S n) now). rewrite Allow_all_cons.
    erewrite (Allow_at key now (mkLimiter m five ten) _ (of_int (Z.of_nat (S n))) true
      (of_int (Z.of_nat n))); [|done|exact Hm| |].
    + destruct (IH (<[key := mkBucket (of_int (Z.of_nat n)) now]> m)) as (m' & He & Hm');
        [lia|apply lookup_insert_eq|].
      exists m'. split; [|done]. cbn [buckets tokensPerSecond burst]. by rewrite He.
    + unfold refill. cbn [tokens last burst tokensPerSecond]. rewrite time_Sub_diag.
      do 10 (destruct n as [|n]; [by vm_compute|]). lia.
    + do 10 (destruct n as [|n]; [by vm_compute|]). lia.
Qed.

(** With the bucket empty, 200 ms bring exactly one token. *)
Lemma Allow_200ms key now m :
  key <> ""%string -> m !! key = Some (mkBucket empty now) ->
  Allow key (now + 200 * Millisecond)%Z (mkLimiter m five ten)
    = (true, mkLimiter (<[key := mkBucket empty (now + 200 * Millisecond)%Z]> m) five ten).
Proof.
  intros Hk Hm. apply (Allow_at key _ (mkLimiter m five ten) _ (of_int 1) true empty Hk Hm);
    [|by vm_compute].
  unfold refill. cbn [tokens last burst tokensPerSecond].
  assert (time_Sub (now + 200 * Millisecond) now = 200 * Millisecond)%Z as ->.
  { unfold time_Sub, max_i64, min_i64, Millisecond, Microsecond, Nanosecond. lia. }
  by vm_compute.
Qed.

(** Clock readings: [k] times 200 ms apart after [t], two calls at each. *)
Fixpoint paired (t : time) (k : nat) : list time :=
  match k with
  | O => []
  | S k' => let t' := (t + 200 * Millisecond)%Z in t' :: t' :: paired t' k'
  end.

Lemma Allow_paired key now m k :
  key <> ""%string -> m !! key = Some (mkBucket empty now) ->
  fst (Allow_all key (paired now k) (mkLimiter m five ten))
    = concat (replicate k [true; false]).
Proof.
  intros Hk. revert now m. induction k as [|k IH]; intros now m Hm; [done|].
  cbn [paired Allow_all replicate concat]. rewrite (Allow_200ms key now m Hk Hm).
  destruct (Allow_frozen key (now + 200 * Millisecond)%Z
    (<[key := mkBucket empty (now + 200 * Millisecond)%Z]> m) 0) as (m' & He & Hm');
    [done|lia|apply lookup_insert_eq|].
  cbn [Allow_all replicate app] in He.
  destruct (Allow key _ (mkLimiter (<[_:=_]> m) five ten)) as [a l'] eqn:HA. simplify_eq.
  specialize (IH _ _ Hm'). destruct (Allow_all key _ (mkLimiter m' five ten)) as [r l''].
  simpl in *. by rewrite IH.
Qed.
End server.

(** * Properties *)

(** One schedule in float64 arithmetic, for every key and every starting instant [t].  The
    limiter the server builds (5 tokens per second, burst 10) is constructed; of eleven
    messages at [t] the first ten pass; and when two messages arrive at each of the
    instants [t] + 200 ms, [t] + 400 ms, ..., exactly the first of the two passes, for
    ever.  Nothing is said of other schedules: with roundings in between, a token may be
    complete one call later. *)
Theorem server_limiter_float64 key t k :
  key <> ""%string ->
  exists l, @New _ binary64 (@of_int _ binary64 5) 10 = Ok l /\
    fst (@Allow_all _ binary64 key (replicate 11 t ++ paired t k) l)
      = replicate 10 true ++ [false] ++ concat (replicate k [true; false]).
Proof.
  intros Hk. exists (mkLimiter ∅ five ten). split; [by vm_compute|].
  change (replicate 11 t ++ paired t k) with (t :: (replicate 10 t ++ paired t k)).
  rewrite Allow_all_cons. unfold Allow. rewrite bool_decide_false by done.
  cbn [buckets]. rewrite lookup_empty. cbn [tokensPerSecond burst].
  set (m := <[key := _]> _).
  assert (m !! key = Some (mkBucket (@of_int _ binary64 (Z.of_nat 9)) t)) as Hm.
  { unfold m. rewrite lookup_insert_eq. by vm_compute. }
  destruct (Allow_frozen key t m 9 Hk ltac:(lia) Hm) as (m' & He & Hm').
  pose proof (Allow_paired key t m' k Hk Hm') as Hp.
  rewrite Allow_all_app. change 10 with (S 9) at 1. rewrite He.
  destruct (Allow_all key (paired t k) (mkLimiter m' five ten)) as [r l'']. simpl in *. by rewrite Hp.
Qed.

Lemma server_limiter_float64_witness :
  exists l, @New _ binary64 (@of_int _ binary64 5) 10 = Ok l /\
    fst (@Allow_all _ binary64 "alice" (replicate 11 1000%Z ++ paired 1000%Z 2) l)
      = replicate 10 true ++ [false; true; false; true; false].
Proof. exact (server_limiter_float64 "alice" 1000%Z 2 ltac:(discriminate)). Defined.

(** Keys do not influence each other: in any interleaving of calls for many
    keys, the answers given to one key are those it would get alone, and the
    empty key is always refused. *)
Theorem keys_independent `{Float F} key calls (l : Limiter F) :
  for_key key (fst (Allow_run calls l)) = fst (Allow_all key (for_key key calls) l) /\
  forall now, Allow "" now l = (false, l).
Proof. split; [|done]. by apply Allow_run_own. Qed.

(** C36: the token bucket, in exact arithmetic: for a key not seen before, calls at
    non-decreasing instants are granted at most [burst + rate * elapsed seconds]
    times, and calls that stay at least 1/rate apart are all granted. *)
Theorem token_bucket_bounds (rate : Q) (b : Z) l key first rest :
  @New _ exact rate b = Ok l -> key <> ""%string -> clock_from first rest ->
  (inject_Z (Z.of_nat (granted (fst (@Allow_all _ exact key (first :: rest) l))))
     <= inject_Z b + sec (end_time first rest - first) * rate)%Q /\
  (spaced rate first rest ->
     fst (@Allow_all _ exact key (first :: rest) l) = replicate (S (length rest)) true).
Proof.
  intros Hn Hk Hc. unfold New in Hn. destruct (fleb _ _) eqn:Hr; [done|].
  destruct (Z.leb_spec b 0) as [|Hb]; [done|]. simplify_eq.
  assert (0 < rate)%Q as Hrate.
  { change (Qle_bool rate 0 = false) in Hr. apply Qnot_le_lt. intros Hle. apply Qle_bool_iff in Hle. congruence. }
  assert (1 <= inject_Z b)%Q as Hb1 by (change 1%Q with (inject_Z 1); rewrite <- Zle_Qle; lia).
  rewrite Allow_all_cons. unfold Allow. rewrite bool_decide_false by done.
  cbn [buckets]. rewrite lookup_empty.
  cbn [tokensPerSecond burst buckets]. set (l1 := mkLimiter _ _ _).
  set (b1 := mkBucket (@fsub _ exact (@of_int _ exact b) (@of_int _ exact 1)) first).
  assert (buckets l1 !! key = Some b1) as Hb' by apply lookup_insert_eq.
  assert (tokens b1 = inject_Z b - 1)%Q as Htok by done.
  assert (0 <= tokens b1)%Q as Ht by (rewrite Htok; lra).
  assert (0 <= tokensPerSecond l1)%Q as Hr1 by (unfold l1; cbn [tokensPerSecond]; lra).
  assert (1 <= burst l1)%Q as Hu1 by done. split.
  - pose proof (Allow_all_bound key rest l1 b1 Hk Hb' Hr1 ltac:(lra) Ht Hc) as Hle.
    destruct (Allow_all key rest l1) as [r l2]. cbn [fst] in *. rewrite granted_cons.
    rewrite Nat2Z.inj_add, inject_Z_plus. change (inject_Z (Z.of_nat 1)) with 1%Q.
    rewrite Htok in Hle. unfold b1, l1 in Hle. cbn [last tokensPerSecond] in Hle. lra.
  - intros Hs. pose proof (Allow_all_spaced key rest l1 b1 Hk Hb' Hu1 Ht Hc Hs) as He.
    destruct (Allow_all key rest l1) as [r l2]. cbn [fst] in *. by rewrite He.
Qed.

Lemma token_bucket_bounds_witness :
  exists l, @New _ exact 5%Q 10%Z = Ok l /\
    (inject_Z (Z.of_nat (granted (fst (@Allow_all _ exact "alice" [0; 0; Second]%Z l))))
      <= inject_Z 10 + sec (Second - 0) * 5)%Q.
Proof.
  exists (@mkLimiter Q ∅ 5%Q (inject_Z 10)). split; [reflexivity|].
  apply (token_bucket_bounds 5%Q 10%Z (@mkLimiter Q ∅ 5%Q (inject_Z 10)) "alice" 0%Z [0%Z; Second]).
  - reflexivity.
  - discriminate.
  - vm_compute. repeat split; intro; discriminate.
Defined.
