(* ===== verification/GoFlag.v ===== *)
(** * Package flag, with strconv.ParseInt and time.ParseDuration

    The command line of a program that calls [flag.Parse]: flags that take a value, whose
    errors end the process ([flag.ExitOnError]).  Values are parsed by [ParseInt] with base
    0, which accepts the prefixes and underscores of Go's literals, and by
    [ParseDuration], whose fractions go through float64. *)

From Stdlib Require Import Floats.SpecFloat QArith_base.
From stdpp Require Import pretty.
From S2P Require Import Prelude.
From S2P Require Import Utf8.
From S2P Require Import GoStrings.
From S2P Require Import GoTime.
From S2P Require Import RateLimit.

(** ** strconv.ParseInt(s, 0, 64) *)

Definition ErrSyntax : sentinel := mkSentinel "strconv" "ErrSyntax".
Definition ErrRange : sentinel := mkSentinel "strconv" "ErrRange".

Definition lower (b : Z) : Z := Z.lor b 32.

Definition digit_value (b : Z) : option Z :=
  if digit b then Some (b - 48)%Z
  else if ((97 <=? lower b) && (lower b <=? 122))%Z then Some (lower b - 97 + 10)%Z
  else None.

Definition base_prefix (b : Z) : option Z :=
  if (lower b =? 98)%Z then Some 2%Z else if (lower b =? 111)%Z then Some 8%Z
  else if (lower b =? 120)%Z then Some 16%Z else None.

(** The base, and the digits that follow its prefix. *)
Definition detect_base (l : list Z) : Z * list Z :=
  match l with
  | 48%Z :: c :: d :: rest =>
    match base_prefix c with Some base => (base, d :: rest) | None => (8%Z, c :: d :: rest) end
  | 48%Z :: rest => (8%Z, rest)
  | _ => (10%Z, l)
  end.

(** A sign, and what follows it. *)
Definition take_sign (l : list Z) : bool * list Z :=
  match l with
  | 45%Z :: l => (true, l)
  | 43%Z :: l => (false, l)
  | _ => (false, l)
  end.

(** Underscores only between digits; [saw] is the class of the byte before: a digit
    (48), an underscore (95), something else. *)
Fixpoint underscores_separate (hex : bool) (saw : Z) (l : list Z) : bool :=
  match l with
  | [] => negb (saw =? 95)%Z
  | b :: l =>
    if digit b || (hex && (97 <=? lower b)%Z && (lower b <=? 102)%Z) then underscores_separate hex 48 l
    else if (b =? 95)%Z then (saw =? 48)%Z && underscores_separate hex 95 l
    else negb (saw =? 95)%Z && underscores_separate hex 33 l
  end.
Definition underscoreOK (l : list Z) : bool :=
  let '(_, l) := take_sign l in
  match l with
  | 48%Z :: c :: rest =>
    match base_prefix c with
    | Some base => underscores_separate (base =? 16)%Z 48 rest
    | None => underscores_separate false 94 l
    end
  | _ => underscores_separate false 94 l
  end.

(** The loop of ParseUint, in uint64. *)
Fixpoint uint_digits (base : Z) (l : list Z) (n : Z) : result Z :=
  match l with
  | [] => Ok n
  | c :: l =>
    if (c =? 95)%Z then uint_digits base l n
    else match digit_value c with
    | None => Err ErrSyntax
    | Some d =>
      if (base <=? d)%Z then Err ErrSyntax
      else if ((2 ^ 64 - 1) / base + 1 <=? n)%Z then Err ErrRange
      else
        let n := wrap_u64 (n * base) in
        let n1 := wrap_u64 (n + d) in
        if (n1 <? n)%Z then Err ErrRange else uint_digits base l n1
    end
  end.

Definition ParseUint (l : list Z) : result Z :=
  match l with
  | [] => Err ErrSyntax
  | _ =>
    let '(base, digits) := detect_base l in
    n ← uint_digits base digits 0;
    if bool_decide (95%Z ∈ digits) && negb (underscoreOK l) then Err ErrSyntax else Ok n
  end.

Definition ParseInt (s : string) : result Z :=
  let '(neg, l) := take_sign (bytes s) in
  un ← ParseUint l;
  if negb neg && (2 ^ 63 <=? un)%Z then Err ErrRange
  else if neg && (2 ^ 63 <? un)%Z then Err ErrRange
  else Ok (wrap_i64 (if neg then - un else un))%Z.

(** ** time.ParseDuration *)

(** The conversion uint64(x) of a float64 that is in range. *)
Class FloatTrunc (F : Type) := { trunc : F -> Z }.

Definition binary64_trunc : FloatTrunc spec_float := {|
  trunc x := match x with
    | S754_finite s m e => let z := Z.shiftl (Zpos m) e in if s then (- z)%Z else z
    | _ => 0%Z
    end;
|}.
Definition exact_trunc : FloatTrunc Q := {| trunc x := Z.quot (Qnum x) (Zpos (Qden x)) |}.

Definition Hour : duration := (60 * Minute)%Z.

(** Both micro signs are accepted. *)
Definition unitMap (u : list Z) : option Z :=
  if bool_decide (u = bytes "ns") then Some Nanosecond
  else if bool_decide (u = bytes "us" \/ u = [194; 181; 115]%Z \/ u = [206; 188; 115]%Z) then Some Microsecond
  else if bool_decide (u = bytes "ms") then Some Millisecond
  else if bool_decide (u = bytes "s") then Some Second
  else if bool_decide (u = bytes "m") then Some Minute
  else if bool_decide (u = bytes "h") then Some Hour
  else None.

Fixpoint leadingInt (l : list Z) (x : Z) : option (Z * list Z) :=
  match l with
  | c :: l' =>
    if digit c then
      if (2 ^ 63 / 10 <? x)%Z then None
      else
        let x := wrap_u64 (x * 10 + c - 48) in
        if (2 ^ 63 <? x)%Z then None else leadingInt l' x
    else Some (x, l)
  | [] => Some (x, [])
  end.

(** The bytes of the unit: up to a period or a digit. *)
Fixpoint unit_span (l : list Z) : list Z * list Z :=
  match l with
  | c :: l' => if (c =? 46)%Z || digit c then ([], l) else let '(u, rest) := unit_span l' in (c :: u, rest)
  | [] => ([], [])
  end.

Definition invalid_duration : error := Errorf "time: invalid duration".

Section duration.
Context {F : Type} `{Float F} `{FloatTrunc F}.

Fixpoint leadingFraction (l : list Z) (x : Z) (scale : F) (overflow : bool) : Z * F * list Z :=
  match l with
  | c :: l' =>
    if digit c then
      if overflow then leadingFraction l' x scale true
      else if ((2 ^ 63 - 1) / 10 <? x)%Z then leadingFraction l' x scale true
      else
        let y := wrap_u64 (x * 10 + c - 48) in
        if (2 ^ 63 <? y)%Z then leadingFraction l' x scale true
        else leadingFraction l' y (fmul scale (of_int 10)) false
    else (x, scale, l)
  | [] => (x, scale, [])
  end.

(** One number with its unit, in nanoseconds, and what follows. *)
Definition duration_part (l : list Z) : result (Z * list Z) :=
  match l with
  | c :: _ =>
    if (c =? 46)%Z || digit c then
      match leadingInt l 0 with
      | None => Err invalid_duration
      | Some (v, l1) =>
        let pre := negb (length l =? length l1) in
        let '(f, scale, post, l2) :=
          match l1 with
          | 46%Z :: l1' =>
            let '(f, scale, l2) := leadingFraction l1' 0 (of_int 1) false in
            (f, scale, negb (length l1' =? length l2), l2)
          | _ => (0%Z, of_int 1, false, l1)
          end in
        if negb pre && negb post then Err invalid_duration
        else
          match unit_span l2 with
          | ([], _) => Err (Errorf "time: missing unit in duration")
          | (u, rest) =>
            match unitMap u with
            | None => Err (Errorf "time: unknown unit in duration")
            | Some unit =>
              if (2 ^ 63 / unit <? v)%Z then Err invalid_duration
              else
                let v := (v * unit)%Z in
                if (0 <? f)%Z then
                  let v := wrap_u64 (v + trunc (fmul (of_int f) (fdiv (of_int unit) scale))) in
                  if (2 ^ 63 <? v)%Z then Err invalid_duration else Ok (v, rest)
                else Ok (v, rest)
            end
          end
      end
    else Err invalid_duration
  | [] => Err invalid_duration
  end.

Fixpoint duration_parts (fuel : nat) (l : list Z) (d : Z) : result Z :=
  match l, fuel with
  | [], _ => Ok d
  | _, O => Err invalid_duration
  | _, S fuel =>
    '(v, l) ← duration_part l;
    let d := wrap_u64 (d + v) in
    if (2 ^ 63 <? d)%Z then Err invalid_duration else duration_parts fuel l d
  end.

Definition ParseDuration (s : string) : result duration :=
  let '(neg, l) := take_sign (bytes s) in
  if bool_decide (l = bytes "0") then Ok 0%Z
  else if bool_decide (l = []) then Err invalid_duration
  else
    d ← duration_parts (length l) l 0;
    if neg : bool then Ok (wrap_i64 (- d))
    else if (2 ^ 63 - 1 <? d)%Z then Err invalid_duration
    else Ok d.

End duration.

(** ** flag.Parse *)

(** An argument: no flag; the terminator; a flag with the value after an equals sign. *)
Inductive argument := NotAFlag | Terminator | BadSyntax | Flag (name : string) (value : option string).

Fixpoint cut_equals (s : string) : string * option string :=
  match s with
  | String "="%char value => (EmptyString, Some value)
  | String c s => let '(name, value) := cut_equals s in (String c name, value)
  | EmptyString => (EmptyString, None)
  end.

Definition named (name : string) : argument :=
  match name with
  | EmptyString | String "-"%char _ | String "="%char _ => BadSyntax
  | String c rest => let '(name, value) := cut_equals rest in Flag (String c name) value
  end.

Definition read_argument (s : string) : argument :=
  match s with
  | String "-"%char (String "-"%char EmptyString) => Terminator
  | String "-"%char (String "-"%char name) => named name
  | String "-"%char (String c rest) => named (String c rest)
  | _ => NotAFlag
  end.

(** The settings, and the arguments that are left; the error, or the wish for help. *)
Inductive parsed (C : Type) := Parsed (c : C) (rest : list string) | ErrHelp | Failed (err : error).
Arguments Parsed {C} c rest.
Arguments ErrHelp {C}.
Arguments Failed {C} err.

(** [formal]: the flags defined, each with its Set method. *)
Definition parse_value {C} (set : string -> C -> result C) (name value : string) (c : C) : result C :=
  match set value c with Ok c => Ok c | Err err => Err (Wrap ("invalid value for flag -" +:+ name) err) end.

Fixpoint Parse {C} (formal : string -> option (string -> C -> result C)) (args : list string) (c : C) : parsed C :=
  match args with
  | [] => Parsed c []
  | s :: args =>
    match read_argument s with
    | NotAFlag => Parsed c (s :: args)
    | Terminator => Parsed c args
    | BadSyntax => Failed (Errorf "bad flag syntax")
    | Flag name value =>
      match formal name with
      | None =>
        if bool_decide (name = "help" \/ name = "h") then ErrHelp
        else Failed (Errorf ("flag provided but not defined: -" +:+ name))
      | Some set =>
        match value, args with
        | Some value, _ =>
          match parse_value set name value c with Ok c => Parse formal args c | Err err => Failed err end
        | None, value :: args =>
          match parse_value set name value c with Ok c => Parse formal args c | Err err => Failed err end
        | None, [] => Failed (Errorf ("flag needs an argument: -" +:+ name))
        end
      end
    end
  end.

(** The Set methods of the three kinds of flags. *)
Definition string_flag (value : string) : result string := Ok value.
Definition int_flag (value : string) : result Z :=
  match ParseInt value with
  | Ok z => Ok z
  | Err err => Err (if errors_Is err ErrSyntax then Errorf "parse error"
                    else if errors_Is err ErrRange then Errorf "value out of range" else err)
  end.
Definition duration_flag {F : Type} `{Float F} `{FloatTrunc F} (value : string) : result duration :=
  match ParseDuration value with Ok d => Ok d | Err _ => Err (Errorf "parse error") end.

(** ** Lemmas *)

Ltac Zify.zify_post_hook ::= Z.to_euclidean_division_equations.

Lemma digit_is_digit b : digit b = true <-> is_digit b.
Proof. unfold digit, is_digit. rewrite andb_true_iff, !Z.leb_le. done. Qed.

(** The results are in range, whatever the text. *)
Lemma ParseInt_range s z : ParseInt s = Ok z -> (min_i64 <= z <= max_i64)%Z.
Proof.
  unfold ParseInt. destruct (take_sign (bytes s)) as [neg l]. destruct (ParseUint l) as [un|]; [cbn|done].
  repeat case_match; intros; simplify_eq; apply wrap_i64_range.
Qed.

Section duration_lemmas.
Context {F : Type} `{Float F} `{FloatTrunc F}.

Lemma duration_parts_range fuel : forall l d d',
  (0 <= d)%Z -> duration_parts fuel l d = Ok d' -> (0 <= d')%Z.
Proof.
  induction fuel as [|fuel IH]; intros l d d' Hd; destruct l as [|b l]; cbn [duration_parts];
    try (by intros [= <-]); try done.
  destruct (duration_part (b :: l)) as [[v l1]|]; [cbn|done]. case_match; [done|]. apply IH.
  apply wrap_u64_range.
Qed.

Lemma ParseDuration_range s d : ParseDuration s = Ok d -> (min_i64 <= d <= max_i64)%Z.
Proof.
  unfold ParseDuration, min_i64, max_i64. destruct (take_sign (bytes s)) as [neg l].
  case_bool_decide; [intros [= <-]; lia|]. case_bool_decide; [done|].
  destruct (duration_parts (length l) l 0) as [d0|] eqn:Hd; [cbn|done]. apply duration_parts_range in Hd; [|done].
  destruct neg; [intros [= <-]; apply wrap_i64_range|].
  destruct (Z.ltb_spec (2 ^ 63 - 1) d0); [done|]. intros [= <-]. lia.
Qed.

Lemma leadingInt_rest l : forall x v l', leadingInt l x = Some (v, l') -> l' `suffix_of` l.
Proof.
  induction l as [|c l IH]; intros x v l'; cbn; [by intros [= _ <-]|].
  repeat case_match; try done; [|by intros [= _ <-]]. intros Hl%IH. by apply suffix_cons_r.
Qed.

Lemma leadingFraction_rest l : forall x (scale : F) overflow,
  (leadingFraction l x scale overflow).2 `suffix_of` l.
Proof.
  induction l as [|c l IH]; intros x scale overflow; cbn; [done|].
  repeat case_match; try done; apply suffix_cons_r, IH.
Qed.

Lemma unit_span_app l : (unit_span l).1 ++ (unit_span l).2 = l.
Proof.
  induction l as [|c l IH]; cbn; [done|]. case_match; [done|]. destruct (unit_span l) as [u rest]. cbn in *. by rewrite IH.
Qed.

(** A part consumes at least its unit, so the length of the text is enough fuel. *)
Lemma duration_part_shorter l v l' : duration_part l = Ok (v, l') -> length l' < length l.
Proof.
  destruct l as [|c l]; cbn [duration_part]; [done|]. case_match; [|done].
  destruct (leadingInt (c :: l) 0) as [[v0 l1]|] eqn:Hl1; [|done]. apply leadingInt_rest, suffix_length in Hl1.
  intros Hp. case_match eqn:Hf. destruct p as [[f scale] post].
  assert (Hl2 : length l0 <= length l1).
  { destruct l1 as [|b l1']; [by simplify_eq|].
    pose proof (suffix_length _ _ (leadingFraction_rest l1' 0 (of_int 1) false)) as Hs.
    destruct (leadingFraction l1' 0 (of_int 1) false) as [[f' s'] l2'] eqn:Hfr. cbn in Hs.
    repeat case_match; simplify_eq; cbn; lia. }
  clear Hf. case_match; [done|]. pose proof (unit_span_app l0) as Hu. destruct (unit_span l0) as [[|u us] rest]; [done|].
  cbn in Hu. assert (length rest < length l0) by (rewrite <- Hu; cbn; rewrite length_app; lia).
  repeat case_match; simplify_eq; lia.
Qed.

Lemma duration_parts_fuel fuel : forall l d,
  length l <= fuel -> duration_parts fuel l d = duration_parts (length l) l d.
Proof.
  assert (Hgen : forall n m l d, length l <= n -> length l <= m -> duration_parts n l d = duration_parts m l d).
  { induction n as [|n IH]; intros m l d Hn Hm; (destruct l as [|b l]; [by destruct m|]); [cbn in Hn; lia|].
    destruct m as [|m]; [cbn in Hm; lia|]. cbn [duration_parts].
    destruct (duration_part (b :: l)) as [[v l1]|] eqn:Hp; [|done]. apply duration_part_shorter in Hp. cbn [length] in Hp, Hn, Hm. cbn [mbind result_bind].
    case_match; [done|]. apply IH; lia. }
  intros l d Hl. by apply Hgen.
Qed.

End duration_lemmas.

(** ** Decimal texts are read back *)

Lemma pretty_N_head (x : N) : (0 < x)%N -> exists b l, bytes (pretty x) = b :: l /\ (49 <= b <= 57)%Z.
Proof. intros Hx. unfold pretty, pretty_N. rewrite decide_False by lia. by apply pretty_N_go_head. Qed.

(** A byte that is one of a few is handled case by case. *)
Ltac byte_cases b :=
  let H := fresh in
  assert (H : (b = 48 \/ b = 49 \/ b = 50 \/ b = 51 \/ b = 52 \/ b = 53 \/ b = 54 \/ b = 55 \/ b = 56 \/ b = 57)%Z) by lia;
  repeat destruct H as [->|H]; [..|subst b].

Lemma take_sign_digits b l : is_digit b -> take_sign (b :: l) = (false, b :: l).
Proof. unfold is_digit. intros Hb. byte_cases b; done. Qed.

Lemma detect_base_decimal b l : (49 <= b <= 57)%Z -> detect_base (b :: l) = (10%Z, b :: l).
Proof. intros Hb. byte_cases b; [lia|done..]. Qed.

Lemma parse_digits_ge l : forall n v, Forall is_digit l -> (0 <= n)%Z -> parse_digits l n = Some v -> (n <= v)%Z.
Proof.
  induction l as [|b l IH]; intros n v Hl Hn; cbn; [by intros [= <-]|].
  apply Forall_cons in Hl as [Hb Hl]. unfold is_digit in Hb.
  case_match; [|done]. intros Hv%IH; [lia|done|lia].
Qed.

Lemma parse_digits_step b l n : is_digit b -> parse_digits (b :: l) n = parse_digits l (10 * n + (b - 48))%Z.
Proof. intros Hb. cbn [parse_digits]. apply digit_is_digit in Hb. unfold digit in Hb. by rewrite Hb. Qed.

Lemma uint_digits_decimal l : forall n v,
  Forall is_digit l -> (0 <= n)%Z -> parse_digits l n = Some v -> (v < 2 ^ 64)%Z -> uint_digits 10 l n = Ok v.
Proof.
  induction l as [|b l IH]; intros n v Hl Hn Hp Hv; [by injection Hp as <-|].
  apply Forall_cons in Hl as [Hb Hl]. rewrite parse_digits_step in Hp by done.
  assert (Hge : (10 * n + (b - 48) <= v)%Z)
    by (apply (parse_digits_ge l); [done|unfold is_digit in Hb; lia|done]).
  assert (Hcut : ((2 ^ 64 - 1) / 10 + 1)%Z = 1844674407370955162%Z) by reflexivity.
  cbn [uint_digits]. rewrite Hcut. clear Hcut. unfold digit_value. rewrite (proj2 (digit_is_digit b) Hb). unfold is_digit in Hb.
  rewrite (proj2 (Z.eqb_neq b 95)), (proj2 (Z.leb_gt 10 (b - 48))), (proj2 (Z.leb_gt _ n)) by lia.
  rewrite !wrap_u64_small by (rewrite ?wrap_u64_small; lia).
  rewrite (proj2 (Z.ltb_ge _ _)) by lia. rewrite <- (Z.mul_comm 10). by apply IH; [|lia|..].
Qed.

Lemma ParseUint_pretty (x : N) : (Z.of_N x < 2 ^ 64)%Z -> ParseUint (bytes (pretty x)) = Ok (Z.of_N x).
Proof.
  intros Hx. destruct (decide (x = 0)%N) as [->|Hne]; [by vm_compute|].
  destruct (pretty_N_spec x) as (Hd & _ & Hp), (pretty_N_head x ltac:(lia)) as (b & l & Hb & Hh).
  rewrite Hb in *. unfold ParseUint. rewrite detect_base_decimal by done.
  rewrite (uint_digits_decimal _ _ _ Hd ltac:(done) Hp Hx). cbn [mbind result_bind].
  rewrite bool_decide_false; [done|]. rewrite Forall_forall in Hd. intros Hin%Hd. unfold is_digit in Hin. lia.
Qed.

Lemma ParseInt_Itoa z : (min_i64 <= z <= max_i64)%Z -> ParseInt (Itoa z) = Ok z.
Proof.
  unfold min_i64, max_i64. intros Hz. unfold ParseInt.
  destruct (Itoa_cases z) as [(x & Hx & ->)|(x & Hx & ->)]; [|cbn [take_sign]];
    pose proof (ParseUint_pretty x ltac:(lia)) as Hu.
  - destruct (pretty_N_spec x) as (Hd & Hne & _). destruct (bytes (pretty x)) as [|b l] eqn:Hb; [done|].
    apply Forall_cons in Hd as [Hd _]. rewrite take_sign_digits, Hu by done. cbn [mbind result_bind negb andb].
    rewrite (proj2 (Z.leb_gt _ _)), wrap_i64_small by (unfold min_i64, max_i64; lia). by rewrite Hx.
  - rewrite Hu. cbn [mbind result_bind negb andb].
    rewrite (proj2 (Z.ltb_ge _ _)), wrap_i64_small by (unfold min_i64, max_i64; lia). by rewrite Hx.
Qed.

Lemma leadingInt_digits u l : forall n v,
  Forall is_digit l -> (forall b u', u = b :: u' -> digit b = false) -> (0 <= n)%Z ->
  parse_digits l n = Some v -> (v <= 2 ^ 63)%Z -> leadingInt (l ++ u) n = Some (v, u).
Proof.
  induction l as [|b l IH]; intros n v Hl Hu Hn Hp Hv.
  { injection Hp as <-. destruct u as [|b u]; [done|]. cbn. by rewrite (Hu b u). }
  apply Forall_cons in Hl as [Hb Hl]. rewrite parse_digits_step in Hp by done.
  assert (Hge : (10 * n + (b - 48) <= v)%Z)
    by (apply (parse_digits_ge l); [done|unfold is_digit in Hb; lia|done]).
  cbn [leadingInt app]. rewrite (proj2 (digit_is_digit b) Hb). unfold is_digit in Hb.
  rewrite (proj2 (Z.ltb_ge _ _)) by lia. rewrite wrap_u64_small, (proj2 (Z.ltb_ge _ _)) by lia.
  apply IH; [done|done|lia| |done]. rewrite <- Hp. f_equal. lia.
Qed.

Section duration_roundtrip.
Context {F : Type} `{Float F} `{FloatTrunc F}.

(** A number of nanoseconds. *)
Lemma duration_parts_ns (x : N) : (Z.of_N x <= 2 ^ 63)%Z ->
  let l := bytes (pretty x) ++ bytes "ns" in duration_parts (length l) l 0 = Ok (Z.of_N x).
Proof.
  intros Hx l. destruct (pretty_N_spec x) as (Hd & Hne & Hp).
  assert (Hlead : leadingInt l 0 = Some (Z.of_N x, bytes "ns")).
  { apply leadingInt_digits; [done| |done..]. intros b u' [= <- _]. reflexivity. }
  assert (Hpart : duration_part l = Ok (Z.of_N x, [])).
  { subst l. destruct (bytes (pretty x)) as [|b l] eqn:Hb; [done|]. apply Forall_cons in Hd as [Hd _].
    cbn [app] in Hlead |- *. unfold duration_part. rewrite (proj2 (digit_is_digit b) Hd), orb_true_r, Hlead.
    cbn [length]. rewrite length_app. rewrite (proj2 (Nat.eqb_neq _ _)) by (cbn; lia).
    change (bytes "ns") with [110; 115]%Z. revert Hx. generalize (Z.of_N x). intros v Hv.
    cbn -[unitMap Z.div]. change (unitMap [110; 115]%Z) with (Some 1%Z). cbn -[Z.div].
    rewrite Z.div_1_r, (proj2 (Z.ltb_ge _ _)), Z.mul_1_r by done. done. }
  assert (Hlen : exists k, length l = S k) by (subst l; rewrite length_app; exists (S (length (bytes (pretty x)))); cbn; lia).
  destruct Hlen as [k ->]. destruct l as [|b l]; [done|]. cbn [duration_parts]. rewrite Hpart. cbn [mbind result_bind].
  rewrite wrap_u64_small, (proj2 (Z.ltb_ge _ _)) by lia. by destruct k.
Qed.

Lemma ParseDuration_ns d : (min_i64 <= d <= max_i64)%Z -> ParseDuration (Itoa d +:+ "ns") = Ok d.
Proof.
  unfold min_i64, max_i64. intros Hz. unfold ParseDuration. rewrite bytes_app.
  assert (Hlong : forall x : N, bytes (pretty x) ++ bytes "ns" <> bytes "0" /\ bytes (pretty x) ++ bytes "ns" <> []).
  { intros x. split; [|by destruct (bytes (pretty x))]. intros Heq%(f_equal length). rewrite length_app in Heq. cbn in Heq. lia. }
  destruct (Itoa_cases d) as [(x & Hx & ->)|(x & Hx & ->)]; [|cbn [take_sign app]];
    pose proof (duration_parts_ns x ltac:(lia)) as Hu; cbv zeta in Hu.
  - destruct (pretty_N_spec x) as (Hd & Hne & _). destruct (Hlong x) as [H1 H2].
    destruct (bytes (pretty x)) as [|b l] eqn:Hb; [done|].
    apply Forall_cons in Hd as [Hd _]. cbn [app] in *. rewrite take_sign_digits by done.
    rewrite !bool_decide_false, Hu by done. cbn [mbind result_bind]. rewrite (proj2 (Z.ltb_ge _ _)) by lia. by rewrite Hx.
  - destruct (Hlong x) as [H1 H2]. rewrite !bool_decide_false, Hu by done. cbn [mbind result_bind].
    rewrite wrap_i64_small by (unfold min_i64, max_i64; lia). by rewrite Hx.
Qed.

End duration_roundtrip.

(** A flag with its value after an equals sign, or in the next argument. *)
Lemma Parse_flag {C} formal arg name value set args (c c' : C) :
  read_argument arg = Flag name (Some value) -> formal name = Some set -> set value c = Ok c' ->
  Parse formal (arg :: args) c = Parse formal args c'.
Proof. intros Ha Hf Hs. cbn [Parse]. unfold parse_value. by rewrite Ha, Hf, Hs. Qed.

Lemma Parse_flag_next {C} formal arg name value set args (c c' : C) :
  read_argument arg = Flag name None -> formal name = Some set -> set value c = Ok c' ->
  Parse formal (arg :: value :: args) c = Parse formal args c'.
Proof. intros Ha Hf Hs. cbn [Parse]. unfold parse_value. by rewrite Ha, Hf, Hs. Qed.

(** What every Set method preserves, the settings of a parsed command line have. *)
Lemma Parse_invariant {C} (P : C -> Prop) formal :
  (forall name set value c c', formal name = Some set -> set value c = Ok c' -> P c -> P c') ->
  forall args c, P c -> match Parse formal args c with Parsed c' _ => P c' | _ => True end.
Proof.
  intros Hset args. remember (length args) as n eqn:Hn. revert args Hn.
  induction (lt_wf n) as [n _ IH]. intros args -> c Hc. destruct args as [|s args]; [done|]. cbn [Parse].
  destruct (read_argument s) as [| | |name value]; [done..|].
  destruct (formal name) as [set|] eqn:Hf; [|by case_bool_decide].
  unfold parse_value. destruct value as [value|]; [|destruct args as [|value args]; [done|]];
    (destruct (set value c) as [c'|] eqn:Hs; [|done]); (eapply IH; [|reflexivity|by eapply Hset]); cbn; lia.
Qed.
