(* ===== verification/Bus.v ===== *)
(** * The message bus interface (internal/bus/bus.go)

    The Go interfaces as type classes: [Readiness] and [RoomOwnership] are what a
    bus offers to the HTTP server and to the route publisher.  The laws of
    [RoomOwnershipLaws] are the promises of the interface's comments; the clients
    are verified against them and KafkaBus discharges them (file Kafka). *)

From S2P Require Import Prelude.

(** The context a blocking call watches: [ctx.Err()], nil while it lives. *)
Definition Canceled : sentinel := mkSentinel "context" "Canceled".
Definition DeadlineExceeded : sentinel := mkSentinel "context" "DeadlineExceeded".

Definition ErrNilHandler : sentinel := mkSentinel "bus" "ErrNilHandler".

(** [ConsumerReady] is a field read; [Check] talks to the infrastructure, whose
    answer [net] is an argument. *)
Class Readiness (B : Type) := {
  ConsumerReady : B -> bool;
  Check : B -> option error -> option error;
}.

Class RoomOwnership (B : Type) := {
  PartitionForRoom : B -> string -> option Z;
  OwnsRoom : B -> string -> bool;
  AssignedPartitions : B -> list Z;
  OwnershipRevision : B -> Z;
}.

Class RoomOwnershipLaws (B : Type) `{RoomOwnership B} := {
  (** A room is owned when its partition is one of the assigned ones. *)
  OwnsRoom_iff : forall b room, OwnsRoom b room = true <->
    exists p, PartitionForRoom b room = Some p /\ p ∈ AssignedPartitions b;
  (** The snapshot is ordered and has no repetition. *)
  AssignedPartitions_sorted : forall b, StronglySorted Z.lt (AssignedPartitions b);
}.
