(* ===== verification/InMemory.v ===== *)
(** * The in-memory bus (internal/bus/inmemory.go)

    A bounded channel and an atomic flag that admits one consumer.  [Publish] and
    one turn of the [Consume] loop are select statements: each returns the list
    of its possible results, the empty list when it blocks.  The context argument
    is [ctx.Err()] at the time of the select, nil while the context lives. *)

From S2P Require Import Prelude.
From S2P Require Import GoChan.
From S2P Require Import Message.
From S2P Require Import Bus.

Module InMemory.

Definition ErrInvalidBuffer : sentinel := mkSentinel "bus" "ErrInvalidBuffer".
Definition ErrConsumerAlreadyRunning : sentinel := mkSentinel "bus" "ErrConsumerAlreadyRunning".

Record InMemoryBus := mkBus { messages : chan Danmaku; consuming : bool }.

Definition NewInMemory (bufferSize : Z) : result InMemoryBus :=
  if (bufferSize <=? 0)%Z then Err ErrInvalidBuffer
  else Ok (mkBus (make_chan (Z.to_nat bufferSize)) false).

Definition Publish (ctx : option error) (msg : Danmaku) (b : InMemoryBus)
  : list (outcome (option error * InMemoryBus)) :=
  select [
    (sent ← send (messages b) msg;
     Some (c ← sent; Returns (None, mkBus c (consuming b))));
    (err ← ctx; Some (Returns (Some err, b)))
  ].

(** The entry of [Consume]: the nil check and the compare-and-swap.  [Some err]
    is returned to the caller; [None]: the loop starts. *)
Definition consume_enter (handler_is_nil : bool) (b : InMemoryBus) : option error * InMemoryBus :=
  if handler_is_nil then (Some (Sentinel ErrNilHandler), b)
  else if consuming b then (Some (Sentinel ErrConsumerAlreadyRunning), b)
  else (None, mkBus (messages b) true).

(** The select of the loop. *)
Inductive turn := Cancelled (err : error) | Received (msg : option Danmaku).
Definition consume_select (ctx : option error) (b : InMemoryBus) : list (turn * InMemoryBus) :=
  select [
    (err ← ctx; Some (Cancelled err, b));
    ('(v, c) ← recv (messages b); Some (Received v, mkBus c (consuming b)))
  ].

(** The deferred [consuming.Store(false)]. *)
Definition consume_exit (b : InMemoryBus) : InMemoryBus := mkBus (messages b) false.

#[export] Instance InMemoryBus_readiness : Readiness InMemoryBus := {|
  ConsumerReady _ := true;
  Check _ _ := None;
|}.

(** ** Concurrent callers

    Producers call [Publish]; every call of [Consume] is a thread, waiting at the
    select or running its handler.  The histories [published] and [handed] record
    the accepted messages and the messages given to a handler. *)
Inductive consumer := Selecting | Handling (msg : Danmaku).

Record sys := mkSys {
  bus : InMemoryBus;
  threads : gmap nat consumer;
  published : list Danmaku;
  handed : list Danmaku;
}.

Inductive step (s : sys) : sys -> Prop :=
  | step_publish ctx msg b' :
      Returns (None, b') ∈ Publish ctx msg (bus s) ->
      step s (mkSys b' (threads s) (published s ++ [msg]) (handed s))
  | step_publish_cancelled ctx msg err b' :
      Returns (Some err, b') ∈ Publish ctx msg (bus s) ->
      step s (mkSys b' (threads s) (published s) (handed s))
  | step_enter t nil b' :
      threads s !! t = None -> consume_enter nil (bus s) = (None, b') ->
      step s (mkSys b' (<[t := Selecting]> (threads s)) (published s) (handed s))
  | step_refused t nil err b' :
      threads s !! t = None -> consume_enter nil (bus s) = (Some err, b') ->
      step s (mkSys b' (threads s) (published s) (handed s))
  | step_receive t ctx msg b' :
      threads s !! t = Some Selecting -> (Received (Some msg), b') ∈ consume_select ctx (bus s) ->
      step s (mkSys b' (<[t := Handling msg]> (threads s)) (published s) (handed s ++ [msg]))
  | step_cancelled t ctx err b' :
      threads s !! t = Some Selecting -> (Cancelled err, b') ∈ consume_select ctx (bus s) ->
      step s (mkSys (consume_exit b') (delete t (threads s)) (published s) (handed s))
  | step_handled t msg :
      threads s !! t = Some (Handling msg) ->
      step s (mkSys (bus s) (<[t := Selecting]> (threads s)) (published s) (handed s))
  | step_failed t msg :
      threads s !! t = Some (Handling msg) ->
      step s (mkSys (consume_exit (bus s)) (delete t (threads s)) (published s) (handed s)).

Inductive reachable (n : Z) : sys -> Prop :=
  | reachable_init b : NewInMemory n = Ok b -> reachable n (mkSys b ∅ [] [])
  | reachable_step s s' : reachable n s -> step s s' -> reachable n s'.

Record bus_inv (n : Z) (s : sys) : Prop := {
  inv_open : closed (messages (bus s)) = false;
  inv_cap : cap (messages (bus s)) = Z.to_nat n;
  inv_bound : chan_ok (messages (bus s));
  inv_fifo : published s = handed s ++ buf (messages (bus s));
  inv_one : if consuming (bus s) then exists t c, threads s = {[ t := c ]} else threads s = ∅;
}.

(** ** Lemmas *)

Lemma bus_Publish_cases ctx msg b r :
  closed (messages b) = false ->
  r ∈ Publish ctx msg b <->
    (full (messages b) = false /\
     r = Returns (None, mkBus (mkChan (cap (messages b)) (buf (messages b) ++ [msg]) false)
                              (consuming b))) \/
    (exists err, ctx = Some err /\ r = Returns (Some err, b)).
Proof.
  intros Ho. unfold Publish. rewrite elem_of_select, elem_of_two, send_open by done.
  destruct (full (messages b)), ctx; simpl; naive_solver.
Qed.

Lemma consume_select_cases ctx b r :
  closed (messages b) = false ->
  r ∈ consume_select ctx b <->
    (exists err, ctx = Some err /\ r = (Cancelled err, b)) \/
    (exists msg rest, buf (messages b) = msg :: rest /\
       r = (Received (Some msg), mkBus (mkChan (cap (messages b)) rest false) (consuming b))).
Proof.
  intros Ho. unfold consume_select. rewrite elem_of_select, elem_of_two. unfold recv. rewrite Ho.
  destruct ctx, (buf (messages b)); simpl; naive_solver.
Qed.

Lemma bus_step_inv n s s' : bus_inv n s -> step s s' -> bus_inv n s'.
Proof.
  intros [Ho Hc Hb Hf H1] Hs. destruct Hs as
    [ctx msg b' HP|ctx msg err b' HP|t nil b' Ht He|t nil err b' Ht He
    |t ctx msg b' Ht HC|t ctx err b' Ht HC|t msg Ht|t msg Ht].
  - apply bus_Publish_cases in HP as [[Hfull [= ->]]|(err & _ & [=])]; [|done].
    constructor; simpl; try done.
    + unfold full in Hfull. apply bool_decide_eq_false in Hfull.
      unfold chan_ok. simpl. rewrite length_app. simpl. lia.
    + by rewrite Hf, app_assoc.
  - apply bus_Publish_cases in HP as [[_ [=]]|(? & _ & [= _ ->])]; done.
  - unfold consume_enter in He. destruct nil; [done|].
    destruct (consuming (bus s)) eqn:E; simplify_eq. constructor; simpl; try done.
    rewrite H1. by exists t, Selecting.
  - unfold consume_enter in He.
    destruct nil; [by simplify_eq|]. destruct (consuming (bus s)) eqn:E; simplify_eq.
    constructor; simpl; try done. by rewrite E.
  - apply consume_select_cases in HC as [(? & _ & [=])|(m & rest & Hbuf & [= -> ->])]; [|done].
    constructor; simpl; try done.
    + unfold chan_ok in *. rewrite Hbuf in Hb. simpl in *. lia.
    + by rewrite Hf, Hbuf, <- app_assoc.
    + destruct (consuming (bus s)); [|by rewrite H1 in Ht].
      destruct H1 as (t0 & c & Heq). rewrite Heq in *.
      apply lookup_singleton_Some in Ht as [-> _]. exists t, (Handling m).
      by rewrite insert_singleton_eq.
  - apply consume_select_cases in HC as [(? & _ & [= _ ->])|(m & rest & _ & [=])]; [|done].
    constructor; simpl; try done.
    destruct (consuming (bus s)); [|by rewrite H1 in Ht].
    destruct H1 as (t0 & c & Heq). rewrite Heq in *.
    apply lookup_singleton_Some in Ht as [-> _]. by rewrite delete_singleton_eq.
  - constructor; simpl; try done.
    destruct (consuming (bus s)); [|by rewrite H1 in Ht].
    destruct H1 as (t0 & c & Heq). rewrite Heq in *.
    apply lookup_singleton_Some in Ht as [-> _]. exists t, Selecting.
    by rewrite insert_singleton_eq.
  - constructor; simpl; try done.
    destruct (consuming (bus s)); [|by rewrite H1 in Ht].
    destruct H1 as (t0 & c & Heq). rewrite Heq in *.
    apply lookup_singleton_Some in Ht as [-> _]. by rewrite delete_singleton_eq.
Qed.

Lemma bus_reachable_inv n s : reachable n s -> bus_inv n s.
Proof.
  induction 1 as [b Hb|s s' _ IH Hs]; [|by eapply bus_step_inv].
  unfold NewInMemory in Hb. destruct (n <=? 0)%Z; simplify_eq. constructor; simpl; try done.
  apply make_chan_ok.
Qed.

(** A small run: two messages go in, a consumer takes the first. *)
Definition msg1 : Danmaku := mkDanmaku "m1" "room" "u" "hello" 0 1%Z.
Definition msg2 : Danmaku := mkDanmaku "m2" "room" "u" "again" 0 1%Z.
Definition demo : sys :=
  mkSys (mkBus (mkChan 2 [msg2] false) true) {[ 7 := Handling msg1 ]} [msg1; msg2] [msg1].

Lemma demo_reachable : reachable 2 demo.
Proof.
  eapply (reachable_step 2 (mkSys (mkBus (mkChan 2 [msg1; msg2] false) true) {[ 7 := Selecting ]}
                              [msg1; msg2] [])).
  2: { refine (step_receive (mkSys _ _ _ _) 7 None msg1 (mkBus (mkChan 2 [msg2] false) true) _ _);
       [done|]. by vm_compute; left. }
  eapply (reachable_step 2 (mkSys (mkBus (mkChan 2 [msg1; msg2] false) false) ∅ [msg1; msg2] [])).
  2: { by refine (step_enter (mkSys _ _ _ _) 7 false _ _ _). }
  eapply (reachable_step 2 (mkSys (mkBus (mkChan 2 [msg1] false) false) ∅ [msg1] [])).
  2: { refine (step_publish (mkSys _ _ _ _) None msg2 _ _). by vm_compute; left. }
  eapply (reachable_step 2 (mkSys (mkBus (make_chan 2) false) ∅ [] [])).
  2: { refine (step_publish (mkSys _ _ _ _) None msg1 _ _). by vm_compute; left. }
  by constructor.
Qed.

(** * Properties *)

(** C34: whatever the interleaving of publishers and of [Consume] calls, the
    messages handed to handlers followed by those still queued are exactly the
    messages accepted, in the order they were accepted: none is lost, duplicated
    or reordered before its hand-off; at most the configured number is queued; at
    most one [Consume] loop runs, and while it runs any other call is refused. *)
Theorem fifo_single_consumer n s :
  reachable n s ->
  published s = handed s ++ buf (messages (bus s)) /\
  (Z.of_nat (length (buf (messages (bus s)))) <= n)%Z /\
  (forall t1 t2 c1 c2, threads s !! t1 = Some c1 -> threads s !! t2 = Some c2 -> t1 = t2) /\
  (threads s <> ∅ ->
     consume_enter false (bus s) = (Some (Sentinel ErrConsumerAlreadyRunning), bus s)).
Proof.
  intros Hr. assert (0 < n)%Z as Hn.
  { induction Hr as [b Hb|]; [|done]. unfold NewInMemory in Hb. by destruct (Z.leb_spec n 0). }
  destruct (bus_reachable_inv n s Hr) as [Ho Hc Hb Hf H1].
  split_and!; [done|unfold chan_ok in Hb; lia| |].
  - intros t1 t2 c1 c2 Ht1 Ht2. destruct (consuming (bus s)).
    + destruct H1 as (t & c & Heq). rewrite Heq in *.
      apply lookup_singleton_Some in Ht1 as [<- _]. by apply lookup_singleton_Some in Ht2 as [<- _].
    + by rewrite H1 in Ht1.
  - intros Hne. unfold consume_enter. by destruct (consuming (bus s)).
Qed.

Lemma fifo_single_consumer_witness :
  reachable 2 demo /\ published demo = handed demo ++ [msg2] /\
  consume_enter false (bus demo) = (Some (Sentinel ErrConsumerAlreadyRunning), bus demo).
Proof.
  split; [exact demo_reachable|].
  split; [exact (proj1 (fifo_single_consumer 2 demo demo_reachable))|].
  apply (fifo_single_consumer 2 demo demo_reachable). vm_compute. discriminate.
Defined.

(** [Publish] neither drops a message nor overfills the queue: it returns nil
    only by appending the message at the tail of a queue that had room, returns
    an error only when the context has ended, and then leaves the bus unchanged;
    it blocks exactly when the queue is full and the context is alive. *)
Theorem Publish_backpressure n s ctx msg :
  reachable n s ->
  (forall r, r ∈ Publish ctx msg (bus s) ->
     (exists c, r = Returns (None, mkBus c (consuming (bus s))) /\
        buf c = buf (messages (bus s)) ++ [msg] /\ chan_ok c /\ cap c = Z.to_nat n) \/
     (exists err, ctx = Some err /\ r = Returns (Some err, bus s))) /\
  (Publish ctx msg (bus s) = [] <-> full (messages (bus s)) = true /\ ctx = None).
Proof.
  intros Hr. destruct (bus_reachable_inv n s Hr) as [Ho Hc Hb _ _]. split.
  - intros r [[Hf ->]|Herr]%bus_Publish_cases; [left|by right|done].
    eexists. split_and!; [done|done| |done]. unfold chan_ok, full in *. simpl.
    apply bool_decide_eq_false in Hf. rewrite length_app. simpl. lia.
  - unfold Publish. rewrite send_open by done. destruct (full _), ctx; simpl; naive_solver.
Qed.

Lemma Publish_backpressure_witness :
  Publish None msg1 (mkBus (mkChan 2 [msg1; msg2] false) false) = [].
Proof.
  assert (reachable 2 (mkSys (mkBus (mkChan 2 [msg1; msg2] false) false) ∅ [msg1; msg2] [])) as Hr.
  { eapply (reachable_step 2 (mkSys (mkBus (mkChan 2 [msg1] false) false) ∅ [msg1] [])).
    - eapply (reachable_step 2 (mkSys (mkBus (make_chan 2) false) ∅ [] [])).
      + by constructor.
      + refine (step_publish (mkSys _ _ _ _) None msg1 _ _). vm_compute. left.
    - refine (step_publish (mkSys _ _ _ _) None msg2 _ _). vm_compute. left. }
  apply (Publish_backpressure 2 _ None msg1 Hr). split; reflexivity.
Defined.

End InMemory.
