(* ===== verification/Kafka.v ===== *)
(** * The Kafka bus: configuration, publishing, partition ownership
    (internal/bus/kafka.go, all but the consumer loops)

    kafka-go is not part of the repository.  Its hash balancer is the class
    [KafkaHash]; the writer, the metadata lookups and the consumer group answer
    through arguments of the definitions that call them.  A method's receiver may
    be the nil pointer: [option KafkaBus].  The fields guarded by [ownershipMu]
    change in one step each. *)

From S2P Require Import Prelude.
From S2P Require Import Utf8.
From S2P Require Import GoStrings.
From S2P Require Import Message.
From S2P Require Import Bus.

Module Kafka.

Definition ErrInvalidKafkaConfig : sentinel := mkSentinel "bus" "ErrInvalidKafkaConfig".
Definition ErrKafkaBusClosed : sentinel := mkSentinel "bus" "ErrKafkaBusClosed".

Definition consumerGroupJoinTimeout : duration := (5 * Second)%Z.
Definition consumerGroupRequestTimeout : duration := (3 * Second)%Z.
Definition consumerGroupRebalanceTimeout : duration := (5 * Second)%Z.
Definition consumerGroupSessionTimeout : duration := (10 * Second)%Z.
Definition consumerGroupJoinBackoff : duration := (100 * Millisecond)%Z.

(** kafka-go: the balancer of producer and gateway, its error values, the
    records and the assignments of a generation. *)
Class KafkaHash := { Balance : string -> list Z -> Z }.
Class KafkaHashLaws `{KafkaHash} := {
  (** The balancer routes to one of the partitions it is offered. *)
  Balance_available : forall key ps, ps <> [] -> Balance key ps ∈ ps;
}.
Definition UnknownMemberId : sentinel := mkSentinel "kafka" "UnknownMemberId".
Definition IllegalGeneration : sentinel := mkSentinel "kafka" "IllegalGeneration".
Definition RebalanceInProgress : sentinel := mkSentinel "kafka" "RebalanceInProgress".
Definition ErrGenerationEnded : sentinel := mkSentinel "kafka" "ErrGenerationEnded".

Record KafkaMessage := mkKafkaMessage {
  Topic : string; Partition : Z; Offset : Z; Key : string; Value : string;
}.
Record PartitionAssignment := mkAssignment { a_ID : Z; a_Offset : Z }.

Record KafkaConfig := mkKafkaConfig { Brokers : list string; c_Topic : string; GroupID : string }.

Inductive RequiredAcks := RequireNone | RequireOne | RequireAll.
Record Writer := mkWriter {
  Addr : list string; w_Topic : string; Acks : RequiredAcks; BatchTimeout : duration;
}.

(** [partitioner] tells whether the field is set; groups are identities. *)
Record KafkaBus := mkKafkaBus {
  writer : option Writer;
  partitioner : bool;
  config : KafkaConfig;
  activeGroup : option nat;
  consumerReady : bool;
  topicPartitions : list Z;
  assignedPartition : gset Z;
  ownershipRevision : Z;
  closed_once : bool;
  closeErr : option error;
}.

Definition NewKafka (config : KafkaConfig) : result KafkaBus :=
  if bool_decide (Brokers config = []) || bool_decide (c_Topic config = ""%string)
     || bool_decide (GroupID config = ""%string)
  then Err ErrInvalidKafkaConfig
  else if existsb is_blank (Brokers config) then Err ErrInvalidKafkaConfig
  else Ok (mkKafkaBus
    (Some (mkWriter (Brokers config) (c_Topic config) RequireOne (10 * Millisecond)%Z))
    true config None false [] ∅ 0 false None).

(** [Publish]: [zone] is the offset of the location of the message's time, [write] the
    writer's WriteMessages, with key and value, under the caller's context. *)
Definition Publish (zone : Z) (write : string -> string -> option error)
  (b : option KafkaBus) (msg : Danmaku) : option error :=
  match b ≫= writer with
  | None => Some (Sentinel ErrKafkaBusClosed)
  | Some _ =>
    match MarshalDanmaku zone msg with
    | Err err => Some err
    | Ok value => write (RoomID msg) value
    end
  end.

Definition isConsumerGroupTransition (err : error) : bool :=
  errors_Is err UnknownMemberId || errors_Is err IllegalGeneration
  || errors_Is err RebalanceInProgress.

(** ** Topic metadata *)

(** One broker's answer: an error, or the partitions with their own errors. *)
Definition lookup_answer := result (list (Z * option error)).

Definition broker_error (broker : string) (err : error) : error := Wrap ("broker " +:+ broker) err.
Definition partition_error (broker topic : string) (id : Z) (err : error) : error :=
  Wrap ("broker " +:+ broker +:+ " topic " +:+ topic +:+ " partition " +:+ Itoa id) err.
Definition no_partitions_error (broker topic : string) : error :=
  Errorf ("broker " +:+ broker +:+ " topic " +:+ topic +:+ " has no partitions").

(** The inner loop: the identifiers, or the error of the first bad partition. *)
Fixpoint partition_ids (broker topic : string) (ps : list (Z * option error)) (ids : list Z)
  : list Z * list error :=
  match ps with
  | [] => (ids, [])
  | (id, Some err) :: _ => ([], [partition_error broker topic id err])
  | (id, None) :: rest => partition_ids broker topic rest (ids ++ [id])
  end.

Definition sort_ints (l : list Z) : list Z := merge_sort Z.le l.

(** [lookupTopicPartitions]: [lookup i broker] is what kafka.LookupPartitions
    answers at the i-th attempt; [ctx_done i] tells whether the context has ended
    after that answer. *)
Fixpoint lookup_loop (lookup : nat -> string -> lookup_answer) (ctx_done : nat -> bool)
  (topic : string) (i : nat) (brokers : list string) (errs : list error) : result (list Z) :=
  match brokers with
  | [] => Err (Wrap "lookup Kafka topic partitions" (Joined errs))
  | broker :: rest =>
    match lookup i broker with
    | Err err =>
      let errs := errs ++ [broker_error broker err] in
      if ctx_done i then Err (Wrap "lookup Kafka topic partitions" (Joined errs))
      else lookup_loop lookup ctx_done topic (S i) rest errs
    | Ok partitions =>
      let '(ids, bad) := partition_ids broker topic partitions [] in
      if bool_decide (ids = []) then
        lookup_loop lookup ctx_done topic (S i) rest
          (errs ++ bad ++ (if bool_decide (partitions = []) then [no_partitions_error broker topic] else []))
      else Ok (sort_ints ids)
    end
  end.
Definition lookupTopicPartitions (lookup : nat -> string -> lookup_answer) (ctx_done : nat -> bool)
  (b : KafkaBus) : result (list Z) :=
  lookup_loop lookup ctx_done (c_Topic (config b)) 0 (Brokers (config b)) [].

(** ** Ownership *)

Definition set_ownership (ps : list Z) (assigned : gset Z) (b : KafkaBus) : KafkaBus :=
  mkKafkaBus (writer b) (partitioner b) (config b) (activeGroup b) (consumerReady b)
    ps assigned (wrap_u64 (ownershipRevision b + 1)) (closed_once b) (closeErr b).
Definition set_ready (ready : bool) (b : KafkaBus) : KafkaBus :=
  mkKafkaBus (writer b) (partitioner b) (config b) (activeGroup b) ready
    (topicPartitions b) (assignedPartition b) (ownershipRevision b) (closed_once b) (closeErr b).
Definition set_group (group : option nat) (b : KafkaBus) : KafkaBus :=
  mkKafkaBus (writer b) (partitioner b) (config b) group (consumerReady b)
    (topicPartitions b) (assignedPartition b) (ownershipRevision b) (closed_once b) (closeErr b).
Definition set_closed (err : option error) (b : KafkaBus) : KafkaBus :=
  mkKafkaBus (writer b) (partitioner b) (config b) (activeGroup b) (consumerReady b)
    (topicPartitions b) (assignedPartition b) (ownershipRevision b) true err.

Definition missing_error (id : Z) : error :=
  Errorf ("assigned Kafka partition " +:+ Itoa id +:+ " is missing from topic metadata").

(** The loop over the assignments. *)
Fixpoint collect_assigned (available : gset Z) (assignments : list PartitionAssignment)
  (assigned : gset Z) : result (gset Z) :=
  match assignments with
  | [] => Ok assigned
  | assignment :: rest =>
    if bool_decide (a_ID assignment ∈ available)
    then collect_assigned available rest ({[ a_ID assignment ]} ∪ assigned)
    else Err (missing_error (a_ID assignment))
  end.

Definition setPartitionOwnership (partitions : list Z) (assignments : list PartitionAssignment)
  (b : KafkaBus) : option error * KafkaBus :=
  match collect_assigned (list_to_set partitions) assignments ∅ with
  | Err err => (Some err, b)
  | Ok assigned => (None, set_ownership partitions assigned b)
  end.

Definition clearAssignedPartitions (b : KafkaBus) : KafkaBus :=
  set_ownership (topicPartitions b) ∅ b.

Definition partitionForRoomLocked `{KafkaHash} (roomID : string) (b : KafkaBus) : option Z :=
  if bool_decide (topicPartitions b = []) then None
  else
    let partition := Balance roomID (topicPartitions b) in
    if existsb (Z.eqb partition) (topicPartitions b) then Some partition else None.

Definition PartitionForRoom `{KafkaHash} (roomID : string) (b : option KafkaBus) : option Z :=
  match b with
  | None => None
  | Some b => if negb (partitioner b) || is_blank roomID then None
              else partitionForRoomLocked roomID b
  end.

Definition OwnsRoom `{KafkaHash} (roomID : string) (b : option KafkaBus) : bool :=
  match b with
  | None => false
  | Some b =>
    if negb (partitioner b) || is_blank roomID then false
    else match partitionForRoomLocked roomID b with
         | None => false
         | Some partition => bool_decide (partition ∈ assignedPartition b)
         end
  end.

Definition AssignedPartitions (b : option KafkaBus) : list Z :=
  match b with None => [] | Some b => sort_ints (elements (assignedPartition b)) end.

Definition OwnershipRevision (b : option KafkaBus) : Z :=
  match b with None => 0%Z | Some b => ownershipRevision b end.

Definition ConsumerReady (b : option KafkaBus) : bool :=
  match b with None => false | Some b => consumerReady b end.

(** [Check]: [dial] is the error of connecting to the first broker and closing. *)
Definition Check (dial : string -> option error) (b : option KafkaBus) : option error :=
  match b with
  | None => Some (Sentinel ErrKafkaBusClosed)
  | Some b => match Brokers (config b) with
              | [] => Some (Sentinel ErrKafkaBusClosed)
              | broker :: _ => dial broker
              end
  end.

Definition setActiveGroup (group : nat) (b : KafkaBus) : KafkaBus := set_group (Some group) b.
Definition clearActiveGroup (group : nat) (b : KafkaBus) : KafkaBus :=
  if bool_decide (activeGroup b = Some group) then set_group None b else b.

(** [Close]: [close_group] and [close_writer] are the results of closing the
    kafka-go objects. *)
Definition Close (close_group : nat -> option error) (close_writer : option error)
  (b : option KafkaBus) : option error * option KafkaBus :=
  match b with
  | None => (None, None)
  | Some b =>
    if closed_once b then (closeErr b, Some b)
    else
      let b := clearAssignedPartitions (set_ready false b) in
      let groupErr := activeGroup b ≫= close_group in
      let b := set_closed (errors_Join [close_writer; groupErr]) b in
      (closeErr b, Some b)
  end.

(** ** Topic metadata: properties *)

(** A broker's answer the gateway can use: some partitions, none in error. *)
Definition usable (ps : list (Z * option error)) : Prop := ps <> [] /\ Forall (fun p => snd p = None) ps.

(** An attempt that makes [lookup_loop] go on to the next broker. *)
Definition passed_over (lookup : nat -> string -> lookup_answer) (ctx_done : nat -> bool)
  (i : nat) (broker : string) : Prop :=
  match lookup i broker with
  | Err _ => ctx_done i = false
  | Ok ps => ~ usable ps
  end.

Lemma partition_ids_spec broker topic ps : forall ids,
  (Forall (fun p => snd p = None) ps /\ partition_ids broker topic ps ids = (ids ++ (fst <$> ps), [])) \/
  (~ Forall (fun p => snd p = None) ps /\ (partition_ids broker topic ps ids).1 = []).
Proof.
  induction ps as [|[id [err|]] ps IH]; intros ids; cbn.
  - left. by rewrite app_nil_r.
  - right. split; [|done]. rewrite Forall_cons. by intros [? _].
  - destruct (IH (ids ++ [id])) as [[H1 H2]|[H1 H2]].
    + left. rewrite Forall_cons. split; [done|]. rewrite H2, <- app_assoc. done.
    + right. rewrite Forall_cons. naive_solver.
Qed.

(** What one answer leads to: its sorted identifiers when it is usable. *)
Lemma partition_ids_usable broker topic ps :
  (usable ps /\ partition_ids broker topic ps [] = (fst <$> ps, []) /\ fst <$> ps <> []) \/
  (~ usable ps /\ (partition_ids broker topic ps []).1 = []).
Proof.
  unfold usable. destruct (partition_ids_spec broker topic ps []) as [[H1 H2]|[H1 H2]].
  - destruct ps as [|p ps]; [right; naive_solver|].
    left. split; [done|]. split; [done|]. done.
  - right. naive_solver.
Qed.

Lemma lookup_loop_spec lookup ctx_done topic brokers : forall i errs ids,
  lookup_loop lookup ctx_done topic i brokers errs = Ok ids <->
  exists k broker ps, brokers !! k = Some broker /\ lookup (i + k) broker = Ok ps /\ usable ps /\
    ids = sort_ints (fst <$> ps) /\
    forall j broker', j < k -> brokers !! j = Some broker' -> passed_over lookup ctx_done (i + j) broker'.
Proof.
  induction brokers as [|broker brokers IH]; intros i errs ids; cbn [lookup_loop].
  { split; [done|]. by intros (k & ? & ? & ? & _). }
  assert (Hnext : passed_over lookup ctx_done i broker ->
    (forall ps, lookup i broker = Ok ps -> ~ usable ps) -> forall errs',
    lookup_loop lookup ctx_done topic (S i) brokers errs' = Ok ids <->
    exists k b ps, (broker :: brokers) !! k = Some b /\ lookup (i + k) b = Ok ps /\ usable ps /\
      ids = sort_ints (fst <$> ps) /\
      forall j b', j < k -> (broker :: brokers) !! j = Some b' -> passed_over lookup ctx_done (i + j) b').
  { intros Hpass Hno errs'. rewrite IH. split.
    - intros (k & b & ps & ? & Hl & ? & ? & Hall). exists (S k), b, ps.
      rewrite Nat.add_succ_r. split_and!; try done.
      intros [|j] b' Hj Hb; cbn in Hb; simplify_eq/=; [by rewrite Nat.add_0_r|].
      rewrite Nat.add_succ_r. apply (Hall j); [lia|done].
    - intros ([|k] & b & ps & Hb & Hl & Hu & ? & Hall); cbn in Hb; simplify_eq/=.
      { rewrite Nat.add_0_r in Hl. by destruct (Hno ps Hl). }
      exists k, b, ps. rewrite Nat.add_succ_r in Hl. split_and!; try done.
      intros j b' Hj Hb'. specialize (Hall (S j) b' ltac:(lia) Hb').
      by rewrite Nat.add_succ_r in Hall. }
  destruct (lookup i broker) as [answer|err] eqn:Hl.
  - destruct (partition_ids_usable broker topic answer) as [(Hu & -> & Hne)|[Hu Hp]].
    + rewrite bool_decide_false by done. split.
      * intros [= <-]. exists 0, broker, answer. rewrite Nat.add_0_r. split_and!; try done. intros. lia.
      * intros ([|k] & b & ps & Hb & Hl' & ? & -> & Hall); cbn in Hb; simplify_eq/=.
        { rewrite Nat.add_0_r in Hl'. congruence. }
        exfalso. specialize (Hall 0 broker ltac:(lia) eq_refl). unfold passed_over in Hall.
        rewrite Nat.add_0_r, Hl in Hall. done.
    + destruct (partition_ids broker topic answer []) as [l bad]. cbn in Hp. subst l.
      rewrite bool_decide_true by done. apply Hnext; [unfold passed_over; by rewrite Hl|].
      intros ps Hps. congruence.
  - destruct (ctx_done i) eqn:Hc.
    + split; [done|]. intros ([|k] & b & ps & Hb & Hl' & ? & -> & Hall); cbn in Hb; simplify_eq/=.
      { rewrite Nat.add_0_r in Hl'. congruence. }
      exfalso. specialize (Hall 0 broker ltac:(lia) eq_refl). unfold passed_over in Hall.
      rewrite Nat.add_0_r, Hl, Hc in Hall. done.
    + apply Hnext; [unfold passed_over; by rewrite Hl|]. congruence.
Qed.

Lemma sort_ints_perm l : sort_ints l ≡ₚ l.
Proof. apply merge_sort_Permutation. Qed.

Lemma sort_ints_sorted l : StronglySorted Z.le (sort_ints l).
Proof.
  apply Sorted_StronglySorted; [intros x y z; apply Z.le_trans|].
  apply Sorted_merge_sort. intros x y. lia.
Qed.

(** The partitions a gateway installs come from one broker that answered
    without a single partition error, are not empty, sorted, and are exactly that
    broker's partitions; it is the first usable answer, and every broker before it
    failed while the context was alive or gave an unusable answer. *)
Theorem lookupTopicPartitions_spec lookup ctx_done b ids :
  lookupTopicPartitions lookup ctx_done b = Ok ids <->
  exists k broker ps, Brokers (config b) !! k = Some broker /\ lookup k broker = Ok ps /\ usable ps /\
    (ids ≡ₚ (fst <$> ps)) /\ StronglySorted Z.le ids /\
    forall j broker', j < k -> Brokers (config b) !! j = Some broker' ->
      passed_over lookup ctx_done j broker'.
Proof.
  unfold lookupTopicPartitions. rewrite lookup_loop_spec. cbn [Nat.add].
  split; intros (k & broker & ps & H1 & H2 & H3 & H4).
  - destruct H4 as [-> H5]. exists k, broker, ps. split_and!; try done.
    + apply sort_ints_perm.
    + apply sort_ints_sorted.
  - destruct H4 as (Hp & Hs & H5). exists k, broker, ps. split_and!; try done.
    symmetry. apply (StronglySorted_unique Z.le); [apply sort_ints_sorted|done|].
    by rewrite sort_ints_perm.
Qed.

(** ** Ownership: properties *)

Lemma collect_assigned_spec available assignments : forall assigned,
  match collect_assigned available assignments assigned with
  | Ok r => (forall a, a ∈ assignments -> a_ID a ∈ available) /\
            r = list_to_set (a_ID <$> assignments) ∪ assigned
  | Err err => exists a, a ∈ assignments /\ (a_ID a ∉ available) /\ err = missing_error (a_ID a)
  end.
Proof.
  induction assignments as [|a rest IH]; intros assigned; cbn [collect_assigned].
  { split; [by intros ? ?%elem_of_nil|]. cbn. set_solver. }
  case_bool_decide as Ha.
  - specialize (IH ({[ a_ID a ]} ∪ assigned)).
    destruct (collect_assigned _ _ _).
    + destruct IH as [H1 ->]. split; [set_solver|]. cbn. set_solver.
    + destruct IH as (a' & ? & ? & ->). exists a'. set_solver.
  - exists a. set_solver.
Qed.

Lemma partitionForRoomLocked_elem `{KafkaHash} room b p :
  partitionForRoomLocked room b = Some p ->
  p = Balance room (topicPartitions b) /\ p ∈ topicPartitions b.
Proof.
  unfold partitionForRoomLocked. case_bool_decide; [done|].
  destruct (existsb _ _) eqn:He; [|done]. intros [= <-]. split; [done|].
  apply existsb_exists in He as (q & Hq & ->%Z.eqb_eq). by apply list_elem_of_In.
Qed.

Lemma partitionForRoomLocked_total `{KafkaHashLaws} room b :
  topicPartitions b <> [] ->
  partitionForRoomLocked room b = Some (Balance room (topicPartitions b)).
Proof.
  intros Hne. unfold partitionForRoomLocked. rewrite bool_decide_false by done.
  replace (existsb _ _) with true; [done|]. symmetry. apply existsb_exists.
  exists (Balance room (topicPartitions b)). split; [|by rewrite Z.eqb_refl].
  apply list_elem_of_In. by apply Balance_available.
Qed.

Lemma OwnsRoom_PartitionForRoom `{KafkaHash} room (b : option KafkaBus) :
  OwnsRoom room b = true <->
  exists p b', b = Some b' /\ PartitionForRoom room b = Some p /\ p ∈ assignedPartition b'.
Proof.
  unfold OwnsRoom, PartitionForRoom. destruct b as [b|]; [|naive_solver].
  destruct (negb (partitioner b) || is_blank room); [naive_solver|].
  destruct (partitionForRoomLocked room b) as [p|]; [|naive_solver].
  rewrite bool_decide_eq_true. naive_solver.
Qed.

Lemma elem_of_AssignedPartitions p b :
  p ∈ AssignedPartitions (Some b) <-> p ∈ assignedPartition b.
Proof. cbn. rewrite sort_ints_perm. apply elem_of_elements. Qed.

Lemma StronglySorted_le_lt l : StronglySorted Z.le l -> NoDup l -> StronglySorted Z.lt l.
Proof.
  induction 1 as [|x l Hs IH Hall]; intros Hnd; constructor.
  - apply IH. by apply NoDup_cons in Hnd as [_ ?].
  - apply NoDup_cons in Hnd as [Hx _]. rewrite Forall_forall in Hall |- *.
    intros y Hy. specialize (Hall y Hy). assert (x <> y) by (by intros ->). lia.
Qed.

Lemma AssignedPartitions_strict b : StronglySorted Z.lt (AssignedPartitions b).
Proof.
  destruct b as [b|]; [|constructor]. apply StronglySorted_le_lt; [apply sort_ints_sorted|].
  cbn. rewrite sort_ints_perm. apply NoDup_elements.
Qed.

#[export] Instance kafka_ownership `{KafkaHash} : Bus.RoomOwnership (option KafkaBus) := {
  Bus.PartitionForRoom b room := PartitionForRoom room b;
  Bus.OwnsRoom b room := OwnsRoom room b;
  Bus.AssignedPartitions := AssignedPartitions;
  Bus.OwnershipRevision := OwnershipRevision;
}.

#[export] Instance kafka_ownership_laws `{KafkaHash} : Bus.RoomOwnershipLaws (option KafkaBus).
Proof.
  split.
  - intros b room. cbn. rewrite OwnsRoom_PartitionForRoom. split.
    + intros (p & b' & -> & ? & ?). exists p. by rewrite elem_of_AssignedPartitions.
    + intros (p & Hp & Ha). destruct b as [b|]; [|done].
      exists p, b. by rewrite <- elem_of_AssignedPartitions.
  - intros b. apply AssignedPartitions_strict.
Qed.

#[export] Instance kafka_readiness : Bus.Readiness (option KafkaBus) := {
  Bus.ConsumerReady := ConsumerReady;
  Bus.Check b net := Check (fun _ => net) b;
}.

(** Installing a generation is all or nothing.  It succeeds exactly when every
    assigned partition is in the topic metadata; the bus then holds that metadata,
    owns exactly the assigned partitions and has a new revision.  Otherwise the
    error names an assigned partition that is missing, and the bus is unchanged. *)
Theorem setPartitionOwnership_atomic partitions assignments b :
  match setPartitionOwnership partitions assignments b with
  | (None, b') =>
      (forall a, a ∈ assignments -> a_ID a ∈ partitions) /\
      topicPartitions b' = partitions /\
      (forall p, p ∈ AssignedPartitions (Some b') <-> exists a, a ∈ assignments /\ a_ID a = p) /\
      OwnershipRevision (Some b') = wrap_u64 (OwnershipRevision (Some b) + 1) /\
      ConsumerReady (Some b') = ConsumerReady (Some b)
  | (Some err, b') =>
      b' = b /\ exists a, a ∈ assignments /\ (a_ID a ∉ partitions) /\ err = missing_error (a_ID a)
  end.
Proof.
  unfold setPartitionOwnership.
  pose proof (collect_assigned_spec (list_to_set partitions) assignments ∅) as H.
  destruct (collect_assigned _ _ _) as [r|err]; [|naive_solver set_solver].
  destruct H as [H ->]. split_and!; try done.
  - intros a Ha. specialize (H a Ha). set_solver.
  - intros p. rewrite elem_of_AssignedPartitions. cbn.
    rewrite elem_of_union, elem_of_list_to_set, list_elem_of_fmap. set_solver.
Qed.

(** With metadata installed, every room whose identifier is not blank has a
    partition, one of the topic's, and only the key decides which; blank
    identifiers have none.  Clearing the assignments keeps the partition of every
    room and takes the ownership of all of them. *)
Theorem PartitionForRoom_spec `{KafkaHashLaws} room b :
  partitioner b = true -> topicPartitions b <> [] ->
  PartitionForRoom room (Some b) =
    (if is_blank room then None else Some (Balance room (topicPartitions b))) /\
  (forall p, PartitionForRoom room (Some b) = Some p -> p ∈ topicPartitions b) /\
  PartitionForRoom room (Some (clearAssignedPartitions b)) = PartitionForRoom room (Some b) /\
  OwnsRoom room (Some (clearAssignedPartitions b)) = false.
Proof.
  intros Hp Hne.
  assert (Heq : PartitionForRoom room (Some b) =
    (if is_blank room then None else Some (Balance room (topicPartitions b)))).
  { cbn. rewrite Hp. destruct (is_blank room); [done|]. by apply partitionForRoomLocked_total. }
  split_and!; [done| | |].
  - intros p. rewrite Heq. destruct (is_blank room); [done|]. intros [= <-]. by apply Balance_available.
  - done.
  - apply not_true_is_false. rewrite OwnsRoom_PartitionForRoom.
    intros (p & b' & [= <-] & _ & Hin). cbn in Hin. set_solver.
Qed.

#[local] Instance hash_by_length : KafkaHash :=
  {| Balance key ps := nth (String.length key mod length ps) ps 0%Z |}.
#[local] Instance hash_by_length_laws : KafkaHashLaws.
Proof.
  split. intros key ps Hne. cbn. apply list_elem_of_In, nth_In, Nat.mod_upper_bound.
  by destruct ps.
Qed.

Definition sample_bus : KafkaBus := mkKafkaBus
  (Some (mkWriter ["k:9092"%string] "danmu" RequireOne (10 * Millisecond)%Z)) true
  (mkKafkaConfig ["k:9092"%string] "danmu" "gateways") (Some 1) true [0; 1; 2]%Z {[1]}%Z 4 false None.

Lemma PartitionForRoom_spec_witness :
  PartitionForRoom "room" (Some sample_bus) = Some 1%Z /\
  OwnsRoom "room" (Some sample_bus) = true /\
  OwnsRoom "room" (Some (clearAssignedPartitions sample_bus)) = false.
Proof.
  split; [vm_compute; done|]. split; [vm_compute; done|].
  apply (PartitionForRoom_spec "room" sample_bus); done.
Defined.

(** ** The ownership revision *)

(** Everything the methods do to a bus, one lock section or atomic store each. *)
Inductive bus_op :=
  | OpSetOwnership (partitions : list Z) (assignments : list PartitionAssignment)
  | OpClear
  | OpReady (ready : bool)
  | OpSetGroup (group : nat)
  | OpClearGroup (group : nat)
  | OpClose (close_group : nat -> option error) (close_writer : option error).

(** The bus after an operation, and how often the ownership was written. *)
Definition run_op (op : bus_op) (b : KafkaBus) : KafkaBus * nat :=
  match op with
  | OpSetOwnership partitions assignments =>
      match setPartitionOwnership partitions assignments b with
      | (None, b') => (b', 1)
      | (Some _, b') => (b', 0)
      end
  | OpClear => (clearAssignedPartitions b, 1)
  | OpReady ready => (set_ready ready b, 0)
  | OpSetGroup group => (setActiveGroup group b, 0)
  | OpClearGroup group => (clearActiveGroup group b, 0)
  | OpClose close_group close_writer =>
      (default b (Close close_group close_writer (Some b)).2, if closed_once b then 0 else 1)
  end.

Fixpoint run_ops (ops : list bus_op) (b : KafkaBus) : KafkaBus * nat :=
  match ops with
  | [] => (b, 0)
  | op :: ops => let '(b, n) := run_op op b in let '(b, m) := run_ops ops b in (b, n + m)
  end.

Lemma run_op_revision op b :
  (0 <= ownershipRevision b < 2 ^ 64)%Z ->
  ownershipRevision (run_op op b).1 = wrap_u64 (ownershipRevision b + Z.of_nat (run_op op b).2) /\
  ((run_op op b).2 = 0 -> topicPartitions (run_op op b).1 = topicPartitions b /\
                         assignedPartition (run_op op b).1 = assignedPartition b).
Proof.
  intros Hr.
  assert (H0 : ownershipRevision b = wrap_u64 (ownershipRevision b + 0%Z)).
  { rewrite Z.add_0_r. by rewrite wrap_u64_small. }
  destruct op; cbn -[setPartitionOwnership wrap_u64]; try done.
  - unfold setPartitionOwnership. by destruct (collect_assigned _ _ _).
  - unfold clearActiveGroup. by case_bool_decide.
  - by destruct (closed_once b).
Qed.

Lemma run_ops_revision ops : forall b,
  (0 <= ownershipRevision b < 2 ^ 64)%Z ->
  ownershipRevision (run_ops ops b).1 = wrap_u64 (ownershipRevision b + Z.of_nat (run_ops ops b).2) /\
  ((run_ops ops b).2 = 0 -> topicPartitions (run_ops ops b).1 = topicPartitions b /\
                           assignedPartition (run_ops ops b).1 = assignedPartition b).
Proof.
  induction ops as [|op ops IH]; intros b Hr; cbn [run_ops].
  { cbn. rewrite Z.add_0_r, wrap_u64_small by done. done. }
  pose proof (run_op_revision op b Hr) as [H1 H2].
  destruct (run_op op b) as [b1 n]. cbn [fst snd] in *.
  assert (Hr1 : (0 <= ownershipRevision b1 < 2 ^ 64)%Z) by (rewrite H1; apply wrap_u64_range).
  specialize (IH b1 Hr1) as [H3 H4].
  destruct (run_ops ops b1) as [b2 m]. cbn [fst snd] in *. split.
  - rewrite H3, H1. unfold wrap_u64. rewrite Zplus_mod_idemp_l. f_equal. lia.
  - intros Hz. destruct H2 as [<- <-]; [lia|]. apply H4. lia.
Qed.

Lemma NewKafka_revision config b : NewKafka config = Ok b -> ownershipRevision b = 0%Z.
Proof. unfold NewKafka. intros. by split_cases. Qed.

(** The revision detects every change.  On a bus made by NewKafka, after any
    operations [before], and then any operations [between] that write the ownership
    fewer than 2^64 times: two readings of the revision agree exactly when the
    ownership was not written in between, and then the topic partitions and the
    assignments are the same.  Losing and regaining the same partition is seen. *)
Theorem OwnershipRevision_detects config b0 before between :
  NewKafka config = Ok b0 ->
  let b := (run_ops before b0).1 in
  let '(b', writes) := run_ops between b in
  (Z.of_nat writes < 2 ^ 64)%Z ->
  (OwnershipRevision (Some b') = OwnershipRevision (Some b) <-> writes = 0) /\
  (OwnershipRevision (Some b') = OwnershipRevision (Some b) ->
     topicPartitions b' = topicPartitions b /\
     AssignedPartitions (Some b') = AssignedPartitions (Some b)).
Proof.
  intros Hnew b. destruct (run_ops between b) as [b' n] eqn:Hrun. intros Hn.
  assert (H0 : (0 <= ownershipRevision b0 < 2 ^ 64)%Z) by (rewrite (NewKafka_revision _ _ Hnew); lia).
  assert (Hb : (0 <= ownershipRevision b < 2 ^ 64)%Z).
  { unfold b. destruct (run_ops_revision before b0 H0) as [-> _]. apply wrap_u64_range. }
  destruct (run_ops_revision between b Hb) as [H1 H2]. rewrite Hrun in H1, H2. cbn in H1, H2.
  assert (Hiff : ownershipRevision b' = ownershipRevision b <-> n = 0).
  { rewrite H1. unfold wrap_u64. split; [|intros ->; by rewrite Z.add_0_r, Z.mod_small].
    intros He. destruct (decide (ownershipRevision b + Z.of_nat n < 2 ^ 64)%Z).
    - rewrite Z.mod_small in He; lia.
    - rewrite <- (Z.mod_unique _ _ 1 (ownershipRevision b + Z.of_nat n - 2 ^ 64)) in He; lia. }
  split; [done|]. intros He. apply Hiff, H2 in He as [-> He]. split; [done|]. cbn. by rewrite He.
Qed.

Lemma OwnershipRevision_detects_witness :
  exists b0, NewKafka (mkKafkaConfig ["k:9092"%string] "danmu" "gateways") = Ok b0 /\
  let own := OpSetOwnership [0; 1]%Z [mkAssignment 1 0] in
  let b := (run_ops [own] b0).1 in
  let b' := (run_ops [OpReady false; OpClear; own] b).1 in
  AssignedPartitions (Some b') = AssignedPartitions (Some b) /\
  OwnershipRevision (Some b') <> OwnershipRevision (Some b).
Proof.
  eexists. split; [reflexivity|]. cbv zeta. split; [vm_compute; reflexivity|].
  pose proof (OwnershipRevision_detects (mkKafkaConfig ["k:9092"%string] "danmu" "gateways")
    _ [OpSetOwnership [0; 1]%Z [mkAssignment 1 0]]
    [OpReady false; OpClear; OpSetOwnership [0; 1]%Z [mkAssignment 1 0]] eq_refl) as H.
  vm_compute in H |- *. intros He. destruct (proj1 (proj1 (H eq_refl)) He); done.
Defined.

(** NewKafka accepts a configuration exactly when it has a broker, no broker is
    blank, and topic and group are not empty; the bus starts without ownership, not
    ready and open, and its writer waits for the leader's acknowledgement only. *)
Theorem NewKafka_spec config :
  match NewKafka config with
  | Ok b => Brokers config <> [] /\ c_Topic config <> ""%string /\ GroupID config <> ""%string /\
            (forall broker, broker ∈ Brokers config -> TrimSpace broker <> ""%string) /\
            writer b = Some (mkWriter (Brokers config) (c_Topic config) RequireOne (10 * Millisecond)%Z) /\
            AssignedPartitions (Some b) = [] /\ topicPartitions b = [] /\
            ConsumerReady (Some b) = false /\ closed_once b = false
  | Err err => err = ErrInvalidKafkaConfig /\
      (Brokers config = [] \/ c_Topic config = ""%string \/ GroupID config = ""%string \/
       exists broker, broker ∈ Brokers config /\ TrimSpace broker = ""%string)
  end.
Proof.
  unfold NewKafka.
  destruct (bool_decide _ || _ || _) eqn:Hc.
  { split; [done|]. rewrite !orb_true_iff, !bool_decide_eq_true in Hc. tauto. }
  rewrite !orb_false_iff, !bool_decide_eq_false in Hc. destruct Hc as [[? ?] ?].
  destruct (existsb is_blank (Brokers config)) eqn:Hb.
  - split; [done|]. do 3 right. apply existsb_exists in Hb as (broker & Hin & Hblank).
    exists broker. rewrite list_elem_of_In. split; [done|].
    by apply bool_decide_eq_true in Hblank.
  - split_and!; try done.
    intros broker Hin Hblank.
    assert (existsb is_blank (Brokers config) = true); [|congruence].
    apply existsb_exists. exists broker. rewrite <- list_elem_of_In. split; [done|].
    by apply bool_decide_eq_true.
Qed.

(** Close works once.  The first call leaves the bus not ready and owning no
    room, and joins the writer's error and the active group's; a later call changes
    nothing and gives the same result. *)
Theorem Close_once `{KafkaHash} b cg cw cg' cw' :
  closed_once b = false ->
  exists b', Close cg cw (Some b) = (errors_Join [cw; activeGroup b ≫= cg], Some b') /\
    ConsumerReady (Some b') = false /\ (forall room, OwnsRoom room (Some b') = false) /\
    Close cg' cw' (Some b') = (errors_Join [cw; activeGroup b ≫= cg], Some b').
Proof.
  intros Hopen. cbn [Close]. rewrite Hopen. eexists. split; [reflexivity|].
  split; [done|]. split; [|done]. intros room. apply not_true_is_false.
  rewrite OwnsRoom_PartitionForRoom. intros (p & b' & [= <-] & _ & Hin). cbn in Hin. set_solver.
Qed.

Lemma Close_once_witness :
  exists b', Close (fun _ => None) (Some (Errorf "write")) (Some sample_bus) =
    (Some (Joined [Errorf "write"]), Some b') /\
  (forall room, OwnsRoom room (Some b') = false).
Proof.
  destruct (Close_once sample_bus (fun _ => None) (Some (Errorf "write")) (fun _ => None) None eq_refl)
    as (b' & H1 & _ & H2 & _).
  exists b'. split; [exact H1|exact H2].
Defined.

End Kafka.
