(* ===== verification/KafkaConsume.v ===== *)
(** * The Kafka bus: the consumer loops (internal/bus/kafka.go, Consume,
    consumeGeneration, consumePartition)

    The loops run until the environment stops them, so each is a function of what
    the environment answers.  [consumePartition] reads a script, one entry per
    iteration, and produces its events; it is [Running] when the script ends.
    [Consume] is a step machine, since other goroutines observe the bus between
    its statements; [Close] is a second thread of that machine. *)

From S2P Require Import Prelude.
From S2P Require Import Utf8.
From S2P Require Import GoStrings.
From S2P Require Import GoTime.
From S2P Require Import Json.
From S2P Require Import Message.
From S2P Require Import Bus.
From S2P Require Import Kafka.

Module KafkaConsume.
Import Kafka.

(** ** One partition *)

(** What happens during one iteration: what FetchMessage returns, what the handler
    returns if it is called, what CommitOffsets returns, and whether the broker
    has stored the offset (a commit may be stored and still report an error). *)
Record iteration := mkIteration {
  fetched : result KafkaMessage; handled : option error;
  committed : option error; stored : bool;
}.

(** The offset to commit, by topic and partition. *)
Definition offsetsAfter (m : KafkaMessage) : gmap string (gmap Z Z) :=
  {[ Topic m := {[ Partition m := wrap_i64 (Offset m + 1) ]} ]}.

Inductive event :=
  | EHandler (m : KafkaMessage) (d : Danmaku) (err : option error)
  | ECommit (offsets : gmap string (gmap Z Z)) (stored : bool).

Inductive loop_end := Running | Stopped (err : error).

Definition commit (m : KafkaMessage) (it : iteration) : event :=
  ECommit (offsetsAfter m) (stored it || bool_decide (committed it = None)).

(** One iteration: the events, and the error that ends the loop, if any. *)
Definition consume_one (it : iteration) : list event * option error :=
  match fetched it with
  | Err err => ([], Some err)
  | Ok m =>
    match UnmarshalDanmaku (Value m) with
    | Err _ => ([commit m it], Wrap "commit malformed message offset" <$> committed it)
    | Ok danmaku =>
      match Validate danmaku with
      | Some _ => ([commit m it], Wrap "commit invalid message offset" <$> committed it)
      | None =>
        match handled it with
        | Some err => ([EHandler m danmaku (Some err)], Some (Wrap "handle kafka message" err))
        | None => ([EHandler m danmaku None; commit m it],
                   Wrap "commit kafka message offset" <$> committed it)
        end
      end
    end
  end.

Fixpoint consume_loop (script : list iteration) : loop_end * list event :=
  match script with
  | [] => (Running, [])
  | it :: script =>
    match consume_one it with
    | (events, Some err) => (Stopped err, events)
    | (events, None) => let '(e, rest) := consume_loop script in (e, events ++ rest)
    end
  end.

(** [set_offset] is the result of reader.SetOffset(assignment.Offset). *)
Definition consumePartition (set_offset : option error) (script : list iteration)
  : loop_end * list event :=
  match set_offset with
  | Some err => (Stopped err, [])
  | None => consume_loop script
  end.

(** A message the handler must see. *)
Definition deliverable (m : KafkaMessage) : option Danmaku :=
  match UnmarshalDanmaku (Value m) with
  | Ok d => match Validate d with None => Some d | Some _ => None end
  | Err _ => None
  end.

(** ** One generation *)

(** The channel of errors, of the given capacity, when a worker leaves with [err]:
    the send is dropped when the channel is full. *)
Definition worker_exit (capacity : nat) (errs : list error) (err : option error) : list error :=
  match err with
  | Some err =>
    if errors_Is err ErrGenerationEnded then errs
    else if length errs <? capacity then errs ++ [err] else errs
  | None => errs
  end.

(** A worker of a generation: the result of SetOffset and its script; the error
    with which its consumePartition returns. *)
Definition worker_result
  (w : option error * list iteration) : option error :=
  match (consumePartition w.1 w.2).1 with
  | Stopped err => Some err
  | Running => None
  end.

(** [workers] are the generation's workers, one per assignment, in the order in
    which they leave.  With no assignment the only worker waits for the
    generation's end and reports nothing. *)
Definition consumeGeneration (ctx_err : option error)
  (assignments : list PartitionAssignment) (workers : list (option error * list iteration))
  : option error :=
  let errs :=
    if bool_decide (assignments = []) then []
    else foldl (worker_exit (length assignments)) [] (worker_result <$> workers) in
  match ctx_err with
  | Some err => Some err
  | None => head errs
  end.

(** ** Consume *)

(** [generation.Assignments[topic]]. *)
Abbreviation generation := (list PartitionAssignment) (only parsing).

(** Where Consume stands: one constructor per statement that reads or writes what
    other goroutines see, with the values of its local variables. *)
Inductive pc :=
  | PNewGroup
  | PSetGroup (g : nat)
  | PResetReady (g : nat)
  | PResetOwned (g : nat)
  | PNext (g : nat)
  | PLookup (g : nat) (gen : generation)
  | PInstall (g : nat) (gen : generation) (ps : list Z)
  | PReady (g : nat) (gen : generation) (ps : list Z)
  | PRun (g : nat) (gen : generation) (ps : list Z)
  | PUnready (g : nat) (gen : generation) (ps : list Z) (err : option error)
  | PUnown (g : nat) (gen : generation) (ps : list Z) (err : option error)
  | PDeferReady (g : nat) (err : error)
  | PDeferOwned (g : nat) (err : error)
  | PDeferGroup (g : nat) (err : error)
  | PReturned (err : error).

(** What the environment answers to the statement Consume stands at. *)
Inductive answer :=
  | ANone
  | ANewGroup (r : result nat)
  | ANext (r : result generation) (ctx_alive : bool)
  | ALookup (lookup : nat -> string -> lookup_answer) (ctx_done : nat -> bool)
  | AGeneration (ctx_err : option error) (workers : list (option error * list iteration)).

(** The guards before the group is created. *)
Definition Consume_guard (b : option KafkaBus) (handler_nil : bool) : option error :=
  match b ≫= writer with
  | None => Some (Sentinel ErrKafkaBusClosed)
  | Some _ => if handler_nil then Some (Sentinel ErrNilHandler) else None
  end.

(** One statement of Consume. *)
Definition consume_step (a : answer) (p : pc) (b : KafkaBus)
  : option (pc * KafkaBus) :=
  match p, a with
  | PNewGroup, ANewGroup (Err err) => Some (PReturned err, b)
  | PNewGroup, ANewGroup (Ok g) => Some (PSetGroup g, b)
  | PSetGroup g, ANone => Some (PResetReady g, setActiveGroup g b)
  | PResetReady g, ANone => Some (PResetOwned g, set_ready false b)
  | PResetOwned g, ANone => Some (PNext g, clearAssignedPartitions b)
  | PNext g, ANext (Err err) ctx_alive =>
      if isConsumerGroupTransition err && ctx_alive then Some (PResetReady g, b)
      else Some (PDeferReady g err, b)
  | PNext g, ANext (Ok gen) _ => Some (PLookup g gen, b)
  | PLookup g gen, ALookup lookup ctx_done =>
      match lookupTopicPartitions lookup ctx_done b with
      | Err err => Some (PDeferReady g err, b)
      | Ok ps => Some (PInstall g gen ps, b)
      end
  | PInstall g gen ps, ANone =>
      match setPartitionOwnership ps gen b with
      | (Some err, b') => Some (PDeferReady g err, b')
      | (None, b') => Some (PReady g gen ps, b')
      end
  | PReady g gen ps, ANone => Some (PRun g gen ps, set_ready true b)
  | PRun g gen ps, AGeneration ctx_err workers =>
      Some (PUnready g gen ps (consumeGeneration ctx_err gen workers), b)
  | PUnready g gen ps err, ANone => Some (PUnown g gen ps err, set_ready false b)
  | PUnown g gen ps (Some err), ANone => Some (PDeferReady g err, clearAssignedPartitions b)
  | PUnown g gen ps None, ANone => Some (PResetReady g, clearAssignedPartitions b)
  | PDeferReady g err, ANone => Some (PDeferOwned g err, set_ready false b)
  | PDeferOwned g err, ANone => Some (PDeferGroup g err, clearAssignedPartitions b)
  | PDeferGroup g err, ANone => Some (PReturned err, clearActiveGroup g b)
  | _, _ => None
  end.

(** Close, the body of its once, statement by statement, in another goroutine. *)
Inductive close_pc := KOpen | KOwned | KGroup | KDone.

Definition close_step (close_group : nat -> option error) (close_writer : option error)
  (k : close_pc) (b : KafkaBus) : option (close_pc * KafkaBus) :=
  match k with
  | KOpen => Some (KOwned, set_ready false b)
  | KOwned => Some (KGroup, clearAssignedPartitions b)
  | KGroup => Some (KDone, set_closed (errors_Join [close_writer; activeGroup b ≫= close_group]) b)
  | KDone => None
  end.

Record system := mkSystem { consumer : pc; closer : close_pc; bus : KafkaBus }.

Inductive step : system -> system -> Prop :=
  | step_consume a p p' k b b' :
      consume_step a p b = Some (p', b') ->
      step (mkSystem p k b) (mkSystem p' k b')
  | step_close cg cw p k k' b b' :
      close_step cg cw k b = Some (k', b') ->
      step (mkSystem p k b) (mkSystem p k' b').

(** From a new bus on which Consume is called. *)
Inductive reachable : system -> Prop :=
  | reach_init config b :
      NewKafka config = Ok b -> reachable (mkSystem PNewGroup KOpen b)
  | reach_step s s' : reachable s -> step s s' -> reachable s'.

(** ** At-least-once delivery of one partition *)

(** The messages a script offers, up to the first failing fetch. *)
Fixpoint fetches (script : list iteration) : list KafkaMessage :=
  match script with
  | [] => []
  | it :: script => match fetched it with Ok m => m :: fetches script | Err _ => [] end
  end.

(** The offset the broker keeps for a partition after some events. *)
Definition store_event (topic : string) (partition : Z) (cur : Z) (e : event) : Z :=
  match e with
  | ECommit offsets true => default cur ((offsets !! topic) ≫= (.!! partition))
  | _ => cur
  end.
Definition stored_offset (topic : string) (partition : Z) (t : list event) (cur : Z) : Z :=
  foldl (store_event topic partition) cur t.

(** The handler's calls, and those that succeeded. *)
Definition calls (t : list event) : list (KafkaMessage * Danmaku) :=
  omap (fun e => match e with EHandler m d _ => Some (m, d) | _ => None end) t.
Definition successes (t : list event) : list (KafkaMessage * Danmaku) :=
  omap (fun e => match e with EHandler m d None => Some (m, d) | _ => None end) t.

Definition before (m m' : KafkaMessage) : Prop := (Offset m < Offset m')%Z.

(** A partition's log: increasing offsets, below the largest int64. *)
Record is_log (topic : string) (partition : Z) (log : list KafkaMessage) : Prop := {
  log_sorted : StronglySorted before log;
  log_partition : Forall (fun m => Topic m = topic /\ Partition m = partition /\
                                   (0 <= Offset m < max_i64)%Z) log;
}.

Section at_least_once.
Context (topic : string) (partition : Z).
Let trace (script : list iteration) : list event := (consume_loop script).2.
Let stored_at := stored_offset topic partition.

Lemma stored_commit m it cur :
  Topic m = topic -> Partition m = partition -> (0 <= Offset m < max_i64)%Z ->
  store_event topic partition cur (commit m it) = cur \/
  store_event topic partition cur (commit m it) = (Offset m + 1)%Z.
Proof.
  intros <- <- Hr. unfold commit, store_event. destruct (_ || _); [right|by left].
  unfold offsetsAfter. rewrite !lookup_singleton_eq. cbn. rewrite lookup_singleton_eq. cbn.
  apply wrap_i64_small. unfold max_i64, min_i64 in *. lia.
Qed.

Lemma stored_commit_ok m it cur :
  Topic m = topic -> Partition m = partition -> (0 <= Offset m < max_i64)%Z ->
  committed it = None -> store_event topic partition cur (commit m it) = (Offset m + 1)%Z.
Proof.
  intros <- <- Hr Hc. unfold commit, store_event. rewrite Hc, orb_true_r.
  unfold offsetsAfter. rewrite !lookup_singleton_eq. cbn. rewrite lookup_singleton_eq. cbn.
  apply wrap_i64_small. unfold max_i64, min_i64 in *. lia.
Qed.

(** What one iteration on a fetched message does: the message is handled when it is
    deliverable, and a commit is its last event, after the handler's success. *)
Lemma consume_one_spec it m :
  fetched it = Ok m ->
  exists handler,
    (match deliverable m with
     | Some d => handler = [EHandler m d (handled it)]
     | None => handler = []
     end) /\
    ((exists err, deliverable m <> None /\ handled it = Some err /\
        consume_one it = (handler, Some (Wrap "handle kafka message" err))) \/
     ((deliverable m = None \/ handled it = None) /\
      (consume_one it).1 = handler ++ [commit m it] /\
      ((consume_one it).2 = None <-> committed it = None))).
Proof.
  intros Hf. unfold consume_one, deliverable. rewrite Hf.
  destruct (UnmarshalDanmaku (Value m)) as [d|].
  2: { exists []. split; [done|]. right. destruct (committed it); naive_solver. }
  destruct (Validate d).
  { exists []. split; [done|]. right. destruct (committed it); naive_solver. }
  eexists. split; [reflexivity|].
  destruct (handled it); [left; naive_solver|]. right. destruct (committed it); naive_solver.
Qed.

Lemma trace_cons it script m :
  fetched it = Ok m ->
  trace (it :: script) = (consume_one it).1 ++
    (if bool_decide ((consume_one it).2 = None) then trace script else []).
Proof.
  intros _. unfold trace. cbn [consume_loop].
  destruct (consume_one it) as [evs [err|]]; cbn; [by rewrite app_nil_r|].
  by destruct (consume_loop script).
Qed.

(** No commit, no change. *)
Lemma stored_no_commit t cur :
  Forall (fun e => match e with ECommit _ _ => False | _ => True end) t -> stored_at t cur = cur.
Proof. unfold stored_at, stored_offset. by induction 1 as [|[] t ? ? IH]. Qed.

Lemma is_log_cons m ms :
  is_log topic partition (m :: ms) -> is_log topic partition ms /\
  Forall (before m) ms /\ Topic m = topic /\ Partition m = partition /\ (0 <= Offset m < max_i64)%Z.
Proof.
  intros [Hs Hp]. apply StronglySorted_inv in Hs as [? ?].
  apply Forall_cons in Hp as [(? & ? & ?) ?]. split_and!; try done; try lia.
Qed.

Lemma before_trans : forall m1 m2 m3, before m1 m2 -> before m2 m3 -> before m1 m3.
Proof. unfold before. lia. Qed.

(** A message that is due below the committed offset was handled: the statement
    that a session keeps after any prefix of its events. *)
Definition safe_at (from : Z) (ms : list KafkaMessage) (t : list event) : Prop :=
  (stored_at t from = from \/ exists m, m ∈ ms /\ stored_at t from = Offset m + 1)%Z /\
  (forall m d, m ∈ ms -> (Offset m < stored_at t from)%Z -> deliverable m = Some d ->
     (m, d) ∈ successes t).

Lemma safe_at_nothing from ms t :
  stored_at t from = from -> Forall (fun m => (from <= Offset m)%Z) ms -> safe_at from ms t.
Proof.
  intros Heq Hall. split; [by left|]. rewrite Heq. intros m d Hm ?.
  rewrite Forall_forall in Hall. specialize (Hall m Hm). lia.
Qed.

Lemma safe_at_next from m it handler ms t :
  Topic m = topic -> Partition m = partition -> (0 <= Offset m < max_i64)%Z ->
  (from <= Offset m)%Z -> Forall (before m) ms ->
  (forall d, deliverable m = Some d -> handler = [EHandler m d None]) ->
  (deliverable m = None -> handler = []) ->
  (t = [] \/ committed it = None /\ safe_at (Offset m + 1) ms t) ->
  safe_at from (m :: ms) (handler ++ commit m it :: t).
Proof.
  intros Ht Hp Hr Hfrom Hb Hd Hn Hcase.
  assert (Hh : stored_at handler from = from).
  { apply stored_no_commit. destruct (deliverable m) as [d|].
    - rewrite (Hd d eq_refl). by repeat constructor.
    - by rewrite Hn. }
  assert (Happ : stored_at (handler ++ commit m it :: t) from =
                 stored_at t (store_event topic partition from (commit m it))).
  { unfold stored_at, stored_offset in *. rewrite foldl_app, Hh. done. }
  assert (Hm : forall d, deliverable m = Some d ->
                 (m, d) ∈ successes (handler ++ commit m it :: t)).
  { intros d Hm. rewrite (Hd d Hm). unfold successes. rewrite omap_app. cbn. left. }
  rewrite Forall_forall in Hb. unfold safe_at. rewrite Happ.
  destruct Hcase as [->|[Hc [H1 H2]]].
  - change (stored_at [] ?x) with x. split.
    + destruct (stored_commit m it from Ht Hp Hr) as [->| ->]; [by left|]. right. exists m. split; [left|done].
    + intros m' d [->|Hm']%elem_of_cons ? Hdel; [by apply Hm|].
      specialize (Hb m' Hm'). unfold before in Hb.
      destruct (stored_commit m it from Ht Hp Hr) as [He|He]; rewrite He in *; lia.
  - rewrite stored_commit_ok by done. split.
    + destruct H1 as [->|(m' & ? & ->)]; right; [exists m|exists m']; (split; [|done]); [left|by right].
    + intros m' d [->|Hm']%elem_of_cons Hlt Hdel; [by apply Hm|].
      unfold successes. rewrite omap_app. apply elem_of_app. right. cbn.
      by apply (H2 m' d Hm' Hlt Hdel).
Qed.

Lemma session_safe script : forall from t,
  is_log topic partition (fetches script) ->
  Forall (fun m => (from <= Offset m)%Z) (fetches script) ->
  t `prefix_of` trace script -> safe_at from (fetches script) t.
Proof.
  induction script as [|it script IH]; intros from t Hlog Hall Hpre.
  { apply prefix_nil_inv in Hpre as ->. by apply safe_at_nothing. }
  cbn [fetches] in *. destruct (fetched it) as [m|err] eqn:Hf.
  2: { assert (Htr : trace (it :: script) = []).
       { unfold trace. cbn [consume_loop]. unfold consume_one. by rewrite Hf. }
       rewrite Htr in Hpre. apply prefix_nil_inv in Hpre as ->. by apply safe_at_nothing. }
  rewrite (trace_cons it script m Hf) in Hpre.
  apply is_log_cons in Hlog as (Hlog & Hbefore & Ht & Hp & Hr).
  pose proof Hall as Hall0. apply Forall_cons in Hall as [Hfrom Hall].
  destruct (consume_one_spec it m Hf) as (handler & Hh & [(err & Hd & Herr & Heq)|(Hok & Hev & Hend)]).
  - rewrite Heq in Hpre. cbn in Hpre. rewrite app_nil_r in Hpre. apply safe_at_nothing; [|done].
    destruct Hpre as [k Hk]. destruct (deliverable m); [|done]. rewrite Hh in Hk.
    destruct t as [|e [|e' t]]; cbn in Hk; by simplify_eq/=.
  - rewrite Hev, <- app_assoc in Hpre.
    apply prefix_app_split in Hpre as [Hpre|(t' & -> & Hpre)].
    { apply safe_at_nothing; [|done]. apply stored_no_commit. destruct Hpre as [k Hk].
      destruct (deliverable m); rewrite Hh in Hk.
      - destruct t as [|e [|e' t]]; cbn in Hk; simplify_eq/=; by repeat constructor.
      - by destruct t; [constructor|]. }
    destruct t' as [|e t'].
    { rewrite app_nil_r. apply safe_at_nothing; [|done]. apply stored_no_commit.
      destruct (deliverable m); subst handler; by repeat constructor. }
    apply prefix_cons_inv_1 in Hpre as He. apply prefix_cons_inv_2 in Hpre. subst e.
    apply (safe_at_next from m it handler (fetches script) t'); try done.
    { intros d Hd. rewrite Hd in Hh. subst handler. by destruct Hok as [?|<-]; congruence. }
    { intros Hd. by rewrite Hd in Hh. }
    case_bool_decide as Hc.
    + right. split; [by apply Hend|]. apply IH; [done| |done].
      rewrite Forall_forall in Hbefore |- *. intros m' Hm'. specialize (Hbefore m' Hm').
      unfold before in Hbefore. lia.
    + left. by apply prefix_nil_inv in Hpre.
Qed.

End at_least_once.

(** ** The group over its sessions

    A consumer group's history on one partition: it starts at the offset [first];
    a session (a generation on some instance) fetches a part of the log from the
    offset the broker keeps, and may be cut after any of its events: a crash, a
    rebalance, an error.  [h] collects what the handlers accepted. *)
Section group.
Context (topic : string) (partition : Z).
Context (log : list KafkaMessage).

Definition reads_from (from : Z) (script : list iteration) : Prop :=
  fetches script `prefix_of` List.filter (fun m => (from <=? Offset m)%Z) log.

Inductive group_run (first : Z) : Z -> list (KafkaMessage * Danmaku) -> Prop :=
  | group_start : group_run first first []
  | group_session c h script t :
      group_run first c h -> reads_from c script ->
      t `prefix_of` (consumePartition None script).2 ->
      group_run first (stored_offset topic partition t c) (h ++ successes t).

Lemma is_log_sub l1 l2 :
  is_log topic partition (l1 ++ l2) ->
  is_log topic partition l1 /\ (forall x y, x ∈ l1 -> y ∈ l2 -> before x y).
Proof.
  intros [Hs Hp]. apply Forall_app in Hp as [? _].
  induction l1 as [|x l1 IH]; cbn in *.
  { split; [by repeat constructor|]. by intros ? ? ?%elem_of_nil. }
  apply StronglySorted_inv in Hs as [Hs Hx]. rewrite Forall_app, !Forall_forall in Hx.
  apply Forall_cons in H as [H Hl]. destruct (IH Hs Hl) as [[] Hb]. split.
  - split; constructor; try done. apply Forall_forall. apply Hx.
  - intros y z [->|?]%elem_of_cons ?; [by apply Hx|by apply Hb].
Qed.

Lemma is_log_filter f l : is_log topic partition l -> is_log topic partition (List.filter f l).
Proof.
  intros [Hs Hp]. split.
  - induction Hs as [|x l Hs IH Hx]; cbn; [constructor|]. apply Forall_cons in Hp as [? Hp].
    destruct (f x); [|by apply IH]. constructor; [by apply IH|].
    rewrite Forall_forall in Hx |- *. intros y Hy. apply list_elem_of_In, filter_In in Hy as [Hy _].
    apply Hx. by apply list_elem_of_In.
  - rewrite Forall_forall in Hp |- *. intros y Hy.
    apply list_elem_of_In, filter_In in Hy as [Hy _]. apply Hp. by apply list_elem_of_In.
Qed.

Lemma elem_of_from from m :
  m ∈ List.filter (fun m => (from <=? Offset m)%Z) log <-> m ∈ log /\ (from <= Offset m)%Z.
Proof. by rewrite !list_elem_of_In, filter_In, Z.leb_le. Qed.

(** A session is safe, and what it fetched is a gapless part of the log. *)
Lemma session_of_log c script t :
  is_log topic partition log -> reads_from c script ->
  t `prefix_of` (consumePartition None script).2 ->
  (c <= stored_offset topic partition t c)%Z /\
  forall m d, m ∈ log -> (c <= Offset m < stored_offset topic partition t c)%Z ->
    deliverable m = Some d -> (m, d) ∈ successes t.
Proof.
  intros Hlog [k Hk] Ht. pose proof (is_log_filter (fun m => (c <=? Offset m)%Z) _ Hlog) as Hf.
  rewrite Hk in Hf. apply is_log_sub in Hf as [Hf Hb].
  assert (Hin : forall m, m ∈ fetches script ++ k <-> m ∈ log /\ (c <= Offset m)%Z).
  { intros m. rewrite <- Hk. apply elem_of_from. }
  assert (Hall : Forall (fun m => (c <= Offset m)%Z) (fetches script)).
  { apply Forall_forall. intros m Hm. apply Hin. apply elem_of_app. by left. }
  destruct (session_safe topic partition script c t Hf Hall Ht) as [H1 H2].
  rewrite Forall_forall in Hall. split.
  - destruct H1 as [->|(m & Hm & ->)]; [lia|]. specialize (Hall m Hm). lia.
  - intros m d Hm Hr Hd. apply H2; [|lia|done].
    assert (Hm' : m ∈ fetches script ++ k) by (apply Hin; split; [done|lia]).
    apply elem_of_app in Hm' as [?|Hm']; [done|].
    destruct H1 as [H1|(m0 & Hm0 & H1)]; rewrite H1 in Hr; [lia|].
    specialize (Hb m0 m Hm0 Hm'). unfold before in Hb. lia.
Qed.

(** C1: at-least-once delivery.  Over any history of sessions, whatever failed and
    wherever they were cut, every message of the log below the offset the broker
    keeps that decodes to a valid danmaku has been accepted by a handler.  A commit
    never runs ahead of the handler, and the kept offset never moves back. *)
Theorem group_at_least_once first c h :
  is_log topic partition log -> group_run first c h ->
  (first <= c)%Z /\
  forall m d, m ∈ log -> (first <= Offset m < c)%Z ->
    deliverable m = Some d -> (m, d) ∈ h.
Proof.
  intros Hlog. induction 1 as [|c h script t _ [IH1 IH2] Hr Ht]; [split; [lia|intros; lia]|].
  destruct (session_of_log c script t Hlog Hr Ht) as [H1 H2].
  split; [lia|]. intros m d Hm Hoff Hd. apply elem_of_app.
  destruct (decide (Offset m < c)%Z); [left; apply IH2|right; apply H2]; auto with lia.
Qed.

End group.

(** ** One session: order and progress *)

Definition due (ms : list KafkaMessage)
  : list (KafkaMessage * Danmaku) := omap (fun m => pair m <$> deliverable m) ms.

(** An iteration that lets the loop go on. *)
Definition iteration_ok (it : iteration) : Prop :=
  exists m, fetched it = Ok m /\ committed it = None /\
            (deliverable m = None \/ handled it = None).

Lemma consume_one_ok it :
  (consume_one it).2 = None <-> iteration_ok it.
Proof.
  unfold iteration_ok. destruct (fetched it) as [m|err] eqn:Hf.
  2: { unfold consume_one. rewrite Hf. naive_solver. }
  destruct (consume_one_spec it m Hf) as (handler & _ & [(err & Hd & Herr & Heq)|(Hok & _ & Hend)]).
  - rewrite Heq. naive_solver congruence.
  - rewrite Hend. naive_solver.
Qed.

Lemma consume_one_calls it m :
  fetched it = Ok m ->
  calls (consume_one it).1 = due [m] /\
  (successes (consume_one it).1 = due [m] \/
   successes (consume_one it).1 = [] /\ exists err, handled it = Some err /\
     (consume_one it).2 = Some (Wrap "handle kafka message" err)).
Proof.
  intros Hf. unfold due. cbn.
  destruct (consume_one_spec it m Hf) as (handler & Hh & [(err & Hd & Herr & Heq)|(Hok & Hev & _)]).
  - rewrite Heq. cbn. destruct (deliverable m); [|done]. subst handler. cbn.
    rewrite Herr. split; [done|]. right. by eauto.
  - rewrite Hev. unfold calls, successes. rewrite !omap_app. cbn.
    destruct (deliverable m); subst handler; cbn; [|by auto].
    destruct Hok as [?|Hok]; [done|]. rewrite Hok. by auto.
Qed.

Lemma due_cons m ms : due (m :: ms) = due [m] ++ due ms.
Proof. unfold due. cbn. by destruct (deliverable m). Qed.

(** C19: what a gateway publishes is what a consumer handles.  For a message that
    Validate accepts, Publish hands the writer the room as key and a text; whoever
    fetches that text calls its handler first of all, with the message whose text
    fields have their invalid UTF-8 replaced: the same message if they are valid, a
    message for another room if the room's identifier is not. *)
Theorem published_danmaku_is_consumed zone write b d text :
  zone_ok zone -> (0 <= Sequence d < 2 ^ 64)%Z -> Validate d = None -> writer b <> None ->
  MarshalDanmaku zone d = Ok text ->
  Kafka.Publish zone write (Some b) d = write (RoomID d) text /\
  (forall it m, fetched it = Ok m -> Value m = text ->
    head (consume_one it).1 = Some (EHandler m (wire d) (handled it))) /\
  (valid_utf8 (MessageID d) -> valid_utf8 (RoomID d) -> valid_utf8 (UserID d) -> valid_utf8 (Content d) ->
    wire d = d) /\
  (~ valid_utf8 (RoomID d) -> RoomID (wire d) <> RoomID d).
Proof.
  intros Hz Hs Hv Hw Hm. split_and!.
  - unfold Kafka.Publish. cbn [mbind option_bind]. destruct (writer b); [|done]. by rewrite Hm.
  - intros it m Hf Ht. unfold consume_one. rewrite Hf, Ht, (Unmarshal_Marshal zone d text) by done.
    rewrite Validate_wire, Hv. by destruct (handled it).
  - apply wire_valid.
  - intros Hr He. apply Hr. by apply ToValid_fixed.
Qed.

(** One partition is consumed strictly in order, one message at a time.  The
    handler's calls are the deliverable messages in fetch order; each is made only
    after all earlier ones succeeded, so that at most the last call failed, and
    then the loop stopped with that failure.  Undecodable and invalid messages are
    skipped without a call.  The loop is running exactly as long as every fetch,
    every handler call and every commit succeeded, and then nothing is left out. *)
Theorem consumePartition_in_order script :
  let '(e, t) := consumePartition None script in
  calls t `prefix_of` due (fetches script) /\
  (calls t = successes t \/
   exists m d err, calls t = successes t ++ [(m, d)] /\ e = Stopped (Wrap "handle kafka message" err)) /\
  (e = Running <-> Forall (iteration_ok) script) /\
  (e = Running -> successes t = due (fetches script)).
Proof.
  cbn [consumePartition]. induction script as [|it script IH]; cbn [consume_loop fetches].
  { split_and!; [done|by left|by split|done]. }
  destruct (fetched it) as [m|err] eqn:Hf.
  2: { unfold consume_one. rewrite Hf. split_and!; [apply prefix_nil|by left| |done].
       split; [done|]. intros Hall. apply Forall_cons in Hall as [(m & ? & _) _]. congruence. }
  pose proof (consume_one_ok it) as Hok.
  pose proof (consume_one_calls it m Hf) as [Hc Hs].
  rewrite (due_cons m).
  destruct (consume_one it) as [evs [err|]]; cbn [fst snd] in *.
  - split_and!.
    + rewrite Hc. by apply prefix_app_r.
    + rewrite Hc. destruct Hs as [->|(-> & err' & _ & [= ->])]; [by left|]. 
      unfold due. cbn. destruct (deliverable m) as [d|]; [|by left].
      right. exists m, d, err'. done.
    + rewrite Forall_cons, <- Hok. naive_solver.
    + done.
  - destruct Hs as [Hs|(_ & err & _ & ?)]; [|done].
    destruct (consume_loop script) as [e t]. destruct IH as (I1 & I2 & I3 & I4).
    cbn beta iota. unfold calls, successes in *. rewrite !omap_app, Hc, Hs. split_and!.
    + by apply prefix_app.
    + destruct I2 as [->|(m' & d' & err & -> & ->)]; [by left|]. right. exists m', d', err.
      by rewrite app_assoc.
    + rewrite I3, Forall_cons, <- Hok. naive_solver.
    + intros He. by rewrite I4.
Qed.

(** ** One generation: properties *)

Lemma worker_exit_length n errs err : length errs <= n -> length (worker_exit n errs err) <= n.
Proof.
  unfold worker_exit. destruct err as [err|]; [|done]. destruct (errors_Is _ _); [done|].
  destruct (Nat.ltb_spec (length errs) n); [|done]. intros _. rewrite length_app. cbn. lia.
Qed.

(** The errors of workers that did not leave because the generation ended. *)
Definition failures (exits : list (option error)) : list error :=
  omap (fun e => match e with
                 | Some err => if errors_Is err ErrGenerationEnded then None else Some err
                 | None => None end) exits.

Lemma worker_exits_collect n exits : forall errs,
  length errs + length exits <= n -> foldl (worker_exit n) errs exits = errs ++ failures exits.
Proof.
  induction exits as [|e exits IH]; intros errs Hn; cbn in *; [by rewrite app_nil_r|].
  assert (Hle : length (worker_exit n errs e) <= S (length errs)).
  { unfold worker_exit. destruct e; [|lia]. repeat case_match; try lia. rewrite length_app. cbn. lia. }
  rewrite IH by lia. unfold worker_exit. destruct e as [err|]; [|done].
  destruct (errors_Is err ErrGenerationEnded); [done|].
  rewrite (proj2 (Nat.ltb_lt _ _)) by lia. by rewrite <- app_assoc.
Qed.

(** A generation loses no failure.  Its error is the context's when the context
    has ended; otherwise it is the failure of the first worker to fail for another
    reason than the generation's end, and it is nil only when there is none: the
    error channel never drops one. *)
Theorem consumeGeneration_spec ctx_err assignments workers :
  length workers = length assignments ->
  consumeGeneration ctx_err assignments workers =
    match ctx_err with
    | Some err => Some err
    | None => head (failures (worker_result <$> workers))
    end.
Proof.
  intros Hlen. unfold consumeGeneration. destruct ctx_err; [done|].
  case_bool_decide as Ha.
  - subst. by destruct workers.
  - by rewrite worker_exits_collect by (rewrite length_fmap; cbn; lia).
Qed.

(** ** The consumer loop: the invariant *)

(** The generation whose partitions are installed while Consume stands there. *)
Definition installed (p : pc) : option (generation * list Z) :=
  match p with
  | PReady _ gen ps | PRun _ gen ps | PUnready _ gen ps _ | PUnown _ gen ps _ => Some (gen, ps)
  | _ => None
  end.

(** The group Consume has made and not yet given up. *)
Definition group_of (p : pc) : option nat :=
  match p with
  | PNewGroup | PSetGroup _ | PReturned _ => None
  | PResetReady g | PResetOwned g | PNext g | PLookup g _ | PInstall g _ _ | PReady g _ _
  | PRun g _ _ | PUnready g _ _ _ | PUnown g _ _ _
  | PDeferReady g _ | PDeferOwned g _ | PDeferGroup g _ => Some g
  end.

(** Where the ready flag may be up. *)
Definition may_be_ready (p : pc) : bool :=
  match p with PRun _ _ _ | PUnready _ _ _ _ => true | _ => false end.

(** Close has cleared the ownership. *)
Definition close_cleared (k : close_pc) : bool :=
  match k with KGroup | KDone => true | KOpen | KOwned => false end.

Definition holds_generation (b : KafkaBus) (gen : generation) (ps : list Z) : Prop :=
  topicPartitions b = ps /\ assignedPartition b = list_to_set (a_ID <$> gen) /\
  (forall a, a ∈ gen -> a_ID a ∈ ps).

Record inv (s : system) : Prop := {
  inv_ready : consumerReady (bus s) = true -> may_be_ready (consumer s) = true;
  inv_owned : match installed (consumer s) with
              | Some (gen, ps) =>
                  holds_generation (bus s) gen ps \/
                  close_cleared (closer s) = true /\ assignedPartition (bus s) = ∅
              | None => assignedPartition (bus s) = ∅
              end;
  inv_group : activeGroup (bus s) = group_of (consumer s);
}.

Lemma setPartitionOwnership_holds ps gen b b' :
  setPartitionOwnership ps gen b = (None, b') ->
  holds_generation b' gen ps /\ consumerReady b' = consumerReady b /\ activeGroup b' = activeGroup b.
Proof.
  unfold setPartitionOwnership, holds_generation.
  pose proof (collect_assigned_spec (list_to_set ps) gen ∅) as H.
  destruct (collect_assigned _ _ _); [|done]. destruct H as [H ->]. intros [= <-]. cbn.
  split_and!; try done.
  - apply leibniz_equiv. set_solver.
  - intros a Ha. specialize (H a Ha). set_solver.
Qed.

Lemma setPartitionOwnership_fails ps gen b err b' :
  setPartitionOwnership ps gen b = (Some err, b') -> b' = b.
Proof. unfold setPartitionOwnership. destruct (collect_assigned _ _ _); naive_solver. Qed.

(** The parts of the invariant after a statement, by the equations of the fields. *)
Ltac inv_case := split; cbn; first [done | tauto | congruence | by left].

Lemma consume_step_inv a p p' k b b' :
  consume_step a p b = Some (p', b') -> inv (mkSystem p k b) -> inv (mkSystem p' k b').
Proof.
  intros Hs [Hr Ho Hg]. cbn [consumer closer bus] in *.
  destruct p, a; cbn [consume_step] in Hs; try done; cbn in Hr, Ho, Hg; try (by destruct err);
    try (injection Hs as <- <-; inv_case).
  - destruct r; injection Hs as <- <-; inv_case.
  - destruct r; [|destruct (_ && _)]; injection Hs as <- <-; inv_case.
  - destruct (lookupTopicPartitions _ _ _); injection Hs as <- <-; inv_case.
  - destruct (setPartitionOwnership ps gen b) as [[err|] b1] eqn:He; injection Hs as <- <-.
    + apply setPartitionOwnership_fails in He as ->. inv_case.
    + apply setPartitionOwnership_holds in He as (Hh & Hr1 & Hg1). split; cbn; [|by left|congruence].
      rewrite Hr1. naive_solver.
  - destruct err; injection Hs as <- <-; inv_case.
  - injection Hs as <- <-. unfold clearActiveGroup. rewrite bool_decide_true by done.
    inv_case.
Qed.

Lemma close_step_inv cg cw p k k' b b' :
  close_step cg cw k b = Some (k', b') -> inv (mkSystem p k b) -> inv (mkSystem p k' b').
Proof.
  intros Hs [Hr Ho Hg]. cbn [consumer closer bus] in *.
  destruct k; cbn [close_step] in Hs; try done; injection Hs as <- <-; split; cbn in *; try done;
    destruct (installed p) as [[gen ps]|]; naive_solver.
Qed.

Lemma consume_reachable_inv s : reachable s -> inv s.
Proof.
  induction 1 as [config b Hnew|s s' _ IH Hst];
    [|destruct Hst as [a p p' k b b' Hs|cg cw p k k' b b' Hs]].
  - unfold NewKafka in Hnew. split_cases. by split.
  - exact (consume_step_inv _ _ _ _ _ _ Hs IH).
  - exact (close_step_inv _ _ _ _ _ _ _ Hs IH).
Qed.

(** C7: readiness and ownership follow the generation.  In every state that Consume
    and a concurrent Close can reach: the bus is ready only while Consume is inside
    a generation; it owns a room only if the current generation was given the
    room's partition, a partition of the installed topic metadata; while it is
    ready and Close has not taken the ownership back it owns exactly that
    generation's partitions; and when Consume has returned, the bus is not ready,
    owns nothing and holds no consumer group. *)
Theorem Consume_ownership `{KafkaHash} s :
  reachable s ->
  (forall room, OwnsRoom room (Some (bus s)) = true ->
     exists gen ps p, installed (consumer s) = Some (gen, ps) /\
       PartitionForRoom room (Some (bus s)) = Some p /\ p ∈ a_ID <$> gen /\ p ∈ ps) /\
  (ConsumerReady (Some (bus s)) = true ->
     exists gen ps, installed (consumer s) = Some (gen, ps) /\
       (close_cleared (closer s) = false ->
        topicPartitions (bus s) = ps /\
        forall p, p ∈ AssignedPartitions (Some (bus s)) <-> p ∈ a_ID <$> gen)) /\
  (forall err, consumer s = PReturned err ->
     ConsumerReady (Some (bus s)) = false /\ AssignedPartitions (Some (bus s)) = [] /\
     activeGroup (bus s) = None).
Proof.
  intros [Hr Ho Hg]%consume_reachable_inv. split_and!.
  - intros room (p & b' & [= <-] & Hp & Hin)%OwnsRoom_PartitionForRoom.
    destruct (installed (consumer s)) as [[gen ps]|]; [|rewrite Ho in Hin; set_solver].
    destruct Ho as [(Ht & Ha & _)|[_ Ho]]; [|rewrite Ho in Hin; set_solver].
    exists gen, ps, p. split_and!; try done.
    + rewrite Ha in Hin. by apply elem_of_list_to_set in Hin.
    + rewrite <- Ht. cbn in Hp. destruct (_ || _) in Hp; [done|].
      by apply partitionForRoomLocked_elem in Hp as [_ ?].
  - intros Hready. specialize (Hr Hready). destruct (consumer s); try done; cbn in *;
      eexists _, _; (split; [done|]); intros Hk; destruct Ho as [(Ht & Ha & _)|[? _]]; try congruence;
      (split; [done|]); intros q; rewrite sort_ints_perm, elem_of_elements, Ha, elem_of_list_to_set; done.
  - intros err He. rewrite He in *. cbn in *. split_and!; [|by rewrite Ho|done].
    by destruct (consumerReady (bus s)); [specialize (Hr eq_refl)|].
Qed.

(** ** Witnesses *)

(** A run of Consume alone, by the answers it gets. *)
Fixpoint drive (answers : list answer) (p : pc) (b : KafkaBus)
  : option (pc * KafkaBus) :=
  match answers with
  | [] => Some (p, b)
  | a :: answers =>
    match consume_step a p b with
    | Some (p', b') => drive answers p' b'
    | None => None
    end
  end.

Lemma drive_reachable answers k p' b' : forall p b,
  reachable (mkSystem p k b) -> drive answers p b = Some (p', b') ->
  reachable (mkSystem p' k b').
Proof.
  induction answers as [|a answers IH]; cbn; intros p b Hr Hd; [by simplify_eq|].
  destruct (consume_step a p b) as [[p1 b1]|] eqn:Hs; [|done].
  apply (IH p1 b1); [|done]. eapply reach_step; [exact Hr|]. by eapply step_consume.
Qed.

Definition sample_config : KafkaConfig := mkKafkaConfig ["k:9092"%string] "danmu" "gateways".
Definition sample_danmaku (content : string) : Danmaku := mkDanmaku "id" "room" "user" content 0 1%Z.
(** What the writer stores for it. *)
Definition sample_text (content : string) : string :=
  match MarshalDanmaku 0 (sample_danmaku content) with Ok v => v | Err _ => ""%string end.
Definition sample_message (offset : Z) (value : string) : KafkaMessage :=
  mkKafkaMessage "danmu" 1 offset "room" value.
Definition sample_log : list KafkaMessage :=
  [sample_message 3 (sample_text "a"); sample_message 4 "{"; sample_message 7 (sample_text "b")].

(** Two sessions: the first delivers "a", skips the broken message, and fails on
    "b"; the second reads "b" again. *)
Definition first_script : list iteration :=
  (fun m => mkIteration (Ok m) (if bool_decide (Offset m = 7%Z) then Some (Errorf "busy") else None)
              None true) <$> sample_log.
Definition second_script : list iteration := [mkIteration (Ok (sample_message 7 (sample_text "b"))) None None true].

Lemma group_at_least_once_witness :
  (sample_message 7 (sample_text "b"), sample_danmaku "b") ∈
    [(sample_message 3 (sample_text "a"), sample_danmaku "a")] ++ [(sample_message 7 (sample_text "b"), sample_danmaku "b")].
Proof.
  refine (proj2 (group_at_least_once "danmu" 1 sample_log 3 8 _ _ _)
    (sample_message 7 (sample_text "b")) (sample_danmaku "b") _ _ eq_refl).
  - split; repeat constructor; unfold before, max_i64; cbn; lia.
  - refine (group_session "danmu" 1 sample_log 3 5
      [(sample_message 3 (sample_text "a"), sample_danmaku "a")] second_script
      (consume_loop second_script).2 _ _ _).
    + refine (group_session "danmu" 1 sample_log 3 3 [] first_script
        (consume_loop first_script).2 _ _ _).
      * constructor.
      * exists []. reflexivity.
      * reflexivity.
    + exists []. reflexivity.
    + reflexivity.
  - do 2 right. left.
  - cbn. lia.
Defined.

Lemma published_danmaku_is_consumed_witness :
  head (consume_one (mkIteration (Ok (sample_message 7 (sample_text "hi"))) None None true)).1
  = Some (EHandler (sample_message 7 (sample_text "hi")) (sample_danmaku "hi") None).
Proof.
  destruct (NewKafka sample_config) as [b|] eqn:Hb; [|by vm_compute in Hb].
  destruct (published_danmaku_is_consumed 0 (fun _ _ => None) b (sample_danmaku "hi") (sample_text "hi"))
    as (_ & H & _).
  - by split.
  - by split.
  - vm_compute. reflexivity.
  - vm_compute in Hb. by injection Hb as <-.
  - vm_compute. reflexivity.
  - rewrite (H (mkIteration _ _ _ _) (sample_message 7 (sample_text "hi")) eq_refl eq_refl).
    vm_compute. reflexivity.
Defined.

Lemma consumeGeneration_spec_witness :
  consumeGeneration None [mkAssignment 0 0; mkAssignment 1 5]
    [(None, [mkIteration (Err ErrGenerationEnded) None None false]);
     (None, [mkIteration (Ok (sample_message 7 (sample_text "b"))) (Some (Errorf "busy")) None false])]
  = Some (Wrap "handle kafka message" (Errorf "busy")).
Proof. rewrite (consumeGeneration_spec None); reflexivity. Defined.

Definition sample_answers : list answer :=
  [ANewGroup (Ok 1); ANone; ANone; ANone; ANext (Err RebalanceInProgress) true; ANone; ANone;
   ANext (Ok [mkAssignment 1 3]) true;
   ALookup (fun _ _ => Ok [(1%Z, None); (0%Z, None)]) (fun _ => false); ANone; ANone].

Definition sample_run : option (pc * KafkaBus) :=
  match NewKafka sample_config with
  | Ok b => drive sample_answers PNewGroup b
  | Err _ => None
  end.

Lemma sample_run_reachable p b :
  sample_run = Some (p, b) -> reachable (mkSystem p KOpen b).
Proof.
  unfold sample_run. destruct (NewKafka sample_config) as [b0|] eqn:Hn; [|done].
  apply drive_reachable. by apply (reach_init sample_config).
Qed.

Lemma Consume_ownership_witness :
  exists p b, sample_run = Some (p, b) /\ ConsumerReady (Some b) = true /\
    exists gen ps, installed p = Some (gen, ps) /\ topicPartitions b = ps /\
      AssignedPartitions (Some b) = [1%Z].
Proof.
  destruct sample_run as [[p b]|] eqn:Hrun; [|vm_compute in Hrun; done].
  exists p, b. split; [done|].
  assert (Hready : consumerReady b = true) by (vm_compute in Hrun; by injection Hrun as <- <-).
  split; [done|].
  destruct (Consume_ownership (H := hash_by_length) (mkSystem p KOpen b)
    (sample_run_reachable p b Hrun)) as (_ & H & _).
  destruct (H Hready) as (gen & ps & Hi & Hb). exists gen, ps. split; [done|].
  split; [by apply Hb|]. vm_compute in Hrun. injection Hrun as <- <-. vm_compute. reflexivity.
Defined.

End KafkaConsume.
