(* ===== verification/Generation.v ===== *)
(** * One generation among its workers (internal/bus/kafka.go consumeGeneration,
    consumePartition)

    KafkaConsume gives consumePartition as a function of a script and consumeGeneration as
    a function of its workers' results.  Here the workers are goroutines: each reads,
    handles and commits the messages of its partition statement by statement, interleaved
    with the others and with the caller that waits for them; they share the channel of
    errors and the generation, which a rebalance ends, and, as kafka-go's Start documents,
    the first of its functions to return. *)

From S2P Require Import Prelude.
From S2P Require Import GoChan.
From S2P Require Import Message.
From S2P Require Import Kafka.
From S2P Require Import KafkaConsume.

Module Generation.
Import Kafka.
Import KafkaConsume.

(** Why an offset is committed: lines 436, 452, 463. *)
Inductive commit_kind := Malformed | Invalid | Handled (d : Danmaku).

(** A worker before SetOffset, in FetchMessage, in the handler, in CommitOffsets; with the
    result of consumePartition, before line 386; without a partition, waiting for the end;
    before its deferred Done. *)
Inductive worker_pc :=
  | WOffset | WFetch | WHandle (m : KafkaMessage) (d : Danmaku) | WCommit (m : KafkaMessage) (k : commit_kind)
  | WReport (err : error) | WWait | WDone | WGone.

Record worker := mkWorker { pc : worker_pc; trace : list event }.

(** The caller: in Wait, before its last select, returned. *)
Inductive collector_pc := CWait | CSelect | CReturned (err : option error).

(** [reported]: the workers in the order in which they have passed line 386. *)
Record generation := mkGeneration {
  workers : list worker; ended : bool; errs : chan error; ctx_err : option error;
  collector : collector_pc; reported : list nat;
}.

Definition consumeGeneration_start (assignments : list PartitionAssignment) : generation :=
  mkGeneration (match assignments with [] => [mkWorker WWait []] | _ => (fun _ => mkWorker WOffset []) <$> assignments end)
    false (make_chan (length assignments)) None CWait [].

Inductive choice :=
  | SetOffset (err : option error) | Fetch (r : result KafkaMessage) | Handler (err : option error)
  | Commit (err : option error) (stored : bool) | Report | Ended | Leave.

(** FetchMessage reports the end of a generation only when it has ended. *)
Definition may_fetch (ended : bool) (r : result KafkaMessage) : bool :=
  match r with Err err => implb (errors_Is err ErrGenerationEnded) ended | Ok _ => true end.

Definition commit_text (k : commit_kind) : string :=
  match k with
  | Malformed => "commit malformed message offset"
  | Invalid => "commit invalid message offset"
  | Handled _ => "commit kafka message offset"
  end.

(** The statements of consumePartition. *)
Definition partition_step (ended : bool) (ch : choice) (w : worker) : option worker :=
  match pc w, ch with
  | WOffset, SetOffset (Some err) => Some (mkWorker (WReport err) (trace w))
  | WOffset, SetOffset None => Some (mkWorker WFetch (trace w))
  | WFetch, Fetch r =>
    if may_fetch ended r then
      Some (mkWorker (match r with
        | Err err => WReport err
        | Ok m =>
          match UnmarshalDanmaku (Value m) with
          | Err _ => WCommit m Malformed
          | Ok danmaku => match Validate danmaku with Some _ => WCommit m Invalid | None => WHandle m danmaku end
          end
        end) (trace w))
    else None
  | WHandle m d, Handler (Some err) =>
    Some (mkWorker (WReport (Wrap "handle kafka message" err)) (trace w ++ [EHandler m d (Some err)]))
  | WHandle m d, Handler None => Some (mkWorker (WCommit m (Handled d)) (trace w ++ [EHandler m d None]))
  | WCommit m k, Commit err stored =>
    let w := trace w ++ [ECommit (offsetsAfter m) (stored || bool_decide (err = None))] in
    Some (mkWorker (match err with Some err => WReport (Wrap (commit_text k) err) | None => WFetch end) w)
  | _, _ => None
  end.

(** The worker's function: after consumePartition the send, with its default clause, then
    the deferred Done, after which kafka-go ends the generation. *)
Definition worker_step (i : nat) (ch : choice) (s : generation) : option (outcome generation) :=
  let 'mkGeneration ws en es ctx col rep := s in
  w ← ws !! i;
  let moved pc := <[i := mkWorker pc (trace w)]> ws in
  match pc w, ch with
  | WReport err, Report =>
    if errors_Is err ErrGenerationEnded then Some (Returns (mkGeneration (moved WDone) en es ctx col (rep ++ [i])))
    else match send es err with
    | Some sent => Some (es ← sent; Returns (mkGeneration (moved WDone) en es ctx col (rep ++ [i])))
    | None => Some (Returns (mkGeneration (moved WDone) en es ctx col (rep ++ [i])))
    end
  | WWait, Ended => if en then Some (Returns (mkGeneration (moved WDone) en es ctx col (rep ++ [i]))) else None
  | WDone, Leave => Some (Returns (mkGeneration (moved WGone) true es ctx col rep))
  | _, _ => w ← partition_step en ch w; Some (Returns (mkGeneration (<[i := w]> ws) en es ctx col rep))
  end.

Definition all_gone (ws : list worker) : bool :=
  forallb (fun w => match pc w with WGone => true | _ => false end) ws.

(** Lines 396-406. *)
Definition collect_step (s : generation) : option generation :=
  let 'mkGeneration ws en es ctx col rep := s in
  match col with
  | CWait =>
    if all_gone ws then
      Some (mkGeneration ws en es ctx (match ctx with Some err => CReturned (Some err) | None => CSelect end) rep)
    else None
  | CSelect =>
    match recv es with
    | Some (err, es) => Some (mkGeneration ws en es ctx (CReturned err) rep)
    | None => Some (mkGeneration ws en es ctx (CReturned None) rep)
    end
  | CReturned _ => None
  end.

(** Workers and caller, a rebalance, the end of the caller's context. *)
Inductive step (s : generation) : outcome generation -> Prop :=
  | step_worker i ch o : worker_step i ch s = Some o -> step s o
  | step_collect s' : collect_step s = Some s' -> step s (Returns s')
  | step_rebalance :
      step s (Returns (mkGeneration (workers s) true (errs s) (ctx_err s) (collector s) (reported s)))
  | step_context err :
      ctx_err s = None ->
      step s (Returns (mkGeneration (workers s) (ended s) (errs s) (Some err) (collector s) (reported s))).

Inductive reachable (assignments : list PartitionAssignment) : generation -> Prop :=
  | reachable_start : reachable assignments (consumeGeneration_start assignments)
  | reachable_step s s' : reachable assignments s -> step s (Returns s') -> reachable assignments s'.

(** ** A worker runs consumePartition *)

(** What a worker stands for: the result of SetOffset and a script. *)
Definition simulates (assignments : list PartitionAssignment) (w : worker) (x : option error * list iteration) : Prop :=
  let running := consumePartition x.1 x.2 in
  match pc w with
  | WOffset => trace w = [] /\ x = (None, [])
  | WFetch => running = (Running, trace w)
  | WHandle m d => running = (Running, trace w) /\ deliverable m = Some d
  | WCommit m Malformed => running = (Running, trace w) /\ exists err, UnmarshalDanmaku (Value m) = Err err
  | WCommit m Invalid =>
    running = (Running, trace w) /\ exists d err, UnmarshalDanmaku (Value m) = Ok d /\ Validate d = Some err
  | WCommit m (Handled d) => exists front,
    trace w = front ++ [EHandler m d None] /\ running = (Running, front) /\ deliverable m = Some d
  | WReport err => running = (Stopped err, trace w)
  | WWait => trace w = [] /\ x = (None, [])
  | WDone | WGone =>
    match assignments with [] => trace w = [] /\ x = (None, []) | _ => exists err, running = (Stopped err, trace w) end
  end.

Lemma consume_loop_app front script t : consume_loop front = (Running, t) ->
  consume_loop (front ++ script) = ((consume_loop script).1, t ++ (consume_loop script).2).
Proof.
  revert t. induction front as [|it front IH]; intros t; cbn.
  - intros [= <-]. by destruct (consume_loop script).
  - destruct (consume_one it) as [events [err|]]; [done|]. destruct (consume_loop front) as [e rest].
    intros [= -> <-]. by rewrite (IH rest eq_refl), app_assoc.
Qed.

Lemma consumePartition_snoc so script it t : consumePartition so script = (Running, t) ->
  consumePartition so (script ++ [it]) =
    (match (consume_one it).2 with Some err => Stopped err | None => Running end, t ++ (consume_one it).1).
Proof.
  destruct so; cbn; [done|]. intros Hr. rewrite (consume_loop_app _ _ _ Hr). cbn.
  destruct (consume_one it) as [events [err|]]; cbn; by rewrite ?app_nil_r.
Qed.

Lemma deliverable_some m d : deliverable m = Some d ->
  UnmarshalDanmaku (Value m) = Ok d /\ Validate d = None.
Proof.
  unfold deliverable. destruct (UnmarshalDanmaku (Value m)) as [d'|]; [|done].
  destruct (Validate d') eqn:Hv; [done|]. by intros [= <-].
Qed.

Lemma partition_step_simulates assignments en ch w w' x :
  simulates assignments w x -> partition_step en ch w = Some w' -> exists x', simulates assignments w' x'.
Proof.
  intros Hsim Hs. destruct w as [p t], x as [so script]. unfold simulates in Hsim. cbn [pc trace fst snd] in *.
  destruct p as [| |m d|m k|err| | |], ch as [err'|r|err'|err' st| | |]; try done; cbn in Hs.
  - destruct Hsim as [-> [= -> ->]]. destruct err' as [err'|]; injection Hs as <-; [by exists (Some err', [])|by exists (None, [])].
  - destruct (may_fetch en r); [|done]. injection Hs as <-. destruct r as [m|err].
    + exists (so, script). unfold simulates. cbn [pc trace fst snd].
      destruct (UnmarshalDanmaku (Value m)) as [d|err] eqn:Hu; [|by split; [|exists err]].
      destruct (Validate d) as [err|] eqn:Hv; [by split; [|exists d, err]|]. split; [done|].
      unfold deliverable. by rewrite Hu, Hv.
    + exists (so, script ++ [mkIteration (Err err) None None false]). unfold simulates. cbn [pc trace fst snd].
      rewrite (consumePartition_snoc _ _ _ _ Hsim). cbn. by rewrite app_nil_r.
  - destruct Hsim as [Hr Hd]. destruct (deliverable_some _ _ Hd) as [Hu Hv].
    destruct err' as [err|]; injection Hs as <-.
    + exists (so, script ++ [mkIteration (Ok m) (Some err) None false]). unfold simulates. cbn [pc trace fst snd].
      rewrite (consumePartition_snoc _ _ _ _ Hr). unfold consume_one. cbn [fetched handled]. by rewrite Hu, Hv.
    + exists (so, script). unfold simulates. cbn [pc trace fst snd]. by exists t.
  - injection Hs as <-. exists (so, script ++ [mkIteration (Ok m) None err' st]). unfold simulates. cbn [pc trace fst snd].
    destruct k as [| |d]; [destruct Hsim as (Hr & e & Hu)|destruct Hsim as (Hr & d & e & Hu & Hv)|
      destruct Hsim as (front & -> & Hr & Hd); apply deliverable_some in Hd as [Hu Hv]];
      pose proof (consumePartition_snoc so script (mkIteration (Ok m) None err' st) _ Hr) as Hsn;
      unfold consume_one, commit in Hsn; cbn [fetched handled committed stored] in Hsn; rewrite Hu in Hsn; try rewrite Hv in Hsn;
      destruct err' as [err|]; cbn in Hsn |- *; by rewrite Hsn, <- ?app_assoc.
Qed.

(** ** The invariant *)

Definition reported_pc (p : worker_pc) : bool := match p with WDone | WGone => true | _ => false end.

(** The errors sent so far, given what each worker stands for. *)
Definition sent (f : nat -> option error * list iteration) (rep : list nat) : list error :=
  failures (worker_result <$> (f <$> rep)).
#[global] Arguments sent : simpl never.

Section generation.
Context (assignments : list PartitionAssignment).

Record generation_inv (s : generation) : Prop := {
  gi_workers : exists f, (forall i w, workers s !! i = Some w -> simulates assignments w (f i)) /\
    match collector s with
    | CWait | CSelect => errs s = mkChan (length assignments) (sent f (reported s)) false
    | CReturned r => exists c, (c = None \/ c = ctx_err s) /\ r = consumeGeneration c assignments (f <$> reported s)
    end;
  gi_length : length (workers s) = match assignments with [] => 1 | _ => length assignments end;
  gi_nodup : NoDup (reported s);
  gi_reported : forall i, i ∈ reported s <-> exists w, workers s !! i = Some w /\ reported_pc (pc w) = true;
  gi_kind : forall i w, workers s !! i = Some w ->
    reported_pc (pc w) = true \/ (assignments = [] <-> pc w = WWait);
  gi_ended : forall i w, workers s !! i = Some w -> pc w = WGone -> ended s = true;
  gi_collector : collector s <> CWait -> all_gone (workers s) = true;
}.

Lemma generation_start_inv : generation_inv (consumeGeneration_start assignments).
Proof.
  assert (Hw : forall i w, workers (consumeGeneration_start assignments) !! i = Some w ->
    w = mkWorker (match assignments with [] => WWait | _ => WOffset end) []).
  { unfold consumeGeneration_start. cbn [workers]. destruct assignments as [|a l]; intros i w Hi.
    - by apply list_lookup_singleton_Some in Hi as [_ <-].
    - by apply list_lookup_fmap_Some in Hi as (? & -> & _). }
  split; try done.
  - exists (fun _ => (None, [])). split; [|done]. intros i w ->%Hw. by destruct assignments.
  - unfold consumeGeneration_start. cbn [workers]. destruct assignments; [done|by rewrite length_fmap].
  - constructor.
  - intros i. split; [by intros ?%elem_of_nil|]. intros (w & ->%Hw & Hr). by destruct assignments.
  - intros i w ->%Hw. right. by destruct assignments.
  - intros i w ->%Hw. by destruct assignments.
Qed.

(** Replacing what worker [i] stands for. *)
Definition update {A} (f : nat -> A) (i : nat) (x : A) : nat -> A := fun j => if decide (j = i) then x else f j.

Lemma update_same {A} (f : nat -> A) i x : update f i x i = x.
Proof. unfold update. by rewrite decide_True. Qed.
Lemma update_other {A} (f : nat -> A) i j x : j <> i -> update f i x j = f j.
Proof. intros. unfold update. by rewrite decide_False. Qed.
Lemma update_list {A} (f : nat -> A) i x (l : list nat) : i ∉ l -> update f i x <$> l = f <$> l.
Proof. intros Hi. apply list_fmap_ext. intros k j Hj. apply update_other. intros ->. apply Hi. by eapply list_elem_of_lookup_2. Qed.

Lemma insert_cases (ws : list worker) i w' j v :
  <[i := w']> ws !! j = Some v -> (j = i /\ v = w') \/ (j <> i /\ ws !! j = Some v).
Proof.
  intros Hj. destruct (decide (j = i)) as [->|Hne]; [left|right; by rewrite list_lookup_insert_ne in Hj].
  assert (Hlt : i < length ws) by (apply lookup_lt_Some in Hj; by rewrite length_insert in Hj).
  rewrite list_lookup_insert_eq in Hj by done. by injection Hj.
Qed.

Lemma all_gone_lookup ws i w : all_gone ws = true -> ws !! i = Some w -> pc w = WGone.
Proof.
  unfold all_gone. intros Hg Hi. assert (Hb := proj1 (forallb_forall _ _) Hg w).
  rewrite <- list_elem_of_In in Hb. specialize (Hb (list_elem_of_lookup_2 _ _ _ Hi)). by destruct (pc w).
Qed.

(** A worker that has not reported, so that the caller still waits. *)
Lemma waiting s i w : generation_inv s -> workers s !! i = Some w -> pc w <> WGone -> collector s = CWait.
Proof.
  intros Hi Hw Hne. assert (Hc := gi_collector _ Hi). destruct (collector s) eqn:Hcol; [done|exfalso..];
    by apply Hne, (all_gone_lookup (workers s) i); [apply Hc|].
Qed.

(** A worker that goes on without having reported. *)
Lemma worker_moves_inv s i w w' x :
  generation_inv s -> workers s !! i = Some w -> reported_pc (pc w) = false -> reported_pc (pc w') = false ->
  (pc w' = WWait <-> pc w = WWait) -> simulates assignments w' x ->
  generation_inv (mkGeneration (<[i := w']> (workers s)) (ended s) (errs s) (ctx_err s) (collector s) (reported s)).
Proof.
  intros Hi Hw Hr Hr' Hk Hx. assert (Hcol : collector s = CWait) by (apply (waiting s i w); [done|done|by intros Hp; rewrite Hp in Hr]).
  assert (Hni : i ∉ reported s).
  { intros (v & Hv & Hrv)%(gi_reported _ Hi). rewrite Hw in Hv. injection Hv as <-. congruence. }
  pose proof (lookup_lt_Some _ _ _ Hw) as Hlt.
  destruct Hi as [(f & Hsim & He) Hlen Hnd Hrep Hkind Hend Hcl]. rewrite Hcol in *. split; cbn; try done.
  - exists (update f i x). split.
    + intros j v [[-> ->]|[Hne Hj]]%insert_cases; [by rewrite update_same|rewrite update_other by done; by apply Hsim].
    + unfold sent. by rewrite update_list.
  - by rewrite length_insert.
  - intros j. rewrite Hrep. split; intros (v & Hv & Hrv).
    + exists v. split; [|done]. rewrite list_lookup_insert_ne; [done|]. intros ->. rewrite Hw in Hv. injection Hv as ->. congruence.
    + apply insert_cases in Hv as [[-> ->]|[_ Hv]]; [congruence|by exists v].
  - intros j v [[-> ->]|[Hne Hj]]%insert_cases; [|by apply (Hkind j)]. right. rewrite Hk.
    destruct (Hkind i w Hw) as [?|?]; [congruence|done].
  - intros j v [[-> ->]|[Hne Hj]]%insert_cases Hg; [by rewrite Hg in Hr'|by apply (Hend j v)].
Qed.

(** The channel always has room for a worker's error. *)
Lemma reported_room s i w : generation_inv s -> workers s !! i = Some w -> reported_pc (pc w) = false ->
  S (length (reported s)) <= length (workers s).
Proof.
  intros Hi Hw Hr. rewrite <- (length_seq (length (workers s)) 0).
  change (S (length (reported s))) with (length (i :: reported s)). apply submseteq_length, NoDup_submseteq.
  - constructor; [|by apply gi_nodup]. intros (v & Hv & Hrv)%(gi_reported _ Hi). rewrite Hw in Hv. injection Hv as <-. congruence.
  - intros j Hj. apply elem_of_seq. split; [lia|]. cbn. apply elem_of_cons in Hj as [->|(v & Hv & _)%(gi_reported _ Hi)];
      by eapply lookup_lt_Some.
Qed.

Lemma failures_length l : length (failures l) <= length l.
Proof. unfold failures. induction l as [|e l IH]; cbn; [done|]. destruct e as [e|]; [destruct (errors_Is _ _)|]; cbn; lia. Qed.

Lemma sent_snoc f rep i :
  sent f (rep ++ [i]) = sent f rep ++ failures [worker_result (f i)].
Proof. unfold sent, failures. by rewrite !fmap_app, omap_app. Qed.

(** A worker reports: the channel then holds the failures of one more. *)
Lemma worker_reports_inv s i w es :
  generation_inv s -> workers s !! i = Some w -> reported_pc (pc w) = false ->
  (forall x, simulates assignments w x -> simulates assignments (mkWorker WDone (trace w)) x /\
     es = mkChan (cap (errs s)) (buf (errs s) ++ failures [worker_result x]) (closed (errs s))) ->
  generation_inv (mkGeneration (<[i := mkWorker WDone (trace w)]> (workers s)) (ended s) es (ctx_err s) (collector s)
    (reported s ++ [i])).
Proof.
  intros Hi Hw Hr Hes. assert (Hcol : collector s = CWait) by (apply (waiting s i w); [done|done|by intros Hp; rewrite Hp in Hr]).
  assert (Hni : i ∉ reported s).
  { intros (v & Hv & Hrv)%(gi_reported _ Hi). rewrite Hw in Hv. injection Hv as <-. congruence. }
  pose proof (lookup_lt_Some _ _ _ Hw) as Hlt.
  destruct Hi as [(f & Hsim & He) Hlen Hnd Hrep Hkind Hend Hcl]. rewrite Hcol in *. split; cbn; try done.
  - exists f. destruct (Hes _ (Hsim i w Hw)) as [Hdone ->]. rewrite He. cbn [cap buf closed].
    rewrite sent_snoc. split; [|done]. intros j v [[-> ->]|[Hne Hj]]%insert_cases; [done|by apply Hsim].
  - by rewrite length_insert.
  - apply NoDup_app. split_and!; [done|intros j Hj ->%list_elem_of_singleton; done|apply NoDup_singleton].
  - intros j. rewrite elem_of_app, Hrep, list_elem_of_singleton. split.
    + intros [(v & Hv & Hrv)| ->].
      * exists v. split; [|done]. rewrite list_lookup_insert_ne; [done|]. intros ->. rewrite Hw in Hv. injection Hv as ->. congruence.
      * eexists. by split; [apply list_lookup_insert_eq|].
    + intros (v & Hv & Hrv). apply insert_cases in Hv as [[-> ->]|[_ Hv]]; [by right|left; by exists v].
  - intros j v [[-> ->]|[Hne Hj]]%insert_cases; [by left|by apply (Hkind j)].
  - intros j v [[-> ->]|[Hne Hj]]%insert_cases Hg; [done|by apply (Hend j v)].
Qed.

Lemma worker_leaves_inv s i w :
  generation_inv s -> workers s !! i = Some w -> pc w = WDone ->
  generation_inv (mkGeneration (<[i := mkWorker WGone (trace w)]> (workers s)) true (errs s) (ctx_err s) (collector s) (reported s)).
Proof.
  intros Hi Hw Hd. assert (Hcol : collector s = CWait) by (apply (waiting s i w); [done|done|by rewrite Hd]).
  pose proof (lookup_lt_Some _ _ _ Hw) as Hlt.
  destruct Hi as [(f & Hsim & He) Hlen Hnd Hrep Hkind Hend Hcl]. rewrite Hcol in *. split; cbn; try done.
  - exists f. split; [|done]. intros j v [[-> ->]|[Hne Hj]]%insert_cases; [|by apply Hsim].
    specialize (Hsim i w Hw). unfold simulates in *. by rewrite Hd in Hsim.
  - by rewrite length_insert.
  - intros j. rewrite Hrep. split; intros (v & Hv & Hrv).
    + destruct (decide (j = i)) as [->|Hne]; [eexists; by split; [apply list_lookup_insert_eq|]|].
      exists v. by rewrite list_lookup_insert_ne.
    + apply insert_cases in Hv as [[-> ->]|[_ Hv]]; [exists w; by rewrite Hd|by exists v].
  - intros j v [[-> ->]|[Hne Hj]]%insert_cases; [by left|by apply (Hkind j)].
Qed.

Lemma partition_step_pcs en ch w w' : partition_step en ch w = Some w' ->
  reported_pc (pc w) = false /\ reported_pc (pc w') = false /\ pc w <> WWait /\ pc w' <> WWait.
Proof.
  destruct w as [p t]. destruct p, ch; try done; cbn; intros Hs; repeat (case_match; cbn in Hs); by simplify_eq.
Qed.

Lemma worker_step_inv i ch s o : generation_inv s -> worker_step i ch s = Some o ->
  exists s', o = Returns s' /\ generation_inv s'.
Proof.
  intros Hi Hs. pose proof (worker_moves_inv s i) as Hmove. pose proof (worker_reports_inv s i) as Hreport.
  pose proof (worker_leaves_inv s i) as Hleave. pose proof (reported_room s i) as Hroom. pose proof Hi as Hinv.
  destruct Hi as [(f & Hsim & He) Hlen _ _ Hkind _ _]. pose proof (waiting s i) as Hwait.
  destruct s as [ws en es ctx col rep]. cbn in *. destruct (ws !! i) as [w|] eqn:Hw; [|done]. cbn in Hs.
  specialize (Hsim i w Hw).
  assert (Hpart : partition_step en ch w ≫= (fun w => Some (Returns (mkGeneration (<[i := w]> ws) en es ctx col rep))) = Some o ->
    exists s', o = Returns s' /\ generation_inv s').
  { intros Hp. destruct (partition_step en ch w) as [w'|] eqn:Hps; [|done]. cbn in Hp. injection Hp as <-.
    eexists. split; [reflexivity|]. destruct (partition_step_simulates _ _ _ _ _ _ Hsim Hps) as [x Hx].
    destruct (partition_step_pcs _ _ _ _ Hps) as (H1 & H2 & H3 & H4). by apply (Hmove w w' x). }
  destruct (pc w) as [| |m d|m k|err| | |] eqn:Hpc; try exact (Hpart Hs); destruct ch; try exact (Hpart Hs); clear Hpart.
  - assert (Hcw : col = CWait) by (apply (Hwait w); [done|done|by rewrite Hpc]). subst col.
    assert (Hne : assignments <> []).
    { destruct (Hkind i w Hw) as [Hbad|Hk]; rewrite Hpc in *; [done|]. by intros ?%Hk. }
    assert (Hres : forall x, simulates assignments w x -> worker_result x = Some err /\
      simulates assignments (mkWorker WDone (trace w)) x).
    { intros x Hx. unfold simulates in Hx. rewrite Hpc in Hx. split; [unfold worker_result; by rewrite Hx|].
      unfold simulates. cbn. destruct assignments; [done|]. by exists err. }
    destruct (errors_Is err ErrGenerationEnded) eqn:Hge.
    + injection Hs as <-. eexists. split; [reflexivity|]. apply (Hreport w es); [done|done|by rewrite Hpc|].
      intros x Hx. destruct (Hres x Hx) as [-> Hd]. split; [done|]. unfold failures. cbn. rewrite Hge, app_nil_r. by destruct es.
    + assert (Hsend : send es err = Some (Returns (mkChan (cap es) (buf es ++ [err]) false))).
      { subst es. unfold send. cbn. rewrite bool_decide_eq_true_2; [done|].
        specialize (Hroom w Hinv eq_refl ltac:(by rewrite Hpc)).
        pose proof (failures_length (worker_result <$> (f <$> rep))) as Hf. rewrite !length_fmap in Hf. unfold sent.
        destruct assignments; [done|]. lia. }
      rewrite Hsend in Hs. cbn in Hs. injection Hs as <-. eexists. split; [reflexivity|].
      apply (Hreport w); [done|done|by rewrite Hpc|].
      intros x Hx. destruct (Hres x Hx) as [-> Hd]. split; [done|]. unfold failures. cbn. rewrite Hge. by subst es.
  - destruct en; [|done]. injection Hs as <-. eexists. split; [reflexivity|].
    apply (Hreport w es); [done|done|by rewrite Hpc|]. intros x Hx. unfold simulates in Hx. rewrite Hpc in Hx.
    destruct Hx as [Ht ->]. split.
    + unfold simulates. cbn. destruct (Hkind i w Hw) as [Hbad|Hk]; rewrite Hpc in *; [done|]. by rewrite (proj2 Hk eq_refl), Ht.
    + cbn. rewrite app_nil_r. by destruct es.
  - injection Hs as <-. eexists. split; [reflexivity|]. by apply (Hleave w).
Qed.

(** When all workers have gone, what the channel holds is what the function collects. *)
Lemma collected f s c :
  generation_inv s -> (forall i w, workers s !! i = Some w -> simulates assignments w (f i)) ->
  consumeGeneration c assignments (f <$> reported s) =
    match c with Some err => Some err | None => head (sent f (reported s)) end.
Proof.
  intros Hi Hsim. unfold consumeGeneration. destruct c as [err|]; [done|]. case_bool_decide as Ha.
  - assert (Hnone : Forall (fun i => worker_result (f i) = None) (reported s)).
    { apply Forall_forall. intros i (w & Hw & Hr)%(gi_reported _ Hi). specialize (Hsim i w Hw). unfold simulates in Hsim.
      rewrite Ha in Hsim. destruct (pc w); try done; by destruct Hsim as [_ ->]. }
    unfold sent. induction Hnone as [|i l Hn _ IH]; cbn; [done|]. unfold failures in *. cbn. by rewrite Hn.
  - rewrite worker_exits_collect; [done|]. rewrite !length_fmap. cbn.
    rewrite <- (length_seq (length assignments) 0). apply submseteq_length, NoDup_submseteq; [by apply gi_nodup|].
    intros i (w & Hw%lookup_lt_Some & _)%(gi_reported _ Hi). rewrite (gi_length _ Hi) in Hw. apply elem_of_seq.
    destruct assignments; [done|]. cbn. cbn in Hw. lia.
Qed.

Lemma collect_step_inv s s' : generation_inv s -> collect_step s = Some s' -> generation_inv s'.
Proof.
  intros Hi Hs. pose proof Hi as [(f & Hsim & He) Hlen Hnd Hrep Hkind Hend Hcl]. pose proof (fun c => collected f s c Hi Hsim) as Hc.
  destruct s as [ws en es ctx col rep]. cbn in *. destruct col; [| |done].
  - destruct (all_gone ws) eqn:Hg; [|done]. injection Hs as <-. split; cbn; try done. exists f. split; [done|].
    destruct ctx as [err|]; [|done]. exists (Some err). split; [by right|]. by rewrite Hc.
  - assert (Hg : all_gone ws = true) by (by apply Hcl). subst es. unfold recv in Hs. cbn in Hs.
    destruct (sent f rep) as [|err l] eqn:Hsent; injection Hs as <-; split; cbn; try done; exists f; (split; [done|]);
      exists None; (split; [by left|]); by rewrite Hc.
Qed.

Lemma generation_step_inv s o : generation_inv s -> step s o -> exists s', o = Returns s' /\ generation_inv s'.
Proof.
  intros Hi Hs. destruct Hs as [i ch o Hs|s' Hs| |err He]; [by eapply worker_step_inv|..]; eexists; (split; [reflexivity|]).
  - by eapply collect_step_inv.
  - destruct Hi as [Hw Hlen Hnd Hrep Hkind Hend Hcl]. by split.
  - destruct Hi as [(f & Hsim & Hcol) Hlen Hnd Hrep Hkind Hend Hcl]. split; cbn; try done. exists f. split; [done|].
    destruct (collector s) as [| |r]; [done|done|]. destruct Hcol as (c & [->|Hc] & ->); [exists None; by split; [left|]|].
    rewrite He in Hc. subst c. exists None. by split; [left|].
Qed.

Lemma generation_reachable_inv s : reachable assignments s -> generation_inv s.
Proof.
  induction 1 as [|s s' _ IH Hs]; [apply generation_start_inv|]. by destruct (generation_step_inv _ _ IH Hs) as (? & [= <-] & ?).
Qed.

(** ** Properties *)

Lemma simulates_trace w x : simulates assignments w x -> w.(pc) <> WDone -> w.(pc) <> WGone ->
  exists so script, trace w `prefix_of` (consumePartition so script).2.
Proof.
  intros Hs H1 H2. unfold simulates in Hs. destruct x as [so script]. cbn [fst snd] in Hs.
  destruct (pc w) as [| |m d|m [| |d]|err| | |]; try done.
  - destruct Hs as [-> _]. exists None, []. apply prefix_nil.
  - exists so, script. by rewrite Hs.
  - destruct Hs as [Hs _]. exists so, script. by rewrite Hs.
  - destruct Hs as [Hs _]. exists so, script. by rewrite Hs.
  - destruct Hs as [Hs _]. exists so, script. by rewrite Hs.
  - destruct Hs as (front & -> & Hr & [Hu Hv]%deliverable_some).
    exists so, (script ++ [mkIteration (Ok m) None None true]). rewrite (consumePartition_snoc _ _ _ _ Hr).
    unfold consume_one. cbn [fetched handled snd fst]. rewrite Hu, Hv. cbn [fst].
    apply prefix_app. by exists [commit m (mkIteration (Ok m) None None true)].
  - exists so, script. by rewrite Hs.
  - destruct Hs as [-> _]. exists None, []. apply prefix_nil.
Qed.

(** C8: the workers refine the functions.  In every interleaving, what a worker has done
    with its partition is the beginning of what consumePartition does on some script, and
    all of it once it has left; and when the caller returns, every worker has left, once,
    and the result is what consumeGeneration computes of their results in the order in
    which they reported, for the context's error of that moment: the buffer of the error
    channel always suffices, so that the default clause drops nothing. *)
Theorem generation_refines s :
  reachable assignments s ->
  (forall i w, workers s !! i = Some w -> exists so script, trace w `prefix_of` (consumePartition so script).2) /\
  (forall r, collector s = CReturned r ->
     exists f : nat -> option error * list iteration, reported s ≡ₚ seq 0 (length (workers s)) /\
       (forall i w, workers s !! i = Some w -> assignments <> [] -> (consumePartition (f i).1 (f i).2).2 = trace w) /\
       exists c, (c = None \/ c = ctx_err s) /\ r = consumeGeneration c assignments (f <$> reported s)).
Proof.
  intros Hi%generation_reachable_inv. pose proof Hi as [(f & Hsim & Hcol) Hlen Hnd Hrep Hkind _ Hcl].
  assert (Hdone : forall i w, workers s !! i = Some w -> reported_pc (pc w) = true -> assignments <> [] ->
    (consumePartition (f i).1 (f i).2).2 = trace w).
  { intros i w Hw Hr Hne. specialize (Hsim i w Hw). unfold simulates in Hsim.
    destruct assignments; [done|]. destruct (pc w); try done; destruct Hsim as [err ->]; done. }
  split.
  - intros i w Hw. destruct (reported_pc (pc w)) eqn:Hr.
    + destruct assignments as [|a l] eqn:Ha.
      * exists None, []. specialize (Hsim i w Hw). unfold simulates in Hsim. destruct (pc w); try done;
          destruct Hsim as [-> _]; apply prefix_nil.
      * exists (f i).1, (f i).2. by rewrite (Hdone i w Hw Hr).
    + apply (simulates_trace w (f i)); [by apply Hsim|by intros Hp; rewrite Hp in Hr..].
  - intros r Hret. rewrite Hret in Hcol, Hcl. exists f. split_and!; [|intros i w Hw Hne|done].
    + apply NoDup_Permutation; [done|apply NoDup_seq|]. intros i. rewrite Hrep, elem_of_seq. split.
      * intros (w & Hw%lookup_lt_Some & _). lia.
      * intros [_ [w Hw]%lookup_lt_is_Some]. exists w. split; [done|]. by rewrite (all_gone_lookup _ i w (Hcl ltac:(done)) Hw).
    + apply (Hdone i w Hw); [|done]. by rewrite (all_gone_lookup _ i w (Hcl ltac:(done)) Hw).
Qed.

(** Statements a worker takes to its end, if it fetches no more messages. *)
Definition worker_rank (w : worker) : nat :=
  match pc w with
  | WHandle _ _ => 5 | WOffset | WCommit _ _ => 4 | WFetch => 3 | WReport _ | WWait => 2 | WDone => 1 | WGone => 0
  end.
Definition rank (s : generation) : nat := sum_list (worker_rank <$> workers s).

Definition allowance (ch : choice) : nat := match ch with Fetch (Ok _) => 3 | _ => 0 end.

Lemma worker_step_rank i ch s s' : worker_step i ch s = Some (Returns s') -> rank s' + 1 <= rank s + allowance ch.
Proof.
  intros Hs. unfold rank. destruct s as [ws en es ctx col rep]. cbn [workers] in *. unfold worker_step in Hs.
  destruct (ws !! i) as [w|] eqn:Hw; [|done]. cbn [mbind option_bind] in Hs.
  assert (Hone : forall w', worker_rank w' + 1 <= worker_rank w + allowance ch ->
    sum_list (worker_rank <$> <[i := w']> ws) + 1 <= sum_list (worker_rank <$> ws) + allowance ch).
  { intros w' Hr. rewrite (insert_take_drop ws i w') by (by eapply lookup_lt_Some).
    rewrite <- (take_drop_middle ws i w Hw) at 3. rewrite !fmap_app, !sum_list_with_app. cbn. lia. }
  assert (Hpart : forall w', partition_step en ch w = Some w' -> worker_rank w' + 1 <= worker_rank w + allowance ch).
  { intros w' Hp. destruct w as [p t]. unfold worker_rank. destruct p, ch; try done; cbn in Hp;
      repeat (case_match; cbn in Hp); simplify_eq; cbn; try lia; repeat case_match; cbn; lia. }
  destruct (pc w) eqn:Hpc, ch;
    try (destruct (partition_step en _ w) as [w'|] eqn:Hp; [|done]; cbn in Hs; injection Hs as <-; by apply Hone, Hpart).
  - destruct (errors_Is _ _); [injection Hs as <-; apply Hone; unfold worker_rank; rewrite Hpc; cbn; lia|].
    destruct (send es err) as [[es'|]|]; cbn in Hs; [|done|]; injection Hs as <-; apply Hone; unfold worker_rank; rewrite Hpc; cbn; lia.
  - destruct en; [|done]. injection Hs as <-. apply Hone. unfold worker_rank. rewrite Hpc. cbn. lia.
  - injection Hs as <-. apply Hone. unfold worker_rank. rewrite Hpc. cbn. lia.
Qed.

(** Runs in which the workers take [n] statements, with [k] the allowances of the messages
    they fetch. *)
Inductive run : nat -> nat -> generation -> generation -> Prop :=
  | run_end s : run 0 0 s s
  | run_worker i ch n k s s1 s' : worker_step i ch s = Some (Returns s1) -> run n k s1 s' -> run (S n) (allowance ch + k) s s'
  | run_other n k s s1 s' : workers s1 = workers s -> step s (Returns s1) -> run n k s1 s' -> run n k s s'.

Lemma generation_run_rank n k s s' : run n k s s' -> n + rank s' <= rank s + k.
Proof.
  induction 1 as [s|i ch n k s s1 s' Hs%worker_step_rank _ IH|n k s s1 s' Hw _ _ IH]; [lia|lia|].
  unfold rank in *. rewrite Hw in IH. lia.
Qed.

Lemma rank_le ws : sum_list (worker_rank <$> ws) <= 5 * length ws.
Proof.
  induction ws as [|w ws IH]; [done|]. cbn.
  assert (worker_rank w <= 5) by (unfold worker_rank; destruct (pc w); lia). lia.
Qed.

(** C9: a generation ends.  Nothing panics.  The first worker to leave, for whatever
    reason, ends the generation for all; once it has ended, any worker can move on without
    another message, at most five statements each besides those for the messages it still
    fetches; and when all have left the caller returns. *)
Theorem generation_ends s :
  reachable assignments s ->
  (forall o, step s o -> exists s', o = Returns s') /\
  (forall n k s', run n k s s' -> n <= 5 * length (workers s) + k) /\
  (forall i w, workers s !! i = Some w -> pc w = WGone -> ended s = true) /\
  (ended s = true -> forall i w, workers s !! i = Some w -> pc w <> WGone ->
     exists ch s', allowance ch = 0 /\ worker_step i ch s = Some (Returns s')) /\
  (all_gone (workers s) = true -> (exists r, collector s = CReturned r) \/ is_Some (collect_step s)).
Proof.
  intros Hi%generation_reachable_inv. split_and!.
  - intros o Hs. destruct (generation_step_inv _ _ Hi Hs) as (s' & -> & _). by eexists.
  - intros n k s' Hr%generation_run_rank. pose proof (rank_le (workers s)). unfold rank in Hr. lia.
  - apply (gi_ended _ Hi).
  - intros He i w Hw Hg.
    assert (Hch : exists ch o, allowance ch = 0 /\ worker_step i ch s = Some o).
    { destruct s as [ws en es ctx col rep]. cbn in *. subst en. rewrite Hw. cbn. destruct (pc w) as [| |m d|m k|err| | |] eqn:Hpc;
        [exists (SetOffset None)|exists (Fetch (Err ErrGenerationEnded))|exists (Handler None)|exists (Commit None true)
        |exists Report|exists Ended|exists Leave|done]; cbn; unfold partition_step; rewrite ?Hpc; cbn; try (by eexists).
      destruct (errors_Is err ErrGenerationEnded); [by eexists|]. destruct (send es err); by eexists. }
    destruct Hch as (ch & o & Ha & Hs). destruct (worker_step_inv _ _ _ _ Hi Hs) as (s' & -> & _). by exists ch, s'.
  - intros Hg. destruct s as [ws en es ctx [| |r] rep]; cbn [workers collector] in Hg |- *; unfold collect_step;
      [right|right|left; by exists r].
    + rewrite Hg. by eexists.
    + destruct (recv _) as [[]|]; by eexists.
Qed.

End generation.

(** ** A run: one worker consumes a message, the other fails and ends the generation *)

Inductive act := AWorker (i : nat) (ch : choice) | ACollect.

Definition do_act (a : act) (s : generation) : option generation :=
  match a with
  | AWorker i ch => match worker_step i ch s with Some (Returns s') => Some s' | _ => None end
  | ACollect => collect_step s
  end.

Fixpoint do_acts (acts : list act) (s : generation) : option generation :=
  match acts with [] => Some s | a :: acts => s ← do_act a s; do_acts acts s end.

Lemma generation_acts_reachable assignments acts : forall s s',
  reachable assignments s -> do_acts acts s = Some s' -> reachable assignments s'.
Proof.
  induction acts as [|a acts IH]; cbn; intros s s' Hr He; [by simplify_eq|].
  destruct (do_act a s) as [s1|] eqn:Ha; [|done]. apply (IH s1); [|done]. eapply reachable_step; [exact Hr|].
  destruct a as [i ch|]; cbn in Ha; [|by apply step_collect].
  destruct (worker_step i ch s) as [[s2|]|] eqn:Hs; [|done..]. injection Ha as <-. by eapply step_worker.
Qed.

Definition sample_assignments : list PartitionAssignment := [mkAssignment 0 3; mkAssignment 1 0].
Definition sample_acts : list act :=
  [AWorker 0 (SetOffset None); AWorker 0 (Fetch (Ok (sample_message 3 (sample_text "a")))); AWorker 0 (Handler None);
   AWorker 1 (SetOffset (Some (Errorf "broker"))); AWorker 1 Report; AWorker 1 Leave; AWorker 0 (Commit None true);
   AWorker 0 (Fetch (Err ErrGenerationEnded)); AWorker 0 Report; AWorker 0 Leave; ACollect; ACollect].
Definition sample_start : generation := consumeGeneration_start sample_assignments.
Definition sample_end : generation := default sample_start (do_acts sample_acts sample_start).

Lemma generation_sample_reachable : reachable sample_assignments sample_end.
Proof.
  apply (generation_acts_reachable _ sample_acts sample_start); [apply reachable_start|]. vm_compute. reflexivity.
Qed.

Lemma generation_refines_witness : collector sample_end = CReturned (Some (Errorf "broker")) /\
  exists f : nat -> option error * list iteration, exists c,
    Some (Errorf "broker") = consumeGeneration c sample_assignments (f <$> [1; 0]).
Proof.
  destruct (generation_refines sample_assignments sample_end generation_sample_reachable) as (_ & H).
  assert (Hc : collector sample_end = CReturned (Some (Errorf "broker"))) by (vm_compute; reflexivity).
  split; [exact Hc|]. destruct (H _ Hc) as (f & _ & _ & c & _ & Hr). exists f, c. exact Hr.
Defined.

Lemma generation_ends_witness : ended sample_end = true.
Proof.
  destruct (generation_ends sample_assignments sample_end generation_sample_reachable) as (_ & _ & H & _ & _).
  destruct (workers sample_end !! 1) as [w|] eqn:Hw; [|vm_compute in Hw; discriminate Hw].
  apply (H 1 w Hw). vm_compute in Hw. injection Hw as <-. reflexivity.
Defined.

End Generation.
