(* ===== verification/Broadcast.v ===== *)
(** * From the bus to the rooms (internal/httpserver/messagebus.go)

    The handler the server gives to [Consume], and the supervision loop that
    restarts a failed consumer.  Publishing happens under the room's own mutex;
    [order] is the order in which the runtime visits the room's clients. *)

From S2P Require Import Prelude.
From S2P Require Import Utf8.
From S2P Require Import GoStrings.
From S2P Require Import Message.
From S2P Require Import GoChan.
From S2P Require Import Room.
From S2P Require Import RoomRegistry.
From S2P Require Import Bus.
From S2P Require Import InMemory.
From S2P Require Import Kafka.

Module Broadcast.
Import Registry.

Definition inMemoryBusBufferSize : Z := 1024.
Definition consumerRetryInitialDelay : duration := (100 * Millisecond)%Z.
Definition consumerRetryMaxDelay : duration := (5 * Second)%Z.

Definition newInMemoryMessageBus : result InMemory.InMemoryBus :=
  InMemory.NewInMemory inMemoryBusBufferSize.
Definition newKafkaMessageBus (config : Kafka.KafkaConfig) : result Kafka.KafkaBus :=
  Kafka.NewKafka config.

(** The handler: its error and the number of clients it counts as dropped. *)
Definition consumer_handler (order : list Room.Client) (msg : Danmaku) (w : world)
  : outcome (option error * nat * world) :=
  match GetOrCreate (RoomID msg) w with
  | (Err err, w) => Returns (Some err, 0, w)
  | (Ok chatRoom, w) =>
    '(result, w) ← publish_at chatRoom order (Content msg) w;
    match result with
    | Err err =>
      if errors_Is err Room.ErrNoClient then Returns (None, 0, w) else Returns (Some err, 0, w)
    | Ok r => Returns (None, Room.DroppedClients r, w)
    end
  end.

(** ** The supervision loop *)

(** What happens around one call of Consume: is the consumer's context done at the
    head of the loop, what Consume returns, is the context done then, and is it
    done before the retry timer fires. *)
Record attempt := mkAttempt {
  done_before : bool; consume_err : option error; done_after : bool; done_waiting : bool;
}.

Inductive action := RunningGauge (up : bool) | ReadyGauge (up : bool) | CountRestart | Wait (d : duration).

Definition next_delay (retryDelay : duration) : duration :=
  Z.min (wrap_i64 (retryDelay * 2)) consumerRetryMaxDelay.

Definition is_canceled (err : option error) : bool :=
  match err with Some err => errors_Is err Canceled | None => false end.

(** Whether the loop has ended, and its actions. *)
Fixpoint supervise_loop (retryDelay : duration) (attempts : list attempt) : bool * list action :=
  match attempts with
  | [] => (false, [])
  | a :: attempts =>
    if done_before a then (true, [])
    else if done_after a || is_canceled (consume_err a) then (true, [])
    else
      let failed := [ReadyGauge false; CountRestart; Wait retryDelay] in
      if done_waiting a then (true, failed)
      else let '(ended, rest) := supervise_loop (next_delay retryDelay) attempts in
           (ended, failed ++ rest)
  end.

Definition supervise (attempts : list attempt) : bool * list action :=
  let '(ended, actions) := supervise_loop consumerRetryInitialDelay attempts in
  (ended, RunningGauge true :: actions ++
          if ended : bool then [RunningGauge false; ReadyGauge false] else []).

(** ** The handler: properties *)

(** The order in which the runtime visits the room of an identifier. *)
Definition visits (w : world) (roomID : string) (order : list Room.Client) : Prop :=
  match rooms w !! TrimSpace roomID with
  | Some p => exists r h, store w !! p = Some (r, h) /\ Room.range_order r order
  | None => order = []
  end.

Lemma ErrNoClient_only : errors_Is Room.ErrEmptyContent Room.ErrNoClient = false.
Proof. reflexivity. Qed.

(** The handler on a room that exists. *)
Lemma handler_room order msg w p r h :
  world_inv w -> well_formed msg -> rooms w !! TrimSpace (RoomID msg) = Some p ->
  store w !! p = Some (r, h) -> Room.range_order r order ->
  exists dropped r' h',
    consumer_handler order msg w
      = Returns (None, dropped, mkWorld (rooms w) (<[p := (r', h')]> (store w)) (next_room w)) /\
    Room.room_inv r' h' /\
    ((Room.clients r = ∅ /\ dropped = 0 /\ r' = r /\ h' = h) \/
     (Room.clients r <> ∅ /\
      Room.Publish order (Content msg) r h = Returns (Ok (Room.mkPublishResult dropped), r', h'))).
Proof.
  intros Hw (_ & Hroom & _ & Hc & _) Hp Hs Ho.
  pose proof (inv_rooms _ Hw _ _ _ Hs) as Hr.
  assert (HG : GetOrCreate (RoomID msg) w = (Ok p, w)).
  { unfold GetOrCreate. rewrite Hp.
    rewrite bool_decide_false; [done|]. by rewrite TrimSpace_blank. }
  unfold consumer_handler. rewrite HG. unfold publish_at, at_room. rewrite Hs.
  apply is_blank_false in Hc.
  destruct (Room.Publish_cases order (Content msg) r h Hr Ho)
    as [[? _]|[(_ & He & HP)|(_ & Hne & h' & HP & _)]]; [congruence|..]; rewrite HP; cbn.
  - exists 0, r, h. rewrite bool_decide_true by done. by eauto 10.
  - eexists _, _, _. split; [done|]. split; [|by eauto].
    by eapply Room.Publish_inv.
Qed.

(** A room made by the handler itself has no client. *)
Lemma handler_new_room msg w :
  world_inv w -> well_formed msg -> rooms w !! TrimSpace (RoomID msg) = None ->
  exists w', consumer_handler [] msg w = Returns (None, 0, w') /\ world_inv w' /\
    forall q x, store w !! q = Some x -> store w' !! q = Some x.
Proof.
  intros Hw Hm Hn. destruct (GetOrCreate (RoomID msg) w) as [res w1] eqn:HG.
  pose proof (GetOrCreate_inv _ _ _ _ Hw HG) as Hw1.
  destruct (GetOrCreate_cases (RoomID msg) w) as [[Hb _]|[(_ & p & Hp & _)|(_ & _ & He)]];
    [by destruct Hm as (_ & ? & _)|congruence|].
  rewrite He in HG. injection HG as <- <-.
  unfold consumer_handler. rewrite He. unfold publish_at, at_room. cbn [store]. rewrite lookup_insert_eq.
  destruct Hm as (_ & _ & _ & Hc & _). apply is_blank_false in Hc.
  unfold Room.Publish. rewrite Hc. cbn. rewrite bool_decide_true by done.
  eexists. split; [reflexivity|]. split.
  - eapply (store_update_inv _ _ _ _ Room.New (Room.mkHeap ∅ 0) Hw1); [|apply New_inv].
    cbn. apply lookup_insert_eq.
  - intros q x Hq. cbn. destruct (decide (q = next_room w)) as [->|].
    + exfalso. pose proof (inv_next _ Hw _ (mk_is_Some _ _ Hq)). lia.
    + by rewrite !lookup_insert_ne by done.
Qed.

(** The handler accepts every valid danmaku.  It never panics and returns no
    error, so a validated message can never block its partition: a room that has
    no client, or does not exist yet, is not an error; the invariant of the rooms is
    kept. *)
Theorem consumer_handler_accepts order msg w :
  world_inv w -> Validate msg = None -> visits w (RoomID msg) order ->
  exists dropped w', consumer_handler order msg w = Returns (None, dropped, w') /\ world_inv w'.
Proof.
  intros Hw Hv%Validate_well_formed Ho. unfold visits in Ho.
  destruct (rooms w !! TrimSpace (RoomID msg)) as [p|] eqn:Hp.
  - destruct Ho as (r & h & Hs & Ho).
    destruct (handler_room order msg w p r h Hw Hv Hp Hs Ho) as (dropped & r' & h' & HH & Hr' & _).
    eexists _, _. split; [exact HH|]. by eapply store_update_inv.
  - subst order. destruct (handler_new_room msg w Hw Hv Hp) as (w' & HH & Hw' & _). eauto.
Qed.

(** C12: a danmaku reaches its room.  Whoever joined through an identifier that trims
    to the danmaku's room, as the connection handler does, gets the content under the
    room's next sequence number on his queue unless the queue is full; the full
    queues are exactly the reported drops; every other room is untouched. *)
Theorem consumer_handler_broadcasts order msg w p r h id k c ch :
  world_inv w -> Validate msg = None -> TrimSpace id = TrimSpace (RoomID msg) ->
  fst (GetOrCreate id w) = Ok p -> store w !! p = Some (r, h) -> Room.range_order r order ->
  Room.clients r !! k = Some c -> Room.chans h !! Room.Messages c = Some ch ->
  exists w' r' h',
    consumer_handler order msg w
      = Returns (None, count_if (Room.is_full h) (map_to_list (Room.clients r)).*2, w') /\
    store w' !! p = Some (r', h') /\ Room.sequence r' = wrap_u64 (Room.sequence r + 1) /\
    Room.chans h' !! Room.Messages c = Some
      (if full ch then ch
       else mkChan (cap ch) (buf ch ++ [Room.mkMessage (Room.sequence r') (Content msg)]) (closed ch)) /\
    (forall q, q <> p -> store w' !! q = store w !! q).
Proof.
  intros Hw Hv%Validate_well_formed Hid HG Hs Ho Hk Hch.
  assert (Hp : rooms w !! TrimSpace (RoomID msg) = Some p).
  { rewrite <- Hid. destruct (GetOrCreate_cases id w) as [[_ He]|[(_ & p' & Hp & He)|(_ & _ & He)]];
      rewrite He in HG; cbn in HG; simplify_eq; [done|].
    pose proof (inv_next _ Hw _ (mk_is_Some _ _ Hs)). lia. }
  destruct (handler_room order msg w p r h Hw Hv Hp Hs Ho)
    as (dropped & r' & h' & HH & _ & [(He & _)|(_ & HP)]); [by rewrite He in Hk|].
  destruct (Room.Publish_cases order (Content msg) r h (inv_rooms _ Hw _ _ _ Hs) Ho)
    as [[_ HP']|[(_ & _ & HP')|(_ & _ & h1 & HP' & _ & Hm & _)]]; rewrite HP' in HP; simplify_eq.
  eexists _, _, _. split; [exact HH|]. cbn [store]. split_and!.
  - apply lookup_insert_eq.
  - done.
  - rewrite Hm, Hch by (by exists k, c). unfold Room.push. cbn. by destruct (full ch).
  - intros q Hq. by rewrite lookup_insert_ne.
Qed.

(** The world with one room, "lobby", that alice has joined. *)
Definition sample_world : world :=
  match GetOrCreate "lobby" NewRegistry with
  | (Ok p, w) => match join_at p "alice" w with Returns (_, w) => w | Panics _ => w end
  | (Err _, w) => w
  end.
Definition sample_alice : Room.Client := Room.mkClient "alice" 0.
Definition sample_msg : Danmaku := mkDanmaku "id" " lobby" "bob" "hello" 0 1%Z.

Definition sample_room : Room.Room * Room.heap :=
  default (Room.New, Room.mkHeap ∅ 0) (store sample_world !! 0).

Lemma sample_world_inv : world_inv sample_world.
Proof.
  unfold sample_world. destruct (GetOrCreate "lobby" NewRegistry) as [[p|] w] eqn:HG;
    pose proof (GetOrCreate_inv _ _ _ _ NewRegistry_inv HG) as Hw; [|done].
  destruct (join_at p "alice" w) as [[res w']|] eqn:HJ; [|done]. by eapply join_at_inv.
Qed.

Lemma sample_order : visits sample_world (RoomID sample_msg) [sample_alice].
Proof. eexists _, _. split; [reflexivity|]. vm_compute. reflexivity. Qed.

Lemma consumer_handler_accepts_witness :
  exists dropped w', consumer_handler [sample_alice] sample_msg sample_world = Returns (None, dropped, w') /\
    world_inv w'.
Proof.
  apply (consumer_handler_accepts [sample_alice] sample_msg sample_world);
    [apply sample_world_inv|vm_compute; reflexivity|apply sample_order].
Defined.

Lemma consumer_handler_broadcasts_witness :
  exists w' r' h', consumer_handler [sample_alice] sample_msg sample_world = Returns (None, 0, w') /\
    store w' !! 0 = Some (r', h') /\
    Room.chans h' !! 0 = Some (mkChan 1 [Room.mkMessage 1 "hello"] false).
Proof.
  destruct (consumer_handler_broadcasts [sample_alice] sample_msg sample_world 0
    (fst sample_room) (snd sample_room) "lobby" "alice"
    sample_alice (make_chan 1) sample_world_inv) as (w' & r' & h' & H1 & H2 & H3 & H4 & _).
  - vm_compute. reflexivity.
  - vm_compute. reflexivity.
  - vm_compute. reflexivity.
  - vm_compute. reflexivity.
  - vm_compute. reflexivity.
  - vm_compute. reflexivity.
  - vm_compute. reflexivity.
  - exists w', r', h'. split; [exact H1|]. split; [exact H2|]. rewrite H3 in H4.
    etransitivity; [exact H4|]. vm_compute. reflexivity.
Defined.

(** ** The supervision loop: properties *)

Definition waits (actions : list action) : list duration :=
  omap (fun a => match a with Wait d => Some d | _ => None end) actions.
Definition restarts (actions : list action) : nat :=
  count_if (fun a => match a with CountRestart => true | _ => false end) actions.

(** The attempts that end the loop: shutdown, or a cancelled Consume. *)
Definition stops (a : attempt) : bool :=
  done_before a || done_after a || is_canceled (consume_err a) || done_waiting a.

(** The delay before the n-th retry. *)
Definition backoff (n : nat) : duration := Z.min (100 * Millisecond * 2 ^ Z.of_nat n) (5 * Second)%Z.

Lemma backoff_next n : next_delay (backoff n) = backoff (S n).
Proof.
  unfold next_delay, backoff, consumerRetryMaxDelay.
  pose proof (Z.pow_pos_nonneg 2 (Z.of_nat n) ltac:(lia) ltac:(lia)).
  rewrite Nat2Z.inj_succ, Z.pow_succ_r by lia. unfold Second, Millisecond, Microsecond, Nanosecond in *.
  rewrite wrap_i64_small; unfold min_i64, max_i64; lia.
Qed.

Lemma supervise_loop_spec attempts : forall n,
  let '(ended, actions) := supervise_loop (backoff n) attempts in
  (ended = true <-> existsb stops attempts = true) /\
  (forall k d, waits actions !! k = Some d -> d = backoff (n + k)) /\
  (ended = false -> length (waits actions) = length attempts) /\
  restarts actions = length (waits actions).
Proof.
  induction attempts as [|a attempts IH]; intros n; cbn [supervise_loop existsb].
  { split_and!; done. }
  unfold stops. destruct (done_before a); [done|]. destruct (done_after a); [done|].
  destruct (is_canceled (consume_err a)); [done|]. cbn [orb].
  destruct (done_waiting a).
  { split_and!; try done. intros [|k] d; cbn; [|done]. intros [= <-]. by rewrite Nat.add_0_r. }
  specialize (IH (S n)). rewrite <- backoff_next in IH.
  destruct (supervise_loop (next_delay (backoff n)) attempts) as [ended rest].
  destruct IH as (I1 & I2 & I3 & I4). split_and!; [done| | |].
  - intros [|k] d; cbn; [intros [= <-]; by rewrite Nat.add_0_r|]. intros Hk.
    rewrite Nat.add_succ_r. by apply (I2 k).
  - intros He. transitivity (S (length (waits rest))); [done|]. cbn. by rewrite I3.
  - transitivity (S (restarts rest)); [done|]. by rewrite I4.
Qed.

(** The supervisor.  It ends only when the server stops it or Consume reports a
    cancelled context: no other failure of the bus, however often, kills the
    consumer; each is counted and followed by one wait, and the n-th wait is
    [min (100 ms * 2^n) 5 s]. *)
Theorem supervise_backoff attempts :
  let '(ended, actions) := supervise attempts in
  (ended = true <-> existsb stops attempts = true) /\
  (forall k d, waits actions !! k = Some d -> d = Z.min (100 * Millisecond * 2 ^ Z.of_nat k) (5 * Second)%Z) /\
  (ended = false -> length (waits actions) = length attempts) /\
  restarts actions = length (waits actions).
Proof.
  unfold supervise. pose proof (supervise_loop_spec attempts 0) as H.
  change (backoff 0) with consumerRetryInitialDelay in H.
  destruct (supervise_loop consumerRetryInitialDelay attempts) as [ended actions].
  destruct H as (H1 & H2 & H3 & H4).
  assert (Hw : waits (RunningGauge true :: actions ++
    (if ended then [RunningGauge false; ReadyGauge false] else [])) = waits actions).
  { unfold waits. cbn. rewrite omap_app. destruct ended; cbn; by rewrite app_nil_r. }
  rewrite Hw. split_and!; try done. rewrite <- H4. unfold restarts, count_if. cbn.
  rewrite List.filter_app, length_app. destruct ended; cbn; lia.
Qed.

End Broadcast.
