(* ===== verification/Consumer.v ===== *)
(** * The message-bus consumer's goroutines (internal/httpserver/messagebus.go, startMessageBusConsumer)

    Two goroutines and the function that stops them: the supervisor, which restarts
    Consume with a growing delay, and the mirror, which copies the readiness of the bus
    into a gauge.  They share the two gauges and the consumer's context, and their
    statements interleave.  File Broadcast has the handler, and the supervisor as a
    function of a script; here the supervisor is refined to that function. *)

From S2P Require Import Prelude.
From S2P Require Import Broadcast.

Module Consumer.
Import Broadcast.

(** Lines 49-65: about to ask the bus, to set the gauge, in the select, in the deferred
    call; [MGone] also when the bus does not report its readiness. *)
Inductive mirror_pc := MRead | MSet (ready : bool) | MSelect | MLast | MGone.

(** Lines 67-134.  [delay] is retryDelay, [err] the result of the last Consume. *)
Inductive supervisor_pc :=
  | SStart
  | SHead (delay : duration)
  | SConsume (delay : duration)
  | SReturned (delay : duration) (err : option error)
  | SFailed (delay : duration) (err : option error)
  | SCount (delay : duration) (err : option error)
  | SSelect (delay : duration) (err : option error)
  | SUnwind | SLast | SGone.

(** [bus_ready] is what ConsumerReady of the bus returns; [log] the supervisor's actions. *)
Record consumer := mkConsumer {
  mirror : mirror_pc; supervisor : supervisor_pc; cancelled : bool; bus_ready : bool;
  ConsumerReady : bool; ConsumerRunning : bool; log : list action;
}.

Definition startMessageBusConsumer (has_readiness ready : bool) : consumer :=
  mkConsumer (if has_readiness then MRead else MGone) SStart false ready false false [].

(** The mirror: [tick] tells which ready case the select takes. *)
Definition mirror_step (tick : bool) (s : consumer) : option consumer :=
  let 'mkConsumer m v can br cr run lg := s in
  match m with
  | MRead => Some (mkConsumer (MSet br) v can br cr run lg)
  | MSet ready => Some (mkConsumer MSelect v can br ready run lg)
  | MSelect =>
    if tick then Some (mkConsumer MRead v can br cr run lg)
    else if can then Some (mkConsumer MLast v can br cr run lg) else None
  | MLast => Some (mkConsumer MGone v can br false run lg)
  | MGone => None
  end.

(** The supervisor: [result] is what Consume returns, [fired] whether the select takes
    the timer. *)
Definition supervisor_step (result : option error) (fired : bool) (s : consumer) : option consumer :=
  let 'mkConsumer m v can br cr run lg := s in
  match v with
  | SStart => Some (mkConsumer m (SHead consumerRetryInitialDelay) can br cr true (lg ++ [RunningGauge true]))
  | SHead d => Some (mkConsumer m (if can then SUnwind else SConsume d) can br cr run lg)
  | SConsume d => Some (mkConsumer m (SReturned d result) can br cr run lg)
  | SReturned d err =>
    Some (mkConsumer m (if can || is_canceled err then SUnwind else SFailed d err) can br cr run lg)
  | SFailed d err => Some (mkConsumer m (SCount d err) can br false run (lg ++ [ReadyGauge false]))
  | SCount d err => Some (mkConsumer m (SSelect d err) can br cr run (lg ++ [CountRestart; Wait d]))
  | SSelect d err =>
    if fired then Some (mkConsumer m (SHead (next_delay d)) can br cr run lg)
    else if can then Some (mkConsumer m SUnwind can br cr run lg) else None
  | SUnwind => Some (mkConsumer m SLast can br cr false (lg ++ [RunningGauge false]))
  | SLast => Some (mkConsumer m SGone can br false run (lg ++ [ReadyGauge false]))
  | SGone => None
  end.

(** The statements of the goroutines, the bus, and the stop function's cancelConsumer. *)
Inductive step (s : consumer) : consumer -> Prop :=
  | step_mirror tick s' : mirror_step tick s = Some s' -> step s s'
  | step_supervisor result fired s' : supervisor_step result fired s = Some s' -> step s s'
  | step_bus ready :
      step s (mkConsumer (mirror s) (supervisor s) (cancelled s) ready (ConsumerReady s) (ConsumerRunning s) (log s))
  | step_cancel :
      step s (mkConsumer (mirror s) (supervisor s) true (bus_ready s) (ConsumerReady s) (ConsumerRunning s) (log s)).

Inductive reachable : consumer -> Prop :=
  | reachable_start has_readiness ready : reachable (startMessageBusConsumer has_readiness ready)
  | reachable_step s s' : reachable s -> step s s' -> reachable s'.

(** The function it returns: [close] is the result of the bus's Close, if it has one. *)
Inductive stop_action := CancelConsumer | CloseBus | LogCloseFailed (err : error).
Definition stopConsumer (close : option (option error)) : list stop_action :=
  CancelConsumer :: match close with
  | None => []
  | Some None => [CloseBus]
  | Some (Some err) => [CloseBus; LogCloseFailed err]
  end.

(** ** The supervisor's trace *)

Definition delay_after (n : nat) (d : duration) : duration := Nat.iter n next_delay d.

Definition restarted (attempts : list attempt) : Prop := Forall (fun a => stops a = false) attempts.

Lemma restarted_cons a attempts d :
  stops a = false ->
  supervise_loop d (a :: attempts) =
    let '(ended, rest) := supervise_loop (next_delay d) attempts in
    (ended, [ReadyGauge false; CountRestart; Wait d] ++ rest).
Proof.
  unfold stops. intros [[[H1 H2]%orb_false_iff H3]%orb_false_iff H4]%orb_false_iff.
  cbn [supervise_loop]. by rewrite H1, H2, H3, H4.
Qed.

(** A script after attempts that were all followed by another. *)
Lemma supervise_loop_app attempts more : forall d, restarted attempts ->
  supervise_loop d (attempts ++ more) =
    let '(ended, rest) := supervise_loop (delay_after (length attempts) d) more in
    (ended, (supervise_loop d attempts).2 ++ rest).
Proof.
  induction attempts as [|a attempts IH]; intros d Hr.
  { cbn. by destruct (supervise_loop d more). }
  apply Forall_cons in Hr as [Ha Hr]. cbn [app length]. rewrite !restarted_cons, IH by done.
  unfold delay_after. rewrite Nat.iter_succ_r.
  destruct (supervise_loop (Nat.iter (length attempts) next_delay (next_delay d)) more) as [ended rest].
  destruct (supervise_loop (next_delay d) attempts) as [e acts]. done.
Qed.

Lemma supervise_loop_restarted attempts d : restarted attempts -> (supervise_loop d attempts).1 = false.
Proof.
  intros Hr. pose proof (supervise_loop_app attempts [] d Hr) as H. rewrite app_nil_r in H. rewrite H. done.
Qed.

(** The script so far: all its attempts restarted. *)
Definition running_trace (d : duration) (lg : list action) : Prop :=
  exists attempts, restarted attempts /\ d = delay_after (length attempts) consumerRetryInitialDelay /\
    lg = RunningGauge true :: (supervise_loop consumerRetryInitialDelay attempts).2.

(** The script is complete. *)
Definition ended_trace (lg : list action) : Prop :=
  exists attempts acts, supervise_loop consumerRetryInitialDelay attempts = (true, acts) /\
    lg = RunningGauge true :: acts.

Definition trace (v : supervisor_pc) (lg : list action) : Prop :=
  match v with
  | SStart => lg = []
  | SHead d | SConsume d | SReturned d _ => running_trace d lg
  | SFailed d err => running_trace d lg /\ is_canceled err = false
  | SCount d err => exists lg0, lg = lg0 ++ [ReadyGauge false] /\ running_trace d lg0 /\ is_canceled err = false
  | SSelect d err => exists lg0, lg = lg0 ++ [ReadyGauge false; CountRestart; Wait d] /\ running_trace d lg0 /\
      is_canceled err = false
  | SUnwind => ended_trace lg
  | SLast => exists lg0, lg = lg0 ++ [RunningGauge false] /\ ended_trace lg0
  | SGone => exists lg0, lg = lg0 ++ [RunningGauge false; ReadyGauge false] /\ ended_trace lg0
  end.

(** One more attempt. *)
Lemma running_end d lg a :
  running_trace d lg -> supervise_loop d [a] = (true, []) -> ended_trace lg.
Proof.
  intros (attempts & Hr & -> & ->) Ha. exists (attempts ++ [a]), (supervise_loop consumerRetryInitialDelay attempts).2.
  rewrite supervise_loop_app, Ha by done. by rewrite app_nil_r.
Qed.

Lemma failed_attempt d err waiting :
  is_canceled err = false ->
  supervise_loop d [mkAttempt false err false waiting] = (waiting, [ReadyGauge false; CountRestart; Wait d]).
Proof. intros He. cbn. rewrite He. by destruct waiting. Qed.

Lemma running_failed d lg err :
  running_trace d lg -> is_canceled err = false ->
  ended_trace (lg ++ [ReadyGauge false; CountRestart; Wait d]) /\
  running_trace (next_delay d) (lg ++ [ReadyGauge false; CountRestart; Wait d]).
Proof.
  intros (attempts & Hr & -> & ->) He. set (d := delay_after _ _). split.
  - eexists (attempts ++ [mkAttempt false err false true]), _.
    rewrite supervise_loop_app, failed_attempt by done. by split.
  - exists (attempts ++ [mkAttempt false err false false]).
    rewrite supervise_loop_app, failed_attempt by done. split_and!.
    + apply Forall_app. split; [done|]. repeat constructor. unfold stops. cbn. by rewrite He.
    + rewrite length_app. cbn. by rewrite Nat.add_1_r.
    + done.
Qed.

Lemma supervisor_trace result fired s s' :
  trace (supervisor s) (log s) -> supervisor_step result fired s = Some s' -> trace (supervisor s') (log s').
Proof.
  destruct s as [m v can br cr run lg]. cbn. intros Ht Hs.
  destruct v as [|d|d|d err|d err|d err|d err| | |]; cbn in Ht.
  - injection Hs as <-. cbn. subst lg. exists []. by split_and!; [constructor|..].
  - injection Hs as <-. cbn. destruct can; [|done]. eapply (running_end d _ (mkAttempt true None true true)); done.
  - injection Hs as <-. done.
  - injection Hs as <-. cbn. destruct (can || is_canceled err) eqn:Hc.
    + apply (running_end d _ (mkAttempt false err can true)); [done|]. cbn. by rewrite Hc.
    + apply orb_false_iff in Hc as [_ Hc]. done.
  - injection Hs as <-. cbn. destruct Ht as [Ht He]. by exists lg.
  - injection Hs as <-. cbn. destruct Ht as (lg0 & -> & Ht & He). exists lg0. rewrite <- app_assoc. done.
  - destruct Ht as (lg0 & -> & Ht & He). destruct (running_failed d lg0 err Ht He) as [H1 H2].
    destruct fired; [|destruct can; [|done]]; injection Hs as <-; done.
  - injection Hs as <-. cbn. by exists lg.
  - injection Hs as <-. cbn. destruct Ht as (lg0 & -> & Ht). exists lg0. by rewrite <- app_assoc.
  - done.
Qed.

Lemma reachable_trace s : reachable s -> trace (supervisor s) (log s).
Proof.
  induction 1 as [has ready|s s' _ IH Hs]; [done|]. destruct Hs as [tick s' Hm|result fired s' Hv| |].
  - destruct s as [m v can br cr run lg]. cbn in *. destruct m, tick, can; try done; by injection Hm as <-.
  - by eapply supervisor_trace.
  - done.
  - done.
Qed.

(** ** The gauges *)

Record gauges_ok (s : consumer) : Prop := {
  g_running : ConsumerRunning s = match supervisor s with SStart | SLast | SGone => false | _ => true end;
  g_ready : mirror s = MGone -> ConsumerReady s = false;
}.

Lemma step_gauges s s' : gauges_ok s -> step s s' -> gauges_ok s'.
Proof.
  intros [Hr Hm] Hs. destruct Hs as [tick s' Hs|result fired s' Hs| |]; [| |by split..];
    destruct s as [m v can br cr run lg]; cbn in *; subst run.
  - destruct m as [|ready| | |]; [injection Hs as <-..| | |done]; [by split..| |by injection Hs as <-].
    destruct tick; [|destruct can; [|done]]; injection Hs as <-; by split.
  - destruct v as [|d|d|d err|d err|d err|d err| | |]; try done;
      try (injection Hs as <-; split; cbn; by try destruct can; try destruct (is_canceled err)).
    destruct fired; [|destruct can; [|done]]; injection Hs as <-; by split.
Qed.

Lemma reachable_gauges s : reachable s -> gauges_ok s.
Proof.
  induction 1 as [has ready|s s' _ IH Hs]; [by split|]. by eapply step_gauges.
Qed.

(** Steps of the supervisor left once the context is cancelled, Consume having returned. *)
Definition rank (v : supervisor_pc) : nat :=
  match v with
  | SGone => 0 | SLast => 1 | SUnwind => 2 | SHead _ => 3 | SSelect _ _ | SStart => 4
  | SCount _ _ => 5 | SFailed _ _ => 6 | SReturned _ _ => 7 | SConsume _ => 8
  end.

(** The gauges of the consumer.  In every interleaving of its goroutines,
    ConsumerRunning is 1 exactly while the supervisor is at work; when the stop function
    has cancelled the context, the supervisor ends after at most eight of its steps,
    waiting nowhere but in Consume; and when both goroutines have ended both gauges are
    0, whichever ended last. *)
Theorem consumer_gauges s :
  reachable s ->
  ConsumerRunning s = (match supervisor s with SStart | SLast | SGone => false | _ => true end) /\
  (mirror s = MGone -> supervisor s = SGone -> ConsumerReady s = false /\ ConsumerRunning s = false) /\
  (cancelled s = true ->
     rank (supervisor s) <= 8 /\
     (forall result fired s', supervisor_step result fired s = Some s' ->
        cancelled s' = true /\ rank (supervisor s') < rank (supervisor s)) /\
     (supervisor s = SGone \/ forall result, is_Some (supervisor_step result false s)) /\
     (mirror s = MGone \/ is_Some (mirror_step false s))).
Proof.
  intros [Hr Hm]%reachable_gauges. split_and!; [done| |].
  - intros Hg Hs. split; [by apply Hm|]. by rewrite Hr, Hs.
  - intros Hc. destruct s as [m v can br cr run lg]. cbn in *. subst can. split_and!.
    + destruct v; cbn; lia.
    + intros result fired s' Hs. destruct v as [|d|d|d err|d err|d err|d err| | |]; try destruct fired; try done;
        injection Hs as <-; cbn; (split; [done|lia]).
    + destruct v; [right; by eexists..|by left].
    + destruct m; [right; by eexists..|by left].
Qed.

(** The supervisor refines its script.  In every interleaving with the mirror, the
    bus and the stop function, what the supervisor has done so far is the beginning of
    what [supervise] does on some script of attempts, and all of it once it has ended;
    so the back-off and the counting proved of [supervise] are those of the goroutine. *)
Theorem consumer_refines_supervise s :
  reachable s ->
  exists attempts, log s `prefix_of` (supervise attempts).2 /\
    (supervisor s = SGone -> supervise attempts = (true, log s)).
Proof.
  intros Ht%reachable_trace.
  assert (Hend : forall lg0, ended_trace lg0 -> exists attempts,
    supervise attempts = (true, lg0 ++ [RunningGauge false; ReadyGauge false])).
  { intros lg0 (attempts & acts & He & ->). exists attempts. unfold supervise. by rewrite He. }
  assert (Hrun : forall d lg0, running_trace d lg0 -> exists attempts, (supervise attempts).2 = lg0).
  { intros d lg0 (attempts & Hr & _ & ->). exists attempts. unfold supervise.
    pose proof (supervise_loop_restarted attempts consumerRetryInitialDelay Hr) as H1.
    destruct (supervise_loop _ attempts) as [e acts]. cbn in *. subst e. by rewrite app_nil_r. }
  destruct s as [m v can br cr run lg]. cbn [supervisor log] in *.
  destruct v as [|d|d|d err|d err|d err|d err| | |]; cbn in Ht.
  - subst lg. exists []. split; [apply prefix_nil|done].
  - destruct (Hrun _ _ Ht) as [attempts <-]. by exists attempts.
  - destruct (Hrun _ _ Ht) as [attempts <-]. by exists attempts.
  - destruct (Hrun _ _ Ht) as [attempts <-]. by exists attempts.
  - destruct (Hrun _ _ (proj1 Ht)) as [attempts <-]. by exists attempts.
  - destruct Ht as (lg0 & -> & Ht & He). destruct (Hrun _ _ (proj2 (running_failed d lg0 err Ht He))) as [attempts Ha].
    exists attempts. rewrite Ha. split; [|done]. by exists [CountRestart; Wait d]; rewrite <- app_assoc.
  - destruct Ht as (lg0 & -> & Ht & He). destruct (Hrun _ _ (proj2 (running_failed d lg0 err Ht He))) as [attempts Ha].
    by exists attempts; rewrite Ha.
  - destruct (Hend _ Ht) as [attempts Ha]. exists attempts. rewrite Ha. split; [|done]. by apply prefix_app_r.
  - destruct Ht as (lg0 & -> & Ht). destruct (Hend _ Ht) as [attempts Ha]. exists attempts. rewrite Ha.
    split; [|done]. exists [ReadyGauge false]. by rewrite <- app_assoc.
  - destruct Ht as (lg0 & -> & Ht). destruct (Hend _ Ht) as [attempts Ha]. exists attempts. by rewrite Ha.
Qed.

(** ** A run: the consumer fails once, is cancelled while waiting, and both end *)

Inductive act := AMirror (tick : bool) | ASupervisor (result : option error) (fired : bool) | ABus (ready : bool) | ACancel.

Definition do_act (a : act) (s : consumer) : option consumer :=
  match a with
  | AMirror tick => mirror_step tick s
  | ASupervisor result fired => supervisor_step result fired s
  | ABus ready =>
    Some (mkConsumer (mirror s) (supervisor s) (cancelled s) ready (ConsumerReady s) (ConsumerRunning s) (log s))
  | ACancel =>
    Some (mkConsumer (mirror s) (supervisor s) true (bus_ready s) (ConsumerReady s) (ConsumerRunning s) (log s))
  end.

Fixpoint do_acts (acts : list act) (s : consumer) : option consumer :=
  match acts with [] => Some s | a :: acts => s ← do_act a s; do_acts acts s end.

Lemma do_acts_reachable acts : forall s s', reachable s -> do_acts acts s = Some s' -> reachable s'.
Proof.
  induction acts as [|a acts IH]; cbn; intros s s' Hr He; [by simplify_eq|].
  destruct (do_act a s) as [s1|] eqn:Ha; [|done]. apply (IH s1); [|done]. eapply reachable_step; [exact Hr|].
  destruct a; cbn in Ha; [by eapply step_mirror|by eapply step_supervisor|..]; injection Ha as <-;
    [apply step_bus|apply step_cancel].
Qed.

Definition sup (err : option error) : act := ASupervisor err false.
Definition sample_acts : list act :=
  [AMirror true; sup None; sup None; ABus true; AMirror true; AMirror true; sup (Some (Errorf "fetch")); sup None;
   AMirror true; sup None; AMirror true; sup None; ACancel; sup None; sup None; AMirror false; sup None; AMirror false].

Definition sample_end : consumer :=
  default (startMessageBusConsumer true false) (do_acts sample_acts (startMessageBusConsumer true false)).

Lemma sample_end_reachable : reachable sample_end.
Proof.
  apply (do_acts_reachable sample_acts (startMessageBusConsumer true false)); [apply reachable_start|].
  vm_compute. reflexivity.
Qed.

Lemma consumer_gauges_witness : ConsumerReady sample_end = false /\ ConsumerRunning sample_end = false.
Proof.
  destruct (consumer_gauges sample_end sample_end_reachable) as (_ & H & _).
  apply H; vm_compute; reflexivity.
Defined.

Lemma consumer_refines_supervise_witness :
  exists attempts, supervise attempts = (true, log sample_end).
Proof.
  destruct (consumer_refines_supervise sample_end sample_end_reachable) as (attempts & _ & H).
  exists attempts. apply H. vm_compute. reflexivity.
Defined.

End Consumer.
