(* ===== verification/Routing.v ===== *)
(** * The route directory (internal/routing/registry.go)

    Leases, the Go interface [Registry] as a class, and the promises of its
    comments as laws.  A registry is a state; its operations return the next one.
    [Env] is what the outside decides about one call (the network); [Elapse]
    lets time pass.  The publisher is verified against these laws and
    RedisRegistry discharges them (file Redis). *)

From S2P Require Import Prelude.
From S2P Require Import Utf8.
From S2P Require Import Json.

Definition ErrRouteNotFound : sentinel := mkSentinel "routing" "ErrRouteNotFound".
Definition ErrInvalidConfig : sentinel := mkSentinel "routing" "ErrInvalidConfig".

Record Lease := mkLease { GatewayID : string; WebSocketURL : string; Token : string }.

#[export] Instance Lease_eq_dec : EqDecision Lease.
Proof. solve_decision. Defined.

(** json.Marshal and json.Unmarshal with the struct's tags. *)
Definition lease_names : list string := ["gateway_id"; "websocket_url"; "token"].
Definition MarshalLease (l : Lease) : result string :=
  Ok (encode_struct [("gateway_id", encode_text (GatewayID l));
    ("websocket_url", encode_text (WebSocketURL l)); ("token", encode_text (Token l))]%string).
Definition set_lease (name : string) (v : json) (l : Lease) : result Lease :=
  let '(mkLease g u t) := l in
  if bool_decide (name = "gateway_id"%string) then g ← decode_string v g; Ok (mkLease g u t)
  else if bool_decide (name = "websocket_url"%string) then u ← decode_string v u; Ok (mkLease g u t)
  else t ← decode_string v t; Ok (mkLease g u t).
Definition UnmarshalLease (payload : string) : result Lease :=
  decode_struct lease_names set_lease (mkLease "" "" "") payload.

Definition utf8_lease (l : Lease) : Prop :=
  valid_utf8 (GatewayID l) /\ valid_utf8 (WebSocketURL l) /\ valid_utf8 (Token l).

Lemma UnmarshalLease_Marshal l v : utf8_lease l -> MarshalLease l = Ok v -> UnmarshalLease v = Ok l.
Proof.
  intros (H1 & H2 & H3) [= <-]. unfold UnmarshalLease. destruct l as [g u t]. cbn [GatewayID WebSocketURL Token] in *.
  rewrite (decode_encode_struct _ _ _ _ [JString (quote 0 (bytes g)); JString (quote 0 (bytes u)); JString (quote 0 (bytes t))]).
  - cbn [zip zip_with fmap list_fmap set_all fst]. unfold set_lease.
    repeat (rewrite ?bool_decide_eq_true_2, ?bool_decide_eq_false_2 by done;
            rewrite ?decode_string_text; cbn [mbind result_bind]).
    by rewrite !ToValid_id.
  - repeat first [apply Forall2_nil_2 | apply Forall2_cons_2]; apply reads_text.
  - done.
  - repeat first [apply Forall_nil_2 | apply Forall_cons_2]; reflexivity.
Qed.
#[global] Arguments MarshalLease : simpl never.
#[global] Arguments UnmarshalLease : simpl never.

Class Registry (R Env : Type) := {
  Register : Env -> Z -> Lease -> duration -> R -> option error * R;
  Resolve : Env -> Z -> R -> result Lease;
  Release : Env -> Z -> string -> R -> option error * R;
  Elapse : duration -> R -> R;
  (** A call that the network lets through. *)
  healthy : Env;
}.

(** What partition [p] resolves to, [d] from now. *)
Definition view `{Registry R Env} (r : R) (p : Z) (d : duration) : result Lease :=
  Resolve healthy p (Elapse d r).

Class RegistryLaws (R Env : Type) `{Registry R Env} := {
  (** The states the program can produce; the partitions, leases and TTLs it may
      publish. *)
  partition_ok : Z -> Prop;
  registry_ok : R -> Prop;
  lease_ok : Lease -> Prop;
  ttl_ok : duration -> Prop;
  Register_keeps_ok : forall e p l ttl r, registry_ok r -> lease_ok l -> ttl_ok ttl ->
    registry_ok (Register e p l ttl r).2;
  Release_keeps_ok : forall e p tok r, registry_ok r -> registry_ok (Release e p tok r).2;
  Elapse_keeps_ok : forall d r, (0 <= d)%Z -> registry_ok r -> registry_ok (Elapse d r);

  (** A call that the network lets through succeeds. *)
  Register_healthy : forall p l ttl r, registry_ok r -> partition_ok p -> lease_ok l -> ttl_ok ttl ->
    (Register healthy p l ttl r).1 = None;
  Release_healthy : forall p l r, registry_ok r -> partition_ok p -> lease_ok l ->
    (Release healthy p (Token l) r).1 = None;

  (** Time. *)
  view_now : forall r p, view r p 0%Z = Resolve healthy p r;
  view_later : forall r p a b, (0 <= a)%Z -> (0 <= b)%Z -> view (Elapse a r) p b = view r p (a + b)%Z;

  (** Register: the lease is served until its TTL ends; other partitions are untouched,
      whatever the outcome. *)
  Register_serves : forall e p l ttl r r' d, registry_ok r -> lease_ok l -> ttl_ok ttl ->
    Register e p l ttl r = (None, r') -> (0 <= d < ttl)%Z -> view r' p d = Ok l;
  Register_expires : forall e p l ttl r r' d, registry_ok r -> lease_ok l -> ttl_ok ttl ->
    Register e p l ttl r = (None, r') -> (ttl <= d)%Z -> view r' p d = Err ErrRouteNotFound;
  Register_other : forall e p q l ttl r d, registry_ok r -> q <> p -> (0 <= d)%Z ->
    view (Register e p l ttl r).2 q d = view r q d;

  (** Release: only a lease that carries the token can disappear; a successful call
      leaves no lease with the token; other partitions are untouched. *)
  Release_compares : forall e p tok r d, registry_ok r -> (0 <= d)%Z ->
    view (Release e p tok r).2 p d = view r p d \/
    exists l, Resolve healthy p r = Ok l /\ Token l = tok;
  Release_removes : forall e p tok r r' l, registry_ok r ->
    Release e p tok r = (None, r') -> Resolve healthy p r' = Ok l -> Token l <> tok;
  Release_other : forall e p q tok r d, registry_ok r -> q <> p -> (0 <= d)%Z ->
    view (Release e p tok r).2 q d = view r q d;
}.
