(* ===== verification/Redis.v ===== *)
(** * The Redis route directory (internal/routing/redis.go)

    The Redis server, reached through go-redis, is a parameter: a state with the
    commands the program uses and the laws of [RedisLaws], with the JSON decoder of
    its Lua interpreter ([CJson]).  The Lua script itself is source code:
    [release_script], one atomic step of the server.  Leases are JSON (file Routing),
    URLs are parsed by file GoUrl. *)

From stdpp Require Import pretty.
From S2P Require Import Prelude.
From S2P Require Import Utf8.
From S2P Require Import GoStrings.
From S2P Require Import GoUrl.
From S2P Require Import Routing.

Module Redis.

(** ** Outside the program *)

Class RedisServer (St : Type) := {
  GET : string -> St -> option string;
  SET : string -> string -> duration -> St -> St;
  DEL : string -> St -> St;
  advance : duration -> St -> St;
}.

(** Redis' documented behaviour; a key's time to live is in whole milliseconds. *)
Class RedisLaws (St : Type) `{RedisServer St} := {
  SET_same : forall k v ttl s d, (0 < ttl)%Z -> (Millisecond | ttl)%Z -> (0 <= d)%Z ->
    GET k (advance d (SET k v ttl s)) = if (d <? ttl)%Z then Some v else None;
  SET_other : forall k k' v ttl s d, k' <> k -> (0 <= d)%Z ->
    GET k' (advance d (SET k v ttl s)) = GET k' (advance d s);
  DEL_same : forall k s d, (0 <= d)%Z -> GET k (advance d (DEL k s)) = None;
  DEL_other : forall k k' s d, k' <> k -> (0 <= d)%Z ->
    GET k' (advance d (DEL k s)) = GET k' (advance d s);
  advance_none : forall k s, GET k (advance 0%Z s) = GET k s;
  advance_add : forall k s a b, (0 <= a)%Z -> (0 <= b)%Z ->
    GET k (advance b (advance a s)) = GET k (advance (a + b)%Z s);
  advance_keeps : forall k s d v, (0 <= d)%Z -> GET k (advance d s) = Some v -> GET k s = Some v;
}.

(** Lua's cjson in the Redis server: cjson.decode(value).token, nil when it is no
    string.  Of a payload json.Marshal wrote, that is the lease's token. *)
Class CJson := { cjson_token : string -> result (option string) }.
Class CJsonLaws `{CJson} := {
  cjson_reads : forall l v, utf8_lease l -> MarshalLease l = Ok v -> cjson_token v = Ok (Some (Token l));
}.

(** One call over the network: whether the server executed the command, and the
    client's error.  A command can be executed and its answer lost. *)
Record net := mkNet { executed : bool; net_err : option error }.
Definition delivered (n : net) : bool := executed n || bool_decide (net_err n = None).

(** ** The registry *)

Definition defaultKeyPrefix : string := "danmuflow:routing".

Record RedisConfig := mkRedisConfig { Address : string; Password : string; DB : Z; KeyPrefix : string }.

(** [client] tells whether the pointer is set. *)
Record RedisRegistry := mkRedisRegistry { client : bool; keyPrefix : string }.

Definition NewRedisRegistry (config : RedisConfig) : result RedisRegistry :=
  if is_blank (Address config) || (DB config <? 0)%Z then Err ErrInvalidConfig
  else
    let prefix := TrimSpace (KeyPrefix config) in
    let prefix := if bool_decide (prefix = ""%string) then defaultKeyPrefix else prefix in
    Ok (mkRedisRegistry true (TrimSuffix prefix ":")).

Definition key (partition : Z) (registry : RedisRegistry) : string :=
  keyPrefix registry +:+ ":partition:" +:+ Itoa partition.

Section methods.
Context {St : Type} `{RedisServer St} `{CJson} `{IPLiterals}.

(** A URL that the program accepts for WebSocket clients. *)
Definition websocket_url (parsed : URL) : bool :=
  (bool_decide (Scheme parsed = "ws"%string) || bool_decide (Scheme parsed = "wss"%string))
  && negb (bool_decide (Host parsed = ""%string)) && negb (User parsed)
  && bool_decide (RawQuery parsed = ""%string) && bool_decide (Fragment parsed = ""%string).

Definition validLease (lease : Lease) : bool :=
  if is_blank (GatewayID lease) || is_blank (Token lease) then false
  else match url_Parse (WebSocketURL lease) with
       | Err _ => false
       | Ok parsed => websocket_url parsed
       end.

(** The receiver's guard: nil registry or nil client. *)
Definition unusable (registry : option RedisRegistry) : bool :=
  match registry with None => true | Some registry => negb (client registry) end.
Definition key_of (partition : Z) (registry : option RedisRegistry) : string :=
  match registry with None => ""%string | Some registry => key partition registry end.

Definition redis_Register (n : net) (partition : Z) (lease : Lease) (ttl : duration)
  (registry : option RedisRegistry) (s : St) : option error * St :=
  if unusable registry || (partition <? 0)%Z || (ttl <=? 0)%Z || negb (validLease lease)
  then (Some (Sentinel ErrInvalidConfig), s)
  else match MarshalLease lease with
  | Err err => (Some (Wrap "encode gateway route" err), s)
  | Ok payload =>
    (Wrap "register gateway route" <$> net_err n,
     if delivered n then SET (key_of partition registry) payload ttl s else s)
  end.

Definition redis_Resolve (n : net) (partition : Z) (registry : option RedisRegistry) (s : St) : result Lease :=
  if unusable registry || (partition <? 0)%Z then Err ErrInvalidConfig
  else match net_err n with
  | Some err => Err (Wrap "resolve gateway route" err)
  | None =>
    match GET (key_of partition registry) s with
    | None => Err ErrRouteNotFound
    | Some payload =>
      match UnmarshalLease payload with
      | Err _ => Err (Wrap "decode gateway route" ErrInvalidConfig)
      | Ok lease => if validLease lease then Ok lease
                    else Err (Wrap "decode gateway route" ErrInvalidConfig)
      end
    end
  end.

(** The Lua script: its result or a script error, and the server after it. *)
Definition release_script (k token : string) (s : St) : result Z * St :=
  match GET k s with
  | None => (Ok 0%Z, s)
  | Some value =>
    match cjson_token value with
    | Err err => (Err err, s)
    | Ok t => if bool_decide (t = Some token) then (Ok 1%Z, DEL k s) else (Ok 0%Z, s)
    end
  end.

Definition redis_Release (n : net) (partition : Z) (token : string)
  (registry : option RedisRegistry) (s : St) : option error * St :=
  if unusable registry || (partition <? 0)%Z || is_blank token
  then (Some (Sentinel ErrInvalidConfig), s)
  else
    let '(res, s') := release_script (key_of partition registry) token s in
    let s' := if delivered n then s' else s in
    match net_err n with
    | Some err => (Some (Wrap "release gateway route" err), s')
    | None => match res with
              | Err err => (Some (Wrap "release gateway route" err), s')
              | Ok _ => (None, s')
              end
    end.

(** [close] is the result of closing the connection pool. *)
Definition redis_Close (close : option error) (registry : option RedisRegistry) : option error :=
  if unusable registry then None else close.

#[export] Instance redis_registry : Routing.Registry (option RedisRegistry * St) net := {
  Register n p l ttl r := let '(e, s) := redis_Register n p l ttl r.1 r.2 in (e, (r.1, s));
  Resolve n p r := redis_Resolve n p r.1 r.2;
  Release n p tok r := let '(e, s) := redis_Release n p tok r.1 r.2 in (e, (r.1, s));
  Elapse d r := (r.1, advance d r.2);
  healthy := mkNet true None;
}.

End methods.

(** ** Keys *)

(** What stands before the last colon, and after it. *)
Lemma last_colon_inj (a b d e : list Z) :
  58%Z ∉ d -> 58%Z ∉ e -> a ++ 58%Z :: d = b ++ 58%Z :: e -> a = b /\ d = e.
Proof.
  intros Hd He. revert b. induction a as [|x a IH]; intros [|y b] Heq; cbn in Heq; simplify_eq; [done|..].
  - destruct Hd. apply elem_of_app. right. left.
  - destruct He. apply elem_of_app. right. left.
  - by destruct (IH b) as [-> ->].
Qed.

Lemma key_inj p q reg : key p reg = key q reg -> p = q.
Proof. unfold key. intros Heq. by simplify_eq. Qed.

(** ** The registry's laws *)

Section laws.
Context {St : Type} `{RedisLaws St} `{CJsonLaws} `{IPLiterals}.
Implicit Types (s : St).

(** Leases that survive encoding and that Register accepts. *)
Definition publishable (l : Lease) : Prop := validLease l = true /\ utf8_lease l.

(** A usable client, on a server where every lease was written by Register. *)
Definition directory_ok (r : option RedisRegistry * St) : Prop :=
  unusable r.1 = false /\
  forall p v, GET (key_of p r.1) r.2 = Some v -> exists l, publishable l /\ MarshalLease l = Ok v.

Definition redis_ttl (ttl : duration) : Prop := (0 < ttl)%Z /\ (Millisecond | ttl)%Z.

Lemma key_of_inj p q reg : unusable reg = false -> key_of p reg = key_of q reg -> p = q.
Proof. destruct reg as [reg|]; [intros _; apply key_inj|done]. Qed.

Lemma SET_now k k' v ttl s :
  redis_ttl ttl -> GET k' (SET k v ttl s) = if decide (k' = k) then Some v else GET k' s.
Proof.
  intros [? ?]. rewrite <- (advance_none k' (SET k v ttl s)).
  case_decide as Hk; [subst|by rewrite SET_other, advance_none].
  rewrite SET_same by done. by rewrite (proj2 (Z.ltb_lt 0 ttl)).
Qed.

Lemma DEL_now k k' s : GET k' (DEL k s) = if decide (k' = k) then None else GET k' s.
Proof.
  rewrite <- (advance_none k' (DEL k s)).
  case_decide as Hk; [subst; by rewrite DEL_same|by rewrite DEL_other, advance_none].
Qed.

(** Register on every branch, once the receiver is usable. *)
Lemma Register_cases n p l ttl reg s :
  unusable reg = false ->
  (redis_Register n p l ttl reg s = (Some (Sentinel ErrInvalidConfig), s) /\
     ((p < 0)%Z \/ (ttl <= 0)%Z \/ validLease l = false)) \/
  (exists err, MarshalLease l = Err err /\
     redis_Register n p l ttl reg s = (Some (Wrap "encode gateway route" err), s)) \/
  ((0 <= p)%Z /\ exists v, validLease l = true /\ MarshalLease l = Ok v /\
     redis_Register n p l ttl reg s =
       (Wrap "register gateway route" <$> net_err n,
        if delivered n then SET (key_of p reg) v ttl s else s)).
Proof.
  intros Hu. unfold redis_Register. rewrite Hu.
  destruct (Z.ltb_spec p 0); [left; split; [done|lia]|].
  destruct (Z.leb_spec ttl 0); [left; split; [done|lia]|].
  destruct (validLease l) eqn:Hl; [|left; by eauto]. right. cbn.
  destruct (MarshalLease l) as [v|err]; [right|left]; by eauto 10.
Qed.

(** The script, on a directory whose values were written by Register. *)
Lemma script_cases p tok r :
  directory_ok r ->
  match GET (key_of p r.1) r.2 with
  | None => release_script (key_of p r.1) tok r.2 = (Ok 0%Z, r.2)
  | Some v => exists l, publishable l /\ UnmarshalLease v = Ok l /\
      release_script (key_of p r.1) tok r.2 =
        if decide (Token l = tok) then (Ok 1%Z, DEL (key_of p r.1) r.2) else (Ok 0%Z, r.2)
  end.
Proof.
  intros [_ Hok]. unfold release_script. destruct (GET _ _) as [v|] eqn:Hv; [|done].
  destruct (Hok p v Hv) as (l & [Hl Hu] & Hm).
  pose proof (UnmarshalLease_Marshal l v Hu Hm) as Hd. rewrite (cjson_reads l v Hu Hm). exists l. split_and!; [done|done|].
  case_decide as Ht; [by rewrite bool_decide_true by congruence|].
  by rewrite bool_decide_false by congruence.
Qed.

(** Release on every branch: refused, or one atomic compare-and-delete that the
    network may have lost. *)
Lemma Release_cases n p tok r :
  directory_ok r ->
  (redis_Release n p tok r.1 r.2 = (Some (Sentinel ErrInvalidConfig), r.2)) \/
  (redis_Release n p tok r.1 r.2 =
     (Wrap "release gateway route" <$> net_err n,
      if delivered n then (release_script (key_of p r.1) tok r.2).2 else r.2)).
Proof.
  intros Hok. unfold redis_Release. destruct (_ || _ || _); [by left|right].
  pose proof (script_cases p tok r Hok) as Hs.
  destruct (GET (key_of p r.1) r.2) as [v|].
  - destruct Hs as (l & _ & _ & ->). case_decide; by destruct (net_err n).
  - rewrite Hs. by destruct (net_err n).
Qed.

Lemma Resolve_GET p (reg : option RedisRegistry) s s' :
  GET (key_of p reg) s = GET (key_of p reg) s' ->
  redis_Resolve (mkNet true None) p reg s = redis_Resolve (mkNet true None) p reg s'.
Proof. intros Heq. unfold redis_Resolve. cbn. by rewrite Heq. Qed.

Lemma Resolve_none p (reg : option RedisRegistry) s :
  unusable reg = false -> (0 <= p)%Z -> GET (key_of p reg) s = None ->
  redis_Resolve (mkNet true None) p reg s = Err ErrRouteNotFound.
Proof.
  intros Hu Hp Hg. unfold redis_Resolve. rewrite Hu. destruct (Z.ltb_spec p 0); [lia|].
  cbn. by rewrite Hg.
Qed.

Lemma Resolve_some p (reg : option RedisRegistry) s v l :
  unusable reg = false -> (0 <= p)%Z -> publishable l -> UnmarshalLease v = Ok l ->
  GET (key_of p reg) s = Some v -> redis_Resolve (mkNet true None) p reg s = Ok l.
Proof.
  intros Hu Hp [Hl _] Hd Hg. unfold redis_Resolve. rewrite Hu. destruct (Z.ltb_spec p 0); [lia|].
  cbn. by rewrite Hg, Hd, Hl.
Qed.

Lemma directory_ok_SET p v l ttl reg s :
  directory_ok (reg, s) -> publishable l -> MarshalLease l = Ok v -> redis_ttl ttl ->
  directory_ok (reg, SET (key_of p reg) v ttl s).
Proof.
  intros [Hu Hok] Hl Hm Ht. split; [done|]. intros q v'. cbn in *. rewrite SET_now by done.
  case_decide; [intros [= <-]; by eauto|]. apply Hok.
Qed.

Lemma directory_ok_DEL p reg s :
  directory_ok (reg, s) -> directory_ok (reg, DEL (key_of p reg) s).
Proof.
  intros [Hu Hok]. split; [done|]. intros q v'. cbn in *. rewrite DEL_now. case_decide; [done|]. apply Hok.
Qed.

Lemma Register_keeps n p l ttl reg s :
  directory_ok (reg, s) -> publishable l -> redis_ttl ttl ->
  directory_ok (reg, (redis_Register n p l ttl reg s).2).
Proof.
  intros Hok Hl Ht.
  destruct (Register_cases n p l ttl reg s (proj1 Hok)) as [[-> _]|[(err & _ & ->)|(_ & v & _ & Hm & ->)]];
    [done|done|]. cbn. destruct (delivered n); [|done]. by eapply directory_ok_SET.
Qed.

Lemma Release_after n p tok reg s :
  directory_ok (reg, s) ->
  (redis_Release n p tok reg s).2 = s \/
  (exists l v, publishable l /\ UnmarshalLease v = Ok l /\ GET (key_of p reg) s = Some v /\ Token l = tok /\
     (redis_Release n p tok reg s).2 = DEL (key_of p reg) s).
Proof.
  intros Hok. destruct (Release_cases n p tok (reg, s) Hok) as [Heq|Heq]; cbn in Heq; rewrite Heq; [by left|].
  cbn. destruct (delivered n); [|by left].
  pose proof (script_cases p tok (reg, s) Hok) as Hs. cbn in Hs.
  destruct (GET (key_of p reg) s) as [v|]; [|rewrite Hs; by left].
  destruct Hs as (l & Hl & Hd & ->). case_decide; [right|by left]. by eauto 10.
Qed.

Lemma Release_keeps n p tok reg s :
  directory_ok (reg, s) -> directory_ok (reg, (redis_Release n p tok reg s).2).
Proof.
  intros Hok. destruct (Release_after n p tok reg s Hok) as [->|(l & v & _ & _ & _ & _ & ->)]; [done|].
  by apply directory_ok_DEL.
Qed.

Lemma Register_served n p l ttl reg s s' d :
  directory_ok (reg, s) -> publishable l -> redis_ttl ttl -> (0 <= d)%Z ->
  redis_Register n p l ttl reg s = (None, s') ->
  redis_Resolve (mkNet true None) p reg (advance d s') =
    if (d <? ttl)%Z then Ok l else Err ErrRouteNotFound.
Proof.
  intros [Hu _] Hl [Ht1 Ht2] Hd HR. cbn in Hu.
  destruct (Register_cases n p l ttl reg s Hu) as [[He _]|[(err & _ & He)|(Hp & v & _ & Hm & He)]];
    rewrite He in HR; [done|done|].
  injection HR as Hn Hs. unfold delivered in Hs.
  destruct (net_err n); [done|]. rewrite bool_decide_true, orb_true_r in Hs by done. subst s'.
  pose proof (UnmarshalLease_Marshal l v (proj2 Hl) Hm) as Hdec.
  pose proof (SET_same (key_of p reg) v ttl s d Ht1 Ht2 Hd) as Hg.
  destruct (d <? ttl)%Z; [by eapply Resolve_some|by apply Resolve_none].
Qed.

Lemma other_key n p q reg s d :
  unusable reg = false -> q <> p -> (0 <= d)%Z ->
  (forall v ttl, redis_Resolve n q reg (advance d (SET (key_of p reg) v ttl s)) =
     redis_Resolve n q reg (advance d s)) /\
  redis_Resolve n q reg (advance d (DEL (key_of p reg) s)) = redis_Resolve n q reg (advance d s).
Proof.
  intros Hu Hq Hd. assert (Hk : key_of q reg <> key_of p reg) by (intros ?%key_of_inj; done).
  split; intros; unfold redis_Resolve; [by rewrite SET_other|by rewrite DEL_other].
Qed.

(** Release touches no other partition. *)
Lemma Release_other n n' p tok q reg s d :
  directory_ok (reg, s) -> q <> p -> (0 <= d)%Z ->
  redis_Resolve n' q reg (advance d (redis_Release n p tok reg s).2) = redis_Resolve n' q reg (advance d s).
Proof.
  intros Hok Hq Hd. destruct (Release_after n p tok reg s Hok) as [->|(l & v & _ & _ & _ & _ & ->)]; [done|].
  by apply other_key; [apply Hok|..].
Qed.

(** What a Register that reported success stored. *)
Lemma Register_stored n p l ttl reg s s' :
  directory_ok (reg, s) -> publishable l -> redis_ttl ttl -> redis_Register n p l ttl reg s = (None, s') ->
  (0 <= p)%Z /\ directory_ok (reg, s') /\ exists v, GET (key_of p reg) s' = Some v /\ UnmarshalLease v = Ok l.
Proof.
  intros Hok Hl Ht HR. pose proof (Register_keeps n p l ttl reg s Hok Hl Ht) as Hok'. rewrite HR in Hok'. cbn in Hok'.
  destruct (Register_cases n p l ttl reg s (proj1 Hok)) as [[He _]|[(err & _ & He)|(Hp & v & _ & Hm & He)]];
    rewrite He in HR; [done|done|]. injection HR as Hn Hs. unfold delivered in Hs. destruct (net_err n); [done|].
  rewrite bool_decide_true, orb_true_r in Hs by done. subst s'. split_and!; [done|done|]. exists v.
  rewrite SET_now, decide_True by done. split; [done|]. by apply (UnmarshalLease_Marshal l v (proj2 Hl)).
Qed.

(** With another token, the server is left as it is. *)
Lemma Release_refused n p tok reg s v l :
  directory_ok (reg, s) -> GET (key_of p reg) s = Some v -> UnmarshalLease v = Ok l -> tok <> Token l ->
  (redis_Release n p tok reg s).2 = s.
Proof.
  intros Hok Hg Hd Htok. destruct (Release_after n p tok reg s Hok) as [->|(l' & v' & _ & Hd' & Hg' & Ht' & _)]; [done|].
  rewrite Hg in Hg'. injection Hg' as <-. rewrite Hd in Hd'. by simplify_eq.
Qed.

(** With its own token, a lease is gone once a Release has succeeded. *)
Lemma Release_removes n p reg s s' l d :
  directory_ok (reg, s) -> (0 <= p)%Z -> (0 <= d)%Z ->
  (forall v, GET (key_of p reg) s = Some v -> UnmarshalLease v = Ok l) ->
  redis_Release n p (Token l) reg s = (None, s') ->
  redis_Resolve (mkNet true None) p reg (advance d s') = Err ErrRouteNotFound.
Proof.
  intros Hok Hp Hd Hv HR. destruct (Release_cases n p (Token l) (reg, s) Hok) as [He|He]; cbn in He; rewrite He in HR; [done|].
  injection HR as Hn Hs. unfold delivered in Hs. destruct (net_err n); [done|].
  rewrite bool_decide_true, orb_true_r in Hs by done. pose proof (script_cases p (Token l) (reg, s) Hok) as Hsc. cbn in Hsc.
  apply Resolve_none; [apply Hok|done|]. destruct (GET (key_of p reg) s) as [v|] eqn:Hg.
  - destruct Hsc as (l' & _ & Hl' & Hsc). rewrite Hsc in Hs. rewrite (Hv v eq_refl) in Hl'. injection Hl' as <-.
    rewrite decide_True in Hs by done. subst s'. by apply DEL_same.
  - rewrite Hsc in Hs. subst s'. cbn. destruct (GET (key_of p reg) (advance d s)) as [v|] eqn:Hg'; [|done].
    apply advance_keeps in Hg'; [by rewrite Hg in Hg'|done].
Qed.

(** On a healthy network Release answers nil. *)
Lemma Release_answers p reg s l :
  directory_ok (reg, s) -> (0 <= p)%Z -> validLease l = true ->
  (redis_Release (mkNet true None) p (Token l) reg s).1 = None.
Proof.
  intros Hok Hp Hl. unfold redis_Release. rewrite (proj1 Hok : unusable reg = false), (proj2 (Z.ltb_ge p 0)) by done.
  unfold validLease in Hl. destruct (is_blank (Token l)); [by rewrite orb_true_r in Hl|]. cbn.
  pose proof (script_cases p (Token l) (reg, s) Hok) as Hs. cbn in Hs.
  destruct (GET (key_of p reg) s) as [v|]; [|by rewrite Hs].
  destruct Hs as (l' & _ & _ & ->). by case_decide.
Qed.

#[export] Program Instance redis_registry_laws :
    Routing.RegistryLaws (option RedisRegistry * St) net := {
  registry_ok := directory_ok;
  partition_ok := Z.le 0;
  lease_ok := publishable;
  ttl_ok := redis_ttl;
}.
Next Obligation.
  intros e p l ttl [reg s] Hok Hl Ht. cbn. pose proof (Register_keeps e p l ttl reg s Hok Hl Ht).
  by destruct (redis_Register e p l ttl reg s).
Qed.
Next Obligation.
  intros e p tok [reg s] Hok. cbn. pose proof (Release_keeps e p tok reg s Hok).
  by destruct (redis_Release e p tok reg s).
Qed.
Next Obligation.
  intros d [reg s] Hd [Hu Hok]. split; [done|]. intros p v Hg. cbn in *.
  apply (Hok p v). by eapply advance_keeps.
Qed.
Next Obligation.
  intros p l ttl [reg s] Hok Hp Hl Ht. cbn.
  destruct (Register_cases (mkNet true None) p l ttl reg s (proj1 Hok))
    as [[_ [?|[?|?]]]|[(err & He & _)|(_ & v & _ & _ & ->)]].
  - lia.
  - destruct Ht. lia.
  - destruct Hl. congruence.
  - done.
  - done.
Qed.
Next Obligation.
  intros p l [reg s] Hok Hp Hl. cbn.
  destruct (redis_Release (mkNet true None) p (Token l) reg s) as [err s'] eqn:HR. cbn.
  unfold redis_Release in HR. rewrite (proj1 Hok : unusable reg = false) in HR.
  destruct (Z.ltb_spec p 0); [lia|].
  assert (Hb : is_blank (Token l) = false).
  { destruct Hl as [Hl _]. unfold validLease in Hl. by destruct (is_blank (GatewayID l)), (is_blank (Token l)). }
  rewrite Hb in HR. cbn in HR. pose proof (script_cases p (Token l) (reg, s) Hok) as Hs. cbn in Hs.
  destruct (GET (key_of p reg) s) as [v|].
  - destruct Hs as (l' & _ & _ & Hs). rewrite Hs in HR. case_decide; congruence.
  - rewrite Hs in HR. congruence.
Qed.
Next Obligation. intros [reg s] p. apply Resolve_GET. apply advance_none. Qed.
Next Obligation. intros [reg s] p a b Ha Hb. apply Resolve_GET. by apply advance_add. Qed.
Next Obligation.
  intros e p l ttl [reg s] [reg' s'] d Hok Hl Ht HR Hd. cbn in HR.
  destruct (redis_Register e p l ttl reg s) as [err s1] eqn:HR1. injection HR as -> <- <-.
  unfold view. cbn. rewrite (Register_served e p l ttl reg s s1 d) by (done || lia).
  by rewrite (proj2 (Z.ltb_lt d ttl)) by lia.
Qed.
Next Obligation.
  intros e p l ttl [reg s] [reg' s'] d Hok Hl Ht HR Hd. cbn in HR.
  destruct (redis_Register e p l ttl reg s) as [err s1] eqn:HR1. injection HR as -> <- <-.
  unfold view. cbn. destruct Ht as [??].
  rewrite (Register_served e p l ttl reg s s1 d) by (done || lia).
  by rewrite (proj2 (Z.ltb_ge d ttl)) by lia.
Qed.
Next Obligation.
  intros e p q l ttl [reg s] d Hok Hq Hd. unfold view. cbn.
  destruct (Register_cases e p l ttl reg s (proj1 Hok)) as [[-> _]|[(err & _ & ->)|(_ & v & _ & _ & ->)]];
    [done|done|]. cbn. destruct (delivered e); [|done]. by apply other_key; [apply Hok|..].
Qed.
Next Obligation.
  intros e p tok [reg s] d Hok Hd. unfold view. cbn.
  destruct (Release_after e p tok reg s Hok) as [Heq|(l & v & Hl & Hdec & Hg & Ht & Heq)];
    destruct (redis_Release e p tok reg s) as [err s1]; cbn in Heq; subst s1; [by left|].
  destruct (Z.ltb_spec p 0).
  - left. unfold redis_Resolve. cbn. by rewrite (proj2 (Z.ltb_lt p 0)), orb_true_r by done.
  - right. exists l. split; [|done]. eapply Resolve_some; try done. apply Hok.
Qed.
Next Obligation.
  intros e p tok [reg s] [reg' s'] l Hok HR Hres. cbn in HR, Hres.
  destruct (redis_Release e p tok reg s) as [err s1] eqn:HR1. injection HR as -> <- <-.
  destruct (Release_cases e p tok (reg, s) Hok) as [Heq|Heq]; cbn in Heq; rewrite HR1 in Heq; [done|].
  injection Heq as Hn ->. unfold delivered in Hres. destruct (net_err e); [done|].
  rewrite bool_decide_true, orb_true_r in Hres by done.
  pose proof (script_cases p tok (reg, s) Hok) as Hs. cbn in Hs. unfold redis_Resolve in Hres. cbn in Hres.
  destruct (_ || _) in Hres; [done|].
  destruct (GET (key_of p reg) s) as [v|] eqn:Hg; [|rewrite Hs in Hres; cbn in Hres; by rewrite Hg in Hres].
  destruct Hs as (l' & Hl' & Hd' & Hs). rewrite Hs in Hres. case_decide as Ht; cbn in Hres.
  - rewrite DEL_now in Hres. by rewrite decide_True in Hres by done.
  - rewrite Hg, Hd' in Hres. by destruct (validLease l'); simplify_eq.
Qed.
Next Obligation.
  intros e p q tok [reg s] d Hok Hq Hd. unfold view. cbn.
  destruct (Release_after e p tok reg s Hok) as [Heq|(l & v & Hl & Hdec & Hg & Ht & Heq)];
    destruct (redis_Release e p tok reg s) as [err s1]; cbn in Heq; subst s1; [done|].
  cbn. by apply other_key; [apply Hok|..].
Qed.

End laws.

(** ** Accepted URLs *)

Lemma str_inj l s : Forall is_byte l -> str l = s -> l = bytes s.
Proof. intros Hl <-. by rewrite bytes_str. Qed.

Lemma lower_bytes l : Forall is_byte l -> Forall is_byte (lower l).
Proof. intros Hl. apply Forall_fmap. eapply Forall_impl; [exact Hl|]. unfold is_byte. cbn. intros b Hb. case_match; lia. Qed.

Lemma websocket_url_text `{IPLiterals} u parsed :
  url_Parse u = Ok parsed -> websocket_url parsed = true ->
  exists l marks scheme host, bytes u = l ++ marks /\ marks ∈ bytes <$> [""; "#"]%string /\ (35%Z ∉ l) /\
    parse l = Some (scheme, host, false, []) /\
    (str scheme = "ws"%string \/ str scheme = "wss"%string) /\ host <> [].
Proof.
  unfold url_Parse, websocket_url. destruct (cut 35 (bytes u)) as [l frag] eqn:Hc.
  apply cut_spec in Hc as [Hn Hl].
  destruct (parse l) as [[[[scheme host] user] query]|] eqn:Hp; [|done].
  destruct (unescape encodeFragment (default [] frag)) as [fragment|] eqn:Hf; [|done]. intros [= <-].
  cbn [Scheme Host User RawQuery Fragment].
  rewrite !andb_true_iff, orb_true_iff, !negb_true_iff, !bool_decide_eq_true, bool_decide_eq_false.
  intros ((((Hs & Hh) & ->) & Hq) & Hfr). apply str_nil in Hq as ->. apply str_nil in Hfr as ->.
  apply unescape_nil in Hf. exists l, (match frag with Some f => 35%Z :: f | None => [] end), scheme, host.
  split_and!; [|destruct frag as [f|]; cbn in Hf; subst; by apply (bool_decide_eq_true_1 _)|done|done|done|].
  - destruct frag; rewrite Hl; [done|by rewrite app_nil_r].
  - intros ->. by apply Hh.
Qed.

Lemma parseHost_nil `{IPLiterals} scheme host : parseHost scheme [] = Some host -> host = [].
Proof. unfold parseHost. cbn. case_bool_decide; cbn; congruence. Qed.

(** ** Properties *)

(** C30: the life of a lease, in a directory whose entries were written by Register, for a
    valid lease of UTF-8 texts and a TTL of whole milliseconds.  After a Register that
    reported success, the partition resolves to exactly that lease until its TTL has passed
    and to no route from then on.  A Release with another token leaves the server exactly
    as it is, the TTL included.  A Release with the lease's token that succeeds leaves no
    route for good, also when it repeats one that was lost, or whose answer was; and on a
    healthy network it does succeed.  Whatever Register and Release do, every other
    partition resolves as before at every later time. *)
Theorem lease_lifecycle {St} `{RedisLaws St} `{CJsonLaws} `{IPLiterals} n p l ttl reg (s s' : St) :
  directory_ok (reg, s) -> publishable l -> redis_ttl ttl ->
  redis_Register n p l ttl reg s = (None, s') ->
  let online := mkNet true None in
  (forall d, (0 <= d)%Z -> redis_Resolve online p reg (advance d s') =
     if (d <? ttl)%Z then Ok l else Err ErrRouteNotFound) /\
  (forall n' tok, tok <> Token l -> (redis_Release n' p tok reg s').2 = s') /\
  (forall n' s'' d, redis_Release n' p (Token l) reg s' = (None, s'') -> (0 <= d)%Z ->
     redis_Resolve online p reg (advance d s'') = Err ErrRouteNotFound) /\
  (forall n1 n2 s'' d, redis_Release n2 p (Token l) reg (redis_Release n1 p (Token l) reg s').2 = (None, s'') ->
     (0 <= d)%Z -> redis_Resolve online p reg (advance d s'') = Err ErrRouteNotFound) /\
  (redis_Release online p (Token l) reg s').1 = None /\
  (forall q d, q <> p -> (0 <= d)%Z ->
     redis_Resolve online q reg (advance d s') = redis_Resolve online q reg (advance d s) /\
     forall n' tok, redis_Resolve online q reg (advance d (redis_Release n' p tok reg s').2) =
       redis_Resolve online q reg (advance d s)).
Proof.
  intros Hok Hl Ht HR online. destruct (Register_stored n p l ttl reg s s' Hok Hl Ht HR) as (Hp & Hok' & v & Hg & Hv).
  assert (Hq : forall q d, q <> p -> (0 <= d)%Z ->
    redis_Resolve online q reg (advance d s') = redis_Resolve online q reg (advance d s)).
  { intros q d Hq Hd.
    destruct (Register_cases n p l ttl reg s (proj1 Hok)) as [[He _]|[(err & _ & He)|(_ & w & _ & _ & He)]];
      rewrite He in HR; [done|done|]. injection HR as _ <-. destruct (delivered n); [|done].
    by apply other_key; [apply Hok|..]. }
  split_and!.
  - intros d Hd. by apply (Register_served n p l ttl reg s).
  - intros n' tok Htok. by apply (Release_refused n' p tok reg s' v l).
  - intros n' s'' d HD Hd. apply (Release_removes n' p reg s' s'' l d Hok' Hp Hd); [|done]. intros w Hw. by simplify_eq.
  - intros n1 n2 s'' d HD Hd. apply (Release_removes n2 p reg (redis_Release n1 p (Token l) reg s').2 s'' l d); try done.
    + by apply Release_keeps.
    + intros w Hw. destruct (Release_after n1 p (Token l) reg s' Hok') as [He|(l' & v' & _ & _ & _ & _ & He)]; rewrite He in Hw.
      * by simplify_eq.
      * by rewrite DEL_now, decide_True in Hw by done.
  - by apply Release_answers; [| |apply Hl].
  - intros q d Hqp Hd. split; [by apply Hq|]. intros n' tok. by rewrite Release_other, Hq.
Qed.

(** The URLs the program accepts for its gateways, in a lease and in the
    configuration.  An accepted URL is ws:// or wss:// in any letter case, an authority
    that is not empty and carries no credentials, and a path: no query and no fragment
    follow, at most the bare marks that introduce them.  Conversely every URL made of
    the scheme, a host name, an optional port and a path without escapes is accepted. *)
Theorem accepted_urls `{IPLiterals} :
  (forall u parsed, url_Parse u = Ok parsed -> websocket_url parsed = true ->
    exists scheme authority path marks,
      bytes u = scheme ++ bytes "://" ++ authority ++ path ++ marks /\
      lower scheme ∈ bytes <$> ["ws"; "wss"]%string /\ authority <> [] /\
      (forall b, b ∈ authority -> b ∉ bytes "/?#@") /\
      (path = [] \/ head path = Some 47%Z) /\ (forall b, b ∈ path -> b ∉ bytes "?#") /\
      marks ∈ bytes <$> [""; "?"; "#"; "?#"]%string) /\
  (forall scheme name port path,
    scheme ∈ bytes <$> ["ws"; "wss"]%string -> Forall name_byte name -> name <> [] ->
    port_text port -> path_text path ->
    exists parsed, url_Parse (str (scheme ++ bytes "://" ++ name ++ port ++ path)) = Ok parsed /\
      websocket_url parsed = true).
Proof.
  split.
  - intros u parsed Hu Hw.
    destruct (websocket_url_text u parsed Hu Hw) as (l & marks & scheme & host & Hl & Hm & Hn & Hp & Hs & Hh).
    assert (Hnil : scheme <> []) by (by destruct Hs as [Hs|Hs]; intros ->).
    destruct (parse_shape _ _ _ _ _ Hp Hnil Hh) as (scheme' & authority & path & q & [Ht [Ha1 Ha2] [Hp1 Hp2] Hq] & -> & Hau & Hq').
    apply parseAuthority_nouser in Hau as [Hat Hhost]. exists scheme', authority, path, (q ++ marks).
    rewrite Ht, !not_elem_of_app in Hn. destruct Hn as (_ & _ & Hn1 & Hn2 & _).
    split_and!; [by rewrite Hl, Ht, <- !app_assoc| |by intros ->; by apply parseHost_nil in Hhost| |done| |].
    + assert (Hb : Forall is_byte (lower scheme')).
      { apply lower_bytes. pose proof (bytes_range u) as Hb. rewrite Hl, Ht, <- !app_assoc in Hb. by apply Forall_app in Hb as [Hb _]. }
      destruct Hs as [Hs|Hs]; apply str_inj in Hs; try done; rewrite Hs; by apply (bool_decide_eq_true_1 _).
    + intros b Hb Hin. cbn in Hin. rewrite !elem_of_cons, elem_of_nil in Hin. naive_solver.
    + intros b Hb Hin. cbn in Hin. rewrite !elem_of_cons, elem_of_nil in Hin. naive_solver.
    + assert (Hq2 : q = [] \/ q = [63%Z]) by (destruct q as [|b q]; [by left|right]; cbn in *; subst; naive_solver).
      cbn [fmap list_fmap] in Hm.
      repeat (apply elem_of_cons in Hm as [->|Hm]); [..|by apply elem_of_nil in Hm];
        destruct Hq2 as [-> | ->]; by apply (bool_decide_eq_true_1 _).
  - intros scheme name port path Hs Hn Hne Hp Hpath. eexists. split; [by apply url_Parse_usual|].
    unfold websocket_url. cbn [Scheme Host User RawQuery Fragment].
    rewrite (bool_decide_eq_false_2 (str (name ++ port) = _)).
    2: { rewrite str_nil. by destruct name. }
    repeat (apply elem_of_cons in Hs as [->|Hs]); [..|by apply elem_of_nil in Hs]; rewrite str_bytes; reflexivity.
Qed.

(** The keys of the directory never collide: registries with different prefixes,
    and different partitions of one registry, use different keys. *)
Theorem key_injective p q reg reg' :
  key p reg = key q reg' <-> p = q /\ keyPrefix reg = keyPrefix reg'.
Proof.
  split; [|by intros [-> Heq]; unfold key; rewrite Heq].
  unfold key. intros Heq. apply (f_equal bytes) in Heq. rewrite !bytes_app in Heq.
  change (bytes ":partition:") with (bytes ":partition" ++ [58%Z]) in Heq.
  rewrite <- !app_assoc in Heq. rewrite !(app_assoc (bytes (keyPrefix _))) in Heq.
  apply last_colon_inj in Heq as [Hp Hz]; [|apply Itoa_no_colon..].
  apply bytes_inj in Hz. split; [by apply (inj pretty)|]. apply bytes_inj. by apply app_inv_tail in Hp.
Qed.

(** NewRedisRegistry accepts a configuration exactly when it has an address and a
    database number; the prefix is the trimmed one, or the default when it is blank,
    without one trailing colon. *)
Theorem NewRedisRegistry_spec config :
  match NewRedisRegistry config with
  | Err err => err = ErrInvalidConfig /\ (blank_string (Address config) \/ (DB config < 0)%Z)
  | Ok reg => ~ blank_string (Address config) /\ (0 <= DB config)%Z /\ unusable (Some reg) = false /\
      keyPrefix reg = TrimSuffix (if is_blank (KeyPrefix config) then defaultKeyPrefix
                                  else TrimSpace (KeyPrefix config)) ":"
  end.
Proof.
  unfold NewRedisRegistry. destruct (is_blank (Address config)) eqn:Hb; cbn.
  { split; [done|]. left. by apply is_blank_spec. }
  destruct (Z.ltb_spec (DB config) 0); [by auto|].
  split_and!; [by apply is_blank_false|lia|done|done].
Qed.

(** ** A concrete server, for the witnesses *)

(** Values with the time at which they expire. *)
Record memory := mkMemory { now : Z; data : gmap string (string * Z) }.

#[export] Instance memory_server : RedisServer memory := {
  GET k s := match data s !! k with
             | Some (v, until) => if (now s <? until)%Z then Some v else None
             | None => None
             end;
  SET k v ttl s := mkMemory (now s) (<[k := (v, now s + ttl)%Z]> (data s));
  DEL k s := mkMemory (now s) (delete k (data s));
  advance d s := mkMemory (now s + d)%Z (data s);
}.

#[export] Instance memory_laws : RedisLaws memory.
Proof.
  split; cbn; intros.
  - rewrite lookup_insert_eq. destruct (Z.ltb_spec d ttl), (Z.ltb_spec (now s + d) (now s + ttl)); lia || done.
  - by rewrite lookup_insert_ne.
  - by rewrite lookup_delete_eq.
  - by rewrite lookup_delete_ne.
  - by rewrite Z.add_0_r.
  - by rewrite Z.add_assoc.
  - destruct (data s !! k) as [[v' until]|]; [|done].
    destruct (Z.ltb_spec (now s + d) until), (Z.ltb_spec (now s) until); done || lia.
Qed.

(** The leases of the examples, and a server that decodes what json.Marshal wrote. *)
Definition g1 : Lease := mkLease "gw-1" "ws://gw-1/ws" "t1".
Definition g2 : Lease := mkLease "gw-2" "ws://gw-2/ws" "t2".

#[export] Instance sample_cjson : CJson := {
  cjson_token v := match UnmarshalLease v with Ok l => Ok (Some (Token l)) | Err err => Err err end;
}.
#[export] Instance sample_cjson_laws : CJsonLaws.
Proof. split. intros l v Hu Hm. cbn. by rewrite (UnmarshalLease_Marshal l v Hu Hm). Qed.

(** The examples hold no IP literal. *)
#[export] Instance no_literals : IPLiterals := { is_ipv6 _ := false }.

Lemma ascii_valid_utf8 s : Forall (fun b => 0 <= b < 128)%Z (bytes s) -> valid_utf8 s.
Proof.
  intros Hs. exists (bytes s). split.
  - eapply Forall_impl; [exact Hs|]. intros b Hb. cbn in Hb. unfold valid_rune. lia.
  - induction Hs as [|b l Hb Hs IH]; [done|]. cbn. rewrite <- IH. unfold enc_arith.
    destruct (Z.leb_spec b 0x7F); [done|lia].
Qed.

Lemma sample_publishable : publishable g1 /\ publishable g2.
Proof.
  unfold publishable, utf8_lease. split; (split; [vm_compute; done|]); split_and!;
    apply ascii_valid_utf8; vm_compute; repeat constructor; done.
Qed.

Definition sample_directory : option RedisRegistry * memory :=
  (Some (mkRedisRegistry true "danmuflow:routing"), mkMemory 0 ∅).
Definition six_seconds : duration := (6 * Second)%Z.

Lemma sample_directory_ok : directory_ok sample_directory.
Proof. split; [done|]. intros p v. cbn. by rewrite lookup_empty. Qed.

Lemma six_seconds_ok : redis_ttl six_seconds.
Proof. split; [done|]. exists 6000%Z. done. Qed.

(** gw-2 has taken partition 3 over; the late Release of gw-1 leaves the server as it is;
    its own leaves no route, and another partition's route alone. *)
Lemma lease_lifecycle_witness :
  exists s', redis_Register (mkNet true None) 3 g2 six_seconds sample_directory.1 sample_directory.2 = (None, s') /\
    (redis_Release (mkNet true None) 3 (Token g1) sample_directory.1 s').2 = s' /\
    redis_Resolve (mkNet true None) 3 sample_directory.1 (advance six_seconds s') = Err ErrRouteNotFound /\
    (redis_Release (mkNet true None) 3 (Token g2) sample_directory.1 s').1 = None.
Proof.
  destruct (redis_Register (mkNet true None) 3 g2 six_seconds sample_directory.1 sample_directory.2)
    as [err s'] eqn:HR.
  assert (err = None) as -> by (vm_compute in HR; congruence).
  destruct (lease_lifecycle (mkNet true None) 3 g2 six_seconds sample_directory.1 sample_directory.2 s'
    sample_directory_ok (proj2 sample_publishable) six_seconds_ok HR) as (H1 & H2 & _ & _ & H5 & _).
  exists s'. split; [done|]. split; [by apply H2|]. split; [by rewrite H1|exact H5].
Defined.

End Redis.
