(* ===== verification/Publisher.v ===== *)
(** * The route publisher (internal/routing/publisher.go)

    A loop that keeps the directory's leases equal to the partitions the bus owns.
    It is written and verified against the interfaces [Routing.Registry] and
    [Bus.RoomOwnership]; what the bus answers, the clock, the network, and what others
    did to the directory since the last turn come with each turn of the loop ([poll]).
    Here a turn is one step; PublisherLife has its statements, and Renewal the time they
    take and what other gateways write in between. *)

From S2P Require Import Prelude.
From S2P Require Import GoStrings.
From S2P Require Import Bus.
From S2P Require Import Routing.
From S2P Require Import Redis.

Module Publisher.

Definition publisherTokenBytes : nat := 16.

Record PublisherConfig := mkPublisherConfig {
  GatewayID : string; WebSocketURL : string; LeaseTTL : duration; PollInterval : duration;
}.

(** [random] is what rand.Read delivers: the bytes, or its error. *)
Definition newPublisherToken (random : result (list Z)) : result string :=
  match random with
  | Err err => Err err
  | Ok token => Ok (EncodeToString token)
  end.

(** [StartPublisher]: the lease the loop will publish. *)
Definition StartPublisher (registry_nil ownership_nil : bool) (config : PublisherConfig)
  (random : result (list Z)) : result Lease :=
  if registry_nil || ownership_nil || bool_decide (GatewayID config = ""%string)
     || bool_decide (WebSocketURL config = ""%string)
     || (LeaseTTL config <=? 0)%Z || (PollInterval config <=? 0)%Z
     || (LeaseTTL config <=? PollInterval config)%Z
  then Err ErrInvalidConfig
  else match newPublisherToken random with
  | Err err => Err (Wrap "create routing publisher token" err)
  | Ok token => Ok (mkLease (GatewayID config) (WebSocketURL config) token)
  end.

Section publisher.
Context {R Env : Type} `{Registry R Env}.

(** One pass over partitions; failures are logged and skipped. *)
Definition register_all (env : Z -> Env) (lease : Lease) (ttl : duration) (ps : list Z) (r : R) : R :=
  foldl (fun r p => (Register (env p) p lease ttl r).2) r ps.
Definition release_all (env : Z -> Env) (token : string) (ps : list Z) (r : R) : R :=
  foldl (fun r p => (Release (env p) p token r).2) r ps.

(** [order] is the order in which the runtime visits the published partitions. *)
Definition reconcile (reg_env rel_env : Z -> Env) (lease : Lease) (ttl : duration)
  (assigned : list Z) (order : list Z) (r : R) : gset Z * R :=
  let next : gset Z := list_to_set assigned in
  let r := register_all reg_env lease ttl assigned r in
  let gone := List.filter (fun p => negb (bool_decide (p ∈ next))) order in
  (next, release_all rel_env (Token lease) gone r).

Definition releaseAll (env : Z -> Env) (token : string) (order : list Z) (r : R) : R :=
  release_all env token order r.

(** One turn of the loop: what has happened to the directory since the last one (time
    passes, other gateways write), the clock, the revision read, then what reconcile reads
    and does if it is called. *)
Record poll := mkPoll {
  meanwhile : R -> R;
  at_time : time;
  revision : Z;
  assigned : list Z;
  order : list Z;
  reg_env : Z -> Env;
  rel_env : Z -> Env;
}.

Record loop_state := mkLoop {
  lastRevision : Z; lastRefresh : time; published : gset Z; directory : R;
}.

(** [^uint64(0)], and the zero time. *)
Definition loop_start (r : R) : loop_state := mkLoop (2 ^ 64 - 1)%Z time_zero ∅ r.

Definition refreshDue (config : PublisherConfig) (now : time) (st : loop_state) : bool :=
  (Z.quot (LeaseTTL config) 3 <=? time_Sub now (lastRefresh st))%Z.

Definition poll_once (config : PublisherConfig) (lease : Lease) (x : poll) (st : loop_state) : loop_state :=
  if negb (revision x =? lastRevision st)%Z || refreshDue config (at_time x) st then
    let '(next, r) := reconcile (reg_env x) (rel_env x) lease (LeaseTTL config)
                        (assigned x) (order x) (directory st) in
    mkLoop (revision x) (at_time x) next r
  else st.

(** The loop over its turns. *)
Fixpoint run (config : PublisherConfig) (lease : Lease) (polls : list poll) (st : loop_state) : loop_state :=
  match polls with
  | [] => st
  | x :: polls =>
    let st := mkLoop (lastRevision st) (lastRefresh st) (published st) (meanwhile x (directory st)) in
    run config lease polls (poll_once config lease x st)
  end.

(** Each turn visits the partitions that are published, in some order. *)
Fixpoint visits_published (config : PublisherConfig) (lease : Lease) (polls : list poll) (st : loop_state) : Prop :=
  match polls with
  | [] => True
  | x :: polls =>
    let st := mkLoop (lastRevision st) (lastRefresh st) (published st) (meanwhile x (directory st)) in
    order x ≡ₚ elements (published st) /\ visits_published config lease polls (poll_once config lease x st)
  end.

(** The loop's end, when the context is done. *)
Definition finish (env : Z -> Env) (lease : Lease) (order : list Z) (st : loop_state) : R :=
  releaseAll env (Token lease) order (directory st).

(** [Stop]: the result, when the loop's goroutine has ended or the caller's context
    has; nothing ([]) while it waits. *)
Definition Stop (publisher_nil done : bool) (ctx_err : option error) : list (option error) :=
  if publisher_nil then [None]
  else (if done then [None] else []) ++ (match ctx_err with Some err => [Some err] | None => [] end).

End publisher.

(** ** Registering and releasing: lemmas *)

Section laws.
Context {R Env : Type} `{RegistryLaws R Env}.
Implicit Types (r : R).

(** No lease with this token is served for the partition. *)
Definition not_own (token : string) (r : R) (p : Z) : Prop :=
  forall l, Resolve healthy p r = Ok l -> Token l <> token.

Lemma register_all_ok env lease ttl ps : forall r,
  registry_ok r -> lease_ok lease -> ttl_ok ttl -> registry_ok (register_all env lease ttl ps r).
Proof.
  induction ps as [|p ps IH]; intros r Hr Hl Ht; [done|].
  apply (IH _ (Register_keeps_ok (env p) p lease ttl r Hr Hl Ht) Hl Ht).
Qed.

Lemma release_all_ok env tok ps : forall r, registry_ok r -> registry_ok (release_all env tok ps r).
Proof.
  induction ps as [|p ps IH]; intros r Hr; [done|].
  apply (IH _ (Release_keeps_ok (env p) p tok r Hr)).
Qed.

Lemma register_all_other env lease ttl q d ps : forall r,
  registry_ok r -> lease_ok lease -> ttl_ok ttl -> q ∉ ps -> (0 <= d)%Z ->
  view (register_all env lease ttl ps r) q d = view r q d.
Proof.
  induction ps as [|p ps IH]; intros r Hr Hl Ht Hq Hd; [done|].
  apply not_elem_of_cons in Hq as [Hne Hq].
  change (register_all env lease ttl (p :: ps) r)
    with (register_all env lease ttl ps (Register (env p) p lease ttl r).2).
  rewrite IH by (done || by apply Register_keeps_ok). by apply Register_other.
Qed.

Lemma register_all_serves env lease ttl p d ps : forall r,
  registry_ok r -> lease_ok lease -> ttl_ok ttl -> p ∈ ps -> partition_ok p -> env p = healthy ->
  (0 <= d < ttl)%Z -> view (register_all env lease ttl ps r) p d = Ok lease.
Proof.
  induction ps as [|q ps IH]; intros r Hr Hl Ht Hin Hp He Hd; [by apply elem_of_nil in Hin|].
  change (register_all env lease ttl (q :: ps) r)
    with (register_all env lease ttl ps (Register (env q) q lease ttl r).2).
  pose proof (Register_keeps_ok (env q) q lease ttl r Hr Hl Ht) as Hr1.
  destruct (decide (p ∈ ps)) as [Hps|Hps]; [by apply IH|].
  apply elem_of_cons in Hin as [<-|?]; [|done].
  rewrite register_all_other by (done || lia). rewrite He in *.
  pose proof (Register_healthy p lease ttl r Hr Hp Hl Ht) as Hok.
  destruct (Register healthy p lease ttl r) as [err r1] eqn:HR. cbn in Hok. subst err. cbn.
  by apply (Register_serves healthy p lease ttl r).
Qed.

Lemma release_all_other env tok q d ps : forall r,
  registry_ok r -> q ∉ ps -> (0 <= d)%Z -> view (release_all env tok ps r) q d = view r q d.
Proof.
  induction ps as [|p ps IH]; intros r Hr Hq Hd; [done|].
  apply not_elem_of_cons in Hq as [Hne Hq].
  change (release_all env tok (p :: ps) r) with (release_all env tok ps (Release (env p) p tok r).2).
  rewrite IH by (done || by apply Release_keeps_ok). by apply Release_other.
Qed.

(** Releasing leaves alone, now and later, a partition that has no own lease. *)
Lemma Release_not_own e tok p q d r :
  registry_ok r -> not_own tok r q -> (0 <= d)%Z -> view (Release e p tok r).2 q d = view r q d.
Proof.
  intros Hr Hn Hd. destruct (decide (q = p)) as [->|Hne]; [|by apply Release_other].
  destruct (Release_compares e p tok r d Hr Hd) as [?|(l & Hl & Ht)]; [done|]. by destruct (Hn l Hl).
Qed.

Lemma not_own_view tok r r' q :
  view r' q 0%Z = view r q 0%Z -> not_own tok r q -> not_own tok r' q.
Proof. rewrite !view_now. intros Heq Hn l. rewrite Heq. apply Hn. Qed.

Lemma release_all_not_own env tok q d ps : forall r,
  registry_ok r -> not_own tok r q -> (0 <= d)%Z -> view (release_all env tok ps r) q d = view r q d.
Proof.
  induction ps as [|p ps IH]; intros r Hr Hn Hd; [done|].
  change (release_all env tok (p :: ps) r) with (release_all env tok ps (Release (env p) p tok r).2).
  rewrite IH.
  - by apply Release_not_own.
  - by apply Release_keeps_ok.
  - eapply not_own_view; [|done]. by apply Release_not_own.
  - done.
Qed.

Lemma release_all_removes env lease p ps : forall r,
  registry_ok r -> lease_ok lease -> partition_ok p -> p ∈ ps -> env p = healthy ->
  not_own (Token lease) (release_all env (Token lease) ps r) p.
Proof.
  induction ps as [|q ps IH]; intros r Hr Hl Hp Hin He; [by apply elem_of_nil in Hin|].
  change (release_all env (Token lease) (q :: ps) r)
    with (release_all env (Token lease) ps (Release (env q) q (Token lease) r).2).
  pose proof (Release_keeps_ok (env q) q (Token lease) r Hr) as Hr1.
  destruct (decide (p = q)) as [<-|Hne].
  - assert (Hn : not_own (Token lease) (Release (env p) p (Token lease) r).2 p).
    { intros l. rewrite He. pose proof (Release_healthy p lease r Hr Hp Hl) as Hok.
      destruct (Release healthy p (Token lease) r) as [err r1] eqn:HR. cbn in Hok |- *. subst err.
      by apply (Release_removes healthy p (Token lease) r). }
    eapply not_own_view; [|done]. by apply release_all_not_own.
  - apply elem_of_cons in Hin as [?|Hin]; [done|]. by apply IH.
Qed.

Lemma elem_of_gone (assigned order : list Z) p :
  p ∈ List.filter (fun p => negb (bool_decide (p ∈ (list_to_set assigned : gset Z)))) order <->
  p ∈ order /\ p ∉ assigned.
Proof.
  rewrite list_elem_of_In, filter_In, <- list_elem_of_In, negb_true_iff, bool_decide_eq_false.
  by rewrite elem_of_list_to_set.
Qed.

End laws.

(** An assigned partition whose Register gets through is served for the whole TTL. *)
Lemma reconcile_serves {R Env} `{RegistryLaws R Env} reg_env rel_env lease ttl assigned order (r : R) p d :
  registry_ok r -> lease_ok lease -> ttl_ok ttl -> p ∈ assigned -> partition_ok p ->
  reg_env p = healthy -> (0 <= d < ttl)%Z ->
  view (reconcile reg_env rel_env lease ttl assigned order r).2 p d = Ok lease.
Proof.
  intros Hr Hl Ht Hin Hp He Hd. cbn. rewrite release_all_other.
  - by apply register_all_serves.
  - by apply register_all_ok.
  - rewrite elem_of_gone. tauto.
  - lia.
Qed.

(** ** Reconciling: properties *)

(** Reconcile makes the directory agree with the ownership, partition by
    partition, whatever fails elsewhere.  An assigned partition whose Register gets
    through serves the gateway's lease for the whole TTL; a published partition that
    is no longer assigned and whose Release gets through serves no lease of this
    gateway; and a partition that now carries another gateway's lease is left alone,
    at every later time, even if this gateway still tries to release it. *)
Theorem reconcile_spec {R Env} `{RegistryLaws R Env} reg_env rel_env lease ttl assigned order (r : R) :
  registry_ok r -> lease_ok lease -> ttl_ok ttl ->
  let '(next, r') := reconcile reg_env rel_env lease ttl assigned order r in
  (forall p, p ∈ next <-> p ∈ assigned) /\
  (forall p d, p ∈ assigned -> partition_ok p -> reg_env p = healthy -> (0 <= d < ttl)%Z ->
     view r' p d = Ok lease) /\
  (forall p, p ∈ order -> p ∉ assigned -> partition_ok p -> rel_env p = healthy ->
     not_own (Token lease) r' p) /\
  (forall p d l, p ∉ assigned -> Resolve healthy p r = Ok l -> Token l <> Token lease -> (0 <= d)%Z ->
     view r' p d = view r p d).
Proof.
  intros Hr Hl Ht. cbn. pose proof (register_all_ok reg_env lease ttl assigned r Hr Hl Ht) as Hr1.
  split_and!.
  - intros p. apply elem_of_list_to_set.
  - intros p d Hin Hp He Hd. by apply (reconcile_serves reg_env rel_env lease ttl assigned order r).
  - intros p Hin Hno Hp He. apply release_all_removes; try done. by rewrite elem_of_gone.
  - intros p d l Hno Hres Htok Hd.
    assert (Hreg : forall d, (0 <= d)%Z ->
      view (register_all reg_env lease ttl assigned r) p d = view r p d).
    { intros. by apply register_all_other. }
    rewrite release_all_not_own; [by apply Hreg|done| |done].
    eapply not_own_view; [by apply Hreg|]. intros l'. rewrite Hres. by intros [= <-].
Qed.

(** ** The loop: properties *)

Definition valid_config (config : PublisherConfig) : Prop :=
  (0 < LeaseTTL config <= max_i64)%Z /\ (0 < PollInterval config < LeaseTTL config)%Z.

(** The bus as the loop reads it: [hist] gives the assignments of each revision, and
    revisions only grow.  A turn reads the revision first and the assignments, if at
    all, later, so they may be those of a later revision; [lo] is the latest revision
    seen so far. *)
Fixpoint reads {R Env} (hist : Z -> list Z) (lo : Z) (polls : list (poll (R := R) (Env := Env))) : Prop :=
  match polls with
  | [] => True
  | x :: polls => (lo <= revision x)%Z /\
      exists now, (revision x <= now)%Z /\ assigned x = hist now /\ reads hist now polls
  end.

Definition fresh {R} (hist : Z -> list Z) (lo : Z) (st : loop_state (R := R)) : Prop :=
  exists seen, (lastRevision st <= seen <= lo)%Z /\ published st = list_to_set (hist seen).

Lemma poll_fresh {R Env} `{Registry R Env} config lease hist lo (x : poll (R := R) (Env := Env)) (st : loop_state (R := R)) now :
  fresh hist lo st \/ refreshDue config (at_time x) st = true ->
  (lo <= revision x <= now)%Z -> assigned x = hist now ->
  let st' := poll_once config lease x st in
  fresh hist now st' /\
  exists seen, (revision x <= seen)%Z /\ published st' = list_to_set (hist seen).
Proof.
  intros Hst Hrev Ha. unfold poll_once. destruct (_ || _) eqn:Hdue.
  - cbn. rewrite Ha. split; exists now; (split; [|done]); cbn; lia.
  - apply orb_false_iff in Hdue as [Hne Hdue]. apply negb_false_iff, Z.eqb_eq in Hne.
    destruct Hst as [(seen & Hseen & Hp)|Hst]; [|congruence]. cbn.
    split; exists seen; (split; [lia|done]).
Qed.

Lemma run_fresh {R Env} `{Registry R Env} config lease hist polls : forall lo (st : loop_state (R := R)) x,
  fresh hist lo st -> reads hist lo (polls ++ [x] : list (poll (R := R) (Env := Env))) ->
  let st' := run config lease (polls ++ [x]) st in
  exists seen, (revision x <= seen)%Z /\ published st' = list_to_set (hist seen).
Proof.
  induction polls as [|y polls IH]; intros lo st x Hst Hr; cbn [run app reads] in Hr |- *;
    destruct Hr as (Hlo & now & Hnow & Ha & Hr).
  - by apply (poll_fresh config lease hist lo x _ now); [left|..].
  - destruct (poll_fresh config lease hist lo y
      (mkLoop (lastRevision st) (lastRefresh st) (published st) (meanwhile y (directory st))) now)
      as [Hst' _]; [by left|done|done|].
    exact (IH now _ x Hst' Hr).
Qed.

(** The published set is never older than the revision the loop has just read:
    after any turn it is the assignment of that revision or of a later one, in
    particular the current assignment once the ownership is quiet.  Skipping the
    reconciliation when the revision is unchanged loses no change, and neither does
    reading revision and assignments separately. *)
Theorem published_is_fresh {R Env} `{Registry R Env} config lease hist lo
  (first : poll (R := R) (Env := Env)) polls x (r : R) :
  valid_config config -> (Z.quot (LeaseTTL config) 3 <= at_time first)%Z ->
  reads hist lo (first :: polls ++ [x]) ->
  exists seen, (revision x <= seen)%Z /\
    published (run config lease (first :: polls ++ [x]) (loop_start r)) = list_to_set (hist seen).
Proof.
  intros [Hc _] Hfirst (Hlo & now & Hnow & Ha & Hr). cbn [run].
  destruct (poll_fresh config lease hist lo first
    (mkLoop (lastRevision (loop_start r)) (lastRefresh (loop_start r)) (published (loop_start r))
       (meanwhile first (directory (loop_start r)))) now) as [Hst _].
  - right. unfold refreshDue, time_Sub. cbn. apply Z.leb_le.
    pose proof (Z.quot_le_upper_bound (LeaseTTL config) 3 (LeaseTTL config) ltac:(lia) ltac:(lia)).
    unfold time_zero, max_i64, min_i64 in *. lia.
  - lia.
  - done.
  - exact (run_fresh config lease hist polls now _ x Hst Hr).
Qed.

(** StartPublisher accepts exactly a complete configuration whose polling interval
    is positive and shorter than the TTL; the lease it publishes carries the 32
    hexadecimal digits of a fresh 16-byte token. *)
Theorem StartPublisher_spec registry_nil ownership_nil config token :
  length token = publisherTokenBytes ->
  match StartPublisher registry_nil ownership_nil config (Ok token) with
  | Ok lease =>
      registry_nil = false /\ ownership_nil = false /\ GatewayID config <> ""%string /\
      WebSocketURL config <> ""%string /\ (0 < PollInterval config < LeaseTTL config)%Z /\
      lease = mkLease (GatewayID config) (WebSocketURL config) (EncodeToString token) /\
      String.length (Token lease) = 32
  | Err err => err = ErrInvalidConfig /\
      (registry_nil = true \/ ownership_nil = true \/ GatewayID config = ""%string \/
       WebSocketURL config = ""%string \/ ~ (0 < PollInterval config < LeaseTTL config)%Z)
  end.
Proof.
  intros Hlen. unfold StartPublisher.
  destruct registry_nil; [cbn; split; [done|tauto]|].
  destruct ownership_nil; [cbn; split; [done|tauto]|]. cbn [orb].
  case_bool_decide; [cbn; split; [done|tauto]|].
  case_bool_decide; [cbn; split; [done|tauto]|]. cbn [orb].
  destruct (Z.leb_spec (LeaseTTL config) 0); [cbn; split; [done|lia]|].
  destruct (Z.leb_spec (PollInterval config) 0); [cbn; split; [done|lia]|].
  destruct (Z.leb_spec (LeaseTTL config) (PollInterval config)); cbn; [split; [done|lia]|].
  split_and!; try done. rewrite <- length_bytes, EncodeToString_length, Hlen. done.
Qed.

(** ** Witnesses, on the Redis directory of file Redis *)

Import Redis.

Definition online : Z -> net := fun _ => healthy.
Definition offline : Z -> net := fun _ => mkNet false (Some (Errorf "connection refused")).

(** gw-1 takes partition 0; its release of partition 5, now served by gw-2, is
    harmless, although the network is down for every other partition. *)
Definition taken_over : option RedisRegistry * memory :=
  (Register healthy 5%Z g2 six_seconds sample_directory).2.

Lemma taken_over_ok : registry_ok taken_over.
Proof.
  apply (Register_keeps_ok healthy 5%Z g2 six_seconds sample_directory);
    [apply sample_directory_ok|apply sample_publishable|apply six_seconds_ok].
Qed.

Lemma reconcile_spec_witness :
  let '(next, r') := reconcile online online g1 six_seconds [0%Z] [0; 5]%Z taken_over in
  view r' 0%Z 0%Z = Ok g1 /\ view r' 5%Z 0%Z = Ok g2.
Proof.
  destruct (reconcile online online g1 six_seconds [0%Z] [0; 5]%Z taken_over) as [next r'] eqn:Hrec.
  pose proof (reconcile_spec online online g1 six_seconds [0%Z] [0; 5]%Z taken_over
    taken_over_ok (proj1 sample_publishable) six_seconds_ok) as H.
  rewrite Hrec in H. destruct H as (_ & H1 & _ & H2). split.
  - apply H1; [left|done|done|done].
  - rewrite (H2 5%Z 0%Z g2); [|set_solver|vm_compute; reflexivity|done|done].
    vm_compute. reflexivity.
Defined.

Definition sample_config : PublisherConfig :=
  mkPublisherConfig "gw-1" "ws://gw-1/ws" six_seconds (100 * Millisecond)%Z.
Definition sample_poll (t : time) (rev : Z) (owned order : list Z) : poll (R := option RedisRegistry * memory) (Env := net) :=
  mkPoll (Elapse Second) t rev owned order online online.
Definition day : time := (86400 * Second)%Z.

Lemma published_is_fresh_witness :
  exists seen, (4 <= seen)%Z /\
    published (run sample_config g1 [sample_poll day 3 [1%Z] []; sample_poll (day + Second)%Z 4 [0; 1]%Z [1%Z]]
      (loop_start sample_directory))
    = list_to_set (if bool_decide (seen <= 3)%Z then [1%Z] else [0; 1]%Z).
Proof.
  apply (published_is_fresh sample_config g1 (fun rev => if bool_decide (rev <= 3)%Z then [1%Z] else [0; 1]%Z)
    0%Z (sample_poll day 3 [1%Z] []) [] (sample_poll (day + Second)%Z 4 [0; 1]%Z [1%Z])).
  - done.
  - done.
  - cbn. split; [done|]. exists 3%Z. split_and!; try done. exists 4%Z. done.
Defined.

Lemma StartPublisher_spec_witness :
  exists lease, StartPublisher false false sample_config (Ok (replicate 16 255%Z)) = Ok lease /\
    Token lease = "ffffffffffffffffffffffffffffffff"%string /\ String.length (Token lease) = 32.
Proof.
  pose proof (StartPublisher_spec false false sample_config (replicate 16 255%Z) eq_refl) as H.
  destruct (StartPublisher false false sample_config (Ok (replicate 16 255%Z))) as [lease|err] eqn:HS.
  - exists lease. split; [done|]. destruct H as (_ & _ & _ & _ & _ & Hl & Hlen).
    split; [|exact Hlen]. rewrite Hl. vm_compute. reflexivity.
  - vm_compute in HS. discriminate HS.
Defined.

End Publisher.
