(* ===== verification/PublisherLife.v ===== *)
(** * The publisher's goroutine and Stop (internal/routing/publisher.go run, reconcile,
    releaseAll, Stop)

    The loop of Publisher, statement by statement, with its callers of Stop.  Every call to
    the directory is a step, whose answer the network decides; ownership changes, ticks and
    calls of Stop come between any two statements.  What the goroutine does to the
    directory is kept as the list of its calls: it is a directory itself, one that only
    records, so that the sequential loop of Publisher can be run on it.  The answers are
    kept beside them: the code only logs them, but they decide which leases are left. *)

From S2P Require Import Prelude.
From S2P Require Import GoChan.
From S2P Require Import Routing.
From S2P Require Import Redis.
From S2P Require Import Publisher.

Module PublisherLife.
Import Publisher.

(** ** Calls *)

Inductive call := CRegister (p : Z) (l : Lease) (ttl : duration) | CRelease (p : Z) (token : string).

#[export] Instance recording : Registry (list call) (option error) := {|
  Register e p l ttl r := (e, r ++ [CRegister p l ttl]);
  Resolve _ _ _ := Err ErrRouteNotFound;
  Release e p token r := (e, r ++ [CRelease p token]);
  Elapse _ r := r;
  healthy := None;
|}.

(** The partitions whose last call is a Register. *)
Definition owe (s : gset Z) (c : call) : gset Z :=
  match c with CRegister p _ _ => {[ p ]} ∪ s | CRelease p _ => s ∖ {[ p ]} end.
Definition owed (calls : list call) : gset Z := foldl owe ∅ calls.

Definition about (c : call) : Z := match c with CRegister p _ _ | CRelease p _ => p end.

(** The partitions whose lease may be left in the directory: registered, whatever the
    answer, and not released since by a call that was answered with nil. *)
Definition keep (s : gset Z) (x : call * option error) : gset Z :=
  match x with
  | (CRegister p _ _, _) => {[ p ]} ∪ s
  | (CRelease p _, None) => s ∖ {[ p ]}
  | (CRelease _ _, Some _) => s
  end.
Definition kept (history : list (call * option error)) : gset Z := foldl keep ∅ history.

(** ** The goroutine *)

(** At the top of the loop; in reconcile: before AssignedPartitions, in the first loop,
    before and in the second; in the select; in releaseAll; before the deferred close. *)
Inductive life_pc :=
  | LTop
  | LReconcile (now : time) (rev : Z)
  | LRegister (now : time) (rev : Z) (assigned todo : list Z)
  | LVisit (now : time) (rev : Z) (assigned : list Z)
  | LRelease (now : time) (rev : Z) (assigned todo : list Z)
  | LSelect
  | LQuit
  | LReleaseAll (todo : list Z)
  | LClose
  | LGone.

Record life := mkLife {
  pc : life_pc; last_revision : Z; last_refresh : time; published_now : gset Z;
  cancelled : bool; done : chan unit; calls : list call; answers : list (option error);
}.

Definition start : life := mkLife LTop (2 ^ 64 - 1)%Z time_zero ∅ false (make_chan 0) [] [].

Inductive choice :=
  | Read (now : time) (revision : Z) | Assigned (ps : list Z) | Visit (order : list Z)
  | Answer (err : option error) | Tick | Done | Proceed.

Section life.
Context (config : PublisherConfig) (lease : Lease).

Definition loop_of (s : life) : loop_state (R := list call) :=
  mkLoop (last_revision s) (last_refresh s) (published_now s) (calls s).

Definition life_step (ch : choice) (s : life) : option (outcome life) :=
  let 'mkLife m lr lf pub can d cs an := s in
  let at_pc m := Some (Returns (mkLife m lr lf pub can d cs an)) in
  let record m c err := Some (Returns (mkLife m lr lf pub can d (cs ++ [c]) (an ++ [err]))) in
  match m, ch with
  | LTop, Read now rev =>
    at_pc (if negb (rev =? lr)%Z || refreshDue config now (loop_of s) then LReconcile now rev else LSelect)
  | LReconcile now rev, Assigned ps => at_pc (LRegister now rev ps ps)
  | LRegister now rev ps (p :: todo), Answer err =>
    record (LRegister now rev ps todo) (CRegister p lease (LeaseTTL config)) err
  | LRegister now rev ps [], Proceed => at_pc (LVisit now rev ps)
  | LVisit now rev ps, Visit order =>
    if bool_decide (order ≡ₚ elements pub) then at_pc (LRelease now rev ps order) else None
  | LRelease now rev ps (p :: todo), Answer err =>
    if bool_decide (p ∈ (list_to_set ps : gset Z)) then at_pc (LRelease now rev ps todo)
    else record (LRelease now rev ps todo) (CRelease p (Token lease)) err
  | LRelease now rev ps [], Proceed =>
    Some (Returns (mkLife LSelect rev now (list_to_set ps) can d cs an))
  | LSelect, Tick => at_pc LTop
  | LSelect, Done => if can then at_pc LQuit else None
  | LQuit, Visit order => if bool_decide (order ≡ₚ elements pub) then at_pc (LReleaseAll order) else None
  | LReleaseAll (p :: todo), Answer err => record (LReleaseAll todo) (CRelease p (Token lease)) err
  | LReleaseAll [], Proceed => at_pc LClose
  | LClose, Proceed => Some (d ← close d; Returns (mkLife LGone lr lf pub can d cs an))
  | _, _ => None
  end.

(** ** Stop *)

Inductive stop_pc := SCancel | SWait | SReturned (err : option error).

(** One caller; [ctx_err] is the error of its context, if that has ended. *)
Definition stop_step (ctx_err : option error) (take_done : bool) (st : stop_pc) (s : life) : option (stop_pc * life) :=
  let 'mkLife m lr lf pub can d cs an := s in
  match st with
  | SCancel => Some (SWait, mkLife m lr lf pub true d cs an)
  | SWait =>
    if take_done then '(_, d) ← recv d; Some (SReturned None, mkLife m lr lf pub can d cs an)
    else err ← ctx_err; Some (SReturned (Some err), s)
  | SReturned _ => None
  end.

(** The goroutine and the callers of Stop. *)
Record system := mkSystem { loop : life; stoppers : list stop_pc }.

Inductive step (s : system) : outcome system -> Prop :=
  | step_loop ch o : life_step ch (loop s) = Some o -> step s (l ← o; Returns (mkSystem l (stoppers s)))
  | step_call : step s (Returns (mkSystem (loop s) (stoppers s ++ [SCancel])))
  | step_stop i st st' ctx_err take_done l :
      stoppers s !! i = Some st -> stop_step ctx_err take_done st (loop s) = Some (st', l) ->
      step s (Returns (mkSystem l (<[i := st']> (stoppers s)))).

Inductive reachable : system -> Prop :=
  | reachable_start : reachable (mkSystem start [])
  | reachable_step s s' : reachable s -> step s (Returns s') -> reachable s'.

(** A run of the system, with the choices of the goroutine in order. *)
Inductive trace : list choice -> system -> Prop :=
  | trace_start : trace [] (mkSystem start [])
  | trace_loop chs s ch l :
      trace chs s -> life_step ch (loop s) = Some (Returns l) -> trace (chs ++ [ch]) (mkSystem l (stoppers s))
  | trace_call chs s : trace chs s -> trace chs (mkSystem (loop s) (stoppers s ++ [SCancel]))
  | trace_stop chs s i st st' ctx_err take_done l :
      trace chs s -> stoppers s !! i = Some st -> stop_step ctx_err take_done st (loop s) = Some (st', l) ->
      trace chs (mkSystem l (<[i := st']> (stoppers s))).

(** ** The loop on the recording directory *)

Definition registers (ps : list Z) : list call := (fun p => CRegister p lease (LeaseTTL config)) <$> ps.
Definition releases (ps : list Z) : list call := (fun p => CRelease p (Token lease)) <$> ps.
Definition departed (ps order : list Z) : list Z :=
  List.filter (fun p => negb (bool_decide (p ∈ (list_to_set ps : gset Z)))) order.

Lemma register_all_records env ps : forall r : list call,
  register_all env lease (LeaseTTL config) ps r = r ++ registers ps.
Proof.
  induction ps as [|p ps IH]; intros r; cbn; [by rewrite app_nil_r|].
  unfold register_all in IH. rewrite IH, <- app_assoc. done.
Qed.

Lemma release_all_records env ps : forall r : list call,
  release_all env (Token lease) ps r = r ++ releases ps.
Proof.
  induction ps as [|p ps IH]; intros r; cbn; [by rewrite app_nil_r|].
  unfold release_all in IH. rewrite IH, <- app_assoc. done.
Qed.

Lemma run_snoc (x : poll (R := list call) (Env := option error)) polls : forall st,
  meanwhile x = (fun r => r) ->
  run config lease (polls ++ [x]) st = poll_once config lease x (run config lease polls st).
Proof.
  induction polls as [|y polls IH]; intros st Hx; cbn [run app]; [by rewrite Hx; destruct st|by apply IH].
Qed.

Lemma visits_snoc (x : poll (R := list call) (Env := option error)) polls : forall st,
  visits_published config lease (polls ++ [x]) st <->
  visits_published config lease polls st /\ Publisher.order x ≡ₚ elements (published (run config lease polls st)).
Proof.
  induction polls as [|y polls IH]; intros st; cbn [visits_published run app published]; [tauto|]. rewrite IH. tauto.
Qed.

Definition due (now : time) (rev : Z) (st : loop_state (R := list call)) : bool :=
  negb (rev =? lastRevision st)%Z || refreshDue config now st.

(** The turn a reconciliation is. *)
Definition turn (now : time) (rev : Z) (ps order : list Z) : poll (R := list call) (Env := option error) :=
  mkPoll (fun r => r) now rev ps order (fun _ => None) (fun _ => None).

Lemma poll_reconciles now rev ps order st : due now rev st = true ->
  poll_once config lease (turn now rev ps order) st =
    mkLoop rev now (list_to_set ps) (directory st ++ registers ps ++ releases (departed ps order)).
Proof.
  intros Hd. unfold due in Hd. unfold poll_once, turn. cbn [Publisher.revision at_time]. rewrite Hd.
  unfold reconcile. cbn [reg_env rel_env Publisher.assigned Publisher.order directory].
  by rewrite register_all_records, release_all_records, <- app_assoc.
Qed.

(** The script that a run's choices are: a turn for each reconciliation, with the clock
    and the revision read, the assignment read, and the order of the visits.  The second
    component is what has been read for the turn to come. *)
Definition history : Type := list (poll (R := list call) (Env := option error)) * option (time * Z * option (list Z)).
Definition replay (h : history) (ch : choice) : history :=
  match ch, h.2 with
  | Read now rev, _ => (h.1, Some (now, rev, None))
  | Assigned ps, Some (now, rev, _) => (h.1, Some (now, rev, Some ps))
  | Visit order, Some (now, rev, Some ps) => (h.1 ++ [turn now rev ps order], None)
  | _, _ => h
  end.
Definition replayed (chs : list choice) : history := foldl replay ([], None) chs.
Definition script (chs : list choice) := (replayed chs).1.

Lemma replayed_snoc chs ch : replayed (chs ++ [ch]) = replay (replayed chs) ch.
Proof. unfold replayed. by rewrite foldl_app. Qed.

(** No turn has been begun since the last one of the script. *)
Definition idle polls (h : history) : Prop := h.1 = polls /\ forall now rev ps, h.2 <> Some (now, rev, Some ps).

(** What the goroutine has done since the turns [polls]. *)
Definition progress polls (h : history) (m : life_pc) (cs : list call) : Prop :=
  let st := run config lease polls (loop_start []) in
  match m with
  | LTop | LSelect | LQuit => idle polls h /\ cs = directory st
  | LReconcile now rev => h = (polls, Some (now, rev, None)) /\ due now rev st = true /\ cs = directory st
  | LRegister now rev ps todo => h = (polls, Some (now, rev, Some ps)) /\
    due now rev st = true /\ exists front, ps = front ++ todo /\ cs = directory st ++ registers front
  | LVisit now rev ps => h = (polls, Some (now, rev, Some ps)) /\
    due now rev st = true /\ cs = directory st ++ registers ps
  | LRelease now rev ps todo => due now rev st = true /\
    exists front, h = (polls ++ [turn now rev ps (front ++ todo)], None) /\
      front ++ todo ≡ₚ elements (published st) /\ cs = directory st ++ registers ps ++ releases (departed ps front)
  | LReleaseAll todo => idle polls h /\
    exists front, front ++ todo ≡ₚ elements (published st) /\ cs = directory st ++ releases front
  | LClose | LGone => idle polls h /\
    exists order, order ≡ₚ elements (published st) /\ cs = directory st ++ releases order
  end.

Definition simulates (h : history) (s : life) : Prop :=
  exists polls, let st := run config lease polls (loop_start []) in
    last_revision s = lastRevision st /\ last_refresh s = lastRefresh st /\ published_now s = published st /\
    visits_published config lease polls (loop_start []) /\ progress polls h (pc s) (calls s).

Lemma departed_snoc ps front p :
  departed ps (front ++ [p]) = departed ps front ++ (if bool_decide (p ∈ (list_to_set ps : gset Z)) then [] else [p]).
Proof. unfold departed. rewrite List.filter_app. cbn. by destruct (bool_decide _). Qed.

Lemma idle_replay polls h ch : idle polls h ->
  (match ch with Assigned _ => False | _ => True end) -> idle polls (replay h ch).
Proof.
  intros [<- Hn] Hch. unfold replay. destruct ch as [now rev|ps|order|err| | |]; try done;
    destruct (h.2) as [[[now' rev'] [ps'|]]|] eqn:Hh; try done; try (split; [done|by rewrite ?Hh]).
  by destruct (Hn now' rev' ps').
Qed.

Lemma life_step_simulates h ch s s' :
  simulates h s -> life_step ch s = Some (Returns s') -> simulates (replay h ch) s'.
Proof.
  intros (polls & Hr & Hf & Hp & Hv & Hm) Hs. destruct s as [m lr lf pub can d cs an].
  cbn [pc calls last_revision last_refresh published_now] in *. subst lr lf pub. unfold progress in Hm.
  set (st := run config lease polls (loop_start [])) in *. cbv zeta in Hm.
  assert (Hsame : forall m' cs' can' an', progress polls (replay h ch) m' cs' ->
    simulates (replay h ch) (mkLife m' (lastRevision st) (lastRefresh st) (published st) can' d cs' an')).
  { intros. exists polls. by split_and!. }
  unfold progress in Hsame. fold st in Hsame. cbv zeta in Hsame. unfold life_step in Hs.
  destruct m as [|now rev|now rev ps [|p todo]|now rev ps|now rev ps [|p todo]| | |[|p todo]| |],
    ch as [now' rev'|ps'|order|err| | |]; try done.
  - injection Hs as <-. destruct Hm as [[<- Hn] ->]. destruct (negb _ || _) eqn:Hdue; apply Hsame; [by split_and!|].
    split; [|done]. by apply (idle_replay _ _ (Read now' rev')).
  - injection Hs as <-. destruct Hm as (-> & Hd & ->). apply Hsame. split_and!; [done..|]. exists [].
    split; [done|]. by rewrite app_nil_r.
  - injection Hs as <-. destruct Hm as (-> & Hd & front & -> & ->). apply Hsame. split_and!; [by rewrite app_nil_r|done|].
    by rewrite app_nil_r.
  - injection Hs as <-. destruct Hm as (-> & Hd & front & -> & ->). apply Hsame. split_and!; [done..|].
    exists (front ++ [p]). unfold registers. by rewrite fmap_app, <- !app_assoc.
  - case_bool_decide as Ho; [|done]. injection Hs as <-. destruct Hm as (-> & Hd & ->). apply Hsame. split; [done|].
    exists []. split_and!; [done..|]. by rewrite app_nil_r.
  - injection Hs as <-. destruct Hm as (Hd & front & -> & Ho & ->). rewrite app_nil_r in *.
    exists (polls ++ [turn now rev ps front]). cbv zeta. rewrite run_snoc, poll_reconciles by (done || exact Hd).
    split_and!; [done..| |]; [apply visits_snoc; by split|]. unfold progress. cbv zeta.
    rewrite run_snoc, poll_reconciles by (done || exact Hd). split; [by split|done].
  - destruct Hm as (Hd & front & -> & Ho & ->). pose proof (departed_snoc ps front p) as Hdep.
    case_bool_decide; injection Hs as <-; apply Hsame; (split; [exact Hd|]); exists (front ++ [p]);
      rewrite Hdep, <- !app_assoc; (split; [done|]); (split; [exact Ho|]).
    + by rewrite app_nil_r.
    + unfold releases. by rewrite fmap_app.
  - injection Hs as <-. destruct Hm as [Hi ->]. apply Hsame. split; [|done]. by apply (idle_replay _ _ Tick).
  - destruct can; [|done]. injection Hs as <-. destruct Hm as [Hi ->]. apply Hsame. split; [|done].
    by apply (idle_replay _ _ Done).
  - case_bool_decide as Ho; [|done]. injection Hs as <-. destruct Hm as [Hi ->]. apply Hsame.
    split; [by apply (idle_replay _ _ (Visit order))|]. exists []. split; [done|]. by rewrite app_nil_r.
  - injection Hs as <-. destruct Hm as (Hi & front & Ho & ->). rewrite app_nil_r in Ho. apply Hsame.
    split; [by apply (idle_replay _ _ Proceed)|]. by exists front.
  - injection Hs as <-. destruct Hm as (Hi & front & Ho & ->). apply Hsame.
    split; [by apply (idle_replay _ _ (Answer err))|]. exists (front ++ [p]). unfold releases.
    by rewrite fmap_app, <- !app_assoc.
  - destruct (close d) as [d'|]; [|done]. cbn in Hs. injection Hs as <-. exists polls. destruct Hm as (Hi & Hm).
    split_and!; [done..|]. split; [by apply (idle_replay _ _ Proceed)|exact Hm].
Qed.

(** ** What is owed to the directory *)

Definition debt (s : life) : gset Z :=
  match pc s with
  | LTop | LReconcile _ _ | LSelect | LQuit => published_now s
  | LRegister _ _ ps _ | LVisit _ _ ps => published_now s ∪ list_to_set ps
  | LRelease _ _ ps todo => list_to_set ps ∪ list_to_set todo
  | LReleaseAll todo => list_to_set todo
  | LClose | LGone => ∅
  end.

Definition own_call (c : call) : Prop :=
  match c with
  | CRegister _ l ttl => l = lease /\ ttl = LeaseTTL config
  | CRelease _ token => token = Token lease
  end.

Definition honest (s : life) : Prop :=
  owed (calls s) ⊆ debt s /\ Forall own_call (calls s) /\
  match pc s with LRegister _ _ ps todo => (list_to_set todo : gset Z) ⊆ list_to_set ps | _ => True end.

Lemma owed_snoc cs c : owed (cs ++ [c]) = owe (owed cs) c.
Proof. unfold owed. by rewrite foldl_app. Qed.

Lemma visited (s : gset Z) order : order ≡ₚ elements s -> (list_to_set order : gset Z) = s.
Proof. intros Ho. apply set_eq. intros p. rewrite elem_of_list_to_set, Ho. apply elem_of_elements. Qed.

Lemma life_step_honest ch s s' : honest s -> life_step ch s = Some (Returns s') -> honest s'.
Proof.
  intros (Ho & Hc & Ht) Hs. destruct s as [m lr lf pub can d cs an]. unfold honest, debt in *. cbn [pc calls published_now] in *.
  destruct m as [|now rev|now rev ps [|p todo]|now rev ps|now rev ps [|p todo]| | |[|p todo]| |],
    ch as [now' rev'|ps'|order|err| | |]; try done; cbn in Hs.
  - injection Hs as <-. destruct (negb _ || _); by split_and!.
  - injection Hs as <-. split_and!; [set_solver|done|cbn; set_solver].
  - injection Hs as <-. by split_and!.
  - injection Hs as <-. cbn [pc calls published_now] in *. rewrite owed_snoc. split_and!.
    + cbn. set_solver.
    + apply Forall_app. split; [done|]. apply Forall_singleton. done.
    + set_solver.
  - case_bool_decide as Hord; [|done]. injection Hs as <-. apply visited in Hord. cbn [pc calls published_now].
    split_and!; [set_solver|done|done].
  - injection Hs as <-. cbn [pc calls published_now]. split_and!; [set_solver|done|done].
  - case_bool_decide as Hin; injection Hs as <-; cbn [pc calls published_now]; [split_and!; [set_solver|done|done]|].
    rewrite owed_snoc. split_and!; [cbn; set_solver| |done]. apply Forall_app. split; [done|]. by apply Forall_singleton.
  - injection Hs as <-. by split_and!.
  - destruct can; [|done]. injection Hs as <-. by split_and!.
  - case_bool_decide as Hord; [|done]. injection Hs as <-. apply visited in Hord. cbn [pc calls published_now].
    split_and!; [set_solver|done|done].
  - injection Hs as <-. by split_and!.
  - injection Hs as <-. cbn [pc calls published_now]. rewrite owed_snoc.
    split_and!; [cbn; set_solver| |done]. apply Forall_app. split; [done|]. by apply Forall_singleton.
  - destruct (close d); [|done]. cbn in Hs. injection Hs as <-. by split_and!.
Qed.

(** The calls with their answers. *)
Definition answered (s : life) : list (call * option error) := zip (calls s) (answers s).

Lemma life_step_answers ch s s' : length (answers s) = length (calls s) ->
  life_step ch s = Some (Returns s') -> length (answers s') = length (calls s').
Proof.
  intros Hl Hs. destruct s as [m lr lf pub can d cs an]. cbn [answers calls] in Hl.
  destruct m as [|now rev|now rev ps [|p todo]|now rev ps|now rev ps [|p todo]| | |[|p todo]| |],
    ch as [now' rev'|ps'|order|err| | |]; try done; cbn in Hs; try case_bool_decide; try destruct can;
    try (destruct (close d); [|done]); try done; cbn in Hs; injection Hs as <-; cbn [answers calls];
    rewrite ?length_app, ?Hl; done.
Qed.

Lemma answered_calls s : length (answers s) = length (calls s) -> (answered s).*1 = calls s.
Proof. intros Hl. unfold answered. apply fst_zip. lia. Qed.

(** A lease that may be left although the last call about it was no Register: that call
    was a Release that failed. *)
Definition release_failed (h : list (call * option error)) (p : Z) : Prop :=
  exists before token err after,
    h = before ++ (CRelease p token, Some err) :: after /\ Forall (fun x => about x.1 <> p) after.

Lemma kept_released (h : list (call * option error)) p : p ∈ kept h -> p ∉ owed h.*1 -> release_failed h p.
Proof.
  induction h as [|[c e] h IH] using rev_ind; [by intros ?%elem_of_empty|].
  unfold kept. rewrite foldl_app, fmap_app. cbn [foldl fmap list_fmap fst]. rewrite owed_snoc. fold (kept h). intros Hk Ho.
  destruct (decide (about c = p)) as [<-|Hne].
  - destruct c as [p l ttl|p token]; cbn in Hk, Ho |- *; [set_solver|]. destruct e as [err|]; [|set_solver].
    exists h, token, err, []. by split.
  - destruct IH as (before & token & err & after & -> & Hf).
    + destruct c as [q l ttl|q token]; cbn in Hk, Hne; [|destruct e]; set_solver.
    + destruct c as [q l ttl|q token]; cbn in Ho, Hne; set_solver.
    + exists before, token, err, (after ++ [(c, e)]). split; [by rewrite <- app_assoc|].
      apply Forall_app. split; [done|by apply Forall_singleton].
Qed.

(** ** The system's invariant *)

Definition gone (m : life_pc) : bool := match m with LGone => true | _ => false end.
Definition quitting (m : life_pc) : bool :=
  match m with LQuit | LReleaseAll _ | LClose | LGone => true | _ => false end.

Definition life_ok (s : life) : Prop :=
  done s = mkChan 0 [] (gone (pc s)) /\ (quitting (pc s) = true -> cancelled s = true).

Record system_inv (s : system) : Prop := {
  si_honest : honest (loop s);
  si_answers : length (answers (loop s)) = length (calls (loop s));
  si_ok : life_ok (loop s);
  si_cancelled : cancelled (loop s) = true <-> exists st, st ∈ stoppers s /\ st <> SCancel;
  si_returned : SReturned None ∈ stoppers s -> pc (loop s) = LGone;
}.

Lemma life_step_ok ch s o : life_ok s -> life_step ch s = Some o ->
  exists s', o = Returns s' /\ life_ok s' /\ cancelled s' = cancelled s /\ pc s <> LGone.
Proof.
  intros [Hd Hq] Hs. destruct s as [m lr lf pub can d cs an]. unfold life_ok. cbn [pc done cancelled] in *. subst d.
  destruct m as [|now rev|now rev ps [|p todo]|now rev ps|now rev ps [|p todo]| | |[|p todo]| |],
    ch as [now' rev'|ps'|order|err| | |]; try done; cbn in Hs; try case_bool_decide; try destruct can;
    try done; injection Hs as <-; (eexists; split; [reflexivity|]); cbn in *; try (by auto);
    destruct (negb _ || _); cbn; auto.
Qed.

Lemma stop_step_ok ctx_err take_done st st' s s' : life_ok s -> stop_step ctx_err take_done st s = Some (st', s') ->
  s' = mkLife (pc s) (last_revision s) (last_refresh s) (published_now s)
         (match st with SCancel => true | _ => cancelled s end) (done s) (calls s) (answers s) /\
  st' <> SCancel /\ (st' = SReturned None -> pc s = LGone) /\ (st = SCancel \/ st = SWait).
Proof.
  intros [Hd Hq] Hs. destruct s as [m lr lf pub can d cs an]. cbn [pc done cancelled] in *. subst d.
  destruct st; cbn in Hs; [| |done].
  - injection Hs as <- <-. split_and!; auto; done.
  - destruct take_done.
    + destruct (gone m) eqn:Hg; [|done]. cbn in Hs. injection Hs as <- <-. split_and!; auto; by destruct m.
    + destruct ctx_err; [|done]. cbn in Hs. injection Hs as <- <-. split_and!; auto; done.
Qed.

Lemma system_start_inv : system_inv (mkSystem start []).
Proof.
  split.
  - by split_and!.
  - done.
  - done.
  - cbn. split; [done|]. by intros (st & ?%elem_of_nil & _).
  - by intros ?%elem_of_nil.
Qed.

Lemma life_step_inv s o : system_inv s -> step s o -> exists s', o = Returns s' /\ system_inv s'.
Proof.
  intros [Hh Han Hok Hc Hr] Hs. destruct Hs as [ch o Hs| |i st st' ctx_err take_done l Hi Hs].
  - destruct (life_step_ok _ _ _ Hok Hs) as (l & -> & Hok' & Hcan & Hpc). cbn. eexists. split; [reflexivity|].
    split; cbn; [by eapply life_step_honest|by eapply life_step_answers|done|by rewrite Hcan|].
    intros Hin. by apply Hr in Hin.
  - eexists. split; [reflexivity|]. split; cbn; try done.
    + rewrite Hc. split; intros (st & Hin & Hne); exists st; (split; [|done]); [apply elem_of_app; by left|].
      apply elem_of_app in Hin as [?|Hin%list_elem_of_singleton]; done.
    + intros [Hin|Hin%list_elem_of_singleton]%elem_of_app; [by apply Hr|done].
  - destruct (stop_step_ok _ _ _ _ _ _ Hok Hs) as (-> & Hne & Hret & Hst). destruct (loop s) as [m lr lf pub can d cs an].
    cbn in *. eexists. split; [reflexivity|]. split; cbn; try done.
    + destruct Hok as [Hd Hq]. split; [done|]. cbn. intros Hm. by destruct st; [|apply Hq..].
    + split; [intros _|].
      * exists st'. split; [|done]. apply list_elem_of_lookup_2 with i. apply list_lookup_insert_eq. by eapply lookup_lt_Some.
      * intros _. destruct Hst as [-> | ->]; [done|]. apply Hc. exists SWait. split; [|done].
        by eapply list_elem_of_lookup_2.
    + intros Hin. apply list_elem_of_lookup_1 in Hin as [j Hj]. destruct (decide (i = j)) as [->|Hij].
      * rewrite list_lookup_insert_eq in Hj by (by eapply lookup_lt_Some). injection Hj as ->. by apply Hret.
      * rewrite list_lookup_insert_ne in Hj by done. apply Hr. by eapply list_elem_of_lookup_2.
Qed.

Lemma system_reachable_inv s : reachable s -> system_inv s.
Proof.
  induction 1 as [|s s' _ IH Hs]; [apply system_start_inv|]. by destruct (life_step_inv _ _ IH Hs) as (? & [= <-] & ?).
Qed.

(** What the goroutine leaves: it has asked for every lease to be released, and only
    those are left whose release failed. *)
Lemma gone_gives_back s : system_inv s -> pc (loop s) = LGone ->
  owed (calls (loop s)) = ∅ /\ forall p, p ∈ kept (answered (loop s)) -> release_failed (answered (loop s)) p.
Proof.
  intros [(Ho & _ & _) Ha _ _ _] Hpc. unfold debt in Ho. rewrite Hpc in Ho. assert (owed (calls (loop s)) = ∅) as He by set_solver.
  split; [done|]. intros p Hp. apply kept_released; [done|]. rewrite answered_calls, He by done. set_solver.
Qed.

(** Every reachable state is the end of a run. *)
Lemma trace_reachable chs s : trace chs s -> reachable s.
Proof.
  induction 1 as [|chs s ch l _ IH Hs|chs s _ IH|chs s i st st' ctx_err take_done l _ IH Hi Hs]; [apply reachable_start|..];
    (eapply reachable_step; [exact IH|]); [exact (step_loop s ch _ Hs)|apply step_call|by eapply step_stop].
Qed.

Lemma reachable_by_trace s : reachable s -> exists chs, trace chs s.
Proof.
  induction 1 as [|s s' _ [chs Hr] Hs]; [exists []; apply trace_start|]. remember (Returns s') as o eqn:Ho.
  destruct Hs as [ch o Hs| |i st st' ctx_err take_done l Hi Hs].
  - destruct o as [l|]; [|done]. injection Ho as <-. exists (chs ++ [ch]). by apply trace_loop.
  - injection Ho as <-. exists chs. by apply trace_call.
  - injection Ho as <-. exists chs. by eapply trace_stop.
Qed.

Lemma trace_simulates chs s : trace chs s -> simulates (replayed chs) (loop s).
Proof.
  intros Ht. induction Ht as [|chs s ch l Ht IH Hs|chs s Ht IH|chs s i st st' ctx_err take_done l Ht IH Hi Hs]; cbn [loop].
  - by exists [].
  - rewrite replayed_snoc. by eapply life_step_simulates.
  - done.
  - pose proof (system_reachable_inv _ (trace_reachable _ _ Ht)) as [_ _ Hok _ _].
    destruct (stop_step_ok _ _ _ _ _ _ Hok Hs) as (-> & _). exact IH.
Qed.

(** ** Properties *)

(** Statements to the end of the goroutine, if no assignment is read and no tick taken;
    every call of the directory returns. *)
Definition rank (s : life) : nat :=
  match pc s with
  | LTop => size (published_now s) + 10
  | LReconcile _ _ => size (published_now s) + 9
  | LRegister _ _ ps todo => length todo + size (published_now s) + length ps + 8
  | LVisit _ _ ps => size (published_now s) + length ps + 7
  | LRelease _ _ ps todo => length todo + length ps + 6
  | LSelect => size (published_now s) + 4
  | LQuit => size (published_now s) + 3
  | LReleaseAll todo => length todo + 2
  | LClose => 1
  | LGone => 0
  end.

(** What a statement may add to the rank: a tick a turn of the loop, an assignment its
    Registers and Releases. *)
Definition allowance (ch : choice) : nat := match ch with Tick => 7 | Assigned ps => 2 * length ps | _ => 0 end.

Lemma size_list_to_set (ps : list Z) : size (list_to_set ps : gset Z) <= length ps.
Proof.
  induction ps as [|p ps IH]; [done|]. cbn [list_to_set length].
  pose proof (size_union_alt ({[p]} : gset Z) (list_to_set ps)) as Hu.
  assert (size (list_to_set ps ∖ {[p]} : gset Z) <= size (list_to_set ps : gset Z)) by (apply subseteq_size; set_solver).
  rewrite size_singleton in Hu. lia.
Qed.

Lemma life_step_rank ch s s' : life_step ch s = Some (Returns s') -> rank s' + 1 <= rank s + allowance ch.
Proof.
  intros Hs. destruct s as [m lr lf pub can d cs an]. unfold rank.
  assert (Hvisit : forall order, order ≡ₚ elements pub -> length order = size pub) by (by intros order ->).
  destruct m as [|now rev|now rev ps [|p todo]|now rev ps|now rev ps [|p todo]| | |[|p todo]| |],
    ch as [now' rev'|ps'|order|err| | |]; try done; cbn in Hs;
    try (case_bool_decide; [|done || idtac]); try (destruct can; [|done]); try (destruct (close d); [|done]; cbn in Hs);
    injection Hs as <-; cbn [pc published_now allowance]; try destruct (negb _ || _);
    try pose proof (size_list_to_set ps); try (rewrite Hvisit by done); cbn [length]; lia.
Qed.

(** Runs of the system: [n] statements of the goroutine, with [k] the sum of their
    allowances. *)
Inductive run_of : nat -> nat -> system -> system -> Prop :=
  | run_end s : run_of 0 0 s s
  | run_loop ch n k s l s' : life_step ch (loop s) = Some (Returns l) ->
      run_of n k (mkSystem l (stoppers s)) s' -> run_of (S n) (allowance ch + k) s s'
  | run_stop n k s s1 s' : pc (loop s1) = pc (loop s) -> published_now (loop s1) = published_now (loop s) ->
      step s (Returns s1) -> run_of n k s1 s' -> run_of n k s s'.

Lemma run_of_rank n k s s' : run_of n k s s' -> n + rank (loop s') <= rank (loop s) + k.
Proof.
  induction 1 as [s|ch n k s l s' Hs _ IH|n k s s1 s' Hpc Hpub _ _ IH]; [lia| |].
  - apply life_step_rank in Hs. cbn in IH. lia.
  - unfold rank in *. rewrite Hpc, Hpub in IH. lia.
Qed.

(** Once it has taken the end of its context, no tick and no assignment is to come. *)
Lemma life_step_quits ch s s' : life_step ch s = Some (Returns s') -> quitting (pc s) = true ->
  quitting (pc s') = true /\ allowance ch = 0.
Proof.
  intros Hs Hq. destruct s as [m lr lf pub can d cs an].
  destruct m as [|now rev|now rev ps todo|now rev ps|now rev ps todo| | |[|p todo]| |]; try done;
    destruct ch as [now' rev'|ps'|order|err| | |]; try done; cbn in Hs; try case_bool_decide; try done;
    try (destruct (close d); [|done]); cbn in Hs; by injection Hs as <-.
Qed.

Lemma run_of_quits n k s s' : run_of n k s s' -> quitting (pc (loop s)) = true -> k = 0.
Proof.
  induction 1 as [s|ch n k s l s' Hs _ IH|n k s s1 s' Hpc Hpub _ _ IH]; intros Hq; [done| |].
  - destruct (life_step_quits _ _ _ Hs Hq) as [Hq' ->]. by rewrite IH.
  - apply IH. by rewrite Hpc.
Qed.

Lemma life_progress s : life_ok s -> cancelled s = true -> pc s <> LGone ->
  exists ch s', ch <> Tick /\ life_step ch s = Some (Returns s').
Proof.
  intros [Hd _] Hc Hpc. destruct s as [m lr lf pub can d cs an]. cbn in Hd, Hc, Hpc. subst d can.
  destruct m as [|now rev|now rev ps [|p todo]|now rev ps|now rev ps [|p todo]| | |[|p todo]| |];
    [exists (Read time_zero 0%Z)|exists (Assigned [])|exists Proceed|exists (Answer None)|exists (Visit (elements pub))|
     exists Proceed|exists (Answer None)|exists Done|exists (Visit (elements pub))|exists Proceed|exists (Answer None)|
     exists Proceed|done]; cbn; rewrite ?bool_decide_eq_true_2 by done; try (by eexists).
  case_bool_decide; by eexists.
Qed.

(** C27: the goroutine refines the loop.  Take any run: what the goroutine read (clock,
    revision, assignments) and the orders in which it visited its partitions give a script
    of turns, each of which visits exactly what is published then.  At the top of the loop
    and at the select the goroutine has done to the directory, and knows of it, what the
    sequential loop does on that script, call by call; in between it is on the way of one
    turn; and when it has ended it has done the loop's end as well, for all that was still
    published.  What is proved of the loop is so of the goroutine. *)
Theorem publisher_refines_run chs s :
  trace chs s ->
  let st := run config lease (script chs) (loop_start []) in
  visits_published config lease (script chs) (loop_start []) /\
  (pc (loop s) = LTop \/ pc (loop s) = LSelect -> loop_of (loop s) = st) /\
  (directory st `prefix_of` calls (loop s) \/ calls (loop s) `prefix_of` directory st) /\
  (pc (loop s) = LGone -> exists order, order ≡ₚ elements (published st) /\
     calls (loop s) = finish (fun _ => None) lease order st).
Proof.
  intros (polls & Hr & Hf & Hp & Hv & Hm)%trace_simulates. unfold script in *. cbv zeta.
  remember (run config lease (replayed chs).1 (loop_start [])) as st eqn:Hst.
  destruct (loop s) as [m lr lf pub can d cs an]. cbn [pc calls last_revision last_refresh published_now] in *.
  unfold progress in Hm. set (st0 := run config lease polls (loop_start [])) in *. cbv zeta in Hm. unfold loop_of. cbn.
  assert (Hidle : idle polls (replayed chs) -> st = st0 /\ visits_published config lease (replayed chs).1 (loop_start [])).
  { subst st. by intros [-> _]. }
  destruct m as [|now rev|now rev ps todo|now rev ps|now rev ps todo| | |todo| |].
  1,6,7: destruct Hm as [[Hs0 Hv']%Hidle ->]; rewrite Hs0; split_and!; try done; try (by left); intros _; rewrite Hr, Hf, Hp; by destruct st0.
  1-3: subst st; destruct Hm as (-> & _ & Hm); cbn [fst]; fold st0; split_and!; try done; [by intros [|]|left];
    try (destruct Hm as (front & _ & Hm)); subst cs; try by apply prefix_app_r.
  - done.
  - destruct Hm as (Hd & front & Hh & Ho & ->). subst st. rewrite Hh. cbn [fst]. rewrite run_snoc by done. fold st0.
    rewrite poll_reconciles by done. split_and!; [apply visits_snoc; by split|by intros [|]| |done].
    right. cbn [directory]. apply prefix_app, prefix_app. unfold departed, releases. rewrite List.filter_app, fmap_app.
    by apply prefix_app_r.
  - destruct Hm as [[Hs0 Hv']%Hidle (front & _ & ->)]. rewrite Hs0. split_and!; [done|by intros [|]|left; by apply prefix_app_r|done].
  - destruct Hm as [[Hs0 Hv']%Hidle (order & _ & ->)]. rewrite Hs0. split_and!; [done|by intros [|]|left; by apply prefix_app_r|done].
  - destruct Hm as [[Hs0 Hv']%Hidle (order & Ho & ->)]. rewrite Hs0. split_and!; [done|by intros [|]|left; by apply prefix_app_r|].
    intros _. exists order. split; [done|]. unfold finish, releaseAll. by rewrite release_all_records.
Qed.

(** C28: every lease is given back.  The goroutine registers only its own lease, with the
    configured TTL, and releases only with its own token; when it has ended, the last call
    about any partition it ever registered was its Release. *)
Theorem publisher_gives_back s :
  reachable s ->
  Forall own_call (calls (loop s)) /\ (pc (loop s) = LGone -> owed (calls (loop s)) = ∅) /\
  owed (calls (loop s)) ⊆ debt (loop s).
Proof.
  intros [(Ho & Hc & _) _ _ _ _]%system_reachable_inv. split_and!; [done| |done].
  intros Hpc. unfold debt in Ho. rewrite Hpc in Ho. set_solver.
Qed.

(** C29: Stop works.  Nothing panics, however often Stop is called and by whom.  Once a
    caller has cancelled the loop, its goroutine is never stuck, and at every select it can
    take the end of its context.  There is no bound on the turns it may still take, since
    the select may prefer the ticker; but between any two states of a run the number of
    its statements is at most what is left to do ([rank]) and 7 for each tick and 2 for
    each partition of an assignment read meanwhile, and once it has taken the end of its
    context it ends within three statements and one for each partition published.  Stop
    returns nil only after the goroutine has ended, at once if it has; else it returns the
    error of its caller's context. *)
Theorem publisher_stops s :
  reachable s ->
  (forall o, step s o -> exists s', o = Returns s') /\
  (forall n k s', run_of n k s s' -> n <= rank (loop s) + k) /\
  (pc (loop s) = LQuit -> forall n k s', run_of n k s s' -> n <= size (published_now (loop s)) + 3) /\
  (forall st, st ∈ stoppers s -> st <> SCancel -> pc (loop s) <> LGone ->
     (exists ch l, ch <> Tick /\ life_step ch (loop s) = Some (Returns l)) /\
     (pc (loop s) = LSelect -> exists l, life_step Done (loop s) = Some (Returns l) /\ pc l = LQuit)) /\
  (forall i, stoppers s !! i = Some SWait ->
     (pc (loop s) = LGone -> stop_step None true SWait (loop s) = Some (SReturned None, loop s)) /\
     forall err, stop_step (Some err) false SWait (loop s) = Some (SReturned (Some err), loop s)) /\
  (SReturned None ∈ stoppers s -> forall ch, life_step ch (loop s) = None).
Proof.
  intros Hi%system_reachable_inv. pose proof Hi as [_ _ Hok Hc Hr]. split_and!.
  - intros o Hs. destruct (life_step_inv _ _ Hi Hs) as (s' & -> & _). by eexists.
  - intros n k s' Hrun%run_of_rank. lia.
  - intros Hpc n k s' Hrun. assert (Hq : quitting (pc (loop s)) = true) by (by rewrite Hpc).
    pose proof (run_of_quits _ _ _ _ Hrun Hq) as ->. apply run_of_rank in Hrun. unfold rank in Hrun. rewrite Hpc in Hrun. lia.
  - intros st Hin Hne Hpc. assert (Hcan : cancelled (loop s) = true) by (apply Hc; by exists st).
    split; [by apply life_progress|]. intros Hsel. destruct (loop s) as [m lr lf pub can d cs an]. cbn in *. subst m can.
    by eexists.
  - intros i Hst. destruct Hok as [Hd _]. destruct (loop s) as [m lr lf pub can d cs an]. cbn in *. split; [|done].
    intros ->. by rewrite Hd.
  - intros Hin%Hr ch. destruct (loop s) as [m lr lf pub can d cs an]. cbn in Hin. subst m. by destruct ch.
Qed.

End life.

(** ** A run: two partitions, one of them departs, Stop *)

Inductive act := ALoop (ch : choice) | ACall | AStop (i : nat) (ctx_err : option error) (take_done : bool).

Definition do_act config lease (a : act) (s : system) : option system :=
  match a with
  | ALoop ch => match life_step config lease ch (loop s) with Some (Returns l) => Some (mkSystem l (stoppers s)) | _ => None end
  | ACall => Some (mkSystem (loop s) (stoppers s ++ [SCancel]))
  | AStop i ctx_err take_done =>
    st ← stoppers s !! i; '(st', l) ← stop_step ctx_err take_done st (loop s);
    Some (mkSystem l (<[i := st']> (stoppers s)))
  end.

Fixpoint do_acts config lease (acts : list act) (s : system) : option system :=
  match acts with [] => Some s | a :: acts => s ← do_act config lease a s; do_acts config lease acts s end.

Lemma publisher_acts_reachable config lease acts : forall s s',
  reachable config lease s -> do_acts config lease acts s = Some s' -> reachable config lease s'.
Proof.
  induction acts as [|a acts IH]; cbn; intros s s' Hr He; [by simplify_eq|].
  destruct (do_act config lease a s) as [s1|] eqn:Ha; [|done]. apply (IH s1); [|done].
  eapply reachable_step; [exact Hr|]. destruct a as [ch| |i ctx_err take_done]; cbn in Ha.
  - destruct (life_step config lease ch (loop s)) as [[l|]|] eqn:Hs; [|done..]. injection Ha as <-.
    exact (step_loop _ _ s ch _ Hs).
  - injection Ha as <-. apply step_call.
  - destruct (stoppers s !! i) as [st|] eqn:Hi; [|done]. cbn in Ha.
    destruct (stop_step ctx_err take_done st (loop s)) as [[st' l]|] eqn:Hs; [|done]. cbn in Ha. injection Ha as <-.
    exact (step_stop _ _ s i st st' ctx_err take_done l Hi Hs).
Qed.

Definition sample_acts : list act :=
  ALoop <$> [Read (100 * Second)%Z 1; Assigned [1%Z; 2%Z]; Answer None; Answer (Some (Errorf "timeout")); Proceed; Visit [];
    Proceed; Tick; Read (101 * Second)%Z 2; Assigned [2%Z]; Answer None; Proceed; Visit [1%Z; 2%Z]; Answer None;
    Answer None; Proceed].
Definition stop_acts : list act :=
  sample_acts ++ [ACall; AStop 0 None false; ALoop Done; ALoop (Visit [2%Z]); ALoop (Answer None); ALoop Proceed;
    ALoop Proceed; AStop 0 None true].

Definition sample_end : system :=
  default (mkSystem start []) (do_acts sample_config Redis.g1 stop_acts (mkSystem start [])).

Lemma sample_end_reached : reachable sample_config Redis.g1 sample_end.
Proof.
  apply (publisher_acts_reachable _ _ stop_acts (mkSystem start [])); [apply reachable_start|].
  vm_compute. reflexivity.
Qed.

(** The choices of the goroutine in it, and the turns they make. *)
Definition sample_choices : list choice := omap (fun a => match a with ALoop ch => Some ch | _ => None end) stop_acts.

Lemma publisher_acts_trace config lease acts : forall chs s s',
  trace config lease chs s -> do_acts config lease acts s = Some s' ->
  trace config lease (chs ++ omap (fun a => match a with ALoop ch => Some ch | _ => None end) acts) s'.
Proof.
  induction acts as [|a acts IH]; cbn [do_acts omap list_omap]; intros chs s s' Ht He; [rewrite app_nil_r; by simplify_eq|].
  destruct (do_act config lease a s) as [s1|] eqn:Ha; [|done]. cbn in He.
  destruct a as [ch| |i ctx_err take_done]; cbn in Ha.
  - destruct (life_step config lease ch (loop s)) as [[l|]|] eqn:Hs; [|done..]. injection Ha as <-.
    rewrite cons_middle, app_assoc. eapply IH; [by apply trace_loop|exact He].
  - injection Ha as <-. eapply IH; [by apply trace_call|exact He].
  - destruct (stoppers s !! i) as [st|] eqn:Hi; [|done]. cbn in Ha.
    destruct (stop_step ctx_err take_done st (loop s)) as [[st' l]|] eqn:Hs; [|done]. cbn in Ha. injection Ha as <-.
    eapply IH; [by eapply trace_stop|exact He].
Qed.

Lemma publisher_refines_run_witness :
  calls (loop sample_end) = [CRegister 1 Redis.g1 Redis.six_seconds; CRegister 2 Redis.g1 Redis.six_seconds;
    CRegister 2 Redis.g1 Redis.six_seconds; CRelease 1 "t1"; CRelease 2 "t1"] /\
  exists order,
    calls (loop sample_end) = finish (fun _ => None) Redis.g1 order
      (run sample_config Redis.g1 [turn (100 * Second)%Z 1 [1%Z; 2%Z] []; turn (101 * Second)%Z 2 [2%Z] [1%Z; 2%Z]] (loop_start [])).
Proof.
  assert (Ht : trace sample_config Redis.g1 sample_choices sample_end).
  { apply (publisher_acts_trace _ _ stop_acts [] (mkSystem start [])); [apply trace_start|]. vm_compute. reflexivity. }
  split; [vm_compute; reflexivity|].
  destruct (publisher_refines_run sample_config Redis.g1 sample_choices sample_end Ht) as (_ & _ & _ & H).
  destruct H as (order & _ & H); [vm_compute; reflexivity|]. exists order.
  replace (script sample_choices) with [turn (100 * Second)%Z 1 [1%Z; 2%Z] []; turn (101 * Second)%Z 2 [2%Z] [1%Z; 2%Z]] in H
    by reflexivity. exact H.
Defined.

Lemma publisher_gives_back_witness : owed (calls (loop sample_end)) = ∅ /\ length (calls (loop sample_end)) = 5.
Proof.
  destruct (publisher_gives_back sample_config Redis.g1 sample_end sample_end_reached) as (_ & H & _).
  split; [apply H; vm_compute; reflexivity|vm_compute; reflexivity].
Defined.

Lemma publisher_stops_witness : stoppers sample_end = [SReturned None] /\
  forall ch, life_step sample_config Redis.g1 ch (loop sample_end) = None.
Proof.
  destruct (publisher_stops sample_config Redis.g1 sample_end sample_end_reached) as (_ & _ & _ & _ & _ & H).
  assert (Hs : stoppers sample_end = [SReturned None]) by (vm_compute; reflexivity).
  split; [exact Hs|]. apply H. rewrite Hs. left.
Defined.

End PublisherLife.
