(* ===== verification/Renewal.v ===== *)
(** * A route that does not lapse (internal/routing/publisher.go run, reconcile)

    The publisher's goroutine of PublisherLife on a real directory, in time.  Time passes
    between any two of its statements, calls to the directory included, and so do the
    writes of other gateways; the answer of a call is what the directory returns.  The
    directory is any that keeps the laws of Routing. *)

From S2P Require Import Prelude.
From S2P Require Import Routing.
From S2P Require Import Redis.
From S2P Require Import Publisher.
From S2P Require Import PublisherLife.

Module Renewal.
Import PublisherLife.

Section renewal.
Context {R Env : Type} `{RegistryLaws R Env}.
Context (config : Publisher.PublisherConfig) (lease : Lease).

(** [turn_began]: when the goroutine last read the clock at the top of its loop. *)
Record timed := mkTimed { clock : time; turn_began : time; goroutine : life; directory : R }.

Definition perform (env : Env) (c : call) (r : R) : option error * R :=
  match c with
  | CRegister p l ttl => Register env p l ttl r
  | CRelease p token => Release env p token r
  end.

(** A statement of the goroutine that is no call; its next call; time; a call of others. *)
Inductive event := Runs (ch : choice) | Calls (env : Env) | Passes (d : duration) | Others (env : Env) (c : call).

Definition timed_step (e : event) (s : timed) : option timed :=
  match e with
  | Runs (Answer _) => None
  | Runs ch =>
    match life_step config lease ch (goroutine s), ch with
    | Some (Returns l), Read now _ =>
      if (now =? clock s)%Z then Some (mkTimed (clock s) (clock s) l (directory s)) else None
    | Some (Returns l), _ => Some (mkTimed (clock s) (turn_began s) l (directory s))
    | _, _ => None
    end
  | Calls env =>
    match life_step config lease (Answer None) (goroutine s) with
    | Some (Returns l) =>
      match drop (length (calls (goroutine s))) (calls l) with
      | c :: _ =>
        let '(err, r) := perform env c (directory s) in
        match life_step config lease (Answer err) (goroutine s) with
        | Some (Returns l) => Some (mkTimed (clock s) (turn_began s) l r)
        | _ => None
        end
      | [] => Some (mkTimed (clock s) (turn_began s) l (directory s))
      end
    | _ => None
    end
  | Passes d =>
    if (0 <=? d)%Z then Some (mkTimed (clock s + d)%Z (turn_began s) (goroutine s) (Elapse d (directory s))) else None
  | Others env c => Some (mkTimed (clock s) (turn_began s) (goroutine s) (perform env c (directory s)).2)
  end.

(** ** Runs in which a partition stays with the gateway *)

Context (p : Z) (gap delay : duration).

(** The partition's Register of this turn is still to come; it is done. *)
Definition waiting (m : life_pc) : bool :=
  match m with LReconcile _ _ => true | LRegister _ _ _ todo => bool_decide (p ∈ todo) | _ => false end.
Definition renewed (m : life_pc) : bool :=
  match m with
  | LRegister _ _ _ todo => negb (bool_decide (p ∈ todo))
  | LVisit _ _ _ | LRelease _ _ _ _ => true
  | _ => false
  end.

(** The partition is in every assignment read, and its Registers succeed; a turn begins at
    most [gap] after the last one, and gets to that Register within [delay]; others
    register other partitions only, and do not have this gateway's token. *)
Definition allowed (e : event) (s : timed) : Prop :=
  match e with
  | Runs (Assigned ps) => p ∈ ps /\ NoDup ps
  | Runs _ => True
  | Calls env => forall now rev ps todo, pc (goroutine s) = LRegister now rev ps (p :: todo) ->
      (Register env p lease (Publisher.LeaseTTL config) (directory s)).1 = None
  | Passes d => (clock s + d - turn_began s <= if waiting (pc (goroutine s)) then delay else gap)%Z
  | Others env (CRegister q l ttl) => q <> p /\ lease_ok l /\ ttl_ok ttl
  | Others env (CRelease q token) => q = p -> token <> Token lease
  end.

Inductive steady : timed -> Prop :=
  | steady_start t r : registry_ok r -> (Z.quot (Publisher.LeaseTTL config) 3 <= t)%Z -> steady (mkTimed t t start r)
  | steady_step e s s' : steady s -> allowed e s -> timed_step e s = Some s' -> steady s'.

(** The partition has been registered once. *)
Definition registered (l : life) : Prop := CRegister p lease (Publisher.LeaseTTL config) ∈ calls l.

(** Until when the lease is known to be served. *)
Definition deadline (s : timed) : time :=
  ((if renewed (pc (goroutine s)) then turn_began s else last_refresh (goroutine s)) + Publisher.LeaseTTL config)%Z.

Definition at_turn (s : timed) : Prop :=
  match pc (goroutine s) with
  | LTop | LSelect => True
  | LReconcile now _ => now = turn_began s
  | LRegister now _ ps todo => now = turn_began s /\ p ∈ ps /\ NoDup todo
  | LVisit now _ ps | LRelease now _ ps _ => now = turn_began s /\ p ∈ ps
  | _ => False
  end.

(** Before the first Register the goroutine is in its first turn. *)
Definition first_turn (l : life) : Prop :=
  last_refresh l = time_zero /\
  match pc l with LTop | LReconcile _ _ => True | LRegister _ _ _ todo => p ∈ todo | _ => False end.

Record renewing (s : timed) : Prop := {
  rn_ok : registry_ok (directory s);
  rn_start : (Z.quot (Publisher.LeaseTTL config) 3 <= clock s)%Z;
  rn_time : (turn_began s <= clock s <= turn_began s + if waiting (pc (goroutine s)) then delay else gap)%Z;
  rn_turn : at_turn s;
  rn_running : cancelled (goroutine s) = false;
  rn_first : registered (goroutine s) \/ first_turn (goroutine s);
  rn_age : registered (goroutine s) -> renewed (pc (goroutine s)) = false ->
    (last_refresh (goroutine s) <= turn_began s <=
       last_refresh (goroutine s) + Z.quot (Publisher.LeaseTTL config) 3 + if waiting (pc (goroutine s)) then gap else 0)%Z;
  rn_served : registered (goroutine s) -> forall d, (0 <= d)%Z -> (clock s + d < deadline s)%Z ->
    view (directory s) p d = Ok lease;
}.

Hypothesis config_ok : Publisher.valid_config config.
Hypothesis lease_fine : lease_ok lease.
Hypothesis ttl_fine : ttl_ok (Publisher.LeaseTTL config).
Hypothesis delays : (0 <= delay <= gap)%Z.
Hypothesis in_time : (Z.quot (Publisher.LeaseTTL config) 3 + gap + delay < Publisher.LeaseTTL config)%Z.

Lemma third_positive : (0 <= Z.quot (Publisher.LeaseTTL config) 3)%Z.
Proof. destruct config_ok. apply Z.quot_pos; lia. Qed.

Lemma renewed_not_waiting m : renewed m = true -> waiting m = false.
Proof. destruct m; try done. cbn. by case_bool_decide. Qed.

(** The clock does not reach the deadline. *)
Lemma before_deadline s : renewing s -> registered (goroutine s) -> (clock s < deadline s)%Z.
Proof.
  intros [_ _ Ht _ _ _ Ha _] Hr. unfold deadline. pose proof third_positive.
  destruct (renewed (pc (goroutine s))) eqn:Hre; [rewrite (renewed_not_waiting _ Hre) in Ht; lia|].
  specialize (Ha Hr eq_refl). destruct (waiting (pc (goroutine s))); lia.
Qed.

Lemma served_now s : renewing s -> registered (goroutine s) -> Resolve healthy p (directory s) = Ok lease.
Proof.
  intros Hi Hr. rewrite <- view_now. pose proof (before_deadline s Hi Hr). apply (rn_served _ Hi Hr); lia.
Qed.

Lemma start_renewing t r : registry_ok r -> (Z.quot (Publisher.LeaseTTL config) 3 <= t)%Z -> renewing (mkTimed t t start r).
Proof.
  intros Hr Ht. assert (Hn : ~ registered start) by (by intros ?%elem_of_nil).
  split; cbn; try done; try lia. by right.
Qed.

Lemma time_renewing d s s' :
  renewing s -> allowed (Passes d) s -> timed_step (Passes d) s = Some s' -> renewing s'.
Proof.
  intros [Hok Hst Ht Htu Hrun Hf Ha Hse] Hal Hs. cbn in Hal, Hs. destruct (Z.leb_spec 0 d); [|done]. injection Hs as <-.
  split; cbn; try done; try lia; [by apply Elapse_keeps_ok|].
  intros Hr d' Hd' Hlt. rewrite view_later by done. apply Hse; [done|lia|]. unfold deadline in *. cbn in Hlt. lia.
Qed.

(** Others do not touch the partition's lease. *)
Lemma others_renewing env c s s' :
  renewing s -> allowed (Others env c) s -> timed_step (Others env c) s = Some s' -> renewing s'.
Proof.
  intros Hi Hal [= <-]. pose proof Hi as [Hok Hst Ht Htu Hrun Hf Ha Hse].
  assert (Hview : registered (goroutine s) -> forall d, (0 <= d)%Z -> view (perform env c (directory s)).2 p d = view (directory s) p d).
  { intros Hr d Hd. destruct c as [q l ttl|q token]; cbn in Hal |- *.
    - apply Register_other; [done| |done]. by destruct Hal.
    - destruct (decide (p = q)) as [<-|Hne]; [|by apply Release_other].
      destruct (Release_compares env p token (directory s) d Hok Hd) as [?|(l & Hl & Htok)]; [done|].
      rewrite (served_now s Hi Hr) in Hl. injection Hl as <-. by destruct (Hal eq_refl). }
  split; cbn; try done.
  - destruct c as [q l ttl|q token]; cbn in Hal |- *; [destruct Hal as (_ & ? & ?); by apply Register_keeps_ok|by apply Release_keeps_ok].
  - intros Hr d Hd Hlt. rewrite Hview by done. by apply Hse.
Qed.

(** The statements that are no calls. *)
Lemma runs_renewing ch s s' :
  renewing s -> allowed (Runs ch) s -> timed_step (Runs ch) s = Some s' -> renewing s'.
Proof.
  intros [Hok Hst Ht Htu Hrun Hf Ha Hse] Hal Hs. destruct s as [now0 tb [m lr lf pub can d cs an] r].
  unfold at_turn, first_turn, deadline, registered in *. cbn [goroutine directory clock turn_began pc calls last_refresh cancelled] in *.
  subst can. pose proof third_positive as H3. destruct config_ok as [Hmax _].
  destruct m as [|now rev|now rev ps [|q todo]|now rev ps|now rev ps [|q todo]| | |[|q todo]| |],
    ch as [now' rev'|ps'|order|err| | |]; try done; cbn in Hs, Ht, Ha, Hse.
  - destruct (Z.eqb_spec now' now0) as [->|]; [|done]. injection Hs as <-.
    destruct (negb (rev' =? lr)%Z) eqn:Hrev; cbn [orb]; [|destruct (Publisher.refreshDue _ _ _) eqn:Hdue].
    1, 2: split; cbn; try done; try lia.
    assert (Hage : (now0 - lf < Z.quot (Publisher.LeaseTTL config) 3)%Z).
    { unfold Publisher.refreshDue, time_Sub in Hdue. cbn in Hdue. apply Z.leb_gt in Hdue. unfold max_i64, min_i64 in *.
      pose proof (Z.quot_le_upper_bound (Publisher.LeaseTTL config) 3 (Publisher.LeaseTTL config) ltac:(lia) ltac:(lia)). lia. }
    split; cbn; try done; try lia.
    destruct Hf as [?|[-> _]]; [by left|]. unfold time_zero in Hage. lia.
  - injection Hs as <-. destruct Hal as [Hin Hnd]. assert (Hw : bool_decide (p ∈ ps') = true) by (by apply bool_decide_eq_true).
    split; cbn; rewrite ?Hw; try done; [by destruct Hf as [?|[? _]]; [left|right]|].
    intros Hr d' Hd' Hlt. apply Hse; [done..|]. unfold deadline in Hlt. cbn in Hlt. rewrite Hw in Hlt. exact Hlt.
  - injection Hs as <-. destruct Htu as (Hn & Hin & _). split; cbn; try done.
    destruct Hf as [?|[_ Hnil]]; [by left|]. by apply elem_of_nil in Hnil.
  - case_bool_decide; [|done]. injection Hs as <-. by split.
  - injection Hs as <-. destruct Htu as [-> Hin]. split; cbn; try done; try lia.
    by destruct Hf as [?|[_ []]]; left.
  - injection Hs as <-. split; cbn; try done. by destruct Hf as [?|[_ []]]; left.
Qed.

Lemma calls_snoc_drop {A} (cs : list A) c : drop (length cs) (cs ++ [c]) = [c].
Proof. apply drop_app_length. Qed.

(** The calls: other partitions keep the lease, the partition's own Register renews it. *)
Lemma calls_renewing env s s' :
  renewing s -> allowed (Calls env) s -> timed_step (Calls env) s = Some s' -> renewing s'.
Proof.
  intros [Hok Hst Ht Htu Hrun Hf Ha Hse] Hal Hs. destruct s as [now0 tb [m lr lf pub can d cs an] r].
  unfold at_turn, first_turn, deadline, registered in *. cbn [goroutine directory clock turn_began pc calls last_refresh cancelled] in *.
  subst can. destruct m as [|now rev|now rev ps [|q todo]|now rev ps|now rev ps [|q todo]| | |[|q todo]| |]; try done;
    cbn in Hs, Ht, Ha, Hse.
  - rewrite calls_snoc_drop in Hs. cbn in Hs. destruct (Register env q lease (Publisher.LeaseTTL config) r) as [err r'] eqn:HR.
    injection Hs as <-. destruct Htu as (-> & Hin & [Hq Hnd]%NoDup_cons).
    pose proof (Register_keeps_ok env q lease _ r Hok lease_fine ttl_fine) as Hok'. rewrite HR in Hok'. cbn in Hok'.
    destruct (decide (q = p)) as [->|Hne].
    + specialize (Hal _ _ _ _ eq_refl). cbn in Hal. rewrite HR in Hal. cbn in Hal. subst err.
      rewrite bool_decide_true in Ht by left.
      assert (Hw : bool_decide (p ∈ todo) = false) by (by apply bool_decide_eq_false).
      split; cbn; rewrite ?Hw; cbn; try done; try lia; [left; apply elem_of_app; right; left|].
      intros _ d' Hd' Hlt. apply (Register_serves env p lease _ r r' d' Hok lease_fine ttl_fine HR).
      unfold deadline in Hlt. cbn in Hlt. rewrite Hw in Hlt. cbn in Hlt. lia.
    + assert (Hw : bool_decide (p ∈ todo) = bool_decide (p ∈ q :: todo)) by (apply bool_decide_ext; set_solver).
      assert (Hreg : registered (mkLife (LRegister tb rev ps todo) lr lf pub false d
          (cs ++ [CRegister q lease (Publisher.LeaseTTL config)]) (an ++ [err])) <->
        CRegister p lease (Publisher.LeaseTTL config) ∈ cs) by (unfold registered; cbn; set_solver).
      split; cbn; rewrite ?Hw, ?Hreg; try done.
      * destruct Hf as [?|[? ?]]; [by left|right]. split; [done|]. cbn. set_solver.
      * intros Hr d' Hd' Hlt. pose proof (Register_other env q p lease (Publisher.LeaseTTL config) r d' Hok ltac:(done) Hd') as Ho.
        rewrite HR in Ho. cbn in Ho. rewrite Ho. apply Hse; [done..|]. unfold deadline in Hlt. cbn in Hlt. by rewrite Hw in Hlt.
  - destruct Htu as [-> Hin]. case_bool_decide as Hq.
    + cbn in Hs. rewrite drop_all in Hs. injection Hs as <-. by split.
    + cbn in Hs. rewrite calls_snoc_drop in Hs. cbn in Hs. destruct (Release env q (Token lease) r) as [err r'] eqn:HR.
      injection Hs as <-. pose proof (Release_keeps_ok env q (Token lease) r Hok) as Hok'. rewrite HR in Hok'. cbn in Hok'.
      assert (Hne : p <> q) by (intros ->; apply Hq; by rewrite elem_of_list_to_set).
      assert (Hreg : CRegister p lease (Publisher.LeaseTTL config) ∈ cs ++ [CRelease q (Token lease)] <->
        CRegister p lease (Publisher.LeaseTTL config) ∈ cs) by set_solver.
      split; cbn; unfold registered; cbn; rewrite ?Hreg; try done.
      intros Hr d' Hd' Hlt. pose proof (Release_other env q p (Token lease) r d' Hok Hne Hd') as Ho.
      rewrite HR in Ho. cbn in Ho. rewrite Ho. by apply Hse.
Qed.

Lemma steady_renewing s : steady s -> renewing s.
Proof.
  induction 1 as [t r Hr Ht|e s s' _ IH Hal Hs]; [by apply start_renewing|].
  destruct e as [ch|env|d|env c]; [by eapply runs_renewing|by eapply calls_renewing|by eapply time_renewing|by eapply others_renewing].
Qed.

End renewal.

Arguments timed R : clear implicits.
Arguments event Env : clear implicits.

(** C23: an owned partition does not lose its route.  Let the partition be in every
    assignment the goroutine reads, let each of its Registers succeed, let a turn begin at
    most [gap] after the last one and reach that Register within [delay], and let
    [TTL/3 + gap + delay < TTL] (which a valid configuration does not give by itself: the
    poll interval may be almost the TTL).  Then, however long statements and calls take
    within that, and whatever other gateways register for other partitions or release with
    their own tokens meanwhile, from the first Register on the partition resolves to this
    gateway's lease at every moment: refreshing at every third of the TTL is enough. *)
Theorem lease_never_lapses {R Env} `{RegistryLaws R Env} config lease p gap delay (s : timed R) :
  Publisher.valid_config config -> lease_ok lease -> ttl_ok (Publisher.LeaseTTL config) ->
  (0 <= delay <= gap)%Z -> (Z.quot (Publisher.LeaseTTL config) 3 + gap + delay < Publisher.LeaseTTL config)%Z ->
  steady config lease p gap delay s -> registered config lease p (goroutine s) ->
  Resolve healthy p (directory s) = Ok lease.
Proof.
  intros Hc Hl Ht Hd Hg Hs Hr. by eapply served_now; [..|eapply steady_renewing|].
Qed.

(** ** A run: two turns, the second late, another gateway writing in between *)

Import Redis.

Section runs.
Context {R Env : Type} `{Registry R Env} `{!RegistryLaws R Env} (config : Publisher.PublisherConfig) (lease : Lease) (p : Z) (gap delay : duration).

Fixpoint legal (es : list (event Env)) (s : timed R) : Prop :=
  match es with
  | [] => True
  | e :: es => allowed config lease p gap delay e s /\
      match timed_step config lease e s with Some s => legal es s | None => False end
  end.
Fixpoint do_events (es : list (event Env)) (s : timed R) : option (timed R) :=
  match es with [] => Some s | e :: es => s ← timed_step config lease e s; do_events es s end.

Lemma legal_cons e es s s1 :
  allowed config lease p gap delay e s -> timed_step config lease e s = Some s1 -> legal es s1 -> legal (e :: es) s.
Proof. intros Ha Hs Hl. cbn [legal]. by rewrite Hs. Qed.

Lemma legal_steady es : forall s s', steady config lease p gap delay s -> legal es s -> do_events es s = Some s' ->
  steady config lease p gap delay s'.
Proof.
  induction es as [|e es IH]; cbn; intros s s' Hs Hl Hd; [by simplify_eq|]. destruct Hl as [Ha Hl].
  destruct (timed_step config lease e s) as [s1|] eqn:He; [|done]. cbn in Hd.
  apply (IH s1); [|done..]. by eapply steady_step.
Qed.
End runs.

Definition second (tenths : Z) : duration := (tenths * 100 * Millisecond)%Z.
Definition sample_events : list (event net) :=
  [Runs (Read Publisher.day 3); Passes (second 5); Runs (Assigned [1%Z]); Calls healthy; Runs Proceed; Runs (Visit []);
   Runs Proceed; Passes (second 10); Others healthy (CRegister 2 g2 six_seconds); Others healthy (CRelease 1 "t2");
   Passes (second 4); Runs Tick; Runs (Read (Publisher.day + second 19)%Z 3); Passes (second 19); Runs Tick;
   Runs (Read (Publisher.day + second 38)%Z 3); Passes (second 10)].
Definition sample_start : timed (option RedisRegistry * memory) :=
  mkTimed Publisher.day Publisher.day start sample_directory.
Definition sample_end : timed (option RedisRegistry * memory) :=
  default sample_start (do_events Publisher.sample_config g1 sample_events sample_start).

Ltac legal_step :=
  match goal with |- legal ?cf ?l ?p ?g ?d (?e :: ?es) ?s =>
    let s1 := eval vm_compute in (timed_step cf l e s) in
    match s1 with Some ?s1 =>
      apply (legal_cons cf l p g d e es s s1); [|vm_compute; reflexivity|]
    end
  end.
Ltac allow :=
  match goal with
  | |- allowed _ _ _ _ _ (Runs (Assigned _)) _ => split; [left|repeat constructor; by intros ?%elem_of_nil]
  | |- allowed _ _ _ _ _ (Calls _) _ => intros ? ? ? ? _; vm_compute; reflexivity
  | |- allowed _ _ _ _ _ (Passes _) _ => by vm_compute
  | |- allowed _ _ _ _ _ (Others _ (CRegister _ _ _)) _ => split; [done|split; [apply sample_publishable|apply six_seconds_ok]]
  | |- allowed _ _ _ _ _ (Others _ (CRelease _ _)) _ => done
  | _ => exact I
  end.

Lemma sample_legal : legal Publisher.sample_config g1 1%Z (second 20) (second 10) sample_events sample_start.
Proof. unfold sample_events. repeat (legal_step; [allow|]). exact I. Qed.

Lemma lease_never_lapses_witness :
  clock sample_end = (Publisher.day + second 48)%Z /\ Resolve healthy 1%Z (directory sample_end) = Ok g1.
Proof.
  split; [vm_compute; reflexivity|].
  apply (lease_never_lapses Publisher.sample_config g1 1%Z (second 20) (second 10)).
  - done.
  - apply sample_publishable.
  - apply six_seconds_ok.
  - done.
  - done.
  - apply (legal_steady _ _ _ _ _ sample_events sample_start); [|apply sample_legal|vm_compute; reflexivity].
    apply steady_start; [apply sample_directory_ok|done].
  - unfold registered. replace (calls (goroutine sample_end)) with [CRegister 1 g1 six_seconds] by (vm_compute; reflexivity). left.
Defined.

End Renewal.
