(* ===== verification/Connections.v ===== *)
(** * The table of WebSocket connections and bulk closing
    (internal/httpserver/websocket.go, websocketConnections and closeWebSockets)

    A connection is the identity of a *websocket.Conn.  The table's methods run
    under its mutex.  [closeWebSockets] is a pool of goroutines: a feeder, up to
    32 workers and an unbuffered channel between them; its steps interleave
    freely, and the context may end at any time. *)

From S2P Require Import Prelude.

Module Connections.

Abbreviation conn := nat (only parsing).

Definition websocketCloseWorkers : nat := 32.

Record websocketConnections := mkConnections { items : gset conn; closing : bool }.

Definition newWebSocketConnections : websocketConnections := mkConnections ∅ false.

Definition add (c : conn) (cs : websocketConnections) : bool * websocketConnections :=
  if closing cs then (false, cs) else (true, mkConnections ({[ c ]} ∪ items cs) (closing cs)).

Definition remove (c : conn) (cs : websocketConnections) : websocketConnections :=
  mkConnections (items cs ∖ {[ c ]}) (closing cs).

(** The orders in which the runtime may visit the table. *)
Definition visit_order (cs : websocketConnections) (order : list conn) : Prop := order ≡ₚ elements (items cs).

(** The critical sections of closeForOwnershipChange and closeForServiceRestart:
    the connections to close, and the table left.  The former empties it. *)
Definition take_for_ownership (order : list conn) (cs : websocketConnections)
  : list conn * websocketConnections := (order, mkConnections (items cs ∖ list_to_set order) (closing cs)).
Definition take_for_restart (order : list conn) (cs : websocketConnections)
  : list conn * websocketConnections := (order, mkConnections (items cs) true).

(** ** closeWebSockets *)

Inductive worker := Idle | Closing (c : conn) | Gone.

(** [todo] is what the feeder has left, [feeding] whether [jobs] is still open,
    [shut] the connections closed so far, [ended] whether the context is done. *)
Record pool := mkPool {
  todo : list conn; feeding : bool; workers : list worker; shut : list conn; ended : bool;
}.

Definition pool_start (items : list conn) : pool :=
  mkPool items true (replicate (min (length items) websocketCloseWorkers) Idle) [] false.

Inductive pool_step : pool -> pool -> Prop :=
  | step_hand c rest ws i sh e :
      ws !! i = Some Idle ->
      pool_step (mkPool (c :: rest) true ws sh e) (mkPool rest true (<[i := Closing c]> ws) sh e)
  | step_closed t f ws i c sh e :
      ws !! i = Some (Closing c) ->
      pool_step (mkPool t f ws sh e) (mkPool t f (<[i := Idle]> ws) (sh ++ [c]) e)
  | step_fed ws sh e : pool_step (mkPool [] true ws sh e) (mkPool [] false ws sh e)
  | step_leave t ws i sh e :
      ws !! i = Some Idle ->
      pool_step (mkPool t false ws sh e) (mkPool t false (<[i := Gone]> ws) sh e)
  | step_feeder_cancelled t ws sh : pool_step (mkPool t true ws sh true) (mkPool t false ws sh true)
  | step_worker_cancelled t f ws i sh :
      ws !! i = Some Idle ->
      pool_step (mkPool t f ws sh true) (mkPool t f (<[i := Gone]> ws) sh true).

(** The context ends. *)
Inductive pool_any : pool -> pool -> Prop :=
  | any_step p p' : pool_step p p' -> pool_any p p'
  | any_cancel t f ws sh : pool_any (mkPool t f ws sh false) (mkPool t f ws sh true).

Inductive pool_run : nat -> pool -> pool -> Prop :=
  | run_nil p : pool_run 0 p p
  | run_cons n p p' p'' : pool_run n p p' -> pool_any p' p'' -> pool_run (S n) p p''.

(** The workers have ended: the function returns. *)
Definition finished (p : pool) : bool := forallb (fun w => match w with Gone => true | _ => false end) (workers p).

Definition in_flight (p : pool) : list conn :=
  omap (fun w => match w with Closing c => Some c | _ => None end) (workers p).

(** ** Closing one connection *)

(** A 1012 close frame, with the deadline of its write; closing the socket. *)
Inductive socket_action := WriteServiceRestart (reason : string) (deadline : time) | CloseSocket.

(** The results of both calls are ignored. *)
Definition closeWebSocketForReconnect (ctx_deadline : option time) (now : time) (reason : string) : list socket_action :=
  let deadline := (now + Second)%Z in
  let deadline := match ctx_deadline with
                  | Some until => if (until <? deadline)%Z then until else deadline
                  | None => deadline
                  end in
  [WriteServiceRestart reason deadline; CloseSocket].

(** ** Bulk closes *)

(** What closeWebSockets starts with, the reason of its close frames, the table left and,
    for a change of ownership, the number of connections taken. *)
Definition closeForOwnershipChange (order : list conn) (cs : websocketConnections)
  : pool * string * websocketConnections * nat :=
  let '(items, cs) := take_for_ownership order cs in
  (pool_start items, "room ownership changed"%string, cs, length items).
Definition closeForServiceRestart (order : list conn) (cs : websocketConnections)
  : pool * string * websocketConnections :=
  let '(items, cs) := take_for_restart order cs in
  (pool_start items, "service is restarting"%string, cs).

(** ** Lemmas *)

(** The frame is given up after a second, or when the context ends, whichever comes first,
    and then the socket is closed. *)
Theorem close_frame_deadline ctx_deadline now reason :
  exists deadline, closeWebSocketForReconnect ctx_deadline now reason = [WriteServiceRestart reason deadline; CloseSocket] /\
    (deadline <= now + Second)%Z /\ (forall until, ctx_deadline = Some until -> deadline <= until)%Z /\
    (deadline = (now + Second)%Z \/ ctx_deadline = Some deadline).
Proof.
  unfold closeWebSocketForReconnect. destruct ctx_deadline as [until|].
  - destruct (Z.ltb_spec until (now + Second)); eexists; (split; [reflexivity|]); split_and!;
      [lia|intros ? [= <-]; lia|by right|lia|intros ? [= <-]; lia|by left].
  - eexists. split; [reflexivity|]. split_and!; [lia|done|by left].
Qed.

Definition weight (w : worker) : nat := match w with Idle => 1 | Closing _ => 2 | Gone => 0 end.
Definition measure (p : pool) : nat :=
  3 * length (todo p) + sum_list (weight <$> workers p) + (if feeding p then 1 else 0)
  + (if ended p then 0 else 1).

Lemma insert_split {A} (l : list A) i x y :
  l !! i = Some x -> exists l1 l2, l = l1 ++ x :: l2 /\ <[i := y]> l = l1 ++ y :: l2.
Proof.
  intros Hi. exists (take i l), (drop (S i) l). split; [symmetry; by apply take_drop_middle|].
  apply insert_take_drop. by eapply lookup_lt_Some.
Qed.

Lemma sum_list_middle l1 x l2 : sum_list (l1 ++ x :: l2) = x + sum_list (l1 ++ l2).
Proof. rewrite !sum_list_with_app || rewrite !sum_list_app. cbn. lia. Qed.

Ltac split_worker :=
  match goal with
  | H : ?ws !! ?i = Some ?x |- context [ <[ ?i := ?y ]> ?ws ] =>
      let l1 := fresh "l1" in let l2 := fresh "l2" in let H1 := fresh in let H2 := fresh in
      destruct (insert_split ws i x y H) as (l1 & l2 & H1 & H2); rewrite H2; subst ws
  end.

(** Every step brings the pool closer to its end. *)
Lemma pool_step_measure p p' : pool_any p p' -> measure p' < measure p.
Proof.
  intros [? ? []|]; unfold measure; cbn; try split_worker;
    rewrite ?fmap_app, ?fmap_cons, ?sum_list_middle; cbn; lia.
Qed.

Record pool_inv (items : list conn) (p : pool) : Prop := {
  pool_conserved : items ≡ₚ todo p ++ in_flight p ++ shut p;
  pool_size : length (workers p) = min (length items) websocketCloseWorkers;
  pool_fed : ended p = false -> feeding p = false -> todo p = [];
  pool_gone : ended p = false -> Gone ∈ workers p -> feeding p = false;
}.

Lemma in_flight_middle l1 w l2 :
  omap (fun w => match w with Closing c => Some c | _ => None end) (l1 ++ w :: l2)
  ≡ₚ (match w with Closing c => [c] | _ => [] end) ++
     omap (fun w => match w with Closing c => Some c | _ => None end) (l1 ++ l2).
Proof. rewrite !omap_app. cbn. destruct w; cbn; [done| |done]. by rewrite Permutation_middle. Qed.

Lemma in_flight_start items : in_flight (pool_start items) = [].
Proof. unfold in_flight, pool_start. cbn [workers]. by induction (min _ _). Qed.

Lemma pool_start_inv items : pool_inv items (pool_start items).
Proof.
  split.
  - rewrite in_flight_start. cbn. by rewrite app_nil_r.
  - apply length_replicate.
  - done.
  - by intros _ [? _]%elem_of_replicate.
Qed.

Lemma pool_any_inv items p p' : pool_any p p' -> pool_inv items p -> pool_inv items p'.
Proof.
  intros Hs [Hc Hn Hf Hg]. unfold in_flight in Hc.
  destruct Hs as [? ? []|]; cbn in *; try split_worker; split; unfold in_flight; cbn in *; try done;
    rewrite ?in_flight_middle in *; cbn in *; rewrite ?length_app in *; cbn in *; try done.
  - rewrite Hc. cbn. by rewrite <- Permutation_middle.
  - intros He Hin. apply Hg; [done|]. set_solver.
  - rewrite Hc. rewrite <- (Permutation_cons_append sh c). by rewrite !Permutation_middle.
  - intros He Hin. apply Hg; [done|]. set_solver.
Qed.

Lemma pool_run_spec items n p :
  pool_run n (pool_start items) p ->
  pool_inv items p /\ n + measure p <= measure (pool_start items).
Proof.
  intros Hr. remember (pool_start items) as p0 eqn:Hp0.
  induction Hr as [p|n p p' p'' _ IH Hs]; [subst p; split; [apply pool_start_inv|done]|].
  destruct (IH Hp0) as [Hi Hm]. split; [by eapply pool_any_inv|].
  pose proof (pool_step_measure _ _ Hs). lia.
Qed.

(** While some worker is left and the context lives, something can happen. *)
Lemma pool_progress items p :
  pool_inv items p -> ended p = false -> finished p = false -> exists p', pool_step p p'.
Proof.
  intros [_ _ Hf Hg] He Hfin. destruct p as [t f ws sh e]; cbn in *. subst e.
  assert (Hw : exists i w, ws !! i = Some w /\ w <> Gone).
  { clear -Hfin. unfold finished in Hfin. cbn in Hfin. induction ws as [|w ws IH]; [done|].
    destruct w; [by exists 0, Idle|by exists 0, (Closing c)|]. destruct IH as (i & w & ? & ?); [done|].
    by exists (S i), w. }
  destruct Hw as (i & [|c|] & Hi & Hne); [|by eexists; econstructor|done].
  destruct f; [|eexists; by eapply step_leave].
  destruct t as [|c t]; [eexists; apply step_fed|eexists; by eapply step_hand].
Qed.

(** A pool that has ended under a living context has closed everything. *)
Lemma pool_finished_all items p :
  pool_inv items p -> ended p = false -> finished p = true -> shut p ≡ₚ items.
Proof.
  intros [Hc Hn Hf Hg] He Hfin. unfold finished in Hfin.
  assert (Hnone : in_flight p = []).
  { unfold in_flight. revert Hfin. generalize (workers p). induction l as [|[] l IH]; cbn; by try apply IH. }
  assert (Ht : todo p = []).
  { destruct items as [|c items].
    - apply Permutation_nil in Hc. by apply app_eq_nil in Hc as [? _].
    - apply (Hf He), (Hg He). destruct (workers p) as [|[] ws]; [done|done|done|left]. }
  by rewrite Ht, Hnone in Hc.
Qed.

(** C33: bulk closing.  However the goroutines interleave, every connection is at any
    time waiting, being closed, or closed, exactly once; at most 32 are being closed;
    the number of steps is bounded.  As long as the context lives the pool is never
    stuck, and when its workers have ended every connection has been closed once. *)
Theorem closeWebSockets_closes_all items n p :
  pool_run n (pool_start items) p ->
  items ≡ₚ todo p ++ in_flight p ++ shut p /\
  length (in_flight p) <= websocketCloseWorkers /\
  n <= 4 * length items + 2 /\
  (ended p = false -> finished p = false -> exists p', pool_step p p') /\
  (ended p = false -> finished p = true -> shut p ≡ₚ items).
Proof.
  intros [Hi Hm]%pool_run_spec. split_and!.
  - apply Hi.
  - transitivity (length (workers p)); [|rewrite (pool_size _ _ Hi); lia].
    unfold in_flight. generalize (workers p). intros ws. induction ws as [|[] ws IH]; cbn; lia.
  - assert (Hs : sum_list (weight <$> replicate (min (length items) websocketCloseWorkers) Idle)
                 = min (length items) websocketCloseWorkers).
    { induction (min _ _) as [|k IH]; [done|]. cbn. by rewrite IH. }
    unfold measure in Hm at 2. cbn [todo workers feeding ended pool_start] in Hm. rewrite Hs in Hm. lia.
  - by apply (pool_progress items).
  - by apply pool_finished_all.
Qed.

(** One connection: handed over, closed, the channel closed, the worker gone. *)
Definition closed_one : pool := mkPool [] false [Gone] [7] false.

Lemma closed_one_run : pool_run 4 (pool_start [7]) closed_one.
Proof.
  eapply run_cons; [eapply run_cons; [eapply run_cons; [eapply run_cons; [apply run_nil|]|]|]|].
  - apply any_step, (step_hand 7 [] [Idle] 0). done.
  - apply any_step, (step_closed [] true _ 0 7). done.
  - apply any_step, step_fed.
  - apply any_step, (step_leave [] [Idle] 0). done.
Qed.

Lemma closeWebSockets_closes_all_witness : shut closed_one ≡ₚ [7].
Proof.
  destruct (closeWebSockets_closes_all [7] 4 closed_one closed_one_run) as (_ & _ & _ & _ & H).
  apply H; reflexivity.
Defined.

(** ** The table *)

(** Both bulk closes close every connection of the table, once, if they come to their end
    while their context lives, whatever the order in which the table is visited: with the
    reason the client is to see; the one empties the table and counts, the other keeps it
    and lets nobody in. *)
Theorem bulk_close_all order cs :
  visit_order cs order ->
  (let '(start, reason, cs', n) := closeForOwnershipChange order cs in
   items cs' = ∅ /\ closing cs' = closing cs /\ n = size (items cs) /\ reason = "room ownership changed"%string /\
   forall k p, pool_run k start p -> ended p = false -> finished p = true -> shut p ≡ₚ elements (items cs)) /\
  (let '(start, reason, cs') := closeForServiceRestart order cs in
   items cs' = items cs /\ reason = "service is restarting"%string /\ (forall c, add c cs' = (false, cs')) /\
   forall k p, pool_run k start p -> ended p = false -> finished p = true -> shut p ≡ₚ elements (items cs)).
Proof.
  intros Ho. unfold visit_order in Ho.
  assert (Hrun : forall k p, pool_run k (pool_start order) p -> ended p = false -> finished p = true -> shut p ≡ₚ elements (items cs)).
  { intros k p [Hi _]%pool_run_spec He Hf. rewrite <- Ho. by apply pool_finished_all. }
  cbn. split_and!; try done.
  - apply leibniz_equiv. intros c. rewrite elem_of_difference, elem_of_list_to_set, Ho, elem_of_elements. set_solver.
  - by rewrite Ho.
Qed.

(** A bulk close for an ownership change takes every registered connection exactly
    once and leaves none in the table, so that a later round does not see it again. *)
Theorem take_for_ownership_all order cs :
  visit_order cs order ->
  let '(taken, cs') := take_for_ownership order cs in
  NoDup taken /\ (forall c, c ∈ taken <-> c ∈ items cs) /\ items cs' = ∅ /\ closing cs' = closing cs.
Proof.
  intros Ho. cbn. unfold visit_order in Ho. split_and!.
  - rewrite Ho. apply NoDup_elements.
  - intros c. by rewrite Ho, elem_of_elements.
  - apply leibniz_equiv. intros c. rewrite elem_of_difference, elem_of_list_to_set, Ho, elem_of_elements.
    set_solver.
  - done.
Qed.

Lemma take_for_ownership_all_witness :
  let '(taken, cs') := take_for_ownership [7] (mkConnections {[ 7 ]} false) in
  NoDup taken /\ items cs' = ∅.
Proof.
  assert (Ho : visit_order (mkConnections {[ 7 ]} false) [7]) by (vm_compute; reflexivity).
  destruct (take_for_ownership_all [7] (mkConnections {[ 7 ]} false) Ho) as (H1 & _ & H2 & _).
  split; [exact H1|exact H2].
Defined.

(** The table forgets a connection before it is closed.  When the close's context
    ends first, closeForOwnershipChange returns with a connection that is still open
    and no longer in the table: no later close will find it. *)
Theorem ownership_close_can_leak :
  exists c cs order n p,
    items cs = {[ c ]} /\ visit_order cs order /\
    let '(taken, cs') := take_for_ownership order cs in
    pool_run n (pool_start taken) p /\ finished p = true /\
    (c ∉ shut p) /\ (c ∉ items cs').
Proof.
  exists 7, (mkConnections {[ 7 ]} false), [7], 3, (mkPool [7] false [Gone] [] true).
  split; [done|]. split; [by vm_compute|]. cbn. split_and!; [|done|set_solver|set_solver].
  eapply run_cons; [eapply run_cons; [eapply run_cons; [apply run_nil|]|]|].
  - apply any_cancel.
  - apply any_step, step_feeder_cancelled.
  - apply any_step, (step_worker_cancelled [7] false [Idle] 0). done.
Qed.

End Connections.
