(* ===== verification/Handshake.v ===== *)
(** * Handshakes against ownership changes and shutdown
    (internal/httpserver/websocket.go lines 243-293, server.go startOwnershipMonitor)

    Three parties share the table of connections: the handlers, one per
    connection, from the first read of the ownership revision to the deferred
    removal; the ownership monitor; and Shutdown.  Their statements interleave
    freely with each other and with ownership changes of the bus.

    The ownership revision is a uint64.  The model counts the changes in Z; the program
    has the remainder modulo 2^64, and compares remainders. *)

From S2P Require Import Prelude.
From S2P Require Import Connections.

Module Handshake.
Import Connections.

(** Where a connection's handler stands; [r] is handshakeOwnershipRevision. *)
Inductive phase :=
  | PStart
  | PRead (r : Z)
  | PJoined (r : Z)
  | PAdded (r : Z)
  | PSame (r : Z)
  | PServing (r : Z)
  | PUnwind
  | PGone.

#[export] Instance phase_eq_dec : EqDecision phase.
Proof. solve_decision. Defined.

(** Whether two counts are the same uint64. *)
Definition same_revision (a b : Z) : bool := (wrap_u64 a =? wrap_u64 b)%Z.

(** One statement of the handler: what it reads of the bus are the current revision
    and whether the room is owned. *)
Definition handler_step (c : conn) (revision : Z) (owned : bool) (ph : phase) (t : websocketConnections)
  : phase * websocketConnections :=
  match ph with
  | PStart => (PRead revision, t)
  | PRead r => (if owned then PJoined r else PGone, t)
  | PJoined r => let '(ok, t) := add c t in (if ok : bool then PAdded r else PGone, t)
  | PAdded r => (if same_revision revision r then PSame r else PUnwind, t)
  | PSame r => (if owned then PServing r else PUnwind, t)
  | PServing _ | PUnwind => (PGone, remove c t)
  | PGone => (PGone, t)
  end.

(** The monitor: not yet started, waiting with [last] as lastRevision, or about to
    close the table's connections.  [first] is the revision it read at its start. *)
Inductive monitor := MInit | MWatch (first last : Z) | MTake (first last : Z).

#[export] Instance monitor_eq_dec : EqDecision monitor.
Proof. solve_decision. Defined.

(** A tick of the monitor's loop. *)
Definition monitor_step (revision : Z) (m : monitor) : monitor :=
  match m with
  | MInit => MWatch revision revision
  | MWatch first last => if same_revision revision last then m else MTake first revision
  | MTake first last => m
  end.

(** [taken]: the connections handed to closeWebSockets. *)
Record system := mkSystem {
  own : gset string; revision : Z;
  table : websocketConnections; mon : monitor;
  handlers : gmap conn (string * phase);
  taken : list conn;
}.

Inductive step (s : system) : system -> Prop :=
  | step_request c room :
      handlers s !! c = None ->
      step s (mkSystem (own s) (revision s) (table s) (mon s) (<[c := (room, PStart)]> (handlers s)) (taken s))
  | step_handler c room ph ph' t' :
      handlers s !! c = Some (room, ph) ->
      handler_step c (revision s) (bool_decide (room ∈ own s)) ph (table s) = (ph', t') ->
      step s (mkSystem (own s) (revision s) t' (mon s) (<[c := (room, ph')]> (handlers s)) (taken s))
  | step_ownership own' :
      step s (mkSystem own' (revision s + 1)%Z (table s) (mon s) (handlers s) (taken s))
  | step_monitor m' :
      monitor_step (revision s) (mon s) = m' ->
      step s (mkSystem (own s) (revision s) (table s) m' (handlers s) (taken s))
  | step_monitor_take first last order l t' :
      mon s = MTake first last -> visit_order (table s) order ->
      take_for_ownership order (table s) = (l, t') ->
      step s (mkSystem (own s) (revision s) t' (MWatch first last) (handlers s) (taken s ++ l))
  | step_restart order l t' :
      visit_order (table s) order -> take_for_restart order (table s) = (l, t') ->
      step s (mkSystem (own s) (revision s) t' (mon s) (handlers s) (taken s ++ l)).

Definition init (own : gset string) (revision : Z) : system :=
  mkSystem own revision newWebSocketConnections MInit ∅ [].

Inductive reachable : system -> Prop :=
  | reachable_init own revision : (0 <= revision)%Z -> reachable (init own revision)
  | reachable_step s s' : reachable s -> step s s' -> reachable s'.

(** ** The invariant *)

(** The revision of a registered connection. *)
Definition registered (ph : phase) : option Z :=
  match ph with PAdded r | PSame r | PServing r => Some r | _ => None end.
(** The revision of a connection that has passed the second look at the revision. *)
Definition rechecked (ph : phase) : option Z :=
  match ph with PSame r | PServing r => Some r | _ => None end.

Definition last_seen (m : monitor) : option Z :=
  match m with MInit => None | MWatch _ last | MTake _ last => Some last end.

Record inv (s : system) : Prop := {
  inv_count : (0 <= revision s)%Z;
  inv_last : forall last, last_seen (mon s) = Some last -> (last <= revision s)%Z;
  inv_revision : forall c room ph r, handlers s !! c = Some (room, ph) ->
    ph = PRead r \/ ph = PJoined r \/ registered ph = Some r -> (0 <= r <= revision s)%Z;
  inv_registered : forall c room ph r, handlers s !! c = Some (room, ph) -> registered ph = Some r ->
    (c ∈ items (table s) /\ closing (table s) = false) \/ c ∈ taken s;
  inv_watched : forall c room ph r first last, handlers s !! c = Some (room, ph) ->
    (revision s < 2 ^ 64)%Z -> rechecked ph = Some r -> c ∉ taken s -> mon s = MWatch first last ->
    (first <= r)%Z -> (last <= r)%Z;
  inv_owned : forall c room r, handlers s !! c = Some (room, PServing r) ->
    r = revision s -> room ∈ own s;
}.

Lemma init_inv own revision : (0 <= revision)%Z -> inv (init own revision).
Proof. intros Hr. split; cbn; [done|..]; intros *; by rewrite ?lookup_empty. Qed.

Lemma same_revision_small a b : same_revision a b = true -> (0 <= b <= a)%Z -> (a < 2 ^ 64)%Z -> a = b.
Proof. unfold same_revision. intros Hs%Z.eqb_eq Hb Ha. by rewrite !wrap_u64_small in Hs by lia. Qed.

(** What one statement of a handler changes in the table. *)
Lemma handler_step_table c rev owned ph t ph' t' :
  handler_step c rev owned ph t = (ph', t') ->
  closing t' = closing t /\
  (forall c', c' <> c -> c' ∈ items t' <-> c' ∈ items t) /\
  (forall r, registered ph' = Some r ->
     (registered ph = Some r /\ t' = t) \/ (ph = PJoined r /\ closing t = false /\ c ∈ items t')) /\
  (forall r, rechecked ph' = Some r -> (ph = PAdded r /\ same_revision rev r = true) \/ (ph = PSame r /\ owned = true)) /\
  (forall r, ph' = PRead r -> r = rev) /\ (forall r, ph' = PJoined r -> ph = PRead r).
Proof.
  destruct ph as [|r0|r0|r0|r0|r0| |]; cbn [handler_step]; unfold add;
    [|destruct owned|destruct (closing t) eqn:Hcl|destruct (same_revision rev r0) eqn:Hsr|destruct owned|..];
    intros [= <- <-]; cbn; split_and!; try done; try set_solver;
    intros r; try done; intros [= <-]; auto.
Qed.

Lemma request_inv s c room :
  inv s -> inv (mkSystem (own s) (revision s) (table s) (mon s) (<[c := (room, PStart)]> (handlers s)) (taken s)).
Proof.
  intros [Hn Hl Hr Hg Hw Ho]. split; cbn [own revision table mon handlers taken]; [done|done|..].
  - intros c' room' ph' r [[<- [= <- <-]]|[_ Hc]]%lookup_insert_Some; [by intros [?|[?|?]]|].
    by apply (Hr c' room').
  - intros c' room' ph' r [[<- [= <- <-]]|[_ Hc]]%lookup_insert_Some; [done|]. by apply (Hg c' room').
  - intros c' room' ph' r f la [[<- [= <- <-]]|[_ Hc]]%lookup_insert_Some Hb; [done|]. by apply (Hw c' room' ph').
  - intros c' room' r [[<- [= <-]]|[_ Hc]]%lookup_insert_Some. by apply (Ho c').
Qed.

Lemma handler_inv s c room ph ph' t' :
  inv s -> handlers s !! c = Some (room, ph) ->
  handler_step c (revision s) (bool_decide (room ∈ own s)) ph (table s) = (ph', t') ->
  inv (mkSystem (own s) (revision s) t' (mon s) (<[c := (room, ph')]> (handlers s)) (taken s)).
Proof.
  intros [Hn Hl Hr Hg Hw Ho] Hc Hstep.
  destruct (handler_step_table _ _ _ _ _ _ _ Hstep) as (Hcl & Hother & Hreg & Hre & Hread & Hjoin).
  split; cbn [own revision table mon handlers taken]; [done|done|..].
  - intros c' room' ph1 r [[<- [= <- <-]]|[_ Hc']]%lookup_insert_Some; [|by apply (Hr c' room')].
    intros [->|[->|Hreg']].
    + rewrite (Hread r eq_refl). lia.
    + specialize (Hjoin r eq_refl). subst ph. apply (Hr c room _ r Hc). auto.
    + destruct (Hreg r Hreg') as [[? _]|(-> & _)]; apply (Hr c room _ r Hc); auto.
  - intros c' room' ph1 r [[<- [= <- <-]]|[Hne Hc']]%lookup_insert_Some Hreg'.
    + destruct (Hreg r Hreg') as [[Hreg1 ->]|(_ & Hclosing & Hin)]; [by apply (Hg c room ph r)|].
      left. by rewrite Hcl.
    + rewrite Hcl, Hother by done. by apply (Hg c' room' ph1 r).
  - intros c' room' ph1 r f la [[<- [= <- <-]]|[Hne Hc']]%lookup_insert_Some Hb Hreg' Hnot Hmon Hf;
      [|by apply (Hw c' room' ph1 r f)].
    destruct (Hre r Hreg') as [[-> Hsame]|[-> _]]; [|by apply (Hw c room (PSame r) r f)].
    rewrite <- (same_revision_small _ _ Hsame); [|by apply (Hr c room _ r Hc); auto|done]. apply Hl. by rewrite Hmon.
  - intros c' room' r [[<- [= <- ->]]|[Hne Hc']]%lookup_insert_Some Heq; [|by apply (Ho c' room' r)].
    destruct (Hre r eq_refl) as [[-> _]|[_ Hown]]; [|by apply bool_decide_eq_true in Hown].
    cbn in Hstep. by destruct (same_revision _ _).
Qed.

Lemma ownership_inv s own' :
  inv s -> inv (mkSystem own' (revision s + 1)%Z (table s) (mon s) (handlers s) (taken s)).
Proof.
  intros [Hn Hl Hr Hg Hw Ho]. split; cbn [own revision table mon handlers taken]; try done.
  - lia.
  - intros la Hla. specialize (Hl la Hla). lia.
  - intros c room ph r Hc Hph. specialize (Hr c room ph r Hc Hph). lia.
  - intros c room ph r f la Hc Hb. apply (Hw c room ph r f la Hc). lia.
  - intros c room r Hc Heq. specialize (Hr c room _ r Hc ltac:(cbn; auto)). lia.
Qed.

Lemma monitor_inv s :
  inv s -> inv (mkSystem (own s) (revision s) (table s) (monitor_step (revision s) (mon s)) (handlers s) (taken s)).
Proof.
  intros [Hn Hl Hr Hg Hw Ho]. split; cbn [own revision table mon handlers taken]; try done.
  - intros la Hla. destruct (mon s) as [|f la'|f la'] eqn:Hmon; cbn in Hla.
    + injection Hla as <-. lia.
    + destruct (same_revision (revision s) la'); cbn in Hla; injection Hla as <-; [by apply Hl|lia].
    + injection Hla as <-. by apply Hl.
  - intros c room ph r f la Hc Hb Hre Hnot Hm' Hf.
    destruct (mon s) as [|f' la'|f' la'] eqn:Hmon; cbn in Hm'; [by injection Hm' as <- <-| |done].
    destruct (same_revision (revision s) la'); [|done]. injection Hm' as <- <-.
    by apply (Hw c room ph r f' la').
Qed.

(** Both bulk closes take everything that is registered. *)
Lemma taken_registered s order c room ph r :
  inv s -> visit_order (table s) order -> handlers s !! c = Some (room, ph) -> registered ph = Some r ->
  c ∈ taken s ++ order.
Proof.
  intros Hi Hv Hc Hreg. apply elem_of_app.
  destruct (inv_registered _ Hi c room ph r Hc Hreg) as [[Hin _]|?]; [right|by left].
  unfold visit_order in Hv. by rewrite Hv, elem_of_elements.
Qed.

Lemma bulk_inv s m' order t' :
  inv s -> visit_order (table s) order ->
  (forall last, last_seen m' = Some last -> (last <= revision s)%Z) ->
  inv (mkSystem (own s) (revision s) t' m' (handlers s) (taken s ++ order)).
Proof.
  intros Hi Hv Hm. pose proof Hi as [Hn Hl Hr Hg Hw Ho]. split; cbn [own revision table mon handlers taken]; try done.
  - intros c room ph r Hc Hreg. right. by eapply taken_registered.
  - intros c room ph r f la Hc _ Hre Hnot. destruct Hnot.
    eapply (taken_registered s order c room ph r); [done..|]. by destruct ph.
Qed.

Lemma gateway_step_inv s s' : inv s -> step s s' -> inv s'.
Proof.
  intros Hi [c room Hn|c room ph ph' t' Hc Hstep|own'|m' <-|first last order l t' Hm Hv [= <- <-]|order l t' Hv [= <- <-]].
  - by apply request_inv.
  - by eapply handler_inv.
  - by apply ownership_inv.
  - by apply monitor_inv.
  - apply bulk_inv; [done|done|]. intros la Hla. apply (inv_last _ Hi). by rewrite Hm.
  - apply bulk_inv; [done|done|]. apply Hi.
Qed.

Lemma gateway_reachable_inv s : reachable s -> inv s.
Proof. induction 1 as [|s s' _ IH Hs]; [by apply init_inv|by eapply gateway_step_inv]. Qed.

(** ** Properties *)

(** C20: no connection outlives an ownership change unnoticed.  Once the monitor has
    caught up with the bus (its last revision is the current one and no close is
    pending), every connection that is being served, has not been handed to a bulk
    close, and whose handshake began after the monitor's first reading, was
    established under the current revision, and this instance owns its room: as long as
    the ownership has changed fewer than 2^64 times, the revision being a uint64.  A
    connection whose handshake began before that reading may be missed
    (monitor_start_window). *)
Theorem served_connections_are_owned s c room r first last :
  reachable s -> (revision s < 2 ^ 64)%Z -> handlers s !! c = Some (room, PServing r) -> c ∉ taken s ->
  mon s = MWatch first last -> last = revision s -> (first <= r)%Z ->
  r = revision s /\ room ∈ own s.
Proof.
  intros Hi%gateway_reachable_inv Hb Hc Hnot Hm Hlast Hf.
  pose proof (inv_watched _ Hi c room _ r first last Hc Hb eq_refl Hnot Hm Hf).
  pose proof (inv_revision _ Hi c room _ r Hc ltac:(cbn; auto)).
  assert (r = revision s) as Hr by lia. split; [done|]. by apply (inv_owned _ Hi c room r).
Qed.

(** C22: no connection slips through a shutdown.  From the moment Shutdown has marked
    the table as closing, every connection that is registered or being served has been
    handed to a bulk close: it was registered before, or it will be refused. *)
Theorem shutdown_takes_all_connections s c room ph r :
  reachable s -> closing (table s) = true -> handlers s !! c = Some (room, ph) ->
  registered ph = Some r -> c ∈ taken s.
Proof.
  intros Hi%gateway_reachable_inv Hcl Hc Hreg.
  destruct (inv_registered _ Hi c room ph r Hc Hreg) as [[_ ?]|?]; [congruence|done].
Qed.

(** ** Runs, for the witnesses *)

Inductive event :=
  | ERequest (c : conn) (room : string) | EHandler (c : conn) | EOwnership (own' : gset string)
  | EMonitor | EMonitorTake | ERestart.

Definition do_event (e : event) (s : system) : option system :=
  match e with
  | ERequest c room =>
      if bool_decide (handlers s !! c = None) then
        Some (mkSystem (own s) (revision s) (table s) (mon s) (<[c := (room, PStart)]> (handlers s)) (taken s))
      else None
  | EHandler c =>
      '(room, ph) ← handlers s !! c;
      let '(ph', t') := handler_step c (revision s) (bool_decide (room ∈ own s)) ph (table s) in
      Some (mkSystem (own s) (revision s) t' (mon s) (<[c := (room, ph')]> (handlers s)) (taken s))
  | EOwnership own' => Some (mkSystem own' (revision s + 1)%Z (table s) (mon s) (handlers s) (taken s))
  | EMonitor =>
      Some (mkSystem (own s) (revision s) (table s) (monitor_step (revision s) (mon s)) (handlers s) (taken s))
  | EMonitorTake =>
      match mon s with
      | MTake first last =>
          let '(l, t') := take_for_ownership (elements (items (table s))) (table s) in
          Some (mkSystem (own s) (revision s) t' (MWatch first last) (handlers s) (taken s ++ l))
      | _ => None
      end
  | ERestart =>
      let '(l, t') := take_for_restart (elements (items (table s))) (table s) in
      Some (mkSystem (own s) (revision s) t' (mon s) (handlers s) (taken s ++ l))
  end.

Lemma do_event_step e s s' : do_event e s = Some s' -> step s s'.
Proof.
  destruct e as [c room|c|own'| | |]; cbn; intros He.
  - case_bool_decide; [|done]. injection He as <-. by apply step_request.
  - destruct (handlers s !! c) as [[room ph]|] eqn:Hc; [|done]. cbn in He.
    destruct (handler_step _ _ _ _ _) as [ph' t'] eqn:Hs. injection He as <-. by eapply step_handler.
  - injection He as <-. apply step_ownership.
  - injection He as <-. by apply step_monitor.
  - destruct (mon s) as [| |f la] eqn:Hm; [done..|]. injection He as <-.
    refine (step_monitor_take s f la (elements (items (table s))) _ _ Hm _ eq_refl).
    by unfold visit_order.
  - injection He as <-. refine (step_restart s (elements (items (table s))) _ _ _ eq_refl).
    by unfold visit_order.
Qed.

Fixpoint do_events (es : list event) (s : system) : option system :=
  match es with
  | [] => Some s
  | e :: es => match do_event e s with Some s => do_events es s | None => None end
  end.

Lemma do_events_reachable es : forall s s', reachable s -> do_events es s = Some s' -> reachable s'.
Proof.
  induction es as [|e es IH]; cbn; intros s s' Hr He; [by simplify_eq|].
  destruct (do_event e s) as [s1|] eqn:H1; [|done].
  apply (IH s1); [|done]. eapply reachable_step; [done|]. by eapply do_event_step.
Qed.

(** A served connection: the monitor runs, the request passes both looks. *)
Definition serve (c : conn) (room : string) : list event :=
  [ERequest c room; EHandler c; EHandler c; EHandler c; EHandler c; EHandler c].
Definition start : system := init {[ "a"; "b" ]} 4.

Lemma run_reachable es s : do_events es start = Some s -> reachable s.
Proof. apply do_events_reachable. by apply reachable_init. Qed.

(** A test evaluated on the state a run ends in. *)
Definition ends (es : list event) (test : system -> bool) : bool :=
  match do_events es start with Some s => test s | None => false end.
Lemma ends_state es test :
  ends es test = true -> exists s, do_events es start = Some s /\ test s = true.
Proof. unfold ends. destruct (do_events es start) as [s|]; [by eauto|done]. Qed.

Definition rebalanced : list event :=
  EMonitor :: serve 1 "a" ++ [EOwnership {[ "b" ]}; EMonitor; EMonitorTake] ++ serve 2 "b".

(** Connection 1 is closed by the monitor; 2 is served under the new revision. *)
Lemma served_connections_are_owned_witness :
  exists s, do_events rebalanced start = Some s /\ revision s = 5%Z /\ "b"%string ∈ own s.
Proof.
  destruct (ends_state rebalanced (fun s => bool_decide
    ((revision s, mon s, handlers s !! 2) = (5%Z, MWatch 4 5, Some ("b"%string, PServing 5)) /\
     taken s = [1]))) as (s & Hs & Ht%bool_decide_eq_true); [vm_compute; reflexivity|].
  exists s. split; [exact Hs|]. apply run_reachable in Hs as Hr. clear Hs.
  destruct Ht as [[= Hrev Hmon Hc] Htaken]. split; [exact Hrev|].
  refine (proj2 (served_connections_are_owned s 2 "b" 5 4 5 Hr _ Hc _ Hmon (eq_sym Hrev) _)); [by rewrite Hrev| |done].
  rewrite Htaken. by intros [= ?]%list_elem_of_singleton.
Defined.

(** Connection 1 is registered when Shutdown takes the table; connection 2 passed its
    checks before, and registers too late. *)
Definition restarted : list event :=
  serve 1 "a" ++ [ERequest 2 "b"; EHandler 2; EHandler 2; ERestart; EHandler 2].

Lemma shutdown_takes_all_connections_witness :
  exists s, do_events restarted start = Some s /\ 1 ∈ taken s /\ handlers s !! 2 = Some ("b"%string, PGone).
Proof.
  destruct (ends_state restarted (fun s => bool_decide
    ((handlers s !! 1, handlers s !! 2, closing (table s)) =
     (Some ("a"%string, PServing 4), Some ("b"%string, PGone), true))))
    as (s & Hs & Ht%bool_decide_eq_true); [vm_compute; reflexivity|].
  exists s. split; [exact Hs|]. apply run_reachable in Hs as Hr. clear Hs.
  injection Ht as H1 H2 Hcl. split; [|exact H2].
  exact (shutdown_takes_all_connections s 1 "a" (PServing 4) 4 Hr Hcl H1 eq_refl).
Defined.

(** The monitor's start leaves a window.  If a connection is served and the
    ownership then changes before the monitor's goroutine has read its first revision,
    the monitor takes the new revision as its starting point: it is up to date, the
    room is no longer owned, and the connection is in no close. *)
Theorem monitor_start_window :
  exists s c room r first last,
    reachable s /\ handlers s !! c = Some (room, PServing r) /\ mon s = MWatch first last /\
    last = revision s /\ (c ∉ taken s) /\ (room ∉ own s).
Proof.
  destruct (ends_state (serve 1 "a" ++ [EOwnership {[ "b" ]}; EMonitor]) (fun s => bool_decide
    ((handlers s !! 1, mon s, revision s, taken s) = (Some ("a"%string, PServing 4), MWatch 5 5, 5%Z, []) /\
     ("a"%string ∉ own s)))) as (s & Hs & Ht%bool_decide_eq_true); [vm_compute; reflexivity|].
  apply run_reachable in Hs as Hr. clear Hs. destruct Ht as [[= Hc Hm Hrev Htaken] Hown].
  exists s, 1, "a"%string, 4%Z, 5%Z, 5%Z. split; [exact Hr|]. rewrite Hrev, Htaken.
  split_and!; try done. apply not_elem_of_nil.
Qed.

End Handshake.
