(* ===== verification/Monitor.v ===== *)
(** * The ownership monitor and its stop function (internal/httpserver/server.go
    startOwnershipMonitor)

    The goroutine that polls the ownership revision, with the bulk closes it starts, and
    the function that stops it and waits for it.  Their statements interleave with the
    workers of the closes, with ownership changes of the bus and with the handlers that
    change the table.  What the closes mean for the connections is in Handshake. *)

From S2P Require Import Prelude.
From S2P Require Import GoChan.
From S2P Require Import Connections.

Module Monitor.
Import Connections.

(** Lines 274-298: before the first reading of the revision; in the select; after a tick;
    before and in closeForOwnershipChange, where [i] is the number of the close and
    [count] its result; in the deferred calls. *)
Inductive monitor_pc :=
  | MInit | MSelect (lastRevision : Z) | MTick (lastRevision : Z) | MTake (revision : Z)
  | MClosing (revision : Z) (i count : nat) | MDone | MGone.

(** Lines 300-303. *)
Inductive stop_pc := SIdle | SWait | SReturned.

(** [pools]: every bulk close started so far; one outlives its call when its context has
    ended.  [logged]: revision and count of each reconciliation. *)
Record monitor := mkMonitor {
  enabled : bool; pc : monitor_pc; stop : stop_pc; cancelled : bool; done : chan unit;
  bus_revision : Z; table : websocketConnections; pools : list pool; logged : list (Z * nat);
}.

Definition startOwnershipMonitor (enabled : bool) (revision : Z) (t : websocketConnections) : monitor :=
  mkMonitor enabled (if enabled then MInit else MGone) SIdle false (make_chan 0) revision t [] [].

Definition end_context (p : pool) : pool := mkPool (todo p) (feeding p) (workers p) (shut p) true.

Inductive choice := Tick | Done | Proceed | Visit (order : list conn).

(** A statement of the goroutine. *)
Definition monitor_step (ch : choice) (s : monitor) : option (outcome monitor) :=
  let 'mkMonitor en m st can d rev t ps lg := s in
  let at_pc m := Some (Returns (mkMonitor en m st can d rev t ps lg)) in
  match m, ch with
  | MInit, Proceed => at_pc (MSelect rev)
  | MSelect last, Tick => at_pc (MTick last)
  | MSelect _, Done => if can then at_pc MDone else None
  | MTick last, Proceed => at_pc (if (rev =? last)%Z then MSelect last else MTake rev)
  | MTake r, Visit order =>
    if bool_decide (order ≡ₚ elements (items t)) then
      let '(taken, t) := take_for_ownership order t in
      let p := pool_start taken in
      Some (Returns (mkMonitor en (MClosing r (length ps) (length taken)) st can d rev t
        (ps ++ [if can then end_context p else p]) lg))
    else None
  | MClosing r i count, Proceed =>
    p ← ps !! i;
    if finished p || ended p then
      Some (Returns (mkMonitor en (MSelect r) st can d rev t (<[i := end_context p]> ps) (lg ++ [(r, count)])))
    else None
  | MDone, Proceed => Some (d ← close d; Returns (mkMonitor en MGone st can d rev t ps lg))
  | _, _ => None
  end.

(** The stop function: cancel ends the contexts of the closes as well. *)
Definition stop_step (s : monitor) : option monitor :=
  let 'mkMonitor en m st can d rev t ps lg := s in
  match st with
  | SIdle =>
    if en then Some (mkMonitor en m SWait true d rev t (end_context <$> ps) lg)
    else Some (mkMonitor en m SReturned can d rev t ps lg)
  | SWait => '(_, d) ← recv d; Some (mkMonitor en m SReturned can d rev t ps lg)
  | SReturned => None
  end.

(** The workers of a close, the end of its context after a second, the bus, the handlers. *)
Inductive step (s : monitor) : outcome monitor -> Prop :=
  | step_monitor ch o : monitor_step ch s = Some o -> step s o
  | step_stop s' : stop_step s = Some s' -> step s (Returns s')
  | step_pool i p p' :
      pools s !! i = Some p -> pool_any p p' ->
      step s (Returns (mkMonitor (enabled s) (pc s) (stop s) (cancelled s) (done s) (bus_revision s) (table s)
                         (<[i := p']> (pools s)) (logged s)))
  | step_bus revision :
      step s (Returns (mkMonitor (enabled s) (pc s) (stop s) (cancelled s) (done s) revision (table s) (pools s) (logged s)))
  | step_table t :
      step s (Returns (mkMonitor (enabled s) (pc s) (stop s) (cancelled s) (done s) (bus_revision s) t (pools s) (logged s))).

Inductive reachable : monitor -> Prop :=
  | reachable_start en revision t : reachable (startOwnershipMonitor en revision t)
  | reachable_step s s' : reachable s -> step s (Returns s') -> reachable s'.

(** ** The invariant *)

(** The connections of a close. *)
Definition total (p : pool) : nat := length (todo p ++ in_flight p ++ shut p).

Definition pending (m : monitor_pc) : list nat := match m with MClosing _ _ count => [count] | _ => [] end.

(** Every revision in the log differs from the one before. *)
Fixpoint changes (previous : Z) (revisions : list Z) : Prop :=
  match revisions with [] => True | r :: rest => previous <> r /\ changes r rest end.

(** What the goroutine knows of the revision, if it has read it. *)
Definition seen (m : monitor_pc) : option Z :=
  match m with MSelect last | MTick last | MTake last | MClosing last _ _ => Some last | _ => None end.

Record monitor_inv (s : monitor) : Prop := {
  mi_done : done s = mkChan 0 [] (enabled s && match pc s with MGone => true | _ => false end);
  mi_enabled : enabled s = false -> pc s = MGone /\ cancelled s = false /\ stop s <> SWait;
  mi_cancelled : enabled s = true -> cancelled s = match stop s with SIdle => false | _ => true end;
  mi_returned : stop s = SReturned -> pc s = MGone;
  mi_contexts : forall i p, pools s !! i = Some p -> ended p = false ->
    cancelled s = false /\ exists r count, pc s = MClosing r i count;
  mi_closing : forall r i count, pc s = MClosing r i count -> i < length (pools s);
  mi_pools : Forall (fun p => exists items, pool_inv items p) (pools s);
  mi_counts : (logged s).*2 ++ pending (pc s) = total <$> pools s;
  mi_changes : exists first, changes first (logged s).*1 /\
    match pc s with
    | MSelect last | MTick last => List.last ((logged s).*1) first = last
    | MTake r | MClosing r _ _ => List.last ((logged s).*1) first <> r
    | MInit => logged s = []
    | _ => True
    end;
}.

Lemma end_context_inv items p : pool_inv items p -> pool_inv items (end_context p).
Proof. intros [Hc Hn _ _]. by split. Qed.

Lemma total_items items p : pool_inv items p -> total p = length items.
Proof. intros [Hc _ _ _]. unfold total. by rewrite Hc. Qed.

Lemma total_any items p p' : pool_inv items p -> pool_any p p' -> total p' = total p.
Proof.
  intros Hi Hs. rewrite (total_items items p') by (by eapply pool_any_inv). by rewrite (total_items items p).
Qed.

Lemma pool_any_ended p p' : pool_any p p' -> ended p' = false -> ended p = false.
Proof. by intros [? ? []|]. Qed.

Lemma changes_app previous l r : changes previous l -> List.last l previous <> r -> changes previous (l ++ [r]).
Proof.
  revert previous. induction l as [|x l IH]; intros previous; cbn [changes app]; [by cbn; auto|].
  intros [H1 H2] Hl. split; [done|]. apply IH; [done|]. rewrite last_default_cons in Hl. exact Hl.
Qed.

Lemma total_insert (ps : list pool) (i : nat) p p' : ps !! i = Some p -> total p' = total p -> total <$> <[i := p']> ps = total <$> ps.
Proof.
  intros Hi Ht. rewrite list_fmap_insert, Ht. apply list_insert_id. by rewrite list_lookup_fmap, Hi.
Qed.

Lemma start_inv en revision t : monitor_inv (startOwnershipMonitor en revision t).
Proof. destruct en; split; cbn; try done; by exists 0%Z. Qed.

(** A statement that leaves the closes alone: the parts of the invariant it has to restore. *)
Lemma move_inv s m :
  monitor_inv s -> enabled s = true -> m <> MGone -> pc s <> MGone -> pending m = [] -> pending (pc s) = [] ->
  (exists first, changes first (logged s).*1 /\
    match m with
    | MSelect last | MTick last => List.last ((logged s).*1) first = last
    | MTake r => List.last ((logged s).*1) first <> r
    | MInit => logged s = []
    | _ => True
    end) ->
  monitor_inv (mkMonitor (enabled s) m (stop s) (cancelled s) (done s) (bus_revision s) (table s) (pools s) (logged s)).
Proof.
  intros [Hd He Hc Hr Hx Hcl Hp Hn Hch] Hen Hm Hpc Hpe Hpe' Hnew. destruct s as [en m0 st can d rev t ps lg].
  cbn in *. subst en. rewrite Hpe' in Hn. split; cbn; try done.
  - rewrite Hd. by destruct m, m0.
  - intros Hst. by apply Hr in Hst.
  - intros i p Hi Hen. destruct (Hx i p Hi Hen) as (_ & r & count & ->). done.
  - by intros r i count ->.
  - by rewrite Hpe.
  - destruct Hnew as (first & H1 & H2). exists first. split; [done|]. by destruct m.
Qed.

Lemma monitor_step_inv ch s o : monitor_inv s -> monitor_step ch s = Some o -> exists s', o = Returns s' /\ monitor_inv s'.
Proof.
  intros Hinv Hs. pose proof (move_inv s) as Hmove. pose proof Hinv as [Hd He Hc Hr Hx Hcl Hp Hn Hch].
  destruct s as [en m st can d rev t ps lg]. cbn in *.
  destruct en; [|by destruct (He eq_refl) as [-> _]; destruct ch].
  destruct Hch as (first & Hch & Hlast).
  destruct m as [|last|last|r|r i count| |], ch as [| | |order]; try done; cbn in Hs.
  - injection Hs as <-. eexists. split; [done|]. apply Hmove; try done. subst lg. by exists rev.
  - injection Hs as <-. eexists. split; [done|]. apply Hmove; try done. by exists first.
  - destruct can; [|done]. injection Hs as <-. eexists. split; [done|]. apply Hmove; try done. by exists first.
  - injection Hs as <-. eexists. split; [done|]. destruct (Z.eqb_spec rev last); apply Hmove; try done; exists first; [done|].
    split; [done|congruence].
  - case_bool_decide as Ho; [|done]. injection Hs as <-. eexists. split; [done|].
    split; cbn; try done.
    + by intros Hst%Hr.
    + intros j p Hj Hej. apply lookup_app_Some in Hj as [Hj|[Hj1 Hj2]]; [by destruct (Hx j p Hj Hej) as (_ & ? & ? & ?)|].
      destruct (j - length ps) as [|k] eqn:Hk; [|done]. injection Hj2 as <-.
      destruct can; [done|]. split; [done|]. exists r, (length order). f_equal. lia.
    + intros ? ? ? [= <- <- <-]. rewrite length_app. cbn. lia.
    + apply Forall_app. split; [done|]. apply Forall_singleton. exists order.
      destruct can; [apply end_context_inv|]; apply pool_start_inv.
    + rewrite fmap_app, <- Hn, app_nil_r. f_equal. cbn. f_equal.
      rewrite <- (total_items order (pool_start order)) by apply pool_start_inv. by destruct can.
    + by exists first.
  - destruct (ps !! i) as [p|] eqn:Hi; [|done]. cbn in Hs. destruct (finished p || ended p); [|done].
    injection Hs as <-. eexists. split; [done|]. split; cbn; try done.
    + by intros Hst%Hr.
    + intros j q Hj Hej. destruct (decide (j = i)) as [->|Hne].
      * rewrite list_lookup_insert_eq in Hj by (by eapply lookup_lt_Some). by injection Hj as <-.
      * rewrite list_lookup_insert_ne in Hj by done. destruct (Hx j q Hj Hej) as (_ & ? & ? & [= <- <- <-]). done.
    + destruct (Forall_lookup_1 _ _ _ _ Hp Hi) as [items Hit]. apply Forall_insert; [done|].
      exists items. by apply end_context_inv.
    + rewrite fmap_app, app_nil_r. rewrite (total_insert _ _ p) by done. exact Hn.
    + exists first. rewrite fmap_app. split; [by apply changes_app|]. cbn [fmap list_fmap fst]. by rewrite List.last_last.
  - rewrite Hd in Hs. cbn in Hs. injection Hs as <-. eexists. split; [done|]. split; cbn; try done; [|by exists first].
    intros i p Hi Hei. by destruct (Hx i p Hi Hei) as (_ & ? & ? & ?).
Qed.

Lemma stop_step_inv s s' : monitor_inv s -> stop_step s = Some s' -> monitor_inv s'.
Proof.
  intros [Hd He Hc Hr Hx Hcl Hp Hn Hch] Hs. destruct s as [en m st can d rev t ps lg]. cbn in *.
  destruct st; [destruct en|..]; cbn in Hs; try done.
  - injection Hs as <-. split; cbn; try done.
    + intros i p Hi. apply list_lookup_fmap_Some in Hi as (q & -> & _). done.
    + intros r i count Hm. rewrite length_fmap. by eapply Hcl.
    + apply Forall_fmap. eapply Forall_impl; [exact Hp|]. intros p [items Hi]. exists items. by apply end_context_inv.
    + rewrite <- list_fmap_compose. exact Hn.
  - injection Hs as <-. destruct (He eq_refl) as (-> & -> & _). split; cbn; try done.
  - destruct (recv d) as [[v d']|] eqn:Hrecv; [|done]. cbn in Hs. injection Hs as <-. rewrite Hd in Hrecv.
    destruct en; [|by destruct (He eq_refl) as (_ & _ & ?)].
    destruct m; try done. cbn in Hrecv. injection Hrecv as _ <-. split; cbn; done.
Qed.

Lemma monitor_any_inv s o : monitor_inv s -> step s o -> exists s', o = Returns s' /\ monitor_inv s'.
Proof.
  intros Hinv Hs. destruct Hs as [ch o Hs|s' Hs|i p p' Hi Hpool|revision|t]; [by eapply monitor_step_inv| |..];
    eexists; (split; [done|]); [by eapply stop_step_inv|..]; destruct Hinv as [Hd He Hc Hr Hx Hcl Hp Hn Hch];
    split; cbn; try done.
  - intros j q Hj Hej. destruct (decide (j = i)) as [->|Hne].
    + rewrite list_lookup_insert_eq in Hj by (by eapply lookup_lt_Some). injection Hj as <-.
      by apply (Hx i p Hi), (pool_any_ended p p').
    + rewrite list_lookup_insert_ne in Hj by done. by apply (Hx j q).
  - intros r j count Hm. rewrite length_insert. by eapply Hcl.
  - destruct (Forall_lookup_1 _ _ _ _ Hp Hi) as [items Hit]. apply Forall_insert; [done|].
    exists items. by eapply pool_any_inv.
  - destruct (Forall_lookup_1 _ _ _ _ Hp Hi) as [items Hit].
    rewrite (total_insert _ _ p); [done|done|by eapply total_any].
Qed.

Lemma monitor_reachable_inv s : reachable s -> monitor_inv s.
Proof.
  induction 1 as [en revision t|s s' _ IH Hs]; [apply start_inv|].
  by destruct (monitor_any_inv _ _ IH Hs) as (? & [= <-] & ?).
Qed.

(** ** Properties *)

(** Statements of the goroutine to its end, if the select takes ctx.Done. *)
Definition rank (m : monitor_pc) : nat :=
  match m with MGone => 0 | MDone => 1 | MSelect _ => 2 | MInit | MClosing _ _ _ => 3 | MTake _ => 4 | MTick _ => 5 end.

(** A run in which the goroutine takes [n] statements, [k] of them the ticker's case of
    the select, and the others whatever they want. *)
Inductive run : nat -> nat -> monitor -> monitor -> Prop :=
  | run_end s : run 0 0 s s
  | run_tick n k s s1 s' : monitor_step Tick s = Some (Returns s1) -> run n k s1 s' -> run (S n) (S k) s s'
  | run_move ch n k s s1 s' : ch <> Tick -> monitor_step ch s = Some (Returns s1) -> run n k s1 s' -> run (S n) k s s'
  | run_other n k s s1 s' : pc s1 = pc s -> step s (Returns s1) -> run n k s1 s' -> run n k s s'.

Lemma monitor_step_rank ch s s' : monitor_step ch s = Some (Returns s') ->
  match ch with Tick => rank (pc s') <= rank (pc s) + 3 | _ => rank (pc s') < rank (pc s) end.
Proof.
  destruct s as [en m st can d rev t ps lg]. unfold monitor_step.
  destruct m as [|last|last|r|r i count| |], ch as [| | |order]; try done; intros Hs.
  - injection Hs as <-. cbn. lia.
  - injection Hs as <-. cbn. lia.
  - destruct can; [|done]. injection Hs as <-. cbn. lia.
  - injection Hs as <-. destruct (rev =? last)%Z; cbn; lia.
  - case_bool_decide; [|done]. injection Hs as <-. cbn. lia.
  - destruct (ps !! i) as [p|]; [|done]. cbn in Hs. destruct (finished p || ended p); [|done].
    injection Hs as <-. cbn. lia.
  - destruct (close d); cbn in Hs; [|done]. injection Hs as <-. cbn. lia.
Qed.

Lemma run_rank n k s s' : run n k s s' -> n + rank (pc s') <= rank (pc s) + 4 * k.
Proof.
  induction 1 as [s|n k s s1 s' Hs _ IH|ch n k s s1 s' Hch Hs _ IH|n k s s1 s' Hpc _ _ IH].
  - lia.
  - apply monitor_step_rank in Hs. lia.
  - apply monitor_step_rank in Hs. destruct ch; [done|lia..].
  - rewrite Hpc in IH. lia.
Qed.

(** Once cancelled, the goroutine can always move on without the ticker. *)
Lemma monitor_progress s : monitor_inv s -> cancelled s = true -> pc s <> MGone ->
  exists ch s', ch <> Tick /\ monitor_step ch s = Some (Returns s').
Proof.
  intros [Hd He Hc Hr Hx Hcl Hp Hn Hch] Hcan Hpc. destruct s as [en m st can d rev t ps lg]. cbn in *. subst can.
  destruct m as [|last|last|r|r i count| |]; [exists Proceed|exists Done|exists Proceed|exists (Visit (elements (items t)))|
    exists Proceed|exists Proceed|done]; cbn.
  - by eexists.
  - by eexists.
  - by eexists.
  - rewrite bool_decide_eq_true_2 by done. by eexists.
  - destruct (lookup_lt_is_Some_2 ps i (Hcl _ _ _ eq_refl)) as [p Hi]. rewrite Hi. cbn.
    destruct (ended p) eqn:Hend; [rewrite orb_true_r; by eexists|]. by destruct (Hx i p Hi Hend).
  - rewrite Hd. destruct en; cbn; by eexists.
Qed.

(** C31: the monitor stops.  No statement of it panics.  Between two ticks the goroutine
    takes at most five statements, and once the stop function has cancelled its context it
    is never stuck, not even in a bulk close that hangs; when it has ended, the stop
    function returns.  After that the goroutine starts no further close, and
    the contexts of all it has started have ended. *)
Theorem monitor_stops s :
  reachable s ->
  (forall o, step s o -> exists s', o = Returns s') /\
  (forall n k s', run n k s s' -> n <= 5 + 4 * k) /\
  (stop s = SWait -> pc s <> MGone -> exists ch s', ch <> Tick /\ monitor_step ch s = Some (Returns s')) /\
  (stop s <> SReturned -> pc s = MGone -> is_Some (stop_step s)) /\
  (stop s = SReturned -> pc s = MGone /\ (forall ch, monitor_step ch s = None) /\
     Forall (fun p => ended p = true) (pools s)).
Proof.
  intros Hi%monitor_reachable_inv. split_and!.
  - intros o Hs. destruct (monitor_any_inv _ _ Hi Hs) as (s' & -> & _). by eexists.
  - intros n k s' Hr%run_rank. assert (rank (pc s) <= 5) by (destruct (pc s); cbn; lia). lia.
  - intros Hst Hpc. apply monitor_progress; [done| |done]. destruct (enabled s) eqn:Hen.
    + by rewrite (mi_cancelled _ Hi Hen), Hst.
    + by destruct (mi_enabled _ Hi Hen) as (? & _).
  - intros Hst Hpc. pose proof (mi_done _ Hi) as Hd. pose proof (mi_cancelled _ Hi) as Hc. pose proof (mi_enabled _ Hi) as He.
    destruct s as [en m st can d rev t ps lg]. cbn in *. subst m d. destruct st, en; try done; by destruct (He eq_refl) as (_ & _ & ?).
  - intros Hst. pose proof (mi_returned _ Hi Hst) as Hpc. split_and!; [done| |].
    + intros ch. destruct s. cbn in Hpc. subst. by destruct ch.
    + apply Forall_lookup. intros i p Hip. destruct (ended p) eqn:Hend; [done|].
      destruct (mi_contexts _ Hi i p Hip Hend) as (_ & r & count & Hm). by rewrite Hpc in Hm.
Qed.

(** What a reconciliation is.  Each one logged is one bulk close, and its count is the
    number of connections of that close, whether waiting, in the hands of a worker or
    closed, each once; it was caused by a revision other than the last; and two closes
    never have live contexts at the same time, so that the 32 workers of one are the
    limit of what is being closed on its account. *)
Theorem monitor_reconciles s :
  reachable s ->
  (exists first, changes first (logged s).*1) /\
  length (pools s) <= S (length (logged s)) /\
  (forall i r count p, logged s !! i = Some (r, count) -> pools s !! i = Some p ->
     exists items, length items = count /\ items ≡ₚ todo p ++ in_flight p ++ shut p) /\
  (forall i j p q, pools s !! i = Some p -> pools s !! j = Some q -> ended p = false -> ended q = false -> i = j).
Proof.
  intros Hi%monitor_reachable_inv. pose proof (mi_counts _ Hi) as Hn. split_and!.
  - destruct (mi_changes _ Hi) as (first & H1 & _). by exists first.
  - apply (f_equal length) in Hn. rewrite length_app, !length_fmap in Hn. destruct (pc s); cbn in Hn; lia.
  - intros i r count p Hl Hp. exists (todo p ++ in_flight p ++ shut p). split; [|done].
    assert (Hc : ((logged s).*2 ++ pending (pc s)) !! i = Some count).
    { apply lookup_app_l_Some. by rewrite list_lookup_fmap, Hl. }
    rewrite Hn, list_lookup_fmap, Hp in Hc. by injection Hc.
  - intros i j p q Hp Hq Hep Heq. destruct (mi_contexts _ Hi i p Hp Hep) as (_ & r & n & Hm).
    destruct (mi_contexts _ Hi j q Hq Heq) as (_ & r' & n' & Hm'). rewrite Hm in Hm'. by injection Hm'.
Qed.

(** ** A run: a rebalance closes a connection that hangs, and the monitor is stopped *)

Inductive act := AMonitor (ch : choice) | AStop | ABus (revision : Z).

Definition do_act (a : act) (s : monitor) : option monitor :=
  match a with
  | AMonitor ch => match monitor_step ch s with Some (Returns s') => Some s' | _ => None end
  | AStop => stop_step s
  | ABus revision =>
    Some (mkMonitor (enabled s) (pc s) (stop s) (cancelled s) (done s) revision (table s) (pools s) (logged s))
  end.

Fixpoint do_acts (acts : list act) (s : monitor) : option monitor :=
  match acts with [] => Some s | a :: acts => s ← do_act a s; do_acts acts s end.

Lemma monitor_acts_reachable acts : forall s s', reachable s -> do_acts acts s = Some s' -> reachable s'.
Proof.
  induction acts as [|a acts IH]; cbn; intros s s' Hr He; [by simplify_eq|].
  destruct (do_act a s) as [s1|] eqn:Ha; [|done]. apply (IH s1); [|done]. eapply reachable_step; [exact Hr|].
  destruct a as [ch| |revision]; cbn in Ha.
  - destruct (monitor_step ch s) as [[s2|]|] eqn:Hs; [|done..]. injection Ha as <-. by eapply step_monitor.
  - by apply step_stop.
  - injection Ha as <-. apply step_bus.
Qed.

Definition sample_start : monitor := startOwnershipMonitor true 4 (mkConnections {[ 7 ]} false).
Definition sample_acts : list act :=
  [AMonitor Proceed; ABus 5; AMonitor Tick; AMonitor Proceed; AMonitor (Visit [7]); AStop; AMonitor Proceed;
   AMonitor Done; AMonitor Proceed; AStop].
Definition sample_end : monitor := default sample_start (do_acts sample_acts sample_start).

Lemma monitor_sample_reachable : reachable sample_end.
Proof.
  apply (monitor_acts_reachable sample_acts sample_start); [apply reachable_start|].
  vm_compute. reflexivity.
Qed.

Lemma monitor_stops_witness : stop sample_end = SReturned /\ pc sample_end = MGone /\
  Forall (fun p => ended p = true) (pools sample_end).
Proof.
  destruct (monitor_stops sample_end monitor_sample_reachable) as (_ & _ & _ & _ & H).
  split; [vm_compute; reflexivity|]. destruct H as (H1 & _ & H2); [vm_compute; reflexivity|]. split; [exact H1|exact H2].
Defined.

Lemma monitor_reconciles_witness : exists p items, pools sample_end !! 0 = Some p /\ length items = 1 /\
  items ≡ₚ todo p ++ in_flight p ++ shut p.
Proof.
  destruct (monitor_reconciles sample_end monitor_sample_reachable) as (_ & _ & H & _).
  eexists. destruct (H 0 5%Z 1 _ eq_refl eq_refl) as (items & H1 & H2). exists items.
  split; [vm_compute; reflexivity|]. split; [exact H1|exact H2].
Defined.

End Monitor.
