(* ===== verification/WebSocket.v ===== *)
(** * The WebSocket handler: handshake guards and messages
    (internal/httpserver/websocket.go)

    The guards before the upgrade, and the read loop: what happens to one frame,
    from the payload to the bus.  The clock, the random source, the bus and the
    connection answer through [surroundings].  The table of connections and the races around it are in the
    files Connections and Handshake. *)

From S2P Require Import Prelude.
From S2P Require Import Utf8.
From S2P Require Import GoStrings.
From S2P Require Import Json.
From S2P Require Import Message.
From S2P Require Import Sensitive.
From S2P Require Import RateLimit.

Module WebSocket.

Definition maxContentRunes : nat := 500.
Definition messageIDBytes : nat := 16.
Definition pongWait : duration := (60 * Second)%Z.
Definition pingPeriod : duration := Z.quot (pongWait * 9) 10.
Definition writeWait : duration := (10 * Second)%Z.
Definition messageBusPublishWait : duration := Second.

Record websocketRequest := mkRequest { content : string }.
Record websocketErrorResponse := mkErrorResponse { Code : string; Text : string }.

Definition invalidJSONCode : string := "invalid_json".
Definition emptyContentCode : string := "empty_content".
Definition contentTooLongCode : string := "content_too_long".
Definition sensitiveContentCode : string := "sensitive_content".
Definition messageBusUnavailableCode : string := "message_bus_unavailable".

(** json.Unmarshal into a request. *)
Definition set_request (name : string) (v : json) (r : websocketRequest) : result websocketRequest :=
  text ← decode_string v (content r); Ok (mkRequest text).
Definition UnmarshalRequest (payload : string) : result websocketRequest :=
  decode_struct ["content"%string] set_request (mkRequest "") payload.
#[global] Arguments UnmarshalRequest : simpl never.

(** ** The guards before the upgrade *)

Inductive handshake := HTTPError (status : Z) (text : string) | Upgrade (userID roomID : string).

(** [user_id] and [room_id] are the query's values. *)
Definition handshake_guard (canAccept : bool) (user_id room_id : string) (ownsRoom : string -> bool)
  : handshake :=
  if negb canAccept then HTTPError 503 (line "message bus is temporarily unavailable")
  else
    let userID := TrimSpace user_id in
    if bool_decide (userID = ""%string) then HTTPError 400 (line "user_id is required")
    else
      let roomID := TrimSpace room_id in
      if bool_decide (roomID = ""%string) then HTTPError 400 (line "room_id is required")
      else if negb (ownsRoom roomID) then HTTPError 421 (line "room is handled by another instance")
      else Upgrade userID roomID.

(** ** One frame *)

(** [reader] is what io.ReadFull delivers: 16 bytes, or its error. *)
Definition newMessageID (reader : result (list Z)) : result string :=
  match reader with
  | Err err => Err err
  | Ok value => Ok (EncodeToString value)
  end.

(** What the statements of one iteration get from outside: the limiter's clock, the
    two readings of [canPublish] and of the random source, the message's clock, the
    result of the bus, and whether an error response is written. *)
Record surroundings := mkSurroundings {
  limiter_now : time; can_publish : bool; random : result (list Z); created_now : time;
  publish_result : option error; written : bool;
}.

(** What an iteration does outside: counters, error responses, publications. *)
Inductive effect :=
  | Received
  | Rejected (reason : string)
  | Reply (response : websocketErrorResponse)
  | Publish (d : Danmaku).

Section handler.
Context `{CaseTable} {F : Type} `{Float F}.
Context (sensitiveFilter : Sensitive.Filter).

(** A rejection with a response; the loop goes on if it was written. *)
Definition reject (e : surroundings) (reason code text : string) : list effect * bool :=
  ([Rejected reason; Reply (mkErrorResponse code text)], written e).

Definition unavailable (e : surroundings) (reason : string) : list effect * bool :=
  reject e reason messageBusUnavailableCode "message queue is temporarily unavailable".

(** The checks of the content, before the limiter. *)
Definition check_content (e : surroundings) (request : websocketRequest) : option (list effect * bool) :=
  if bool_decide (TrimSpace (content request) = ""%string) then
    Some (reject e "empty_content" emptyContentCode "content cannot be empty")
  else if maxContentRunes <? RuneCountInString (content request) then
    Some (reject e "content_too_long" contentTooLongCode "content is too long")
  else if (Sensitive.Match sensitiveFilter (content request)).2 then
    Some (reject e "sensitive_content" sensitiveContentCode "message contains sensitive content")
  else None.

(** From the limiter's permission to the bus. *)
Definition publish_content (userID roomID : string) (e : surroundings) (request : websocketRequest)
  : list effect * bool :=
  if negb (can_publish e) then unavailable e messageBusUnavailableCode
  else match newMessageID (random e) with
  | Err _ => unavailable e "message_id_generation_failed"
  | Ok messageID =>
    let danmaku := mkDanmaku messageID roomID userID (content request) 0 (created_now e) in
    match publish_result e with
    | Some _ =>
      let '(effects, go_on) := unavailable e messageBusUnavailableCode in
      (Publish danmaku :: effects, go_on)
    | None => ([Publish danmaku], true)
    end
  end.

(** One iteration of the read loop on a complete frame: the effects, whether the loop
    goes on, and the limiter. *)
Definition handle_frame (userID roomID : string) (payload : string) (e : surroundings) (l : Limiter F)
  : list effect * bool * Limiter F :=
  match UnmarshalRequest payload with
  | Err _ =>
    (Received :: (reject e "invalid_json" invalidJSONCode "message must be valid JSON").1, false, l)
  | Ok request =>
    match check_content e request with
    | Some (effects, go_on) => (Received :: effects, go_on, l)
    | None =>
      let '(allowed, l) := RateLimit.Allow userID (limiter_now e) l in
      if negb allowed then ([Received; Rejected "rate_limit"], true, l)
      else let '(effects, go_on) := publish_content userID roomID e request in
           (Received :: effects, go_on, l)
    end
  end.

(** The loop over the frames of a connection; it may end before the last one. *)
Fixpoint handle_frames (userID roomID : string) (frames : list (string * surroundings)) (l : Limiter F)
  : list effect * bool * Limiter F :=
  match frames with
  | [] => ([], true, l)
  | (payload, e) :: frames =>
    let '(effects, go_on, l) := handle_frame userID roomID payload e l in
    if go_on : bool then
      let '(rest, go_on, l) := handle_frames userID roomID frames l in (effects ++ rest, go_on, l)
    else (effects, false, l)
  end.

End handler.

(** ** The handshake *)

(** The upgrade happens exactly when the instance is ready, both identifiers are
    present and it owns the trimmed room; the identifiers passed on are trimmed and not
    blank.  The first failing check, in that order, decides the response. *)
Theorem handshake_guard_spec canAccept user_id room_id ownsRoom :
  match handshake_guard canAccept user_id room_id ownsRoom with
  | Upgrade userID roomID =>
      canAccept = true /\ userID = TrimSpace user_id /\ roomID = TrimSpace room_id /\
      ~ blank_string userID /\ ~ blank_string roomID /\ TrimSpace roomID = roomID /\ ownsRoom roomID = true
  | HTTPError status _ =>
      (status = 503%Z /\ canAccept = false) \/
      (status = 400%Z /\ canAccept = true /\ (blank_string user_id \/ blank_string room_id)) \/
      (status = 421%Z /\ canAccept = true /\ ~ blank_string user_id /\ ~ blank_string room_id /\
         ownsRoom (TrimSpace room_id) = false)
  end.
Proof.
  unfold handshake_guard. destruct canAccept; cbn [negb]; [|by auto].
  case_bool_decide as Hu; rewrite TrimSpace_blank in Hu; [right; left; by auto|].
  case_bool_decide as Hr; rewrite TrimSpace_blank in Hr; [right; left; by auto|].
  destruct (ownsRoom (TrimSpace room_id)) eqn:Ho; cbn [negb]; [|right; right; by auto].
  split_and!; try done; try (by rewrite <- TrimSpace_blank, TrimSpace_idemp, TrimSpace_blank).
  apply TrimSpace_idemp.
Qed.

(** ** Message identifiers *)

(** Message identifiers are 32 hexadecimal digits and lose nothing of the 128
    random bits: different random bytes give different identifiers. *)
Theorem newMessageID_injective b1 b2 :
  length b1 = messageIDBytes -> length b2 = messageIDBytes -> Forall is_byte b1 -> Forall is_byte b2 ->
  exists id1 id2, newMessageID (Ok b1) = Ok id1 /\ newMessageID (Ok b2) = Ok id2 /\
    String.length id1 = 32 /\ String.length id2 = 32 /\ (id1 = id2 <-> b1 = b2).
Proof.
  intros H1 H2 Hb1 Hb2. eexists _, _. split; [reflexivity|]. split; [reflexivity|].
  rewrite <- !length_bytes, !EncodeToString_length, H1, H2. split_and!; [done..|].
  split; [|by intros ->]. unfold EncodeToString. intros Heq. apply hex_inj; [done..|].
  assert (Hs : forall l, Forall is_byte l -> Forall is_byte (l ≫= hex_byte)).
  { intros l. induction 1; [constructor|]. apply Forall_app. split; [by apply hex_byte_bytes|done]. }
  by rewrite <- (bytes_str (b1 ≫= hex_byte)), <- (bytes_str (b2 ≫= hex_byte)), Heq by auto.
Qed.

Lemma newMessageID_injective_witness :
  exists id, newMessageID (Ok (replicate 16 171%Z)) = Ok id /\ String.length id = 32.
Proof.
  assert (Hb : Forall is_byte (replicate 16 171%Z)).
  { apply Forall_replicate. unfold is_byte. lia. }
  destruct (newMessageID_injective (replicate 16 171%Z) (replicate 16 171%Z) eq_refl eq_refl Hb Hb)
    as (id & _ & H1 & _ & H2 & _).
  exists id. split; [exact H1|exact H2].
Defined.

(** ** One frame: properties *)

Definition published (effects : list effect) : list Danmaku :=
  omap (fun e => match e with Publish d => Some d | _ => None end) effects.
Definition replies (effects : list effect) : list websocketErrorResponse :=
  omap (fun e => match e with Reply r => Some r | _ => None end) effects.

Section frame.
Context `{CaseTable} {F : Type} `{Float F}.
Context (sensitiveFilter : Sensitive.Filter).

(** A content that the handler accepts. *)
Definition acceptable (request : websocketRequest) : Prop :=
  ~ blank_string (content request) /\ RuneCountInString (content request) <= maxContentRunes /\
  (Sensitive.Match sensitiveFilter (content request)).2 = false.

Lemma check_content_spec e request :
  (check_content sensitiveFilter e request = None /\ acceptable request) \/
  (exists reason code text, check_content sensitiveFilter e request = Some (reject e reason code text) /\
     ~ acceptable request).
Proof.
  unfold check_content, acceptable.
  case_bool_decide as Hb; rewrite TrimSpace_blank in Hb.
  { right. eexists _, _, _. split; [done|]. tauto. }
  destruct (Nat.ltb_spec maxContentRunes (RuneCountInString (content request))).
  { right. eexists _, _, _. split; [done|]. lia. }
  destruct (Sensitive.Match sensitiveFilter (content request)).2; [right|left; auto].
  eexists _, _, _. split; [done|]. by intros (_ & _ & ?).
Qed.

(** The message a frame would become. *)
Definition danmaku_of (userID roomID : string) (e : surroundings) (request : websocketRequest)
  : option Danmaku :=
  match random e with
  | Ok value => Some (mkDanmaku (EncodeToString value) roomID userID (content request) 0 (created_now e))
  | Err _ => None
  end.

Lemma publish_content_spec userID roomID e request :
  published (publish_content userID roomID e request).1 =
    (if can_publish e then option_list (danmaku_of userID roomID e request) else []) /\
  length (replies (publish_content userID roomID e request).1) =
    (if can_publish e then
       match danmaku_of userID roomID e request, publish_result e with Some _, None => 0 | _, _ => 1 end
     else 1) /\
  ((publish_content userID roomID e request).2 = false -> written e = false).
Proof.
  unfold publish_content, danmaku_of. destruct (can_publish e); cbn; [|done].
  destruct (random e) as [value|err]; cbn; [|done]. by destruct (publish_result e).
Qed.

(** The frame's way to the bus: all checks passed. *)
Definition passes (userID : string) (payload : string) (e : surroundings) (l : Limiter F)
  (request : websocketRequest) : Prop :=
  UnmarshalRequest payload = Ok request /\ acceptable request /\
  (RateLimit.Allow userID (limiter_now e) l).1 = true /\ can_publish e = true.

Lemma handle_frame_published userID roomID payload e l d :
  d ∈ published (handle_frame sensitiveFilter userID roomID payload e l).1.1 <->
  exists request, passes userID payload e l request /\ danmaku_of userID roomID e request = Some d.
Proof.
  unfold handle_frame, passes. destruct (UnmarshalRequest payload) as [request|err].
  2: { split; [by intros ?%elem_of_nil|naive_solver]. }
  destruct (check_content_spec e request) as [[-> Ha]|(reason & code & text & -> & Ha)].
  2: { split; [by intros ?%elem_of_nil|naive_solver]. }
  destruct (RateLimit.Allow userID (limiter_now e) l) as [[|] l'] eqn:Hal; cbn [negb].
  2: { split; [by intros ?%elem_of_nil|naive_solver]. }
  pose proof (publish_content_spec userID roomID e request) as [Hp _].
  destruct (publish_content userID roomID e request) as [effects go_on]. cbn [fst] in *.
  change (published (Received :: effects)) with (published effects). rewrite Hp.
  destruct (can_publish e).
  - destruct (danmaku_of userID roomID e request) as [d'|] eqn:Hd; cbn.
    + rewrite list_elem_of_singleton. split; [intros ->; by eauto 10|naive_solver congruence].
    + split; [by intros ?%elem_of_nil|]. naive_solver congruence.
  - split; [by intros ?%elem_of_nil|naive_solver].
Qed.

(** A frame that passes is published, once. *)
Lemma handle_frame_published_once userID roomID payload e l request d :
  passes userID payload e l request -> danmaku_of userID roomID e request = Some d ->
  published (handle_frame sensitiveFilter userID roomID payload e l).1.1 = [d].
Proof.
  intros (Hun & Ha & Hal & Hcan) Hd. unfold handle_frame. rewrite Hun.
  destruct (check_content_spec e request) as [[-> _]|(reason & code & text & _ & Hno)]; [|done].
  destruct (RateLimit.Allow userID (limiter_now e) l) as [allowed l']. cbn in Hal. subst allowed. cbn [negb].
  pose proof (publish_content_spec userID roomID e request) as [Hp _]. rewrite Hcan, Hd in Hp.
  destruct (publish_content userID roomID e request) as [effs go_on]. exact Hp.
Qed.

(** A danmaku made of a frame that is not blank is valid. *)
Lemma danmaku_of_valid userID roomID e request d :
  ~ blank_string userID -> ~ blank_string roomID -> created_now e <> time_zero ->
  (forall value, random e = Ok value -> length value = messageIDBytes /\ Forall is_byte value) ->
  ~ blank_string (content request) -> danmaku_of userID roomID e request = Some d -> Validate d = None.
Proof.
  intros Hu Hr Ht Hlen Hc Hd. unfold danmaku_of in Hd. destruct (random e) as [value|] eqn:Hv; [|done].
  injection Hd as <-. apply Validate_well_formed. split_and!; try done.
  cbn. destruct (Hlen value eq_refl) as [Hl Hbytes]. intros ->%hex_not_blank; done.
Qed.

End frame.

(** C13: what reaches the bus.  A frame's danmaku is published exactly when the payload
    decodes, its content is not blank, has at most 500 runes and no sensitive word, the
    user has a token, the instance may publish and an identifier could be made; it then
    carries the connection's room and user, and the content unchanged.  Whatever is
    published is valid for every consumer, so a gateway never writes a message that the
    consumers would have to skip. *)
Theorem handle_frame_publishes `{CaseTable} {F} `{Float F} filter userID roomID payload e (l : Limiter F) d :
  ~ blank_string userID -> ~ blank_string roomID -> created_now e <> time_zero ->
  (forall value, random e = Ok value -> length value = messageIDBytes /\ Forall is_byte value) ->
  (d ∈ published (handle_frame filter userID roomID payload e l).1.1 <->
   exists request value, UnmarshalRequest payload = Ok request /\
     ~ blank_string (content request) /\ RuneCountInString (content request) <= 500 /\
     (Sensitive.Match filter (content request)).2 = false /\
     (RateLimit.Allow userID (limiter_now e) l).1 = true /\ can_publish e = true /\
     random e = Ok value /\
     d = mkDanmaku (EncodeToString value) roomID userID (content request) 0 (created_now e)) /\
  (d ∈ published (handle_frame filter userID roomID payload e l).1.1 -> Validate d = None).
Proof.
  intros Hu Hr Ht Hlen. rewrite handle_frame_published. unfold passes, acceptable, danmaku_of.
  change maxContentRunes with 500. split.
  - split.
    + intros (request & (? & (? & ? & ?) & ? & ?) & Hd). destruct (random e) as [value|]; [|done].
      injection Hd as <-. exists request, value. done.
    + intros (request & value & ? & ? & ? & ? & ? & ? & -> & ->). exists request. done.
  - intros (request & (_ & (Hb & _) & _) & Hd). exact (danmaku_of_valid _ _ _ _ _ Hu Hr Ht Hlen Hb Hd).
Qed.

Definition sample_payload : string := encode_struct [("content", encode_text "hello")]%string.
Definition sample_frame : surroundings :=
  mkSurroundings 1000%Z true (Ok (replicate 16 171%Z)) 1000%Z None true.
Definition sample_limiter : Limiter SpecFloat.spec_float :=
  match @RateLimit.New _ binary64 (@of_int _ binary64 5) 10 with
  | Ok l => l
  | Err _ => mkLimiter ∅ (@of_int _ binary64 0) (@of_int _ binary64 0)
  end.

Lemma handle_frame_publishes_witness :
  exists d, d ∈ published (handle_frame (H := Sensitive.ascii_cases) (H0 := binary64)
      (Sensitive.New (H := Sensitive.ascii_cases) ["scam"%string]) "alice" "lobby" sample_payload sample_frame sample_limiter).1.1 /\
    RoomID d = "lobby"%string /\ Validate d = None.
Proof.
  destruct (handle_frame_publishes (H := Sensitive.ascii_cases) (H0 := binary64)
    (Sensitive.New (H := Sensitive.ascii_cases) ["scam"%string]) "alice" "lobby" sample_payload sample_frame sample_limiter
    (mkDanmaku (EncodeToString (replicate 16 171%Z)) "lobby" "alice" "hello" 0 1000%Z)) as [Hiff Hvalid].
  - rewrite <- is_blank_false. vm_compute. reflexivity.
  - rewrite <- is_blank_false. vm_compute. reflexivity.
  - done.
  - intros value [= <-]. split; [done|]. unfold is_byte. repeat constructor; lia.
  - eexists. split; [|split; [|apply Hvalid]].
    2: reflexivity.
    all: apply Hiff; exists (mkRequest "hello"), (replicate 16 171%Z).
    all: split_and!; try reflexivity.
    all: try (rewrite <- is_blank_false; vm_compute; reflexivity).
    all: vm_compute; lia || reflexivity.
Defined.

(** The discipline of the read loop.  A frame is published at most once and answered
    at most once; the loop ends only on a payload that does not decode or when an error
    response could not be written; a frame rejected for its payload or content costs the
    user no token; and a frame that is neither published nor answered was over the rate
    limit. *)
Theorem handle_frame_discipline `{CaseTable} {F} `{Float F} filter userID roomID payload e (l : Limiter F) :
  let '(effects, go_on, l') := handle_frame filter userID roomID payload e l in
  length (published effects) <= 1 /\ length (replies effects) <= 1 /\
  (go_on = false -> is_ok (UnmarshalRequest payload) = false \/ written e = false) /\
  (l' = l \/ exists request, UnmarshalRequest payload = Ok request /\ acceptable filter request) /\
  (published effects = [] -> replies effects = [] -> (RateLimit.Allow userID (limiter_now e) l).1 = false).
Proof.
  unfold handle_frame. destruct (UnmarshalRequest payload) as [request|err] eqn:Hun.
  2: { cbn. split_and!; try done; auto. }
  destruct (check_content_spec filter e request) as [[-> Ha]|(reason & code & text & -> & Ha)].
  2: { cbn. split_and!; try done; auto. }
  destruct (RateLimit.Allow userID (limiter_now e) l) as [[|] l'] eqn:Hal; cbn [negb].
  2: { cbn. split_and!; try done; eauto. }
  pose proof (publish_content_spec userID roomID e request) as (Hp & Hr & Hg).
  destruct (publish_content userID roomID e request) as [effects go_on]. cbn [fst snd] in *.
  change (published (Received :: effects)) with (published effects).
  change (replies (Received :: effects)) with (replies effects). rewrite Hp, Hr.
  split_and!; [..|by eauto|by eauto|].
  - destruct (can_publish e), (danmaku_of userID roomID e request); cbn; lia.
  - destruct (can_publish e), (danmaku_of userID roomID e request), (publish_result e); lia.
  - intros Hp0 Hr0. exfalso. rewrite Hr0 in Hr.
    by destruct (can_publish e), (danmaku_of userID roomID e request), (publish_result e).
Qed.

(** The instants at which a session's frames ask the limiter. *)
Definition asked `{CaseTable} (filter : Sensitive.Filter)
  (frames : list (string * surroundings)) : list time :=
  omap (fun '(payload, e) => match UnmarshalRequest payload with
    | Ok request => match check_content filter e request with None => Some (limiter_now e) | Some _ => None end
    | Err _ => None end) frames.

Lemma published_app e1 e2 : published (e1 ++ e2) = published e1 ++ published e2.
Proof. apply omap_app. Qed.

(** One frame costs what it publishes. *)
Lemma handle_frame_tokens `{CaseTable} {F} `{Float F} filter userID roomID payload e (l : Limiter F) :
  let '(effects, _, l') := handle_frame filter userID roomID payload e l in
  let '(answers, l1) := RateLimit.Allow_all userID (asked filter [(payload, e)]) l in
  l' = l1 /\ length (published effects) <= granted answers.
Proof.
  unfold handle_frame, asked. cbn. destruct (UnmarshalRequest payload) as [request|err]; [|done].
  destruct (check_content_spec filter e request) as [[-> _]|(reason & code & text & -> & _)]; [|done].
  cbn. destruct (RateLimit.Allow userID (limiter_now e) l) as [[|] l'] eqn:Hal; cbn [negb]; [|done].
  pose proof (publish_content_spec userID roomID e request) as (Hp & _).
  destruct (publish_content userID roomID e request) as [effects go_on]. cbn [fst] in Hp.
  change (published (Received :: effects)) with (published effects). rewrite Hp. split; [done|].
  destruct (can_publish e), (danmaku_of userID roomID e request); cbn; lia.
Qed.

(** A connection publishes at most as many messages as the user's token bucket
    grants at the instants at which it was asked, in any session. *)
Theorem session_rate_limited `{CaseTable} {F} `{Float F} filter userID roomID frames (l : Limiter F) :
  length (published (handle_frames filter userID roomID frames l).1.1) <=
  granted (RateLimit.Allow_all userID (asked filter frames) l).1.
Proof.
  revert l. induction frames as [|[payload e] frames IH]; intros l; [done|].
  cbn [handle_frames]. pose proof (handle_frame_tokens filter userID roomID payload e l) as Hf.
  change ((payload, e) :: frames) with ([(payload, e)] ++ frames).
  assert (Happ : asked filter ([(payload, e)] ++ frames) =
                 asked filter [(payload, e)] ++ asked filter frames) by apply omap_app.
  rewrite Happ, Allow_all_app. clear Happ.
  destruct (handle_frame filter userID roomID payload e l) as [[effects go_on] l1].
  destruct (RateLimit.Allow_all userID (asked filter [(payload, e)]) l) as [answers l2].
  destruct Hf as [<- Hf]. specialize (IH l1).
  destruct (RateLimit.Allow_all userID (asked filter frames) l1) as [answers' l3].
  assert (Hg : granted (answers ++ answers') = granted answers + granted answers').
  { unfold granted, count_if. by rewrite List.filter_app, length_app. }
  destruct go_on; cbn [fst] in *; [|rewrite Hg; lia].
  destruct (handle_frames filter userID roomID frames l1) as [[rest go_on] l4].
  cbn [fst] in *. rewrite published_app, length_app, Hg. lia.
Qed.

End WebSocket.
