(* ===== verification/Connect.v ===== *)
(** * Establishing a connection (internal/httpserver/websocket.go, lines 193-201 and 221-295)

    The handler from the request to the established connection, or to its refusal, as one
    function: guards, upgrade, room, membership, table, second look at the ownership, and
    the undoing of each on failure.  What other goroutines do in between is in file
    Handshake; here the results they can cause are arguments. *)

From S2P Require Import Prelude.
From S2P Require Import Utf8.
From S2P Require Import GoStrings.
From S2P Require Import GoChan.
From S2P Require Import Room.
From S2P Require Import RoomRegistry.
From S2P Require Import Broadcast.
From S2P Require Import Connections.
From S2P Require Import WebSocket.

Module Connect.
Import Registry Connections WebSocket.

(** What the handler reads of the bus: the revision and the ownership of the room, before
    the upgrade and after the registration; and whether the upgrade succeeds. *)
Record readings := mkReadings {
  can_accept : bool; first_revision : Z; owns_room : string -> bool; upgrades : bool;
  second_revision : Z; still_owns : string -> bool;
}.

(** [Closed]: the upgraded connection is closed again, with a 1012 close frame that gives
    the reason, or without one. *)
Inductive outcome_of_request :=
  | Refused (status : Z) (text : string)
  | UpgradeFailed
  | Closed (restart_reason : option string)
  | Established (room : ptr) (client : Room.Client).

Definition connect (e : readings) (user_id room_id : string) (c : conn) (w : world) (t : websocketConnections)
  : outcome (outcome_of_request * world * websocketConnections) :=
  match handshake_guard (can_accept e) user_id room_id (owns_room e) with
  | HTTPError status text => Returns (Refused status text, w, t)
  | Upgrade userID roomID =>
    if negb (upgrades e) then Returns (UpgradeFailed, w, t)
    else match GetOrCreate roomID w with
    | (Err _, w) => Returns (Closed None, w, t)
    | (Ok chatRoom, w) =>
      '(joined, w) ← join_at chatRoom userID w;
      match joined with
      | Err _ => Returns (Closed None, w, t)
      | Ok client =>
        let '(added, t) := add c t in
        if negb added then
          '(_, w) ← leave_at chatRoom userID w;
          Returns (Closed (Some "service is restarting"%string), w, t)
        else if negb (second_revision e =? first_revision e)%Z || negb (still_owns e roomID) then
          let t := remove c t in
          '(_, w) ← leave_at chatRoom userID w;
          Returns (Closed (Some "room ownership changed"%string), w, t)
        else Returns (Established chatRoom client, w, t)
      end
    end
  end.

(** ** Lemmas *)

(** The members of the room at an address; a room that is not there has none. *)
Definition members (w : world) (p : ptr) : gmap string Room.Client :=
  match store w !! p with Some (r, _) => Room.clients r | None => ∅ end.

Lemma GetOrCreate_members id w res w' :
  world_inv w -> GetOrCreate id w = (res, w') -> forall p, members w' p = members w p.
Proof.
  intros Hw HG p. destruct (GetOrCreate_cases id w) as [[_ He]|[(_ & q & _ & He)|(_ & _ & He)]];
    rewrite He in HG; simplify_eq; [done..|]. unfold members. cbn.
  destruct (decide (p = next_room w)) as [->|]; [|by rewrite lookup_insert_ne].
  rewrite lookup_insert_eq. destruct (store w !! next_room w) eqn:Hs; [|done].
  pose proof (inv_next _ Hw _ (mk_is_Some _ _ Hs)). lia.
Qed.

Lemma GetOrCreate_some id w :
  world_inv w -> ~ blank_string id -> exists p w' r h, GetOrCreate id w = (Ok p, w') /\ world_inv w' /\
    store w' !! p = Some (r, h) /\ Room.room_inv r h /\ rooms w' !! TrimSpace id = Some p.
Proof.
  intros Hw Hb. destruct (GetOrCreate id w) as [res w'] eqn:HG.
  pose proof (GetOrCreate_inv _ _ _ _ Hw HG) as Hw'.
  destruct (GetOrCreate_cases id w) as [[? _]|[(_ & q & Hq & He)|(_ & _ & He)]]; [done|..];
    rewrite He in HG; simplify_eq.
  - destruct (inv_keys _ Hw' _ _ Hq) as (_ & _ & [[r h] Hs]). exists q, w', r, h. split_and!; try done.
    by eapply inv_rooms.
  - eexists _, _, Room.New, (Room.mkHeap ∅ 0). split_and!; [reflexivity|done|cbn; by rewrite lookup_insert_eq| |].
    + apply New_inv.
    + cbn. by rewrite lookup_insert_eq.
Qed.

(** The three results of Join. *)
Lemma Join_cases id r h :
  (exists err, Room.Join id r h = (Err err, r, h)) \/
  (exists client h', Room.Join id r h = (Ok client, Room.mkRoom (<[id := client]> (Room.clients r)) (Room.sequence r), h') /\
     Room.clients r !! id = None).
Proof.
  unfold Room.Join, Room.alloc_chan. destruct (is_blank id) eqn:Hb.
  { left. by eexists. }
  destruct (Room.clients r !! id) as [c|] eqn:Hc; [left|right]; eexists; eauto.
Qed.

(** Leaving right after joining restores the members. *)
Lemma leave_after_join w p r h id client h' :
  world_inv w -> store w !! p = Some (r, h) -> Room.clients r !! id = None ->
  Room.Join id r h = (Ok client, Room.mkRoom (<[id := client]> (Room.clients r)) (Room.sequence r), h') ->
  let w1 := mkWorld (rooms w) (<[p := (Room.mkRoom (<[id := client]> (Room.clients r)) (Room.sequence r), h')]> (store w))
              (next_room w) in
  exists err w2, leave_at p id w1 = Returns (err, w2) /\ world_inv w2 /\ rooms w2 = rooms w /\
    (forall q, members w2 q = members w q).
Proof.
  intros Hw Hs Hn HJ w1.
  assert (Hr1 : Room.room_inv (Room.mkRoom (<[id := client]> (Room.clients r)) (Room.sequence r)) h')
    by (eapply Room.Join_inv; [by eapply (inv_rooms _ Hw)|exact HJ]).
  unfold leave_at, at_room, w1. cbn [store]. rewrite lookup_insert_eq.
  destruct (Room.Leave_cases id _ _ Hr1) as [[Hno _]|(c0 & ch & Hc0 & Hch & He)].
  { cbn in Hno. by rewrite lookup_insert_eq in Hno. }
  rewrite He. cbn. eexists _, _. split; [reflexivity|]. split_and!.
  - rewrite insert_insert_eq. eapply store_update_inv; [done|exact Hs|]. by eapply Room.Leave_inv.
  - done.
  - intros q. unfold members. cbn. rewrite insert_insert_eq.
    destruct (decide (q = p)) as [->|]; [|by rewrite lookup_insert_ne].
    rewrite lookup_insert_eq, Hs. cbn. rewrite delete_insert_eq, delete_id by done. done.
Qed.

(** ** The theorem *)

(** C21: a refused connection leaves no trace.  The handler never panics; whatever makes
    it refuse, readiness, identifiers, ownership, a failed upgrade, a taken user
    identifier, a shutdown that has begun or an ownership that changed meanwhile, every
    room has the members it had and the table the connections it had.  Only when nothing
    failed is the connection established: then the user is a new member of the room of the
    trimmed identifier, which is owned under an unchanged revision, and in the table of an
    instance that is not shutting down. *)
Theorem connect_leaves_no_trace e user_id room_id c w t :
  world_inv w -> c ∉ items t ->
  exists result w' t', connect e user_id room_id c w t = Returns (result, w', t') /\ world_inv w' /\
    closing t' = closing t /\
    match result with
    | Established p client =>
        closing t = false /\ items t' = {[ c ]} ∪ items t /\ Room.ID client = TrimSpace user_id /\
        rooms w' !! TrimSpace room_id = Some p /\
        members w p !! TrimSpace user_id = None /\ members w' p = <[TrimSpace user_id := client]> (members w p) /\
        (forall q, q <> p -> members w' q = members w q) /\
        second_revision e = first_revision e /\ still_owns e (TrimSpace room_id) = true
    | _ => items t' = items t /\ forall q, members w' q = members w q
    end.
Proof.
  intros Hw Hc. unfold connect.
  destruct (handshake_guard (can_accept e) user_id room_id (owns_room e)) as [status text|userID roomID] eqn:Hg.
  { eexists _, w, t. by split_and!. }
  destruct (upgrades e); cbn [negb]; [|eexists _, w, t; by split_and!].
  assert (Hids : userID = TrimSpace user_id /\ roomID = TrimSpace room_id /\ ~ blank_string roomID /\ TrimSpace roomID = roomID).
  { unfold handshake_guard in Hg. destruct (can_accept e); [|done]. cbn in Hg.
    case_bool_decide; [done|]. case_bool_decide as Hr; [done|]. destruct (owns_room e _); [|done]. cbn in Hg.
    injection Hg as <- <-. split_and!; [done|done| |apply TrimSpace_idemp].
    by rewrite <- TrimSpace_blank, TrimSpace_idemp. }
  destruct Hids as (-> & -> & Hb & Hid).
  destruct (GetOrCreate_some (TrimSpace room_id) w Hw Hb) as (p & w1 & r & h & HG & Hw1 & Hs & Hr & Hp).
  pose proof (GetOrCreate_members _ _ _ _ Hw HG) as Hm. rewrite Hid in Hp. rewrite HG.
  assert (Hmp : members w p = Room.clients r) by (by rewrite <- Hm; unfold members; rewrite Hs).
  unfold join_at, at_room. rewrite Hs.
  destruct (Join_cases (TrimSpace user_id) r h) as [(err & HJ)|(client & h' & HJ & Hn)]; rewrite HJ; cbn [mbind outcome_bind].
  { eexists _, _, t. split; [reflexivity|]. rewrite insert_id by done. destruct w1. by split_and!. }
  set (w2 := mkWorld _ _ _).
  assert (Hw2 : world_inv w2).
  { eapply store_update_inv; [done|exact Hs|]. by eapply Room.Join_inv. }
  destruct (leave_after_join w1 p r h _ client h' Hw1 Hs Hn HJ) as (err & w3 & HL & Hw3 & _ & Hm3).
  fold w2 in HL. unfold add. destruct (closing t) eqn:Hcl; cbn [negb].
  { rewrite HL. cbn. eexists _, w3, t. split; [reflexivity|]. split_and!; try done. intros q. by rewrite Hm3, Hm. }
  destruct (negb (second_revision e =? first_revision e)%Z || negb (still_owns e (TrimSpace room_id))) eqn:Hre.
  { rewrite HL. cbn. eexists _, w3, _. split; [reflexivity|]. split_and!; try done.
    - cbn. apply leibniz_equiv. set_solver.
    - intros q. by rewrite Hm3, Hm. }
  apply orb_false_iff in Hre as [Hrev%negb_false_iff%Z.eqb_eq Hown%negb_false_iff].
  eexists _, w2, _. split; [reflexivity|]. split_and!; try done.
  - unfold Room.Join, Room.alloc_chan in HJ. destruct (is_blank _); [done|]. rewrite Hn in HJ. by injection HJ as <- _ _.
  - by rewrite Hmp.
  - unfold members at 1. cbn. by rewrite lookup_insert_eq, Hmp.
  - intros q Hq. unfold members at 1. cbn. rewrite lookup_insert_ne by done. apply Hm.
Qed.

(** Alice is connected already: her second connection is closed, the first stays. *)
Definition ready : readings := mkReadings true 4 (fun _ => true) true 4 (fun _ => true).

Lemma connect_leaves_no_trace_witness :
  exists w' t', connect ready "alice" " lobby" 7 Broadcast.sample_world newWebSocketConnections
    = Returns (Closed None, w', t') /\
  world_inv w' /\ members w' 0 = members Broadcast.sample_world 0.
Proof.
  destruct (connect_leaves_no_trace ready "alice" " lobby" 7 Broadcast.sample_world newWebSocketConnections
    Broadcast.sample_world_inv (not_elem_of_empty 7)) as (result & w' & t' & Hc & Hw & _ & Hm).
  assert (Hres : result = Closed None).
  { apply (f_equal (fun o => match o with Returns (result, _, _) => Some result | Panics _ => None end)) in Hc.
    vm_compute in Hc. congruence. }
  subst result. exists w', t'. split; [exact Hc|]. split; [exact Hw|]. apply Hm.
Defined.

(** A user who was not there joins. *)
Lemma connect_establishes : exists client w' t',
  connect ready "bob" " lobby" 7 Broadcast.sample_world newWebSocketConnections
    = Returns (Established 0 client, w', t').
Proof. do 3 eexists. vm_compute. reflexivity. Qed.

End Connect.
