(* ===== verification/Session.v ===== *)
(** * An established connection (internal/httpserver/websocket.go lines 293-434, 550)

    After the handshake three goroutines share a connection: the handler, which reads
    frames, the writer, the only one that writes data frames, and the heartbeat.  They
    talk through the client's message channel, the channel [protocolErrors] with a fresh
    [done] channel per error, and the channels [heartbeatDone] and [writeDone] that are
    closed at the end.  Their steps interleave with each other, with everything the
    other clients do to the room, and with bulk closes.

    Gorilla's connection is a parameter: a read yields a frame or an error, and, as its
    documentation says, repeats that error ever after; a write may fail, and does so once
    the connection is closed, and once a close frame has been sent (ErrCloseSent). *)

From S2P Require Import Prelude.
From S2P Require Import GoStrings.
From S2P Require Import GoChan.
From S2P Require Import Room.
From S2P Require Import Sensitive.
From S2P Require Import RateLimit.
From S2P Require Import Connections.
From S2P Require Import WebSocket.

Module Session.
Import Connections.
Import WebSocket.

Record websocketResponse := mkResponse { Sequence : Z; Content : string }.
Definition response_of (m : Room.Message) : websocketResponse :=
  mkResponse (Room.Sequence m) (Room.Content m).

(** [done] is the address of the error's own channel. *)
Record protocolError := mkProtocolError { response : websocketErrorResponse; done : nat }.

(** The two classes of errors of ReadMessage that the handler tells apart. *)
Inductive read_error := ErrReadLimit | OtherReadError.

#[export] Instance read_error_eq_dec : EqDecision read_error.
Proof. solve_decision. Defined.

(** Where the handler stands: reading; discarding input after ErrReadLimit; in
    queueProtocolError, before its first and its second select, [last] telling that the
    caller returns in any case; then the deferred calls, last first. *)
Inductive reader_pc :=
  | RRead | RDrain
  | RQueue (r : websocketErrorResponse) (last : bool) | RAwait (done : nat) (last : bool)
  | RHeartbeat | RLeave | RClose | RWait | RDec | RRemove | RCloseAgain | RGone.

(** The writer: selecting, writing, answering on a [done] channel, in its deferred call. *)
Inductive writer_pc :=
  | WSelect | WMessage (m : Room.Message) | WError (p : protocolError)
  | WAck (done : nat) (err : option error) | WDone | WGone.

Inductive heart_pc := HRun | HGone.

(** A data frame on the wire. *)
Inductive frame := FMessage (r : websocketResponse) | FError (r : websocketErrorResponse).

#[export] Instance response_eq_dec : EqDecision websocketResponse.
Proof. solve_decision. Defined.
#[export] Instance error_response_eq_dec : EqDecision websocketErrorResponse.
Proof. solve_decision. Defined.
#[export] Instance frame_eq_dec : EqDecision frame.
Proof. solve_decision. Defined.
#[export] Instance reader_pc_eq_dec : EqDecision reader_pc.
Proof. solve_decision. Defined.

(** [gauge] is what the connection contributes to WebSocketConnections; [write_shut] that
    gorilla accepts no frame any more although the socket is open (a close frame has gone
    out, or a write has failed for good); [failed] the error reads return from now on;
    [wire] and [effects] are histories. *)
Record session := mkSession {
  sys : Room.sys;
  table : websocketConnections;
  gauge : Z;
  is_open : bool;
  write_shut : bool;
  failed : option read_error;
  protocolErrors : chan protocolError;
  dones : list (chan (option error));
  heartbeatDone : chan unit;
  writeDone : chan unit;
  reader : reader_pc;
  writer : writer_pc;
  heart : heart_pc;
  wire : list frame;
  effects : list effect;
}.

Definition set_sys (x : Room.sys) (s : session) : session :=
  mkSession x (table s) (gauge s) (is_open s) (write_shut s) (failed s) (protocolErrors s)
    (dones s) (heartbeatDone s) (writeDone s) (reader s) (writer s) (heart s) (wire s) (effects s).
Definition set_table (x : websocketConnections) (s : session) : session :=
  mkSession (sys s) x (gauge s) (is_open s) (write_shut s) (failed s) (protocolErrors s) (dones s)
    (heartbeatDone s) (writeDone s) (reader s) (writer s) (heart s) (wire s) (effects s).
Definition set_gauge (x : Z) (s : session) : session :=
  mkSession (sys s) (table s) x (is_open s) (write_shut s) (failed s) (protocolErrors s) (dones s)
    (heartbeatDone s) (writeDone s) (reader s) (writer s) (heart s) (wire s) (effects s).
Definition set_is_open (x : bool) (s : session) : session :=
  mkSession (sys s) (table s) (gauge s) x (write_shut s) (failed s) (protocolErrors s) (dones s)
    (heartbeatDone s) (writeDone s) (reader s) (writer s) (heart s) (wire s) (effects s).
Definition set_write_shut (x : bool) (s : session) : session :=
  mkSession (sys s) (table s) (gauge s) (is_open s) x (failed s) (protocolErrors s) (dones s)
    (heartbeatDone s) (writeDone s) (reader s) (writer s) (heart s) (wire s) (effects s).
Definition set_failed (x : option read_error) (s : session) : session :=
  mkSession (sys s) (table s) (gauge s) (is_open s) (write_shut s) x (protocolErrors s) (dones s)
    (heartbeatDone s) (writeDone s) (reader s) (writer s) (heart s) (wire s) (effects s).
Definition set_protocolErrors (x : chan protocolError) (s : session) : session :=
  mkSession (sys s) (table s) (gauge s) (is_open s) (write_shut s) (failed s) x (dones s)
    (heartbeatDone s) (writeDone s) (reader s) (writer s) (heart s) (wire s) (effects s).
Definition set_dones (x : list (chan (option error))) (s : session) : session :=
  mkSession (sys s) (table s) (gauge s) (is_open s) (write_shut s) (failed s) (protocolErrors s) x
    (heartbeatDone s) (writeDone s) (reader s) (writer s) (heart s) (wire s) (effects s).
Definition set_heartbeatDone (x : chan unit) (s : session) : session :=
  mkSession (sys s) (table s) (gauge s) (is_open s) (write_shut s) (failed s) (protocolErrors s)
    (dones s) x (writeDone s) (reader s) (writer s) (heart s) (wire s) (effects s).
Definition set_writeDone (x : chan unit) (s : session) : session :=
  mkSession (sys s) (table s) (gauge s) (is_open s) (write_shut s) (failed s) (protocolErrors s)
    (dones s) (heartbeatDone s) x (reader s) (writer s) (heart s) (wire s) (effects s).
Definition set_reader (x : reader_pc) (s : session) : session :=
  mkSession (sys s) (table s) (gauge s) (is_open s) (write_shut s) (failed s) (protocolErrors s)
    (dones s) (heartbeatDone s) (writeDone s) x (writer s) (heart s) (wire s) (effects s).
Definition set_writer (x : writer_pc) (s : session) : session :=
  mkSession (sys s) (table s) (gauge s) (is_open s) (write_shut s) (failed s) (protocolErrors s)
    (dones s) (heartbeatDone s) (writeDone s) (reader s) x (heart s) (wire s) (effects s).
Definition set_heart (x : heart_pc) (s : session) : session :=
  mkSession (sys s) (table s) (gauge s) (is_open s) (write_shut s) (failed s) (protocolErrors s)
    (dones s) (heartbeatDone s) (writeDone s) (reader s) (writer s) x (wire s) (effects s).
Definition set_wire (x : list frame) (s : session) : session :=
  mkSession (sys s) (table s) (gauge s) (is_open s) (write_shut s) (failed s) (protocolErrors s)
    (dones s) (heartbeatDone s) (writeDone s) (reader s) (writer s) (heart s) x (effects s).
Definition set_effects (x : list effect) (s : session) : session :=
  mkSession (sys s) (table s) (gauge s) (is_open s) (write_shut s) (failed s) (protocolErrors s)
    (dones s) (heartbeatDone s) (writeDone s) (reader s) (writer s) (heart s) (wire s) x.

(** A write may succeed. *)
Definition writable (s : session) : bool := is_open s && negb (write_shut s).

Section session.
Context `{CaseTable} {F : Type} `{Float F}.
Context (sensitiveFilter : Sensitive.Filter) (userID roomID : string).
(** The connection, and the address of the client's message channel. *)
Context (c : conn) (l : nat).

(** ** The handler *)

Inductive read_choice :=
  | ReadFrame (payload : string) (e : surroundings) (limiter : Limiter F)
  | ReadFails (err : read_error)
  | Proceed
  | GiveUp.

(** A frame is handled up to queueProtocolError, whose result comes later. *)
Definition assume_written (e : surroundings) : surroundings :=
  mkSurroundings (limiter_now e) (can_publish e) (random e) (created_now e) (publish_result e) true.

Definition after_frame (effs : list effect) (go_on : bool) : reader_pc :=
  match replies effs with r :: _ => RQueue r (negb go_on) | [] => RRead end.

Definition readMessage_fails (err : read_error) (s : session) : option session :=
  if bool_decide (failed s = None \/ failed s = Some err) then Some (set_failed (Some err) s) else None.

Definition reader_step (ch : read_choice) (s : session) : option (outcome session) :=
  match reader s, ch with
  | RRead, ReadFrame payload e limiter =>
    match failed s with
    | Some _ => None
    | None =>
      let '(effs, go_on, _) := handle_frame sensitiveFilter userID roomID payload (assume_written e) limiter in
      Some (Returns (set_reader (after_frame effs go_on) (set_effects (effects s ++ effs) s)))
    end
  | RRead, ReadFails err =>
    s ← readMessage_fails err s;
    Some (Returns (match err with
      | ErrReadLimit => set_reader RDrain (set_effects (effects s ++ [Rejected "frame_too_large"]) s)
      | OtherReadError => set_reader RHeartbeat s
      end))
  | RDrain, ReadFrame _ _ _ => match failed s with Some _ => None | None => Some (Returns s) end
  | RDrain, ReadFails err => s ← readMessage_fails err s; Some (Returns (set_reader RHeartbeat s))
  | RQueue r last, Proceed =>
    let t := length (dones s) in
    sent ← send (protocolErrors s) (mkProtocolError r t);
    Some (errs ← sent;
      Returns (set_reader (RAwait t last) (set_protocolErrors errs (set_dones (dones s ++ [make_chan 1]) s))))
  | RAwait t last, Proceed =>
    d ← dones s !! t; '(v, d) ← recv d;
    let s := set_dones (<[t := d]> (dones s)) s in
    match v with
    | Some None => Some (Returns (set_reader (if last : bool then RHeartbeat else RRead) s))
    | _ => Some (Returns (set_reader RHeartbeat s))
    end
  | (RQueue _ _ | RAwait _ _), GiveUp =>
    '(_, d) ← recv (writeDone s); Some (Returns (set_reader RHeartbeat (set_writeDone d s)))
  | RHeartbeat, Proceed =>
    Some (d ← close (heartbeatDone s); Returns (set_reader RLeave (set_heartbeatDone d s)))
  | RLeave, Proceed =>
    let room := sys s in
    Some ('(_, r, h) ← Room.Leave userID (Room.s_room room) (Room.s_heap room);
      Returns (set_reader RClose (set_sys (Room.mkSys r h (Room.s_log room) (Room.s_got room)) s)))
  | RClose, Proceed => Some (Returns (set_reader RWait (set_is_open false s)))
  | RWait, Proceed =>
    '(_, d) ← recv (writeDone s); Some (Returns (set_reader RDec (set_writeDone d s)))
  | RDec, Proceed => Some (Returns (set_reader RRemove (set_gauge (gauge s - 1)%Z s)))
  | RRemove, Proceed => Some (Returns (set_reader RCloseAgain (set_table (remove c (table s)) s)))
  | RCloseAgain, Proceed => Some (Returns (set_reader RGone (set_is_open false s)))
  | _, _ => None
  end.

(** ** The writer and the heartbeat *)

Inductive write_choice := TakeMessage | TakeError | Written (err : option error) | Next.

(** [protocolErrors] is never closed. *)
Definition writer_step (ch : write_choice) (s : session) : option (outcome session) :=
  match writer s, ch with
  | WSelect, TakeMessage =>
    let room := sys s in
    '(v, h) ← Room.Receive l (Room.s_heap room);
    let got := <[l := Room.got room l ++ option_list v]> (Room.s_got room) in
    let s := set_sys (Room.mkSys (Room.s_room room) h (Room.s_log room) got) s in
    Some (Returns (set_writer (match v with Some m => WMessage m | None => WDone end) s))
  | WSelect, TakeError =>
    '(v, errs) ← recv (protocolErrors s); p ← v;
    Some (Returns (set_writer (WError p) (set_protocolErrors errs s)))
  | WMessage m, Written (Some _) => Some (Returns (set_writer WDone s))
  | WMessage m, Written None =>
    if writable s then
      Some (Returns (set_writer WSelect (set_wire (wire s ++ [FMessage (response_of m)]) s)))
    else None
  | WError p, Written (Some err) => Some (Returns (set_writer (WAck (done p) (Some err)) s))
  | WError p, Written None =>
    if writable s then
      Some (Returns (set_writer (WAck (done p) None) (set_wire (wire s ++ [FError (response p)]) s)))
    else None
  | WAck t err, Next =>
    d ← dones s !! t; sent ← send d err;
    Some (d ← sent; Returns (set_writer (match err with None => WSelect | Some _ => WDone end)
                              (set_dones (<[t := d]> (dones s)) s)))
  | WDone, Next => Some (d ← close (writeDone s); Returns (set_writer WGone (set_writeDone d s)))
  | _, _ => None
  end.

Inductive heart_choice := Ping (err : option error) | Stop.

Definition heart_step (ch : heart_choice) (s : session) : option (outcome session) :=
  match heart s, ch with
  | HRun, Ping None => if writable s then Some (Returns s) else None
  | HRun, Ping (Some _) => Some (Returns (set_heart HGone s))
  | HRun, Stop => '(_, d) ← recv (heartbeatDone s); Some (Returns (set_heart HGone (set_heartbeatDone d s)))
  | HGone, _ => None
  end.

(** ** The others *)

(** The member has left, so that another connection may join under its identifier. *)
Definition left_room (pc : reader_pc) : bool :=
  match pc with RClose | RWait | RDec | RRemove | RCloseAgain | RGone => true | _ => false end.

(** What other goroutines do to the room.  A handler leaves only where it has joined,
    and receives only from its own channel. *)
Inductive others (left : bool) (s : Room.sys) : Room.sys -> Prop :=
  | others_join id res r h :
      Room.Join id (Room.s_room s) (Room.s_heap s) = (res, r, h) ->
      others left s (Room.mkSys r h (Room.s_log s) (Room.s_got s))
  | others_leave id res r h :
      id <> userID \/ left = true ->
      Room.Leave id (Room.s_room s) (Room.s_heap s) = Returns (res, r, h) ->
      others left s (Room.mkSys r h (Room.s_log s) (Room.s_got s))
  | others_publish order content res r h :
      Room.range_order (Room.s_room s) order ->
      Room.Publish order content (Room.s_room s) (Room.s_heap s) = Returns (res, r, h) ->
      others left s (Room.mkSys r h (Room.s_log s ++ Room.logged res r content) (Room.s_got s))
  | others_receive l' v h :
      l' <> l -> Room.Receive l' (Room.s_heap s) = Some (v, h) ->
      others left s (Room.mkSys (Room.s_room s) h (Room.s_log s)
        (<[l' := Room.got s l' ++ option_list v]> (Room.s_got s))).

(** A step of the connection's own goroutines, apart from reading the next frame. *)
Inductive internal (s : session) : outcome session -> Prop :=
  | internal_reader ch o : reader s <> RRead -> reader_step ch s = Some o -> internal s o
  | internal_writer ch o : writer_step ch s = Some o -> internal s o
  | internal_heart ch o : ch <> Ping None -> heart_step ch s = Some o -> internal s o.

(** Everything else: frames and read errors, pings, the other users of the room, bulk
    closes (of the socket and in the table; a connection enters the table once), and what
    ends writing on an open socket: the close frame 1012 of a bulk close (line 198), the
    1009 that gorilla sends before ReadMessage returns ErrReadLimit (line 418), unless it
    cannot get it out in time, its reply to the client's close frame, and a timeout. *)
Inductive external (s : session) : outcome session -> Prop :=
  | external_read ch o : reader s = RRead -> reader_step ch s = Some o -> external s o
  | external_ping o : heart_step (Ping None) s = Some o -> external s o
  | external_others room : others (left_room (reader s)) (sys s) room -> external s (Returns (set_sys room s))
  | external_close : external s (Returns (set_is_open false s))
  | external_write_shut : external s (Returns (set_write_shut true s))
  | external_table t : (c ∈ items t -> c ∈ items (table s)) -> external s (Returns (set_table t s)).

Definition step (s : session) (o : outcome session) : Prop := internal s o \/ external s o.

(** After the handshake: a member of the room, in the table, counted. *)
Definition established (room : Room.sys) (t : websocketConnections) : session :=
  mkSession room t 1 true false None (make_chan 1) [] (make_chan 0) (make_chan 0) RRead WSelect HRun [] [].

Definition joined (room : Room.sys) : Prop :=
  Room.reachable room /\ Room.clients (Room.s_room room) !! userID = Some (Room.mkClient userID l) /\
  Room.got room l = [].

Inductive reachable : session -> Prop :=
  | reachable_established room t : joined room -> c ∈ items t -> reachable (established room t)
  | reachable_step s s' : reachable s -> step s (Returns s') -> reachable s'.

(** ** The invariant *)

Definition responses (w : list frame) : list websocketResponse :=
  omap (fun f => match f with FMessage r => Some r | FError _ => None end) w.
Definition errors (w : list frame) : list websocketErrorResponse :=
  omap (fun f => match f with FError r => Some r | FMessage _ => None end) w.

Definition writer_dead (w : writer_pc) : bool := match w with WDone | WGone => true | _ => false end.
(** The writer has an error in its hands. *)
Definition busy (w : writer_pc) : bool := match w with WError _ | WAck _ _ => true | _ => false end.

Definition in_hand (w : writer_pc) : list websocketResponse :=
  match w with WMessage m => [response_of m] | _ => [] end.

(** The room's side: the client is a member with its channel until it leaves; then the
    channel is closed, and no member has it. *)
Definition membership (left : bool) (room : Room.sys) : Prop :=
  if left then
    (exists ch, Room.chans (Room.s_heap room) !! l = Some ch /\ closed ch = true) /\
    ~ Room.member_loc (Room.s_room room) l
  else Room.clients (Room.s_room room) !! userID = Some (Room.mkClient userID l).

(** What the writer took from the channel is on the wire, or in its hands; when it has
    ended one message may be lost. *)
Definition delivered (s : session) : Prop :=
  exists pending, response_of <$> Room.got (sys s) l = responses (wire s) ++ pending /\
    (writer_dead (writer s) = false -> pending = in_hand (writer s)) /\ length pending <= 1.

(** Where an error response is between queueProtocolError's selects: [queue] and
    [answer] are the buffers of protocolErrors and of its [done] channel; the flag tells
    whether it is on the wire. *)
Inductive handed (t : nat) (r : websocketErrorResponse)
  : list protocolError -> writer_pc -> list (option error) -> bool -> Prop :=
  | handed_queued w : busy w = false -> handed t r [mkProtocolError r t] w [] false
  | handed_taken : handed t r [] (WError (mkProtocolError r t)) [] false
  | handed_written : handed t r [] (WAck t None) [] true
  | handed_failed err : handed t r [] (WAck t (Some err)) [] false
  | handed_acked w : busy w = false -> handed t r [] w [None] true
  | handed_refused w err : writer_dead w = true -> handed t r [] w [Some err] false.

Definition on_wire (asked sent : list websocketErrorResponse) (r : websocketErrorResponse) (written : bool) : Prop :=
  asked = (if written then sent else sent ++ [r]).

Definition exchange (s : session) : Prop :=
  let queue := buf (protocolErrors s) in
  let asked := replies (effects s) in
  let sent := errors (wire s) in
  match reader s with
  | RRead | RDrain => queue = [] /\ busy (writer s) = false /\ asked = sent
  | RQueue r _ => queue = [] /\ busy (writer s) = false /\ asked = sent ++ [r]
  | RAwait t _ => exists r d written,
      dones s !! t = Some d /\ closed d = false /\ cap d = 1 /\
      handed t r queue (writer s) (buf d) written /\ asked = (if written : bool then sent else sent ++ [r])
  | _ => busy (writer s) = false /\ (queue <> [] -> writer_dead (writer s) = true) /\
      (asked = sent \/ writer_dead (writer s) = true /\ exists r, asked = sent ++ [r])
  end.

(** How far the deferred calls have come. *)
Definition stage (pc : reader_pc) : nat :=
  match pc with
  | RRead | RDrain | RQueue _ _ | RAwait _ _ => 0 | RHeartbeat => 1 | RLeave => 2 | RClose => 3
  | RWait => 4 | RDec => 5 | RRemove => 6 | RCloseAgain => 7 | RGone => 8
  end.

Record session_inv (s : session) : Prop := {
  si_room : Room.reachable (sys s);
  si_member : membership (left_room (reader s)) (sys s);
  si_delivered : delivered s;
  si_exchange : exchange s;
  si_errors : closed (protocolErrors s) = false /\ cap (protocolErrors s) = 1;
  si_heartbeat : heartbeatDone s = mkChan 0 [] (1 <? stage (reader s));
  si_writeDone : writeDone s = mkChan 0 [] (match writer s with WGone => true | _ => false end);
  si_drain : reader s = RDrain -> failed s = Some ErrReadLimit;
  si_closed : 3 < stage (reader s) -> is_open s = false;
  si_waited : 4 < stage (reader s) -> writer s = WGone;
  si_gauge : gauge s = if 5 <? stage (reader s) then 0%Z else 1%Z;
  si_table : 6 < stage (reader s) -> c ∉ items (table s);
}.

(** ** The room's side *)

Lemma others_reachable left room room' : others left room room' -> Room.reachable room -> Room.reachable room'.
Proof.
  intros Ho Hr. destruct Ho; (eapply Room.reachable_step; [exact Hr|]);
    by econstructor.
Qed.

Lemma others_got left room room' : others left room room' -> Room.got room' l = Room.got room l.
Proof.
  intros Ho. destruct Ho as [| | |l' v h Hne _]; try reflexivity.
  unfold Room.got. cbn [Room.s_got]. by rewrite lookup_insert_ne.
Qed.

Lemma Join_membership left room id res r h :
  Room.room_inv (Room.s_room room) (Room.s_heap room) -> membership left room ->
  Room.Join id (Room.s_room room) (Room.s_heap room) = (res, r, h) ->
  membership left (Room.mkSys r h (Room.s_log room) (Room.s_got room)).
Proof.
  unfold Room.Join, Room.alloc_chan. intros Hinv Hm HJ. destruct (is_blank id); [by simplify_eq|].
  destruct (Room.clients (Room.s_room room) !! id) as [c0|] eqn:Hid; [by simplify_eq|]. simplify_eq.
  unfold membership in *. cbn [Room.s_room Room.s_heap Room.chans Room.clients]. destruct left.
  - destruct Hm as [(ch & Hch & Hcl) Hno].
    pose proof (Room.inv_alloc _ _ Hinv l ltac:(eauto)) as Hlt. split.
    + exists ch. by rewrite lookup_insert_ne by lia.
    + intros (k & c0 & Hk & Hl). cbn in Hk. apply lookup_insert_Some in Hk as [[_ <-]|[_ Hk]]; [cbn in Hl; lia|].
      apply Hno. by exists k, c0.
  - rewrite lookup_insert_ne; [done|]. by intros ->; rewrite Hm in Hid.
Qed.

Lemma Leave_membership left room id res r h :
  Room.room_inv (Room.s_room room) (Room.s_heap room) -> membership left room ->
  id <> userID \/ left = true ->
  Room.Leave id (Room.s_room room) (Room.s_heap room) = Returns (res, r, h) ->
  membership left (Room.mkSys r h (Room.s_log room) (Room.s_got room)).
Proof.
  intros Hinv Hm Hid HL. destruct (Room.Leave_cases id _ _ Hinv) as [[_ He]|(c0 & ch0 & Hc & Hch0 & He)];
    rewrite He in HL; simplify_eq; [done|].
  unfold membership in *. cbn [Room.s_room Room.s_heap Room.clients]. destruct left.
  - destruct Hm as [(ch & Hch & Hcl) Hno]. split.
    + exists ch. rewrite Room.lookup_set_chan, decide_False; [done|].
      intros Heq. apply Hno. by exists id, c0.
    + intros (k & c1 & Hk & Hl). cbn in Hk. apply lookup_delete_Some in Hk as [_ Hk]. apply Hno. by exists k, c1.
  - destruct Hid as [Hid|]; [|done]. by rewrite lookup_delete_ne.
Qed.

Lemma others_membership left room room' :
  Room.reachable room -> others left room room' -> membership left room -> membership left room'.
Proof.
  intros Hr%Room.reachable_inv%Room.sys_room Ho Hm.
  destruct Ho as [id res r h HJ|id res r h Hid HL|order content res r h Hord HP|l' v h Hne HR].
  - by eapply Join_membership.
  - by eapply Leave_membership.
  - destruct (Room.Publish_cases order content _ _ Hr Hord)
      as [[_ He]|[(_ & _ & He)|(_ & _ & h1 & He & _ & _ & Hnm)]]; rewrite He in HP; simplify_eq; [done|done|].
    unfold membership in *. destruct left; [|done]. destruct Hm as [(ch & Hch & Hcl) Hno].
    split; [|done]. exists ch. cbn [Room.s_heap]. by rewrite Hnm.
  - unfold membership in *. destruct left; [|done]. destruct Hm as [(ch & Hch & Hcl) Hno].
    split; [|done]. exists ch. unfold Room.Receive in HR.
    destruct (Room.chans (Room.s_heap room) !! l') as [ch'|]; [|done]. cbn in HR.
    destruct (recv ch') as [[v' ch'']|]; [|done]. simplify_eq/=. by rewrite lookup_insert_ne.
Qed.

(** The client's own Leave, and its writer's receive. *)
Lemma own_leave room :
  Room.reachable room -> membership false room ->
  exists r h, Room.Leave userID (Room.s_room room) (Room.s_heap room) = Returns (None, r, h) /\
    membership true (Room.mkSys r h (Room.s_log room) (Room.s_got room)).
Proof.
  intros Hr%Room.reachable_inv%Room.sys_room Hm. unfold membership in Hm.
  destruct (Room.Leave_cases userID _ _ Hr) as [[Hn _]|(c0 & ch0 & Hc & Hch0 & He)]; [congruence|].
  rewrite Hm in Hc. injection Hc as <-. eexists _, _. split; [exact He|]. split.
  - eexists. cbn. by rewrite lookup_insert_eq.
  - intros (k & c1 & Hk & Hl). cbn in Hk. apply lookup_delete_Some in Hk as [Hne Hk]. destruct Hne.
    symmetry. by eapply (Room.inv_distinct _ _ Hr).
Qed.

Lemma own_receive left room v h :
  Room.reachable room -> membership left room -> Room.Receive l (Room.s_heap room) = Some (v, h) ->
  let room' := Room.mkSys (Room.s_room room) h (Room.s_log room)
    (<[l := Room.got room l ++ option_list v]> (Room.s_got room)) in
  Room.reachable room' /\ membership left room' /\ Room.got room' l = Room.got room l ++ option_list v /\
  (v = None -> left = true).
Proof.
  intros Hr Hm HR. split_and!.
  - eapply Room.reachable_step; [exact Hr|]. by apply Room.step_receive.
  - unfold membership in *. destruct left; [|done]. destruct Hm as [(ch & Hch & Hcl) Hno].
    split; [|done]. unfold Room.Receive in HR. rewrite Hch in HR. cbn in HR. unfold recv in HR.
    cbn [Room.s_heap Room.s_room]. destruct (buf ch); [rewrite Hcl in HR|]; simplify_eq/=; eexists; by rewrite lookup_insert_eq.
  - unfold Room.got. cbn [Room.s_got]. by rewrite lookup_insert_eq.
  - intros ->. destruct left; [done|]. apply Room.reachable_inv, Room.sys_room in Hr.
    destruct (Room.inv_member Hr _ _ Hm) as (_ & _ & ch & Hch & Ho & _). cbn [Room.Messages] in Hch.
    unfold Room.Receive in HR. rewrite Hch in HR. cbn in HR. unfold recv in HR.
    destruct (buf ch); [rewrite Ho in HR|]; done.
Qed.

(** The writer can always receive once the client has left. *)
Lemma own_receive_ready room :
  membership true room -> is_Some (Room.Receive l (Room.s_heap room)).
Proof.
  intros [(ch & Hch & Hcl) _]. unfold Room.Receive. rewrite Hch. cbn. unfold recv.
  destruct (buf ch); [rewrite Hcl|]; by eexists.
Qed.

(** ** The invariant is kept *)

Lemma replies_app e1 e2 : replies (e1 ++ e2) = replies e1 ++ replies e2.
Proof. apply omap_app. Qed.

Lemma responses_app w1 w2 : responses (w1 ++ w2) = responses w1 ++ responses w2.
Proof. apply omap_app. Qed.

Lemma errors_app w1 w2 : errors (w1 ++ w2) = errors w1 ++ errors w2.
Proof. apply omap_app. Qed.

(** A frame is answered at most once. *)
Lemma handle_frame_replies payload e limiter :
  length (replies (handle_frame sensitiveFilter userID roomID payload e limiter).1.1) <= 1.
Proof.
  unfold handle_frame. destruct (UnmarshalRequest payload) as [request|err]; [|cbn; lia].
  destruct (check_content_spec sensitiveFilter e request) as [[-> _]|(reason & code & text & -> & _)]; [|cbn; lia].
  destruct (RateLimit.Allow userID (limiter_now e) limiter) as [[|] l1]; cbn [negb]; [|cbn; lia].
  pose proof (publish_content_spec userID roomID e request) as (_ & Hr & _).
  destruct (publish_content userID roomID e request) as [effs go_on]. cbn [fst] in *.
  change (replies (Received :: effs)) with (replies effs). rewrite Hr.
  destruct (can_publish e), (danmaku_of userID roomID e request), (publish_result e); lia.
Qed.

#[local] Arguments handle_frame : simpl never.
#[local] Arguments replies : simpl never.
#[local] Arguments responses : simpl never.
#[local] Arguments errors : simpl never.
#[local] Arguments membership : simpl never.
#[local] Arguments Room.Leave : simpl never.
#[local] Arguments Room.Receive : simpl never.
#[local] Arguments remove : simpl never.
#[local] Arguments Room.got : simpl never.

Lemma established_inv room t : joined room -> c ∈ items t -> session_inv (established room t).
Proof.
  intros (Hr & Hc & Hg) Ht. split; cbn; try done; try lia.
  exists []. cbn. rewrite Hg. split_and!; [done|done|lia].
Qed.

Ltac keep := first [done | lia | eassumption | intros; first [done | lia | congruence | by auto
  | match goal with Hg : ?P -> _ = _, Hp : ?P |- _ => by specialize (Hg Hp) end
  | match goal with Hg : _ -> ?G |- ?G => apply Hg; cbn; lia end]].

(** Steps of the handler. *)
Lemma reader_step_inv ch s o :
  session_inv s -> reader_step ch s = Some o -> exists s', o = Returns s' /\ session_inv s'.
Proof.
  intros Hi Hs. destruct Hi as [Hroom Hmem Hdel Hex Herr Hhb Hwd Hdr Hcl Hwt Hga Htb].
  destruct s as [sy ta ga op sh fa pe dn hb wd rd wr ht wi ef]. unfold reader_step in Hs. unfold exchange in Hex.
  unfold delivered in Hdel. cbn in *. subst hb wd ga.
  destruct rd as [| |r last|t last| | | | | | | |]; destruct ch as [payload e limiter|err| |]; try done; cbn in Hs.
  - destruct fa; [done|]. destruct (handle_frame _ _ _ _ _ _) as [[effs go_on] l1] eqn:Hf. injection Hs as <-.
    eexists. split; [reflexivity|].
    pose proof (handle_frame_replies payload (assume_written e) limiter) as Hone. rewrite Hf in Hone. cbn in Hone.
    unfold after_frame. destruct Hex as (Hq & Hb & Ha).
    destruct (replies effs) as [|r [|]] eqn:Hrep; cbn in Hone; [| |lia]; split; cbn; try keep.
    1, 2: unfold exchange; cbn; rewrite replies_app, Hrep, Ha, ?app_nil_r; by split_and!.
  - unfold readMessage_fails in Hs. cbn in Hs. case_bool_decide as Hfa; [|done]. cbn in Hs. injection Hs as <-.
    eexists. split; [reflexivity|]. destruct Hex as (Hq & Hb & Ha).
    destruct err; split; cbn; try keep; unfold exchange; cbn; rewrite ?replies_app, ?app_nil_r; split_and!; auto; by intros [].
  - by rewrite Hdr in Hs.
  - unfold readMessage_fails in Hs. cbn in Hs. case_bool_decide as Hfa; [|done]. cbn in Hs. injection Hs as <-.
    eexists. split; [reflexivity|]. destruct Hex as (Hq & Hb & Ha).
    split; cbn; try keep; unfold exchange; cbn; split_and!; auto; by intros [].
  - destruct Herr as [Ho Hcap]. destruct pe as [n q cl]. cbn in *. subst n cl.
    destruct Hex as (-> & Hb & Ha). unfold send in Hs. cbn in Hs. injection Hs as <-. cbn.
    eexists. split; [reflexivity|]. split; cbn; try keep. unfold exchange. cbn.
    exists r, (make_chan 1), false. rewrite lookup_app_r, Nat.sub_diag by lia.
    split_and!; try done. by constructor.
  - destruct wr; try done. injection Hs as <-. eexists. split; [reflexivity|].
    destruct Hex as (Hq & Hb & Ha). split; cbn; try keep. unfold exchange. cbn. split_and!; [done|done|].
    right. by eauto.
  - destruct Hex as (r & d & written & Hd & Ho & Hcap & Hh & Ha). rewrite Hd in Hs. cbn in Hs.
    destruct d as [n q cl]. cbn in *. subst n cl. unfold recv in Hs. cbn in Hs.
    remember (buf pe) as queue eqn:Hq in Hh. symmetry in Hq. destruct Hh as [w Hb| | |err|w Hb|w err Hdead]; cbn in Hs; try done.
    + injection Hs as <-. eexists. split; [reflexivity|].
      destruct last; split; cbn; try keep; unfold exchange; cbn; split_and!; auto; congruence.
    + injection Hs as <-. eexists. split; [reflexivity|].
      split; cbn; try keep. unfold exchange. cbn. split_and!; [by destruct w|done|]. right. by eauto.
  - destruct wr; try done. injection Hs as <-. eexists. split; [reflexivity|].
    destruct Hex as (r & d & written & Hd & Ho & Hcap & Hh & Ha). split; cbn; try keep.
    unfold exchange. cbn. split_and!; [done|done|]. destruct written; [by left|right]. by eauto.
  - injection Hs as <-. eexists. split; [reflexivity|]. split; cbn; try keep.
  - destruct (own_leave sy Hroom Hmem) as (r & h & He & Hm). rewrite He in Hs. injection Hs as <-. cbn.
    eexists. split; [reflexivity|]. split; cbn; try keep.
    eapply Room.reachable_step; [exact Hroom|]. by eapply Room.step_leave.
  - injection Hs as <-. eexists. split; [reflexivity|]. split; cbn; try keep.
  - destruct wr; try done. injection Hs as <-. eexists. split; [reflexivity|]. split; cbn; try keep.
  - injection Hs as <-. eexists. split; [reflexivity|]. split; cbn; try keep.
  - injection Hs as <-. eexists. split; [reflexivity|]. split; cbn; try keep.
    intros _. unfold remove. cbn. set_solver.
  - injection Hs as <-. eexists. split; [reflexivity|]. split; cbn; try keep.
Qed.

(** A step of the writer that is not about an error response. *)
Lemma exchange_writer s s' :
  reader s' = reader s -> buf (protocolErrors s') = buf (protocolErrors s) -> dones s' = dones s ->
  effects s' = effects s -> errors (wire s') = errors (wire s) ->
  busy (writer s) = false -> busy (writer s') = false ->
  (writer_dead (writer s) = true -> writer_dead (writer s') = true) ->
  exchange s -> exchange s'.
Proof.
  unfold exchange. intros -> -> -> -> -> Hb Hb' Hd Hex. destruct (reader s); try tauto.
  - destruct Hex as (r & d & written & Hl & Ho & Hcap & Hh & Ha). exists r, d, written. split_and!; try done.
    destruct Hh; try done; by constructor; auto.
Qed.

(** Steps of the writer. *)
Lemma writer_step_inv ch s o :
  session_inv s -> writer_step ch s = Some o -> exists s', o = Returns s' /\ session_inv s'.
Proof.
  intros Hi Hs. destruct Hi as [Hroom Hmem Hdel Hex Herr Hhb Hwd Hdr Hcl Hwt Hga Htb].
  destruct s as [sy ta ga op sh fa pe dn hb wd rd wr ht wi ef]. unfold writer_step in Hs.
  unfold delivered in Hdel. cbn in *. subst hb wd ga.
  destruct wr as [|m|p|t err| |]; destruct ch as [| |err'|]; try done; cbn in Hs.
  - destruct (Room.Receive l (Room.s_heap sy)) as [[v h]|] eqn:HR; [|done]. cbn in Hs. injection Hs as <-.
    destruct (own_receive _ _ _ _ Hroom Hmem HR) as (Hroom' & Hmem' & Hgot & Hnone).
    eexists. split; [reflexivity|]. split; cbn; try keep.
    + destruct Hdel as (pending & Hp & Hpe & _). rewrite Hpe, app_nil_r in Hp by done.
      exists (response_of <$> option_list v). cbn [sys set_writer set_sys wire writer]. rewrite Hgot, fmap_app, Hp.
      destruct v; split_and!; done || (cbn; lia).
    + eapply exchange_writer; [..|exact Hex]; by destruct v.
    + by destruct v.
  - destruct Herr as [Ho Hcap]. destruct pe as [n [|p q] cl]; cbn in *; subst n cl; [done|].
    injection Hs as <-. eexists. split; [reflexivity|]. split; cbn; try keep.
    unfold exchange in *. cbn in *. destruct rd; try (by destruct Hex); try (destruct Hex as (_ & Hq & _); by assert (false = true) by (by apply Hq)).
    destruct Hex as (r & d & written & Hl & Hod & Hcd & Hh & Ha).
    assert (Hbd : buf d = []) by (by inversion Hh). inversion Hh; subst.
    exists r, d, false. rewrite Hbd. split_and!; try done. by constructor.
  - destruct err' as [err'|].
    + injection Hs as <-. eexists. split; [reflexivity|]. split; cbn; try keep.
      * destruct Hdel as (pending & Hp & Hpe & Hlen). exists pending. by split_and!.
      * by eapply exchange_writer; [..|exact Hex].
    + destruct (writable _); [|done]. injection Hs as <-. eexists. split; [reflexivity|]. split; cbn; try keep.
      * destruct Hdel as (pending & Hp & Hpe & Hlen). exists []. cbn. rewrite Hp, Hpe, responses_app, app_nil_r by done.
        by split_and!; [..|lia].
      * eapply exchange_writer; [..|exact Hex]; try done. cbn. by rewrite errors_app, app_nil_r.
  - assert (Hrd : exists t last, rd = RAwait t last).
    { unfold exchange in Hex. cbn in Hex. destruct rd; try (by destruct Hex as (? & ? & ?)); by eauto. }
    destruct Hrd as (t & last & ->). unfold exchange in Hex. cbn in Hex.
    destruct Hex as (r & d & written & Hl & Hod & Hcd & Hh & Ha).
    assert (Hh' : p = mkProtocolError r t /\ buf pe = [] /\ buf d = [] /\ written = false) by (by inversion Hh; subst).
    destruct Hh' as (-> & Hq & Hbd & ->). clear Hh.
    destruct err' as [err'|]; [|destruct (writable _); [|done]]; injection Hs as <-; (eexists; split; [reflexivity|]);
      (split; cbn; try keep).
    + exists r, d, false. cbn. rewrite Hq, Hbd. split_and!; try done. by constructor.
    + destruct Hdel as (pending & Hp & Hpe & Hlen). exists pending. cbn. rewrite Hp, responses_app, app_nil_r. by split_and!.
    + exists r, d, true. cbn. rewrite Hq, Hbd, Ha, errors_app. split_and!; try done. by constructor.
  - assert (Hrd : exists t last, rd = RAwait t last).
    { unfold exchange in Hex. cbn in Hex. destruct rd; try (by destruct Hex as (? & ? & ?)); by eauto. }
    destruct Hrd as (t' & last & ->). unfold exchange in Hex. cbn in Hex.
    destruct Hex as (r & d & written & Hl & Hod & Hcd & Hh & Ha).
    assert (Hh' : t' = t /\ buf pe = [] /\ buf d = [] /\ written = match err with None => true | Some _ => false end)
      by (by inversion Hh; subst).
    destruct Hh' as (-> & Hq & Hbd & ->). clear Hh. destruct d as [n q cl]. cbn in *. subst n cl q.
    rewrite Hl in Hs. cbn in Hs. injection Hs as <-. eexists. split; [reflexivity|].
    apply lookup_lt_Some in Hl as Hlt. split; cbn; try keep; try (by destruct err).
    + destruct Hdel as (pending & Hp & Hpe & Hlen). exists pending. cbn. split_and!; try done. by destruct err; cbn.
    + eexists r, (mkChan 1 [err] false), _. cbn. rewrite list_lookup_insert_eq, Hq by done.
      split_and!; try done. destruct err; by constructor.
  - injection Hs as <-. eexists. split; [reflexivity|]. split; cbn; try keep.
    by eapply exchange_writer; [..|exact Hex].
Qed.

(** Steps of the heartbeat. *)
Lemma heart_step_inv ch s o :
  session_inv s -> heart_step ch s = Some o -> exists s', o = Returns s' /\ session_inv s'.
Proof.
  intros Hi Hs. pose proof Hi as [Hroom Hmem Hdel Hex Herr Hhb Hwd Hdr Hcl Hwt Hga Htb].
  unfold heart_step in Hs. destruct (heart s); [|done]. destruct ch as [[err|]|].
  - injection Hs as <-. eexists. by split; [reflexivity|split].
  - destruct (writable s); [|done]. injection Hs as <-. by exists s.
  - unfold recv in Hs. rewrite Hhb in Hs. cbn [buf closed] in Hs.
    destruct (1 <? stage (reader s)) eqn:Hst; [|done]. injection Hs as <-. eexists. split; [reflexivity|].
    split; cbn [sys table gauge is_open write_shut failed protocolErrors dones heartbeatDone writeDone reader writer heart
      wire effects set_heart set_heartbeatDone]; try done. by rewrite Hst.
Qed.

Lemma external_inv s o : session_inv s -> external s o -> exists s', o = Returns s' /\ session_inv s'.
Proof.
  intros Hi Hs. pose proof Hi as [Hroom Hmem Hdel Hex Herr Hhb Hwd Hdr Hcl Hwt Hga Htb].
  destruct Hs as [ch o _ Hs|o Hs|room Ho| | |t Ht].
  - by eapply reader_step_inv.
  - by eapply heart_step_inv.
  - eexists. split; [reflexivity|]. split; try done; cbn.
    + by eapply others_reachable.
    + by eapply others_membership.
    + unfold delivered. cbn. by rewrite (others_got _ _ _ Ho).
  - eexists. split; [reflexivity|]. by split.
  - eexists. split; [reflexivity|]. by split.
  - eexists. split; [reflexivity|]. split; try done; cbn. intros Hst Hin. by apply (Htb Hst), Ht.
Qed.

Lemma step_inv s o : session_inv s -> step s o -> exists s', o = Returns s' /\ session_inv s'.
Proof.
  intros Hi [[ch o' _ Hs|ch o' Hs|ch o' _ Hs]|Hs].
  - by eapply reader_step_inv.
  - by eapply writer_step_inv.
  - by eapply heart_step_inv.
  - by eapply external_inv.
Qed.

Lemma session_reachable_inv s : reachable s -> session_inv s.
Proof.
  induction 1 as [room t Hj Ht|s s' _ IH Hs]; [by apply established_inv|].
  destruct (step_inv s _ IH Hs) as (s1 & [= <-] & Hi). exact Hi.
Qed.

(** ** Progress *)

(** Steps left once the socket is closed. *)
Definition work (s : session) : nat :=
  match reader s with RWait => 4 | RDec => 3 | RRemove => 2 | RCloseAgain => 1 | _ => 0 end +
  match writer s with WSelect => 3 | WMessage _ | WError _ | WAck _ _ => 2 | WDone => 1 | WGone => 0 end +
  match heart s with HRun => 1 | HGone => 0 end.

Definition finished (s : session) : Prop := reader s = RGone /\ writer s = WGone /\ heart s = HGone.

Lemma reader_internal ch o s : session_inv s -> reader s <> RRead -> reader_step ch s = Some o ->
  exists s', internal s (Returns s').
Proof.
  intros Hi Hr Hs. destruct (reader_step_inv _ _ _ Hi Hs) as (s' & -> & _). exists s'. by eapply internal_reader.
Qed.

Lemma writer_internal ch o s : session_inv s -> writer_step ch s = Some o -> exists s', internal s (Returns s').
Proof.
  intros Hi Hs. destruct (writer_step_inv _ _ _ Hi Hs) as (s' & -> & _). exists s'. by eapply internal_writer.
Qed.

(** The writer is never stuck while the handler waits for it. *)
Lemma writer_progress s :
  session_inv s -> writer s <> WGone ->
  buf (protocolErrors s) <> [] \/ left_room (reader s) = true \/ writer s <> WSelect ->
  exists s', internal s (Returns s').
Proof.
  intros Hi Hne Hready. assert (Hen : exists ch o, writer_step ch s = Some o).
  { unfold writer_step. destruct (writer s) as [|m|p|t err| |] eqn:Hw; [| | | | |done].
    - destruct Hready as [Hq|[Hl|]]; [|exists TakeMessage|done].
      + exists TakeError. cbn. unfold recv. destruct (buf (protocolErrors s)); [done|]. by eexists.
      + pose proof (si_member _ Hi) as Hm. rewrite Hl in Hm.
        destruct (own_receive_ready _ Hm) as [[v h] ->]. by eexists.
    - exists (Written (Some (Errorf "write failed"))). by eexists.
    - exists (Written (Some (Errorf "write failed"))). by eexists.
    - exists Next. pose proof (si_exchange _ Hi) as Hex. unfold exchange in Hex. rewrite Hw in Hex.
      destruct (reader s) as [| | |t' last| | | | | | | |]; try (by destruct Hex as (? & ? & ?)).
      destruct Hex as (r & d & written & Hd & Ho & Hcap & Hh & _).
      assert (t' = t /\ buf d = []) as [-> Hb] by (by inversion Hh; subst).
      rewrite Hd. cbn. unfold send. rewrite Ho, Hcap, Hb. by eexists.
    - exists Next. by eexists. }
  destruct Hen as (ch & o & Ho). by eapply writer_internal.
Qed.

Lemma session_progress s :
  session_inv s -> reader s <> RRead -> finished s \/ exists s', internal s (Returns s').
Proof.
  intros Hi Hr. pose proof Hi as [Hroom Hmem Hdel Hex Herr Hhb Hwd Hdr Hcl Hwt Hga Htb].
  assert (Hwait : buf (protocolErrors s) <> [] \/ left_room (reader s) = true \/ writer s <> WSelect ->
    writer s = WGone \/ exists s', internal s (Returns s')).
  { intros Hready. destruct (writer s) eqn:Hw; [right|right|right|right|right|by left];
      (apply writer_progress; [done|by rewrite Hw|by rewrite Hw]). }
  assert (Hen : forall ch, is_Some (reader_step ch s) -> finished s \/ exists s', internal s (Returns s')).
  { intros ch [o Ho]. right. by eapply reader_internal. }
  unfold exchange in Hex. unfold reader_step in Hen.
  destruct (reader s) as [| |r last|t last| | | | | | | |] eqn:Hrd; [done|..].
  - apply (Hen (ReadFails ErrReadLimit)).
    unfold readMessage_fails. rewrite (Hdr eq_refl), bool_decide_eq_true_2 by auto. by eexists.
  - destruct Herr as [Ho Hcap]. destruct Hex as (Hq & _). apply (Hen Proceed).
    unfold send. rewrite Ho, Hcap, Hq. by eexists.
  - destruct Hex as (r & d & written & Hd & Ho & Hcap & Hh & _).
    assert (Hcase : buf d <> [] \/ buf (protocolErrors s) <> [] \/ writer s <> WSelect).
    { inversion Hh; [right; left|right; right|right; right|right; right|left|left]; congruence. }
    destruct Hcase as [Hb|Hcase].
    + apply (Hen Proceed). cbn. rewrite Hd. cbn. unfold recv. destruct (buf d) as [|[err|] q]; [done|by eexists..].
    + destruct Hwait as [Hw|]; [tauto| |by right]. apply (Hen GiveUp). cbn. unfold recv. rewrite Hwd, Hw. by eexists.
  - apply (Hen Proceed). by eexists.
  - apply (Hen Proceed). by eexists.
  - apply (Hen Proceed). by eexists.
  - destruct Hwait as [Hw|]; [by auto| |by right]. apply (Hen Proceed). cbn. unfold recv. rewrite Hwd, Hw. by eexists.
  - apply (Hen Proceed). by eexists.
  - apply (Hen Proceed). by eexists.
  - apply (Hen Proceed). by eexists.
  - assert (Hw : writer s = WGone) by (apply Hwt; cbn; lia). destruct (heart s) eqn:Hh; [right|by left].
    assert (Hs : exists o, heart_step Stop s = Some o).
    { unfold heart_step. rewrite Hh. unfold recv. rewrite Hhb. by eexists. }
    destruct Hs as [o Hs]. destruct (heart_step_inv _ _ _ Hi Hs) as (s' & -> & _). exists s'. by apply (internal_heart _ Stop).
Qed.

(** An error response belongs to a handler that still waits for it. *)
Lemma not_busy s : session_inv s -> 0 < stage (reader s) -> busy (writer s) = false.
Proof.
  intros Hi Hst. pose proof (si_exchange _ Hi) as Hex. unfold exchange in Hex.
  destruct (reader s); cbn in Hst; try lia; by destruct Hex.
Qed.

(** Once the socket is closed every step of the goroutines is one of the last. *)
Lemma internal_work s s' :
  session_inv s -> 3 < stage (reader s) -> internal s (Returns s') ->
  work s' < work s /\ 3 < stage (reader s').
Proof.
  intros Hi Hst Hs. pose proof (si_closed _ Hi Hst) as Hop. pose proof (not_busy _ Hi ltac:(lia)) as Hbusy. unfold work.
  destruct s as [sy ta ga op sh fa pe dn hb wd rd wr ht wi ef]. cbn in *. subst op.
  inversion Hs as [ch o Hr Ho|ch o Ho|ch o Hp Ho]; subst; clear Hs.
  - unfold reader_step in Ho. cbn in Ho.
    destruct rd; cbn in Hst; try lia; destruct ch; try done; cbn in Ho; [|injection Ho as <-; cbn; lia..].
    destruct (recv wd) as [[v d]|]; [|done]. injection Ho as <-. cbn. lia.
  - unfold writer_step in Ho. cbn in Ho.
    destruct wr as [|m|p|t err| |]; destruct ch as [| |[err'|]|]; try done; cbn in Ho; try done; try (injection Ho as <-; cbn; lia).
    + destruct (Room.Receive l (Room.s_heap sy)) as [[v h]|]; [|done]. injection Ho as <-. cbn. destruct v; lia.
    + destruct (recv pe) as [[[p|] h]|]; [|done..]. injection Ho as <-. cbn. lia.
    + destruct (close wd); simplify_eq/=. lia.
  - unfold heart_step in Ho. cbn in Ho. destruct ht; [|done]. destruct ch as [[err|]|]; [|done|].
    + injection Ho as <-. cbn. lia.
    + destruct (recv hb) as [[v d]|]; [|done]. injection Ho as <-. cbn. lia.
Qed.

Lemma external_work s s' :
  session_inv s -> 3 < stage (reader s) -> external s (Returns s') ->
  work s' = work s /\ stage (reader s') = stage (reader s).
Proof.
  intros Hi Hst Hs. inversion Hs as [ch o Hr Ho|o Ho|room Ho| | |t Ht]; subst; try done.
  - rewrite Hr in Hst. cbn in Hst. lia.
  - unfold heart_step in Ho. destruct (heart s); [|done]. unfold writable in Ho. by rewrite (si_closed _ Hi Hst) in Ho.
Qed.

(** Steps in any interleaving; those of the connection's goroutines are counted. *)
Inductive run (s : session) : nat -> session -> Prop :=
  | run_refl : run s 0 s
  | run_internal n s1 s2 : run s n s1 -> internal s1 (Returns s2) -> run s (S n) s2
  | run_external n s1 s2 : run s n s1 -> external s1 (Returns s2) -> run s n s2.

Lemma run_work s n s' :
  session_inv s -> 3 < stage (reader s) -> run s n s' ->
  session_inv s' /\ 3 < stage (reader s') /\ n + work s' <= work s.
Proof.
  intros Hi Hst Hr. induction Hr as [|n s1 s2 _ (IH1 & IH2 & IH3) Hs|n s1 s2 _ (IH1 & IH2 & IH3) Hs].
  - by split_and!.
  - destruct (internal_work _ _ IH1 IH2 Hs) as [Hw Hs2].
    destruct (step_inv _ _ IH1 (or_introl Hs)) as (? & [= <-] & ?). split_and!; [done|done|lia].
  - destruct (external_work _ _ IH1 IH2 Hs) as [Hw Hs2].
    destruct (step_inv _ _ IH1 (or_intror Hs)) as (? & [= <-] & ?). split_and!; [done|lia|lia].
Qed.

(** The client's channel, and whether it is closed. *)
Lemma session_channel s :
  session_inv s -> exists ch, Room.chans (Room.s_heap (sys s)) !! l = Some ch /\ closed ch = left_room (reader s).
Proof.
  intros Hi. pose proof (si_member _ Hi) as Hm. unfold membership in Hm. destruct (left_room (reader s)); [by destruct Hm|].
  pose proof (Room.sys_room _ (Room.reachable_inv _ (si_room _ Hi))) as Hroom.
  destruct (Room.inv_member Hroom _ _ Hm) as (_ & _ & ch & Hch & Ho & _). by exists ch.
Qed.

(** ** Properties *)

(** An established connection never panics.  Whatever the goroutines, the client and
    the other users of the room do, in every reachable state each step returns: no
    channel is closed twice, nothing is sent on a closed channel, the member leaves a
    room that still has its channel.  [writeDone] is closed exactly when the writer has
    ended, and the client's message channel exactly when the client has left. *)
Theorem session_never_panics s :
  reachable s ->
  (forall o, step s o -> exists s', o = Returns s') /\
  closed (writeDone s) = (match writer s with WGone => true | _ => false end) /\
  exists ch, Room.chans (Room.s_heap (sys s)) !! l = Some ch /\ closed ch = left_room (reader s).
Proof.
  intros Hi%session_reachable_inv. split_and!.
  - intros o Hs. destruct (step_inv _ _ Hi Hs) as (s' & -> & _). by eexists.
  - by rewrite (si_writeDone _ Hi).
  - by apply session_channel.
Qed.

(** The wire carries a part of the room's log, in order. *)
Lemma wire_in_order s :
  reachable s ->
  sublist (responses (wire s)) (response_of <$> Room.s_log (sys s)) /\
  ((Z.of_nat (length (Room.s_log (sys s))) < 2 ^ 64)%Z ->
     StronglySorted (fun r1 r2 => Sequence r1 < Sequence r2)%Z (responses (wire s))).
Proof.
  intros Hr. pose proof (session_reachable_inv _ Hr) as Hi.
  pose proof (Room.reachable_inv _ (si_room _ Hi)) as Hroom.
  destruct (si_delivered _ Hi) as (pending & Hp & _ & _).
  assert (Hsub : exists ms, responses (wire s) = response_of <$> ms /\ sublist ms (Room.s_log (sys s))).
  { apply fmap_app_inv in Hp as (ms & ms' & -> & -> & Hg). exists ms. split; [done|].
    etransitivity; [|apply (Room.sys_stream _ Hroom l)]. unfold Room.stream. rewrite Hg, <- app_assoc.
    apply sublist_inserts_r. reflexivity. }
  destruct Hsub as (ms & Hms & Hsub). split.
  - rewrite Hms. by apply fmap_sublist.
  - intros Hlen. rewrite Hms. assert (Hinc : Room.increasing ms).
    { eapply Room.sublist_increasing; [exact Hsub|]. apply (Room.numbered_increasing _ 1). intros i m Hm.
      by rewrite (Room.reachable_numbering _ (si_room _ Hi) Hlen i m Hm). }
    clear -Hinc. unfold Room.increasing in Hinc. induction Hinc as [|m ms _ IH Hm]; [constructor|].
    constructor; [done|]. apply Forall_fmap. exact Hm.
Qed.

(** C10: what a client sees of its room.  The messages on the wire are a subsequence of
    those published in the room, in publication order, with increasing sequence numbers
    (as long as the room has published fewer than 2^64).  While no write has failed
    nothing taken from the channel is lost: it is on the wire, but for at most one
    message in the writer's hands, and the rest still waits in the channel. *)
Theorem session_delivers_in_order s :
  reachable s ->
  sublist (responses (wire s)) (response_of <$> Room.s_log (sys s)) /\
  ((Z.of_nat (length (Room.s_log (sys s))) < 2 ^ 64)%Z ->
     StronglySorted (fun r1 r2 => Sequence r1 < Sequence r2)%Z (responses (wire s))) /\
  (writer_dead (writer s) = false -> exists ch, Room.chans (Room.s_heap (sys s)) !! l = Some ch /\
     response_of <$> Room.stream (sys s) l = responses (wire s) ++ in_hand (writer s) ++ (response_of <$> buf ch)).
Proof.
  intros Hr. pose proof (session_reachable_inv _ Hr) as Hi. destruct (wire_in_order _ Hr) as [Hsub Hinc].
  destruct (si_delivered _ Hi) as (pending & Hp & Hpe & _). split_and!; [done..|].
  intros Hd. destruct (session_channel s Hi) as (ch & Hch & _). exists ch. split; [done|].
  unfold Room.stream. rewrite Hch, fmap_app, Hp, (Hpe Hd), <- app_assoc. done.
Qed.

(** C16: error responses.  Those on the wire are those the handler asked for, in that
    order, at most one being missing.  The handler reads the next frame only when every
    one is on the wire; and none is missing when it closes the socket unless the writer
    had ended: the client learns why its frame was refused before it is cut off. *)
Theorem session_answers_errors s :
  reachable s ->
  errors (wire s) `prefix_of` replies (effects s) /\
  length (replies (effects s)) <= S (length (errors (wire s))) /\
  (reader s = RRead -> errors (wire s) = replies (effects s)) /\
  (0 < stage (reader s) -> errors (wire s) <> replies (effects s) -> writer_dead (writer s) = true).
Proof.
  intros Hi%session_reachable_inv. pose proof (si_exchange _ Hi) as Hex.
  assert (Hcase : replies (effects s) = errors (wire s) \/ exists r, replies (effects s) = errors (wire s) ++ [r]).
  { unfold exchange in Hex. destruct (reader s); try (destruct Hex as (_ & _ & [?|[_ ?]])); try (destruct Hex as (_ & _ & ?)); auto.
    - right. by eauto.
    - destruct Hex as (r & d & written & _ & _ & _ & _ & Ha). destruct written; [by left|right; by eauto]. }
  split_and!.
  - destruct Hcase as [->|[r ->]]; [done|by apply prefix_app_r].
  - destruct Hcase as [->|[r ->]]; [lia|]. rewrite length_app. cbn. lia.
  - intros Hr. unfold exchange in Hex. rewrite Hr in Hex. by destruct Hex as (_ & _ & ->).
  - intros Hst Hne. unfold exchange in Hex.
    destruct (reader s); cbn in Hst; try lia; destruct Hex as (_ & _ & [Heq|[Hd _]]); done.
Qed.

(** C15: cleanup.  Once the handler has stopped reading, its goroutines are never stuck
    until all three have ended, whatever the others do; its own deferred calls up to the
    close of the socket wait for nobody; after that at most eight steps are left, and in
    the end the socket is closed, the client has left and is out of the table and of the
    gauge.  The loop that would discard the rest of an oversized frame ends at its first
    read, which repeats ErrReadLimit. *)
Theorem session_cleans_up s :
  reachable s ->
  (reader s <> RRead -> finished s \/ exists s', internal s (Returns s')) /\
  (1 <= stage (reader s) <= 3 ->
     exists s', reader_step Proceed s = Some (Returns s') /\ stage (reader s') = S (stage (reader s))) /\
  (3 < stage (reader s) -> forall n s', run s n s' -> n <= 8) /\
  (finished s -> is_open s = false /\ (c ∉ items (table s)) /\ gauge s = 0%Z /\
     ~ Room.member_loc (Room.s_room (sys s)) l) /\
  (reader s = RDrain -> forall ch o, reader_step ch s = Some o -> o = Returns (set_reader RHeartbeat s)).
Proof.
  intros Hi%session_reachable_inv. split_and!.
  - by apply session_progress.
  - intros Hst. assert (Hs : exists s', reader_step Proceed s = Some (Returns s') /\ stage (reader s') = S (stage (reader s))).
    { pose proof (si_heartbeat _ Hi) as Hhb. pose proof (si_member _ Hi) as Hm. unfold reader_step.
      destruct (reader s); cbn in Hst; try lia; cbn in *.
      - rewrite Hhb. cbn. by eexists.
      - destruct (own_leave _ (si_room _ Hi) Hm) as (r & h & -> & _). cbn. by eexists.
      - by eexists. }
    exact Hs.
  - intros Hst n s' Hr. destruct (run_work _ _ _ Hi Hst Hr) as (_ & _ & Hle).
    assert (work s <= 8) by (unfold work; destruct (reader s), (writer s), (heart s); cbn; lia). lia.
  - intros (Hr & _ & _). pose proof (si_member _ Hi) as Hm. rewrite Hr in Hm. destruct Hm as [_ Hm].
    pose proof (si_closed _ Hi) as Hc. pose proof (si_table _ Hi) as Ht. pose proof (si_gauge _ Hi) as Hg.
    rewrite Hr in Hc, Ht, Hg. cbn in Hc, Ht, Hg. split_and!; [apply Hc; lia|apply Ht; lia|done|done].
  - intros Hr ch o Ho. pose proof (si_drain _ Hi Hr) as Hf. unfold reader_step, readMessage_fails in Ho.
    rewrite Hr, Hf in Ho. destruct ch; try done. case_bool_decide as He; [|done]. injection Ho as <-.
    destruct He as [?|[= <-]]; [done|]. destruct s; cbn in Hf. by subst.
Qed.

Ltac solve_frame :=
  eexists; split; [reflexivity|]; split; [reflexivity|]; unfold after_frame, replies; cbn; by split_and!.

(** The handler's step and the read loop's iteration agree.  The iteration as the
    model of the read loop has it, told whether the response is [written], has the
    effects of the session's step; the loop goes on exactly when the session, once
    queueProtocolError has returned [written], reads the next frame. *)
Theorem session_step_is_iteration s payload e limiter w :
  reader s = RRead -> failed s = None ->
  let e' := mkSurroundings (limiter_now e) (can_publish e) (random e) (created_now e) (publish_result e) w in
  let '(effs, go_on, _) := handle_frame sensitiveFilter userID roomID payload e' limiter in
  exists s', reader_step (ReadFrame payload e limiter) s = Some (Returns s') /\
    effects s' = effects s ++ effs /\
    match reader s' with
    | RRead => replies effs = [] /\ go_on = true
    | RQueue r last => replies effs = [r] /\ go_on = negb last && w
    | _ => False
    end.
Proof.
  intros Hr Hf e'. unfold reader_step. rewrite Hr, Hf. unfold handle_frame.
  destruct (UnmarshalRequest payload) as [request|err]; [|solve_frame].
  assert (Hc : forall e1, check_content sensitiveFilter e1 request =
    match check_content sensitiveFilter e' request with
    | Some (effs, _) => Some (effs, written e1) | None => None end).
  { intros e1. unfold check_content, reject. destruct (bool_decide _); [done|].
    destruct (maxContentRunes <? _); [done|]. by destruct (Sensitive.Match _ _).2. }
  rewrite (Hc (assume_written e)).
  destruct (check_content_spec sensitiveFilter e' request) as [[-> _]|(reason & code & text & -> & _)];
    [|solve_frame].
  cbn [limiter_now e' assume_written].
  destruct (RateLimit.Allow userID (limiter_now e) limiter) as [[|] l1]; cbn [negb]; [|solve_frame].
  unfold publish_content. cbn [can_publish random publish_result e' assume_written created_now].
  destruct (can_publish e); cbn [negb]; [|solve_frame].
  destruct (newMessageID (random e)); [|solve_frame].
  destruct (publish_result e); solve_frame.
Qed.

End session.

(** ** A run: a message is delivered, an invalid frame is answered, the connection ends *)

Section runs.
Context `{CaseTable} {F : Type} `{Float F}.
Context (sensitiveFilter : Sensitive.Filter) (userID roomID : string) (c : conn) (l : nat).

Inductive act := ARead (ch : read_choice (F := F)) | AWrite (ch : write_choice) | AHeart (ch : heart_choice).

Definition do_act (a : act) (s : session) : option (outcome session) :=
  match a with
  | ARead ch => reader_step sensitiveFilter userID roomID c ch s
  | AWrite ch => writer_step l ch s
  | AHeart ch => heart_step ch s
  end.

Lemma do_act_step a s o : do_act a s = Some o -> step sensitiveFilter userID roomID c l s o.
Proof.
  assert (Hd : forall ch s, reader_step sensitiveFilter userID roomID c ch s = Some o ->
    step sensitiveFilter userID roomID c l s o).
  { intros ch s0 Ho. destruct (reader s0) eqn:Hr; [right; by eapply external_read|left..];
      (eapply internal_reader; [by rewrite Hr|exact Ho]). }
  destruct a as [ch|ch|ch]; cbn; intros Ho; [by eapply Hd|left; by eapply internal_writer|].
  destruct ch as [[err|]|]; [|right; by apply external_ping|].
  - left. by apply (internal_heart _ _ _ _ _ _ (Ping (Some err))).
  - left. by apply (internal_heart _ _ _ _ _ _ Stop).
Qed.

Fixpoint do_acts (acts : list act) (s : session) : option session :=
  match acts with
  | [] => Some s
  | a :: acts => match do_act a s with Some (Returns s) => do_acts acts s | _ => None end
  end.

Lemma session_acts_reachable acts : forall s s',
  reachable sensitiveFilter userID roomID c l s -> do_acts acts s = Some s' ->
  reachable sensitiveFilter userID roomID c l s'.
Proof.
  induction acts as [|a acts IH]; cbn; intros s s' Hr He; [by simplify_eq|].
  destruct (do_act a s) as [[s1|]|] eqn:Ha; try done. apply (IH s1); [|done].
  eapply reachable_step; [exact Hr|]. by eapply do_act_step.
Qed.

End runs.

Definition sample_start : session := established Room.demo_hello (mkConnections {[ 7 ]} false).

(** The handler is told that the frame is not JSON; meanwhile the writer delivers. *)
Definition bad_frame : act (F := SpecFloat.spec_float) :=
  ARead (ReadFrame "not json"
    (mkSurroundings 0%Z true (Err (Errorf "unused")) 1%Z None true) sample_limiter).
Definition answered : list (act (F := SpecFloat.spec_float)) :=
  [bad_frame; AWrite TakeMessage; ARead Proceed; AWrite (Written None); AWrite TakeError; AWrite (Written None);
   AWrite Next; ARead Proceed].
Definition cleaned : list (act (F := SpecFloat.spec_float)) :=
  [ARead Proceed; AHeart Stop; ARead Proceed; AWrite TakeMessage; ARead Proceed; AWrite Next; ARead Proceed;
   ARead Proceed; ARead Proceed; ARead Proceed].

Definition sample_acts (acts : list (act (F := SpecFloat.spec_float))) : option session :=
  do_acts (H := Sensitive.ascii_cases) (H0 := binary64)
    (Sensitive.New (H := Sensitive.ascii_cases) ["scam"%string]) "alice" "lobby" 7 0 acts sample_start.
Abbreviation sample_reachable s :=
  (reachable (H := Sensitive.ascii_cases) (H0 := binary64)
    (Sensitive.New (H := Sensitive.ascii_cases) ["scam"%string]) "alice" "lobby" 7 0 s).

Lemma sample_run acts s : sample_acts acts = Some s -> sample_reachable s.
Proof.
  apply session_acts_reachable. apply reachable_established; [|cbn; set_solver].
  split; [apply Room.demo_hello_reachable|]. split; vm_compute; reflexivity.
Qed.

Lemma sample_state acts (test : session -> bool) :
  match sample_acts acts with Some s => test s | None => false end = true ->
  exists s, sample_reachable s /\ test s = true.
Proof.
  destruct (sample_acts acts) as [s|] eqn:Hs; [|done]. intros Ht. exists s. split; [by eapply sample_run|done].
Qed.

Definition sample_wire : list frame :=
  [FMessage (mkResponse 1 "hello"); FError (mkErrorResponse invalidJSONCode "message must be valid JSON")].

Lemma session_never_panics_witness : exists s, sample_reachable s /\ wire s = sample_wire /\
  closed (writeDone s) = match writer s with WGone => true | _ => false end.
Proof.
  destruct (sample_state answered (fun s => bool_decide (wire s = sample_wire)))
    as (s & Hr & Hw%bool_decide_eq_true); [vm_compute; reflexivity|].
  exists s. split; [exact Hr|]. split; [exact Hw|].
  exact (proj1 (proj2 (session_never_panics _ _ _ _ _ s Hr))).
Defined.

Lemma session_delivers_in_order_witness : exists s, sample_reachable s /\ wire s = sample_wire /\
  sublist [mkResponse 1 "hello"] (response_of <$> Room.s_log (sys s)).
Proof.
  destruct (sample_state answered (fun s => bool_decide (wire s = sample_wire)))
    as (s & Hr & Hw%bool_decide_eq_true); [vm_compute; reflexivity|].
  exists s. split; [exact Hr|]. split; [exact Hw|].
  pose proof (proj1 (session_delivers_in_order _ _ _ _ _ s Hr)) as Hs. rewrite Hw in Hs. exact Hs.
Defined.

Lemma session_answers_errors_witness : exists s, sample_reachable s /\ wire s = sample_wire /\
  errors (wire s) `prefix_of` replies (effects s).
Proof.
  destruct (sample_state answered (fun s => bool_decide (wire s = sample_wire)))
    as (s & Hr & Hw%bool_decide_eq_true); [vm_compute; reflexivity|].
  exists s. split; [exact Hr|]. split; [exact Hw|].
  exact (proj1 (session_answers_errors _ _ _ _ _ s Hr)).
Defined.

Lemma session_cleans_up_witness : exists s, sample_reachable s /\ finished s /\
  is_open s = false /\ (7 ∉ items (table s)) /\ gauge s = 0%Z.
Proof.
  destruct (sample_state (answered ++ cleaned) (fun s => bool_decide (reader s = RGone) &&
    match writer s, heart s with WGone, HGone => true | _, _ => false end))
    as (s & Hr & Ht); [vm_compute; reflexivity|].
  exists s. split; [exact Hr|].
  assert (Hf : finished s).
  { apply andb_true_iff in Ht as [Hrd%bool_decide_eq_true Hwh]. split; [exact Hrd|].
    destruct (writer s); try discriminate. destruct (heart s); try discriminate. split; reflexivity. }
  split; [exact Hf|].
  destruct (proj1 (proj2 (proj2 (proj2 (session_cleans_up _ _ _ _ _ s Hr)))) Hf) as (H1 & H2 & H3 & _).
  split; [exact H1|]. split; [exact H2|exact H3].
Defined.

Lemma session_step_is_iteration_witness :
  exists s', reader_step (H := Sensitive.ascii_cases) (H0 := binary64)
    (Sensitive.New (H := Sensitive.ascii_cases) ["scam"%string]) "alice" "lobby" 7
    (ReadFrame "not json" (mkSurroundings 0%Z true (Err (Errorf "unused")) 1%Z None true) sample_limiter) sample_start
    = Some (Returns s').
Proof.
  pose proof (session_step_is_iteration (H := Sensitive.ascii_cases) (H0 := binary64)
    (Sensitive.New (H := Sensitive.ascii_cases) ["scam"%string]) "alice" "lobby" 7 sample_start "not json"
    (mkSurroundings 0%Z true (Err (Errorf "unused")) 1%Z None true) sample_limiter true eq_refl eq_refl) as Hi.
  cbv zeta in Hi. destruct (handle_frame _ _ _ _ _ _) as [[effs go_on] l1]. destruct Hi as (s' & Hs & _).
  exists s'. exact Hs.
Defined.

End Session.
