(* ===== verification/Flush.v ===== *)
(** * What waits for a client can be written (internal/httpserver/websocket.go lines 342-371)

    Session says that what the writer has not lost is on the wire, in its hands, or in the
    client's channel.  Here is the other half: whatever state the connection is in, as long
    as frames can be written at all (its socket is open, no close frame has gone out on it
    and no write has failed), the writer alone can bring all of it to the wire, in a number
    of steps that depends on the channel's length only. *)

From S2P Require Import Prelude.
From S2P Require Import GoStrings.
From S2P Require Import GoChan.
From S2P Require Import Room.
From S2P Require Import Sensitive.
From S2P Require Import RateLimit.
From S2P Require Import Connections.
From S2P Require Import WebSocket.
From S2P Require Import Session.

Module Flush.
Import Session.

(** No write has failed. *)
Definition writing (w : writer_pc) : bool :=
  match w with WDone | WGone | WAck _ (Some _) => false | _ => true end.

Section flush.
Context `{CaseTable} {F : Type} `{Float F} (sensitiveFilter : Sensitive.Filter) (userID roomID : string) (c l : nat).

(** Steps of the writer alone. *)
Inductive writer_run : nat -> session -> session -> Prop :=
  | writer_stays s : writer_run 0 s s
  | writer_goes ch n s s1 s2 : writer_step l ch s = Some (Returns s1) -> writer_run n s1 s2 -> writer_run (S n) s s2.

Lemma writer_run_app n m s s1 s2 : writer_run n s s1 -> writer_run m s1 s2 -> writer_run (n + m) s s2.
Proof. induction 1 as [|ch n s s1 s2' Hs _ IH]; intros Hm; [done|]. eapply writer_goes; [exact Hs|by apply IH]. Qed.

Lemma writer_run_reachable n s s' :
  writer_run n s s' -> reachable sensitiveFilter userID roomID c l s -> reachable sensitiveFilter userID roomID c l s'.
Proof.
  induction 1 as [|ch n s s1 s2 Hs _ IH]; intros Hr; [done|]. apply IH. eapply reachable_step; [exact Hr|].
  left. by eapply internal_writer.
Qed.

(** The answer to an error response can be given. *)
Lemma answer_ready s t err :
  session_inv userID c l s -> writer s = WAck t err ->
  exists d, dones s !! t = Some d /\ send d err = Some (Returns (mkChan 1 [err] false)).
Proof.
  intros Hi Hw. pose proof (si_exchange _ _ _ _ Hi) as Hex. unfold exchange in Hex. rewrite Hw in Hex. cbn [busy] in Hex.
  destruct (reader s) as [| |r last|t' last| | | | | | | |]; try (by destruct Hex as (? & ? & ?)); try (by destruct Hex).
  destruct Hex as (r & d & written & Hl & Ho & Hc & Hh & _). inversion Hh; subst; try done; exists d; split; try done;
    destruct d as [n q cl]; cbn in *; subst; done.
Qed.

(** Back to the select, with what was in hand on the wire. *)
Lemma writer_returns s :
  session_inv userID c l s -> writable s = true -> writing (writer s) = true ->
  exists n s', n <= 2 /\ writer_run n s s' /\ writer s' = WSelect /\ writable s' = true /\ sys s' = sys s /\
    responses (wire s') = responses (wire s) ++ in_hand (writer s).
Proof.
  intros Hi Ho Hw. assert (Hack : forall s t, session_inv userID c l s -> writable s = true -> writer s = WAck t None ->
    exists s', writer_run 1 s s' /\ writer s' = WSelect /\ writable s' = true /\ sys s' = sys s /\ wire s' = wire s).
  { intros s0 t Hi0 Ho0 Hw0. destruct (answer_ready _ _ _ Hi0 Hw0) as (d & Hd & Hsend).
    eexists. split; [eapply (writer_goes Next); [|apply writer_stays]|].
    - unfold writer_step. rewrite Hw0, Hd. cbn [mbind option_bind]. rewrite Hsend. reflexivity.
    - by destruct s0. }
  destruct (writer s) as [|m|p|t [err|]| |] eqn:Hws; try done.
  - exists 0, s. split_and!; [lia|constructor|done..|]. by rewrite app_nil_r.
  - eexists 1, _. split; [lia|]. split.
    { eapply (writer_goes (Written None)); [|apply writer_stays]. unfold writer_step. rewrite Hws, Ho. reflexivity. }
    destruct s. cbn in *. split_and!; try done. by rewrite responses_app.
  - assert (Hs : writer_step l (Written None) s = Some (Returns (set_writer (WAck (done p) None) (set_wire (wire s ++ [FError (response p)]) s)))).
    { unfold writer_step. by rewrite Hws, Ho. }
    pose proof (writer_step_inv userID c l _ _ _ Hi Hs) as (s1 & [= <-] & Hi1).
    destruct (Hack _ (done p) Hi1) as (s2 & Hr2 & Hw2 & Ho2 & Hsys & Hwire); [by destruct s|by destruct s|].
    exists 2, s2. split; [lia|]. split; [by eapply writer_goes|]. split_and!; [done..|by rewrite Hsys; destruct s|].
    rewrite Hwire. destruct s. cbn. rewrite responses_app. done.
  - destruct (Hack s t Hi Ho Hws) as (s2 & Hr2 & Hw2 & Ho2 & Hsys & Hwire). exists 1, s2. split_and!; [lia|done..|].
    rewrite Hwire. by rewrite app_nil_r.
Qed.

(** One message from the channel. *)
Lemma writer_forwards s ch m rest :
  writer s = WSelect -> writable s = true -> Room.chans (Room.s_heap (sys s)) !! l = Some ch -> buf ch = m :: rest ->
  exists s', writer_run 2 s s' /\ writer s' = WSelect /\ writable s' = true /\
    Room.chans (Room.s_heap (sys s')) !! l = Some (mkChan (cap ch) rest (closed ch)) /\
    responses (wire s') = responses (wire s) ++ [response_of m].
Proof.
  intros Hw Ho Hch Hb. destruct s as [sy ta ga op sh fa pe dn hb wd rd wr ht wi ef]. unfold writable in *. cbn in *. subst wr. destruct op, sh; try done. clear Ho.
  assert (HR : Room.Receive l (Room.s_heap sy) =
    Some (Some m, Room.set_chan (Room.s_heap sy) l (mkChan (cap ch) rest (closed ch)))).
  { unfold Room.Receive. rewrite Hch. cbn. unfold recv. by rewrite Hb. }
  eexists. split.
  - eapply (writer_goes TakeMessage); [unfold writer_step; cbn; rewrite HR; reflexivity|].
    eapply (writer_goes (Written None)); [reflexivity|apply writer_stays].
  - cbn. split_and!; try done; [by rewrite lookup_insert_eq|]. by rewrite responses_app.
Qed.

Lemma writer_drains s ch :
  writer s = WSelect -> writable s = true -> Room.chans (Room.s_heap (sys s)) !! l = Some ch ->
  exists s', writer_run (2 * length (buf ch)) s s' /\ writer s' = WSelect /\ writable s' = true /\
    (exists ch', Room.chans (Room.s_heap (sys s')) !! l = Some ch' /\ buf ch' = []) /\
    responses (wire s') = responses (wire s) ++ (response_of <$> buf ch).
Proof.
  remember (buf ch) as q eqn:Hq. symmetry in Hq. revert s ch Hq. induction q as [|m q IH]; intros s ch Hq Hw Ho Hch.
  - exists s. split_and!; [constructor|done..|by exists ch|]. by rewrite app_nil_r.
  - destruct (writer_forwards s ch m q Hw Ho Hch Hq) as (s1 & Hr1 & Hw1 & Ho1 & Hch1 & Hres1).
    destruct (IH s1 (mkChan (cap ch) q (closed ch)) eq_refl Hw1 Ho1 Hch1) as (s2 & Hr2 & Hw2 & Ho2 & Hch2 & Hres2).
    exists s2. split_and!; try done.
    + replace (2 * length (m :: q)) with (2 + 2 * length q) by (cbn; lia). by eapply writer_run_app.
    + by rewrite Hres2, Hres1, <- app_assoc.
Qed.

(** C14: nothing gets stuck.  In every state an established connection can reach in which
    frames can still be written (the socket is open, no close frame has gone out on it, no
    write has failed), its writer can, without a step of anybody else and as long as its
    writes succeed, bring to the wire all that was ever put into the client's channel, in
    order and once: what is on the wire then is exactly the stream of the channel, which is
    empty.  It takes at most two steps for each message that waits and two more. *)
Theorem writer_flushes s :
  reachable sensitiveFilter userID roomID c l s -> writable s = true -> writing (writer s) = true ->
  exists ch n s', Room.chans (Room.s_heap (sys s)) !! l = Some ch /\
    n <= 2 * length (buf ch) + 2 /\ writer_run n s s' /\
    reachable sensitiveFilter userID roomID c l s' /\ writer s' = WSelect /\ writable s' = true /\
    (exists ch', Room.chans (Room.s_heap (sys s')) !! l = Some ch' /\ buf ch' = []) /\
    responses (wire s') = response_of <$> Room.stream (sys s) l.
Proof.
  intros Hr Ho Hw. pose proof (session_reachable_inv _ _ _ _ _ _ Hr) as Hi.
  destruct (writer_returns s Hi Ho Hw) as (n1 & s1 & Hn1 & Hr1 & Hw1 & Ho1 & Hsys1 & Hres1).
  destruct (session_channel _ _ _ s Hi) as (ch & Hch & _).
  destruct (writer_drains s1 ch Hw1 Ho1) as (s2 & Hr2 & Hw2 & Ho2 & Hch2 & Hres2); [by rewrite Hsys1|].
  exists ch, (n1 + 2 * length (buf ch)), s2. pose proof (writer_run_app _ _ _ _ _ Hr1 Hr2) as Hrun.
  split_and!; try done; [lia|by eapply writer_run_reachable|]. rewrite Hres2, Hres1. unfold Room.stream. rewrite Hch, fmap_app.
  destruct (si_delivered _ _ _ _ Hi) as (pending & Hp & Hpe & _). rewrite Hp, Hpe; [done|].
  destruct (writer s) as [| | |t [|]| |]; done.
Qed.

End flush.

(** The sample connection before its first message is taken: two steps. *)
Lemma writer_flushes_witness : exists n s',
  n <= 4 /\ writer_run 0 n sample_start s' /\ responses (wire s') = [mkResponse 1 "hello"].
Proof.
  destruct (writer_flushes (H := Sensitive.ascii_cases) (H0 := binary64)
    (Sensitive.New (H := Sensitive.ascii_cases) ["scam"%string]) "alice" "lobby" 7 0 sample_start)
    as (ch & n & s' & Hch & Hn & Hrun & _ & _ & _ & _ & Hres).
  - apply (sample_run []). reflexivity.
  - reflexivity.
  - reflexivity.
  - exists n, s'. split; [|split; [exact Hrun|etransitivity; [exact Hres|vm_compute; reflexivity]]].
    assert (Hb : Some ch = Some (mkChan 1 [Room.mkMessage 1 "hello"] false)) by (rewrite <- Hch; vm_compute; reflexivity).
    injection Hb as ->. exact Hn.
Defined.

End Flush.
