(* ===== verification/Deadlines.v ===== *)
(** * Heartbeat and deadlines of a connection
    (internal/httpserver/websocket.go lines 310-332, 338-371, 408-434, 565-571)

    Session leaves time out: a read or a write may fail at any moment.  Here the same
    goroutines are seen by the clock.  The handler reads under a deadline that a Pong
    moves, the heartbeat writes a Ping at each tick, the writer gives every data frame
    its own deadline.  What the frames contain, and the channels, are left to Session.

    What is used of other code is documented: a ticker drops ticks for a slow receiver;
    an operation on a net.Conn fails instead of blocking once its deadline has passed;
    gorilla reads through a buffer, so frames that have arrived are read after the
    deadline all the same, and after a write has timed out all later writes fail. *)

From S2P Require Import Prelude.
From S2P Require Import WebSocket.

Module Deadlines.
Import WebSocket.
Local Open Scope Z_scope.

(** Frames that have arrived: of data, or a Pong. *)
Inductive inbound := Data | Pong.

(** The handler: reading, handling a frame, in its deferred calls, gone. *)
Inductive reader_pc := RRead | RBusy | REnded | RClosing | RGone.

(** The heartbeat: before its ticker, selecting, in WriteControl before and after the
    Ping is on the wire, [until] being the call's deadline. *)
Inductive heart_pc := HStart | HSelect | HWrite (until : time) | HSent (until : time) | HGone.

(** The writer: selecting, in writeWebSocketJSON, gone. *)
Inductive writer_pc := WIdle | WWrite (until : time) | WGone.

#[export] Instance inbound_eq_dec : EqDecision inbound.
Proof. solve_decision. Defined.
#[export] Instance reader_pc_eq_dec : EqDecision reader_pc.
Proof. solve_decision. Defined.
#[export] Instance heart_pc_eq_dec : EqDecision heart_pc.
Proof. solve_decision. Defined.

(** [ticker] is when the ticker fires next, [tick] the tick in its channel; [broken]
    tells that a write has timed out.  [pings] are the times of the Pings on the wire,
    latest first, [unanswered] that of the first one since the last Pong; [frames]
    counts the data frames taken, [timed_out] tells why reading ended. *)
Record link := mkLink {
  connected : time;
  now : time;
  deadline : time;
  is_open : bool;
  buffered : list inbound;
  reader : reader_pc;
  ticker : option time;
  tick : option time;
  heart : heart_pc;
  writer : writer_pc;
  broken : bool;
  heartbeatDone : bool;
  pings : list time;
  unanswered : option time;
  frames : nat;
  timed_out : bool;
}.

(** SetReadDeadline with the clock at [t], then the handler reads; heartbeat and writer
    have been started. *)
Definition establish (t : time) : link :=
  mkLink t t (t + pongWait) true [] RRead None None HStart WIdle false false [] None 0 false.

(** ** Writing a data frame *)

(** [SetWriteDeadline] and [WriteJSON] are the connection's. *)
Definition writeWebSocketJSON {V} (SetWriteDeadline : time -> option error) (WriteJSON : V -> option error)
    (now : time) (value : V) : option error :=
  match SetWriteDeadline (now + writeWait) with
  | Some err => Some err
  | None => WriteJSON value
  end.

Lemma writeWebSocketJSON_ok {V} SetWriteDeadline WriteJSON t (v : V) :
  writeWebSocketJSON SetWriteDeadline WriteJSON t v = None <->
  SetWriteDeadline (t + writeWait) = None /\ WriteJSON v = None.
Proof. unfold writeWebSocketJSON. case_match; naive_solver. Qed.

(** ** Steps *)

Inductive read_failure := Timeout | FrameTooLarge | OtherFailure.

Inductive event :=
  | Elapse (t : time)
  | Fires
  (* the handler *)
  | Fill (items : list inbound) | TakeData | TakePong | HandledFrame (go_on : bool)
  | ReadFails (why : read_failure) | CloseHeartbeat | CloseSocket
  (* the heartbeat *)
  | NewTicker | TakeTick | PingSent | PingReturns (err : option error) | StopHeartbeat
  (* the writer *)
  | WriteStarts | WriteReturns (err : option error) | MessagesClosed
  (* others *)
  | BulkClose.

(** time.Ticker: a tick falls into the channel unless one is there; a late ticker skips
    what it has missed. *)
Definition next_tick (n t : time) : time := n + pingPeriod * (1 + (t - n) / pingPeriod).

Definition heart_step (e : event) (s : link) : option link :=
  let 'mkLink c t d o b r ti tk h w br hd ps un fr out := s in
  match h, e with
  | HStart, NewTicker => Some (mkLink c t d o b r (Some (t + pingPeriod)) tk HSelect w br hd ps un fr out)
  | HSelect, TakeTick =>
    _ ← tk; Some (mkLink c t d o b r ti None (HWrite (t + writeWait)) w br hd ps un fr out)
  | HSelect, StopHeartbeat => if hd then Some (mkLink c t d o b r None tk HGone w br hd ps un fr out) else None
  | HWrite u, PingSent =>
    if o && negb br && (t <=? u)
    then Some (mkLink c t d o b r ti tk (HSent u) w br hd (t :: ps) (Some (default t un)) fr out) else None
  | HSent _, PingReturns None => Some (mkLink c t d o b r ti tk HSelect w br hd ps un fr out)
  | (HWrite _ | HSent _), PingReturns (Some _) => Some (mkLink c t d o b r None tk HGone w br hd ps un fr out)
  | _, _ => None
  end.

Definition reader_step (e : event) (s : link) : option link :=
  let 'mkLink c t d o b r ti tk h w br hd ps un fr out := s in
  match r, e with
  | RRead, Fill items =>
    if o && (t <? d) && bool_decide (b = []) && negb (bool_decide (items = []))
    then Some (mkLink c t d o items r ti tk h w br hd ps un fr out) else None
  | RRead, TakeData =>
    match b with Data :: b => Some (mkLink c t d o b RBusy ti tk h w br hd ps un (S fr) out) | _ => None end
  | RRead, TakePong =>
    match b with
    | Pong :: b =>
      Some (if o then mkLink c t (t + pongWait) o b RRead ti tk h w br hd ps None fr out
            else mkLink c t d o b REnded ti tk h w br hd ps un fr out)
    | _ => None
    end
  | RBusy, HandledFrame go_on =>
    Some (mkLink c t d o b (if go_on : bool then RRead else REnded) ti tk h w br hd ps un fr out)
  | RRead, ReadFails Timeout =>
    if (d <=? t) && bool_decide (b = [])
    then Some (mkLink c t d o b REnded ti tk h w br hd ps un fr true) else None
  | RRead, ReadFails FrameTooLarge => Some (mkLink c t (t + writeWait) o b REnded ti tk h w br hd ps un fr out)
  | RRead, ReadFails OtherFailure => Some (mkLink c t d o b REnded ti tk h w br hd ps un fr out)
  | REnded, CloseHeartbeat => Some (mkLink c t d o b RClosing ti tk h w br true ps un fr out)
  | RClosing, CloseSocket => Some (mkLink c t d false b RGone ti tk h w br hd ps un fr out)
  | _, _ => None
  end.

Definition writer_step (e : event) (s : link) : option link :=
  let 'mkLink c t d o b r ti tk h w br hd ps un fr out := s in
  match w, e with
  | WIdle, WriteStarts => Some (mkLink c t d o b r ti tk h (WWrite (t + writeWait)) br hd ps un fr out)
  | WIdle, MessagesClosed => Some (mkLink c t d o b r ti tk h WGone br hd ps un fr out)
  | WWrite _, WriteReturns None =>
    if o && negb br then Some (mkLink c t d o b r ti tk h WIdle br hd ps un fr out) else None
  | WWrite u, WriteReturns (Some _) => Some (mkLink c t d o b r ti tk h WGone (br || (u <=? t)) hd ps un fr out)
  | _, _ => None
  end.

Definition clock_step (e : event) (s : link) : option link :=
  let 'mkLink c t d o b r ti tk h w br hd ps un fr out := s in
  match e with
  | Elapse t' => if t <? t' then Some (mkLink c t' d o b r ti tk h w br hd ps un fr out) else None
  | Fires =>
    n ← ti;
    if n <=? t
    then Some (mkLink c t d o b r (Some (next_tick n t)) (Some (default n tk)) h w br hd ps un fr out)
    else None
  | BulkClose => Some (mkLink c t d false b r ti tk h w br hd ps un fr out)
  | _ => None
  end.

Definition step (e : event) (s : link) : option link :=
  match e with
  | Elapse _ | Fires | BulkClose => clock_step e s
  | NewTicker | TakeTick | PingSent | PingReturns _ | StopHeartbeat => heart_step e s
  | WriteStarts | WriteReturns _ | MessagesClosed => writer_step e s
  | _ => reader_step e s
  end.

Definition reading (s : link) : bool := match reader s with RRead | RBusy => true | _ => false end.

(** Runs whose events a condition [P] allows, and what they reach. *)
Inductive run (P : event -> link -> Prop) : link -> link -> Prop :=
  | run_refl s : run P s s
  | run_step e s s1 s2 : run P s s1 -> P e s1 -> step e s1 = Some s2 -> run P s s2.

Definition anything (e : event) (s : link) : Prop := True.
Definition reachable (P : event -> link -> Prop) (s : link) : Prop := exists t, run P (establish t) s.

(** The cases of a step. *)
Ltac step_cases H :=
  unfold step, clock_step, heart_step, reader_step, writer_step in H; cbn in H;
  repeat (match type of H with
          | context [match ?x with _ => _ end] => destruct x eqn:?
          | context [?x ≫= _] => destruct x eqn:?
          end; cbn in H; try discriminate H);
  injection H as <-; simplify_option_eq.

Lemma step_total_order e s s' : step e s = Some s' -> now s <= now s' /\ connected s' = connected s.
Proof.
  destruct s as [c t d o b r ti tk h w br hd ps un fr out], e; intros Hs; step_cases Hs; cbn; split; lia || done.
Qed.

Lemma run_clock P s s' : run P s s' -> now s <= now s' /\ connected s' = connected s.
Proof. induction 1 as [|e s s1 s2 _ [IH IHc] _ [Hs Hc]%step_total_order]; [done|]. split; [lia|congruence]. Qed.

Lemma run_trans P s s1 s2 : run P s s1 -> run P s1 s2 -> run P s s2.
Proof. intros H1 H2. induction H2 as [|e s1 s2 s3 _ IH HP Hs]; [done|]. exact (run_step P e s s2 s3 (IH H1) HP Hs). Qed.

Lemma run_weaken (P Q : event -> link -> Prop) s s' :
  (forall e s, P e s -> Q e s) -> run P s s' -> run Q s s'.
Proof. intros HPQ. induction 1 as [|e s s1 s2 _ IH HP Hs]; [constructor|]. exact (run_step Q e s s1 s2 IH (HPQ _ _ HP) Hs). Qed.

Lemma reachable_run P s s' : reachable P s -> run P s s' -> reachable P s'.
Proof. intros [t Ht] Hr. exists t. by eapply run_trans. Qed.

Lemma reachable_anything P s : reachable P s -> reachable anything s.
Proof. intros [t Ht]. exists t. by eapply run_weaken. Qed.

(** ** What holds of every connection *)

(** Pings still to be written for ticks that have fallen. *)
Definition pending (s : link) : Z :=
  (match tick s with Some _ => 1 | None => 0 end) + (match heart s with HWrite _ => 1 | _ => 0 end).

Record link_inv (s : link) : Prop := {
  li_deadline : deadline s <= now s + pongWait;
  li_connected : connected s <= now s;
  li_start : heart s = HStart -> ticker s = None /\ tick s = None /\ pings s = [] /\ unanswered s = None;
  li_pings : (Z.of_nat (length (pings s)) + pending s) * pingPeriod <= now s - connected s;
  li_ticker : forall n, ticker s = Some n ->
    (Z.of_nat (length (pings s)) + pending s + 1) * pingPeriod <= n - connected s /\ n <= now s + pingPeriod;
  li_done : heartbeatDone s = match reader s with RClosing | RGone => true | _ => false end;
}.

Lemma periods : pongWait = 60000000000 /\ pingPeriod = 54000000000 /\ writeWait = 10000000000.
Proof. by split_and!. Qed.

Lemma next_tick_bounds n t : n <= t -> t < next_tick n t <= t + pingPeriod /\ n + pingPeriod <= next_tick n t.
Proof.
  intros Hn. unfold next_tick. pose proof periods as (_ & -> & _).
  pose proof (Z_div_mod_eq_full (t - n) 54000000000). pose proof (Z.mod_pos_bound (t - n) 54000000000 ltac:(lia)).
  pose proof (Z.div_pos (t - n) 54000000000 ltac:(lia) ltac:(lia)). lia.
Qed.

(** A step leaves the numbers as they are, or moves them together. *)
Ltac numbers := cbn [connected now deadline is_open buffered reader ticker tick heart writer broken heartbeatDone
  pings unanswered frames timed_out pending length] in *.

Lemma step_link_inv e s s' : link_inv s -> step e s = Some s' -> link_inv s'.
Proof.
  intros [Hd Hc Hst Hp Ht Hdn] Hs. destruct s as [c t d o b r ti tk h w br hd ps un fr out]. unfold pending in *. numbers.
  pose proof periods as (E1 & E2 & E3). rewrite E1, E2 in *.
  destruct e; step_cases Hs; split; unfold pending in *; numbers; rewrite ?E1, ?E2, ?E3 in *;
    try (intros ? [= <-]); try (intros m Hm; specialize (Ht m Hm)); try done; try lia.
  - intros Hh. by destruct (Hst Hh).
  - specialize (Ht _ eq_refl). destruct tk; lia.
  - specialize (Ht _ eq_refl). pose proof (next_tick_bounds t0 t ltac:(lia)). rewrite E2 in *. destruct tk; lia.
  - intros Hh. by destruct (Hst Hh) as (? & ? & ? & _).
Qed.

Lemma link_reachable_inv P s : reachable P s -> link_inv s.
Proof.
  intros [t Hr]. remember (establish t) as s0. induction Hr as [s|e s s1 s2 _ IH _ Hs]; [|eauto using step_link_inv].
  subst s. pose proof periods as (E1 & E2 & _).
  split; unfold establish, pending; numbers; rewrite ?E1, ?E2; try done; lia.
Qed.

(** The heartbeat writes at most one Ping per period. *)
Theorem ping_rate s : reachable anything s -> Z.of_nat (length (pings s)) * pingPeriod <= now s - connected s.
Proof.
  intros [_ _ _ Hp _ _]%link_reachable_inv. pose proof periods as (_ & E2 & _). unfold pending in Hp. rewrite E2 in *.
  destruct (tick s), (heart s); lia.
Qed.

(** ** A client that answers *)

Section prompt.
Context (lag write answer : duration).

(** Ticks fall when they are due, the heartbeat takes at most [lag] to start its ticker
    and to notice a tick, WriteControl succeeds within [write], and a Pong is handled
    at most [answer] after a Ping was written.  Nothing is asked of the handler and the
    writer otherwise. *)
Definition prompt (e : event) (s : link) : Prop :=
  match e with
  | Elapse t =>
    (heart s = HStart -> t <= connected s + lag) /\
    (forall n, ticker s = Some n -> t <= n) /\
    (forall n, tick s = Some n -> heart s = HSelect -> t <= n + lag) /\
    (forall u, heart s = HWrite u \/ heart s = HSent u -> t <= u - writeWait + write) /\
    (forall p, unanswered s = Some p -> t <= p + answer)
  | PingReturns (Some _) => False
  | _ => True
  end.

Context (Hlag : 0 <= lag) (Hwrite : 0 <= write) (Hanswer : 0 <= answer).
Context (Hmargin : lag + lag + write + answer < pongWait - pingPeriod).

(** Where the heartbeat is between its tick at [τ] and the next one, the clock showing
    [t] and the read deadline being [d].  The deadline is at least [d0] until the Pong. *)
Inductive phase (c t d : time) : heart_pc -> option time -> option time -> option time -> Prop :=
  | phase_start : c <= t <= c + lag -> c + pongWait <= d -> phase c t d HStart None None None
  | phase_idle τ : τ <= t <= τ + pingPeriod -> τ + pongWait - lag <= d ->
      phase c t d HSelect (Some (τ + pingPeriod)) None None
  | phase_tick τ : τ <= t <= τ + lag -> τ + pongWait - pingPeriod - lag <= d ->
      phase c t d HSelect (Some (τ + pingPeriod)) (Some τ) None
  | phase_write τ σ : τ <= σ <= τ + lag -> σ <= t <= σ + write -> τ + pongWait - pingPeriod - lag <= d ->
      phase c t d (HWrite (σ + writeWait)) (Some (τ + pingPeriod)) None None
  | phase_sent τ σ p : τ <= σ <= τ + lag -> σ <= t <= σ + write -> σ <= p <= t -> t <= p + answer ->
      τ + pongWait - pingPeriod - lag <= d ->
      phase c t d (HSent (σ + writeWait)) (Some (τ + pingPeriod)) None (Some p)
  | phase_early τ σ : τ <= σ <= τ + lag -> σ <= t <= σ + write -> τ + pongWait <= d ->
      phase c t d (HSent (σ + writeWait)) (Some (τ + pingPeriod)) None None
  | phase_wait τ p : τ <= p <= τ + lag + write -> p <= t <= p + answer ->
      τ + pongWait - pingPeriod - lag <= d ->
      phase c t d HSelect (Some (τ + pingPeriod)) None (Some p).

Lemma phase_deadline c t d h ti tk un : phase c t d h ti tk un -> t < d.
Proof using All. pose proof periods as (E1 & E2 & _). destruct 1; lia. Qed.

Definition in_phase (s : link) : Prop := phase (connected s) (now s) (deadline s) (heart s) (ticker s) (tick s) (unanswered s).

Record prompt_inv (s : link) : Prop := {
  pi_phase : reading s = true -> in_phase s;
  pi_kept : timed_out s = false;
}.

Lemma next_tick_exact n : next_tick n n = n + pingPeriod.
Proof. unfold next_tick. rewrite Z.sub_diag. change (0 / pingPeriod) with 0. lia. Qed.

(** What a phase leaves to be shown: its bounds, by arithmetic. *)
Ltac in_next_phase := first
  [ apply phase_start | eapply phase_idle | eapply phase_tick | eapply phase_write | eapply phase_sent
  | eapply phase_early | eapply phase_wait ]; lia.

Lemma elapse_phase t s : prompt (Elapse t) s -> now s < t -> in_phase s ->
  phase (connected s) t (deadline s) (heart s) (ticker s) (tick s) (unanswered s).
Proof using All.
  unfold in_phase. intros (H1 & H2 & H3 & H4 & H5) Ht Hp. pose proof periods as (E1 & E2 & E3).
  destruct Hp as [|τ|τ|τ σ|τ σ p|τ σ|τ p].
  - apply phase_start; [|lia]. specialize (H1 eq_refl). lia.
  - apply phase_idle; [|lia]. specialize (H2 _ eq_refl). lia.
  - apply phase_tick; [|lia]. specialize (H3 _ eq_refl eq_refl). lia.
  - apply (phase_write _ _ _ τ σ); [lia| |lia]. specialize (H4 _ (or_introl eq_refl)). lia.
  - specialize (H4 _ (or_intror eq_refl)). specialize (H5 _ eq_refl). apply phase_sent; lia.
  - specialize (H4 _ (or_intror eq_refl)). apply phase_early; lia.
  - specialize (H5 _ eq_refl). apply phase_wait; lia.
Qed.

Lemma pong_phase s : in_phase s ->
  phase (connected s) (now s) (now s + pongWait) (heart s) (ticker s) (tick s) None.
Proof using All.
  unfold in_phase. intros Hp. pose proof periods as (E1 & E2 & E3). destruct Hp as [|τ|τ|τ σ|τ σ p|τ σ|τ p].
  - apply phase_start; lia.
  - apply phase_idle; lia.
  - apply phase_tick; lia.
  - apply phase_write; lia.
  - apply phase_early; lia.
  - apply phase_early; lia.
  - apply phase_idle; lia.
Qed.

Lemma fires_phase s s' : in_phase s -> step Fires s = Some s' -> in_phase s'.
Proof using All.
  destruct s as [c t d o b r ti tk h w br hd ps un fr out]. unfold in_phase. numbers.
  intros Hp Hs. pose proof periods as (E1 & E2 & E3). step_cases Hs.
  inversion Hp as [|τ|τ|τ σ|τ σ p|τ σ|τ p]; subst; try lia.
  assert (t = τ + pingPeriod) as -> by lia. rewrite next_tick_exact. cbn. apply phase_tick; lia.
Qed.

Lemma heart_phase e s s' : in_phase s -> prompt e s -> heartbeatDone s = false -> heart_step e s = Some s' -> in_phase s'.
Proof using All.
  destruct s as [c t d o b r ti tk h w br hd ps un fr out]. unfold in_phase. numbers.
  intros Hp Hpr -> Hs. pose proof periods as (E1 & E2 & E3).
  destruct e; try (unfold heart_step in Hs; destruct h; discriminate Hs); step_cases Hs; cbn in Hpr; try done;
    inversion Hp as [|τ|τ|τ σ|τ σ p|τ σ|τ p]; subst; cbn.
  - apply phase_idle; lia.
  - apply phase_write; lia.
  - eapply phase_sent; lia.
  - apply phase_wait; lia.
  - apply phase_idle; lia.
Qed.
(** The handler's and the writer's other steps leave the heartbeat alone. *)
Lemma quiet_phase e s s' :
  match e with TakePong | Elapse _ | Fires => False | _ => True end ->
  heart_step e s = None -> step e s = Some s' -> reading s' = true ->
  reading s = true /\ (in_phase s -> in_phase s').
Proof.
  destruct s as [c t d o b r ti tk h w br hd ps un fr out]. unfold in_phase, reading. numbers.
  intros He Hh Hs. destruct e; try done; try (unfold step in Hs; rewrite Hh in Hs; discriminate Hs);
    clear Hh; step_cases Hs; cbn; done.
Qed.

Lemma heart_step_reader e s s' : heart_step e s = Some s' -> reading s' = reading s /\ timed_out s' = timed_out s.
Proof.
  destruct s as [c t d o b r ti tk h w br hd ps un fr out]. intros Hs. unfold heart_step in Hs.
  destruct h, e; try discriminate Hs; step_cases Hs; done.
Qed.

Lemma heart_step_is_step e s s' : heart_step e s = Some s' -> step e s = Some s'.
Proof. destruct s as [c t d o b r ti tk [] w br hd ps un fr out], e; intros Hs; try discriminate Hs; exact Hs. Qed.

Lemma step_timed_out e s s' : step e s = Some s' -> timed_out s' = timed_out s \/ reading s = true /\ deadline s <= now s.
Proof.
  destruct s as [c t d o b r ti tk h w br hd ps un fr out], e; intros Hs; step_cases Hs; cbn; try (by left).
  right. split; [done|]. lia.
Qed.

Lemma step_prompt_inv e s s' :
  link_inv s -> prompt_inv s -> prompt e s -> step e s = Some s' -> prompt_inv s'.
Proof using All.
  intros Hl [Hp Hk] Hpr Hs. split.
  - intros Hr. destruct (heart_step e s) as [s1|] eqn:Hh.
    { apply heart_step_is_step in Hh as Hs1. assert (s1 = s') as -> by congruence.
      destruct (heart_step_reader _ _ _ Hh) as [Hr1 _]. rewrite Hr1 in Hr. eapply heart_phase; eauto.
      rewrite (li_done _ Hl). unfold reading in Hr. by destruct (reader s). }
    assert (Hq : match e with TakePong | Elapse _ | Fires => False | _ => True end \/
      e = TakePong \/ e = Fires \/ exists t, e = Elapse t) by (destruct e; eauto).
    destruct Hq as [Hq|[->|[->|[t ->]]]].
    + destruct (quiet_phase e s s' Hq Hh Hs Hr) as [Hr0 Hi]. auto.
    + clear Hpr Hh. pose proof (pong_phase s) as Hpp. destruct s as [c t d o b r ti tk h w br hd ps un fr out].
      unfold in_phase, reading in *. numbers. step_cases Hs; cbn in *; try discriminate Hr; auto.
    + apply (fires_phase s); [|done]. apply Hp. clear - Hs Hr.
      destruct s as [c t d o b r ti tk h w br hd ps un fr out]. by step_cases Hs.
    + pose proof (elapse_phase t s Hpr) as Hep. clear Hh Hpr. destruct s as [c t0 d o b r ti tk h w br hd ps un fr out].
      unfold in_phase, reading in *. numbers. step_cases Hs; cbn in *. apply Hep; [lia|auto].
  - destruct (step_timed_out _ _ _ Hs) as [He|[Hr Hd]]; [congruence|].
    pose proof (phase_deadline _ _ _ _ _ _ _ (Hp Hr)). lia.
Qed.

(** C17: a client that answers is never dropped.  As long as ticks are noticed, Pings
    written and Pongs handled in less than the margin of six seconds altogether, the
    handler's reads do not time out: whatever else happens on the connection, the
    deadline is in the future whenever the handler reads. *)
Theorem answering_client_kept s :
  reachable prompt s -> timed_out s = false /\ (reading s = true -> now s < deadline s).
Proof using All.
  intros [t Hr]. assert (prompt_inv s /\ link_inv s) as [[Hp Hk] _].
  { remember (establish t) as s0. induction Hr as [|e s s1 s2 Hr IH Hpr Hs]; subst s.
    - split; [|apply (link_reachable_inv prompt); exists t; constructor]. split; [|done].
      intros _. unfold in_phase. cbn. apply phase_start; lia.
    - destruct (IH eq_refl) as [Hp Hl]. split; [exact (step_prompt_inv _ _ _ Hl Hp Hpr Hs)|exact (step_link_inv _ _ _ Hl Hs)]. }
  split; [done|]. intros Hrd. exact (phase_deadline _ _ _ _ _ _ _ (Hp Hrd)).
Qed.

End prompt.

(** ** A client that has fallen silent *)

(** Every Pong is handled by [T]. *)
Definition heard_until (T : time) (e : event) (s : link) : Prop := e = TakePong -> now s <= T.

(** Every Pong answers a Ping, at most [answer] after it was written. *)
Definition polite (answer : duration) (e : event) (s : link) : Prop :=
  e = TakePong -> exists p, p ∈ pings s /\ now s <= p + answer.

(** No Ping will be written: the heartbeat is gone, or the connection corrupt after a
    write that timed out, as that of a client that does not read. *)
Definition mute (s : link) : Prop := heart s = HGone \/ broken s = true.

Lemma step_pings e s s' : step e s = Some s' ->
  pings s' = pings s \/ (e = PingSent /\ ~ mute s /\ pings s' = now s :: pings s).
Proof.
  unfold mute. destruct s as [c t d o b r ti tk h w br hd ps un fr out], e; intros Hs; step_cases Hs; cbn; try (by left).
  right. split_and!; [done| |done]. intros [?| ->]; [done|]. by rewrite andb_false_r in *.
Qed.

Lemma step_mute e s s' : step e s = Some s' -> mute s -> mute s'.
Proof.
  unfold mute. destruct s as [c t d o b r ti tk h w br hd ps un fr out], e; intros Hs; step_cases Hs; cbn;
    intros [?| ->]; try done; auto.
Qed.

Lemma pings_past s : reachable anything s -> Forall (fun p => p <= now s) (pings s).
Proof.
  intros [t Hr]. remember (establish t) as s0. induction Hr as [|e s s1 s2 _ IH _ Hs]; subst s; [constructor|].
  specialize (IH eq_refl). destruct (step_total_order _ _ _ Hs) as [Hle _].
  assert (Hps : Forall (fun p => p <= now s2) (pings s1)) by (eapply Forall_impl; [exact IH|]; cbn; intros; lia).
  destruct (step_pings _ _ _ Hs) as [->|(_ & _ & ->)]; [done|]. by constructor.
Qed.

Lemma step_deadline e s s' : step e s = Some s' -> reading s' = true ->
  reading s = true /\ (deadline s' = deadline s \/ e = TakePong /\ deadline s' = now s + pongWait).
Proof.
  destruct s as [c t d o b r ti tk h w br hd ps un fr out], e; intros Hs; step_cases Hs; unfold reading; cbn; auto; done.
Qed.

Lemma heard_deadline T s s' : run (heard_until T) s s' -> reading s' = true ->
  reading s = true /\ deadline s' <= Z.max (deadline s) (T + pongWait).
Proof.
  induction 1 as [s|e s s1 s2 _ IH HP Hs]; intros Hr; [split; [done|lia]|].
  destruct (step_deadline _ _ _ Hs Hr) as [Hr1 Hd]. destruct (IH Hr1) as [Hr0 Hb]. split; [done|].
  destruct Hd as [->|[-> ->]]; [done|]. specialize (HP eq_refl). lia.
Qed.

(** Past the deadline nothing more arrives. *)
Lemma past_deadline_step T e s s' :
  heard_until T e s -> step e s = Some s' -> T < now s -> (reading s = true -> deadline s <= now s) ->
  (frames s' + length (buffered s') <= frames s + length (buffered s))%nat /\
  (reading s' = true -> deadline s' <= now s').
Proof.
  intros HP Hs HT Hd. assert (e <> TakePong) as Hne by (intros ->; specialize (HP eq_refl); lia). clear HP.
  destruct s as [c t d o b r ti tk h w br hd ps un fr out]. unfold reading in *.
  destruct e; step_cases Hs; try done; numbers; split; try (lia || done || (specialize (Hd eq_refl); lia)).
Qed.

Lemma past_deadline T s s' : run (heard_until T) s s' -> T < now s -> (reading s = true -> deadline s <= now s) ->
  (frames s' + length (buffered s') <= frames s + length (buffered s))%nat /\
  (reading s' = true -> deadline s' <= now s').
Proof.
  intros Hr HT Hd. induction Hr as [|e s s1 s2 Hr IH HP Hs]; [done|]. destruct (IH HT Hd) as [Hf Hd1].
  destruct (run_clock _ _ _ Hr) as [Hle _].
  destruct (past_deadline_step T e s1 s2 HP Hs ltac:(lia) Hd1) as [Hf2 Hd2]. split; [lia|done].
Qed.

(** In a mute connection whose Pings were written by [b] a polite client is heard for
    [answer] more. *)
Lemma mute_run answer b s s' :
  Forall (fun p => p <= b) (pings s) -> mute s -> run (polite answer) s s' ->
  pings s' = pings s /\ mute s' /\ run (heard_until (b + answer)) s s'.
Proof.
  intros Hp Hm. induction 1 as [s|e s s1 s2 _ IH HP Hs]; [by split_and!; [..|constructor]|].
  destruct (IH Hp Hm) as (Hps & Hm1 & Hr). destruct (step_pings _ _ _ Hs) as [Heq|(_ & Hn & _)]; [|done].
  split_and!; [congruence|by eapply step_mute|]. eapply run_step; [exact Hr| |exact Hs].
  intros ->. destruct (HP eq_refl) as (p & Hin & Hle). rewrite Hps in Hin.
  rewrite Forall_forall in Hp. specialize (Hp p Hin). cbn in Hp. lia.
Qed.

Lemma handler_times_out s : reader s = RRead -> buffered s = [] -> deadline s <= now s ->
  (exists s', step (ReadFails Timeout) s = Some s' /\ reader s' = REnded /\ timed_out s' = true) /\
  (forall items, step (Fill items) s = None).
Proof.
  destruct s as [c t d o b r ti tk h w br hd ps un fr out]. numbers. intros -> -> Hd. split.
  - eexists. unfold step, reader_step. rewrite (proj2 (Z.leb_le d t) Hd). cbn. split; [reflexivity|done].
  - intros items. unfold step, reader_step. rewrite (proj2 (Z.ltb_ge t d) Hd). by rewrite andb_false_r.
Qed.

(** C18: a connection that can no longer be written to does not stay.  Once no Ping will
    be written, because the heartbeat has failed or a write has timed out on a client that
    does not read, and the client sends Pongs only in answer, the read deadline moves no
    more: [pongWait] and the time of an answer later the handler takes nothing but what
    has already arrived, and its next read times out. *)
Theorem stuck_connection_dropped answer s s' :
  0 <= answer -> reachable anything s -> mute s -> run (polite answer) s s' ->
  pings s' = pings s /\
  (reading s' = true -> deadline s' <= now s + answer + pongWait) /\
  (now s + answer + pongWait <= now s' ->
    (forall s'', run (polite answer) s' s'' -> (frames s'' + length (buffered s'') <= frames s' + length (buffered s'))%nat) /\
    (reader s' = RRead -> buffered s' = [] ->
      (exists s'', step (ReadFails Timeout) s' = Some s'' /\ reader s'' = REnded /\ timed_out s'' = true) /\
      (forall items, step (Fill items) s' = None))).
Proof.
  intros Ha Hs Hm Hr. pose proof periods as (E1 & _). pose proof (pings_past _ Hs) as Hpast.
  destruct (mute_run _ _ _ _ Hpast Hm Hr) as (Hp & Hm' & Hh).
  assert (Hd : reading s' = true -> deadline s' <= now s + answer + pongWait).
  { intros Hrd. destruct (heard_deadline _ _ _ Hh Hrd) as [_ Hd].
    pose proof (li_deadline _ (link_reachable_inv _ _ Hs)). lia. }
  split_and!; [done..|]. intros Ht. rewrite <- Hp in Hpast. split.
  - intros s'' Hr'. destruct (mute_run _ _ _ _ Hpast Hm' Hr') as (_ & _ & Hh').
    apply (past_deadline _ _ _ Hh'); [lia|]. intros Hrd. specialize (Hd Hrd). lia.
  - intros Hrd Hb. apply handler_times_out; [done..|].
    specialize (Hd ltac:(unfold reading; by rewrite Hrd)). lia.
Qed.

(** ** Examples *)

Definition promptb (lag write answer : duration) (e : event) (s : link) : bool :=
  match e with
  | Elapse t =>
    (if bool_decide (heart s = HStart) then t <=? connected s + lag else true) &&
    match ticker s with Some n => t <=? n | None => true end &&
    match tick s, heart s with Some n, HSelect => t <=? n + lag | _, _ => true end &&
    match heart s with HWrite u | HSent u => t <=? u - writeWait + write | _ => true end &&
    match unanswered s with Some p => t <=? p + answer | None => true end
  | PingReturns (Some _) => false
  | _ => true
  end.

Lemma promptb_spec lag write answer e s : promptb lag write answer e s = true -> prompt lag write answer e s.
Proof.
  destruct s as [c t d o b r ti tk h w br hd ps un fr out]. destruct e; try done; numbers; unfold promptb, prompt; numbers.
  - rewrite !andb_true_iff. intros ((((H1 & H2) & H3) & H4) & H5). split_and!.
    + intros ->. rewrite bool_decide_eq_true_2 in H1 by done. lia.
    + intros n ->. lia.
    + intros n -> ->. lia.
    + intros u [-> | ->]; lia.
    + intros p ->. lia.
  - by destruct err.
Qed.

Fixpoint do_events (ok : event -> link -> bool) (es : list event) (s : link) : option link :=
  match es with [] => Some s | e :: es => if ok e s then s ← step e s; do_events ok es s else None end.

Lemma do_events_run (ok : event -> link -> bool) (P : event -> link -> Prop) es s s' :
  (forall e s, ok e s = true -> P e s) -> do_events ok es s = Some s' -> run P s s'.
Proof.
  intros HP. revert s. induction es as [|e es IH]; cbn; intros s Hs; [injection Hs as ->; constructor|].
  destruct (ok e s) eqn:Ho; [|done]. destruct (step e s) as [s1|] eqn:He; [|done].
  apply (run_trans _ _ s1); [|by apply IH]. eapply run_step; [constructor|by apply HP|done].
Qed.

(** A round of the heartbeat: the tick at [t], the Ping answered [wait] later. *)
Definition sample_round (t : time) (wait : duration) : list event :=
  [Elapse t; Fires; TakeTick; PingSent; PingReturns None; Elapse (t + wait);
   Fill [Data; Pong]; TakeData; HandledFrame true; TakePong].

Definition six_seconds : duration := pongWait - pingPeriod.

Definition sample_events : list event :=
  NewTicker :: sample_round pingPeriod Second ++ sample_round (2 * pingPeriod) (six_seconds - 1).
Definition sample_kept : link :=
  default (establish 0) (do_events (promptb 0 0 (six_seconds - 1)) sample_events (establish 0)).

Lemma answering_client_kept_witness :
  now sample_kept = 113999999999 /\ frames sample_kept = 2%nat /\ timed_out sample_kept = false /\
  (reading sample_kept = true -> now sample_kept < deadline sample_kept).
Proof.
  split; [vm_compute; reflexivity|]. split; [vm_compute; reflexivity|].
  refine (answering_client_kept 0 0 (six_seconds - 1) _ _ _ _ sample_kept _); [vm_compute; first [discriminate|reflexivity]..|].
  exists 0. apply (do_events_run (promptb 0 0 (six_seconds - 1)) _ sample_events); [apply promptb_spec|vm_compute; reflexivity].
Defined.

(** The margin is exact: a Pong that takes the six seconds may come too late. *)
Lemma margin_is_exact : exists s, reachable (prompt 0 0 six_seconds) s /\ timed_out s = true.
Proof.
  destruct (do_events (promptb 0 0 six_seconds) [NewTicker; Elapse pingPeriod; Fires; TakeTick; PingSent; PingReturns None;
    Elapse (pingPeriod + six_seconds); ReadFails Timeout] (establish 0)) as [s|] eqn:Hs; [|vm_compute in Hs; discriminate Hs].
  exists s. split; [|vm_compute in Hs; by injection Hs as <-].
  exists 0. eapply do_events_run; [apply promptb_spec|exact Hs].
Qed.

(** A client that stops reading: a write times out, the next Ping fails. *)
Definition sample_stuck : link :=
  default (establish 0) (do_events (fun _ _ => true)
    [NewTicker; WriteStarts; Elapse writeWait; WriteReturns (Some (Errorf "i/o timeout"))] (establish 0)).
Definition sample_silent : link :=
  default sample_stuck (do_events (fun e _ => match e with TakePong => false | _ => true end)
    [Elapse pingPeriod; Fires; TakeTick; PingReturns (Some (Errorf "corrupt")); Elapse (71 * Second)] sample_stuck).

Lemma stuck_connection_dropped_witness :
  broken sample_stuck = true /\ now sample_silent = now sample_stuck + Second + pongWait /\ pings sample_silent = [] /\
  exists s, step (ReadFails Timeout) sample_silent = Some s /\ reader s = REnded /\ timed_out s = true.
Proof.
  split; [vm_compute; reflexivity|]. split; [vm_compute; reflexivity|].
  destruct (stuck_connection_dropped Second sample_stuck sample_silent) as (Hp & _ & Ht).
  - vm_compute. discriminate.
  - exists 0. apply (do_events_run (fun _ _ => true) anything [NewTicker; WriteStarts; Elapse writeWait;
      WriteReturns (Some (Errorf "i/o timeout"))]); [done|vm_compute; reflexivity].
  - right. vm_compute. reflexivity.
  - apply (do_events_run (fun e _ => match e with TakePong => false | _ => true end) _ [Elapse pingPeriod; Fires; TakeTick;
      PingReturns (Some (Errorf "corrupt")); Elapse (71 * Second)]); [|vm_compute; reflexivity].
    intros e s Hok ->. discriminate Hok.
  - split; [rewrite Hp; vm_compute; reflexivity|].
    destruct (Ht ltac:(vm_compute; discriminate)) as [_ H]. apply H; vm_compute; reflexivity.
Defined.

End Deadlines.
