(* ===== verification/Metrics.v ===== *)
(** * Metrics (internal/metrics/metrics.go)

    The collectors of an instance and their registration, and what the handler of
    connections adds to them.  The Prometheus registry is a parameter: Register accepts a
    collector or reports an error; what is assumed is its documentation, that valid names
    that are not taken are accepted. *)

From S2P Require Import Prelude.
From S2P Require Import Utf8.
From S2P Require Import GoStrings.
From S2P Require Import GoChan.
From S2P Require Import Room.
From S2P Require Import Sensitive.
From S2P Require Import RateLimit.
From S2P Require Import Connections.
From S2P Require Import WebSocket.
From S2P Require Import Session.

Module Metrics.

(** ** Collectors *)

Inductive kind := Gauge | Counter | CounterVec (labels : list string) | Histogram.

(** [Help] texts are for people. *)
Record collector := mkCollector { Kind : kind; Name : string }.

(** The fields of Metrics, each with the collector New makes for it. *)
Record Metrics := mkMetrics {
  WebSocketConnections : collector; MessagesReceived : collector; MessagesRejected : collector;
  KafkaPublishDuration : collector; ConsumerHandlerDuration : collector;
  RoomClientMessagesDropped : collector; ConsumerRunning : collector; ConsumerReady : collector;
  ConsumerRestarts : collector;
}.

Definition metrics : Metrics := {|
  WebSocketConnections := mkCollector Gauge "danmuflow_websocket_connections_current";
  MessagesReceived := mkCollector Counter "danmuflow_messages_received_total";
  MessagesRejected := mkCollector (CounterVec ["reason"%string]) "danmuflow_messages_rejected_total";
  KafkaPublishDuration := mkCollector Histogram "danmuflow_kafka_publish_duration_seconds";
  ConsumerHandlerDuration := mkCollector Histogram "danmuflow_consumer_handler_duration_seconds";
  RoomClientMessagesDropped := mkCollector Counter "danmuflow_room_client_messages_dropped_total";
  ConsumerRunning := mkCollector Gauge "danmuflow_consumer_running";
  ConsumerReady := mkCollector Gauge "danmuflow_consumer_ready";
  ConsumerRestarts := mkCollector Counter "danmuflow_consumer_restarts_total";
|}.

(** The arguments of MustRegister but the last. *)
Definition collectors (m : Metrics) : list collector :=
  [WebSocketConnections m; MessagesReceived m; MessagesRejected m; KafkaPublishDuration m;
   ConsumerHandlerDuration m; RoomClientMessagesDropped m; ConsumerRunning m; ConsumerReady m; ConsumerRestarts m].

(** ** Registration *)

(** A registry holds the names it has accepted.  [go_collector] are the names of the
    collector that NewGoCollector makes. *)
Class Prometheus := {
  Register : list string -> list string -> option error;
  go_collector : list string;
}.

Definition name_start (b : Z) : bool :=
  ((97 <=? b) && (b <=? 122) || (65 <=? b) && (b <=? 90) || (b =? 95) || (b =? 58))%Z.
Definition name_char (b : Z) : bool := (name_start b || (48 <=? b) && (b <=? 57))%Z.
(** The grammar of metric names. *)
Definition valid_name (s : string) : bool :=
  match bytes s with [] => false | b :: l => name_start b && forallb name_char l end.

Class PrometheusLaws `{Prometheus} := {
  Register_accepts : forall registered names,
    Forall (fun n => valid_name n = true) names -> NoDup (registered ++ names) ->
    Register registered names = None;
  go_collector_names : Forall (fun n => valid_name n = true) go_collector /\ NoDup go_collector /\
    Forall (fun n => exists rest, n = ("go_" +:+ rest)%string) go_collector;
}.

(** MustRegister registers one collector after the other and panics at the first error. *)
Fixpoint MustRegister `{Prometheus} (registered : list string) (cs : list (list string)) : outcome (list string) :=
  match cs with
  | [] => Returns registered
  | names :: cs =>
    match Register registered names with
    | Some _ => Panics "duplicate metrics collector registration attempted"
    | None => MustRegister (registered ++ names) cs
    end
  end.

(** The metrics and the registry behind Handler. *)
Definition New `{Prometheus} : outcome (Metrics * list string) :=
  registry ← MustRegister [] (((fun c => [Name c]) <$> collectors metrics) ++ [go_collector]);
  Returns (metrics, registry).

Lemma MustRegister_accepts `{PrometheusLaws} cs : forall registered,
  Forall (fun n => valid_name n = true) (mjoin cs) -> NoDup (registered ++ mjoin cs) ->
  MustRegister registered cs = Returns (registered ++ mjoin cs).
Proof.
  induction cs as [|names cs IH]; intros registered Hv Hnd; cbn in *; [by rewrite app_nil_r|].
  apply Forall_app in Hv as [Hn Hv]. rewrite app_assoc in Hnd.
  rewrite Register_accepts; [|done|by apply NoDup_app in Hnd as [? _]].
  rewrite IH by done. by rewrite app_assoc.
Qed.

(** The metrics register.  New never panics: the nine names of the program are valid
    metric names, they are distinct, and none is one of the Go collector's; the handler
    exposes exactly these and the Go collector's. *)
Theorem New_registers `{PrometheusLaws} :
  New = Returns (metrics, (Name <$> collectors metrics) ++ go_collector).
Proof.
  unfold New. destruct go_collector_names as (Hv & Hnd & Hgo).
  rewrite MustRegister_accepts; cbn [app].
  - cbn. by rewrite app_nil_r.
  - rewrite join_app. apply Forall_app. split; [|cbn; by rewrite app_nil_r].
    apply Forall_forall. intros n Hn. revert n Hn. rewrite <- Forall_forall.
    repeat first [apply Forall_nil_2|apply Forall_cons_2; [vm_compute; reflexivity|]].
  - rewrite join_app. apply NoDup_app. split_and!.
    + by apply (bool_decide_unpack _).
    + intros n Hn Hg. cbn in Hg. rewrite app_nil_r in Hg. rewrite Forall_forall in Hgo.
      destruct (Hgo n Hg) as [rest ->].
      repeat (apply elem_of_cons in Hn as [Hn|Hn]; [discriminate Hn|]). by apply elem_of_nil in Hn.
    + cbn. by rewrite app_nil_r.
Qed.

(** ** What the handler counts *)

Import WebSocket.

(** The label values of MessagesRejected. *)
Definition reasons : list string :=
  ["frame_too_large"; "invalid_json"; "empty_content"; "content_too_long"; "sensitive_content";
   "rate_limit"; "message_bus_unavailable"; "message_id_generation_failed"]%string.

(** Values: MessagesReceived, MessagesRejected by its label, and the number of
    observations of KafkaPublishDuration. *)
Record values := mkValues { received : nat; rejected : gmap string nat; publish_observed : nat }.
Definition zero : values := mkValues 0 ∅ 0.

Definition count (v : values) (e : effect) : values :=
  match e with
  | Received => mkValues (S (received v)) (rejected v) (publish_observed v)
  | Rejected reason =>
    mkValues (received v) (partial_alter (fun n => Some (S (default 0 n))) reason (rejected v)) (publish_observed v)
  | Publish _ => mkValues (received v) (rejected v) (S (publish_observed v))
  | Reply _ => v
  end.
Definition counted (effects : list effect) : values := foldl count zero effects.

Definition rejections (effects : list effect) : list string :=
  omap (fun e => match e with Rejected reason => Some reason | _ => None end) effects.
Definition receptions (effects : list effect) : nat :=
  length (omap (fun e => match e with Received => Some tt | _ => None end) effects).

Definition tally (l : list string) : gmap string nat :=
  foldl (fun m reason => partial_alter (fun n => Some (S (default 0 n))) reason m) ∅ l.

(** What the counters show of a history. *)
Lemma counted_spec effects :
  counted effects = mkValues (receptions effects) (tally (rejections effects)) (length (published effects)).
Proof.
  unfold counted. induction effects as [|e effects IH] using rev_ind; [done|].
  rewrite foldl_app, IH. unfold receptions, rejections, published, tally.
  rewrite !omap_app, !length_app, foldl_app.
  destruct e; cbn; rewrite ?app_nil_r, ?Nat.add_0_r, ?Nat.add_1_r; done.
Qed.

Lemma tally_one reason : tally [reason] = {[ reason := 1 ]}.
Proof.
  apply map_eq. intros r. cbn. destruct (decide (reason = r)) as [->|Hne].
  - by rewrite lookup_partial_alter_eq, lookup_singleton_eq.
  - by rewrite lookup_partial_alter_ne, lookup_singleton_ne.
Qed.

Lemma tally_dom l reason : is_Some (tally l !! reason) -> reason ∈ l.
Proof.
  induction l as [|r l IH] using rev_ind; [by intros [? H]|]. unfold tally in *. rewrite foldl_app. cbn.
  intros Hs. apply elem_of_app. destruct (decide (r = reason)) as [->|Hne]; [right; by left|left].
  apply IH. by rewrite lookup_partial_alter_ne in Hs.
Qed.

Section frames.
Context `{CaseTable} {F : Type} `{Float F}.
Context (sensitiveFilter : Sensitive.Filter).

(** What one frame adds: one reception; no rejection exactly when the bus took it. *)
Lemma handle_frame_counts userID roomID payload e limiter :
  let '(effects, _, _) := handle_frame sensitiveFilter userID roomID payload e limiter in
  receptions effects = 1 /\
  ((rejections effects = [] /\ exists request d, passes sensitiveFilter userID payload e limiter request /\
      danmaku_of userID roomID e request = Some d /\ publish_result e = None) \/
   (exists reason, rejections effects = [reason] /\ (reason ∈ reasons) /\ reason <> "frame_too_large"%string /\
      ~ exists request d, passes sensitiveFilter userID payload e limiter request /\
          danmaku_of userID roomID e request = Some d /\ publish_result e = None)).
Proof.
  assert (Hin : forall r, bool_decide (r ∈ reasons /\ r <> "frame_too_large"%string) = true ->
    r ∈ reasons /\ r <> "frame_too_large"%string) by (by intros r Hb%bool_decide_eq_true).
  assert (Hrej : forall r (P : Prop), bool_decide (r ∈ reasons /\ r <> "frame_too_large"%string) = true -> P ->
    exists reason, [r] = [reason] /\ (reason ∈ reasons) /\ reason <> "frame_too_large"%string /\ P).
  { intros r P [H1 H2]%Hin HP. by exists r. }
  unfold handle_frame, passes. destruct (UnmarshalRequest payload) as [request|err] eqn:Hun.
  2: { split; [done|right]. apply Hrej; [done|]. intros (? & ? & (? & _) & _). done. }
  assert (Hc : match check_content sensitiveFilter e request with
    | None => acceptable sensitiveFilter request
    | Some (effs, _) => receptions effs = 0 /\ ~ acceptable sensitiveFilter request /\
        exists reason, rejections effs = [reason] /\ (reason ∈ reasons) /\ reason <> "frame_too_large"%string end).
  { destruct (check_content_spec sensitiveFilter e request) as [[-> Ha]|(reason & code & text & He & Ha)]; [done|].
    rewrite He. split; [done|]. split; [done|]. exists reason. split; [done|]. apply Hin.
    unfold check_content, reject in He. destruct (bool_decide (TrimSpace _ = _)); [by injection He as <- _ _|].
    destruct (maxContentRunes <? _); [by injection He as <- _ _|].
    destruct (Sensitive.Match _ _).2; [by injection He as <- _ _|done]. }
  destruct (check_content sensitiveFilter e request) as [[effs go_on]|].
  { destruct Hc as (Hr & Ha & reason & Hrs & Hre & Hne). split; [by unfold receptions in *; cbn; f_equal|right].
    exists reason. split_and!; try done. intros (request' & ? & ([= <-] & ? & _) & _). done. }
  destruct (RateLimit.Allow userID (limiter_now e) limiter) as [[|] l1]; cbn [negb].
  2: { split; [done|right]. apply Hrej; [done|]. by intros (? & ? & (_ & _ & ? & _) & _). }
  unfold publish_content, danmaku_of, newMessageID. destruct (can_publish e) eqn:Hcan; cbn [negb].
  2: { split; [done|right]. apply Hrej; [done|]. by intros (? & ? & (_ & _ & _ & ?) & _). }
  destruct (random e) as [value|err].
  2: { split; [done|right]. apply Hrej; [done|]. by intros (? & ? & _ & ? & _). }
  destruct (publish_result e) as [err|].
  - split; [done|right]. apply Hrej; [done|]. by intros (? & ? & _ & _ & ?).
  - split; [done|left]. split; [done|]. by eexists request, _.
Qed.

(** Accounting.  A frame is received once, and then either the bus has taken its
    danmaku and it is counted under no reason, or it is counted under exactly one: the
    difference of the two counters is the number of messages on their way. *)
Theorem frame_is_accounted userID roomID payload e limiter :
  let v := counted (handle_frame sensitiveFilter userID roomID payload e limiter).1.1 in
  let taken := exists request d, passes sensitiveFilter userID payload e limiter request /\
    danmaku_of userID roomID e request = Some d /\ publish_result e = None in
  received v = 1 /\
  ((taken /\ rejected v = ∅ /\ publish_observed v = 1) \/
   (~ taken /\ exists reason, rejected v = {[ reason := 1 ]} /\ (reason ∈ reasons))).
Proof.
  intros v taken. pose proof (handle_frame_counts userID roomID payload e limiter) as Hf.
  pose proof (handle_frame_published_once sensitiveFilter userID roomID payload e limiter) as Hp.
  unfold v, taken. rewrite counted_spec. clear v taken.
  destruct (handle_frame sensitiveFilter userID roomID payload e limiter) as [[effs go_on] l1]. cbn [fst] in *.
  destruct Hf as [Hr [(Hn & Htaken)|(reason & Hrs & Hin & _ & Hnot)]]; split; try done.
  - left. rewrite Hn. cbn. split_and!; [done..|]. destruct Htaken as (request & d & Hpass & Hd & _).
    by rewrite (Hp request d Hpass Hd).
  - right. split; [done|]. exists reason. rewrite Hrs. cbn [rejected]. by rewrite tally_one.
Qed.

(** The handler's history: frames, and the oversized frame that ends it. *)
Definition taking_frames (pc : Session.reader_pc) : bool :=
  match pc with Session.RRead | Session.RQueue _ _ | Session.RAwait _ _ => true | _ => false end.

Lemma reader_effects userID roomID c ch s s' :
  Session.reader_step sensitiveFilter userID roomID c ch s = Some (Returns s') ->
  (Session.effects s' = Session.effects s /\
     (taking_frames (Session.reader s') = true -> taking_frames (Session.reader s) = true)) \/
  (Session.reader s = Session.RRead /\
     ((exists payload e limiter, Session.effects s' = Session.effects s ++
         (handle_frame sensitiveFilter userID roomID payload (Session.assume_written e) limiter).1.1) \/
      Session.effects s' = Session.effects s ++ [Rejected "frame_too_large"] /\ Session.reader s' = Session.RDrain)).
Proof.
  unfold Session.reader_step, Session.readMessage_fails. intros Hs.
  destruct (Session.reader s) as [| |r last|t last| | | | | | | |] eqn:Hr, ch as [payload e limiter|err| |]; try done.
  - destruct (Session.failed s); [done|].
    destruct (handle_frame _ _ _ _ _ _) as [[effs go_on] l1] eqn:Hf. injection Hs as <-. right. split; [done|left].
    exists payload, e, limiter. by rewrite Hf.
  - case_bool_decide; [|done]. cbn in Hs. injection Hs as <-. destruct err; [right; split; [done|right; by split]|left; by split].
  - destruct (Session.failed s); [done|]. injection Hs as <-. left. by rewrite Hr.
  - case_bool_decide; [|done]. cbn in Hs. injection Hs as <-. by left.
  - destruct (send _ _) as [o|]; [|done]. cbn in Hs. destruct o; simplify_eq/=. by left.
  - destruct (recv _) as [[v d]|]; simplify_eq/=. by left.
  - destruct (Session.dones s !! t) as [d|]; [|done]. cbn in Hs. destruct (recv d) as [[v d']|]; [|done]. cbn in Hs.
    left. destruct v as [[err|]|]; simplify_eq/=; [done| |done]; by destruct last.
  - destruct (recv _) as [[v d]|]; simplify_eq/=. by left.
  - destruct (close _); simplify_eq/=. by left.
  - destruct (Room.Leave _ _ _) as [[[res r] h]|]; simplify_eq/=. by left.
  - injection Hs as <-. by left.
  - destruct (recv _) as [[v d]|]; simplify_eq/=. by left.
  - injection Hs as <-. by left.
  - injection Hs as <-. by left.
  - injection Hs as <-. by left.
Qed.

(** No other step touches the history. *)
Lemma step_effects userID roomID c l s s' :
  Session.step sensitiveFilter userID roomID c l s (Returns s') ->
  (exists ch, Session.reader_step sensitiveFilter userID roomID c ch s = Some (Returns s')) \/
  (Session.effects s' = Session.effects s /\ Session.reader s' = Session.reader s).
Proof.
  assert (Hheart : forall ch, Session.heart_step ch s = Some (Returns s') ->
    Session.effects s' = Session.effects s /\ Session.reader s' = Session.reader s).
  { intros ch Ho. unfold Session.heart_step in Ho. destruct (Session.heart s), ch as [[err|]|]; simplify_eq/=; try done.
    - by destruct (Session.writable s); simplify_eq/=.
    - by destruct (recv _) as [[v d]|]; simplify_eq/=. }
  intros [Hs|Hs].
  - inversion Hs as [ch o _ Ho|ch o Ho|ch o _ Ho]; subst; [left; by eexists|right|right; by eapply Hheart].
    unfold Session.writer_step in Ho.
    destruct (Session.writer s), ch as [| |[err'|]|]; try done; simplify_eq/=; try done.
    + by destruct (Room.Receive _ _) as [[v h]|]; simplify_eq/=.
    + by destruct (recv _) as [[[v|] h]|]; simplify_eq/=.
    + by destruct (Session.writable s); simplify_eq/=.
    + by destruct (Session.writable s); simplify_eq/=.
    + destruct (Session.dones s !! _) as [d|]; [|done]. cbn in Ho. destruct (send d err) as [o|]; [|done].
      by destruct o; simplify_eq/=.
    + by destruct (close _); simplify_eq/=.
  - inversion Hs as [ch o _ Ho|o Ho| | | |]; subst; [left; by eexists|right; by eapply Hheart|by right..].
Qed.

Lemma receptions_app e1 e2 : receptions (e1 ++ e2) = receptions e1 + receptions e2.
Proof. unfold receptions. by rewrite omap_app, length_app. Qed.

Lemma rejections_app e1 e2 : rejections (e1 ++ e2) = rejections e1 ++ rejections e2.
Proof. apply omap_app. Qed.

Lemma session_rejections userID roomID c l s :
  Session.reachable sensitiveFilter userID roomID c l s ->
  Forall (fun r => r ∈ reasons) (rejections (Session.effects s)) /\
  length (rejections (Session.effects s)) <= S (receptions (Session.effects s)) /\
  (taking_frames (Session.reader s) = true ->
     length (rejections (Session.effects s)) <= receptions (Session.effects s)).
Proof.
  induction 1 as [room t _ _|s s' _ (IH1 & IH2 & IH3) Hs]; [split_and!; [constructor|cbn; lia|done]|].
  destruct (step_effects _ _ _ _ _ _ Hs) as [[ch Hch]|[-> ->]]; [|done].
  destruct (reader_effects _ _ _ _ _ _ Hch) as [[-> Ht]|[Hr [(payload & e & limiter & ->)|[-> Hd]]]]; [by auto|..].
  all: rewrite Hr in IH3; specialize (IH3 eq_refl); rewrite rejections_app, receptions_app, length_app, Forall_app.
  - pose proof (handle_frame_counts userID roomID payload (Session.assume_written e) limiter) as Hc.
    destruct (handle_frame _ _ _ _ _ _) as [[effs go_on] l1]. cbn [fst].
    destruct Hc as [-> [(-> & _)|(reason & -> & Hin & _)]]; cbn [length]; split_and!; try done; try lia.
    by apply Forall_singleton.
  - rewrite Hd. cbn. split_and!; [done|by apply Forall_singleton, (bool_decide_unpack _)|lia|done].
Qed.

(** Labels stay bounded.  Whatever a client sends, MessagesRejected gets label values
    from a list of eight, and a connection is never rejected more often than it received
    frames, but for the oversized frame that ends it. *)
Theorem rejection_labels_bounded userID roomID c l s :
  Session.reachable sensitiveFilter userID roomID c l s ->
  (forall reason, is_Some (rejected (counted (Session.effects s)) !! reason) -> reason ∈ reasons) /\
  length (rejections (Session.effects s)) <= S (received (counted (Session.effects s))) /\
  length reasons = 8.
Proof.
  intros Hr. rewrite counted_spec. cbn [rejected received].
  destruct (session_rejections _ _ _ _ _ Hr) as (H1 & H2 & _). split_and!; [|done|done].
  intros reason Hs. rewrite Forall_forall in H1. by apply H1, tally_dom.
Qed.

End frames.

(** ** Witnesses *)

(** A registry that keeps to the documentation, with a small Go collector. *)
#[local] Instance sample_prometheus : Prometheus := {|
  Register registered names :=
    if bool_decide (NoDup (registered ++ names)) && forallb valid_name names then None else Some (Errorf "duplicate");
  go_collector := ["go_goroutines"; "go_threads"]%string;
|}.
#[local] Instance sample_prometheus_laws : PrometheusLaws.
Proof.
  split.
  - intros registered names Hv Hnd. cbn. rewrite bool_decide_eq_true_2 by done.
    replace (forallb valid_name names) with true; [done|]. symmetry. apply forallb_forall.
    intros n Hn%list_elem_of_In. rewrite Forall_forall in Hv. by apply Hv.
  - split_and!; [by repeat first [apply Forall_nil_2|apply Forall_cons_2]|by apply (bool_decide_unpack _)|].
    cbn. repeat first [apply Forall_nil_2|apply Forall_cons_2]; by eexists.
Qed.

Lemma New_registers_witness : exists registry, New = Returns (metrics, registry) /\ length registry = 11.
Proof. eexists. split; [exact New_registers|reflexivity]. Defined.

Lemma rejection_labels_bounded_witness :
  exists s, Session.sample_reachable s /\ rejections (Session.effects s) = ["invalid_json"%string] /\
    length (rejections (Session.effects s)) <= S (received (counted (Session.effects s))).
Proof.
  destruct (Session.sample_state Session.answered (fun s => bool_decide (rejections (Session.effects s) = ["invalid_json"%string])))
    as (s & Hr & Hw%bool_decide_eq_true); [vm_compute; reflexivity|].
  exists s. split; [exact Hr|]. split; [exact Hw|].
  exact (proj1 (proj2 (rejection_labels_bounded _ _ _ _ _ s Hr))).
Defined.

End Metrics.
