(* ===== verification/Logging.v ===== *)
(** * Logging (internal/logging/logger.go, internal/httpserver/logging.go)

    The logger of the process and the two middlewares every HTTP request passes through.
    zap builds the logger; gin runs the chain of handlers, and its CustomRecovery catches
    panics: they are classes with the laws of their documentation. *)

From S2P Require Import Prelude.
From S2P Require Import GoStrings.

Module Logging.

(** ** The logger *)

(** Levels, loggers and the fields of a zap.Config that the program leaves alone. *)
Class Zap (level logger rest : Type) := {
  UnmarshalText : string -> result level;
  NewProductionConfig : level * list string * list string * option rest * rest;
  Build : level * list string * list string * option rest * rest -> result logger;
}.

Section new.
Context `{CaseTable} {level logger rest : Type} `{Zap level logger rest}.

Definition defaultLogLevel : string := "info".

Definition New (getenv : string -> string) : result logger :=
  let levelText := TrimSpace (getenv "DANMUFLOW_LOG_LEVEL") in
  let levelText := if bool_decide (levelText = ""%string) then defaultLogLevel else levelText in
  match UnmarshalText (ToLower levelText) with
  | Err err => Err (Wrap ("invalid DANMUFLOW_LOG_LEVEL " +:+ levelText) err)
  | Ok level =>
    let '(_, _, _, _, others) := NewProductionConfig in
    Build (level, ["stdout"%string], ["stderr"%string], None, others)
  end.

(** The level is read up to case and surrounding space, info when there is none; a level
    zap does not know is an error that names the variable; otherwise the result is that of
    Build, for entries on the standard output, errors on the standard error, and no
    sampling. *)
Theorem New_spec getenv :
  let text := TrimSpace (getenv "DANMUFLOW_LOG_LEVEL") in
  let shown := if bool_decide (text = ""%string) then "info"%string else text in
  match UnmarshalText (ToLower shown) with
  | Err err => New getenv = Err (Wrap ("invalid DANMUFLOW_LOG_LEVEL " +:+ shown) err)
  | Ok level => exists others, New getenv = Build (level, ["stdout"%string], ["stderr"%string], None, others)
  end.
Proof.
  cbv zeta. unfold New. change defaultLogLevel with "info"%string. destruct (UnmarshalText _); [|done].
  destruct NewProductionConfig as [[[[]]] others]. by exists others.
Qed.

End new.

(** ** Requests *)

Inductive severity := InfoLevel | WarnLevel | ErrorLevel.

#[export] Instance severity_eq_dec : EqDecision severity.
Proof. solve_decision. Defined.

(** The fields of http_request, and http_panic with the value recovered. *)
Inductive entry :=
  | HttpRequest (at_level : severity) (method path : string) (status : Z) (latency : duration) (client_ip : string)
      (errors : option string)
  | HttpPanic (recovered : string).

(** A request and the response so far: [written] once its header is out; [logged], what
    the loggers got. *)
Record context := mkContext {
  method : string; path : string; query : string; client_ip : string;
  status : Z; written : bool; errors : list string; logged : list entry;
}.

Definition log (e : entry) (c : context) : context :=
  mkContext (method c) (path c) (query c) (client_ip c) (status c) (written c) (errors c) (logged c ++ [e]).

(** A handler with the rest of the chain: the context it leaves and, if it panicked, the
    panic's value. *)
Definition handler : Type := context -> context * option string.

(** gin: AbortWithStatus sets a status that is not out yet; CustomRecovery calls its
    function when the rest of the chain panics. *)
Class Gin := {
  errors_String : list string -> string;
  AbortWithStatus : Z -> context -> context;
  CustomRecovery : (string -> context -> context) -> handler -> handler;
  AbortWithStatus_sets : forall code c, written c = false ->
    AbortWithStatus code c = mkContext (method c) (path c) (query c) (client_ip c) code true (errors c) (logged c);
  recovery_passes : forall handle next c c', next c = (c', None) -> CustomRecovery handle next c = (c', None);
  recovery_handles : forall handle next c c' why, next c = (c', Some why) ->
    CustomRecovery handle next c = (handle why c', None);
}.

Section middleware.
Context `{Gin}.

(** [start] and [now] are the clock before and after the rest of the chain. *)
Definition zapHTTPLogger (start now : time) (next : handler) : handler := fun c =>
  let '(c, panic) := next c in
  match panic with
  | Some why => (c, Some why)
  | None =>
    let errs := if (0 <? length (errors c)) then Some (errors_String (errors c)) else None in
    let level := if (500 <=? status c)%Z then ErrorLevel else if (400 <=? status c)%Z then WarnLevel else InfoLevel in
    (log (HttpRequest level (method c) (path c) (status c) (time_Sub now start) (client_ip c) errs) c, None)
  end.

Definition zapRecovery : handler -> handler :=
  CustomRecovery (fun recovered c => AbortWithStatus 500 (log (HttpPanic recovered) c)).

(** router.Use(zapHTTPLogger, zapRecovery) around a route. *)
Definition chain (start now : time) (route : handler) : handler := zapHTTPLogger start now (zapRecovery route).

(** Every request is answered and logged.  No panic leaves the chain; every request gets
    one http_request entry, the last, with the final status and at its severity; a route
    that panics before its header is out is answered with 500 and logged as an error, after
    an http_panic entry. *)
Theorem every_request_is_logged start now route c :
  let '(c', panic) := chain start now route c in
  panic = None /\
  exists before level errs, logged c' = before ++ [HttpRequest level (method c') (path c') (status c') (time_Sub now start) (client_ip c') errs] /\
    (level = ErrorLevel <-> (500 <= status c')%Z) /\
    match route c with
    | (c1, None) => before = logged c1 /\ status c' = status c1
    | (c1, Some why) => written c1 = false -> before = logged c1 ++ [HttpPanic why] /\ status c' = 500%Z /\ level = ErrorLevel
    end.
Proof.
  unfold chain, zapHTTPLogger, zapRecovery. destruct (route c) as [c1 [why|]] eqn:Hr.
  - rewrite (recovery_handles _ _ _ _ _ Hr). split; [done|]. eexists _, _, _. split; [reflexivity|]. cbn [status method path client_ip log].
    split.
    + case_match eqn:H1; [split; [|done]; intros _; by apply Z.leb_le|]. apply Z.leb_gt in H1. case_match; split; done || lia.
    + intros Hw. rewrite AbortWithStatus_sets by done. cbn. done.
  - rewrite (recovery_passes _ _ _ _ Hr). split; [done|]. eexists _, _, _. split; [reflexivity|]. cbn [status method path client_ip log].
    split; [|done]. case_match eqn:H1; [split; [|done]; intros _; by apply Z.leb_le|]. apply Z.leb_gt in H1. case_match; split; done || lia.
Qed.

(** The entries for requests that differ in their query only, when the route answers them
    alike, are the same: no query string is logged. *)
Theorem query_is_not_logged start now route c q :
  let with_query q c := mkContext (method c) (path c) q (client_ip c) (status c) (written c) (errors c) (logged c) in
  (forall c, route (with_query q c) = (with_query q (route c).1, (route c).2)) ->
  written (route c).1 = false ->
  logged (chain start now route (with_query q c)).1 = logged (chain start now route c).1.
Proof.
  intros with_query Hroute Hw. specialize (Hroute c). destruct (route c) as [c1 [why|]] eqn:Hr; cbn [fst snd] in Hroute, Hw;
    unfold chain, zapHTTPLogger, zapRecovery.
  - rewrite (recovery_handles _ _ _ _ _ Hr), (recovery_handles _ _ _ _ _ Hroute).
    rewrite !AbortWithStatus_sets by done. done.
  - rewrite (recovery_passes _ _ _ _ Hr), (recovery_passes _ _ _ _ Hroute). done.
Qed.

End middleware.

(** gin as its documentation describes it. *)
Definition sample_gin : Gin.
Proof.
  refine {|
    errors_String l := foldr String.append ""%string l;
    AbortWithStatus code c :=
      if written c then c
      else mkContext (method c) (path c) (query c) (client_ip c) code true (errors c) (logged c);
    CustomRecovery handle next c := match next c with (c, None) => (c, None) | (c, Some why) => (handle why c, None) end;
  |}.
  - by intros code c ->.
  - by intros handle next c c' ->.
  - by intros handle next c c' why ->.
Defined.

Definition sample_context : context := mkContext "GET" "/route" "room_id=1" "10.0.0.1" 200 false [] [].

(** A route that panics. *)
Lemma query_is_not_logged_witness :
  logged (chain (H := sample_gin) 0%Z Second (fun c => (c, Some "boom"%string)) (mkContext "GET" "/route" "token=2" "10.0.0.1" 200 false [] [])).1 =
    [HttpPanic "boom"; HttpRequest ErrorLevel "GET" "/route" 500 Second "10.0.0.1" None].
Proof.
  etransitivity; [|reflexivity].
  exact (query_is_not_logged (H := sample_gin) 0%Z Second (fun c => (c, Some "boom"%string)) sample_context "token=2"
    (fun _ => eq_refl) eq_refl).
Defined.

End Logging.
