(* ===== verification/Config.v ===== *)
(** * Configuration (internal/httpserver/kafka_config.go, routing_config.go)

    The environment is the argument [getenv], the empty string when a variable is
    unset. *)

From S2P Require Import Prelude.
From S2P Require Import Utf8.
From S2P Require Import GoStrings.
From S2P Require Import Kafka.
From S2P Require Import GoUrl.
From S2P Require Import Routing.
From S2P Require Import Redis.
From S2P Require Import Publisher.

Module Config.
Import Redis.

Section env.
Context (getenv : string -> string).

Definition envOrDefault (name fallback : string) : string :=
  let value := TrimSpace (getenv name) in
  if bool_decide (value = ""%string) then fallback else value.

(** The loop over the parts. *)
Fixpoint trimmed_parts (parts : list string) (brokers : list string) : list string :=
  match parts with
  | [] => brokers
  | part :: parts =>
    let broker := TrimSpace part in
    trimmed_parts parts (if bool_decide (broker = ""%string) then brokers else brokers ++ [broker])
  end.
Definition splitCSVEnv (name fallback : string) : list string :=
  trimmed_parts (Split (envOrDefault name fallback) ",") [].

(** ** Kafka *)

Definition defaultKafkaBroker : string := "localhost:9092".
Definition defaultKafkaTopic : string := "danmaku".
Definition defaultKafkaGroup : string := "danmuflow-broadcast".

Definition KafkaConfigFromEnv : Kafka.KafkaConfig :=
  Kafka.mkKafkaConfig
    (splitCSVEnv "DANMUFLOW_KAFKA_BROKERS" defaultKafkaBroker)
    (envOrDefault "DANMUFLOW_KAFKA_TOPIC" defaultKafkaTopic)
    (envOrDefault "DANMUFLOW_KAFKA_GROUP_ID" defaultKafkaGroup).

(** ** Routing *)

Definition defaultRedisAddress : string := "localhost:6379".
Definition defaultRoutingLeaseTTL : duration := (6 * Second)%Z.
Definition defaultRoutingPollInterval : duration := (100 * Millisecond)%Z.

Record RoutingConfig := mkRoutingConfig {
  RedisAddress : string; RedisPassword : string; RedisDB : Z; RedisKeyPrefix : string;
  GatewayID : string; PublicWebSocketURL : string; LeaseTTL : duration; PollInterval : duration;
}.

Definition RoutingConfigFromEnv (os_hostname : result string) : RoutingConfig :=
  let hostname := match os_hostname with
                  | Err _ => "unknown-gateway"%string
                  | Ok name => if is_blank name then "unknown-gateway"%string else name
                  end in
  mkRoutingConfig
    (envOrDefault "DANMUFLOW_REDIS_ADDR" defaultRedisAddress)
    (getenv "DANMUFLOW_REDIS_PASSWORD") 0
    (envOrDefault "DANMUFLOW_REDIS_ROUTE_PREFIX" "danmuflow:routing")
    (envOrDefault "DANMUFLOW_GATEWAY_ID" hostname)
    (TrimSpace (getenv "DANMUFLOW_PUBLIC_WS_URL"))
    defaultRoutingLeaseTTL defaultRoutingPollInterval.

End env.

Definition enabled (config : RoutingConfig) : bool := negb (is_blank (PublicWebSocketURL config)).

Definition validate `{IPLiterals} (config : RoutingConfig) : option error :=
  if negb (enabled config) then None
  else
    let bad_url :=
      match url_Parse (PublicWebSocketURL config) with
      | Err _ => true
      | Ok parsed =>
          negb (bool_decide (Scheme parsed = "ws"%string)) && negb (bool_decide (Scheme parsed = "wss"%string))
          || bool_decide (Host parsed = ""%string) || User parsed
          || negb (bool_decide (RawQuery parsed = ""%string))
          || negb (bool_decide (Fragment parsed = ""%string))
      end in
    if bad_url then Some (Sentinel ErrInvalidConfig)
    else if is_blank (RedisAddress config) || is_blank (GatewayID config) || (RedisDB config <? 0)%Z
            || (LeaseTTL config <=? 0)%Z || (PollInterval config <=? 0)%Z
            || (LeaseTTL config <=? PollInterval config)%Z
    then Some (Sentinel ErrInvalidConfig)
    else None.

(** ** Lemmas *)

Lemma trimmed_parts_spec parts : forall brokers,
  trimmed_parts parts brokers = brokers ++ filter (fun b => b <> ""%string) (TrimSpace <$> parts).
Proof.
  induction parts as [|part parts IH]; intros brokers; cbn; [by rewrite app_nil_r|].
  rewrite IH. unfold filter. case_bool_decide as Hb; case_decide as Hd; try done.
  by rewrite <- app_assoc.
Qed.

Lemma elem_of_splitCSVEnv getenv name fallback b :
  b ∈ splitCSVEnv getenv name fallback <->
  b <> ""%string /\ exists part, part ∈ Split (envOrDefault getenv name fallback) "," /\ b = TrimSpace part.
Proof.
  unfold splitCSVEnv. rewrite trimmed_parts_spec. cbn.
  rewrite list_elem_of_filter, list_elem_of_fmap. naive_solver.
Qed.

Lemma envOrDefault_nonempty getenv name fallback :
  fallback <> ""%string -> envOrDefault getenv name fallback <> ""%string.
Proof. intros Hf. unfold envOrDefault. by case_bool_decide. Qed.

Lemma websocket_url_validate parsed :
  websocket_url parsed =
  negb (negb (bool_decide (Scheme parsed = "ws"%string)) && negb (bool_decide (Scheme parsed = "wss"%string))
        || bool_decide (Host parsed = ""%string) || User parsed
        || negb (bool_decide (RawQuery parsed = ""%string))
        || negb (bool_decide (Fragment parsed = ""%string))).
Proof.
  unfold websocket_url. do 5 case_bool_decide; by destruct (User parsed).
Qed.

(** What validate asks for, when the routing is enabled. *)
Lemma validate_spec `{IPLiterals} config :
  enabled config = true ->
  validate config = None <->
  (exists parsed, url_Parse (PublicWebSocketURL config) = Ok parsed /\ websocket_url parsed = true) /\
  is_blank (RedisAddress config) = false /\ is_blank (GatewayID config) = false /\ (0 <= RedisDB config)%Z /\
  (0 < PollInterval config < LeaseTTL config)%Z.
Proof.
  intros He. unfold validate. rewrite He. cbn [negb].
  destruct (url_Parse (PublicWebSocketURL config)) as [parsed|err]; [|naive_solver].
  pose proof (websocket_url_validate parsed) as Hu.
  destruct (_ || _ || _ || _ || _) in Hu |- *; cbn in Hu.
  { split; [done|]. intros ((p & [= <-] & ?) & _). congruence. }
  destruct (is_blank (RedisAddress config)); [cbn; naive_solver|].
  destruct (is_blank (GatewayID config)); [cbn; naive_solver|]. cbn [orb].
  destruct (Z.ltb_spec (RedisDB config) 0); [cbn; split; [done|lia]|].
  destruct (Z.leb_spec (LeaseTTL config) 0); [cbn; split; [done|lia]|].
  destruct (Z.leb_spec (PollInterval config) 0); [cbn; split; [done|lia]|].
  destruct (Z.leb_spec (LeaseTTL config) (PollInterval config)); cbn; [split; [done|lia]|].
  split; [|done]. intros _. split_and!; try done; try lia. by exists parsed.
Qed.

(** ** Properties *)

(** The Kafka configuration from the environment is accepted exactly when the broker
    list, after falling back to the default, names some broker between its commas; every
    broker passed on is trimmed and not empty.  Topic and group never fail. *)
Theorem KafkaConfigFromEnv_accepted getenv :
  (is_ok (Kafka.NewKafka (KafkaConfigFromEnv getenv)) = true <->
   exists part, part ∈ Split (envOrDefault getenv "DANMUFLOW_KAFKA_BROKERS" defaultKafkaBroker) "," /\
                ~ blank_string part) /\
  (forall b, b ∈ Kafka.Brokers (KafkaConfigFromEnv getenv) -> b <> ""%string /\ TrimSpace b = b).
Proof.
  assert (Hb : forall b, b ∈ Kafka.Brokers (KafkaConfigFromEnv getenv) -> b <> ""%string /\ TrimSpace b = b).
  { intros b (? & part & _ & ->)%elem_of_splitCSVEnv. split; [done|]. apply TrimSpace_idemp. }
  split; [|exact Hb].
  assert (Ht : Kafka.c_Topic (KafkaConfigFromEnv getenv) <> ""%string) by by apply envOrDefault_nonempty.
  assert (Hg : Kafka.GroupID (KafkaConfigFromEnv getenv) <> ""%string) by by apply envOrDefault_nonempty.
  unfold Kafka.NewKafka. rewrite (bool_decide_false _ Ht), (bool_decide_false _ Hg).
  assert (Hno : existsb is_blank (Kafka.Brokers (KafkaConfigFromEnv getenv)) = false).
  { apply not_true_is_false. rewrite existsb_exists. intros (b & Hin & Hblank).
    apply list_elem_of_In, Hb in Hin as [Hne Htrim]. apply bool_decide_eq_true in Hblank. congruence. }
  rewrite Hno, !orb_false_r.
  assert (Hiff : Kafka.Brokers (KafkaConfigFromEnv getenv) <> [] <->
    exists part, part ∈ Split (envOrDefault getenv "DANMUFLOW_KAFKA_BROKERS" defaultKafkaBroker) "," /\
                 ~ blank_string part).
  { split.
    - intros Hne. destruct (Kafka.Brokers (KafkaConfigFromEnv getenv)) as [|b bs] eqn:Hbs; [done|].
      assert (Hin : b ∈ Kafka.Brokers (KafkaConfigFromEnv getenv)) by (rewrite Hbs; left).
      apply elem_of_splitCSVEnv in Hin as (Hb1 & part & Hp & ->). exists part. split; [done|].
      by rewrite <- TrimSpace_blank.
    - intros (part & Hp & Hnb) Hnil. assert (Hin : TrimSpace part ∈ Kafka.Brokers (KafkaConfigFromEnv getenv)).
      { apply elem_of_splitCSVEnv. rewrite TrimSpace_blank. eauto. }
      rewrite Hnil in Hin. by apply elem_of_nil in Hin. }
  rewrite <- Hiff. case_bool_decide as Hnil; cbn; naive_solver.
Qed.

(** A routing configuration that passes validation starts, and what it publishes is
    accepted by the directory: the Redis client is made, StartPublisher succeeds with any
    16 random bytes, and the lease is valid, so Register never refuses it for its
    content. *)
Theorem validate_sufficient `{IPLiterals} config prefix token :
  enabled config = true -> validate config = None -> length token = Publisher.publisherTokenBytes ->
  Forall is_byte token ->
  exists reg lease,
    NewRedisRegistry (mkRedisConfig (RedisAddress config) (RedisPassword config) (RedisDB config) prefix) = Ok reg /\
    Publisher.StartPublisher false false
      (Publisher.mkPublisherConfig (GatewayID config) (PublicWebSocketURL config)
         (LeaseTTL config) (PollInterval config)) (Ok token) = Ok lease /\
    unusable (Some reg) = false /\ validLease lease = true.
Proof.
  intros He Hv Hlen Hbytes. apply validate_spec in Hv as ((parsed & Hp & Hw) & Haddr & Hgw & Hdb & Hpoll); [|done].
  unfold NewRedisRegistry. cbn [Address DB]. rewrite Haddr, (proj2 (Z.ltb_ge _ _) Hdb). cbn [orb].
  eexists _, _. split; [reflexivity|].
  assert (Hne : forall s, is_blank s = false -> s <> ""%string) by by intros s Hs ->.
  unfold Publisher.StartPublisher. cbn [Publisher.GatewayID Publisher.WebSocketURL Publisher.LeaseTTL Publisher.PollInterval].
  apply negb_true_iff in He. rewrite !bool_decide_false by auto.
  rewrite !(proj2 (Z.leb_gt _ _)) by lia. cbn. split; [reflexivity|]. split; [done|].
  unfold validLease. cbn [Routing.GatewayID Token WebSocketURL]. rewrite Hgw, Hp, Hw.
  assert (Htok : is_blank (EncodeToString token) = false).
  { apply is_blank_false. intros ->%hex_not_blank; [done|done]. }
  by rewrite Htok.
Qed.

Lemma validate_sufficient_witness :
  exists reg lease, NewRedisRegistry (mkRedisConfig "redis:6379" "" 0 "p:") = Ok reg /\
    keyPrefix reg = "p"%string /\ validLease (H1 := no_literals) lease = true /\ Routing.GatewayID lease = "gw-1"%string.
Proof.
  destruct (validate_sufficient (H := no_literals)
    (mkRoutingConfig "redis:6379" "" 0 "p:" "gw-1" "ws://gw-1/ws" (6 * Second)%Z (100 * Millisecond)%Z)
    "p:" (replicate 16 255%Z)) as (reg & lease & H1 & H2 & _ & H3).
  - vm_compute. reflexivity.
  - vm_compute. reflexivity.
  - reflexivity.
  - unfold is_byte. repeat constructor; lia.
  - exists reg, lease. split; [exact H1|]. split; [|split; [exact H3|]].
    + vm_compute in H1. injection H1 as <-. reflexivity.
    + vm_compute in H2. injection H2 as <-. reflexivity.
Defined.

(** The routing configuration from the environment is enabled exactly when a public
    WebSocket URL is set; it is then valid exactly when that URL, trimmed, is a plain ws
    or wss URL with a host: every other field has a usable default. *)
Theorem RoutingConfigFromEnv_valid `{IPLiterals} getenv hostname :
  let config := RoutingConfigFromEnv getenv hostname in
  (enabled config = true <-> ~ blank_string (getenv "DANMUFLOW_PUBLIC_WS_URL")) /\
  (enabled config = false -> validate config = None) /\
  (enabled config = true ->
     (validate config = None <->
      exists parsed, url_Parse (TrimSpace (getenv "DANMUFLOW_PUBLIC_WS_URL")) = Ok parsed /\
                     websocket_url parsed = true)).
Proof.
  intros config. split; [|split].
  - unfold config, enabled. cbn. rewrite is_blank_TrimSpace, negb_true_iff. apply is_blank_false.
  - intros He. unfold validate. by rewrite He.
  - intros He. rewrite validate_spec by done. cbn.
    assert (Hd : forall name fallback, is_blank fallback = false -> is_blank (envOrDefault getenv name fallback) = false).
    { intros name fallback Hf. unfold envOrDefault. case_bool_decide as Hb; [done|].
      rewrite is_blank_TrimSpace. apply is_blank_false. by rewrite <- TrimSpace_blank. }
    rewrite !Hd; [|..|reflexivity].
    + naive_solver.
    + destruct hostname as [name|]; [|reflexivity]. by destruct (is_blank name) eqn:Hn.
Qed.

End Config.
