(* ===== verification/Server.v ===== *)
(** * The server (internal/httpserver/server.go)

    Construction, readiness, the control-plane route and Shutdown.  Type assertions
    on the bus give options; what infrastructure answers is an argument.  The
    ownership monitor is in file Handshake, the WebSocket handler in WebSocket. *)

From S2P Require Import Prelude.
From S2P Require Import Utf8.
From S2P Require Import GoStrings.
From S2P Require Import Bus.
From S2P Require Import Kafka.
From S2P Require Import GoUrl.
From S2P Require Import Routing.
From S2P Require Import Redis.
From S2P Require Import Publisher.
From S2P Require Import Config.
From S2P Require Import Broadcast.
From S2P Require Import Sensitive.
From S2P Require Import Message.
From S2P Require Import RateLimit.
From S2P Require Import WebSocket.

Module Server.

Definition readinessCheckTimeout : duration := Second.
Definition ownershipMonitorInterval : duration := (100 * Millisecond)%Z.

(** ** Readiness *)

(** [messageBus.(bus.Readiness)]: what the bus reports, if it implements it. *)
Record readiness := mkReadiness { consumer_ready : bool; check : option error }.

Definition canPublish (draining : bool) (bus : option readiness) : bool :=
  if draining then false
  else match bus with Some readiness => consumer_ready readiness | None => false end.

Definition isReady (draining : bool) (bus : option readiness) : bool :=
  if negb (canPublish draining bus) then false
  else match bus with
       | Some readiness => bool_decide (check readiness = None)
       | None => false
       end.

(** GET /readyz *)
Definition readyz (draining : bool) (bus : option readiness) : Z * string :=
  if negb (isReady draining bus) then (503%Z, line "not ready") else (200%Z, line "ready").

Section bus.
Context {B : Type} `{Bus.RoomOwnership B}.

(** [ownership] is None when the bus has no partitions (InMemoryBus). *)
Definition ownsRoom (ownership : option B) (roomID : string) : bool :=
  match ownership with None => true | Some b => Bus.OwnsRoom b roomID end.
Definition ownershipRevision (ownership : option B) : Z :=
  match ownership with None => 0%Z | Some b => Bus.OwnershipRevision b end.

(** ** GET /route *)

Inductive route_response :=
  | RouteError (status : Z) (retry_after : bool)
  | RouteFound (room_id : string) (partition : Z) (gateway_id websocket_url : string).

Context {R Env : Type} `{Routing.Registry R Env}.

Definition route (room_id : string) (registry : option R) (ownership : option B) (e : Env) : route_response :=
  let roomID := TrimSpace room_id in
  if bool_decide (roomID = ""%string) then RouteError 400 false
  else match registry, ownership with
  | Some registry, Some b =>
    match Bus.PartitionForRoom b roomID with
    | None => RouteError 503 false
    | Some partition =>
      match Routing.Resolve e partition registry with
      | Err _ => RouteError 503 true
      | Ok lease => RouteFound roomID partition (GatewayID lease) (WebSocketURL lease)
      end
    end
  | _, _ => RouteError 503 false
  end.

End bus.

(** ** Construction *)

(** The background resources a constructor starts and stops, in order. *)
Inductive resource_action :=
  | StartConsumer | StopConsumer | OpenRegistry | CloseRegistry | StartRoutePublisher.

Definition routing_prefix (routeConfig : Config.RoutingConfig) (kafkaConfig : Kafka.KafkaConfig) : string :=
  let basePrefix := TrimSuffix (TrimSpace (Config.RedisKeyPrefix routeConfig)) ":" in
  let basePrefix := if bool_decide (basePrefix = ""%string) then "danmuflow:routing"%string else basePrefix in
  basePrefix +:+ ":" +:+ Kafka.c_Topic kafkaConfig +:+ ":" +:+ Kafka.GroupID kafkaConfig.
(** What the constructor hands to the HTTP server: the bus and, with routing, the
    directory's client and the published lease. *)
Record parts := mkParts { p_bus : Kafka.KafkaBus; p_routing : option (Redis.RedisRegistry * Lease) }.

Definition NewWithKafkaAndRouting `{IPLiterals} (kafkaConfig : Kafka.KafkaConfig)
  (routeConfig : Config.RoutingConfig) (random : result (list Z)) : result parts * list resource_action :=
  match Config.validate routeConfig with
  | Some err => (Err err, [])
  | None =>
    match Broadcast.newKafkaMessageBus kafkaConfig with
    | Err err => (Err err, [])
    | Ok messageBus =>
      if Config.enabled routeConfig then
        match Redis.NewRedisRegistry (Redis.mkRedisConfig (Config.RedisAddress routeConfig)
                (Config.RedisPassword routeConfig) (Config.RedisDB routeConfig)
                (routing_prefix routeConfig kafkaConfig)) with
        | Err err => (Err err, [StartConsumer; StopConsumer])
        | Ok redisRegistry =>
          match Publisher.StartPublisher false false
                  (Publisher.mkPublisherConfig (Config.GatewayID routeConfig)
                     (Config.PublicWebSocketURL routeConfig) (Config.LeaseTTL routeConfig)
                     (Config.PollInterval routeConfig)) random with
          | Err err => (Err err, [StartConsumer; OpenRegistry; CloseRegistry; StopConsumer])
          | Ok lease => (Ok (mkParts messageBus (Some (redisRegistry, lease))),
                         [StartConsumer; OpenRegistry; StartRoutePublisher])
          end
        end
      else (Ok (mkParts messageBus None), [StartConsumer])
    end
  end.

(** ** Shutdown *)

Definition ErrServerClosed : sentinel := mkSentinel "http" "ErrServerClosed".

Inductive shutdown_action :=
  | Drain | CloseConnections | StopMonitor | StopPublisher | CloseRoutes | StopBus | StopHTTP.

(** The optional parts of a server: the fields that are not nil. *)
Record server := mkServer {
  stopOwnershipMonitor : bool; routePublisher : bool; routeRegistry : bool; stopConsumer : bool;
}.

(** [stop], [close] and [http] are the results of the publisher's Stop, the registry's
    Close and the HTTP server's Shutdown. *)
Definition Shutdown (s : option server) (stop close http : option error)
  : option error * list shutdown_action :=
  match s with
  | None => (None, [])
  | Some s =>
    let errs := if routePublisher s then option_list stop else [] in
    let errs := errs ++ (if routeRegistry s then option_list close else []) in
    let errs := errs ++ (match http with
                         | Some err => if errors_Is err ErrServerClosed then [] else [err]
                         | None => [] end) in
    (errors_Join (Some <$> errs),
     [Drain; CloseConnections]
     ++ (if stopOwnershipMonitor s then [StopMonitor] else [])
     ++ (if routePublisher s then [StopPublisher] else [])
     ++ (if routeRegistry s then [CloseRoutes] else [])
     ++ (if stopConsumer s then [StopBus] else [])
     ++ [StopHTTP])
  end.

(** ** Properties *)

Definition count_action (a : resource_action) (actions : list resource_action) : nat :=
  count_if (fun b => match a, b with
    | StartConsumer, StartConsumer | StopConsumer, StopConsumer | OpenRegistry, OpenRegistry
    | CloseRegistry, CloseRegistry | StartRoutePublisher, StartRoutePublisher => true
    | _, _ => false end) actions.

(** C38: construction leaks nothing.  It succeeds exactly when the routing configuration is
    valid, the Kafka configuration is accepted and, if routing is enabled, the random
    source works; on failure every consumer and Redis client that was started has been
    stopped and no publisher runs; on success the consumer runs, and client and publisher
    exactly when routing is enabled. *)
Theorem NewWithKafkaAndRouting_leaks_nothing `{IPLiterals} kafkaConfig routeConfig random :
  (forall token, random = Ok token -> length token = Publisher.publisherTokenBytes /\ Forall is_byte token) ->
  let '(res, actions) := NewWithKafkaAndRouting kafkaConfig routeConfig random in
  let routed := Config.enabled routeConfig && is_ok res in
  (is_ok res = true <->
     Config.validate routeConfig = None /\ is_ok (Kafka.NewKafka kafkaConfig) = true /\
     (Config.enabled routeConfig = true -> is_ok random = true)) /\
  count_action StartConsumer actions = count_action StopConsumer actions + (if is_ok res then 1 else 0) /\
  count_action OpenRegistry actions = count_action CloseRegistry actions + (if routed then 1 else 0) /\
  count_action StartRoutePublisher actions = (if routed then 1 else 0).
Proof.
  intros Hrandom. unfold NewWithKafkaAndRouting, Broadcast.newKafkaMessageBus.
  destruct (Config.validate routeConfig) as [err|] eqn:Hv.
  { cbn. rewrite andb_false_r. naive_solver. }
  destruct (Kafka.NewKafka kafkaConfig) as [b|err]; [|cbn; rewrite andb_false_r; naive_solver].
  destruct (Config.enabled routeConfig) eqn:He; [|cbn; naive_solver].
  apply Config.validate_spec in Hv as (_ & Ha & Hg & Hdb & Hpoll); [|done].
  unfold Redis.NewRedisRegistry. cbn [Redis.Address Redis.DB]. rewrite Ha, (proj2 (Z.ltb_ge _ _) Hdb). cbn [orb].
  assert (Hurl : is_blank (Config.PublicWebSocketURL routeConfig) = false) by (by apply negb_true_iff).
  assert (Hne : forall s, is_blank s = false -> s <> ""%string) by by intros s Hs ->.
  unfold Publisher.StartPublisher.
  cbn [Publisher.GatewayID Publisher.WebSocketURL Publisher.LeaseTTL Publisher.PollInterval].
  rewrite !bool_decide_false by auto. rewrite !(proj2 (Z.leb_gt _ _)) by lia. cbn [orb].
  destruct random as [token|err]; cbn; naive_solver.
Qed.

(** Shutdown always runs to its end, in its order: readiness fails first, then the
    connections are told to reconnect, then monitor, publisher, directory, consumer and
    listener are stopped, each that exists and whatever errors the earlier ones gave.  No
    error is lost: it returns nil exactly when none is left, a closed listener not being
    one, and any error that is not ErrServerClosed can be found in the result. *)
Theorem Shutdown_complete s stop close http :
  let '(err, actions) := Shutdown (Some s) stop close http in
  (exists rest, actions = Drain :: CloseConnections :: rest /\ List.last rest Drain = StopHTTP) /\
  (StopPublisher ∈ actions <-> routePublisher s = true) /\ (CloseRoutes ∈ actions <-> routeRegistry s = true) /\
  (StopBus ∈ actions <-> stopConsumer s = true) /\ (StopMonitor ∈ actions <-> stopOwnershipMonitor s = true) /\
  (err = None <-> (routePublisher s = true -> stop = None) /\ (routeRegistry s = true -> close = None) /\
                  (forall e, http = Some e -> e is_error ErrServerClosed)) /\
  (forall e target, e is_error target ->
     (routePublisher s = true /\ stop = Some e) \/ (routeRegistry s = true /\ close = Some e) \/
     (http = Some e /\ errors_Is e ErrServerClosed = false) ->
     exists joined, err = Some joined /\ joined is_error target).
Proof.
  unfold Shutdown. destruct s as [m p r c]. cbn [routePublisher routeRegistry stopOwnershipMonitor stopConsumer].
  split_and!.
  - eexists. split; [reflexivity|]. by destruct m, p, r, c.
  - destruct m, p, r, c; cbn; set_solver.
  - destruct m, p, r, c; cbn; set_solver.
  - destruct m, p, r, c; cbn; set_solver.
  - destruct m, p, r, c; cbn; set_solver.
  - destruct p, r, stop as [e1|], close as [e2|], http as [e3|]; cbn;
      try destruct (errors_Is e3 ErrServerClosed) eqn:H3; cbn; naive_solver congruence.
  - intros e target He Hcase. destruct p, r, stop as [e1|], close as [e2|], http as [e3|]; cbn;
      try destruct (errors_Is e3 ErrServerClosed) eqn:H3; cbn;
      destruct Hcase as [[? ?]|[[? ?]|[? ?]]]; simplify_eq; try congruence;
      (eexists; split; [reflexivity|]); cbn; rewrite He, ?orb_true_r; done.
Qed.

Definition sample_kafka : Kafka.KafkaConfig := Kafka.mkKafkaConfig ["k:9092"%string] "danmu" "gateways".
Definition sample_routing : Config.RoutingConfig :=
  Config.mkRoutingConfig "redis:6379" "" 0 "p:" "gw-1" "ws://gw-1/ws" (6 * Second)%Z (100 * Millisecond)%Z.

(** The random source fails after consumer and client were made: both are closed. *)
Lemma NewWithKafkaAndRouting_leaks_nothing_witness :
  let '(res, actions) := NewWithKafkaAndRouting (H := Redis.no_literals) sample_kafka sample_routing
    (Err (Errorf "no entropy")) in
  is_ok res = false /\ count_action StartConsumer actions = 1 /\ count_action StopConsumer actions = 1.
Proof.
  pose proof (NewWithKafkaAndRouting_leaks_nothing (H := Redis.no_literals) sample_kafka sample_routing
    (Err (Errorf "no entropy")) ltac:(discriminate)) as Hleak.
  destruct (NewWithKafkaAndRouting sample_kafka sample_routing (Err (Errorf "no entropy"))) as [res actions] eqn:Hn.
  destruct Hleak as (_ & Hc & _ & _). vm_compute in Hn. injection Hn as <- <-.
  split; [reflexivity|]. split; [reflexivity|]. vm_compute in Hc. vm_compute. congruence.
Defined.

(** C32: the control plane leads to the data plane.  Let a gateway own the room a client
    asks for and reconcile its leases, the Register of the room's partition getting
    through.  Then, for the whole TTL, any gateway that computes the same partition for the
    room and reaches the directory answers /route with that gateway's identity and URL; and
    the gateway there accepts the room's handshake as long as it still owns it. *)
Theorem route_leads_to_owner {B R Env} `{RoomOwnershipLaws B} `{RegistryLaws R Env}
  (owner b : B) room_id reg_env rel_env lease ttl order (r : R) p d :
  ~ blank_string room_id -> Bus.OwnsRoom owner (TrimSpace room_id) = true ->
  Bus.PartitionForRoom owner (TrimSpace room_id) = Some p ->
  Bus.PartitionForRoom b (TrimSpace room_id) = Some p ->
  registry_ok r -> lease_ok lease -> ttl_ok ttl -> partition_ok p -> reg_env p = healthy -> (0 <= d < ttl)%Z ->
  let directory := (Publisher.reconcile reg_env rel_env lease ttl (Bus.AssignedPartitions owner) order r).2 in
  route room_id (Some (Elapse d directory)) (Some b) healthy =
    RouteFound (TrimSpace room_id) p (GatewayID lease) (WebSocketURL lease) /\
  (forall user_id, ~ blank_string user_id ->
     WebSocket.handshake_guard true user_id room_id (ownsRoom (Some owner)) =
       WebSocket.Upgrade (TrimSpace user_id) (TrimSpace room_id)).
Proof.
  intros Hroom Hown Hp Hp' Hr Hl Ht Hpok He Hd directory.
  rewrite <- TrimSpace_blank in Hroom. split.
  - unfold route. rewrite bool_decide_false, Hp' by done.
    apply OwnsRoom_iff in Hown as (p' & Hp'' & Hin). rewrite Hp in Hp''. injection Hp'' as <-.
    assert (Hv : Resolve healthy p (Elapse d directory) = Ok lease).
    { by apply Publisher.reconcile_serves. }
    by rewrite Hv.
  - intros user_id Hu. rewrite <- TrimSpace_blank in Hu. unfold WebSocket.handshake_guard. cbn [negb].
    rewrite !bool_decide_false by done. cbn [ownsRoom]. by rewrite Hown.
Qed.

(** Draining stops the intake at once.  From the moment Shutdown has set the flag,
    /readyz answers 503, every handshake is refused with 503, and no frame of a connection
    that is still open is published, whatever bus, content and limiter. *)
Theorem draining_refuses `{CaseTable} {F} `{Float F} bus user_id room_id ownsRoom filter userID roomID
  payload now random created publish_result written (l : Limiter F) :
  readyz true bus = (503%Z, line "not ready") /\
  (exists text, WebSocket.handshake_guard (isReady true bus) user_id room_id ownsRoom = WebSocket.HTTPError 503 text) /\
  WebSocket.published (WebSocket.handle_frame filter userID roomID payload
    (WebSocket.mkSurroundings now (canPublish true bus) random created publish_result written) l).1.1 = [].
Proof.
  split_and!; [done|by eexists|].
  destruct (WebSocket.published _) as [|d ds] eqn:Hp; [done|]. exfalso.
  assert (Hin : d ∈ d :: ds) by left. rewrite <- Hp in Hin.
  apply WebSocket.handle_frame_published in Hin as (request & (_ & _ & _ & Hcan) & _). done.
Qed.

Import Kafka Redis.
#[local] Existing Instances Kafka.hash_by_length Kafka.hash_by_length_laws.

Lemma route_leads_to_owner_witness :
  route " room "
    (Some (Elapse Second (Publisher.reconcile Publisher.online Publisher.online Redis.g1 Redis.six_seconds
      [1%Z] [] Redis.sample_directory).2)) (Some (Some Kafka.sample_bus)) healthy
  = RouteFound "room" 1%Z "gw-1" "ws://gw-1/ws".
Proof.
  refine (proj1 (route_leads_to_owner (Some Kafka.sample_bus) (Some Kafka.sample_bus) " room " Publisher.online Publisher.online
    Redis.g1 Redis.six_seconds [] Redis.sample_directory 1%Z Second _ _ _ _ _ _ _ _ _ _)).
  - rewrite <- is_blank_false. vm_compute. reflexivity.
  - vm_compute. reflexivity.
  - vm_compute. reflexivity.
  - vm_compute. reflexivity.
  - apply Redis.sample_directory_ok.
  - apply Redis.sample_publishable.
  - apply Redis.six_seconds_ok.
  - cbn. lia.
  - done.
  - vm_compute. split; [intros ?; discriminate|reflexivity].
Defined.

End Server.
