(* ===== verification/Teardown.v ===== *)
(** * Shutdown among the goroutines it ends (internal/httpserver/server.go Shutdown)

    Server gives Shutdown as one function of the results of its calls.  Here it is a
    goroutine, statement by statement, composed with those it talks to: the ownership
    monitor (Monitor), the publisher's loop (PublisherLife), the consumer's goroutines
    (Consumer) and the workers of the bulk close (Connections).  All of them go on taking
    steps of their own in between, and the context of Shutdown may end at any time.  Each
    part keeps to its own step relation, so that what is proved of it still holds.

    Inside a call of code that is not under src/ (the directory client's Close, the Close
    of kafka-go's consumer group and writer, which take no context, and net/http's
    Shutdown) the goroutine waits until the environment lets the call return; what each
    call answered is kept. *)

From S2P Require Import Prelude.
From S2P Require Import GoChan.
From S2P Require Import Routing.
From S2P Require Import Redis.
From S2P Require Import Publisher.
From S2P Require Import PublisherLife.
From S2P Require Import Connections.
From S2P Require Import Monitor.
From S2P Require Import Consumer.
From S2P Require Import Server.

Module Teardown.
Import Connections.
Import Server.

(** The statements of Shutdown; [TTake] and [TClosing] are closeForServiceRestart, [TBus],
    [TGroup] and [TWriter] KafkaBus.Close, called by the consumer's stop function. *)
Inductive shutdown_pc :=
  | TDrain | TTake | TClosing | TMonitor | TPublisher | TRoutes | TConsumer | TBus | TGroup | TWriter | THttp
  | TReturned (err : option error).

(** The calls that wait for code outside: of the directory, the group, the writer, the
    HTTP server. *)
Inductive callee := Directory | Group | Writer | HTTP.

(** [expired]: the error of the context, once it has ended.  [log]: the parts told so far.
    [answers] is a history: what the calls of the others have returned. *)
Record teardown := mkTeardown {
  parts : server; pc : shutdown_pc; draining : bool; restart : option pool;
  monitor : Monitor.monitor; publisher : PublisherLife.life; stopping : PublisherLife.stop_pc;
  consumer : Consumer.consumer; expired : option error; errs : list error; log : list shutdown_action;
  answers : list (callee * option error);
}.

Definition begin (sv : server) (m : Monitor.monitor) (l : PublisherLife.life) (c : Consumer.consumer) : teardown :=
  mkTeardown sv TDrain false None m l PublisherLife.SCancel c None [] [] [].

(** cancelConsumer, the first statement of the consumer's stop function. *)
Definition cancel_consumer (c : Consumer.consumer) : Consumer.consumer :=
  Consumer.mkConsumer (Consumer.mirror c) (Consumer.supervisor c) true (Consumer.bus_ready c)
    (Consumer.ConsumerReady c) (Consumer.ConsumerRunning c) (Consumer.log c).

(** The bus is not ready any more: the first statement of its Close. *)
Definition bus_unready (c : Consumer.consumer) : Consumer.consumer :=
  Consumer.mkConsumer (Consumer.mirror c) (Consumer.supervisor c) (Consumer.cancelled c) false
    (Consumer.ConsumerReady c) (Consumer.ConsumerRunning c) (Consumer.log c).

Definition set_table (t : websocketConnections) (m : Monitor.monitor) : Monitor.monitor :=
  Monitor.mkMonitor (Monitor.enabled m) (Monitor.pc m) (Monitor.stop m) (Monitor.cancelled m) (Monitor.done m)
    (Monitor.bus_revision m) t (Monitor.pools m) (Monitor.logged m).

(** [Closer]: whether the bus has a Close, and then whether a group is active; [Result]: a
    call of code outside returns; [TakeDone]: which ready case the select of the
    publisher's Stop takes. *)
Inductive choice :=
  | Proceed | Visit (order : list conn) | TakeDone (b : bool) | Closer (group : option bool)
  | Result (err : option error).

Definition shutdown_step (ch : choice) (s : teardown) : option teardown :=
  let 'mkTeardown sv p dr re m l st c ex es lg an := s in
  match p, ch with
  | TDrain, Proceed => Some (mkTeardown sv TTake true re m l st c ex es (lg ++ [Drain]) an)
  | TTake, Visit order =>
    if bool_decide (order ≡ₚ elements (items (Monitor.table m))) then
      let '(taken, t) := take_for_restart order (Monitor.table m) in
      let q := pool_start taken in
      Some (mkTeardown sv TClosing dr (Some (if ex is Some _ then Monitor.end_context q else q)) (set_table t m) l st c
              ex es lg an)
    else None
  | TClosing, Proceed =>
    q ← re;
    if finished q || ended q then Some (mkTeardown sv TMonitor dr re m l st c ex es (lg ++ [CloseConnections]) an)
    else None
  | TMonitor, Proceed =>
    if stopOwnershipMonitor sv then
      match Monitor.stop m with
      | Monitor.SReturned => Some (mkTeardown sv TPublisher dr re m l st c ex es (lg ++ [StopMonitor]) an)
      | _ => m ← Monitor.stop_step m; Some (mkTeardown sv TMonitor dr re m l st c ex es lg an)
      end
    else Some (mkTeardown sv TPublisher dr re m l st c ex es lg an)
  | TPublisher, TakeDone b =>
    if routePublisher sv then
      match st with
      | PublisherLife.SReturned err =>
        Some (mkTeardown sv TRoutes dr re m l st c ex (es ++ option_list err) (lg ++ [StopPublisher]) an)
      | _ => '(st, l) ← PublisherLife.stop_step ex b st l; Some (mkTeardown sv TPublisher dr re m l st c ex es lg an)
      end
    else Some (mkTeardown sv TRoutes dr re m l st c ex es lg an)
  | TRoutes, Proceed =>
    if routeRegistry sv then None else Some (mkTeardown sv TConsumer dr re m l st c ex es lg an)
  | TRoutes, Result err =>
    if routeRegistry sv then
      Some (mkTeardown sv TConsumer dr re m l st c ex (es ++ option_list err) (lg ++ [CloseRoutes]) an)
    else None
  | TConsumer, Proceed =>
    if stopConsumer sv then Some (mkTeardown sv TBus dr re m l st (cancel_consumer c) ex es lg an)
    else Some (mkTeardown sv THttp dr re m l st c ex es lg an)
  | TBus, Closer None => Some (mkTeardown sv THttp dr re m l st c ex es (lg ++ [StopBus]) an)
  | TBus, Closer (Some group) =>
    Some (mkTeardown sv (if group then TGroup else TWriter) dr re m l st (bus_unready c) ex es lg an)
  | TGroup, Result _ => Some (mkTeardown sv TWriter dr re m l st c ex es lg an)
  | TWriter, Result _ => Some (mkTeardown sv THttp dr re m l st c ex es (lg ++ [StopBus]) an)
  | THttp, Result err =>
    let es := es ++ (match err with
                     | Some e => if errors_Is e ErrServerClosed then [] else [e]
                     | None => [] end) in
    Some (mkTeardown sv (TReturned (errors_Join (Some <$> es))) dr re m l st c ex es (lg ++ [StopHTTP]) an)
  | _, _ => None
  end.

(** The call that a statement is inside of. *)
Definition calling (p : shutdown_pc) : option callee :=
  match p with
  | TRoutes => Some Directory | TGroup => Some Group | TWriter => Some Writer | THttp => Some HTTP
  | _ => None
  end.

(** What a step of Shutdown hears: the answer of the call it was inside of. *)
Definition heard (ch : choice) (s s' : teardown) : teardown :=
  mkTeardown (parts s') (pc s') (draining s') (restart s') (monitor s') (publisher s') (stopping s') (consumer s')
    (expired s') (errs s') (log s')
    (answers s' ++ match calling (pc s), ch with Some k, Result err => [(k, err)] | _, _ => [] end).

Section teardown.
Context (config : Publisher.PublisherConfig) (lease : Lease).

(** Shutdown alone calls the stop functions; nobody reopens the table. *)
Inductive step (s : teardown) : teardown -> Prop :=
  | step_shutdown ch s' : shutdown_step ch s = Some s' -> step s (heard ch s s')
  | step_monitor m :
      Monitor.step (monitor s) (Returns m) -> Monitor.stop m = Monitor.stop (monitor s) ->
      (closing (Monitor.table (monitor s)) = true -> closing (Monitor.table m) = true) ->
      step s (mkTeardown (parts s) (pc s) (draining s) (restart s) m (publisher s) (stopping s) (consumer s)
                (expired s) (errs s) (log s) (answers s))
  | step_publisher ch l :
      PublisherLife.life_step config lease ch (publisher s) = Some (Returns l) ->
      step s (mkTeardown (parts s) (pc s) (draining s) (restart s) (monitor s) l (stopping s) (consumer s)
                (expired s) (errs s) (log s) (answers s))
  | step_consumer c :
      Consumer.step (consumer s) c ->
      step s (mkTeardown (parts s) (pc s) (draining s) (restart s) (monitor s) (publisher s) (stopping s) c
                (expired s) (errs s) (log s) (answers s))
  | step_worker q q' :
      restart s = Some q -> pool_step q q' ->
      step s (mkTeardown (parts s) (pc s) (draining s) (Some q') (monitor s) (publisher s) (stopping s) (consumer s)
                (expired s) (errs s) (log s) (answers s))
  | step_expire err :
      expired s = None ->
      step s (mkTeardown (parts s) (pc s) (draining s) (Monitor.end_context <$> restart s) (monitor s) (publisher s)
                (stopping s) (consumer s) (Some err) (errs s) (log s) (answers s)).

Inductive reachable : teardown -> Prop :=
  | reachable_begin sv m l c :
      Monitor.reachable m -> Monitor.stop m = Monitor.SIdle ->
      PublisherLife.reachable config lease (PublisherLife.mkSystem l []) ->
      Consumer.reachable c -> reachable (begin sv m l c)
  | reachable_step s s' : reachable s -> step s s' -> reachable s'.

(** ** The invariant *)

Definition stage (p : shutdown_pc) : nat :=
  match p with
  | TDrain => 0 | TTake => 1 | TClosing => 2 | TMonitor => 3 | TPublisher => 4 | TRoutes => 5 | TConsumer => 6
  | TBus => 7 | TGroup => 8 | TWriter => 9 | THttp => 10 | TReturned _ => 11
  end.

(** The actions up to a statement. *)
Definition told (sv : server) (n : nat) : list shutdown_action :=
  (if 1 <=? n then [Drain] else []) ++ (if 3 <=? n then [CloseConnections] else [])
  ++ (if (4 <=? n) && stopOwnershipMonitor sv then [StopMonitor] else [])
  ++ (if (5 <=? n) && routePublisher sv then [StopPublisher] else [])
  ++ (if (6 <=? n) && routeRegistry sv then [CloseRoutes] else [])
  ++ (if (10 <=? n) && stopConsumer sv then [StopBus] else [])
  ++ (if 11 <=? n then [StopHTTP] else []).

(** What a callee answered last, and what the publisher's Stop returned. *)
Definition is_callee (k k' : callee) : bool :=
  match k, k' with Directory, Directory | Group, Group | Writer, Writer | HTTP, HTTP => true | _, _ => false end.
Definition answer_of (k : callee) (answers : list (callee * option error)) : option error :=
  foldl (fun acc x => if is_callee k x.1 then x.2 else acc) None answers.
Arguments answer_of : simpl never.
Definition stopped_with (st : PublisherLife.stop_pc) : option error :=
  match st with PublisherLife.SReturned err => err | _ => None end.

(** The errors collected so far. *)
Definition results (s : teardown) : Prop :=
  errs s = (if (5 <=? stage (pc s)) && routePublisher (parts s) then option_list (stopped_with (stopping s)) else [])
    ++ (if (6 <=? stage (pc s)) && routeRegistry (parts s) then option_list (answer_of Directory (answers s)) else [])
    ++ (if 11 <=? stage (pc s) then match answer_of HTTP (answers s) with
          | Some e => if errors_Is e ErrServerClosed then [] else [e]
          | None => [] end else []) /\
  (5 <= stage (pc s) -> routePublisher (parts s) = true ->
     stopping s = PublisherLife.SReturned (stopped_with (stopping s))) /\
  (forall err, pc s = TReturned err -> err = errors_Join (Some <$> errs s)).

(** The statement that a callee is called at. *)
Definition called_at (k : callee) : nat := match k with Directory => 5 | Group => 8 | Writer => 9 | HTTP => 10 end.

(** The callees asked so far, each once, in order. *)
Definition asked (answers : list (callee * option error)) (n : nat) : Prop :=
  StronglySorted lt (called_at <$> answers.*1) /\ Forall (fun k => k < n) (called_at <$> answers.*1).

Record teardown_inv (s : teardown) : Prop := {
  ti_monitor : Monitor.reachable (monitor s);
  ti_publisher : PublisherLife.reachable config lease (PublisherLife.mkSystem (publisher s) [stopping s]);
  ti_consumer : Consumer.reachable (consumer s);
  ti_draining : 1 <= stage (pc s) -> draining s = true;
  ti_closing : 2 <= stage (pc s) -> closing (Monitor.table (monitor s)) = true;
  ti_stopped : 4 <= stage (pc s) -> stopOwnershipMonitor (parts s) = true -> Monitor.stop (monitor s) = Monitor.SReturned;
  ti_cancelled : 7 <= stage (pc s) -> stopConsumer (parts s) = true -> Consumer.cancelled (consumer s) = true;
  ti_bus : 7 <= stage (pc s) <= 9 -> stopConsumer (parts s) = true;
  ti_restart : pc s = TClosing -> is_Some (restart s);
  ti_pool : forall q, restart s = Some q ->
    (exists items, pool_inv items q) /\ (is_Some (expired s) -> ended q = true);
  ti_log : log s = told (parts s) (stage (pc s));
  ti_asked : asked (answers s) (stage (pc s));
  ti_results : results s;
}.

Lemma begin_inv sv m l c :
  Monitor.reachable m -> PublisherLife.reachable config lease (PublisherLife.mkSystem l []) -> Consumer.reachable c ->
  teardown_inv (begin sv m l c).
Proof.
  intros Hm Hl Hc. split; cbn; try done; try lia.
  - eapply PublisherLife.reachable_step; [exact Hl|]. apply PublisherLife.step_call.
  - split; constructor.
  - split; [done|]. by split; [cbn; lia|].
Qed.

Lemma set_table_reachable t m : Monitor.reachable m -> Monitor.reachable (set_table t m).
Proof. intros Hm. eapply Monitor.reachable_step; [exact Hm|]. apply Monitor.step_table. Qed.

Lemma cancel_reachable c : Consumer.reachable c -> Consumer.reachable (cancel_consumer c).
Proof. intros Hc. eapply Consumer.reachable_step; [exact Hc|]. apply Consumer.step_cancel. Qed.

Lemma bus_unready_reachable c : Consumer.reachable c -> Consumer.reachable (bus_unready c).
Proof. intros Hc. eapply Consumer.reachable_step; [exact Hc|]. apply Consumer.step_bus. Qed.

Lemma stop_reachable ex b st st' l l' :
  PublisherLife.reachable config lease (PublisherLife.mkSystem l [st]) ->
  PublisherLife.stop_step ex b st l = Some (st', l') ->
  PublisherLife.reachable config lease (PublisherLife.mkSystem l' [st']).
Proof.
  intros Hl Hs. eapply PublisherLife.reachable_step; [exact Hl|].
  exact (PublisherLife.step_stop config lease (PublisherLife.mkSystem l [st]) 0 st st' ex b l' eq_refl Hs).
Qed.

Lemma stop_step_table m m' : Monitor.stop_step m = Some m' -> Monitor.table m' = Monitor.table m.
Proof.
  destruct m as [en p st can d rev t ps lg]. destruct st; cbn; [destruct en; by intros [= <-]| |done].
  destruct (recv d) as [[v d']|]; cbn; [by intros [= <-]|done].
Qed.

Lemma asked_later an n n' : asked an n -> n <= n' -> asked (an ++ []) n'.
Proof. rewrite app_nil_r. intros [Hs Hf] Hn. split; [done|]. eapply Forall_impl; [exact Hf|]. cbn. lia. Qed.

Lemma asked_snoc an n n' k err : asked an n -> called_at k = n -> n < n' -> asked (an ++ [(k, err)]) n'.
Proof.
  intros [Hs Hf] Hk Hn. unfold asked. rewrite !fmap_app. cbn. split.
  - apply StronglySorted_app_2; [|done|repeat constructor]. intros x y Hx Hy%list_elem_of_singleton. subst y.
    rewrite Forall_forall in Hf. specialize (Hf x Hx). cbn in Hf. lia.
  - apply Forall_app. split; [|by apply Forall_singleton; lia]. eapply Forall_impl; [exact Hf|]. cbn. lia.
Qed.

Lemma answer_of_snoc k k' err an : answer_of k (an ++ [(k', err)]) = if is_callee k k' then err else answer_of k an.
Proof. unfold answer_of. by rewrite foldl_app. Qed.

(** A statement of Shutdown, the publisher's and the monitor's stop apart. *)
Ltac split_parts := split; cbn; try done; try lia; try (by intros; auto with lia).

Ltac same_answers Ha Hpr :=
  first [eapply asked_later; [exact Ha|cbn; lia]
        |unfold results; split_and!; cbn; [rewrite ?app_nil_r; done|first [lia|done|intros _; apply Hpr; lia]|by intros ? [= <-] || done]].

Ltac new_answer Ha Hpr :=
  first [eapply asked_snoc; [exact Ha|reflexivity|cbn; lia]
        |unfold results; split_and!; cbn; [rewrite ?answer_of_snoc, ?app_nil_r, <- ?app_assoc; cbn; rewrite ?app_nil_r; done
                          |first [lia|done|intros _; apply Hpr; lia]|by intros ? [= <-] || done]].

Lemma shutdown_step_inv ch s s' : teardown_inv s -> shutdown_step ch s = Some s' -> teardown_inv (heard ch s s').
Proof.
  intros [Hm Hl Hc Hdr Hcl Hst Hcan Hbus Hre Hp Hlg Ha (He & Hpr & _)] Hs.
  destruct s as [[sm sp sr sc] p dr re m l st c ex es lg an]. cbn in *. subst lg.
  destruct p as [| | | | | | | | | | |err0], ch as [|order|b|g|err]; try done;
    cbn in Hs, He, Hpr, Hdr, Hcl, Hst, Hcan, Hbus, Hre, Ha; rewrite ?app_nil_r in He; unfold heard; cbn [pc calling].
  - injection Hs as <-. split_parts; same_answers Ha Hpr.
  - case_bool_decide as Ho; [|done]. injection Hs as <-. split_parts; try same_answers Ha Hpr.
    + by apply set_table_reachable.
    + intros q [= <-]. split.
      * exists order. destruct ex; [apply Monitor.end_context_inv|]; apply pool_start_inv.
      * by intros [err ->].
  - destruct re as [q|]; [|done]. cbn in Hs. destruct (finished q || ended q); [|done]. injection Hs as <-.
    split_parts; same_answers Ha Hpr.
  - destruct sm; [|injection Hs as <-; split_parts; same_answers Ha Hpr].
    destruct (Monitor.stop m) eqn:Hsm; [| |injection Hs as <-; split_parts; same_answers Ha Hpr];
      (destruct (Monitor.stop_step m) as [m'|] eqn:Hm'; [|done]); cbn in Hs; injection Hs as <-;
      split_parts; try same_answers Ha Hpr;
      [eapply Monitor.reachable_step; [exact Hm|by apply Monitor.step_stop]
      |intros _; rewrite (stop_step_table _ _ Hm'); apply Hcl; lia
      |eapply Monitor.reachable_step; [exact Hm|by apply Monitor.step_stop]
      |intros _; rewrite (stop_step_table _ _ Hm'); apply Hcl; lia].
  - destruct sp; [|injection Hs as <-; split_parts; same_answers Ha Hpr].
    destruct st as [| |r]; [| |injection Hs as <-; subst es; split_parts; [by destruct sm|same_answers Ha Hpr..]];
      (match type of Hs with context [PublisherLife.stop_step ?a ?b ?c ?d] =>
          destruct (PublisherLife.stop_step a b c d) as [[st' l']|] eqn:Hl'; [|done] end); cbn in Hs; injection Hs as <-;
      (split_parts; [by eapply stop_reachable|same_answers Ha Hpr..]).
  - destruct sr; [done|]. injection Hs as <-. split_parts; same_answers Ha Hpr.
  - destruct sr; [|done]. injection Hs as <-. subst es. split_parts; try new_answer Ha Hpr. by destruct sm, sp.
  - destruct sc; injection Hs as <-; split_parts; try same_answers Ha Hpr. by apply cancel_reachable.
  - destruct g as [group|]; injection Hs as <-.
    + destruct group; split_parts; try same_answers Ha Hpr; by apply bus_unready_reachable.
    + split_parts; try same_answers Ha Hpr. rewrite Hbus by lia. by destruct sm, sp, sr.
  - injection Hs as <-. split_parts; new_answer Ha Hpr.
  - injection Hs as <-. split_parts; try new_answer Ha Hpr. rewrite Hbus by lia. by destruct sm, sp, sr.
  - injection Hs as <-. subst es. split_parts; try new_answer Ha Hpr. by destruct sm, sp, sr, sc.
Qed.

Lemma consumer_stays_cancelled c c' : Consumer.step c c' -> Consumer.cancelled c = true -> Consumer.cancelled c' = true.
Proof.
  intros Hs. destruct Hs as [tick c' Hs|result fired c' Hs|ready|]; try done;
    destruct c as [mi v can br cr run lg]; cbn; intros ->.
  - destruct mi; cbn in Hs; try destruct tick; by simplify_eq.
  - destruct v; cbn in Hs; try destruct fired; by simplify_eq.
Qed.

Lemma teardown_step_inv s s' : teardown_inv s -> step s s' -> teardown_inv s'.
Proof.
  intros Hi Hs. destruct Hs as [ch s' Hs|m Hs Hstop Hclose|ch l Hs|c Hs|q q' Hq Hs|err He];
    [by eapply shutdown_step_inv|..]; destruct Hi as [Hm Hl Hc Hdr Hcl Hst Hcan Hbus Hre Hp Hlg Ha Hres]; split; cbn; try done.
  - by eapply Monitor.reachable_step.
  - intros Hn. by apply Hclose, Hcl.
  - intros Hn Hp1. rewrite Hstop. by apply Hst.
  - eapply PublisherLife.reachable_step; [exact Hl|].
    exact (PublisherLife.step_loop config lease (PublisherLife.mkSystem (publisher s) [stopping s]) ch _ Hs).
  - by eapply Consumer.reachable_step.
  - intros Hn Hp1. by eapply consumer_stays_cancelled, Hcan.
  - intros q0 [= <-]. destruct (Hp q Hq) as [[items Hit] Hend]. split; [exists items; by eapply pool_any_inv; [apply any_step|]|].
    intros Hex%Hend. destruct Hs; cbn in *; done.
  - intros Hpc. destruct (Hre Hpc) as [q ->]. by eexists.
  - intros q Hq. apply fmap_Some in Hq as (q0 & Hq0 & ->). destruct (Hp q0 Hq0) as [[items Hit] _].
    split; [exists items; by apply Monitor.end_context_inv|done].
Qed.

Lemma teardown_reachable_inv s : reachable s -> teardown_inv s.
Proof.
  induction 1 as [sv m l c Hm _ Hl Hc|s s' _ IH Hs]; [by apply begin_inv|by eapply teardown_step_inv].
Qed.



(** ** Properties *)

(** Statements of Shutdown to its end. *)
Definition rank (s : teardown) : nat :=
  match pc s with
  | TDrain => 15 | TTake => 14 | TClosing => 13
  | TMonitor => 10 + match Monitor.stop (monitor s) with Monitor.SIdle => 2 | Monitor.SWait => 1 | Monitor.SReturned => 0 end
  | TPublisher => 7 + match stopping s with
      | PublisherLife.SCancel => 2 | PublisherLife.SWait => 1 | PublisherLife.SReturned _ => 0 end
  | TRoutes => 6 | TConsumer => 5 | TBus => 4 | TGroup => 3 | TWriter => 2 | THttp => 1 | TReturned _ => 0
  end.

Lemma shutdown_step_rank ch s s' : shutdown_step ch s = Some s' -> rank s' < rank s.
Proof.
  intros Hs. destruct s as [[sm sp sr sc] p dr re m l st c ex es lg an]. unfold rank.
  destruct p as [| | | | | | | | | | |err0], ch as [|order|b|g|err]; try done; cbn in Hs.
  - injection Hs as <-. cbn. lia.
  - case_bool_decide; [|done]. injection Hs as <-. cbn. lia.
  - destruct re as [q|]; [|done]. cbn in Hs. destruct (finished q || ended q); [|done]. injection Hs as <-. cbn.
    destruct (Monitor.stop m); lia.
  - assert (Hst : 7 + match st with PublisherLife.SCancel => 2 | PublisherLife.SWait => 1 | PublisherLife.SReturned _ => 0 end < 10)
      by (destruct st; lia).
    destruct sm; [|injection Hs as <-; cbn; destruct (Monitor.stop m); lia].
    destruct (Monitor.stop m) eqn:Hsm; [| |injection Hs as <-; cbn; lia];
      (destruct (Monitor.stop_step m) as [m'|] eqn:Hm'; [|done]); cbn in Hs; injection Hs as <-; cbn;
      destruct m as [en mp mst can d rev t ps mlg]; cbn in Hsm; subst mst; cbn in Hm';
      [destruct en; injection Hm' as <-; cbn; lia|].
    destruct (recv d) as [[v d']|]; [|done]. cbn in Hm'. injection Hm' as <-. cbn. lia.
  - destruct sp; [|injection Hs as <-; cbn; lia].
    destruct st as [| |r], l as [lp lr lf pub can d cs las]; cbn in Hs.
    + injection Hs as <-. cbn. lia.
    + destruct b; [destruct (recv d) as [[v d']|]; [|done]|destruct ex; [|done]]; cbn in Hs; injection Hs as <-; cbn; lia.
    + injection Hs as <-. cbn. lia.
  - destruct sr; [done|]. injection Hs as <-; cbn; lia.
  - destruct sr; [|done]. injection Hs as <-; cbn; lia.
  - destruct sc; injection Hs as <-; cbn; lia.
  - destruct g as [[]|]; injection Hs as <-; cbn; lia.
  - injection Hs as <-. cbn. lia.
  - injection Hs as <-. cbn. lia.
  - injection Hs as <-. cbn. lia.
Qed.

(** Other steps leave it. *)
Lemma step_rank s s' : step s s' -> rank s' <= rank s.
Proof.
  intros Hs. destruct Hs as [ch s' Hs|m _ Hstop _|ch l _|c _|q q' _ _|err _];
    [apply shutdown_step_rank in Hs; unfold rank, heard in *; cbn in *; lia|unfold rank; cbn; by rewrite Hstop|done..].
Qed.

Lemma told_prefix sv p : told sv (stage p) `prefix_of` told sv 11.
Proof. destruct sv as [[] [] [] []], p; cbn; eexists; reflexivity. Qed.

Lemma told_all sv stop close http : (Shutdown (Some sv) stop close http).2 = told sv 11.
Proof. by destruct sv as [[] [] [] []]. Qed.

Lemma sorted_nodup (l : list nat) : StronglySorted lt l -> NoDup l.
Proof.
  induction l as [|x l IH]; intros Hs; [constructor|]. apply StronglySorted_cons in Hs as [Hf Hs]. constructor; [|by apply IH].
  intros Hin. rewrite Forall_forall in Hf. specialize (Hf x Hin). lia.
Qed.

(** C24: Shutdown does what the function says.  Whatever the goroutines around it do and
    whenever its context ends, the parts it has told so far are a beginning of those that
    the sequential Shutdown tells, each part that exists and none twice, in its order; no
    call of code outside is made twice; and what it returns is exactly what that function
    computes of what its calls answered: the publisher's Stop, the directory's Close and
    the HTTP server's Shutdown. *)
Theorem shutdown_refines s :
  reachable s ->
  let '(err, actions) := Shutdown (Some (parts s)) (stopped_with (stopping s))
                           (answer_of Directory (answers s)) (answer_of HTTP (answers s)) in
  log s `prefix_of` actions /\ NoDup (answers s).*1 /\
  forall e, pc s = TReturned e ->
    e = err /\ log s = actions /\
    (routePublisher (parts s) = true -> stopping s = PublisherLife.SReturned (stopped_with (stopping s))).
Proof.
  intros Hi%teardown_reachable_inv. destruct (ti_results _ Hi) as (He & Hpr & Hret).
  pose proof (told_all (parts s) (stopped_with (stopping s)) (answer_of Directory (answers s)) (answer_of HTTP (answers s))) as Hall.
  destruct (Shutdown (Some (parts s)) _ _ _) as [err actions] eqn:Hs. cbn in Hall. subst actions.
  rewrite (ti_log _ Hi). split_and!; [apply told_prefix| |].
  - destruct (ti_asked _ Hi) as [Ha%sorted_nodup _]. by apply NoDup_fmap_1 in Ha.
  - intros e Hpc. rewrite Hpc in *. split_and!; [|done|by apply Hpr; cbn; lia].
    rewrite (Hret e eq_refl), He. unfold Shutdown in Hs. cbn in Hs |- *.
    injection Hs as <-. by rewrite <- app_assoc.
Qed.

(** A statement of the monitor's goroutine, or of the publisher's, that is not a tick. *)
Definition monitor_moves (s : teardown) : Prop :=
  exists ch m, ch <> Monitor.Tick /\ Monitor.monitor_step ch (monitor s) = Some (Returns m).
Definition publisher_moves (s : teardown) : Prop :=
  exists ch l, ch <> PublisherLife.Tick /\ PublisherLife.life_step config lease ch (publisher s) = Some (Returns l).
Definition worker_moves (s : teardown) : Prop := exists q q', restart s = Some q /\ pool_step q q'.
(** A statement of Shutdown's own, and the calls of code outside that it may be inside of. *)
Definition shutdown_moves (s : teardown) : Prop :=
  exists ch s', (forall err, ch <> Result err) /\ shutdown_step ch s = Some s'.
Definition in_call (s : teardown) : Prop :=
  match pc s with TRoutes => routeRegistry (parts s) = true | TGroup | TWriter | THttp => True | _ => False end.

Lemma monitor_wait m : Monitor.monitor_inv m -> Monitor.stop m <> Monitor.SReturned ->
  is_Some (Monitor.stop_step m) \/
  exists ch m', ch <> Monitor.Tick /\ Monitor.monitor_step ch m = Some (Returns m').
Proof.
  intros Hi Hne. destruct (Monitor.stop m) eqn:Hst; [| |done].
  - left. destruct m as [[] p st can d rev t ps lg]; cbn in Hst; subst st; cbn; by eexists.
  - destruct (Monitor.enabled m) eqn:Hen; [|by destruct (Monitor.mi_enabled _ Hi Hen) as (_ & _ & ?)].
    assert (Hcan : Monitor.cancelled m = true) by (by rewrite (Monitor.mi_cancelled _ Hi Hen), Hst).
    pose proof (Monitor.mi_done _ Hi) as Hd. rewrite Hen in Hd. cbn [andb] in Hd.
    destruct (Monitor.pc m) eqn:Hpc; try (right; apply Monitor.monitor_progress; [done|done|by rewrite Hpc]).
    left. destruct m as [en p st can d rev t ps lg]. cbn in *. subst st d. by eexists.
Qed.

Lemma publisher_wait st l ex : PublisherLife.life_ok l -> st <> PublisherLife.SCancel -> PublisherLife.cancelled l = true ->
  (exists b, is_Some (PublisherLife.stop_step ex b st l)) \/ (exists r, st = PublisherLife.SReturned r) \/
  (ex = None /\ exists ch l', ch <> PublisherLife.Tick /\ PublisherLife.life_step config lease ch l = Some (Returns l')).
Proof.
  intros Hok Hne Hcan. destruct st as [| |r]; [done| |right; left; by exists r].
  destruct ex as [err|]; [left; exists false; by destruct l; eexists|].
  destruct (PublisherLife.gone (PublisherLife.pc l)) eqn:Hg.
  - left. exists true. destruct Hok as [Hd _]. destruct l as [p lr lf pub can d cs]. cbn in *. rewrite Hg in Hd. subst d.
    by eexists.
  - right. right. split; [done|]. apply PublisherLife.life_progress; [done|done|]. intros Hpc. by rewrite Hpc in Hg.
Qed.

Lemma teardown_progress s : teardown_inv s -> (forall err, pc s <> TReturned err) ->
  shutdown_moves s \/ in_call s \/ (pc s = TMonitor /\ monitor_moves s) \/
  (expired s = None /\ ((pc s = TClosing /\ worker_moves s) \/ (pc s = TPublisher /\ publisher_moves s))).
Proof.
  intros Hi Hne. pose proof (Monitor.monitor_reachable_inv _ (ti_monitor _ Hi)) as Hm.
  pose proof (PublisherLife.system_reachable_inv _ _ _ (ti_publisher _ Hi)) as [_ _ Hok Hc _].
  pose proof (ti_restart _ Hi) as Hre. pose proof (ti_pool _ Hi) as Hp. clear Hi.
  unfold shutdown_moves, in_call, monitor_moves, publisher_moves, worker_moves.
  destruct s as [[sm sp sr sc] p dr re m l st c ex es lg an]. cbn in *.
  destruct p as [| | | | | | | | | | |err0]; try by (right; left).
  - left. exists Proceed. by eexists.
  - left. exists (Visit (elements (items (Monitor.table m)))). cbn. rewrite bool_decide_eq_true_2 by done. by eexists.
  - destruct (Hre eq_refl) as [q Hq]. destruct (Hp q Hq) as [[its Hit] Hend]. rewrite Hq.
    destruct (finished q || ended q) eqn:Hfe; [left; exists Proceed; cbn; rewrite Hfe; by eexists|].
    apply orb_false_iff in Hfe as [Hf He]. do 3 right. destruct ex; [by rewrite Hend in He|]. split; [done|]. left.
    split; [done|]. destruct (pool_progress its q Hit He Hf) as [q' Hq']. by exists q, q'.
  - destruct sm; [|left; exists Proceed; by eexists].
    assert (Hst : Monitor.stop m = Monitor.SReturned \/ Monitor.stop m <> Monitor.SReturned)
      by (destruct (Monitor.stop m); auto; by right).
    destruct Hst as [Hst|Hst]; [left; exists Proceed; cbn; rewrite Hst; by eexists|].
    destruct (monitor_wait m Hm Hst) as [[m' Hm']|H]; [|by right; right; left].
    left. exists Proceed. cbn. rewrite Hm'. destruct (Monitor.stop m); [by eexists..|done].
  - destruct sp; [|left; exists (TakeDone true); by eexists].
    destruct st as [| |r]; [left; exists (TakeDone true); cbn; destruct l; by eexists| |left; exists (TakeDone true); by eexists].
    destruct (publisher_wait PublisherLife.SWait l ex) as [[b [[st' l'] Hs]]|[[r ?]|[-> H]]]; try done.
    + apply Hc. exists PublisherLife.SWait. split; [left|done].
    + left. exists (TakeDone b). cbn in Hs |- *. rewrite Hs. by eexists.
    + do 3 right. split; [done|]. by right.
  - destruct sr; [by right; left|]. left. exists Proceed. by eexists.
  - left. exists Proceed. destruct sc; by eexists.
  - left. exists (Closer None). by eexists.
  - by destruct (Hne err0).
Qed.

Lemma call_returns s err : in_call s -> is_Some (shutdown_step (Result err) s).
Proof.
  unfold in_call. destruct s as [[sm sp sr sc] p dr re m l st c ex es lg an]. cbn.
  destruct p; try done; [intros ->|..]; by eexists.
Qed.

(** Runs in which Shutdown takes [n] statements. *)
Inductive run : nat -> teardown -> teardown -> Prop :=
  | run_end s : run 0 s s
  | run_own ch n s s1 s' : shutdown_step ch s = Some s1 -> run n (heard ch s s1) s' -> run (S n) s s'
  | run_other n s s1 s' : step s s1 -> run n s1 s' -> run n s s'.

Lemma teardown_run_rank n s s' : run n s s' -> n + rank s' <= rank s.
Proof.
  induction 1 as [s|ch n s s1 s' Hs%shutdown_step_rank _ IH|n s s1 s' Hs%step_rank _ IH]; [lia| |lia].
  unfold rank, heard in *. cbn in *. lia.
Qed.

(** C25: Shutdown returns.  It takes at most fifteen statements, whatever the others do,
    and it is never stuck among the program's own goroutines: before it has returned it can
    take a statement; or it is inside a call of code outside (the directory client's Close,
    kafka-go's Close of the group or the writer, net/http's Shutdown) and goes on once that
    returns, whatever it answers; or it waits for the monitor's goroutine, which can move on
    without its ticker; or, as long as its context lives, for the workers that close
    connections or for the publisher's goroutine, which can move on as well.  Once the
    context has ended, it waits for the monitor and for those calls only, of which all but
    the HTTP server's take no context. *)
Theorem shutdown_returns s :
  reachable s ->
  (forall n s', run n s s' -> n <= 15) /\
  ((exists err, pc s = TReturned err) \/ shutdown_moves s \/ in_call s \/ (pc s = TMonitor /\ monitor_moves s) \/
   (expired s = None /\ ((pc s = TClosing /\ worker_moves s) \/ (pc s = TPublisher /\ publisher_moves s)))) /\
  (in_call s -> forall err, is_Some (shutdown_step (Result err) s)).
Proof.
  intros Hi%teardown_reachable_inv. split_and!.
  - intros n s' Hr%teardown_run_rank. assert (rank s <= 15); [|lia].
    unfold rank. destruct (pc s), (Monitor.stop (monitor s)), (stopping s); cbn; lia.
  - assert (Hc : (exists err, pc s = TReturned err) \/ forall err, pc s <> TReturned err)
      by (destruct (pc s); eauto; by right).
    destruct Hc as [Hc|Hc]; [by left|right]. by apply teardown_progress.
  - intros Hin err. by apply call_returns.
Qed.


End teardown.

(** ** A run: monitor and publisher are waited for, the listener fails *)

Inductive act := AShutdown (ch : choice) | AMonitor (ch : Monitor.choice) | ALoop (ch : PublisherLife.choice).

Definition do_act config lease (a : act) (s : teardown) : option teardown :=
  let 'mkTeardown sv p dr re m l st c ex es lg an := s in
  match a with
  | AShutdown ch => heard ch s <$> shutdown_step ch s
  | AMonitor ch =>
    match Monitor.monitor_step ch m with
    | Some (Returns m') =>
      if implb (closing (Monitor.table m)) (closing (Monitor.table m')) then Some (mkTeardown sv p dr re m' l st c ex es lg an) else None
    | _ => None
    end
  | ALoop ch =>
    match PublisherLife.life_step config lease ch l with
    | Some (Returns l') => Some (mkTeardown sv p dr re m l' st c ex es lg an)
    | _ => None
    end
  end.

Fixpoint do_acts config lease (acts : list act) (s : teardown) : option teardown :=
  match acts with [] => Some s | a :: acts => s ← do_act config lease a s; do_acts config lease acts s end.

Lemma monitor_step_stop ch m m' : Monitor.monitor_step ch m = Some (Returns m') -> Monitor.stop m' = Monitor.stop m.
Proof.
  destruct m as [en p st can d rev t ps lg]. unfold Monitor.monitor_step.
  destruct p, ch; cbn; intros Hs; repeat (case_match; cbn in Hs); simplify_eq; try done.
  - destruct (ps !! i); cbn in Hs; [|done]. case_match; by simplify_eq.
  - destruct (close d); cbn in Hs; by simplify_eq.
Qed.

Lemma teardown_acts_reachable config lease acts : forall s s',
  reachable config lease s -> do_acts config lease acts s = Some s' -> reachable config lease s'.
Proof.
  induction acts as [|a acts IH]; cbn; intros s s' Hr He; [by simplify_eq|].
  destruct (do_act config lease a s) as [s1|] eqn:Ha; [|done]. apply (IH s1); [|done].
  eapply reachable_step; [exact Hr|]. destruct s as [sv p dr re m l st c ex es lg an], a as [ch|ch|ch]; cbn [do_act] in Ha.
  - destruct (shutdown_step _ _) as [s2|] eqn:Hs; [|done]. injection Ha as <-. by apply step_shutdown.
  - destruct (Monitor.monitor_step ch m) as [[m'|]|] eqn:Hm; [|done..].
    destruct (implb _ _) eqn:Ht; [|done].
    injection Ha as <-. apply (step_monitor config lease (mkTeardown sv p dr re m l st c ex es lg an) m').
    + by eapply Monitor.step_monitor.
    + by eapply monitor_step_stop.
    + cbn. intros Hc. by rewrite Hc in Ht.
  - destruct (PublisherLife.life_step config lease ch l) as [[l'|]|] eqn:Hl; [|done..]. injection Ha as <-.
    exact (step_publisher config lease (mkTeardown sv p dr re m l st c ex es lg an) ch l' Hl).
Qed.

Definition sample_begin : teardown :=
  begin (mkServer true true true true) (Monitor.startOwnershipMonitor true 4 (mkConnections ∅ false))
    PublisherLife.start (Consumer.startMessageBusConsumer true true).

Definition sample_acts : list act :=
  (ALoop <$> [PublisherLife.Read (100 * Second)%Z 1%Z; PublisherLife.Assigned [1%Z]; PublisherLife.Answer None;
     PublisherLife.Proceed; PublisherLife.Visit []; PublisherLife.Proceed]) ++
  [AMonitor Monitor.Proceed; AShutdown Proceed; AShutdown (Visit []); AShutdown Proceed; AShutdown Proceed;
   AMonitor Monitor.Done; AMonitor Monitor.Proceed; AShutdown Proceed; AShutdown Proceed;
   AShutdown (TakeDone true); ALoop PublisherLife.Done; ALoop (PublisherLife.Visit [1%Z]);
   ALoop (PublisherLife.Answer None); ALoop PublisherLife.Proceed; ALoop PublisherLife.Proceed;
   AShutdown (TakeDone true); AShutdown (TakeDone true); AShutdown (Result (Some (Errorf "pool"))); AShutdown Proceed;
   AShutdown (Closer (Some true)); AShutdown (Result None); AShutdown (Result (Some (Errorf "flush")));
   AShutdown (Result (Some (Sentinel ErrServerClosed)))].

Definition sample_end : teardown :=
  default sample_begin (do_acts Publisher.sample_config Redis.g1 sample_acts sample_begin).

Lemma teardown_sample_reachable : reachable Publisher.sample_config Redis.g1 sample_end.
Proof.
  apply (teardown_acts_reachable _ _ sample_acts sample_begin); [|vm_compute; reflexivity].
  apply reachable_begin; [apply Monitor.reachable_start|done|apply PublisherLife.reachable_start|apply Consumer.reachable_start].
Qed.

(** The directory's Close fails; Kafka's too, which is only logged. *)
Lemma shutdown_refines_witness :
  pc sample_end = TReturned (errors_Join [Some (Errorf "pool")]) /\ length (log sample_end) = 7 /\
  Shutdown (Some (mkServer true true true true)) None (Some (Errorf "pool")) (Some (Sentinel ErrServerClosed)) =
    (errors_Join [Some (Errorf "pool")], log sample_end).
Proof.
  assert (Hpc : pc sample_end = TReturned (errors_Join [Some (Errorf "pool")])) by (vm_compute; reflexivity).
  split; [exact Hpc|]. split; [vm_compute; reflexivity|].
  pose proof (shutdown_refines Publisher.sample_config Redis.g1 sample_end teardown_sample_reachable) as H.
  replace (stopped_with (stopping sample_end)) with (@None error) in H by (vm_compute; reflexivity).
  replace (answer_of Directory (answers sample_end)) with (Some (Errorf "pool")) in H by (vm_compute; reflexivity).
  replace (answer_of HTTP (answers sample_end)) with (Some (Sentinel ErrServerClosed)) in H by (vm_compute; reflexivity).
  replace (parts sample_end) with (mkServer true true true true) in H by (vm_compute; reflexivity).
  destruct (Shutdown _ _ _ _) as [err actions]. destruct H as (_ & _ & H). destruct (H _ Hpc) as (-> & -> & _). reflexivity.
Defined.

Lemma shutdown_returns_witness : pc sample_end = TReturned (errors_Join [Some (Errorf "pool")]) /\
  (forall n s', run Publisher.sample_config Redis.g1 n sample_end s' -> n <= 15) /\
  (forall n s', run Publisher.sample_config Redis.g1 n sample_begin s' -> n <= 15).
Proof.
  split; [vm_compute; reflexivity|].
  split; [exact (proj1 (shutdown_returns Publisher.sample_config Redis.g1 sample_end teardown_sample_reachable))|].
  refine (proj1 (shutdown_returns Publisher.sample_config Redis.g1 sample_begin _)).
  apply reachable_begin; [apply Monitor.reachable_start|done|apply PublisherLife.reachable_start|apply Consumer.reachable_start].
Defined.



End Teardown.
