(* ===== verification/Gateway.v ===== *)
(** * The gateway assembled (internal/httpserver/server.go, cmd/server/main.go)

    The HTTP server that is built around a bus: its fixed parameters, its endpoints and
    what each answers; the constructors that read the environment; the process.  Gin's
    matching of paths, zap and the listener are third-party: an endpoint is served for the
    path it is registered under. *)

From S2P Require Import Prelude.
From S2P Require Import Utf8.
From S2P Require Import GoStrings.
From S2P Require Import GoUrl.
From S2P Require Import Bus.
From S2P Require Import Kafka.
From S2P Require Import Routing.
From S2P Require Import Redis.
From S2P Require Import Publisher.
From S2P Require Import Config.
From S2P Require Import Sensitive.
From S2P Require Import RateLimit.
From S2P Require Import Connections.
From S2P Require Import WebSocket.
From S2P Require Import Session.
From S2P Require Import Metrics.
From S2P Require Import Logging.
From S2P Require Import Broadcast.
From S2P Require Import Server.

Module Gateway.
Import Connections.

(** ** Construction around a bus *)

Definition sensitiveWords : list string := ["赌博"; "诈骗"]%string.

Record gateway (F : Type) := mkGateway {
  Addr : string; ReadHeaderTimeout : duration; IdleTimeout : duration;
  messageLimiter : Limiter F; sensitiveFilter : Sensitive.Filter;
  connections : websocketConnections; draining : bool; lifecycle : Server.server;
}.
Arguments mkGateway {F}.
Arguments messageLimiter {F} g.
Arguments sensitiveFilter {F} g.
Arguments connections {F} g.
Arguments draining {F} g.
Arguments lifecycle {F} g.
Arguments Addr {F} g.
Arguments ReadHeaderTimeout {F} g.
Arguments IdleTimeout {F} g.

(** startOwnershipMonitor returns a function in any case; publisher, directory and
    consumer are there or nil. *)
Definition newServerWithBusAndRouting `{CaseTable} {F} `{Float F} (addr : string)
  (routePublisher routeRegistry cancelConsumer : bool) : outcome (gateway F) :=
  match RateLimit.New (of_int 5) 10 with
  | Err _ => Panics "ratelimit"
  | Ok limiter =>
    Returns (mkGateway addr (5 * Second)%Z (60 * Second)%Z limiter (Sensitive.New sensitiveWords)
      newWebSocketConnections false (Server.mkServer true routePublisher routeRegistry cancelConsumer))
  end.

Definition newServerWithBus `{CaseTable} {F} `{Float F} (addr : string) (cancelConsumer : bool) : outcome (gateway F) :=
  newServerWithBusAndRouting addr false false cancelConsumer.

(** The first two statements of Shutdown. *)
Definition drain {F} (order : list conn) (g : gateway F) : list conn * gateway F :=
  let '(taken, connections) := take_for_restart order (connections g) in
  (taken, mkGateway (Addr g) (ReadHeaderTimeout g) (IdleTimeout g) (messageLimiter g) (sensitiveFilter g) connections true (lifecycle g)).

(** ** Endpoints *)

Inductive endpoint := Root | Healthz | Readyz | MetricsPage | RouteLookup | WebSocketEntry.

#[export] Instance endpoint_eq_dec : EqDecision endpoint.
Proof. solve_decision. Defined.

(** All are registered for GET. *)
Definition routes : list (string * endpoint) :=
  [("/", Root); ("/healthz", Healthz); ("/readyz", Readyz); ("/metrics", MetricsPage);
   ("/route", RouteLookup); ("/ws", WebSocketEntry)]%string.

(** [Text]: c.String.  [Exposition]: the names behind the metrics' handler. *)
Inductive answer :=
  | Text (status : Z) (body : string)
  | RouteAnswer (r : Server.route_response)
  | Exposition (names : list string)
  | Handshake (h : WebSocket.handshake).

Section endpoints.
Context {F B R Env : Type} `{Bus.RoomOwnership B} `{Routing.Registry R Env}.

(** What the closures of the constructor see: the bus's readiness and ownership, if it
    has them, the directory, the names registered with Prometheus. *)
Record backends := mkBackends {
  bus : option Server.readiness; ownership : option B; registry : option R; env : Env; names : list string;
}.

Definition serve (g : gateway F) (b : backends) (ep : endpoint) (user_id room_id : string) : answer :=
  match ep with
  | Root => Text 200 (line "DanmuFlow is running")
  | Healthz => Text 200 (line "ok")
  | Readyz => let '(status, body) := Server.readyz (draining g) (bus b) in Text status body
  | MetricsPage => Exposition (names b)
  | RouteLookup => RouteAnswer (Server.route room_id (registry b) (ownership b) (env b))
  | WebSocketEntry =>
    Handshake (WebSocket.handshake_guard (Server.isReady (draining g) (bus b)) user_id room_id
      (Server.ownsRoom (ownership b)))
  end.

Definition is_unavailable (a : answer) : bool :=
  match a with
  | Text status _ => (status =? 503)%Z
  | Handshake (WebSocket.HTTPError status _) => (status =? 503)%Z
  | _ => false
  end.

(** The probes tell the truth.  Whatever the bus reports, /healthz and / answer 200,
    also during a shutdown; /readyz fails exactly when /ws would turn every client away
    as unavailable; and once draining, /readyz and /ws are unavailable while the control
    plane's /route and /metrics answer as before. *)
Theorem probes_tell_the_truth (g : gateway F) (b : backends) order user_id room_id :
  NoDup routes.*1 /\
  serve g b Root user_id room_id = Text 200 (line "DanmuFlow is running") /\
  serve g b Healthz user_id room_id = Text 200 (line "ok") /\
  is_unavailable (serve g b Readyz user_id room_id) = is_unavailable (serve g b WebSocketEntry user_id room_id) /\
  (let g' := (drain order g).2 in
   is_unavailable (serve g' b Readyz user_id room_id) = true /\
   is_unavailable (serve g' b WebSocketEntry user_id room_id) = true /\
   serve g' b Healthz user_id room_id = Text 200 (line "ok") /\
   serve g' b RouteLookup user_id room_id = serve g b RouteLookup user_id room_id /\
   serve g' b MetricsPage user_id room_id = serve g b MetricsPage user_id room_id /\
   closing (connections g') = true).
Proof.
  split_and!; try done; [by apply (bool_decide_unpack _)|].
  cbn [serve]. unfold Server.readyz, WebSocket.handshake_guard.
  destruct (Server.isReady (draining g) (bus b)); cbn; [|done].
  case_bool_decide; [done|]. case_bool_decide; [done|]. by destruct (Server.ownsRoom _ _).
Qed.

(** The status of an answer; the request of an upgraded connection has none that the
    program chooses. *)
Definition status_of (a : answer) : option Z :=
  match a with
  | Text status _ => Some status
  | RouteAnswer (Server.RouteError status _) => Some status
  | RouteAnswer (Server.RouteFound _ _ _ _) | Exposition _ => Some 200%Z
  | Handshake (WebSocket.HTTPError status _) => Some status
  | Handshake (WebSocket.Upgrade _ _) => None
  end.

(** The route of an endpoint, behind both middlewares. *)
Definition respond (a : answer) : Logging.handler := fun c =>
  (match status_of a with
   | Some status => Logging.mkContext (Logging.method c) (Logging.path c) (Logging.query c) (Logging.client_ip c) status true
       (Logging.errors c) (Logging.logged c)
   | None => c
   end, None).
Definition handle_request `{Logging.Gin} (g : gateway F) (b : backends) (ep : endpoint) (user_id room_id : string)
  (start now : time) : Logging.handler :=
  Logging.chain start now (respond (serve g b ep user_id room_id)).

(** What an operator sees: every answered request leaves one entry, with the path and the
    status it was answered with; it is an error exactly when the instance was not able to
    serve, as a probe is while the server drains, and a warning when the client was wrong. *)
Theorem answers_are_logged `{Logging.Gin} (g : gateway F) (b : backends) ep user_id room_id start now c status :
  status_of (serve g b ep user_id room_id) = Some status ->
  let '(c', panic) := handle_request g b ep user_id room_id start now c in
  panic = None /\ Logging.status c' = status /\ Logging.written c' = true /\
  (exists level errs, Logging.logged c' = Logging.logged c ++
     [Logging.HttpRequest level (Logging.method c) (Logging.path c) status (time_Sub now start) (Logging.client_ip c) errs] /\
   (level = Logging.ErrorLevel <-> status = 503%Z) /\
   (level = Logging.WarnLevel <-> status = 400%Z \/ status = 421%Z)) /\
  (draining g = true -> ep = Readyz \/ ep = WebSocketEntry -> status = 503%Z).
Proof.
  intros Hst. unfold handle_request, Logging.chain, Logging.zapHTTPLogger, Logging.zapRecovery.
  erewrite Logging.recovery_passes; [|unfold respond; rewrite Hst; reflexivity]. cbn.
  assert (Hs : status = 200%Z \/ status = 503%Z \/ status = 400%Z \/ status = 421%Z).
  { revert Hst. unfold serve, Server.readyz, Server.route, WebSocket.handshake_guard. destruct ep; cbn;
      repeat (case_match; cbn); intros [= <-]; simplify_eq; auto. }
  split_and!; [done..| |].
  - eexists _, _. split; [reflexivity|]. destruct Hs as [->|[->|[->| ->]]]; cbn; naive_solver.
  - intros Hd Hep. revert Hst. unfold serve, Server.readyz, WebSocket.handshake_guard, Server.isReady, Server.canPublish.
    rewrite Hd. destruct Hep as [->| ->]; cbn; by intros [= <-].
Qed.

End endpoints.
Arguments backends {B R Env}.

(** The constructor never panics.  The constant parameters of the limiter are valid,
    in binary64 as in any arithmetic that orders 0 below 5, so the panic in the code is
    unreachable; a new server is not draining, refuses no registration and has a monitor
    to stop. *)
Theorem newServerWithBusAndRouting_total `{CaseTable} {F} `{Float F} addr publisher directory consumer :
  fleb (of_int (F := F) 5) (of_int 0) = false ->
  exists g, newServerWithBusAndRouting addr publisher directory consumer = Returns g /\
    draining g = false /\ connections g = newWebSocketConnections /\
    Server.stopOwnershipMonitor (lifecycle g) = true /\
    messageLimiter g = mkLimiter ∅ (of_int 5) (of_int 10) /\
    Sensitive.words (sensitiveFilter g) = filter (fun w => w <> ""%string) (Sensitive.normalize <$> sensitiveWords).
Proof.
  intros Hf. unfold newServerWithBusAndRouting, RateLimit.New. rewrite Hf. eexists. split; [reflexivity|].
  split_and!; try done. cbn [sensitiveFilter]. unfold Sensitive.New. cbn [Sensitive.words].
  by rewrite Sensitive.clean_app.
Qed.

Lemma newServerWithBusAndRouting_total_witness :
  exists g, newServerWithBusAndRouting (H := Sensitive.ascii_cases) (H0 := binary64) ":8080" true true true = Returns g /\
    draining g = false /\ connections g = newWebSocketConnections.
Proof.
  destruct (newServerWithBusAndRouting_total (H := Sensitive.ascii_cases) (H0 := binary64) ":8080" true true true eq_refl)
    as (g & Hg & Hd & Hc & _).
  exists g. split; [exact Hg|]. split; [exact Hd|exact Hc].
Defined.

(** ** The constructors that read the environment *)

Section constructors.
Context `{IPLiterals} (getenv : string -> string) (os_hostname : result string) (random : result (list Z)).

Definition New : outcome Server.parts :=
  match (Server.NewWithKafkaAndRouting (Config.KafkaConfigFromEnv getenv)
           (Config.RoutingConfigFromEnv getenv os_hostname) random).1 with
  | Ok parts => Returns parts
  | Err _ => Panics "New"
  end.

(** It differs from New in the logger only. *)
Definition NewWithLogger : outcome Server.parts := New.

Definition zeroRoutingConfig : Config.RoutingConfig := Config.mkRoutingConfig "" "" 0 "" "" "" 0%Z 0%Z.

Definition NewWithKafka (kafkaConfig : Kafka.KafkaConfig) : result Server.parts * list Server.resource_action :=
  Server.NewWithKafkaAndRouting kafkaConfig zeroRoutingConfig random.

End constructors.

(** Without configuration there is no control plane.  In an empty environment New
    returns, with the default Kafka broker and without routing; NewWithKafka never starts
    the control plane, and fails exactly when the Kafka configuration is refused, having
    started nothing. *)
Theorem default_has_no_routing `{IPLiterals} os_hostname random kafkaConfig :
  (exists parts, New (fun _ => ""%string) os_hostname random = Returns parts /\ Server.p_routing parts = None /\
     Kafka.NewKafka (Kafka.mkKafkaConfig ["localhost:9092"] "danmaku" "danmuflow-broadcast")%string = Ok (Server.p_bus parts)) /\
  match Kafka.NewKafka kafkaConfig with
  | Ok b => NewWithKafka random kafkaConfig = (Ok (Server.mkParts b None), [Server.StartConsumer])
  | Err err => NewWithKafka random kafkaConfig = (Err err, [])
  end.
Proof.
  split.
  - unfold New, Server.NewWithKafkaAndRouting, Config.validate.
    assert (He : Config.enabled (Config.RoutingConfigFromEnv (fun _ => ""%string) os_hostname) = false) by done.
    rewrite He. cbn [negb]. unfold Broadcast.newKafkaMessageBus.
    assert (Hk : Config.KafkaConfigFromEnv (fun _ => ""%string) =
      (Kafka.mkKafkaConfig ["localhost:9092"] "danmaku" "danmuflow-broadcast")%string) by (by vm_compute).
    rewrite Hk. destruct (Kafka.NewKafka _) as [b|] eqn:Hb; [|by vm_compute in Hb]. by exists (Server.mkParts b None).
  - unfold NewWithKafka, Server.NewWithKafkaAndRouting, Config.validate, Broadcast.newKafkaMessageBus.
    change (Config.enabled zeroRoutingConfig) with false. cbn [negb]. by destruct (Kafka.NewKafka kafkaConfig).
Qed.

(** ** The process *)

Inductive process_event :=
  | Signalled (shutdown : option error)
  | Stopped (err : error).

Inductive process_action :=
  | PrintLoggerError | LogInitializeFailed | LogStarted (addr : string)
  | LogShutdownStarted | LogShutdownFailed | LogServerStopped | CallShutdown | SyncLogger.

(** [main]: the actions and the exit status.  [logger] and [built] are the errors of the
    constructors; [ev] is what the select receives first. *)
Definition main (getenv : string -> string) (logger built : option error) (ev : process_event)
  : list process_action * Z :=
  match logger with
  | Some _ => ([PrintLoggerError], 1%Z)
  | None =>
    let addr := getenv "DANMUFLOW_HTTP_ADDR"%string in
    let addr := if bool_decide (addr = ""%string) then ":8080"%string else addr in
    match built with
    | Some _ => ([LogInitializeFailed; SyncLogger], 0%Z)
    | None =>
      (LogStarted addr ::
       match ev with
       | Signalled shutdown =>
         [LogShutdownStarted; CallShutdown] ++ (match shutdown with Some _ => [LogShutdownFailed] | None => [] end)
       | Stopped err => if errors_Is err Server.ErrServerClosed then [] else [LogServerStopped]
       end ++ [SyncLogger], 0%Z)
    end
  end.

(** How the process ends.  It shuts the server down exactly on a signal, after it has
    been built; the logger is flushed whenever there is one; a failure to build or to
    listen is logged.  But the exit status is 1 only when the logger could not be made: a
    gateway that could not be built, or whose listener failed, ends with status 0. *)
Theorem main_exit_status getenv logger built ev :
  let '(actions, status) := main getenv logger built ev in
  (status = 1%Z <-> logger <> None) /\ (status = 0%Z \/ status = 1%Z) /\
  (CallShutdown ∈ actions <-> logger = None /\ built = None /\ exists shutdown, ev = Signalled shutdown) /\
  (logger = None -> List.last actions PrintLoggerError = SyncLogger) /\
  (logger = None -> built <> None -> LogInitializeFailed ∈ actions /\ status = 0%Z) /\
  (forall err, logger = None -> built = None -> ev = Stopped err -> errors_Is err Server.ErrServerClosed = false ->
     LogServerStopped ∈ actions /\ status = 0%Z) /\
  (logger = None -> built = None -> exists addr rest, actions = LogStarted addr :: rest /\ addr <> ""%string).
Proof.
  unfold main. destruct logger as [e1|].
  { cbn. split_and!; try done; try (by auto); split; try done.
    - by intros ?%list_elem_of_singleton.
    - by intros [? _]. }
  set (addr := if bool_decide _ then _ else _).
  assert (Haddr : addr <> ""%string) by (unfold addr; by case_bool_decide).
  destruct built as [e2|].
  { cbn. split_and!; try done; try (by auto); try (split; try done).
    - intros Hin. repeat (apply elem_of_cons in Hin as [Hin|Hin]; [done|]). by apply elem_of_nil in Hin.
    - by intros (_ & ? & _).
    - by left. }
  destruct ev as [[e3|]|err].
  - cbn. split_and!; try done; try (by auto); try (split; try done); [naive_solver|set_solver|by eexists _, _].
  - cbn. split_and!; try done; try (by auto); try (split; try done); [naive_solver|set_solver|by eexists _, _].
  - destruct (errors_Is err Server.ErrServerClosed) eqn:He; cbn; split_and!; try done; try (by auto);
      try (by eexists _, _); try (split; try done).
    + intros Hin. repeat (apply elem_of_cons in Hin as [Hin|Hin]; [done|]). by apply elem_of_nil in Hin.
    + by intros (_ & _ & ? & ?).
    + naive_solver congruence.
    + intros Hin. repeat (apply elem_of_cons in Hin as [Hin|Hin]; [done|]). by apply elem_of_nil in Hin.
    + by intros (_ & _ & ? & ?).
    + set_solver.
Qed.

End Gateway.
