(* ===== verification/LoadTest.v ===== *)
(** * The load generator (cmd/loadtest/main.go)

    Its command line (parseConfig, over GoFlag), its configuration, the messages it
    writes and decodes, the distribution of connections over rooms, the round robin
    of the sender, the recognition of its own messages, and the report's numbers.
    [int] is int64.  Dialling, sockets and the clock are arguments. *)

From stdpp Require Import pretty.
From S2P Require Import Prelude.
From S2P Require Import Utf8.
From S2P Require Import GoStrings.
From S2P Require Import Json.
From S2P Require Import RateLimit.
From S2P Require Import GoFlag.

Module LoadTest.

Definition messagePrefix : string := "loadtest".

Record config := mkConfig {
  websocketURL : string; connections : Z; rooms : Z; rate : Z; duration : Prelude.duration;
}.

Definition validateConfig (c : config) : option error :=
  if (connections c <=? 0)%Z then Some (Errorf "connections must be greater than zero")
  else if (rooms c <=? 0)%Z then Some (Errorf "rooms must be greater than zero")
  else if (connections c <? rooms c)%Z
  then Some (Errorf "rooms cannot exceed connections: each room must have a receiving connection")
  else if (rate c <=? 0)%Z then Some (Errorf "rate must be greater than zero")
  else if (Second <? rate c)%Z then Some (Errorf "rate must not exceed 1000000000 messages/s")
  else if (duration c <=? 0)%Z then Some (Errorf "duration must be greater than zero")
  else None.

(** The fields of a config are Go ints and a duration. *)
Definition config_ints (c : config) : Prop :=
  (min_i64 <= connections c <= max_i64)%Z /\ (min_i64 <= rooms c <= max_i64)%Z /\
  (min_i64 <= rate c <= max_i64)%Z /\ (min_i64 <= duration c <= max_i64)%Z.

(** The capacity asked for the latencies, and the sender's interval. *)
Definition latencies_cap (c : config) : Z := wrap_i64 (rate c * Z.quot (duration c) Second).
Definition interval (c : config) : Prelude.duration := Z.quot Second (rate c).

(** ** Connecting *)

Definition room_of (c : config) (clientIndex : Z) : string :=
  "load-room-" +:+ Itoa (Z.rem clientIndex (rooms c)).
Definition user_of (clientIndex : Z) : string := "load-user-" +:+ Itoa clientIndex.
Definition url_of (c : config) (clientIndex : Z) : string :=
  websocketURL c +:+ "?room_id=" +:+ room_of c clientIndex +:+ "&user_id=" +:+ user_of clientIndex.

(** [connectClients]: the URLs dialled by the connected clients, or the error after
    which all of them are closed. *)
Fixpoint connect_loop (dial : string -> option error) (c : config) (clientIndex : Z) (n : nat)
  (clients : list string) : result (list string) :=
  match n with
  | O => Ok clients
  | S n =>
    match dial (url_of c clientIndex) with
    | Some err => Err (Wrap ("connect client " +:+ Itoa clientIndex) err)
    | None => connect_loop dial c (clientIndex + 1) n (clients ++ [url_of c clientIndex])
    end
  end.
Definition connectClients (dial : string -> option error) (c : config) : result (list string) :=
  connect_loop dial c 0 (Z.to_nat (connections c)) [].

(** ** Statistics *)

Record stats := mkStats {
  sent : Z; received : Z; selfDelivered : Z;
  deliveredMessageIDs : gset string; duplicateSelfDelivered : Z;
  writeErrors : Z; readErrors : Z; latencies : list Prelude.duration;
}.
Definition new_stats : stats := mkStats 0 0 0 ∅ 0 0 0 [].

(** [now] is the clock in time.Since. *)
Definition recordSelfDelivery (messageID : string) (sentAt now : time) (r : stats) : stats :=
  if bool_decide (messageID ∈ deliveredMessageIDs r) then
    mkStats (sent r) (received r) (selfDelivered r) (deliveredMessageIDs r)
      (wrap_i64 (duplicateSelfDelivered r + 1)) (writeErrors r) (readErrors r) (latencies r)
  else
    mkStats (sent r) (received r) (wrap_i64 (selfDelivered r + 1)) ({[ messageID ]} ∪ deliveredMessageIDs r)
      (duplicateSelfDelivered r) (writeErrors r) (readErrors r) (latencies r ++ [time_Sub now sentAt]).

(** ** Sending *)

(** The Unix epoch on the time axis; UnixNano and time.Unix(0, n). *)
Definition unix_epoch : time := (62135596800 * Second)%Z.
Definition UnixNano (t : time) : Z := wrap_i64 (t - unix_epoch).
Definition Unix (nanos : Z) : time := (unix_epoch + nanos)%Z.

Definition message_content (clientIndex : Z) (sentAt : time) : string :=
  messagePrefix +:+ ":" +:+ user_of clientIndex +:+ ":" +:+ Itoa (UnixNano sentAt).

(** The ticks of runTraffic: for each, the clock and whether WriteJSON succeeds; the
    client used and what it wrote are collected. *)
Fixpoint runTraffic (clients : Z) (clientIndex : Z) (ticks : list (time * bool)) (r : stats)
  : list (Z * string) * stats :=
  match ticks with
  | [] => ([], r)
  | (sentAt, ok) :: ticks =>
    let r := if ok : bool
      then mkStats (wrap_i64 (sent r + 1)) (received r) (selfDelivered r) (deliveredMessageIDs r)
             (duplicateSelfDelivered r) (writeErrors r) (readErrors r) (latencies r)
      else mkStats (sent r) (received r) (selfDelivered r) (deliveredMessageIDs r)
             (duplicateSelfDelivered r) (wrap_i64 (writeErrors r + 1)) (readErrors r) (latencies r) in
    let '(log, r') := runTraffic clients (Z.rem (clientIndex + 1) clients) ticks r in
    ((clientIndex, message_content clientIndex sentAt) :: log, r')
  end.

(** ** Receiving *)

(** The instant encoded in an own message; None for any other content. *)
Definition own_message (userID content : string) : option time :=
  match Split content ":" with
  | [p0; p1; p2] =>
    if negb (bool_decide (p0 = messagePrefix)) || negb (bool_decide (p1 = userID)) then None
    else Unix <$> ParseInt64 p2
  | _ => None
  end.

(** The reads of one client: a content and the clock, or a failure that ends the loop. *)
Fixpoint readMessages (userID : string) (reads : list (result (string * time))) (r : stats) : stats :=
  match reads with
  | [] => r
  | Err _ :: _ =>
    mkStats (sent r) (received r) (selfDelivered r) (deliveredMessageIDs r)
      (duplicateSelfDelivered r) (writeErrors r) (wrap_i64 (readErrors r + 1)) (latencies r)
  | Ok (content, now) :: reads =>
    let r := mkStats (sent r) (wrap_i64 (received r + 1)) (selfDelivered r) (deliveredMessageIDs r)
               (duplicateSelfDelivered r) (writeErrors r) (readErrors r) (latencies r) in
    readMessages userID reads
      (match own_message userID content with
       | None => r
       | Some sentAt => recordSelfDelivery content sentAt now r
       end)
  end.

(** ** The report *)

Definition percentile (sorted : list Prelude.duration) (percentile : Z) : outcome Prelude.duration :=
  let index := Z.quot (wrap_i64 ((Z.of_nat (length sorted) - 1) * percentile)) 100 in
  match (if (index <? 0)%Z then None else sorted !! Z.to_nat index) with
  | Some d => Returns d
  | None => Panics "index out of range"
  end.

(** sort.Slice by increasing latency. *)
Definition sort_latencies (l : list Prelude.duration) : list Prelude.duration := merge_sort Z.le l.

(** What the two lines of the report show; [echoes] is missing when there is no latency. *)
Record report := mkReport {
  elapsed : Prelude.duration; r_sent : Z; self_delivered : Z; duplicate_self_delivered : Z;
  received_total : Z; write_errors : Z; read_errors : Z;
  echoes : option (Prelude.duration * Prelude.duration * Prelude.duration * Prelude.duration);
}.

Section report.
Context {F : Type} `{Float F}.

Definition deliveryRate (r : stats) : F :=
  if (0 <? sent r)%Z then fmul (fdiv (of_int (selfDelivered r)) (of_int (sent r))) (of_int 100) else of_int 0.

(** The report, the delivery rate, and the statistics left, whose latencies are sorted. *)
Definition printReport (elapsed : Prelude.duration) (r : stats) : outcome (report * F * stats) :=
  let sorted := sort_latencies (latencies r) in
  let r := mkStats (sent r) (received r) (selfDelivered r) (deliveredMessageIDs r)
             (duplicateSelfDelivered r) (writeErrors r) (readErrors r) sorted in
  echoes ← (if bool_decide (length sorted = 0) then Returns None
    else
      p50 ← percentile sorted 50; p95 ← percentile sorted 95; p99 ← percentile sorted 99;
      match sorted !! (length sorted - 1) with
      | Some maximum => Returns (Some (p50, p95, p99, maximum))
      | None => Panics "index out of range"
      end);
  Returns (mkReport elapsed (sent r) (selfDelivered r) (duplicateSelfDelivered r) (received r) (writeErrors r)
             (readErrors r) echoes, deliveryRate r, r).

End report.

(** ** The program *)

(** [closeClients]: every client gets a normal close frame and is closed, in order. *)
Inductive close_action (C : Type) := WriteClose (client : C) | CloseConn (client : C).
Arguments WriteClose {C} client.
Arguments CloseConn {C} client.
Definition closeClients {C} (clients : list C) : list (close_action C) :=
  client ← clients; [WriteClose client; CloseConn client].

(** The default flags. *)
Definition default_config : config :=
  mkConfig "ws://localhost:8080/ws" 100 10 100 (5 * Minute)%Z.

(** ** The command line *)

Section flags.
Context {F : Type} `{Float F} `{FloatTrunc F}.

(** The flags and what their Set methods store. *)
Definition formal (name : string) : option (string -> config -> result config) :=
  if bool_decide (name = "url") then
    Some (fun value c => url ← string_flag value; Ok (mkConfig url (connections c) (rooms c) (rate c) (duration c)))
  else if bool_decide (name = "connections") then
    Some (fun value c => n ← int_flag value; Ok (mkConfig (websocketURL c) n (rooms c) (rate c) (duration c)))
  else if bool_decide (name = "rooms") then
    Some (fun value c => n ← int_flag value; Ok (mkConfig (websocketURL c) (connections c) n (rate c) (duration c)))
  else if bool_decide (name = "rate") then
    Some (fun value c => n ← int_flag value; Ok (mkConfig (websocketURL c) (connections c) (rooms c) n (duration c)))
  else if bool_decide (name = "duration") then
    Some (fun value c => d ← duration_flag value; Ok (mkConfig (websocketURL c) (connections c) (rooms c) (rate c) d))
  else None.

(** The config, or the status with which the process exits. *)
Inductive command := Configured (c : config) | Exits (status : Z).

Definition parseConfig (args : list string) : command :=
  match Parse formal args default_config with
  | Parsed c _ => Configured c
  | ErrHelp => Exits 0
  | Failed _ => Exits 2
  end.

(** A command line that states a config. *)
Definition command_line (c : config) : list string :=
  ["-url=" +:+ websocketURL c; "-connections"; Itoa (connections c); "--rooms=" +:+ Itoa (rooms c);
   "-rate=" +:+ Itoa (rate c); "--duration"; Itoa (duration c) +:+ "ns"]%string.

End flags.

Inductive main_action := RunTraffic | Sleep (d : Prelude.duration) | PrintReport | Close (a : close_action string).

(** [main]: the status with which package flag ends the process, the error of log.Fatal,
    which ends it without the deferred calls, or the actions of a run. *)
Inductive run := Exited (status : Z) | Fatal (err : error) | Ran (actions : list main_action).

Definition main {F : Type} `{Float F} `{FloatTrunc F} (dial : string -> option error) (args : list string) : run :=
  match parseConfig args with
  | Exits status => Exited status
  | Configured c =>
    match validateConfig c with
    | Some err => Fatal err
    | None =>
      match connectClients dial c with
      | Err err => Fatal err
      | Ok clients => Ran ([RunTraffic; Sleep (500 * Millisecond)%Z; PrintReport] ++ (Close <$> closeClients clients))
      end
    end
  end.

(** ** JSON *)

Definition MarshalRequest (content : string) : string := encode_struct [("content", encode_text content)]%string.

(** json.Unmarshal into a response; other keys are skipped. *)
Definition set_response (name : string) (v : json) (r : string) : result string := decode_string v r.
Definition UnmarshalResponse (text : string) : result string :=
  decode_struct ["content"%string] set_response ""%string text.
#[global] Arguments UnmarshalResponse : simpl never.

(** ** Properties *)

Ltac Zify.zify_post_hook ::= Z.to_euclidean_division_equations.

(** A configuration that passes validation is safe to run: the product that sizes the
    latency buffer does not overflow int64, because the rate is at most the number of
    nanoseconds in a second; the sender's interval is at least a nanosecond, so the ticker
    does not panic; and every room gets a connection. *)
Theorem validateConfig_safe c :
  config_ints c -> validateConfig c = None ->
  latencies_cap c = (rate c * Z.quot (duration c) Second)%Z /\ (0 <= latencies_cap c <= max_i64)%Z /\
  (1 <= interval c <= Second)%Z /\
  (forall r, (0 <= r < rooms c)%Z ->
     exists i, (0 <= i < connections c)%Z /\ room_of c i = ("load-room-" +:+ Itoa r)%string).
Proof.
  intros (Hc & Hm & Hr & Hd) Hv. unfold validateConfig in Hv.
  destruct (Z.leb_spec (connections c) 0); [done|]. destruct (Z.leb_spec (rooms c) 0); [done|].
  destruct (Z.ltb_spec (connections c) (rooms c)); [done|]. destruct (Z.leb_spec (rate c) 0); [done|].
  destruct (Z.ltb_spec Second (rate c)); [done|]. destruct (Z.leb_spec (duration c) 0); [done|].
  assert (Hq : (0 <= Z.quot (duration c) Second <= 9223372036)%Z).
  { unfold Second, Millisecond, Microsecond, Nanosecond, max_i64 in *. lia. }
  assert (Hcap : (0 <= rate c * Z.quot (duration c) Second <= max_i64)%Z).
  { change Second with 1000000000%Z in *. revert Hq. generalize (Z.quot (duration c) 1000000000).
    intros q Hq. split; [nia|]. transitivity (1000000000 * 9223372036)%Z; [|done].
    apply Z.mul_le_mono_nonneg; lia. }
  assert (Hwrap : latencies_cap c = (rate c * Z.quot (duration c) Second)%Z).
  { apply wrap_i64_small. unfold min_i64. lia. }
  rewrite Hwrap. split; [done|]. split; [done|]. split.
  - unfold interval. split.
    + apply Z.quot_le_lower_bound; lia.
    + apply Z.quot_le_upper_bound; [lia|]. nia.
  - intros r Hroom. exists r. split; [lia|]. unfold room_of. by rewrite Z.rem_small.
Qed.

Lemma validateConfig_safe_witness :
  let c := mkConfig "ws://localhost:8080/ws" 100 10 100 (300 * Second)%Z in
  latencies_cap c = 30000%Z /\ interval c = (10 * Millisecond)%Z /\
  exists i, (0 <= i < 100)%Z /\ room_of c i = "load-room-7"%string.
Proof.
  intros c. destruct (validateConfig_safe c) as (H1 & _ & _ & H2).
  - unfold config_ints, min_i64, max_i64. cbn. unfold Second, Millisecond, Microsecond, Nanosecond. lia.
  - reflexivity.
  - split; [rewrite H1; reflexivity|]. split; [reflexivity|]. apply (H2 7%Z). cbn. lia.
Defined.

(** ** The command line *)

Section command_line.
Context {F : Type} `{Float F} `{FloatTrunc F}.

Lemma int_flag_range value z : int_flag value = Ok z -> (min_i64 <= z <= max_i64)%Z.
Proof. unfold int_flag. destruct (ParseInt value) eqn:Hp; [|done]. intros [= <-]. by eapply ParseInt_range. Qed.

Lemma duration_flag_range value d : duration_flag value = Ok d -> (min_i64 <= d <= max_i64)%Z.
Proof. unfold duration_flag. destruct (ParseDuration value) eqn:Hp; [|done]. intros [= <-]. by eapply ParseDuration_range. Qed.

Lemma formal_ints name set value c c' :
  formal name = Some set -> set value c = Ok c' -> config_ints c -> config_ints c'.
Proof.
  intros Hn Hs (Hc & Hm & Hr & Hd). unfold formal in Hn.
  repeat case_bool_decide; try done; injection Hn as <-; cbn in Hs.
  all: try (destruct (int_flag value) as [n|] eqn:Hv; [apply int_flag_range in Hv|done]).
  all: try (destruct (duration_flag value) as [n|] eqn:Hv; [apply duration_flag_range in Hv|done]).
  all: injection Hs as <-; unfold config_ints; cbn; tauto.
Qed.

Lemma parseConfig_ints args c : parseConfig args = Configured c -> config_ints c.
Proof.
  unfold parseConfig. intros Hp.
  pose proof (Parse_invariant config_ints formal formal_ints args default_config) as Hi.
  destruct (Parse formal args default_config); [|done..]. injection Hp as <-. apply Hi.
  unfold config_ints, min_i64, max_i64. cbn. unfold Minute, Second, Millisecond, Microsecond, Nanosecond. lia.
Qed.

(** Any command line is safe.  Whatever its arguments, the process exits with a status of
    package flag, or is refused by validateConfig, or has numbers that fit their types, a
    latency buffer whose size does not overflow, a ticker with a positive interval and a
    connection for every room. *)
Theorem command_line_safe args :
  match parseConfig args with
  | Exits status => status = 0%Z \/ status = 2%Z
  | Configured c =>
    config_ints c /\ (validateConfig c <> None \/
      (latencies_cap c = (rate c * Z.quot (duration c) Second)%Z /\ (0 <= latencies_cap c <= max_i64)%Z /\
       (1 <= interval c <= Second)%Z /\
       forall r, (0 <= r < rooms c)%Z ->
         exists i, (0 <= i < connections c)%Z /\ room_of c i = ("load-room-" +:+ Itoa r)%string))
  end.
Proof.
  destruct (parseConfig args) as [c|status] eqn:Hp.
  - apply parseConfig_ints in Hp. split; [done|]. destruct (validateConfig c) eqn:Hv; [by left|right].
    by apply validateConfig_safe.
  - unfold parseConfig in Hp. destruct (Parse _ _ _); simplify_eq; auto.
Qed.

(** A command line that states a config is parsed to it, in any of the forms package flag
    accepts, whatever the flags before it have set. *)
Theorem command_line_roundtrip c c0 : config_ints c ->
  Parse formal (command_line c) c0 = Parsed c [] /\ parseConfig (command_line c) = Configured c.
Proof.
  intros (Hc & Hm & Hr & Hd).
  assert (Hp : forall c0, Parse formal (command_line c) c0 = Parsed c []).
  { intros c1. unfold command_line.
    assert (Hi : forall z, (min_i64 <= z <= max_i64)%Z -> int_flag (Itoa z) = Ok z) by
      (intros z Hz; unfold int_flag; by rewrite ParseInt_Itoa).
    erewrite Parse_flag; [|reflexivity..].
    erewrite Parse_flag_next; [|reflexivity..|cbv beta; by rewrite Hi by done].
    erewrite Parse_flag; [|reflexivity..|cbv beta; by rewrite Hi by done].
    erewrite Parse_flag; [|reflexivity..|cbv beta; by rewrite Hi by done].
    erewrite Parse_flag_next; [|reflexivity..|cbv beta; unfold duration_flag; by rewrite ParseDuration_ns by done].
    by destruct c. }
  split; [apply Hp|]. unfold parseConfig. by rewrite Hp.
Qed.

End command_line.

(** ** Recognising own messages *)

Lemma own_message_content i j t :
  own_message (user_of j) (message_content i t) =
    if decide (user_of i = user_of j) then Unix <$> ParseInt64 (Itoa (UnixNano t)) else None.
Proof.
  unfold own_message, message_content, Split.
  assert (Hu : forall i, 58%Z ∉ bytes (user_of i)).
  { intros k. unfold user_of. rewrite bytes_app, not_elem_of_app. split; [|apply Itoa_no_colon].
    by apply (bool_decide_unpack _). }
  rewrite !bytes_app.
  change (bytes ":") with [58%Z]. cbn [app].
  change (byte_of_ascii ":") with 58%Z.
  rewrite (split_go_app 58 (bytes messagePrefix)), (split_go_app 58 (bytes (user_of i))), split_go_free.
  - cbn [fmap list_fmap]. rewrite !str_bytes. rewrite (bool_decide_true (messagePrefix = messagePrefix)) by done.
    cbn [negb orb]. case_decide as Heq; [by rewrite bool_decide_true|by rewrite bool_decide_false].
  - apply Itoa_no_colon.
  - apply Hu.
  - by apply (bool_decide_unpack _).
Qed.

(** A reader recognises exactly its own messages.  For every client and every send
    instant that UnixNano can represent, the reader of that client recovers the instant from
    the content, and the reader of any other client ignores it. *)
Theorem own_message_roundtrip i t :
  (min_i64 <= t - unix_epoch <= max_i64)%Z ->
  own_message (user_of i) (message_content i t) = Some t /\
  forall j, j <> i -> own_message (user_of j) (message_content i t) = None.
Proof.
  intros Ht. split.
  - rewrite own_message_content, decide_True by done. unfold UnixNano.
    rewrite wrap_i64_small, ParseInt64_Itoa by done. cbn. f_equal. unfold Unix. lia.
  - intros j Hj. rewrite own_message_content, decide_False; [done|].
    unfold user_of. intros Heq. apply (inj _) in Heq. by apply (inj pretty) in Heq.
Qed.

Lemma own_message_roundtrip_witness :
  own_message "load-user-12" "loadtest:load-user-12:1700000000000000000" = Some (unix_epoch + 1700000000000000000)%Z.
Proof.
  exact (proj1 (own_message_roundtrip 12 (unix_epoch + 1700000000000000000)%Z
    ltac:(unfold min_i64, max_i64; lia))).
Defined.

(** ** Counting deliveries *)

Definition record_all (calls : list (string * time * time)) (r : stats) : stats :=
  foldl (fun r '(id, sentAt, now) => recordSelfDelivery id sentAt now r) r calls.

(** The counters after [n] calls. *)
Definition counted (n : Z) (r : stats) : Prop :=
  (selfDelivered r = Z.of_nat (size (deliveredMessageIDs r)))%Z /\
  length (latencies r) = size (deliveredMessageIDs r) /\
  (selfDelivered r + duplicateSelfDelivered r = n)%Z /\ (0 <= duplicateSelfDelivered r)%Z.

Lemma record_all_counted calls : forall n r,
  counted n r -> (0 <= n)%Z -> (n + Z.of_nat (length calls) <= max_i64)%Z ->
  counted (n + Z.of_nat (length calls)) (record_all calls r) /\
  deliveredMessageIDs (record_all calls r) = list_to_set (calls.*1.*1) ∪ deliveredMessageIDs r.
Proof.
  induction calls as [|[[id sentAt] now] calls IH]; intros n r Hc Hn Hmax.
  { cbn. rewrite Z.add_0_r. split; [done|]. by rewrite union_empty_l_L. }
  cbn [length] in *. change (record_all ((id, sentAt, now) :: calls) r)
    with (record_all calls (recordSelfDelivery id sentAt now r)).
  destruct Hc as (H1 & H2 & H3 & H4).
  assert (Hc' : counted (n + 1) (recordSelfDelivery id sentAt now r) /\
    deliveredMessageIDs (recordSelfDelivery id sentAt now r) = {[ id ]} ∪ deliveredMessageIDs r).
  { unfold recordSelfDelivery, counted. case_bool_decide as Hin; cbn.
    - rewrite wrap_i64_small by (unfold min_i64, max_i64 in *; lia).
      split; [split_and!; lia || done|]. apply leibniz_equiv. set_solver.
    - rewrite wrap_i64_small by (unfold min_i64, max_i64 in *; lia).
      rewrite size_union by set_solver. rewrite size_singleton, length_app. cbn.
      split; [split_and!; lia|done]. }
  destruct Hc' as [Hc' Hids]. destruct (IH (n + 1)%Z _ Hc' ltac:(lia) ltac:(lia)) as [Hf ->].
  replace (n + Z.of_nat (S (length calls)))%Z with (n + 1 + Z.of_nat (length calls))%Z by lia.
  split; [done|]. rewrite Hids. cbn. apply leibniz_equiv. set_solver.
Qed.

(** Replays are not counted as deliveries.  After any sequence of echoes, the delivered
    count is the number of distinct messages, one latency is kept for each, and every other
    echo is counted as a duplicate. *)
Theorem recordSelfDelivery_counts calls :
  (Z.of_nat (length calls) <= max_i64)%Z ->
  let r := record_all calls new_stats in
  let ids : gset string := list_to_set (calls.*1.*1) in
  selfDelivered r = Z.of_nat (size ids) /\ length (latencies r) = size ids /\
  duplicateSelfDelivered r = (Z.of_nat (length calls) - Z.of_nat (size ids))%Z.
Proof.
  intros Hlen r ids.
  assert (H0 : counted 0 new_stats) by (split_and!; done).
  destruct (record_all_counted calls 0 new_stats H0 ltac:(lia) ltac:(lia)) as [(H1 & H2 & H3 & _) Hids].
  fold r in H1, H2, H3, Hids. cbn [deliveredMessageIDs new_stats] in Hids. rewrite union_empty_r_L in Hids.
  fold ids in Hids. rewrite Hids in H1, H2. split_and!; [done|done|lia].
Qed.

Lemma recordSelfDelivery_counts_witness :
  let r := record_all [("a", 1, 5); ("b", 2, 5); ("a", 1, 9)]%Z new_stats in
  selfDelivered r = 2%Z /\ duplicateSelfDelivered r = 1%Z.
Proof.
  destruct (recordSelfDelivery_counts [("a"%string, 1, 5); ("b"%string, 2, 5); ("a"%string, 1, 9)]%Z
    ltac:(unfold max_i64; cbn; lia)) as (H1 & _ & H2).
  split; [exact H1|exact H2].
Defined.

(** ** The sender and the report *)

Lemma runTraffic_index clients ticks : forall k r,
  (0 < clients)%Z -> (0 <= k < clients)%Z ->
  (runTraffic clients k ticks r).1.*1 = (fun n => (k + n) mod clients)%Z <$> seqZ 0 (Z.of_nat (length ticks)).
Proof.
  induction ticks as [|[sentAt ok] ticks IH]; intros k r Hc Hk; [done|].
  cbn [runTraffic]. match goal with |- context [runTraffic _ _ ticks ?r1] => set (r1' := r1) end.
  assert (Hrem : Z.rem (k + 1) clients = ((k + 1) mod clients)%Z) by (by apply Z.rem_mod_nonneg; lia).
  assert (Hk' : (0 <= Z.rem (k + 1) clients < clients)%Z) by (rewrite Hrem; by apply Z.mod_pos_bound).
  specialize (IH (Z.rem (k + 1) clients) r1' Hc Hk').
  destruct (runTraffic clients (Z.rem (k + 1) clients) ticks r1') as [log r']. cbn [fst fmap list_fmap length] in *.
  rewrite IH. rewrite Nat2Z.inj_succ, (seqZ_cons 0 (Z.succ _)) by lia. rewrite Z.pred_succ. cbn [fmap list_fmap].
  f_equal; [cbn; by rewrite Z.add_0_r, Z.mod_small by lia|].
  rewrite <- (fmap_add_seqZ 1 0), <- list_fmap_compose. apply list_fmap_ext. intros i x _. cbn.
  rewrite Hrem, Zplus_mod_idemp_l. f_equal. lia.
Qed.

(** The sender is fair: the n-th message is written to client n modulo the number of
    clients, whether or not earlier writes failed, so no index is ever out of range. *)
Theorem runTraffic_round_robin clients ticks r n i content :
  (0 < clients)%Z -> (runTraffic clients 0 ticks r).1 !! n = Some (i, content) ->
  i = (Z.of_nat n mod clients)%Z /\ (0 <= i < clients)%Z.
Proof.
  intros Hc Hn. pose proof (runTraffic_index clients ticks 0 r Hc ltac:(lia)) as Hidx.
  assert (H1 : (runTraffic clients 0 ticks r).1.*1 !! n = Some i) by (by rewrite list_lookup_fmap, Hn).
  rewrite Hidx, list_lookup_fmap in H1. apply fmap_Some in H1 as (z & Hz & ->).
  apply lookup_seqZ in Hz as [-> _]. rewrite !Z.add_0_l. split; [done|]. by apply Z.mod_pos_bound.
Qed.

Lemma runTraffic_round_robin_witness :
  exists content, (runTraffic 2 0 [(1, true); (2, false); (3, true)]%Z new_stats).1 !! 2 = Some (0%Z, content) /\
    0%Z = (Z.of_nat 2 mod 2)%Z.
Proof.
  eexists. split; [reflexivity|].
  exact (proj1 (runTraffic_round_robin 2 [(1, true); (2, false); (3, true)]%Z new_stats 2 0%Z _
    ltac:(lia) eq_refl)).
Defined.

Lemma StronglySorted_le_lookup l i j (d d' : Z) :
  StronglySorted Z.le l -> i < j -> l !! i = Some d -> l !! j = Some d' -> (d <= d')%Z.
Proof.
  intros Hs. revert i j. induction Hs as [|x l Hs IH Hall]; intros i j Hij Hi Hj; [done|].
  destruct j as [|j]; [lia|]. cbn in Hj. destruct i as [|i]; cbn in Hi; [|by apply (IH i j); [lia|..]].
  injection Hi as <-. rewrite Forall_forall in Hall. apply Hall. by eapply list_elem_of_lookup_2.
Qed.

(** A percentile of a non-empty sorted list never panics: it is an element with more
    than p percent of the other samples at or below it; the 100th is the maximum. *)
Theorem percentile_spec (sorted : list Prelude.duration) p :
  sorted <> [] -> StronglySorted Z.le sorted -> (0 <= p <= 100)%Z ->
  (Z.of_nat (length sorted) * 100 <= max_i64)%Z ->
  exists i d, percentile sorted p = Returns d /\ sorted !! i = Some d /\
    i = Z.to_nat ((Z.of_nat (length sorted) - 1) * p / 100) /\
    (forall j d', j <= i -> sorted !! j = Some d' -> (d' <= d)%Z) /\
    (forall j d', i <= j -> sorted !! j = Some d' -> (d <= d')%Z) /\
    (p = 100%Z -> S i = length sorted).
Proof.
  intros Hne Hs Hp Hmax. unfold percentile.
  assert (Hlen : (1 <= Z.of_nat (length sorted))%Z) by (destruct sorted; [done|cbn; lia]).
  assert (Hprod : (0 <= (Z.of_nat (length sorted) - 1) * p <= Z.of_nat (length sorted) * 100)%Z).
  { split; [apply Z.mul_nonneg_nonneg; lia|]. transitivity ((Z.of_nat (length sorted) - 1) * 100)%Z; [|lia].
    apply Z.mul_le_mono_nonneg_l; lia. }
  rewrite wrap_i64_small
    by (split; [unfold min_i64; lia|exact (Z.le_trans _ _ _ (proj2 Hprod) Hmax)]).
  rewrite Z.quot_div_nonneg by (exact (proj1 Hprod) || done).
  assert (Hk : (0 <= (Z.of_nat (length sorted) - 1) * p / 100 <= Z.of_nat (length sorted) - 1)%Z).
  { split; [apply Z.div_pos; [exact (proj1 Hprod)|done]|]. apply Z.div_le_upper_bound; [done|].
    clear Hprod. rewrite (Z.mul_comm 100). apply Z.mul_le_mono_nonneg_l; lia. }
  assert (H100 : p = 100%Z -> ((Z.of_nat (length sorted) - 1) * p / 100 = Z.of_nat (length sorted) - 1)%Z).
  { intros ->. by rewrite Z.div_mul. }
  clear Hprod. revert Hk H100. generalize ((Z.of_nat (length sorted) - 1) * p / 100)%Z. intros k Hk H100.
  rewrite (proj2 (Z.ltb_ge _ _)) by lia.
  destruct (lookup_lt_is_Some_2 sorted (Z.to_nat k)) as [d Hd]; [lia|]. rewrite Hd.
  exists (Z.to_nat k), d. split_and!; try done.
  - intros j d' Hj Hd'. apply Nat.le_lteq in Hj as [Hj| ->];
      [|apply Z.eq_le_incl; exact (Some_inj _ _ (eq_trans (eq_sym Hd') Hd))].
    by apply (StronglySorted_le_lookup sorted j (Z.to_nat k)).
  - intros j d' Hj Hd'. apply Nat.le_lteq in Hj as [Hj|<-];
      [|apply Z.eq_le_incl; exact (Some_inj _ _ (eq_trans (eq_sym Hd) Hd'))].
    by apply (StronglySorted_le_lookup sorted (Z.to_nat k) j).
  - intros Hp100. rewrite (H100 Hp100). lia.
Qed.

Lemma percentile_spec_witness :
  percentile [1; 2; 3; 4]%Z 50 = Returns 2%Z /\ exists i, [1; 2; 3; 4]%Z !! i = Some 2%Z.
Proof.
  destruct (percentile_spec [1; 2; 3; 4]%Z 50) as (i & d & H1 & H2 & _).
  - done.
  - repeat constructor; lia.
  - lia.
  - unfold max_i64. cbn. lia.
  - assert (d = 2%Z) as -> by (vm_compute in H1; congruence). split; [exact H1|]. by exists i.
Defined.

(** A ratio as a percentage. *)
Lemma rate_percent a b : (0 <= a <= b)%Z -> (0 < b)%Z ->
  QArith_base.Qle (QArith_base.inject_Z 0) (QArith_base.Qmult (QArith_base.Qdiv (QArith_base.inject_Z a) (QArith_base.inject_Z b)) (QArith_base.inject_Z 100)) /\
  QArith_base.Qle (QArith_base.Qmult (QArith_base.Qdiv (QArith_base.inject_Z a) (QArith_base.inject_Z b)) (QArith_base.inject_Z 100)) (QArith_base.inject_Z 100).
Proof.
  intros Ha Hb. destruct b as [|b|b]; [lia| |lia]. unfold QArith_base.Qle. cbn.
  rewrite !Z.mul_1_r, ?Pos.mul_1_r. split; lia.
Qed.

(** The clients dialled. *)
Lemma connect_loop_spec dial c n : forall k clients,
  match connect_loop dial c k n clients with
  | Ok all => length all = length clients + n /\
      forall i, i < length clients + n ->
        all !! i = (if decide (i < length clients) then clients !! i else Some (url_of c (k + Z.of_nat (i - length clients))))
  | Err _ => exists i err, (k <= i < k + Z.of_nat n)%Z /\ dial (url_of c i) = Some err
  end.
Proof.
  induction n as [|n IH]; intros k clients; cbn [connect_loop].
  { split; [lia|]. intros i Hi. by rewrite decide_True by lia. }
  destruct (dial (url_of c k)) as [err|] eqn:Hd; [exists k, err; split; [lia|done]|].
  specialize (IH (k + 1)%Z (clients ++ [url_of c k])). destruct (connect_loop _ _ _ _ _) as [all|err].
  - rewrite length_app in IH. cbn in IH. destruct IH as [Hl Hi]. split; [lia|]. intros i Hlt.
    rewrite Hi by lia. destruct (decide (i < length clients)) as [Hc|Hc].
    + rewrite decide_True by lia. by apply lookup_app_l.
    + destruct (decide (i = length clients)) as [->|Hne].
      * rewrite decide_True by lia. rewrite lookup_app_r, Nat.sub_diag by lia. cbn. by rewrite Z.add_0_r.
      * rewrite decide_False by lia. do 2 f_equal. lia.
  - destruct IH as (i & e & Hi & He). exists i, e. split; [lia|done].
Qed.

(** The report.  It never panics, with or without echoes; the percentiles are samples
    in increasing order up to the maximum, the list is only permuted, and in exact
    arithmetic the delivery rate is between 0 and 100 percent when no more echoes than
    sent messages were counted. *)
Theorem printReport_safe elapsed (r : stats) :
  (Z.of_nat (length (latencies r)) * 100 <= max_i64)%Z ->
  exists rep rate r', printReport (H := exact) elapsed r = Returns (rep, rate, r') /\
    latencies r' ≡ₚ latencies r /\
    match echoes rep with
    | None => latencies r = []
    | Some (p50, p95, p99, maximum) =>
        (p50 <= p95 <= p99)%Z /\ (p99 <= maximum)%Z /\ p50 ∈ latencies r /\ maximum ∈ latencies r /\
        Forall (fun d => d <= maximum)%Z (latencies r)
    end /\
    ((0 <= selfDelivered r <= sent r)%Z -> QArith_base.Qle (QArith_base.inject_Z 0) rate /\ QArith_base.Qle rate (QArith_base.inject_Z 100)).
Proof.
  intros Hmax. unfold printReport. set (sorted := sort_latencies (latencies r)).
  assert (Hp : sorted ≡ₚ latencies r) by apply merge_sort_Permutation.
  assert (Hss : StronglySorted Z.le sorted) by (apply (StronglySorted_merge_sort Z.le)).
  clearbody sorted.
  assert (Hrate : (0 <= selfDelivered r <= sent r)%Z ->
    QArith_base.Qle (QArith_base.inject_Z 0) (deliveryRate (H := exact) r) /\ QArith_base.Qle (deliveryRate (H := exact) r) (QArith_base.inject_Z 100)).
  { intros Hs. unfold deliveryRate. cbn. destruct (Z.ltb_spec 0 (sent r)); [|by split].
    apply rate_percent; lia. }
  case_bool_decide as Hpos.
  { eexists _, _, _. split; [reflexivity|]. cbn. split; [done|]. split; [|exact Hrate].
    apply nil_length_inv in Hpos. rewrite Hpos in Hp. by apply Permutation_nil in Hp. }
  assert (Hne : sorted <> []) by (by intros ->).
  assert (Hlen : (Z.of_nat (length sorted) * 100 <= max_i64)%Z) by (by rewrite Hp).
  destruct (percentile_spec sorted 50 Hne Hss ltac:(lia) Hlen) as (i50 & p50 & -> & H50 & Hi50 & L50 & U50 & _).
  destruct (percentile_spec sorted 95 Hne Hss ltac:(lia) Hlen) as (i95 & p95 & -> & H95 & Hi95 & L95 & U95 & _).
  destruct (percentile_spec sorted 99 Hne Hss ltac:(lia) Hlen) as (i99 & p99 & -> & H99 & Hi99 & L99 & U99 & _).
  destruct (lookup_lt_is_Some_2 sorted (length sorted - 1)) as [m Hm]; [lia|].
  cbn [mbind outcome_bind]. rewrite Hm. cbn [mbind outcome_bind].
  eexists _, _, _. split; [reflexivity|]. cbn [latencies echoes]. split; [done|]. split; [|exact Hrate].
  assert (Hle99 : i99 <= length sorted - 1) by (apply lookup_lt_Some in H99; lia).
  split_and!.
  - apply (U50 i95); [|done]. rewrite Hi50, Hi95. apply Z2Nat.inj_le; [apply Z.div_pos; lia..|]. apply Z.div_le_mono; lia.
  - apply (U95 i99); [|done]. rewrite Hi95, Hi99. apply Z2Nat.inj_le; [apply Z.div_pos; lia..|]. apply Z.div_le_mono; lia.
  - by apply (U99 (length sorted - 1)).
  - rewrite <- Hp. by eapply list_elem_of_lookup_2.
  - rewrite <- Hp. by eapply list_elem_of_lookup_2.
  - rewrite <- Hp. apply Forall_lookup. intros j d Hj.
    destruct (decide (j = length sorted - 1)) as [Hjm|Hne'].
    { subst j. apply Z.eq_le_incl. exact (Some_inj _ _ (eq_trans (eq_sym Hj) Hm)). }
    assert (Hlt : j < length sorted) by exact (lookup_lt_Some _ _ _ Hj).
    apply (StronglySorted_le_lookup sorted j (length sorted - 1)); [done|lia|done|done].
Qed.

Lemma printReport_safe_witness :
  exists rep rate r', printReport (H := exact) Second (mkStats 4 4 2 ∅ 1 0 0 [7; 3]%Z) = Returns (rep, rate, r') /\
    latencies r' ≡ₚ [7; 3]%Z.
Proof.
  destruct (printReport_safe Second (mkStats 4 4 2 ∅ 1 0 0 [7; 3]%Z)) as (rep & rate & r' & H1 & H2 & _);
    [unfold max_i64; cbn; lia|].
  exists rep, rate, r'. split; [exact H1|exact H2].
Defined.

(** The program.  It exits over its flags, ends with an error before any connection is
    used, or sends, waits half a second for the last echoes, reports, and then closes
    every connection it made, each after a normal close frame, exactly once. *)
Theorem main_closes_all {F : Type} `{Float F} `{FloatTrunc F} dial args :
  match main dial args with
  | Exited status => parseConfig args = Exits status
  | Fatal _ => exists c, parseConfig args = Configured c /\
      (validateConfig c <> None \/ exists i err, (0 <= i < connections c)%Z /\ dial (url_of c i) = Some err)
  | Ran actions => exists c, parseConfig args = Configured c /\ validateConfig c = None /\
      exists clients, length clients = Z.to_nat (connections c) /\
        (forall i, (0 <= i < connections c)%Z -> clients !! Z.to_nat i = Some (url_of c i)) /\
        actions = [RunTraffic; Sleep (500 * Millisecond)%Z; PrintReport] ++ (Close <$> closeClients clients)
  end.
Proof.
  unfold main. destruct (parseConfig args) as [c|status]; [|done].
  destruct (validateConfig c) as [err|] eqn:Hv; [exists c; split; [done|left; by rewrite Hv]|].
  pose proof (connect_loop_spec dial c (Z.to_nat (connections c)) 0 []) as Hl. unfold connectClients.
  destruct (connect_loop dial c 0 (Z.to_nat (connections c)) []) as [clients|err]; cbn; exists c.
  - split_and!; [done..|]. exists clients. destruct Hl as [Hl Hi]. split_and!; [done| |done].
    intros i Hi'. rewrite (Hi (Z.to_nat i)) by (cbn; lia). do 2 f_equal. cbn. lia.
  - split; [done|right]. destruct Hl as (i & e & Hi & Hd). exists i, e. split; [lia|done].
Qed.

End LoadTest.
