(* ===== verification/LoadRun.v ===== *)
(** * The load generator as goroutines (cmd/loadtest/main.go)

    LoadTest gives the sender and each reader as functions of what they meet.  Here they
    run together: the main goroutine dials, sends, waits, reports and closes, while a
    reader per connection counts what arrives in the statistics they all share, under
    their mutex, so that a critical section is one step.  Any reader may be anywhere
    when the report is printed.  When main returns, or ends the process by log.Fatal,
    everything ends with it. *)

From stdpp Require Import pretty.
From S2P Require Import Prelude.
From S2P Require Import GoStrings.
From S2P Require Import RateLimit.
From S2P Require Import LoadTest.

Module LoadRun.
Import LoadTest.

(** A reader: in ReadJSON; with a response, before line 184; before line 188; with an
    error, before line 178; returned. *)
Inductive reader_pc := RRead | RReceived (content : string) | RExamine (content : string) | RFailed (err : error) | RGone.

(** Main: dialling; closing the clients after a failed dial; in the select; after
    WriteJSON, before line 161 or 165; sleeping; before the report; in closeClients, with
    what is left to do; ended. *)
Inductive main_pc :=
  | MDial | MAbort (todo : list nat) | MSelect (clientIndex : Z) | MWritten (clientIndex : Z) (sentAt : time) (ok : bool)
  | MSleep | MReport | MClose (todo : list (close_action nat)) | MExited (status : Z).

#[export] Instance close_action_eq_dec : EqDecision (close_action nat).
Proof. solve_decision. Defined.

Abbreviation read := (result (string * time)) (only parsing).

(** Histories: [wire], what was written to which client; [ticks] and [reads], what the
    sender and the readers have been through, as LoadTest's functions take it; [log],
    what was done to the sockets; [reports]. *)
Record state (F : Type) := mkState {
  pc : main_pc; readers : list reader_pc; results : stats;
  wire : list (Z * string); ticks : list (time * bool); reads : list (nat * read);
  log : list (close_action nat); reports : list (report * F);
}.
Arguments mkState {F} pc readers results wire ticks reads log reports.
Arguments pc {F} s.
Arguments readers {F} s.
Arguments results {F} s.
Arguments wire {F} s.
Arguments ticks {F} s.
Arguments reads {F} s.
Arguments log {F} s.
Arguments reports {F} s.

Definition start {F} : state F := mkState MDial [] new_stats [] [] [] [] [].

(** ** The counters *)

Definition count_tick (ok : bool) (r : stats) : stats :=
  if ok then mkStats (wrap_i64 (sent r + 1)) (received r) (selfDelivered r) (deliveredMessageIDs r)
               (duplicateSelfDelivered r) (writeErrors r) (readErrors r) (latencies r)
  else mkStats (sent r) (received r) (selfDelivered r) (deliveredMessageIDs r)
         (duplicateSelfDelivered r) (wrap_i64 (writeErrors r + 1)) (readErrors r) (latencies r).
Definition count_received (r : stats) : stats :=
  mkStats (sent r) (wrap_i64 (received r + 1)) (selfDelivered r) (deliveredMessageIDs r)
    (duplicateSelfDelivered r) (writeErrors r) (readErrors r) (latencies r).
Definition count_readError (r : stats) : stats :=
  mkStats (sent r) (received r) (selfDelivered r) (deliveredMessageIDs r)
    (duplicateSelfDelivered r) (writeErrors r) (wrap_i64 (readErrors r + 1)) (latencies r).
Definition examine (userID content : string) (now : time) (r : stats) : stats :=
  match own_message userID content with None => r | Some sentAt => recordSelfDelivery content sentAt now r end.

Section run.
Context {F : Type} `{Float F}.
Context (c : config).

(** The clients connected so far, by their indices. *)
Definition clients (s : state F) : list nat := seq 0 (length (readers s)).
Definition socket_closed (i : nat) (s : state F) : bool := bool_decide (CloseConn i ∈ log s).

(** ** A reader *)

Inductive reader_choice := Delivers (content : string) | Fails (err : error) | Counts | Examines (now : time).

Definition reader_step (i : nat) (ch : reader_choice) (s : state F) : option (state F) :=
  let 'mkState m rs st w ts hist lg reps := s in
  p ← rs !! i;
  let moved p := <[i := p]> rs in
  match p, ch with
  | RRead, Delivers content =>
    if socket_closed i s then None else Some (mkState m (moved (RReceived content)) st w ts hist lg reps)
  | RRead, Fails err => Some (mkState m (moved (RFailed err)) st w ts hist lg reps)
  | RReceived content, Counts => Some (mkState m (moved (RExamine content)) (count_received st) w ts hist lg reps)
  | RExamine content, Examines now =>
    Some (mkState m (moved RRead) (examine (user_of (Z.of_nat i)) content now st) w ts
            (hist ++ [(i, Ok (content, now))]) lg reps)
  | RFailed err, Counts => Some (mkState m (moved RGone) (count_readError st) w ts (hist ++ [(i, Err err)]) lg reps)
  | _, _ => None
  end.

(** ** Main *)

Inductive main_choice :=
  | Dial (err : option error) | Quit | Tick (sentAt : time) (err : option error) | Proceed | Elapsed (d : Prelude.duration).

Definition main_step (ch : main_choice) (s : state F) : option (outcome (state F)) :=
  let 'mkState m rs st w ts hist lg reps := s in
  let n := Z.of_nat (length rs) in
  let at_pc m := Some (Returns (mkState m rs st w ts hist lg reps)) in
  match m, ch with
  | MDial, Dial err =>
    if (n <? connections c)%Z then
      match err with
      | Some err => at_pc (MAbort (clients s))
      | None => Some (Returns (mkState MDial (rs ++ [RRead]) st w ts hist lg reps))
      end
    else None
  | MDial, Proceed => if (n <? connections c)%Z then None else at_pc (MSelect 0)
  | MAbort (i :: todo), Proceed => Some (Returns (mkState (MAbort todo) rs st w ts hist (lg ++ [CloseConn i]) reps))
  | MAbort [], Proceed => at_pc (MExited 1)
  | MSelect k, Quit => at_pc MSleep
  | MSelect k, Tick sentAt err =>
    match (if (k <? 0)%Z then None else rs !! Z.to_nat k), err with
    | Some _, None =>
      Some (Returns (mkState (MWritten k sentAt true) rs st (w ++ [(k, message_content k sentAt)]) ts hist lg reps))
    | Some _, Some _ => at_pc (MWritten k sentAt false)
    | None, _ => Some (Panics "index out of range")
    end
  | MWritten k sentAt ok, Proceed =>
    if (n =? 0)%Z then Some (Panics "integer divide by zero")
    else Some (Returns (mkState (MSelect (Z.rem (k + 1) n)) rs (count_tick ok st) w (ts ++ [(sentAt, ok)]) hist lg reps))
  | MSleep, Proceed => at_pc MReport
  | MReport, Elapsed d =>
    Some ('(rep, rate, st) ← printReport d st;
      Returns (mkState (MClose (closeClients (clients s))) rs st w ts hist lg (reps ++ [(rep, rate)])))
  | MClose (a :: todo), Proceed => Some (Returns (mkState (MClose todo) rs st w ts hist (lg ++ [a]) reps))
  | MClose [], Proceed => at_pc (MExited 0)
  | _, _ => None
  end.

Definition exited (s : state F) : bool := match pc s with MExited _ => true | _ => false end.

Inductive step (s : state F) : outcome (state F) -> Prop :=
  | step_main ch o : main_step ch s = Some o -> step s o
  | step_reader i ch s' : exited s = false -> reader_step i ch s = Some s' -> step s (Returns s').

Inductive reachable : state F -> Prop :=
  | reachable_start : validateConfig c = None -> reachable start
  | reachable_step s s' : reachable s -> step s (Returns s') -> reachable s'.

(** ** The same, one goroutine after the other *)

(** The readers one after another, from client [i] on. *)
Fixpoint read_all (i : nat) (reads : list (list read)) (r : stats) : stats :=
  match reads with
  | [] => r
  | rs :: reads => read_all (S i) reads (readMessages (user_of (Z.of_nat i)) rs r)
  end.

Definition sequential (ticks : list (time * bool)) (reads : list (list read)) : stats :=
  read_all 0 reads (runTraffic (Z.of_nat (length reads)) 0 ticks new_stats).2.

End run.

(** ** Statistics up to the order of the latencies *)

Definition same (r r' : stats) : Prop :=
  sent r = sent r' /\ received r = received r' /\ selfDelivered r = selfDelivered r' /\
  deliveredMessageIDs r = deliveredMessageIDs r' /\ duplicateSelfDelivered r = duplicateSelfDelivered r' /\
  writeErrors r = writeErrors r' /\ readErrors r = readErrors r' /\ latencies r ≡ₚ latencies r'.

#[export] Instance same_equivalence : Equivalence same.
Proof.
  split; unfold same; [done| |].
  - intros r r' (? & ? & ? & ? & ? & ? & ? & ?). by split_and!.
  - intros r1 r2 r3 (? & ? & ? & ? & ? & ? & ? & ?) (? & ? & ? & ? & ? & ? & ? & ?). split_and!; congruence || by etrans.
Qed.

Ltac same_fields :=
  intros [] [] (? & ? & ? & ? & ? & ? & ? & ?); cbn in *; subst; split_and!; cbn; done || by f_equiv.

#[export] Instance count_tick_same ok : Proper (same ==> same) (count_tick ok).
Proof. destruct ok; same_fields. Qed.
#[export] Instance count_received_same : Proper (same ==> same) count_received.
Proof. same_fields. Qed.
#[export] Instance count_readError_same : Proper (same ==> same) count_readError.
Proof. same_fields. Qed.

Lemma record_same id sentAt now : Proper (same ==> same) (recordSelfDelivery id sentAt now).
Proof.
  intros [] [] (? & ? & ? & ? & ? & ? & ? & ?). cbn in *. subst. unfold recordSelfDelivery. cbn.
  case_bool_decide; split_and!; cbn; done || by f_equiv.
Qed.
#[export] Instance examine_same userID content now : Proper (same ==> same) (examine userID content now).
Proof. intros r r' Hr. unfold examine. destruct (own_message userID content); [by apply record_same|done]. Qed.

(** What a reader does from one response to the next. *)
Definition apply_read (r : stats) (e : nat * read) : stats :=
  match e with
  | (i, Ok (content, now)) => examine (user_of (Z.of_nat i)) content now (count_received r)
  | (i, Err _) => count_readError r
  end.
Definition apply_tick (r : stats) (t : time * bool) : stats := count_tick t.2 r.

#[export] Instance apply_read_same : Proper (same ==> eq ==> same) apply_read.
Proof. intros r r' Hr [i [[content now]|err]] ? <-; cbn; by rewrite Hr. Qed.

#[export] Instance foldl_read_same : Proper (same ==> eq ==> same) (foldl apply_read).
Proof. intros r r' Hr l ? <-. revert r r' Hr. induction l as [|e l IH]; intros r r' Hr; [done|]. cbn. apply IH. by rewrite Hr. Qed.

Fixpoint received_times (n : nat) (r : stats) : stats :=
  match n with O => r | S n => count_received (received_times n r) end.

#[export] Instance received_times_same n : Proper (same ==> same) (received_times n).
Proof. intros r r' Hr. induction n as [|n IH]; [done|]. cbn. by rewrite IH. Qed.

(** Whatever one statement counts does not depend on what the others have counted. *)
Lemma examine_received u content now r :
  examine u content now (count_received r) = count_received (examine u content now r).
Proof. unfold examine, recordSelfDelivery. destruct (own_message u content); [|done]. cbn. by case_bool_decide. Qed.

Lemma examine_readError u content now r :
  examine u content now (count_readError r) = count_readError (examine u content now r).
Proof. unfold examine, recordSelfDelivery. destruct (own_message u content); [|done]. cbn. by case_bool_decide. Qed.

Lemma examine_tick u content now ok r : examine u content now (count_tick ok r) = count_tick ok (examine u content now r).
Proof.
  unfold examine, recordSelfDelivery, count_tick. destruct (own_message u content); [|done].
  destruct ok; cbn; by case_bool_decide.
Qed.

Lemma received_tick ok r : count_received (count_tick ok r) = count_tick ok (count_received r).
Proof. by destruct ok. Qed.
Lemma readError_tick ok r : count_readError (count_tick ok r) = count_tick ok (count_readError r).
Proof. by destruct ok. Qed.

Lemma received_times_commute (f : stats -> stats) n r :
  (forall r, f (count_received r) = count_received (f r)) -> f (received_times n r) = received_times n (f r).
Proof. intros Hf. induction n as [|n IH]; [done|]. cbn. by rewrite Hf, IH. Qed.

Lemma apply_read_tick ok r e : apply_read (count_tick ok r) e = count_tick ok (apply_read r e).
Proof.
  destruct e as [i [[content now]|err]]; cbn; [by rewrite received_tick, examine_tick|by rewrite readError_tick].
Qed.

Lemma foldl_read_tick ok l : forall r, foldl apply_read (count_tick ok r) l = count_tick ok (foldl apply_read r l).
Proof. induction l as [|e l IH]; intros r; [done|]. cbn. by rewrite apply_read_tick, IH. Qed.

(** A content is recognised by the readers of one user identifier only. *)
Lemma own_message_user u u' content t t' :
  own_message u content = Some t -> own_message u' content = Some t' -> u = u'.
Proof.
  unfold own_message. destruct (Split content ":") as [|p0 [|p1 [|p2 [|]]]]; try done.
  repeat case_bool_decide; cbn; try done. congruence.
Qed.

Lemma user_of_inj i j : user_of i = user_of j -> i = j.
Proof. unfold user_of. intros Heq. apply (inj _) in Heq. by apply (inj pretty) in Heq. Qed.

Definition duplicate (r : stats) : stats :=
  mkStats (sent r) (received r) (selfDelivered r) (deliveredMessageIDs r) (wrap_i64 (duplicateSelfDelivered r + 1))
    (writeErrors r) (readErrors r) (latencies r).
Definition deliver (id : string) (latency : Prelude.duration) (r : stats) : stats :=
  mkStats (sent r) (received r) (wrap_i64 (selfDelivered r + 1)) ({[ id ]} ∪ deliveredMessageIDs r)
    (duplicateSelfDelivered r) (writeErrors r) (readErrors r) (latencies r ++ [latency]).

Lemma record_seen id a b r : id ∈ deliveredMessageIDs r -> recordSelfDelivery id a b r = duplicate r.
Proof. intros Hi. unfold recordSelfDelivery. by rewrite bool_decide_true. Qed.
Lemma record_new id a b r : id ∉ deliveredMessageIDs r -> recordSelfDelivery id a b r = deliver id (time_Sub b a) r.
Proof. intros Hi. unfold recordSelfDelivery. by rewrite bool_decide_false. Qed.

Lemma record_commute id id' a a' b b' r : id <> id' ->
  same (recordSelfDelivery id' a' b' (recordSelfDelivery id a b r)) (recordSelfDelivery id a b (recordSelfDelivery id' a' b' r)).
Proof.
  intros Hne. destruct r as [se re de ids du we rr la].
  destruct (decide (id ∈ ids)) as [Hi|Hi], (decide (id' ∈ ids)) as [Hj|Hj].
  - repeat first [rewrite (record_seen id) by (cbn; set_solver) | rewrite (record_seen id') by (cbn; set_solver)]. done.
  - repeat first [rewrite (record_seen id) by (cbn; set_solver) | rewrite (record_new id') by (cbn; set_solver)]. done.
  - repeat first [rewrite (record_new id) by (cbn; set_solver) | rewrite (record_seen id') by (cbn; set_solver)]. done.
  - repeat first [rewrite (record_new id) by (cbn; set_solver) | rewrite (record_new id') by (cbn; set_solver)].
    split_and!; cbn; try done; [set_solver|]. rewrite <- !app_assoc. apply Permutation_app_head, Permutation_swap.
Qed.

Lemma apply_read_commute i j a b r : i <> j ->
  same (apply_read (apply_read r (i, a)) (j, b)) (apply_read (apply_read r (j, b)) (i, a)).
Proof.
  intros Hne. destruct a as [[ca na]|ea], b as [[cb nb]|eb]; cbn.
  - rewrite <- !examine_received. set (r' := count_received (count_received r)). unfold examine.
    destruct (own_message (user_of (Z.of_nat i)) ca) as [ta|] eqn:Ha, (own_message (user_of (Z.of_nat j)) cb) as [tb|] eqn:Hb;
      try reflexivity. apply record_commute. intros ->. apply Hne.
    pose proof (own_message_user _ _ _ _ _ Ha Hb) as Hu%user_of_inj. lia.
  - change (count_received (count_readError r)) with (count_readError (count_received r)). by rewrite examine_readError.
  - change (count_received (count_readError r)) with (count_readError (count_received r)). by rewrite examine_readError.
  - reflexivity.
Qed.

(** ** Ordering the readers *)

Definition of_client (i : nat) (l : list (nat * read)) : list read :=
  omap (fun '(j, rd) => if bool_decide (j = i) then Some rd else None) l.
Definition grouped (ks : list nat) (l : list (nat * read)) : list (nat * read) :=
  i ← ks; pair i <$> of_client i l.

Lemma of_client_snoc i j rd l : of_client i (l ++ [(j, rd)]) = of_client i l ++ (if bool_decide (j = i) then [rd] else []).
Proof. unfold of_client. rewrite omap_app. cbn. by case_bool_decide. Qed.

Lemma of_client_extra i j rds l : of_client i (l ++ (pair j <$> rds)) = of_client i l ++ (if bool_decide (i = j) then rds else []).
Proof.
  unfold of_client. rewrite omap_app. f_equal. induction rds as [|rd rds IH]; cbn; [by case_bool_decide|].
  rewrite IH. repeat case_bool_decide; congruence.
Qed.

Lemma grouped_other ks i rd l : i ∉ ks -> grouped ks (l ++ [(i, rd)]) = grouped ks l.
Proof.
  induction ks as [|j ks IH]; intros Hi; [done|]. apply not_elem_of_cons in Hi as [Hne Hi].
  unfold grouped in *. cbn. rewrite IH, of_client_snoc, bool_decide_false, app_nil_r by done. done.
Qed.

Lemma grouped_clients ks l : Forall (fun e => e.1 ∈ ks) (grouped ks l).
Proof.
  apply Forall_forall. intros [i rd]. unfold grouped. rewrite list_elem_of_bind. intros (j & Hin & Hj).
  apply list_elem_of_fmap in Hin as (? & [= -> ->] & _). done.
Qed.

(** A reader's step can be moved before those of other readers. *)
Lemma foldl_read_past i rd l : forall r, Forall (fun e : nat * read => e.1 <> i) l ->
  same (apply_read (foldl apply_read r l) (i, rd)) (foldl apply_read (apply_read r (i, rd)) l).
Proof.
  induction l as [|[j rd'] l IH]; intros r Hl; [reflexivity|]. apply Forall_cons in Hl as [Hj Hl]. cbn [foldl].
  rewrite IH by done. by rewrite apply_read_commute by (cbn in Hj; congruence).
Qed.

Lemma foldl_grouped n l r : Forall (fun e : nat * read => e.1 < n) l ->
  same (foldl apply_read r l) (foldl apply_read r (grouped (seq 0 n) l)).
Proof.
  induction l as [|[i rd] l IH] using rev_ind; intros Hl.
  { assert (Hnil : grouped (seq 0 n) [] = []) by (unfold grouped; by induction (seq 0 n)). by rewrite Hnil. }
  apply Forall_app in Hl as [Hl Hi]. apply Forall_cons in Hi as [Hi _]. cbn in Hi.
  assert (Hseq : seq 0 n = seq 0 i ++ i :: seq (S i) (n - S i))
    by (change (i :: seq (S i) (n - S i)) with (seq (0 + i) (S (n - S i))); rewrite <- seq_app;
      by replace (i + S (n - S i)) with n by lia).
  assert (Hsplit : forall l, grouped (seq 0 n) l = grouped (seq 0 i) l ++ (pair i <$> of_client i l) ++ grouped (seq (S i) (n - S i)) l).
  { intros l'. rewrite Hseq. unfold grouped. rewrite bind_app. done. }
  rewrite foldl_app. cbn [foldl]. rewrite IH by done. rewrite !Hsplit.
  rewrite !grouped_other by (rewrite elem_of_seq; lia). rewrite of_client_snoc, bool_decide_true, fmap_app by done. cbn.
  rewrite <- !app_assoc, !foldl_app. cbn. apply foldl_read_past.
  eapply Forall_impl; [apply grouped_clients|]. intros [j rd']. cbn. rewrite elem_of_seq. lia.
Qed.

(** A reader that fails has ended. *)
Definition well_ended (rs : list read) : Prop := forall rs1 err rs2, rs = rs1 ++ Err err :: rs2 -> rs2 = [].

Lemma well_ended_cons rd rs : well_ended (rd :: rs) -> well_ended rs.
Proof. intros Hw rs1 err rs2 ->. by apply (Hw (rd :: rs1) err rs2). Qed.

Lemma readMessages_foldl i rs : forall r, well_ended rs ->
  readMessages (user_of (Z.of_nat i)) rs r = foldl apply_read r (pair i <$> rs).
Proof.
  induction rs as [|[[content now]|err] rs IH]; intros r Hw; [done| |].
  - cbn. by rewrite IH by (by eapply well_ended_cons).
  - by rewrite (Hw [] err rs).
Qed.

Lemma read_all_foldl (f : nat -> list read) n : forall i r,
  (forall i, well_ended (f i)) ->
  read_all i (f <$> seq i n) r = foldl apply_read r (j ← seq i n; pair j <$> f j).
Proof.
  induction n as [|n IH]; intros i r Hw; [done|]. cbn. rewrite IH, readMessages_foldl, foldl_app by done. done.
Qed.

Lemma runTraffic_foldl n l : forall k r, (runTraffic n k l r).2 = foldl apply_tick r l.
Proof.
  induction l as [|[sentAt ok] l IH]; intros k r; [done|]. cbn.
  specialize (IH (Z.rem (k + 1) n) (count_tick ok r)). unfold count_tick in IH at 1.
  destruct ok; destruct (runTraffic _ _ _ _) as [log r'] eqn:Hr; cbn in IH |- *; by rewrite IH.
Qed.

(** The statements of all goroutines, in the order in which they were taken, count what
    the sequential program counts. *)
Lemma sequential_same n ts l :
  (forall i, well_ended (of_client i l)) -> Forall (fun e : nat * read => e.1 < n) l ->
  same (foldl apply_read (foldl apply_tick new_stats ts) l) (sequential ts ((fun i => of_client i l) <$> seq 0 n)).
Proof.
  intros Hw Hl. unfold sequential. rewrite runTraffic_foldl, read_all_foldl by done. by apply foldl_grouped.
Qed.

(** ** The invariant *)

Definition examining (p : reader_pc) : bool := match p with RExamine _ => true | _ => false end.
Definition late {F} (s : state F) : nat := count_if examining (readers s).

Definition written (ts : list (time * bool)) : nat := count_if snd ts.

(** A reader's own history: only its last read failed, and then it has returned. *)
Definition reader_ok (p : reader_pc) (rs : list read) : Prop :=
  match p with
  | RGone => exists rs' err, rs = rs' ++ [Err err] /\ Forall is_ok rs'
  | _ => Forall is_ok rs
  end.

Lemma reader_ok_ended p rs : reader_ok p rs -> well_ended rs.
Proof.
  intros Hr rs1 err rs2 ->. assert (Hno : forall rs1 rs2, ~ Forall (fun rd : read => is_ok rd) (rs1 ++ Err err :: rs2)).
  { intros l1 l2 Hf. apply Forall_app in Hf as [_ Hf]. by apply Forall_cons in Hf as [Hf _]. }
  destruct p; try (by exfalso; eapply Hno). destruct Hr as (rs' & err' & Heq & Hok).
  destruct rs2 as [|rd rs2 _] using rev_ind; [done|]. exfalso.
  change (Err err :: rs2 ++ [rd]) with ((Err err :: rs2) ++ [rd]) in Heq. rewrite app_assoc in Heq.
  apply app_inj_tail in Heq as [<- _]. by eapply Hno.
Qed.

Lemma count_if_insert {A} (f : A -> bool) l i x y :
  l !! i = Some x -> count_if f (<[i := y]> l) + (if f x then 1 else 0) = count_if f l + (if f y then 1 else 0).
Proof.
  revert i. induction l as [|a l IH]; intros [|i] Hl; cbn in Hl; simplify_eq.
  - change (<[0:=y]> (x :: l)) with (y :: l). rewrite !count_if_cons. lia.
  - change (<[S i:=y]> (a :: l)) with (a :: <[i:=y]> l). rewrite !count_if_cons.
    specialize (IH i Hl). lia.
Qed.

#[local] Arguments closeClients : simpl never.

Ltac fields := cbn [pc readers results wire ticks reads log reports] in *.

Section invariant.
Context {F : Type} `{Float F}.
Context (c : config).

(** What everything so far has counted, in the order in which it was counted. *)
Definition counted_so_far (ts : list (time * bool)) (l : list (nat * read)) (late : nat) : stats :=
  received_times late (foldl apply_read (foldl apply_tick new_stats ts) l).

Definition report_ok (s : state F) (report : report * F) : Prop :=
  exists d n l rest, l `prefix_of` reads s /\ n <= length (readers s) /\
    printReport d (counted_so_far (ticks s) l n) = Returns (report.1, report.2, rest).

Definition main_ok (s : state F) : Prop :=
  let n := length (readers s) in
  match pc s with
  | MDial => ticks s = [] /\ wire s = [] /\ log s = [] /\ reports s = []
  | MAbort todo => ticks s = [] /\ reports s = [] /\ log s ++ (CloseConn <$> todo) = CloseConn <$> seq 0 n
  | MSelect k => (0 <= k < Z.of_nat n)%Z /\ log s = [] /\ reports s = []
  | MWritten k _ _ => (0 <= k < Z.of_nat n)%Z /\ log s = [] /\ reports s = []
  | MSleep | MReport => log s = [] /\ reports s = []
  | MClose todo => log s ++ todo = closeClients (seq 0 n) /\ length (reports s) = 1
  | MExited status =>
    (status = 0%Z /\ log s = closeClients (seq 0 n) /\ length (reports s) = 1) \/
    (status = 1%Z /\ log s = CloseConn <$> seq 0 n /\ reports s = [])
  end.

(** The write of which the sender has not yet counted the result. *)
Definition uncounted (s : state F) : nat := match pc s with MWritten _ _ true => 1 | _ => 0 end.

(** Every client is connected, unless dialling failed or is not over. *)
Definition dialled (m : main_pc) (n : nat) : Prop :=
  match m with
  | MDial | MAbort _ => True
  | MExited status => status = 0%Z -> Z.of_nat n = connections c
  | _ => Z.of_nat n = connections c
  end.

Record run_inv (s : state F) : Prop := {
  ri_valid : validateConfig c = None;
  ri_clients : (Z.of_nat (length (readers s)) <= connections c)%Z /\
    dialled (pc s) (length (readers s));
  ri_reads : Forall (fun e : nat * read => e.1 < length (readers s)) (reads s);
  ri_readers : forall i p, readers s !! i = Some p -> reader_ok p (of_client i (reads s));
  ri_stats : same (results s) (counted_so_far (ticks s) (reads s) (late s));
  ri_wire : length (wire s) = written (ticks s) + uncounted s;
  ri_main : main_ok s;
  ri_reports : Forall (report_ok s) (reports s);
}.

Lemma validateConfig_connections : validateConfig c = None -> (0 < connections c)%Z.
Proof. unfold validateConfig. destruct (Z.leb_spec (connections c) 0); [done|lia]. Qed.

Lemma start_run_inv : validateConfig c = None -> run_inv start.
Proof.
  intros Hv. pose proof (validateConfig_connections Hv). split; cbn; try done. split; [lia|done].
Qed.

(** *** The readers *)

(** A reader that moves, with what it has been through. *)
Lemma reader_update_inv s i p p' st' extra :
  run_inv s -> readers s !! i = Some p -> reader_ok p' (of_client i (reads s) ++ extra) ->
  same st' (counted_so_far (ticks s) (reads s ++ (pair i <$> extra)) (count_if examining (<[i := p']> (readers s)))) ->
  run_inv (mkState (pc s) (<[i := p']> (readers s)) st' (wire s) (ticks s) (reads s ++ (pair i <$> extra)) (log s) (reports s)).
Proof.
  intros [] Hp Hok Hst. destruct s as [m rs st w ts l lg reps]. fields. pose proof (lookup_lt_Some _ _ _ Hp) as Hi.
  split; unfold main_ok, report_ok, late, uncounted in *; fields; rewrite ?length_insert; try done.
  - apply Forall_app. split; [done|]. apply Forall_fmap, Forall_forall. done.
  - intros j q Hj. destruct (decide (j = i)) as [->|Hne].
    + rewrite list_lookup_insert_eq in Hj by done. injection Hj as <-. by rewrite of_client_extra, bool_decide_true.
    + rewrite list_lookup_insert_ne in Hj by done. rewrite of_client_extra, bool_decide_false, app_nil_r by done.
      by apply ri_readers0.
  - eapply Forall_impl; [exact ri_reports0|]. intros rep (d & n & l' & rest & Hl' & Hn & Hr). exists d, n, l', rest.
    split_and!; [|done..]. by apply prefix_app_r.
Qed.

Lemma reader_step_run_inv i ch s s' : run_inv s -> reader_step i ch s = Some s' -> run_inv s'.
Proof.
  intros Hi Hs. assert (Hs' : exists p p' st' extra,
    readers s !! i = Some p /\ reader_ok p' (of_client i (reads s) ++ extra) /\
    same st' (counted_so_far (ticks s) (reads s ++ (pair i <$> extra)) (count_if examining (<[i := p']> (readers s)))) /\
    s' = mkState (pc s) (<[i := p']> (readers s)) st' (wire s) (ticks s) (reads s ++ (pair i <$> extra)) (log s) (reports s)).
  2: { destruct Hs' as (p & p' & st' & extra & Hp & Hok & Hst & ->). by eapply reader_update_inv. }
  destruct Hi as [_ _ _ Hok Hst _ _ _]. destruct s as [m rs st w ts l lg reps]. unfold late in Hst. fields.
  unfold reader_step in Hs. destruct (rs !! i) as [p|] eqn:Hp; [cbn in Hs|done]. specialize (Hok i p Hp).
  pose proof (fun p' => count_if_insert examining rs i p p' Hp) as Hc. unfold counted_so_far in *.
  set (X := foldl apply_read (foldl apply_tick new_stats ts) l) in *.
  assert (Hlate : forall k, count_if examining rs = k -> same st (received_times k X)) by (by intros ? <-).
  destruct p as [|content|content|err|], ch as [content'|err'| |now]; try done.
  - match type of Hs with (if ?b then _ else _) = _ => destruct b; [done|] end.
    injection Hs as <-. exists RRead, (RReceived content'), st, [].
    rewrite !app_nil_r. split_and!; try done. apply Hlate. specialize (Hc (RReceived content')). cbn in Hc. lia.
  - injection Hs as <-. exists RRead, (RFailed err'), st, [].
    rewrite !app_nil_r. split_and!; try done. apply Hlate. specialize (Hc (RFailed err')). cbn in Hc. lia.
  - injection Hs as <-. exists (RReceived content), (RExamine content), (count_received st), [].
    rewrite !app_nil_r. split_and!; try done. specialize (Hc (RExamine content)). cbn in Hc.
    replace (count_if examining (<[i:=RExamine content]> rs)) with (S (count_if examining rs)) by lia.
    cbn. by rewrite Hst.
  - injection Hs as <-. exists (RExamine content), RRead, (examine (user_of (Z.of_nat i)) content now st), [Ok (content, now)].
    split_and!; [done|by apply Forall_app; split; [|by constructor]| |done]. specialize (Hc RRead). cbn in Hc.
    rewrite (Hlate (S (count_if examining (<[i:=RRead]> rs)))) by lia. rewrite foldl_app. cbn.
    rewrite (received_times_commute count_received) by done.
    by rewrite (received_times_commute (examine _ content now)) by (intros; apply examine_received).
  - injection Hs as <-. exists (RFailed err), RGone, (count_readError st), [Err err].
    split_and!; [done|by eexists _, _| |done]. specialize (Hc RGone). cbn in Hc.
    rewrite (Hlate (count_if examining (<[i:=RGone]> rs))) by lia. rewrite foldl_app. cbn.
    by rewrite received_times_commute.
Qed.

(** *** Main *)

Lemma sort_latencies_same l l' : l ≡ₚ l' -> sort_latencies l = sort_latencies l'.
Proof.
  intros Hl. apply (StronglySorted_unique Z.le); [apply (StronglySorted_merge_sort Z.le)..|].
  unfold sort_latencies. by rewrite !merge_sort_Permutation.
Qed.

(** The report shows nothing of the order in which latencies were taken. *)
Lemma printReport_same d r r' : same r r' -> printReport (F := F) d r = printReport d r'.
Proof.
  destruct r, r'. intros (? & ? & ? & ? & ? & ? & ? & Hl%sort_latencies_same). cbn in *. subst.
  unfold printReport, deliveryRate. cbn. by rewrite Hl.
Qed.

Lemma printReport_rest d r rep rate r' : printReport (F := F) d r = Returns (rep, rate, r') -> same r' r.
Proof.
  unfold printReport. intros Hp. match type of Hp with (x ← ?m; _) = _ => destruct m; [|done] end. cbn in Hp.
  injection Hp as _ _ <-. split_and!; cbn; try done. apply merge_sort_Permutation.
Qed.

(** What changes neither the histories nor the counters. *)
Lemma main_moves_inv s m rs lg :
  run_inv s -> rs = readers s ++ replicate (length rs - length (readers s)) RRead ->
  (Z.of_nat (length rs) <= connections c)%Z /\
    dialled m (length rs) ->
  main_ok (mkState m rs (results s) (wire s) (ticks s) (reads s) lg (reports s)) ->
  uncounted (mkState m rs (results s) (wire s) (ticks s) (reads s) lg (reports s)) = uncounted s ->
  run_inv (mkState m rs (results s) (wire s) (ticks s) (reads s) lg (reports s)).
Proof.
  intros [] Hrs Hc Hm Hu. destruct s as [m0 rs0 st w ts l lg0 reps]. fields.
  set (k := length rs - length rs0) in *. clearbody k. subst rs.
  assert (Hlate : count_if examining (rs0 ++ replicate k RRead) = count_if examining rs0).
  { clear. unfold count_if. rewrite List.filter_app, length_app. induction k as [|k IH]; cbn in *; lia. }
  split; unfold report_ok, late in *; fields; try done.
  - eapply Forall_impl; [exact ri_reads0|]. intros e. rewrite length_app. cbn. lia.
  - intros i p Hp. apply lookup_app_Some in Hp as [Hp|[Hge Hp]]; [by apply ri_readers0|].
    apply lookup_replicate in Hp as [-> _]. cbn.
    assert (Hnil : of_client i l = []); [|by rewrite Hnil].
    clear -Hge ri_reads0. induction ri_reads0 as [|[j rd] l Hj _ IH]; [done|]. cbn in Hj. unfold of_client in *. cbn.
    rewrite bool_decide_false by lia. done.
  - by rewrite Hlate.
  - by rewrite Hu.
  - eapply Forall_impl; [exact ri_reports0|]. intros rep (d & n & l' & rest & Hl' & Hn & Hr). exists d, n, l', rest.
    split_and!; [done|rewrite length_app; lia|done].
Qed.

Lemma main_step_run_inv ch s s' : run_inv s -> main_step c ch s = Some (Returns s') -> run_inv s'.
Proof.
  intros Hi Hs. pose proof Hi as [_ [Hle Hc] Hr Hok Hst Hw Hm Hrep]. destruct s as [m rs st w ts l lg reps].
  unfold main_ok, uncounted in Hm, Hw. fields.
  assert (Hmove : forall m' rs' lg', s' = mkState m' rs' st w ts l lg' reps ->
    rs' = rs ++ replicate (length rs' - length rs) RRead ->
    (Z.of_nat (length rs') <= connections c)%Z /\
      dialled m' (length rs') ->
    main_ok (mkState m' rs' st w ts l lg' reps) ->
    uncounted (mkState m' rs' st w ts l lg' reps) = uncounted (mkState m rs st w ts l lg reps) -> run_inv s').
  { intros m' rs' lg' ->. exact (main_moves_inv (mkState m rs st w ts l lg reps) m' rs' lg' Hi). }
  assert (Hsame : rs = rs ++ replicate (length rs - length rs) RRead) by (by rewrite Nat.sub_diag, app_nil_r).
  unfold main_step in Hs.
  destruct m as [|todo|k|k sentAt ok| | |todo|status], ch as [err| |t err| |d]; try done; try (by destruct todo); cbn in Hs.
  - destruct (Z.ltb_spec (Z.of_nat (length rs)) (connections c)); [|done]. destruct err as [err|]; injection Hs as <-.
    + eapply Hmove; [done|done|done| |done]. unfold main_ok. fields. naive_solver.
    + eapply Hmove; [done| | |done|done].
      * rewrite length_app. cbn [length]. by replace (length rs + 1 - length rs) with 1 by lia.
      * rewrite length_app. cbn. split; [lia|done].
  - destruct (Z.ltb_spec (Z.of_nat (length rs)) (connections c)); [done|]. injection Hs as <-.
    pose proof (validateConfig_connections (ri_valid _ Hi)).
    eapply Hmove; [done|done|split; [done|cbn; lia]| |done]. unfold main_ok. fields. naive_solver lia.
  - destruct todo as [|j todo]; cbn in Hs; injection Hs as <-; (eapply Hmove; [done|done|done| |done]); unfold main_ok; fields.
    + right. destruct Hm as (_ & Hrp & Hlg). rewrite app_nil_r in Hlg. done.
    + destruct Hm as (Ht & Hrp & Hlg). split_and!; [done..|]. by rewrite <- Hlg, <- app_assoc.
  - injection Hs as <-. eapply Hmove; [done|done|done| |done]. unfold main_ok. fields. tauto.
  - destruct (if (k <? 0)%Z then None else rs !! Z.to_nat k) as [p|]; [|done].
    destruct err as [err|]; injection Hs as <-; [eapply Hmove; done|].
    destruct Hi. split; unfold main_ok, uncounted, report_ok, late in *; fields; try done.
    rewrite length_app, ri_wire0. cbn. lia.
  - destruct (Z.eqb_spec (Z.of_nat (length rs)) 0); [done|]. injection Hs as <-.
    assert (Hmod : (0 <= Z.rem (k + 1) (Z.of_nat (length rs)) < Z.of_nat (length rs))%Z)
      by (rewrite Z.rem_mod_nonneg by lia; apply Z.mod_pos_bound; lia).
    destruct Hi. split; unfold main_ok, uncounted, report_ok, late in *; fields; try done.
    + unfold counted_so_far in *. rewrite foldl_app. cbn [foldl apply_tick]. unfold apply_tick at 1. cbn [snd].
      rewrite foldl_read_tick, <- (received_times_commute (count_tick ok)) by (intros; by rewrite received_tick).
      by rewrite ri_stats0.
    + rewrite Hw. unfold written, count_if. rewrite List.filter_app, length_app. cbn. by destruct ok.
    + by destruct ri_main0 as (_ & ? & ?).
    + destruct ri_main0 as (_ & _ & ->). done.
  - injection Hs as <-. eapply Hmove; done.
  - destruct (printReport d st) as [[[rep rate] st']|] eqn:Hp; [|done]. cbn in Hs. injection Hs as <-.
    destruct Hm as [-> ->]. destruct Hi. split; unfold main_ok, uncounted, report_ok, late in *; fields; try done.
    + by rewrite (printReport_rest _ _ _ _ _ Hp).
    + constructor; [|done]. exists d, (count_if examining rs), l, st'. split_and!; [done|apply count_if_le|].
      by rewrite <- (printReport_same d _ _ ri_stats0).
  - destruct todo as [|a todo]; cbn in Hs; injection Hs as <-; (eapply Hmove; [done|done|split; [done|]| |done]); unfold main_ok; fields.
    + by intros _.
    + left. destruct Hm as [Hlg Hn]. by rewrite app_nil_r in Hlg.
    + done.
    + destruct Hm as [Hlg Hn]. by rewrite <- Hlg, <- app_assoc.
Qed.

Lemma load_run_reachable_inv s : reachable c s -> run_inv s.
Proof.
  induction 1 as [Hv|s s' _ IH Hs]; [by apply start_run_inv|]. inversion Hs as [ch o Hm|i ch s1 _ Hr]; subst.
  - by eapply main_step_run_inv.
  - by eapply reader_step_run_inv.
Qed.

(** *** A report is that of the sequential program *)

Lemma of_client_prefix i l l' : l `prefix_of` l' -> of_client i l `prefix_of` of_client i l'.
Proof. intros [k ->]. unfold of_client. rewrite omap_app. by exists (of_client i k). Qed.

Lemma well_ended_prefix rs rs' : rs `prefix_of` rs' -> well_ended rs' -> well_ended rs.
Proof.
  intros [k ->] Hw rs1 err rs2 ->. specialize (Hw rs1 err (rs2 ++ k)). rewrite <- app_assoc in Hw.
  specialize (Hw eq_refl). by apply app_eq_nil in Hw as [? _].
Qed.

Lemma of_client_none n i l : Forall (fun e : nat * read => e.1 < n) l -> n <= i -> of_client i l = [].
Proof.
  intros Hl Hi. induction Hl as [|[j rd] l Hj _ IH]; [done|]. cbn in Hj. unfold of_client in *. cbn.
  by rewrite bool_decide_false by lia.
Qed.

Lemma run_inv_ended s l i : run_inv s -> l `prefix_of` reads s -> well_ended (of_client i l).
Proof.
  intros [] Hl. eapply well_ended_prefix; [by apply of_client_prefix|].
  destruct (readers s !! i) as [p|] eqn:Hp; [by eapply reader_ok_ended, ri_readers0|].
  apply lookup_ge_None in Hp. rewrite (of_client_none (length (readers s))) by done. by intros [|].
Qed.

(** There is a report only when every client was connected and the sender has ended. *)
Lemma reports_after s report : run_inv s -> report ∈ reports s ->
  Z.of_nat (length (readers s)) = connections c /\ uncounted s = 0.
Proof.
  intros Hi Hin. assert (Hne : reports s <> []) by (intros Hnil; rewrite Hnil in Hin; by apply elem_of_nil in Hin).
  pose proof (ri_clients _ Hi) as [_ Hc]. pose proof (ri_main _ Hi) as Hm. unfold main_ok, dialled, uncounted in *.
  destruct (pc s); naive_solver.
Qed.

(** C39: the report is linearizable.  However sender and readers interleave, and whatever
    the network does, the report shows what the sequential program counts that first lets
    the sender send all it has sent and then each reader, one after the other, read what it
    has read by then, except that up to one response per connection is counted as received
    but not examined yet. *)
Theorem report_linearizes s rep rate :
  reachable c s -> (rep, rate) ∈ reports s ->
  exists d late rss rest, Z.of_nat (length rss) = connections c /\ late <= length rss /\
    (forall i rs, rss !! i = Some rs -> rs `prefix_of` of_client i (reads s)) /\
    printReport d (received_times late (sequential (ticks s) rss)) = Returns (rep, rate, rest).
Proof.
  intros Hi%load_run_reachable_inv Hin. pose proof (ri_reports _ Hi) as Hok. rewrite Forall_forall in Hok.
  destruct (Hok _ Hin) as (d & n & l & rest & Hl & Hn & Hp).
  exists d, n, ((fun i => of_client i l) <$> seq 0 (length (readers s))), rest. rewrite length_fmap, length_seq.
  split_and!; [|done| |].
  - by eapply reports_after.
  - intros i rs Hrs. rewrite list_lookup_fmap in Hrs. apply fmap_Some in Hrs as (j & Hj & ->).
    apply lookup_seq in Hj as [-> _]. by apply of_client_prefix.
  - cbn in Hp. rewrite <- Hp. apply printReport_same. unfold counted_so_far. rewrite <- sequential_same; [done| |].
    + intros i. by eapply run_inv_ended.
    + destruct Hl as [k Hk]. pose proof (ri_reads _ Hi) as Hr. rewrite Hk in Hr. by apply Forall_app in Hr as [Hr _].
Qed.

End invariant.

(** ** What a report may claim *)

(** Every delivered message is counted once, with one latency. *)
Definition tally (r : stats) : Prop :=
  selfDelivered r = Z.of_nat (size (deliveredMessageIDs r)) /\ length (latencies r) = size (deliveredMessageIDs r).

(** The contents a reader recognised as its own. *)
Definition own_contents (l : list (nat * read)) : gset string :=
  list_to_set (omap (fun e : nat * read => match e with
    | (i, Ok (content, _)) => _ ← own_message (user_of (Z.of_nat i)) content; Some content
    | _ => None
    end) l).

Lemma size_union_singleton (x : string) (X : gset string) : size ({[ x ]} ∪ X) <= S (size X).
Proof.
  rewrite size_union_alt, size_singleton. assert (size (X ∖ {[ x ]}) <= size X) by (apply subseteq_size; set_solver). lia.
Qed.

Lemma size_list_to_set_le (l : list string) : size (list_to_set l : gset string) <= length l.
Proof. induction l as [|x l IH]; [done|]. cbn. pose proof (size_union_singleton x (list_to_set l)). lia. Qed.

Lemma record_tally id a b r : tally r -> (Z.of_nat (size (deliveredMessageIDs r)) < max_i64)%Z ->
  tally (recordSelfDelivery id a b r) /\ sent (recordSelfDelivery id a b r) = sent r /\
  deliveredMessageIDs (recordSelfDelivery id a b r) = {[ id ]} ∪ deliveredMessageIDs r.
Proof.
  intros [H1 H2] Hmax. destruct (decide (id ∈ deliveredMessageIDs r)) as [Hin|Hin].
  - rewrite record_seen by done. split_and!; [done..|]. cbn. set_solver.
  - rewrite record_new by done. split_and!; [|done..]. split; cbn;
      rewrite size_union, size_singleton, ?length_app by set_solver; cbn; [|lia].
    rewrite wrap_i64_small by (unfold min_i64 in *; lia). lia.
Qed.

Lemma foldl_read_tally l : forall r, tally r ->
  (Z.of_nat (size (deliveredMessageIDs r) + length l) <= max_i64)%Z ->
  let r' := foldl apply_read r l in
  tally r' /\ sent r' = sent r /\ deliveredMessageIDs r' ⊆ own_contents l ∪ deliveredMessageIDs r.
Proof.
  induction l as [|[i [[content now]|err]] l IH]; intros r Ht Hmax; cbn [foldl] in *; cbv zeta; [split_and!; [done..|set_solver]| |].
  - cbn [apply_read]. unfold examine, own_contents in *. cbn. cbn in Hmax.
    destruct (own_message (user_of (Z.of_nat i)) content) as [t|]; cbn.
    + destruct (record_tally content t now (count_received r) Ht ltac:(cbn; lia)) as (Ht1 & Hs1 & Hd1). cbn in Hs1, Hd1.
      destruct (IH _ Ht1) as (Ht' & Hs' & Hd').
      { rewrite Hd1. pose proof (size_union_singleton content (deliveredMessageIDs r)). lia. }
      split_and!; [done|congruence|]. rewrite Hd1 in Hd'. set_solver.
    + destruct (IH (count_received r) Ht) as (Ht' & Hs' & Hd'); [cbn; lia|]. split_and!; [done..|]. exact Hd'.
  - cbn in Hmax. destruct (IH (count_readError r) Ht) as (Ht' & Hs' & Hd'); [cbn; lia|]. by split_and!.
Qed.

Lemma foldl_tick_sent ts : forall r, (0 <= sent r)%Z -> (sent r + Z.of_nat (written ts) <= max_i64)%Z ->
  let r' := foldl apply_tick r ts in
  sent r' = (sent r + Z.of_nat (written ts))%Z /\ selfDelivered r' = selfDelivered r /\
  deliveredMessageIDs r' = deliveredMessageIDs r /\ latencies r' = latencies r.
Proof.
  induction ts as [|[sentAt ok] ts IH]; intros r Hr Hmax; cbv zeta; cbn [foldl]; [split_and!; cbn; done || lia|].
  unfold written in *. rewrite count_if_cons in *. cbn [snd] in *.
  assert (Hs : sent (count_tick ok r) = (sent r + (if ok then 1 else 0))%Z)
    by (destruct ok; cbn; [apply wrap_i64_small; unfold min_i64|]; lia).
  destruct (IH (count_tick ok r)) as (E1 & E2 & E3 & E4); [rewrite Hs; destruct ok; lia..|].
  change (apply_tick r (sentAt, ok)) with (count_tick ok r). rewrite E1, E2, E3, E4, Hs. destruct ok; split_and!; done || lia.
Qed.

Lemma received_times_fields n r :
  sent (received_times n r) = sent r /\ selfDelivered (received_times n r) = selfDelivered r /\
  deliveredMessageIDs (received_times n r) = deliveredMessageIDs r /\ latencies (received_times n r) = latencies r.
Proof. induction n as [|n IH]; [done|]. exact IH. Qed.

Lemma printReport_shows {F : Type} `{Float F} d r rep rate rest : printReport (F := F) d r = Returns (rep, rate, rest) ->
  r_sent rep = sent r /\ self_delivered rep = selfDelivered r.
Proof.
  unfold printReport. intros Hp. match type of Hp with (x ← ?m; _) = _ => destruct m; [|done] end. cbn in Hp.
  by injection Hp as <- _ _.
Qed.

(** The report is honest.  If what a reader takes for its own message was written to
    that client without an error, the report never claims more deliveries than sent
    messages, replays and all, so that in exact arithmetic the delivery rate is between 0
    and 100 percent, and its percentiles are latencies in increasing order; and the sent
    messages it shows are those that were written. *)
Theorem report_honest c s rep rate :
  reachable (H := exact) c s -> (rep, rate) ∈ reports s ->
  (Z.of_nat (length (reads s)) <= max_i64)%Z -> (Z.of_nat (length (wire s)) * 100 <= max_i64)%Z ->
  (forall i content now t, (i, Ok (content, now)) ∈ reads s ->
     own_message (user_of (Z.of_nat i)) content = Some t -> (Z.of_nat i, content) ∈ wire s) ->
  r_sent rep = Z.of_nat (length (wire s)) /\ (0 <= self_delivered rep <= r_sent rep)%Z /\
  QArith_base.Qle (QArith_base.inject_Z 0) rate /\ QArith_base.Qle rate (QArith_base.inject_Z 100) /\
  match echoes rep with
  | None => self_delivered rep = 0%Z
  | Some (p50, p95, p99, maximum) => (p50 <= p95 <= p99)%Z /\ (p99 <= maximum)%Z
  end.
Proof.
  intros Hi%load_run_reachable_inv Hin Hreads Hwire Hnet. pose proof (ri_reports _ _ Hi) as Hok. rewrite Forall_forall in Hok.
  destruct (Hok _ Hin) as (d & n & l & rest & Hl & Hn & Hp). cbn in Hp.
  destruct (reports_after _ _ _ Hi Hin) as [_ Hu]. pose proof (ri_wire _ _ Hi) as Hw. rewrite Hu, Nat.add_0_r in Hw.
  pose proof (prefix_length _ _ Hl) as Hlen.
  destruct (foldl_tick_sent (ticks s) new_stats) as (Es & Ed & Ei & El); [done|cbn; lia|]. cbn in Es, Ed, Ei, El.
  destruct (foldl_read_tally l (foldl apply_tick new_stats (ticks s))) as ([T1 T2] & Ts & Ti).
  { unfold tally. by rewrite Ed, Ei, El. }
  { rewrite Ei. change (size ∅) with 0. lia. }
  unfold counted_so_far in Hp. set (r := foldl apply_read (foldl apply_tick new_stats (ticks s)) l) in *.
  destruct (received_times_fields n r) as (Rs & Rd & _ & Rl).
  assert (Hsize : size (deliveredMessageIDs r) <= length (wire s)).
  { transitivity (size (list_to_set (snd <$> wire s) : gset string)).
    - apply subseteq_size. rewrite Ei, union_empty_r_L in Ti. intros content Hc%Ti.
      unfold own_contents in Hc. apply elem_of_list_to_set, list_elem_of_omap in Hc as ([i [[content' now]|]] & Hc & Heq); [|done].
      destruct (own_message (user_of (Z.of_nat i)) content') as [t|] eqn:Ho; [|done]. injection Heq as ->.
      apply elem_of_list_to_set, list_elem_of_fmap. exists (Z.of_nat i, content). split; [done|].
      eapply Hnet; [|done]. destruct Hl as [k ->]. apply elem_of_app. left. exact Hc.
    - rewrite <- (length_fmap snd (wire s)). apply size_list_to_set_le. }
  assert (Hcount : sent (received_times n r) = Z.of_nat (length (wire s))) by (rewrite Rs, Ts, Es, Hw; lia).
  destruct (printReport_shows _ _ _ _ _ Hp) as [Hsent Hself]. rewrite Hsent, Hself, Hcount, Rd, T1.
  destruct (printReport_safe d (received_times n r)) as (rep' & rate' & rest' & Hp' & _ & Hechoes & Hrate).
  { rewrite Rl, T2. lia. }
  rewrite Hp in Hp'. injection Hp' as <- <- _. rewrite Rd, Hcount, T1 in Hrate. specialize (Hrate ltac:(lia)).
  split_and!; [done|lia|lia|apply Hrate..|]. destruct (echoes rep) as [[[[p50 p95] p99] maximum]|]; [tauto|].
  rewrite Rl in Hechoes. rewrite Hechoes in T2. cbn in T2. lia.
Qed.

(** ** The end *)

Lemma printReport_returns {F : Type} `{Float F} d r : (Z.of_nat (length (latencies r)) * 100 <= max_i64)%Z ->
  exists rep rate r', printReport (F := F) d r = Returns (rep, rate, r').
Proof.
  intros Hmax. destruct (printReport_safe d r Hmax) as (rep & rate & r' & Hp & _). unfold printReport in *.
  match type of Hp with (x ← ?m; _) = _ => destruct m; [|done] end. by eexists _, _, _.
Qed.

Lemma foldl_read_latencies l : forall r, length (latencies (foldl apply_read r l)) <= length (latencies r) + length l.
Proof.
  induction l as [|e l IH]; intros r; cbn; [lia|]. etrans; [apply IH|].
  assert (length (latencies (apply_read r e)) <= S (length (latencies r))); [|lia].
  destruct e as [i [[content now]|err]]; cbn; [|lia]. unfold examine, recordSelfDelivery.
  destruct (own_message _ content); cbn; [|lia]. case_bool_decide; cbn; [lia|]. rewrite length_app. cbn. lia.
Qed.

Lemma foldl_tick_latencies ts : forall r, latencies (foldl apply_tick r ts) = latencies r.
Proof. induction ts as [|[sentAt ok] ts IH]; intros r; [done|]. cbn. rewrite IH. by destruct ok. Qed.

(** Main has stopped sending, or never will. *)
Definition leaving (m : main_pc) : bool :=
  match m with MDial | MSelect _ | MWritten _ _ _ => false | _ => true end.
Definition rank {F} (s : state F) : nat :=
  match pc s with
  | MAbort todo => S (length todo)
  | MSleep => 2 * length (readers s) + 3
  | MReport => 2 * length (readers s) + 2
  | MClose todo => S (length todo)
  | _ => 0
  end.

Lemma length_closeClients {C} (l : list C) : length (closeClients l) = 2 * length l.
Proof. unfold closeClients. induction l as [|x l IH]; cbn in *; lia. Qed.

(** The load test ends, and closes what it opened.  Nothing panics; main is never
    blocked; once it has stopped sending, every statement of main is one of at most two per
    client and three more, whatever the readers do; and when the process ends, it has
    printed one report and closed every connection once, after a normal close frame, or
    dialling has failed and the connections made so far are closed. *)
Theorem load_test_ends {F : Type} `{Float F} c (s : state F) :
  reachable c s ->
  ((Z.of_nat (length (reads s)) * 100 <= max_i64)%Z -> forall o, step c s o -> exists s', o = Returns s') /\
  (exited s = false -> exists ch o, main_step c ch s = Some o /\ forall t err, ch <> Tick t err) /\
  (forall ch s', leaving (pc s) = true -> main_step c ch s = Some (Returns s') ->
     leaving (pc s') = true /\ rank s' < rank s) /\
  rank s <= 2 * Z.to_nat (connections c) + 3 /\
  (forall status, pc s = MExited status ->
     (status = 0%Z /\ log s = closeClients (seq 0 (Z.to_nat (connections c))) /\ length (reports s) = 1) \/
     (status = 1%Z /\ log s = CloseConn <$> seq 0 (length (readers s)) /\ reports s = [])).
Proof.
  intros Hi%load_run_reachable_inv. pose proof (ri_clients _ _ Hi) as [Hle Hc]. pose proof (ri_main _ _ Hi) as Hm.
  unfold main_ok in Hm. split_and!.
  - intros Hmax o [ch o' Hs|i ch s' _ _]; [|by eexists]. pose proof (ri_stats _ _ Hi) as (_ & _ & _ & _ & _ & _ & _ & Hl).
    destruct s as [m rs st w ts l lg reps]. fields.
    destruct m as [|todo|k|k sentAt ok| | |todo|status], ch as [err| |t err| |d]; try done; try (by destruct todo); cbn in Hs.
    + destruct (_ <? _)%Z; [|done]. destruct err; injection Hs as <-; by eexists.
    + destruct (_ <? _)%Z; [done|]. injection Hs as <-. by eexists.
    + destruct todo; injection Hs as <-; by eexists.
    + injection Hs as <-. by eexists.
    + destruct Hm as (Hk & _). rewrite (proj2 (Z.ltb_ge _ _)) in Hs by lia.
      destruct (lookup_lt_is_Some_2 rs (Z.to_nat k)) as [p Hp]; [lia|]. rewrite Hp in Hs. destruct err; injection Hs as <-; by eexists.
    + destruct Hm as (Hk & _). rewrite (proj2 (Z.eqb_neq _ _)) in Hs by lia. injection Hs as <-. by eexists.
    + injection Hs as <-. by eexists.
    + apply Permutation_length in Hl. unfold counted_so_far in Hl. destruct (received_times_fields (late (mkState MReport rs st w ts l lg reps))
        (foldl apply_read (foldl apply_tick new_stats ts) l)) as (_ & _ & _ & Rl). rewrite Rl in Hl.
      pose proof (foldl_read_latencies l (foldl apply_tick new_stats ts)) as Hb. rewrite foldl_tick_latencies in Hb. cbn in Hb.
      destruct (printReport_returns (F := F) d st) as (rep & rate & r' & Hp); [lia|]. rewrite Hp in Hs. injection Hs as <-. by eexists.
    + destruct todo; injection Hs as <-; by eexists.
  - intros Hx. destruct s as [m rs st w ts l lg reps]. unfold exited in Hx. fields.
    destruct m as [|todo|k|k sentAt ok| | |todo|status]; try done.
    + destruct (Z.ltb_spec (Z.of_nat (length rs)) (connections c)) as [Hlt|Hge].
      * exists (Dial None). cbn. rewrite (proj2 (Z.ltb_lt _ _)) by done. by eexists.
      * exists Proceed. cbn. rewrite (proj2 (Z.ltb_ge _ _)) by done. by eexists.
    + exists Proceed. cbn. destruct todo; by eexists.
    + exists Quit. cbn. by eexists.
    + exists Proceed. cbn. case_match; by eexists.
    + exists Proceed. cbn. by eexists.
    + exists (Elapsed 0%Z). cbn. by eexists.
    + exists Proceed. cbn. destruct todo; by eexists.
  - intros ch s' Hlv Hs. destruct s as [m rs st w ts l lg reps]. unfold rank. fields.
    destruct m as [|todo|k|k sentAt ok| | |todo|status], ch as [err| |t err| |d]; try done; try (by destruct todo); cbn in Hs.
    + destruct todo; injection Hs as <-; cbn; split; done || lia.
    + injection Hs as <-. cbn. split; [done|lia].
    + destruct (printReport d st) as [[[rep rate] st']|]; [|done]. cbn in Hs. injection Hs as <-.
      unfold clients. fields. split; [done|]. cbn [readers pc]. rewrite length_closeClients, length_seq. lia.
    + destruct todo; injection Hs as <-; cbn; split; done || lia.
  - unfold rank. destruct (pc s); try lia.
    + destruct Hm as (_ & _ & Hm%(f_equal length)). rewrite length_app, !length_fmap, length_seq in Hm. lia.
    + destruct Hm as (Hm%(f_equal length) & _). rewrite length_app, length_closeClients, length_seq in Hm. lia.
  - intros status Hpc. rewrite Hpc in *. destruct Hm as [(-> & Hlg & Hr)|(-> & Hlg & Hr)]; [left|right]; split_and!; try done.
    rewrite <- (Hc eq_refl), Nat2Z.id. done.
Qed.

(** ** A run: one message comes back, one write fails, one response is late *)

Inductive act := AMain (ch : main_choice) | AReader (i : nat) (ch : reader_choice).

Definition do_act {F} `{Float F} (c : config) (a : act) (s : state F) : option (state F) :=
  match a with
  | AMain ch => match main_step c ch s with Some (Returns s') => Some s' | _ => None end
  | AReader i ch => if exited s then None else reader_step i ch s
  end.
Fixpoint do_acts {F} `{Float F} (c : config) (acts : list act) (s : state F) : option (state F) :=
  match acts with [] => Some s | a :: acts => s ← do_act c a s; do_acts c acts s end.

Lemma load_acts_reachable {F} `{Float F} c acts : forall s s' : state F,
  reachable c s -> do_acts c acts s = Some s' -> reachable c s'.
Proof.
  induction acts as [|a acts IH]; cbn; intros s s' Hr He; [by simplify_eq|].
  destruct (do_act c a s) as [s1|] eqn:Ha; [|done]. apply (IH s1); [|done]. eapply reachable_step; [exact Hr|].
  destruct a as [ch|i ch]; cbn in Ha.
  - destruct (main_step c ch s) as [[s2|]|] eqn:Hs; [|done..]. injection Ha as <-. by eapply step_main.
  - destruct (exited s) eqn:Hx; [done|]. by eapply step_reader.
Qed.

Definition sample_config : config := mkConfig "ws://localhost:8080/ws" 2 1 100 Second.
Definition sample_sent : time := (unix_epoch + 1700000000 * Second)%Z.
Definition sample_content : string := "loadtest:load-user-0:1700000000000000000".
Definition sample_acts : list act :=
  [AMain (Dial None); AMain (Dial None); AMain Proceed; AMain (Tick sample_sent None); AMain Proceed;
   AReader 0 (Delivers sample_content); AReader 1 (Delivers sample_content); AMain (Tick sample_sent (Some (Errorf "closed")));
   AReader 1 Counts; AReader 0 Counts; AMain Proceed; AReader 0 (Examines (sample_sent + 5 * Millisecond)%Z);
   AMain Quit; AMain Proceed; AMain (Elapsed Second); AMain Proceed; AReader 1 (Examines sample_sent);
   AMain Proceed; AReader 0 (Fails (Errorf "closed")); AMain Proceed; AReader 0 Counts; AMain Proceed; AMain Proceed].
Definition sample_end : state QArith_base.Q := default start (do_acts (H := exact) sample_config sample_acts start).

Lemma load_sample_reachable : reachable (H := exact) sample_config sample_end.
Proof.
  apply (load_acts_reachable (H := exact) sample_config sample_acts start); [by apply reachable_start|]. vm_compute. reflexivity.
Qed.

Definition sample_report : report * QArith_base.Q := default (mkReport 0%Z 0%Z 0%Z 0%Z 0%Z 0%Z 0%Z None, QArith_base.inject_Z 0) (reports sample_end !! 0).

Lemma sample_reported : (sample_report.1, sample_report.2) ∈ reports sample_end.
Proof. vm_compute. left. Qed.

Lemma report_linearizes_witness : exists d late rss rest, length rss = 2 /\ late <= 2 /\
  printReport (H := exact) d (received_times late (sequential (ticks sample_end) rss)) = Returns (sample_report.1, sample_report.2, rest).
Proof.
  destruct (report_linearizes (H := exact) sample_config sample_end _ _ load_sample_reachable sample_reported)
    as (d & late & rss & rest & Hn & Hl & _ & Hp).
  exists d, late, rss, rest. cbn in Hn. split_and!; [lia|lia|exact Hp].
Defined.

Lemma report_honest_witness : r_sent sample_report.1 = 1%Z /\ self_delivered sample_report.1 = 1%Z /\
  QArith_base.Qle sample_report.2 (QArith_base.inject_Z 100).
Proof.
  destruct (report_honest sample_config sample_end _ _ load_sample_reachable sample_reported) as (H1 & H2 & _ & H3 & _).
  - vm_compute. discriminate.
  - vm_compute. discriminate.
  - intros i content now t Hin Hown. vm_compute in Hin.
    repeat (apply elem_of_cons in Hin as [Hin|Hin]); try (by apply elem_of_nil in Hin);
      (injection Hin as -> -> -> || discriminate (f_equal snd Hin)); vm_compute in Hown |- *; try discriminate Hown; left.
  - split_and!; [exact H1|reflexivity|exact H3].
Defined.

Lemma load_test_ends_witness : log sample_end = closeClients [0; 1] /\ length (reports sample_end) = 1.
Proof.
  destruct (load_test_ends (H := exact) sample_config sample_end load_sample_reachable) as (_ & _ & _ & _ & H).
  destruct (H 0%Z ltac:(vm_compute; reflexivity)) as [(_ & H1 & H2)|(H1 & _)]; [split; [exact H1|exact H2]|discriminate H1].
Defined.

End LoadRun.
