(* ===== verification/Pipeline.v ===== *)
(** * From a partition's log to the clients of a gateway
    (internal/bus/kafka.go consumePartition, internal/httpserver/messagebus.go,
    internal/room)

    One partition of the topic and the gateway that consumes it, for as long as that
    gateway runs: messages are appended to the log by anybody; the gateway gets and loses
    the partition, reads on from the committed offset, hands each message to its rooms and
    commits; in between clients join and leave the rooms and read their channels, and,
    while another gateway has the partition, the offset moves without this one.  The
    worker is that of Generation, the handler that of Broadcast, each room behaves as in
    Room. *)

From S2P Require Import Prelude.
From S2P Require Import Utf8.
From S2P Require Import GoStrings.
From S2P Require Import GoChan.
From S2P Require Import Message.
From S2P Require Import Room.
From S2P Require Import RoomRegistry.
From S2P Require Import Bus.
From S2P Require Import Kafka.
From S2P Require Import KafkaConsume.
From S2P Require Import Generation.
From S2P Require Import Broadcast.

Module Pipeline.
Import Registry.
Import Kafka.
Import KafkaConsume.

(** [consumer]: the worker, with the position of its next fetch.  Histories:
    [published] and [received], the log of each room and what left its channels;
    [handled], the positions of the messages given to the handler; [elsewhere], those
    committed by others; [replays], how often the partition was left with a handled
    message uncommitted. *)
Record pipeline := mkPipeline {
  topic_log : list KafkaMessage; committed : nat; consumer : option (Generation.worker * nat);
  gateway : world; published : gmap nat (list Room.Message); received : gmap nat (gmap nat (list Room.Message));
  handled : list nat; elsewhere : list nat; replays : nat;
}.

Definition start : pipeline := mkPipeline [] 0 None NewRegistry ∅ ∅ [] [] 0.

(** A room of the gateway, as Room sees it. *)
Definition room_sys (gw : world) (published : gmap nat (list Room.Message))
  (received : gmap nat (gmap nat (list Room.Message))) (p : nat) : option Room.sys :=
  '(r, h) ← store gw !! p;
  Some (Room.mkSys r h (default [] (published !! p)) (default ∅ (received !! p))).
Definition put_room (gw : world) (p : nat) (sy : Room.sys) : world :=
  mkWorld (rooms gw) (<[p := (Room.s_room sy, Room.s_heap sy)]> (store gw)) (next_room gw).

(** The room a danmaku goes to, and what is published there. *)
Definition broadcast_log (order : list Room.Client) (d : Danmaku) (gw : world) : option (nat * list Room.Message) :=
  match GetOrCreate (RoomID d) gw with
  | (Ok p, gw) =>
    '(r, h) ← store gw !! p;
    match Room.Publish order (Content d) r h with
    | Returns (res, r', _) => Some (p, Room.logged res r' (Content d))
    | Panics _ => None
    end
  | _ => None
  end.
Definition log_broadcast (e : option (nat * list Room.Message)) (published : gmap nat (list Room.Message))
  : gmap nat (list Room.Message) :=
  match e with Some (p, ms) => <[p := default [] (published !! p) ++ ms]> published | None => published end.

Definition offset_after (m : KafkaMessage) : nat := Z.to_nat (wrap_i64 (Offset m + 1)).

(** The consumer of the partition; [Generation.partition_step true]: the generation may
    end at any time. *)
Inductive consume_step (s : pipeline) : pipeline -> Prop :=
  | consume_assigned :
      consumer s = None ->
      consume_step s (mkPipeline (topic_log s) (committed s) (Some (Generation.mkWorker Generation.WOffset [], committed s))
        (gateway s) (published s) (received s) (handled s) (elsewhere s) (replays s))
  | consume_moves w next ch w' :
      consumer s = Some (w, next) -> Generation.partition_step true ch w = Some w' ->
      match ch with Generation.SetOffset _ | Generation.Fetch (Err _) => True | _ => False end ->
      consume_step s (mkPipeline (topic_log s) (committed s) (Some (w', next))
        (gateway s) (published s) (received s) (handled s) (elsewhere s) (replays s))
  | consume_fetch w next m w' :
      consumer s = Some (w, next) -> topic_log s !! next = Some m ->
      Generation.partition_step true (Generation.Fetch (Ok m)) w = Some w' ->
      consume_step s (mkPipeline (topic_log s) (committed s) (Some (w', S next))
        (gateway s) (published s) (received s) (handled s) (elsewhere s) (replays s))
  | consume_handle w next m d order err dropped gw w' :
      consumer s = Some (w, next) -> Generation.pc w = Generation.WHandle m d ->
      Broadcast.visits (gateway s) (RoomID d) order ->
      Broadcast.consumer_handler order d (gateway s) = Returns (err, dropped, gw) ->
      Generation.partition_step true (Generation.Handler err) w = Some w' ->
      consume_step s (mkPipeline (topic_log s) (committed s) (Some (w', next)) gw
        (log_broadcast (broadcast_log order d (gateway s)) (published s)) (received s)
        (handled s ++ [pred next]) (elsewhere s) (replays s))
  | consume_commit w next m k err stored w' :
      consumer s = Some (w, next) -> Generation.pc w = Generation.WCommit m k ->
      Generation.partition_step true (Generation.Commit err stored) w = Some w' ->
      consume_step s (mkPipeline (topic_log s)
        (if stored || bool_decide (err = None) then offset_after m else committed s) (Some (w', next))
        (gateway s) (published s) (received s) (handled s) (elsewhere s) (replays s))
  | consume_leave w next err :
      consumer s = Some (w, next) -> Generation.pc w = Generation.WReport err ->
      consume_step s (mkPipeline (topic_log s) (committed s) None
        (gateway s) (published s) (received s) (handled s) (elsewhere s)
        (if bool_decide (committed s ∈ handled s) then S (replays s) else replays s)).

(** Everybody else: publishers, the other consumers of the group, and the connections of
    this gateway, which find, join, leave and read rooms, but never publish. *)
Inductive other_step (s : pipeline) : pipeline -> Prop :=
  | other_append m :
      Offset m = Z.of_nat (length (topic_log s)) -> (Z.of_nat (length (topic_log s)) < max_i64)%Z ->
      other_step s (mkPipeline (topic_log s ++ [m]) (committed s) (consumer s)
        (gateway s) (published s) (received s) (handled s) (elsewhere s) (replays s))
  | other_consumers n :
      consumer s = None -> committed s <= n <= length (topic_log s) ->
      other_step s (mkPipeline (topic_log s) n None (gateway s) (published s) (received s) (handled s)
        (elsewhere s ++ seq (committed s) (n - committed s)) (replays s))
  | other_room id res gw :
      GetOrCreate id (gateway s) = (res, gw) ->
      other_step s (mkPipeline (topic_log s) (committed s) (consumer s)
        gw (published s) (received s) (handled s) (elsewhere s) (replays s))
  | other_client p sy sy' :
      room_sys (gateway s) (published s) (received s) p = Some sy -> Room.step sy sy' -> Room.s_log sy' = Room.s_log sy ->
      other_step s (mkPipeline (topic_log s) (committed s) (consumer s) (put_room (gateway s) p sy')
        (published s) (<[p := Room.s_got sy']> (received s)) (handled s) (elsewhere s) (replays s)).

Definition step (s s' : pipeline) : Prop := consume_step s s' \/ other_step s s'.

Inductive reachable : pipeline -> Prop :=
  | reachable_start : reachable start
  | reachable_step s s' : reachable s -> step s s' -> reachable s'.

(** The message of a room's log is that of the partition's log at a position. *)
Definition carries (log : list KafkaMessage) (k : string) (msg : Room.Message) (i : nat) : Prop :=
  exists m d, log !! i = Some m /\ deliverable m = Some d /\ TrimSpace (RoomID d) = k /\ Content d = Room.Content msg.

(** ** Lists *)

Lemma sublist_Forall2 {A B} (P : A -> B -> Prop) l l' k' :
  l `sublist_of` l' -> Forall2 P l' k' -> exists k, k `sublist_of` k' /\ Forall2 P l k.
Proof.
  intros Hl. revert k'. induction Hl as [|x l l' _ IH|x l l' _ IH]; intros k' Hk.
  - apply Forall2_nil_inv_l in Hk as ->. by exists [].
  - apply Forall2_cons_inv_l in Hk as (y & k'' & Hx & Hk & ->). destruct (IH _ Hk) as (k & Hs & Hf).
    exists (y :: k). split; [by apply sublist_skip|by constructor].
  - apply Forall2_cons_inv_l in Hk as (y & k'' & Hx & Hk & ->). destruct (IH _ Hk) as (k & Hs & Hf).
    exists k. split; [by apply sublist_cons|done].
Qed.

Lemma sublist_sorted {A} (R : A -> A -> Prop) l l' : l `sublist_of` l' -> StronglySorted R l' -> StronglySorted R l.
Proof.
  induction 1 as [|x l l' Hl IH|x l l' Hl IH]; intros Hs; [done|..]; apply StronglySorted_cons in Hs as [Hx Hs]; [|by apply IH].
  apply StronglySorted_cons. split; [|by apply IH]. rewrite Forall_forall in Hx |- *. intros y Hy. apply Hx.
  by eapply elem_of_sublist.
Qed.

Lemma sorted_snoc (R : nat -> nat -> Prop) l n : StronglySorted R l -> Forall (fun i => R i n) l -> StronglySorted R (l ++ [n]).
Proof.
  intros Hs Hf. apply StronglySorted_app_2; [|done|repeat constructor]. rewrite Forall_forall in Hf.
  intros x y Hx Hy%list_elem_of_singleton. subst. by apply Hf.
Qed.

(** How many different positions a list has; the others of it are repeats. *)
Definition different (ps : list nat) : nat := size (list_to_set ps : gset nat).
Arguments different : simpl never.

Lemma different_snoc ps i :
  different (ps ++ [i]) = if bool_decide (i ∈ ps) then different ps else S (different ps).
Proof.
  unfold different. rewrite list_to_set_app_L. cbn. rewrite union_empty_r_L. case_bool_decide as Hi.
  - f_equal. apply set_eq. intros x. rewrite elem_of_union, elem_of_singleton, elem_of_list_to_set. split; [by intros [?| ->]|by left].
  - rewrite size_union, size_singleton; [lia|]. apply disjoint_singleton_r. by rewrite elem_of_list_to_set.
Qed.

(** A part of a list has no more repeats than the list. *)
Lemma different_sublist ps qs : qs `sublist_of` ps -> length qs + different ps <= length ps + different qs.
Proof.
  unfold different. induction 1 as [|x qs ps Hs IH|x qs ps Hs IH]; cbn; [done|..].
  - destruct (decide (x ∈ ps)) as [Hp|Hp].
    + rewrite (subseteq_union_1_L {[x]} (list_to_set ps)) by (apply singleton_subseteq_l; by rewrite elem_of_list_to_set).
      pose proof (subseteq_size (list_to_set qs : gset nat) ({[x]} ∪ list_to_set qs) ltac:(set_solver)). lia.
    + assert (Hq : x ∉ qs) by (contradict Hp; by eapply elem_of_sublist).
      rewrite !size_union, !size_singleton by (apply disjoint_singleton_l; by rewrite elem_of_list_to_set). lia.
  - rewrite size_union_alt, size_singleton. pose proof (subseteq_size (list_to_set ps ∖ {[x]}) (list_to_set ps : gset nat) ltac:(set_solver)). lia.
Qed.

(** ** The rooms *)

Record rooms_inv (log : list KafkaMessage) (handled : list nat) (gw : world)
  (published : gmap nat (list Room.Message)) (received : gmap nat (gmap nat (list Room.Message))) : Prop := {
  rv_world : world_inv gw;
  rv_rooms : forall p sy, room_sys gw published received p = Some sy -> Room.reachable sy;
  rv_fresh : forall p, next_room gw <= p -> published !! p = None /\ received !! p = None;
  rv_content : forall k p, rooms gw !! k = Some p ->
    exists ps, ps `sublist_of` handled /\ Forall2 (carries log k) (default [] (published !! p)) ps;
}.

Lemma carries_append log m k msg i : carries log k msg i -> carries (log ++ [m]) k msg i.
Proof. intros (m' & d & Hl & Hd). exists m', d. split; [by apply lookup_app_l_Some|done]. Qed.

Lemma rooms_inv_grows log log' handled handled' gw pub rec :
  (forall k msg i, carries log k msg i -> carries log' k msg i) -> handled `sublist_of` handled' ->
  rooms_inv log handled gw pub rec -> rooms_inv log' handled' gw pub rec.
Proof.
  intros Hc Hh []. split; try done. intros k p Hk. destruct (rv_content0 k p Hk) as (ps & Hs & Hf). exists ps.
  split; [by etrans|]. eapply Forall2_impl; [exact Hf|]. intros msg i. apply Hc.
Qed.

(** A room that is new is empty. *)
Lemma rooms_inv_find log handled gw pub rec id res gw' :
  rooms_inv log handled gw pub rec -> GetOrCreate id gw = (res, gw') -> rooms_inv log handled gw' pub rec.
Proof.
  intros [] HG. pose proof (GetOrCreate_inv _ _ _ _ rv_world0 HG) as Hw'.
  destruct (GetOrCreate_cases id gw) as [[_ He]|[(_ & p & _ & He)|(Hb & Hn & He)]]; rewrite He in HG;
    injection HG as <- <-; [done..|]. split; [done| | |]; cbn.
  - intros p sy Hp. unfold room_sys in Hp. cbn in Hp. destruct (decide (p = next_room gw)) as [->|Hne].
    + rewrite lookup_insert_eq in Hp. cbn in Hp. injection Hp as <-.
      destruct (rv_fresh0 (next_room gw) ltac:(lia)) as [-> ->]. apply Room.reachable_init.
    + rewrite lookup_insert_ne in Hp by done. by apply (rv_rooms0 p).
  - intros p Hp. apply rv_fresh0. lia.
  - intros k p [[<- <-]|[_ Hk]]%lookup_insert_Some; [|by apply rv_content0].
    destruct (rv_fresh0 (next_room gw) ltac:(lia)) as [-> _]. exists []. split; [apply sublist_nil_l|constructor].
Qed.

(** A step of one room, which may add to its log. *)
Lemma rooms_inv_put log handled gw pub pub' rec rec' p sy sy' :
  rooms_inv log handled gw pub rec -> room_sys gw pub rec p = Some sy -> Room.step sy sy' ->
  (forall k, rooms gw !! k = Some p -> exists ps, ps `sublist_of` handled /\ Forall2 (carries log k) (Room.s_log sy') ps) ->
  default [] (pub' !! p) = Room.s_log sy' -> default ∅ (rec' !! p) = Room.s_got sy' ->
  (forall q, q <> p -> pub' !! q = pub !! q /\ rec' !! q = rec !! q) ->
  rooms_inv log handled (put_room gw p sy') pub' rec'.
Proof.
  intros [] Hsy Hstep Hc Hpub Hrec Hother.
  assert (Hr : Room.reachable sy') by (eapply Room.reachable_step; [by eapply rv_rooms0|done]).
  assert (Hst : exists r h, store gw !! p = Some (r, h)).
  { unfold room_sys in Hsy. destruct (store gw !! p) as [[r h]|]; [|done]. by exists r, h. }
  destruct Hst as (r & h & Hst). assert (Hlt : p < next_room gw) by (apply (inv_next _ rv_world0); eauto).
  split; cbn.
  - eapply store_update_inv; [done|done|]. apply (Room.sys_room _ (Room.reachable_inv _ Hr)).
  - intros q sq Hq. unfold room_sys in Hq. cbn in Hq. destruct (decide (q = p)) as [->|Hne].
    + rewrite lookup_insert_eq in Hq. cbn in Hq. rewrite Hpub, Hrec in Hq. injection Hq as <-. by destruct sy'.
    + rewrite lookup_insert_ne in Hq by done. destruct (Hother q Hne) as [Hp1 Hp2]. rewrite Hp1, Hp2 in Hq. by apply (rv_rooms0 q).
  - intros q Hq. destruct (Hother q ltac:(lia)) as [-> ->]. by apply rv_fresh0.
  - intros k q Hk. destruct (decide (q = p)) as [->|Hne]; [rewrite Hpub; by apply Hc|].
    destruct (Hother q Hne) as [-> _]. by apply rv_content0.
Qed.

(** What the handler does to the rooms. *)
Lemma handler_effect order d gw err dropped gw' :
  Broadcast.visits gw (RoomID d) order -> Broadcast.consumer_handler order d gw = Returns (err, dropped, gw') ->
  world_inv gw ->
  (gw' = gw /\ broadcast_log order d gw = None) \/
  exists gw1 p r h res r' h', GetOrCreate (RoomID d) gw = (Ok p, gw1) /\ rooms gw1 !! TrimSpace (RoomID d) = Some p /\
    store gw1 !! p = Some (r, h) /\ Room.range_order r order /\ Room.Publish order (Content d) r h = Returns (res, r', h') /\
    gw' = mkWorld (rooms gw1) (<[p := (r', h')]> (store gw1)) (next_room gw1) /\
    broadcast_log order d gw = Some (p, Room.logged res r' (Content d)).
Proof.
  intros Hv Hh Hw. unfold Broadcast.consumer_handler in Hh. unfold broadcast_log, Broadcast.visits in *.
  assert (Hex : forall p gw1, GetOrCreate (RoomID d) gw = (Ok p, gw1) -> rooms gw1 !! TrimSpace (RoomID d) = Some p ->
    (exists r h, store gw1 !! p = Some (r, h) /\ Room.range_order r order) -> exists r h res r' h',
    store gw1 !! p = Some (r, h) /\ Room.range_order r order /\ Room.Publish order (Content d) r h = Returns (res, r', h') /\
    gw' = mkWorld (rooms gw1) (<[p := (r', h')]> (store gw1)) (next_room gw1)).
  { intros p gw1 HG Hk (r & h & Hs & Ho). rewrite HG in Hh. unfold publish_at, at_room in Hh. rewrite Hs in Hh.
    destruct (Room.Publish order (Content d) r h) as [[[res r'] h']|] eqn:HP; [|done]. cbn in Hh.
    exists r, h, res, r', h'. split_and!; [done..|]. by repeat (case_match; simplify_eq). }
  destruct (GetOrCreate_cases (RoomID d) gw) as [[_ He]|[(_ & p & Hk & He)|(Hb & Hn & He)]].
  - left. rewrite He in *. by injection Hh as _ _ <-.
  - right. rewrite Hk in Hv. destruct (Hex p gw He Hk Hv) as (r & h & res & r' & h' & Hs & Ho & HP & ->).
    exists gw, p, r, h, res, r', h'. rewrite He, Hs. cbn. by rewrite HP.
  - right. rewrite Hn in Hv. subst order.
    edestruct (Hex (next_room gw)) as (r & h & res & r' & h' & Hs & Ho & HP & ->); [exact He|apply lookup_insert_eq| |].
    + eexists _, _. split; [apply lookup_insert_eq|]. unfold Room.range_order. cbn. by rewrite map_to_list_empty.
    + eexists _, (next_room gw), r, h, res, r', h'. rewrite He, Hs. cbn. rewrite HP.
      split_and!; [done|apply lookup_insert_eq|done..].
Qed.

(** The handler publishes the message it was given, in its room and nowhere else. *)
Lemma rooms_inv_handle log handled gw pub rec order d err dropped gw' i m :
  rooms_inv log handled gw pub rec -> Broadcast.visits gw (RoomID d) order ->
  Broadcast.consumer_handler order d gw = Returns (err, dropped, gw') ->
  log !! i = Some m -> deliverable m = Some d ->
  rooms_inv log (handled ++ [i]) gw' (log_broadcast (broadcast_log order d gw) pub) rec.
Proof.
  intros Hi Hv Hh Hm Hd. destruct (handler_effect _ _ _ _ _ _ Hv Hh (rv_world _ _ _ _ _ Hi))
    as [[-> ->]|(gw1 & p & r & h & res & r' & h' & HG & Hk & Hs & Ho & HP & -> & ->)].
  { eapply rooms_inv_grows; [done| |done]. by apply sublist_inserts_r. }
  assert (Hi1 : rooms_inv log handled gw1 pub rec) by (by eapply rooms_inv_find).
  set (sy := Room.mkSys r h (default [] (pub !! p)) (default ∅ (rec !! p))).
  set (sy' := Room.mkSys r' h' (Room.s_log sy ++ Room.logged res r' (Content d)) (Room.s_got sy)).
  change (mkWorld (rooms gw1) (<[p := (r', h')]> (store gw1)) (next_room gw1)) with (put_room gw1 p sy').
  eapply (rooms_inv_put _ _ _ pub _ rec rec p sy sy').
  - eapply rooms_inv_grows; [done| |done]. by apply sublist_inserts_r.
  - unfold room_sys. by rewrite Hs.
  - by apply (Room.step_publish sy order (Content d) res).
  - intros k Hk'. pose proof (inv_inj _ (rv_world _ _ _ _ _ Hi1) _ _ _ Hk' Hk) as ->.
    destruct (rv_content _ _ _ _ _ Hi1 _ _ Hk) as (ps & Hps & Hf). destruct res as [res|e]; cbn.
    + exists (ps ++ [i]). split; [by apply sublist_app|]. apply Forall2_app; [done|]. constructor; [|done]. by exists m, d.
    + rewrite app_nil_r. exists ps. split; [by apply sublist_inserts_r|done].
  - cbn. by rewrite lookup_insert_eq.
  - done.
  - intros q Hq. cbn. by rewrite lookup_insert_ne.
Qed.

(** ** The consumer *)

(** Where the worker stands with respect to the committed offset. *)
Definition worker_at (s : pipeline) (w : Generation.worker) (next : nat) : Prop :=
  match Generation.pc w with
  | Generation.WOffset | Generation.WFetch => next = committed s
  | Generation.WHandle m d => next = S (committed s) /\ topic_log s !! committed s = Some m /\ deliverable m = Some d
  | Generation.WCommit m k => next = S (committed s) /\ topic_log s !! committed s = Some m /\
      match k with Generation.Handled _ => committed s ∈ handled s | _ => deliverable m = None end
  | Generation.WReport _ => True
  | _ => False
  end.

(** The message at the committed offset may have been handled already. *)
Definition in_doubt (s : pipeline) : bool :=
  match consumer s with
  | Some (w, _) =>
    match Generation.pc w with Generation.WCommit _ (Generation.Handled _) | Generation.WReport _ => true | _ => false end
  | None => false
  end.

Record pipeline_inv (s : pipeline) : Prop := {
  pi_rooms : rooms_inv (topic_log s) (handled s) (gateway s) (published s) (received s);
  pi_log : (forall i m, topic_log s !! i = Some m -> Offset m = Z.of_nat i) /\ (Z.of_nat (length (topic_log s)) <= max_i64)%Z;
  pi_committed : committed s <= length (topic_log s);
  pi_worker : forall w next, consumer s = Some (w, next) -> worker_at s w next;
  pi_sorted : StronglySorted le (handled s) /\ Forall (fun i => i <= committed s) (handled s);
  pi_strict : replays s = 0 ->
    StronglySorted lt (handled s) /\ (in_doubt s = false -> Forall (fun i => i < committed s) (handled s));
  pi_complete : forall i m, i < committed s -> topic_log s !! i = Some m -> deliverable m <> None ->
    i ∈ handled s \/ i ∈ elsewhere s;
  pi_repeats : length (handled s) + (if bool_decide (committed s ∈ handled s) && negb (in_doubt s) then 1 else 0)
    <= different (handled s) + replays s;
}.

Lemma start_pipeline_inv : pipeline_inv start.
Proof.
  split; cbn; try done; try lia; [|by split; constructor|by split; constructor].
  split; cbn; [apply NewRegistry_inv|done..].
Qed.

Lemma other_step_inv s s' : pipeline_inv s -> other_step s s' -> pipeline_inv s'.
Proof.
  intros [] Ho. destruct Ho as [m Hoff Hlen|n Hn Hle|id res gw HG|p sy sy' Hsy Hst Hlog].
  - destruct pi_log0 as [Hl Hmax]. split; cbn; try done.
    + eapply rooms_inv_grows; [|done|done]. intros k msg i. apply carries_append.
    + split; [|rewrite length_app; cbn; lia]. intros i m' [Hi|[Hi Hm]]%lookup_app_Some; [by apply Hl|].
      apply list_lookup_singleton_Some in Hm as [Hi0 <-]. rewrite Hoff. lia.
    + rewrite length_app. lia.
    + intros w next Hw. specialize (pi_worker0 w next Hw). unfold worker_at in *. cbn.
      destruct (Generation.pc w); try done; destruct_and?; split_and!; try done; by apply lookup_app_l_Some.
    + intros i m' Hi Hm. apply pi_complete0; [done|]. rewrite lookup_app_l in Hm by lia. done.
  - split; cbn; try done; [lia|..].
    + destruct pi_sorted0 as [Hs Hf]. split; [done|]. eapply Forall_impl; [exact Hf|]. cbn. lia.
    + intros Hr. destruct (pi_strict0 Hr) as [Hs Hf]. unfold in_doubt in Hf. rewrite Hn in Hf. split; [done|].
      intros _. eapply Forall_impl; [by apply Hf|]. cbn. lia.
    + intros i m Hi Hm Hd. destruct (decide (i < committed s)) as [Hlt|Hge].
      * destruct (pi_complete0 i m Hlt Hm Hd); [by left|right]. apply elem_of_app. by left.
      * right. apply elem_of_app. right. apply elem_of_seq. lia.
    + assert (Hin : n ∈ handled s -> committed s ∈ handled s).
      { intros Hin. destruct pi_sorted0 as [_ Hf]. rewrite Forall_forall in Hf. specialize (Hf n Hin). by replace (committed s) with n by lia. }
      unfold in_doubt in *. cbn. rewrite Hn in pi_repeats0. cbn in pi_repeats0.
      repeat case_bool_decide; cbn in *; try lia; naive_solver.
  - split; cbn; try done. by eapply rooms_inv_find.
  - split; cbn; try done. eapply (rooms_inv_put _ _ _ (published s) _ (received s)); [done|done|done| | | |].
    + intros k Hk. rewrite Hlog. destruct (rv_content _ _ _ _ _ pi_rooms0 _ _ Hk) as (ps & Hps & Hf).
      exists ps. split; [done|]. unfold room_sys in Hsy. destruct (store (gateway s) !! p) as [[r h]|]; [|done].
      by injection Hsy as <-.
    + rewrite Hlog. unfold room_sys in Hsy. destruct (store (gateway s) !! p) as [[r h]|]; [|done]. by injection Hsy as <-.
    + by rewrite lookup_insert_eq.
    + intros q Hq. by rewrite lookup_insert_ne.
Qed.

(** A consumer that moves without the rooms, the offset or the histories. *)
Lemma pipeline_worker_moves s c :
  pipeline_inv s ->
  (forall w next, c = Some (w, next) -> worker_at s w next) ->
  (replays s = 0 -> in_doubt (mkPipeline (topic_log s) (committed s) c (gateway s) (published s) (received s)
     (handled s) (elsewhere s) (replays s)) = false -> Forall (fun i => i < committed s) (handled s)) ->
  (in_doubt (mkPipeline (topic_log s) (committed s) c (gateway s) (published s) (received s)
     (handled s) (elsewhere s) (replays s)) = false -> in_doubt s = false \/ committed s ∉ handled s) ->
  pipeline_inv (mkPipeline (topic_log s) (committed s) c (gateway s) (published s) (received s)
    (handled s) (elsewhere s) (replays s)).
Proof.
  intros [] Hc Hd Hq. split; cbn; try done.
  - intros Hr. destruct (pi_strict0 Hr) as [Hs Hf]. split; [done|by apply Hd].
  - destruct (in_doubt (mkPipeline _ _ c _ _ _ _ _ _)) eqn:Hdd; [rewrite andb_false_r; lia|].
    destruct (Hq eq_refl) as [Hd0|Hn]; [by rewrite Hd0 in pi_repeats0|]. rewrite bool_decide_false by done. cbn. lia.
Qed.

(** What the committed offset becomes. *)
Lemma offset_after_committed s m :
  pipeline_inv s -> topic_log s !! committed s = Some m -> offset_after m = S (committed s).
Proof.
  intros [] Hm. destruct pi_log0 as [Hl Hmax]. unfold offset_after. rewrite (Hl _ _ Hm).
  apply lookup_lt_Some in Hm. rewrite wrap_i64_small by (unfold min_i64; lia). lia.
Qed.

Lemma commit_inv s w m k (w' : Generation.worker) :
  pipeline_inv s -> consumer s = Some (w, S (committed s)) -> Generation.pc w = Generation.WCommit m k ->
  worker_at s w (S (committed s)) -> (Generation.pc w' = Generation.WFetch \/ exists err, Generation.pc w' = Generation.WReport err) ->
  pipeline_inv (mkPipeline (topic_log s) (S (committed s)) (Some (w', S (committed s))) (gateway s) (published s) (received s)
    (handled s) (elsewhere s) (replays s)).
Proof.
  intros Hi Hc Hpc Hat Hw'. unfold worker_at in Hat. rewrite Hpc in Hat. destruct Hat as (_ & Hm & Hk). destruct Hi. split; cbn; try done.
  - apply lookup_lt_Some in Hm. lia.
  - intros w1 next [= <- <-]. unfold worker_at. cbn. by destruct Hw' as [-> |[err ->]].
  - destruct pi_sorted0 as [Hs Hf]. split; [done|]. eapply Forall_impl; [exact Hf|]. cbn. lia.
  - intros Hr. destruct (pi_strict0 Hr) as [Hs _]. split; [done|]. intros _. destruct pi_sorted0 as [_ Hf].
    eapply Forall_impl; [exact Hf|]. cbn. lia.
  - intros i m' Hi Hm' Hd. destruct (decide (i = committed s)) as [->|Hne]; [|apply (pi_complete0 i m'); [lia|done..]].
    rewrite Hm in Hm'. injection Hm' as <-. destruct k; [done..|by left].
  - rewrite bool_decide_false; [cbn; lia|]. destruct pi_sorted0 as [_ Hf]. rewrite Forall_forall in Hf.
    intros Hin. specialize (Hf _ Hin). lia.
Qed.

(** Handling is a repeat only of the last message before, whose commit is missing. *)
Lemma repeats_handled s b :
  pipeline_inv s -> in_doubt s = false -> b = true ->
  length (handled s ++ [committed s]) + (if bool_decide (committed s ∈ handled s ++ [committed s]) && negb b then 1 else 0)
    <= different (handled s ++ [committed s]) + replays s.
Proof.
  intros Hi Hd ->. pose proof (pi_repeats _ Hi) as Hr. rewrite Hd in Hr. cbn in Hr.
  rewrite andb_false_r, length_app, different_snoc. cbn. case_bool_decide; cbn in Hr; lia.
Qed.

Lemma pipeline_consume_inv s s' : pipeline_inv s -> consume_step s s' -> pipeline_inv s'.
Proof.
  intros Hi Hs. destruct Hs as [Hn|w next ch w' Hc Hp Hch|w next m w' Hc Hm Hp|w next m d order err dropped gw w' Hc Hpc Hv Hh Hp
    |w next m k err stored w' Hc Hpc Hp|w next err Hc Hpc].
  - assert (Hd : in_doubt s = false) by (unfold in_doubt; by rewrite Hn).
    apply pipeline_worker_moves; [done|by intros w next [= <- <-]| |by left]. intros Hr _.
    destruct (pi_strict _ Hi Hr) as [_ Hf]. by apply Hf.
  - pose proof (pi_worker _ Hi _ _ Hc) as Hat. unfold worker_at in Hat. unfold Generation.partition_step in Hp.
    assert (Hd : in_doubt s = false).
    { unfold in_doubt. rewrite Hc. by destruct (Generation.pc w), ch as [[e1|]|[m1|e1]|e1|e1 st1| | |]. }
    apply pipeline_worker_moves; [done| | |by left].
    + intros w1 next1 [= <- <-]. unfold worker_at.
      destruct (Generation.pc w), ch as [[e1|]|[m1|e1]|e1|e1 st1| | |]; try done; repeat case_match; simplify_eq; done.
    + intros Hr _. destruct (pi_strict _ Hi Hr) as [_ Hf]. by apply Hf.
  - pose proof (pi_worker _ Hi _ _ Hc) as Hat. unfold worker_at, Generation.partition_step in *.
    destruct (Generation.pc w) eqn:Hpc; try done. subst next. injection Hp as <-.
    assert (Hd : in_doubt s = false) by (unfold in_doubt; by rewrite Hc, Hpc).
    apply pipeline_worker_moves; [done| | |by left].
    + intros w1 next1 [= <- <-]. unfold worker_at. cbn. unfold deliverable.
      by destruct (UnmarshalDanmaku (Value m)) as [d|] eqn:Hu; [destruct (Validate d) eqn:Hval|]; rewrite Hu, ?Hval.
    + intros Hr _. destruct (pi_strict _ Hi Hr) as [_ Hf]. by apply Hf.
  - pose proof (pi_worker _ Hi _ _ Hc) as Hat. unfold worker_at in Hat. rewrite Hpc in Hat. destruct Hat as (-> & Hm & Hd).
    assert (Hw' : match Generation.pc w' with
      | Generation.WReport _ => True | Generation.WCommit m' (Generation.Handled _) => m' = m | _ => False end).
    { unfold Generation.partition_step in Hp. rewrite Hpc in Hp. by destruct err; injection Hp as <-. }
    pose proof (pi_sorted _ Hi) as [Hle Hf]. split; cbn.
    + eapply rooms_inv_handle; [apply Hi|done..].
    + apply Hi.
    + apply Hi.
    + intros w1 next1 [= <- <-]. unfold worker_at. cbn. destruct (Generation.pc w') as [| | |m' [| |d']| | | |]; try done. subst m'.
      split_and!; [done..|]. apply elem_of_app. right. by apply list_elem_of_singleton.
    + split; [by apply sorted_snoc|]. apply Forall_app. split; [done|]. by constructor.
    + intros Hr. destruct (pi_strict _ Hi Hr) as [Hlt Hfl]. split.
      * apply sorted_snoc; [done|]. apply Hfl. unfold in_doubt. by rewrite Hc, Hpc.
      * unfold in_doubt. cbn. by destruct (Generation.pc w') as [| | |m' [| |d']| | | |].
    + intros i m' Hlt Hm' Hd'. destruct (pi_complete _ Hi i m' Hlt Hm' Hd'); [left|by right]. apply elem_of_app. by left.
    + apply repeats_handled; [done|unfold in_doubt; by rewrite Hc, Hpc|].
      unfold in_doubt. cbn. by destruct (Generation.pc w') as [| | |m' [| |d']| | | |].
  - pose proof (pi_worker _ Hi _ _ Hc) as Hat. pose proof Hat as Hat'. unfold worker_at in Hat'. rewrite Hpc in Hat'.
    destruct Hat' as (-> & Hm & Hk).
    assert (Hw' : (err = None /\ Generation.pc w' = Generation.WFetch) \/ (err <> None /\ exists e, Generation.pc w' = Generation.WReport e)).
    { unfold Generation.partition_step in Hp. rewrite Hpc in Hp. injection Hp as <-. destruct err; [right|by left]. by split; [|eexists]. }
    destruct (stored || bool_decide (err = None)) eqn:Hst.
    + rewrite (offset_after_committed _ _ Hi Hm). eapply commit_inv; [done..|]. destruct Hw' as [[_ ?]|[_ ?]]; [by left|by right].
    + destruct Hw' as [[-> _]|[_ [e He]]]; [by rewrite bool_decide_true, orb_true_r in Hst|].
      apply pipeline_worker_moves; [done|intros w1 next1 [= <- <-]; unfold worker_at; by rewrite He|..];
        [intros _|]; unfold in_doubt; cbn; by rewrite He.
  - case_bool_decide as Hin.
    + destruct Hi. split; cbn; try done. rewrite bool_decide_true by done. cbn. lia.
    + apply pipeline_worker_moves; [done..| |by right]. intros _ _. pose proof (pi_sorted _ Hi) as [_ Hf].
      rewrite Forall_forall in Hf |- *. intros i Hi'. specialize (Hf i Hi').
      destruct (decide (i = committed s)) as [->|]; [done|lia].
Qed.

Lemma pipeline_reachable_inv s : reachable s -> pipeline_inv s.
Proof.
  induction 1 as [|s s' _ IH [Hs|Hs]]; [apply start_pipeline_inv|by eapply pipeline_consume_inv|by eapply other_step_inv].
Qed.

(** The positions of what a room publishes: in order, with a repeat at most for every
    time the partition was left with a handled message uncommitted. *)
Definition in_log_order (replays : nat) (ps : list nat) : Prop :=
  StronglySorted le ps /\ length ps <= different ps + replays /\ (replays = 0 -> StronglySorted lt ps).

Lemma in_log_order_sublist n ps qs : qs `sublist_of` ps -> in_log_order n ps -> in_log_order n qs.
Proof.
  intros Hs (Hle & Hn & Hlt). pose proof (different_sublist _ _ Hs). split_and!; [by eapply sublist_sorted|lia|].
  intros H0. by eapply sublist_sorted; [|apply Hlt].
Qed.

Lemma handled_order s : pipeline_inv s -> in_log_order (replays s) (handled s).
Proof.
  intros Hi. split_and!; [apply (pi_sorted _ Hi)|pose proof (pi_repeats _ Hi); lia|].
  intros H0. apply (pi_strict _ Hi H0).
Qed.

(** The log of a room is a part of the partition's log. *)
Lemma room_log_positions s k p sy :
  reachable s -> rooms (gateway s) !! k = Some p ->
  room_sys (gateway s) (published s) (received s) p = Some sy ->
  exists ps, Forall2 (carries (topic_log s) k) (Room.s_log sy) ps /\ in_log_order (replays s) ps.
Proof.
  intros Hi%pipeline_reachable_inv Hk Hsy.
  destruct (rv_content _ _ _ _ _ (pi_rooms _ Hi) _ _ Hk) as (ps & Hps & Hf).
  assert (Hlog : Room.s_log sy = default [] (published s !! p)).
  { unfold room_sys in Hsy. destruct (store (gateway s) !! p) as [[r h]|]; [|done]. by injection Hsy as <-. }
  rewrite <- Hlog in Hf. exists ps. split; [done|]. by eapply in_log_order_sublist; [|apply handled_order].
Qed.

(** So is what is taken from it. *)
Lemma taken_positions {A} (P : A -> nat -> Prop) ms ms' ps n :
  ms `sublist_of` ms' -> Forall2 P ms' ps -> in_log_order n ps ->
  exists qs, Forall2 P ms qs /\ in_log_order n qs.
Proof.
  intros Hs Hf Ho. destruct (sublist_Forall2 _ _ _ _ Hs Hf) as (qs & Hqs & Hfq). exists qs.
  split; [done|by eapply in_log_order_sublist].
Qed.

(** ** The order clients see *)

(** C3: every client sees the order of the partition.  Whatever joins, leaves, reads,
    rebalances, restarts and other consumers come in between, what a client's channel has
    delivered and still holds are messages of the partition's log that belong to the
    client's room, in the order of the log, however often the consumer had to start again:
    a message is repeated only right after itself, and all repeats together are at most as
    many as the times the partition was left between handling a message and committing it.
    And no deliverable message below the committed offset was passed over: this gateway
    handed it to the room, or another did. *)
Theorem client_order_is_log_order s k p sy :
  reachable s -> rooms (gateway s) !! k = Some p ->
  room_sys (gateway s) (published s) (received s) p = Some sy ->
  (forall l, exists ps, Forall2 (carries (topic_log s) k) (Room.stream sy l) ps /\
     StronglySorted le ps /\ length ps <= different ps + replays s /\
     (replays s = 0 -> StronglySorted lt ps)) /\
  (forall i m d, i < committed s -> topic_log s !! i = Some m -> deliverable m = Some d ->
     i ∈ handled s \/ i ∈ elsewhere s).
Proof.
  intros Hr Hk Hsy. pose proof (pipeline_reachable_inv _ Hr) as Hi. split.
  - intros l. pose proof (rv_rooms _ _ _ _ _ (pi_rooms _ Hi) _ _ Hsy) as Hroom%Room.reachable_inv.
    destruct (room_log_positions _ _ _ _ Hr Hk Hsy) as (ps & Hf & Ho).
    destruct (taken_positions _ _ _ _ _ (Room.sys_stream _ Hroom l) Hf Ho) as (qs & Hq & Hq'). by exists qs.
  - intros i m d Hlt Hm Hd. apply (pi_complete _ Hi i m Hlt Hm). by rewrite Hd.
Qed.

(** ** A run: a message, a poisoned one, and a rebalance before a commit *)

Inductive act :=
  | AAppend (m : KafkaMessage) | AAssigned | AMove (ch : Generation.choice) | AFetch | AHandle (order : list Room.Client)
  | ACommit (err : option error) (stored : bool) | ALeave | ARoom (id : string) | AJoin (p : nat) (id : string) | ARead (p l : nat).

#[local] Existing Instance Room.Client_eq_dec.

Definition visits_bool (gw : world) (id : string) (order : list Room.Client) : bool :=
  match rooms gw !! TrimSpace id with
  | Some p => match store gw !! p with Some (r, h) => bool_decide (order ≡ₚ (map_to_list (Room.clients r)).*2) | None => false end
  | None => bool_decide (order = [])
  end.

Lemma visits_bool_sound gw id order : visits_bool gw id order = true -> Broadcast.visits gw id order.
Proof.
  unfold visits_bool, Broadcast.visits. destruct (rooms gw !! TrimSpace id) as [p|]; [|intros H; by apply bool_decide_eq_true in H].
  destruct (store gw !! p) as [[r h]|]; [|done]. intros H%bool_decide_eq_true. by exists r, h.
Qed.

Definition set_consumer (c : option (Generation.worker * nat)) (s : pipeline) : pipeline :=
  mkPipeline (topic_log s) (committed s) c (gateway s) (published s) (received s) (handled s) (elsewhere s) (replays s).
Definition put_client (p : nat) (sy : Room.sys) (s : pipeline) : pipeline :=
  mkPipeline (topic_log s) (committed s) (consumer s) (put_room (gateway s) p sy) (published s)
    (<[p := Room.s_got sy]> (received s)) (handled s) (elsewhere s) (replays s).

Definition do_act (a : act) (s : pipeline) : option pipeline :=
  match a with
  | AAppend m =>
    if bool_decide (Offset m = Z.of_nat (length (topic_log s)) /\ (Z.of_nat (length (topic_log s)) < max_i64)%Z) then
      Some (mkPipeline (topic_log s ++ [m]) (committed s) (consumer s) (gateway s) (published s) (received s)
        (handled s) (elsewhere s) (replays s))
    else None
  | AAssigned => match consumer s with
    | None => Some (set_consumer (Some (Generation.mkWorker Generation.WOffset [], committed s)) s)
    | Some _ => None end
  | AMove ch =>
    match ch with
    | Generation.SetOffset _ | Generation.Fetch (Err _) =>
      '(w, next) ← consumer s; w ← Generation.partition_step true ch w; Some (set_consumer (Some (w, next)) s)
    | _ => None
    end
  | AFetch => '(w, next) ← consumer s; m ← topic_log s !! next;
    w ← Generation.partition_step true (Generation.Fetch (Ok m)) w; Some (set_consumer (Some (w, S next)) s)
  | AHandle order =>
    '(w, next) ← consumer s;
    match Generation.pc w with
    | Generation.WHandle m d =>
      match visits_bool (gateway s) (RoomID d) order, Broadcast.consumer_handler order d (gateway s) with
      | true, Returns (err, _, gw) =>
        w ← Generation.partition_step true (Generation.Handler err) w;
        Some (mkPipeline (topic_log s) (committed s) (Some (w, next)) gw
          (log_broadcast (broadcast_log order d (gateway s)) (published s)) (received s)
          (handled s ++ [pred next]) (elsewhere s) (replays s))
      | _, _ => None
      end
    | _ => None
    end
  | ACommit err stored =>
    '(w, next) ← consumer s;
    match Generation.pc w with
    | Generation.WCommit m k =>
      w ← Generation.partition_step true (Generation.Commit err stored) w;
      Some (mkPipeline (topic_log s) (if stored || bool_decide (err = None) then offset_after m else committed s)
        (Some (w, next)) (gateway s) (published s) (received s) (handled s) (elsewhere s) (replays s))
    | _ => None
    end
  | ALeave =>
    '(w, next) ← consumer s;
    match Generation.pc w with
    | Generation.WReport _ => Some (mkPipeline (topic_log s) (committed s) None
        (gateway s) (published s) (received s) (handled s) (elsewhere s)
        (if bool_decide (committed s ∈ handled s) then S (replays s) else replays s))
    | _ => None
    end
  | ARoom id => Some (mkPipeline (topic_log s) (committed s) (consumer s) (GetOrCreate id (gateway s)).2
      (published s) (received s) (handled s) (elsewhere s) (replays s))
  | AJoin p id =>
    sy ← room_sys (gateway s) (published s) (received s) p;
    let '(_, r, h) := Room.Join id (Room.s_room sy) (Room.s_heap sy) in
    Some (put_client p (Room.mkSys r h (Room.s_log sy) (Room.s_got sy)) s)
  | ARead p l =>
    sy ← room_sys (gateway s) (published s) (received s) p;
    '(v, h) ← Room.Receive l (Room.s_heap sy);
    Some (put_client p (Room.mkSys (Room.s_room sy) h (Room.s_log sy)
      (<[l := Room.got sy l ++ option_list v]> (Room.s_got sy))) s)
  end.

(** The acts of the consumer. *)
Definition consumer_act (a : act) : bool :=
  match a with AAssigned | AMove _ | AFetch | AHandle _ | ACommit _ _ | ALeave => true | _ => false end.

Lemma consumer_act_step a s s' : consumer_act a = true -> do_act a s = Some s' -> consume_step s s'.
Proof.
  destruct a as [m| |ch| |order|err stored| |id|p id|p l]; cbn; intros Hc0 Ha; try done; clear Hc0.
  - destruct (consumer s) eqn:Hc; [done|]. injection Ha as <-. apply consume_assigned. done.
  - destruct (consumer s) as [[w next]|] eqn:Hc; [|destruct ch as [|[]|?|? ?| | |]; by cbn in Ha].
    destruct ch as [e|[m|e]|e|e st| | |]; try done; cbn in Ha;
      (destruct (Generation.partition_step true _ w) eqn:Hp; [|done]); injection Ha as <-; by eapply consume_moves.
  - destruct (consumer s) as [[w next]|] eqn:Hc; [|done]. cbn in Ha. destruct (topic_log s !! next) as [m|] eqn:Hm; [|done].
    cbn in Ha. destruct (Generation.partition_step true _ w) eqn:Hp; [|done]. injection Ha as <-. by eapply consume_fetch.
  - destruct (consumer s) as [[w next]|] eqn:Hc; [|done]. cbn in Ha. destruct (Generation.pc w) as [| |m d| | | | |] eqn:Hpc; try done.
    destruct (visits_bool _ _ _) eqn:Hv; [|done]. apply visits_bool_sound in Hv.
    destruct (Broadcast.consumer_handler order d (gateway s)) as [[[err dropped] gw]|] eqn:Hh; [|done].
    destruct (Generation.partition_step true _ w) eqn:Hp; [|done]. injection Ha as <-. by eapply consume_handle.
  - destruct (consumer s) as [[w next]|] eqn:Hc; [|done]. cbn in Ha. destruct (Generation.pc w) as [| | |m k| | | |] eqn:Hpc; try done.
    destruct (Generation.partition_step true _ w) eqn:Hp; [|done]. injection Ha as <-. by eapply consume_commit.
  - destruct (consumer s) as [[w next]|] eqn:Hc; [|done]. cbn in Ha. destruct (Generation.pc w) eqn:Hpc; try done.
    injection Ha as <-. by eapply consume_leave.
Qed.

Lemma append_act_step m s s' : do_act (AAppend m) s = Some s' ->
  other_step s s' /\ gateway s' = gateway s /\ received s' = received s.
Proof. cbn. case_bool_decide as H; [|done]. intros [= <-]. split_and!; [|done..]. apply other_append; tauto. Qed.

Lemma pipeline_act_step a s s' : do_act a s = Some s' -> step s s'.
Proof.
  intros Ha. destruct (consumer_act a) eqn:Hc; [left; by eapply consumer_act_step|right].
  destruct a as [m| |ch| |order|err stored| |id|p id|p l]; try discriminate Hc.
  - apply (append_act_step m s s' Ha).
  - cbn in Ha. injection Ha as <-. destruct (GetOrCreate id (gateway s)) as [res gw] eqn:HG. by eapply other_room.
  - cbn in Ha. destruct (room_sys _ _ _ p) as [sy|] eqn:Hsy; [|done]. cbn in Ha.
    destruct (Room.Join id (Room.s_room sy) (Room.s_heap sy)) as [[res r] h] eqn:HJ. injection Ha as <-.
    eapply other_client; [done|by eapply Room.step_join|done].
  - cbn in Ha. destruct (room_sys _ _ _ p) as [sy|] eqn:Hsy; [|done]. cbn in Ha.
    destruct (Room.Receive l (Room.s_heap sy)) as [[v h]|] eqn:HR; [|done]. injection Ha as <-.
    eapply other_client; [done|by eapply Room.step_receive|done].
Qed.

Fixpoint do_acts (acts : list act) (s : pipeline) : option pipeline :=
  match acts with [] => Some s | a :: acts => s ← do_act a s; do_acts acts s end.

Lemma pipeline_acts_reachable acts : forall s s', reachable s -> do_acts acts s = Some s' -> reachable s'.
Proof.
  induction acts as [|a acts IH]; cbn; intros s s' Hr He; [by simplify_eq|].
  destruct (do_act a s) as [s1|] eqn:Ha; [|done]. apply (IH s1); [|done]. eapply reachable_step; [exact Hr|by eapply pipeline_act_step].
Qed.

Definition sample_acts : list act :=
  [ARoom " room"; AJoin 0 "alice"; AAppend (sample_message 0 (sample_text "a")); AAppend (sample_message 1 "{");
   AAppend (sample_message 2 (sample_text "b")); AAssigned; AMove (Generation.SetOffset None);
   AFetch; AHandle [Room.mkClient "alice" 0]; ACommit None true; ARead 0 0; AFetch; ACommit None true;
   AFetch; AHandle [Room.mkClient "alice" 0]; ARead 0 0; ACommit (Some (Errorf "broker")) false; ALeave;
   AAssigned; AMove (Generation.SetOffset None); AFetch; AHandle [Room.mkClient "alice" 0]; ACommit None true].
Definition sample_end : pipeline := default start (do_acts sample_acts start).

Lemma pipeline_sample_reachable : reachable sample_end.
Proof. apply (pipeline_acts_reachable sample_acts start); [apply reachable_start|]. vm_compute. reflexivity. Qed.

Definition sample_room : Room.sys :=
  default Room.sys_init (room_sys (gateway sample_end) (published sample_end) (received sample_end) 0).

Lemma client_order_is_log_order_witness :
  Room.Content <$> Room.stream sample_room 0 = ["a"; "b"; "b"]%string /\
  exists ps, Forall2 (carries (topic_log sample_end) "room") (Room.stream sample_room 0) ps /\ StronglySorted le ps /\
    length ps <= different ps + 1.
Proof.
  destruct (client_order_is_log_order sample_end "room" 0 sample_room pipeline_sample_reachable) as [H _];
    [vm_compute; reflexivity..|]. split; [vm_compute; reflexivity|].
  destruct (H 0) as (ps & Hf & Hs & Hn & _). exists ps. split; [exact Hf|]. split; [exact Hs|].
  replace (replays sample_end) with 1 in Hn by (vm_compute; reflexivity). exact Hn.
Defined.

End Pipeline.
