(* ===== verification/Sockets.v ===== *)
(** * A gateway with its connections
    (internal/httpserver/websocket.go, messagebus.go, internal/room, internal/bus/kafka.go)

    Pipeline has the rooms of a gateway and what their channels deliver, Session one
    connection and a room others act on.  Here they are one system: a partition's log, its
    consumer, the rooms, the table, and any number of connections, each with its handler,
    writer and heartbeat.  The rooms and the table are shared; a connection acts on them by
    the steps of Session, the consumer by those of Pipeline.

    Looking a room up, joining it, and being admitted are three steps of a handshake;
    [add] and the checks after it are one, since Handshake has their races. *)

From S2P Require Import Prelude.
From S2P Require Import Utf8.
From S2P Require Import GoStrings.
From S2P Require Import GoChan.
From S2P Require Import Message.
From S2P Require Import Room.
From S2P Require Import RoomRegistry.
From S2P Require Import Sensitive.
From S2P Require Import RateLimit.
From S2P Require Import Bus.
From S2P Require Import Kafka.
From S2P Require Import KafkaConsume.
From S2P Require Import Generation.
From S2P Require Import Broadcast.
From S2P Require Import Connections.
From S2P Require Import WebSocket.
From S2P Require Import Session.
From S2P Require Import Pipeline.

Module Sockets.
Import Registry.
Import Connections.
Import Pipeline.

#[local] Existing Instance Session.reader_pc_eq_dec.

(** A connection that has joined its room, or is established: its user, the identifier
    and the address of its room, the address of its channel. *)
Inductive connection :=
  | Joined (userID roomID : string) (p l : nat)
  | Live (userID roomID : string) (p l : nat) (session : Session.session).

Definition user_of (x : connection) : string := match x with Joined u _ _ _ | Live u _ _ _ _ => u end.
Definition room_of (x : connection) : string := match x with Joined _ k _ _ | Live _ k _ _ _ => k end.
Definition ptr_of (x : connection) : nat := match x with Joined _ _ p _ | Live _ _ p _ _ => p end.
Definition chan_of (x : connection) : nat := match x with Joined _ _ _ l | Live _ _ _ l _ => l end.
Definition left_of (x : connection) : bool :=
  match x with Joined _ _ _ _ => false | Live _ _ _ _ s => Session.left_room (Session.reader s) end.

Record system := mkSystem { pipe : pipeline; table : websocketConnections; conns : gmap nat connection }.

Definition room_at (pl : pipeline) (p : nat) : option Room.sys :=
  room_sys (gateway pl) (published pl) (received pl) p.

Section sockets.
Context `{CaseTable} {F : Type} `{Float F} (sensitiveFilter : Sensitive.Filter).

(** What a connection sees of the shared state. *)
Definition view (sy : Room.sys) (t : websocketConnections) (x : Session.session) : Session.session :=
  Session.set_sys sy (Session.set_table t x).

(** A step of one of its goroutines. *)
Inductive own_step (userID roomID : string) (c l : nat) (x : Session.session) : outcome Session.session -> Prop :=
  | own_reader ch o : Session.reader_step sensitiveFilter userID roomID c ch x = Some o -> own_step userID roomID c l x o
  | own_writer ch o : Session.writer_step l ch x = Some o -> own_step userID roomID c l x o
  | own_heart ch o : Session.heart_step ch x = Some o -> own_step userID roomID c l x o.

Definition with_gateway (gw : world) (pl : pipeline) : pipeline :=
  mkPipeline (topic_log pl) (committed pl) (consumer pl) gw (published pl) (received pl) (handled pl) (elsewhere pl) (replays pl).

Definition start : system := mkSystem Pipeline.start newWebSocketConnections ∅.

Inductive step (s : system) : system -> Prop :=
  (* the consumer; publishers and the consumers of other gateways *)
  | step_consumer pl : consume_step (pipe s) pl -> step s (mkSystem pl (table s) (conns s))
  | step_elsewhere pl :
      other_step (pipe s) pl -> gateway pl = gateway (pipe s) -> received pl = received (pipe s) ->
      step s (mkSystem pl (table s) (conns s))
  (* handshakes *)
  | step_find roomID res gw :
      GetOrCreate roomID (gateway (pipe s)) = (res, gw) ->
      step s (mkSystem (with_gateway gw (pipe s)) (table s) (conns s))
  | step_join c userID roomID p sy client r h :
      conns s !! c = None -> rooms (gateway (pipe s)) !! TrimSpace roomID = Some p -> room_at (pipe s) p = Some sy ->
      Room.Join userID (Room.s_room sy) (Room.s_heap sy) = (Ok client, r, h) ->
      step s (mkSystem (put_client p (Room.mkSys r h (Room.s_log sy) (Room.s_got sy)) (pipe s)) (table s)
        (<[c := Joined userID roomID p (Room.Messages client)]> (conns s)))
  | step_admit c userID roomID p l sy t :
      conns s !! c = Some (Joined userID roomID p l) -> room_at (pipe s) p = Some sy -> add c (table s) = (true, t) ->
      step s (mkSystem (pipe s) t (<[c := Live userID roomID p l (Session.established sy t)]> (conns s)))
  | step_refuse c userID roomID p l sy res r h :
      conns s !! c = Some (Joined userID roomID p l) -> room_at (pipe s) p = Some sy ->
      Room.Leave userID (Room.s_room sy) (Room.s_heap sy) = Returns (res, r, h) ->
      step s (mkSystem (put_client p (Room.mkSys r h (Room.s_log sy) (Room.s_got sy)) (pipe s)) (table s)
        (delete c (conns s)))
  (* established connections: a step that leaves the room alone, or is a step of the room *)
  | step_own c userID roomID p l x sy x' :
      conns s !! c = Some (Live userID roomID p l x) -> room_at (pipe s) p = Some sy ->
      own_step userID roomID c l (view sy (table s) x) (Returns x') -> Session.sys x' = sy ->
      step s (mkSystem (pipe s) (Session.table x') (<[c := Live userID roomID p l x']> (conns s)))
  | step_own_room c userID roomID p l x sy x' :
      conns s !! c = Some (Live userID roomID p l x) -> room_at (pipe s) p = Some sy ->
      own_step userID roomID c l (view sy (table s) x) (Returns x') ->
      Room.step sy (Session.sys x') -> Room.s_log (Session.sys x') = Room.s_log sy ->
      step s (mkSystem (put_client p (Session.sys x') (pipe s)) (Session.table x')
        (<[c := Live userID roomID p l x']> (conns s)))
  (* what ends writing on a socket (a close frame, a timeout); bulk closes: a socket; the table *)
  | step_write_shut c userID roomID p l x :
      conns s !! c = Some (Live userID roomID p l x) ->
      step s (mkSystem (pipe s) (table s) (<[c := Live userID roomID p l (Session.set_write_shut true x)]> (conns s)))
  | step_close c userID roomID p l x :
      conns s !! c = Some (Live userID roomID p l x) ->
      step s (mkSystem (pipe s) (table s) (<[c := Live userID roomID p l (Session.set_is_open false x)]> (conns s)))
  | step_table t : items t ⊆ items (table s) -> step s (mkSystem (pipe s) t (conns s)).

Inductive reachable : system -> Prop :=
  | reachable_start : reachable start
  | reachable_step s s' : reachable s -> step s s' -> reachable s'.

(** ** What others do to a room *)

Definition moved (x : connection) (sy sy' : Room.sys) : Prop :=
  sy' = sy \/ Session.others (user_of x) (chan_of x) (left_of x) sy sy'.

Lemma room_sys_store gw pub rec p r h :
  store gw !! p = Some (r, h) -> room_sys gw pub rec p = Some (Room.mkSys r h (default [] (pub !! p)) (default ∅ (rec !! p))).
Proof. intros Hs. unfold room_sys. by rewrite Hs. Qed.

Lemma room_sys_is_store gw pub rec p sy :
  room_sys gw pub rec p = Some sy -> store gw !! p = Some (Room.s_room sy, Room.s_heap sy) /\
  Room.s_log sy = default [] (pub !! p) /\ Room.s_got sy = default ∅ (rec !! p).
Proof. unfold room_sys. destruct (store gw !! p) as [[r h]|]; [|done]. cbn. by intros [= <-]. Qed.

Lemma GetOrCreate_keeps roomID gw res gw' :
  world_inv gw -> GetOrCreate roomID gw = (res, gw') ->
  (forall p, is_Some (store gw !! p) -> store gw' !! p = store gw !! p) /\
  (forall k p, rooms gw !! k = Some p -> rooms gw' !! k = Some p).
Proof.
  intros Hw HG. destruct (GetOrCreate_cases roomID gw) as [[_ He]|[(_ & p & _ & He)|(Hb & Hn & He)]];
    rewrite He in HG; injection HG as <- <-; [done..|]. cbn. split.
  - intros p Hp. apply lookup_insert_ne. intros <-. pose proof (inv_next _ Hw _ Hp). lia.
  - intros k p Hk. rewrite lookup_insert_ne; [done|]. intros <-. by rewrite Hn in Hk.
Qed.

(** The consumer publishes; rooms stay where they are. *)
Lemma consume_moves_rooms pl pl' x p sy :
  Pipeline.reachable pl -> consume_step pl pl' -> room_at pl p = Some sy ->
  (exists sy', room_at pl' p = Some sy' /\ moved x sy sy') /\
  (forall k q, rooms (gateway pl) !! k = Some q -> rooms (gateway pl') !! k = Some q).
Proof.
  intros Hr Hs Hsy. pose proof (rv_world _ _ _ _ _ (pi_rooms _ (pipeline_reachable_inv _ Hr))) as Hw.
  assert (Hsame : gateway pl' = gateway pl -> published pl' = published pl -> received pl' = received pl ->
    (exists sy', room_at pl' p = Some sy' /\ moved x sy sy') /\
    (forall k q, rooms (gateway pl) !! k = Some q -> rooms (gateway pl') !! k = Some q)).
  { unfold room_at. intros -> -> ->. split; [|done]. exists sy. split; [done|by left]. }
  destruct Hs as [| | |w next m d order err dropped gw w' _ _ Hv Hh _| |]; try (by apply Hsame). clear Hsame.
  destruct (handler_effect _ _ _ _ _ _ Hv Hh Hw) as [[-> ->]|(gw1 & p0 & r & h & res & r' & h' & HG & Hk & Hs & Ho & HP & -> & ->)].
  { split; [|done]. exists sy. split; [done|by left]. }
  destruct (GetOrCreate_keeps _ _ _ _ Hw HG) as [Hst Hrm]. split; [|exact Hrm].
  unfold room_at in *. cbn. pose proof (room_sys_is_store _ _ _ _ _ Hsy) as (Hp & Hlog & Hgot).
  destruct (decide (p = p0)) as [->|Hne].
  - rewrite Hst in Hs by eauto. rewrite Hp in Hs. injection Hs as <- <-.
    eexists. split; [apply room_sys_store; cbn; by rewrite lookup_insert_eq|]. right.
    rewrite lookup_insert_eq, <- Hlog, <- Hgot. by apply (Session.others_publish _ _ _ sy order (Content d) res).
  - exists sy. split; [|by left]. rewrite (room_sys_store _ _ _ _ (Room.s_room sy) (Room.s_heap sy)).
    + rewrite lookup_insert_ne, <- Hlog, <- Hgot by done. by destruct sy.
    + cbn. rewrite lookup_insert_ne by done. rewrite Hst; [done|eauto].
Qed.

Lemma put_client_rooms pl p sy sy' q sq :
  room_at pl p = Some sy -> Room.s_log sy' = Room.s_log sy -> room_at pl q = Some sq ->
  room_at (put_client p sy' pl) q = Some (if decide (q = p) then sy' else sq).
Proof.
  unfold room_at. intros Hp%room_sys_is_store Hlog Hq. destruct Hp as (_ & Hl & _).
  destruct (room_sys_is_store _ _ _ _ _ Hq) as (Hs & Hl2 & Hg). case_decide as Hqp; [subst q|].
  - rewrite (room_sys_store _ _ _ _ (Room.s_room sy') (Room.s_heap sy')) by (cbn; by rewrite lookup_insert_eq).
    cbn. rewrite lookup_insert_eq, <- Hl, <- Hlog. by destruct sy'.
  - rewrite (room_sys_store _ _ _ _ (Room.s_room sq) (Room.s_heap sq)) by (cbn; by rewrite lookup_insert_ne).
    cbn. rewrite lookup_insert_ne, <- Hl2, <- Hg by done. by destruct sq.
Qed.

Lemma put_client_reachable pl p sy sy' :
  Pipeline.reachable pl -> room_at pl p = Some sy -> Room.step sy sy' -> Room.s_log sy' = Room.s_log sy ->
  Pipeline.reachable (put_client p sy' pl).
Proof. intros Hr Hsy Hs Hl. eapply Pipeline.reachable_step; [exact Hr|]. right. by eapply other_client. Qed.

(** ** Every connection behaves as in Session, the gateway as in Pipeline *)

Definition behaves (pl : pipeline) (t : websocketConnections) (c : nat) (x : connection) : Prop :=
  rooms (gateway pl) !! TrimSpace (room_of x) = Some (ptr_of x) /\
  exists sy, room_at pl (ptr_of x) = Some sy /\
  match x with
  | Joined userID _ _ l => Session.joined userID l sy
  | Live userID roomID _ l s => Session.reachable sensitiveFilter userID roomID c l (view sy t s)
  end.

(** In a room every connection has its own channel, those of the past included. *)
Definition distinct (cs : gmap nat connection) : Prop :=
  forall c1 c2 x1 x2, c1 <> c2 -> cs !! c1 = Some x1 -> cs !! c2 = Some x2 -> ptr_of x1 = ptr_of x2 -> chan_of x1 <> chan_of x2.

Record system_inv (s : system) : Prop := {
  sv_pipe : Pipeline.reachable (pipe s);
  sv_conns : forall c x, conns s !! c = Some x -> behaves (pipe s) (table s) c x;
  sv_distinct : distinct (conns s);
}.

Lemma joined_others userID l sy sy' :
  Session.joined userID l sy -> Session.others userID l false sy sy' -> Session.joined userID l sy'.
Proof.
  intros (Hr & Hc & Hg) Ho. split_and!.
  - by eapply Session.others_reachable.
  - by apply (Session.others_membership userID l false sy).
  - by rewrite (Session.others_got _ _ _ _ _ Ho).
Qed.

(** A connection stays as it should while others move. *)
Lemma behaves_moved pl pl' t t' c x :
  behaves pl t c x ->
  (forall k q, rooms (gateway pl) !! k = Some q -> rooms (gateway pl') !! k = Some q) ->
  (forall sy, room_at pl (ptr_of x) = Some sy -> exists sy', room_at pl' (ptr_of x) = Some sy' /\ moved x sy sy') ->
  (c ∈ items t' -> c ∈ items t) ->
  behaves pl' t' c x.
Proof.
  intros (Hk & sy & Hsy & Hb) Hrm Hmv Ht. split; [by apply Hrm|]. destruct (Hmv sy Hsy) as (sy' & Hsy' & Hm).
  exists sy'. split; [done|]. destruct x as [userID roomID p l|userID roomID p l s].
  - destruct Hm as [->|Hm]; [done|]. by eapply joined_others.
  - assert (Hb' : Session.reachable sensitiveFilter userID roomID c l (view sy' t s)).
    { destruct Hm as [->|Hm]; [done|]. eapply Session.reachable_step; [exact Hb|]. right. cbn in Hm.
      by apply (Session.external_others _ _ _ _ _ (view sy t s) sy'). }
    eapply Session.reachable_step; [exact Hb'|]. right.
    by apply (Session.external_table _ _ _ _ _ (view sy' t s) t').
Qed.

Lemma behaves_still pl pl' t t' c x :
  behaves pl t c x -> gateway pl' = gateway pl -> published pl' = published pl -> received pl' = received pl ->
  (c ∈ items t' -> c ∈ items t) -> behaves pl' t' c x.
Proof.
  intros Hb Hg Hp Hr. apply (behaves_moved _ _ _ _ _ _ Hb); unfold room_at; rewrite Hg, ?Hp, ?Hr; [done|].
  intros sy Hsy. exists sy. split; [done|by left].
Qed.

(** The room of a connection, its member and its channel. *)
Lemma behaves_channel pl t c x sy :
  behaves pl t c x -> room_at pl (ptr_of x) = Some sy ->
  Room.reachable sy /\ Session.membership (user_of x) (chan_of x) (left_of x) sy /\ chan_of x < Room.next_chan (Room.s_heap sy).
Proof.
  intros (_ & sy' & Hsy' & Hb) Hsy. rewrite Hsy in Hsy'. injection Hsy' as <-.
  assert (Hm : Room.reachable sy /\ Session.membership (user_of x) (chan_of x) (left_of x) sy).
  { destruct x as [userID roomID p l|userID roomID p l s].
    - destruct Hb as (Hr & Hc & _). by split.
    - apply Session.session_reachable_inv in Hb. split; [apply (Session.si_room _ _ _ _ Hb)|apply (Session.si_member _ _ _ _ Hb)]. }
  destruct Hm as [Hr Hm]. split_and!; [done..|]. pose proof (Room.sys_room _ (Room.reachable_inv _ Hr)) as Hi.
  unfold Session.membership in Hm. destruct (left_of x).
  - destruct Hm as [(ch & Hch & _) _]. apply (Room.inv_alloc _ _ Hi). by rewrite Hch.
  - destruct (Room.inv_member Hi _ _ Hm) as (_ & _ & ch & Hch & _). apply (Room.inv_alloc _ _ Hi). cbn in Hch. by rewrite Hch.
Qed.

(** A step by connection [c] on its room, seen by another one. *)
Lemma put_behaves pl t t' c x p sy sy' :
  behaves pl t c x -> room_at pl p = Some sy -> Room.s_log sy' = Room.s_log sy ->
  (ptr_of x = p -> moved x sy sy') -> (c ∈ items t' -> c ∈ items t) ->
  behaves (put_client p sy' pl) t' c x.
Proof.
  intros Hb Hsy Hlog Hm. apply (behaves_moved _ _ _ _ _ _ Hb); [done|]. intros sx Hsx.
  pose proof (put_client_rooms _ _ _ sy' _ _ Hsy Hlog Hsx) as Hput. case_decide as Hp.
  - exists sy'. split; [done|]. rewrite Hp, Hsy in Hsx. injection Hsx as <-. by apply Hm.
  - exists sx. split; [done|by left].
Qed.

(** Two users of a room are different while both are members. *)
Lemma leave_others pl t1 t2 c1 c2 x1 x2 sy res r h :
  behaves pl t1 c1 x1 -> behaves pl t2 c2 x2 -> room_at pl (ptr_of x1) = Some sy -> ptr_of x2 = ptr_of x1 ->
  chan_of x1 <> chan_of x2 -> left_of x1 = false ->
  Room.Leave (user_of x1) (Room.s_room sy) (Room.s_heap sy) = Returns (res, r, h) ->
  moved x2 sy (Room.mkSys r h (Room.s_log sy) (Room.s_got sy)).
Proof.
  intros Hb1 Hb2 Hsy Hp Hd Hl HL. right. eapply Session.others_leave; [|exact HL].
  destruct (left_of x2) eqn:Hl2; [by right|left]. intros Heq.
  destruct (behaves_channel _ _ _ _ _ Hb1 Hsy) as (_ & Hm1 & _). rewrite <- Hp in Hsy.
  destruct (behaves_channel _ _ _ _ _ Hb2 Hsy) as (_ & Hm2 & _). rewrite Hl in Hm1. rewrite Hl2 in Hm2.
  unfold Session.membership in *. rewrite Heq, Hm2 in Hm1. injection Hm1 as Hc. by apply Hd.
Qed.

(** What a goroutine of a connection can do to the room: leave it, or receive. *)
Definition own_room (userID : string) (l : nat) (left : bool) (sy sy' : Room.sys) : Prop :=
  sy' = sy \/
  (left = false /\ exists res r h, Room.Leave userID (Room.s_room sy) (Room.s_heap sy) = Returns (res, r, h) /\
     sy' = Room.mkSys r h (Room.s_log sy) (Room.s_got sy)) \/
  (exists v h, Room.Receive l (Room.s_heap sy) = Some (v, h) /\
     sy' = Room.mkSys (Room.s_room sy) h (Room.s_log sy) (<[l := Room.got sy l ++ option_list v]> (Room.s_got sy))).

Lemma reader_own userID roomID c l ch x x' :
  Session.reader_step sensitiveFilter userID roomID c ch x = Some (Returns x') ->
  own_room userID l (Session.left_room (Session.reader x)) (Session.sys x) (Session.sys x') /\
  items (Session.table x') ⊆ items (Session.table x).
Proof.
  destruct x as [sy ta ga op sh fa pe dn hb wd rd wr ht wi ef]. unfold Session.reader_step. cbn [Session.reader].
  intros Hs. destruct rd as [| |r last|t last| | | | | | | |], ch as [payload e limiter|err| |]; try discriminate Hs; cbn in Hs.
  all: try (match type of Hs with context [Room.Leave ?u ?r ?h] => destruct (Room.Leave u r h) as [[[res r'] h']|] eqn:HL end;
    cbn in Hs; [|done]; injection Hs as <-; cbn; split; [right; left; split; [done|by exists res, r', h']|done]).
  all: unfold Session.readMessage_fails, mbind, option_bind, outcome_bind in Hs;
    repeat (case_match; simplify_eq/=); try (injection Hs as <-; cbn); (split; [by left|]); try done; set_solver.
Qed.

Lemma writer_own userID l ch x x' left :
  Session.writer_step l ch x = Some (Returns x') ->
  own_room userID l left (Session.sys x) (Session.sys x') /\ Session.table x' = Session.table x.
Proof.
  destruct x as [sy ta ga op sh fa pe dn hb wd rd wr ht wi ef]. unfold Session.writer_step. cbn [Session.writer].
  intros Hs. destruct wr as [|m|p|t err| |], ch as [| |err'|]; try discriminate Hs; cbn in Hs.
  all: try (match type of Hs with context [Room.Receive ?l ?h] => destruct (Room.Receive l h) as [[v h']|] eqn:HR end;
    [|done]; cbn in Hs; injection Hs as <-; destruct v; (split; [|done]); right; right; by eexists _, h').
  all: unfold mbind, option_bind, outcome_bind in Hs; repeat (case_match; simplify_eq/=); try (injection Hs as <-); (split; [by left|done]).
Qed.

Lemma heart_own ch x x' : Session.heart_step ch x = Some (Returns x') ->
  Session.sys x' = Session.sys x /\ Session.table x' = Session.table x.
Proof.
  destruct x as [sy ta ga op sh fa pe dn hb wd rd wr ht wi ef]. unfold Session.heart_step. cbn [Session.heart].
  intros Hs. unfold mbind, option_bind in Hs. by repeat (case_match; simplify_eq/=).
Qed.

Lemma own_step_room userID roomID c l x x' :
  own_step userID roomID c l x (Returns x') ->
  own_room userID l (Session.left_room (Session.reader x)) (Session.sys x) (Session.sys x') /\
  items (Session.table x') ⊆ items (Session.table x).
Proof.
  intros Ho. remember (Returns x') as o eqn:Heq. destruct Ho as [ch o Hs|ch o Hs|ch o Hs]; subst o.
  - by eapply reader_own.
  - destruct (writer_own userID l ch x x' (Session.left_room (Session.reader x)) Hs) as [Hr ->]. by split.
  - destruct (heart_own _ _ _ Hs) as [-> ->]. split; [by left|done].
Qed.

Lemma own_step_session userID roomID c l x o :
  own_step userID roomID c l x o -> Session.step sensitiveFilter userID roomID c l x o.
Proof.
  intros [ch o' Hs|ch o' Hs|ch o' Hs].
  - destruct (decide (Session.reader x = Session.RRead)) as [Hr|Hr].
    + right. by eapply Session.external_read.
    + left. by eapply Session.internal_reader.
  - left. by eapply Session.internal_writer.
  - destruct ch as [[err|]|].
    + left. by eapply (Session.internal_heart _ _ _ _ _ _ (Session.Ping (Some err))).
    + right. by apply Session.external_ping.
    + left. by eapply (Session.internal_heart _ _ _ _ _ _ Session.Stop).
Qed.

(** A connection's step is a step of the room, or leaves it alone: the two ways in which
    [step] lets it happen are all. *)
Lemma own_room_step userID l left sy sy' :
  own_room userID l left sy sy' -> sy' = sy \/ (Room.step sy sy' /\ Room.s_log sy' = Room.s_log sy).
Proof.
  intros [->|[(_ & res & r & h & HL & ->)|(v & h & HR & ->)]]; [by left|right..]; (split; [|done]).
  - by eapply Room.step_leave.
  - by apply Room.step_receive.
Qed.

Lemma own_room_others pl t1 t2 c1 c2 x1 x2 sy sy' :
  behaves pl t1 c1 x1 -> behaves pl t2 c2 x2 -> room_at pl (ptr_of x1) = Some sy -> ptr_of x2 = ptr_of x1 ->
  chan_of x1 <> chan_of x2 -> own_room (user_of x1) (chan_of x1) (left_of x1) sy sy' -> moved x2 sy sy'.
Proof.
  intros Hb1 Hb2 Hsy Hp Hd [->|[(Hl & res & r & h & HL & ->)|(v & h & HR & ->)]]; [by left|..].
  - eapply leave_others; [exact Hb1|exact Hb2|done|done|done|done|exact HL].
  - right. apply Session.others_receive; [done|exact HR].
Qed.

(** A new or changed entry beside the others. *)
Lemma insert_behaves pl pl' t t' (cs : gmap nat connection) c x :
  (forall c' x', cs !! c' = Some x' -> behaves pl t c' x') ->
  (forall c' x', c' <> c -> cs !! c' = Some x' -> behaves pl t c' x' -> behaves pl' t' c' x') ->
  behaves pl' t' c x -> forall c' x', <[c := x]> cs !! c' = Some x' -> behaves pl' t' c' x'.
Proof.
  intros Hb Ht Hx c' x' [[<- <-]|[Hne Hc]]%lookup_insert_Some; [done|].
  apply (Ht c' x'); [by apply not_eq_sym|done|by apply Hb].
Qed.

Lemma distinct_update cs c x x' :
  distinct cs -> cs !! c = Some x -> ptr_of x' = ptr_of x -> chan_of x' = chan_of x -> distinct (<[c := x']> cs).
Proof.
  intros Hd Hc Hp Hl c1 c2 x1 x2 Hne H1 H2 Hpp.
  apply lookup_insert_Some in H1 as [[<- <-]|[? H1]]; apply lookup_insert_Some in H2 as [[<- <-]|[? H2]]; [done|..].
  - rewrite Hl. apply (Hd c c2 x x2); [done..|]. by rewrite <- Hp.
  - rewrite Hl. apply (Hd c1 c x1 x); [done..|]. by rewrite <- Hp.
  - by apply (Hd c1 c2).
Qed.

(** Join gives a fresh channel. *)
Lemma Join_fresh userID sy client r h :
  Room.Join userID (Room.s_room sy) (Room.s_heap sy) = (Ok client, r, h) ->
  client = Room.mkClient userID (Room.next_chan (Room.s_heap sy)) /\ Room.clients r !! userID = Some client.
Proof.
  unfold Room.Join, Room.alloc_chan. intros HJ. repeat (case_match; simplify_eq). split; [done|]. cbn. by rewrite lookup_insert_eq.
Qed.

Lemma join_joined userID sy client r h :
  Room.reachable sy -> Room.Join userID (Room.s_room sy) (Room.s_heap sy) = (Ok client, r, h) ->
  Session.joined userID (Room.Messages client) (Room.mkSys r h (Room.s_log sy) (Room.s_got sy)).
Proof.
  intros Hr HJ. destruct (Join_fresh _ _ _ _ _ HJ) as [-> Hc]. split_and!.
  - eapply Room.reachable_step; [exact Hr|]. by eapply Room.step_join.
  - exact Hc.
  - pose proof (Room.sys_fresh _ (Room.reachable_inv _ Hr) (Room.next_chan (Room.s_heap sy)) ltac:(lia)) as Hs.
    unfold Room.stream in Hs. by apply app_eq_nil in Hs as [Hg _].
Qed.

Lemma start_system_inv : system_inv start.
Proof. split; [apply Pipeline.reachable_start|by intros c x Hx|by intros c1 c2 x1 x2 _ Hx]. Qed.

(** The room of a connection is a reachable one. *)
Lemma pipeline_room pl p sy : Pipeline.reachable pl -> room_at pl p = Some sy -> Room.reachable sy.
Proof. intros Hr Hsy. exact (rv_rooms _ _ _ _ _ (pi_rooms _ (pipeline_reachable_inv _ Hr)) _ _ Hsy). Qed.

(** A connection acts on its room, which is as a goroutine of it may leave it. *)
Lemma own_inv s c x x' t sy sy' :
  system_inv s -> conns s !! c = Some x -> room_at (pipe s) (ptr_of x) = Some sy ->
  own_room (user_of x) (chan_of x) (left_of x) sy sy' -> items t ⊆ items (table s) ->
  room_of x' = room_of x -> ptr_of x' = ptr_of x -> chan_of x' = chan_of x ->
  (forall pl, room_at pl (ptr_of x) = Some sy' -> rooms (gateway pl) !! TrimSpace (room_of x) = Some (ptr_of x) -> behaves pl t c x') ->
  (sy' = sy -> system_inv (mkSystem (pipe s) t (<[c := x']> (conns s)))) /\
  (Room.step sy sy' -> Room.s_log sy' = Room.s_log sy ->
   system_inv (mkSystem (put_client (ptr_of x) sy' (pipe s)) t (<[c := x']> (conns s)))).
Proof.
  intros [Hp Hc Hd] Hx Hsy Ho Ht Hrx Hpx Hlx Hb. destruct (Hc c x Hx) as (Hk & _).
  assert (Hds : distinct (<[c := x']> (conns s))) by (by eapply distinct_update). split.
  - intros ->. split; cbn; [done| |done]. eapply insert_behaves; [exact Hc| |by apply Hb].
    intros c' x1 _ _ Hb'. eapply behaves_still; [exact Hb'|done..|]. auto.
  - intros Hst Hlog. split; cbn; [by eapply put_client_reachable| |done]. eapply insert_behaves; [exact Hc| |].
    + intros c' x1 Hne Hx1 Hb1. eapply put_behaves; [exact Hb1|exact Hsy|done| |by auto]. intros Hpp.
      apply (own_room_others (pipe s) (table s) (table s) c c' x x1 sy sy' (Hc c x Hx) Hb1 Hsy Hpp); [|exact Ho].
      apply (Hd c c'); [by apply not_eq_sym|done..].
    + apply Hb; [|done]. rewrite (put_client_rooms _ _ _ sy' _ _ Hsy Hlog Hsy). by rewrite decide_True.
Qed.

Lemma join_inv s c userID roomID p sy client r h :
  system_inv s -> conns s !! c = None -> rooms (gateway (pipe s)) !! TrimSpace roomID = Some p ->
  room_at (pipe s) p = Some sy ->
  Room.Join userID (Room.s_room sy) (Room.s_heap sy) = (Ok client, r, h) ->
  system_inv (mkSystem (put_client p (Room.mkSys r h (Room.s_log sy) (Room.s_got sy)) (pipe s)) (table s)
    (<[c := Joined userID roomID p (Room.Messages client)]> (conns s))).
Proof.
  intros [Hp Hc Hd] Hn Hk Hsy HJ. pose proof (pipeline_room _ _ _ Hp Hsy) as Hr.
  assert (Hst : Room.step sy (Room.mkSys r h (Room.s_log sy) (Room.s_got sy))) by (by eapply Room.step_join).
  assert (Hother : forall c' x', conns s !! c' = Some x' -> ptr_of x' = p -> chan_of x' <> Room.Messages client).
  { intros c' x' Hx Hpx. destruct (Join_fresh _ _ _ _ _ HJ) as [-> _]. cbn. rewrite <- Hpx in Hsy.
    destruct (behaves_channel _ _ _ _ _ (Hc _ _ Hx) Hsy) as (_ & _ & Hlt). lia. }
  split; cbn; [by eapply put_client_reachable| |].
  - eapply insert_behaves; [exact Hc| |].
    + intros c' x' _ Hx Hb. eapply put_behaves; [exact Hb|exact Hsy|done| |done]. intros _. right.
      by eapply Session.others_join.
    + split; [done|]. eexists. split; [|by eapply join_joined].
      pose proof (put_client_rooms (pipe s) p sy (Room.mkSys r h (Room.s_log sy) (Room.s_got sy)) p sy Hsy eq_refl Hsy) as Hput.
      by rewrite decide_True in Hput.
  - intros c1 c2 x1 x2 Hne H1 H2 Hpp.
    apply lookup_insert_Some in H1 as [[<- <-]|[? H1]]; apply lookup_insert_Some in H2 as [[<- <-]|[? H2]]; [done|..].
    + apply not_eq_sym. by eapply Hother.
    + by eapply Hother.
    + by apply (Hd c1 c2).
Qed.

Lemma refuse_inv s c userID roomID p l sy res r h :
  system_inv s -> conns s !! c = Some (Joined userID roomID p l) -> room_at (pipe s) p = Some sy ->
  Room.Leave userID (Room.s_room sy) (Room.s_heap sy) = Returns (res, r, h) ->
  system_inv (mkSystem (put_client p (Room.mkSys r h (Room.s_log sy) (Room.s_got sy)) (pipe s)) (table s) (delete c (conns s))).
Proof.
  intros [Hp Hc Hd] Hx Hsy HL. split; cbn.
  - eapply put_client_reachable; [done|exact Hsy|by eapply Room.step_leave|done].
  - intros c' x' [Hne Hx']%lookup_delete_Some. eapply put_behaves; [by apply Hc|exact Hsy|done| |done]. intros Hpp.
    eapply (leave_others _ _ _ c c' (Joined userID roomID p l)); [by apply Hc|by apply Hc|done|done| |done|exact HL].
    by apply (Hd c c').
  - intros c1 c2 x1 x2 Hne [_ H1]%lookup_delete_Some [_ H2]%lookup_delete_Some. by apply (Hd c1 c2).
Qed.

Lemma admit_inv s c userID roomID p l sy t :
  system_inv s -> conns s !! c = Some (Joined userID roomID p l) -> room_at (pipe s) p = Some sy ->
  add c (table s) = (true, t) ->
  system_inv (mkSystem (pipe s) t (<[c := Live userID roomID p l (Session.established sy t)]> (conns s))).
Proof.
  intros [Hp Hc Hd] Hx Hsy Ha. unfold add in Ha. destruct (closing (table s)); [done|]. injection Ha as <-.
  destruct (Hc c _ Hx) as (Hk & sy' & Hsy' & Hj). cbn in Hk, Hsy', Hj. rewrite Hsy in Hsy'. injection Hsy' as <-.
  split; cbn; [done| |by eapply distinct_update]. eapply insert_behaves; [exact Hc| |].
  - intros c' x' Hne _ Hb. eapply behaves_still; [exact Hb|done..|]. cbn. set_solver.
  - split; [done|]. exists sy. split; [done|]. apply Session.reachable_established; [done|]. cbn. set_solver.
Qed.

(** What a goroutine does keeps its connection well-behaved. *)
Lemma own_behaves s c userID roomID p l x sy x' pl :
  system_inv s -> conns s !! c = Some (Live userID roomID p l x) -> room_at (pipe s) p = Some sy ->
  own_step userID roomID c l (view sy (table s) x) (Returns x') ->
  room_at pl p = Some (Session.sys x') -> rooms (gateway pl) !! TrimSpace roomID = Some p ->
  behaves pl (Session.table x') c (Live userID roomID p l x').
Proof.
  intros [Hp Hc Hd] Hx Hsy Ho%own_step_session Hpl Hk. split; [done|]. exists (Session.sys x'). split; [done|].
  destruct (Hc c _ Hx) as (_ & sy' & Hsy' & Hr). cbn in Hsy', Hr. rewrite Hsy in Hsy'. injection Hsy' as <-.
  assert (view (Session.sys x') (Session.table x') x' = x') as -> by (by destruct x').
  by eapply Session.reachable_step.
Qed.

Lemma sockets_step_inv s s' : system_inv s -> step s s' -> system_inv s'.
Proof.
  intros Hi Hs. pose proof Hi as [Hp Hc Hd]. destruct Hs as [pl Hs|pl Hs Hg Hr|roomID res gw HG|c u k p sy client r h Hn Hk Hsy HJ
    |c u k p l sy t Hx Hsy Ha|c u k p l sy res r h Hx Hsy HL|c u k p l x sy x' Hx Hsy Ho Hsame
    |c u k p l x sy x' Hx Hsy Ho Hst Hlog|c u k p l x Hx|c u k p l x Hx|t Ht].
  - split; cbn; [eapply Pipeline.reachable_step; [exact Hp|by left]| |done]. intros c x Hx. pose proof (Hc c x Hx) as Hb.
    eapply behaves_moved; [exact Hb|..|done].
    + destruct Hb as (_ & sy & Hsy & _). by destruct (consume_moves_rooms _ _ x _ _ Hp Hs Hsy) as [_ H'].
    + intros sy Hsy. by destruct (consume_moves_rooms _ _ x _ _ Hp Hs Hsy) as [H' _].
  - split; cbn; [eapply Pipeline.reachable_step; [exact Hp|by right]| |done]. intros c x Hx.
    eapply behaves_still; [by apply Hc|done| |done|done]. by destruct Hs.
  - split; cbn; [|intros c x Hx|done].
    + eapply Pipeline.reachable_step; [exact Hp|right]. by eapply other_room.
    + pose proof (rv_world _ _ _ _ _ (pi_rooms _ (pipeline_reachable_inv _ Hp))) as Hw.
      destruct (GetOrCreate_keeps _ _ _ _ Hw HG) as [Hst Hrm]. eapply behaves_moved; [by apply Hc|done| |done].
      intros sy Hsy. exists sy. split; [|by left]. unfold room_at in *. cbn.
      destruct (room_sys_is_store _ _ _ _ _ Hsy) as (H1 & H2 & H3).
      rewrite (room_sys_store _ _ _ _ (Room.s_room sy) (Room.s_heap sy)); [rewrite <- H2, <- H3; by destruct sy|].
      rewrite Hst; [done|eauto].
  - by eapply join_inv.
  - by eapply admit_inv.
  - by eapply refuse_inv.
  - destruct (own_step_room _ _ _ _ _ _ Ho) as [Hor Ht]. cbn in Hor, Ht.
    destruct (own_inv s c (Live u k p l x) (Live u k p l x') (Session.table x') sy (Session.sys x') Hi Hx Hsy Hor Ht) as [H1 _];
      [done..| |by apply H1]. intros pl. cbn. by eapply own_behaves.
  - destruct (own_step_room _ _ _ _ _ _ Ho) as [Hor Ht]. cbn in Hor, Ht.
    destruct (own_inv s c (Live u k p l x) (Live u k p l x') (Session.table x') sy (Session.sys x') Hi Hx Hsy Hor Ht) as [_ H2];
      [done..| |by apply H2]. intros pl. cbn. by eapply own_behaves.
  - split; cbn; [done| |by eapply distinct_update]. eapply insert_behaves; [exact Hc|done|].
    destruct (Hc c _ Hx) as (Hk & sy & Hsy & Hr). split; [done|]. exists sy. split; [done|].
    eapply Session.reachable_step; [exact Hr|]. right. apply (Session.external_write_shut _ _ _ _ _ (view sy (table s) x)).
  - split; cbn; [done| |by eapply distinct_update]. eapply insert_behaves; [exact Hc|done|].
    destruct (Hc c _ Hx) as (Hk & sy & Hsy & Hr). split; [done|]. exists sy. split; [done|].
    eapply Session.reachable_step; [exact Hr|]. right. apply (Session.external_close _ _ _ _ _ (view sy (table s) x)).
  - split; cbn; [done| |done]. intros c x Hx. eapply behaves_still; [by apply Hc|done..|]. auto.
Qed.

Lemma sockets_reachable_inv s : reachable s -> system_inv s.
Proof. induction 1 as [|s s' _ IH Hs]; [apply start_system_inv|by eapply sockets_step_inv]. Qed.

(** C6: the whole is its parts.  Whatever a gateway's consumer and connections do, the
    consumer and the rooms are in a state of Pipeline, and every established connection is
    in a state that Session reaches from what it sees of the shared rooms and table: all
    that is proved there holds in a gateway full of connections.  And whatever step a
    goroutine of a connection takes on that view returns and is a step of the whole. *)
Theorem gateway_refines_parts s :
  reachable s ->
  Pipeline.reachable (pipe s) /\
  forall c userID roomID p l x, conns s !! c = Some (Live userID roomID p l x) ->
    exists sy, room_at (pipe s) p = Some sy /\
      Session.reachable sensitiveFilter userID roomID c l (view sy (table s) x) /\
      forall o, own_step userID roomID c l (view sy (table s) x) o ->
        exists x' s', o = Returns x' /\ step s s' /\ conns s' !! c = Some (Live userID roomID p l x').
Proof.
  intros Hr%sockets_reachable_inv. split; [apply (sv_pipe _ Hr)|]. intros c userID roomID p l x Hx.
  destruct (sv_conns _ Hr c _ Hx) as (_ & sy & Hsy & Hb). cbn in Hsy, Hb. exists sy. split_and!; [done..|].
  intros o Ho. pose proof (own_step_session _ _ _ _ _ _ Ho) as Hst.
  destruct (Session.step_inv _ _ _ _ _ _ _ (Session.session_reachable_inv _ _ _ _ _ _ Hb) Hst) as (x' & -> & _).
  destruct (own_step_room _ _ _ _ _ _ Ho) as [Hor _]. exists x'. destruct (own_room_step _ _ _ _ _ Hor) as [Hsame|[Hrs Hlog]].
  - eexists. split_and!; [done|by eapply step_own|]. cbn. by rewrite lookup_insert_eq.
  - eexists. split_and!; [done|by eapply step_own_room|]. cbn. by rewrite lookup_insert_eq.
Qed.

(** A response shows the message of the log at a position, which is one for the room. *)
Definition shows (log : list Kafka.KafkaMessage) (k : string) (r : Session.websocketResponse) (i : nat) : Prop :=
  exists m d, log !! i = Some m /\ KafkaConsume.deliverable m = Some d /\ TrimSpace (RoomID d) = k /\
    Content d = Session.Content r.

(** What has gone out on a socket is a part of its room's log. *)
Lemma wire_of_room s c userID roomID p l x :
  reachable s -> conns s !! c = Some (Live userID roomID p l x) ->
  exists sy ps, room_at (pipe s) p = Some sy /\
    sublist (Session.responses (Session.wire x)) (Session.response_of <$> Room.s_log sy) /\
    ((Z.of_nat (length (Room.s_log sy)) < 2 ^ 64)%Z ->
       StronglySorted (fun r1 r2 => Session.Sequence r1 < Session.Sequence r2)%Z (Session.responses (Session.wire x))) /\
    Forall2 (shows (topic_log (pipe s)) (TrimSpace roomID)) (Session.responses (Session.wire x)) ps /\
    in_log_order (replays (pipe s)) ps.
Proof.
  intros Hr%sockets_reachable_inv Hx. destruct (sv_conns _ Hr c _ Hx) as (Hk & sy & Hsy & Hb). cbn in Hk, Hsy, Hb.
  destruct (Session.wire_in_order _ _ _ _ _ _ Hb) as [Hsub Hinc]. cbn in Hsub, Hinc.
  destruct (room_log_positions _ _ _ _ (sv_pipe _ Hr) Hk Hsy) as (ps & Hf & Ho).
  destruct (taken_positions (shows (topic_log (pipe s)) (TrimSpace roomID)) _ _ ps (replays (pipe s)) Hsub)
    as (qs & Hfq & Hq); [apply Forall2_fmap_l; exact Hf|exact Ho|].
  by exists sy, qs.
Qed.

(** C4: on every socket the order of the partition.  Whatever the consumer, the clients and
    the other connections do, the responses that have gone out on a connection show
    messages of the partition's log for the connection's room, in the order of the log:
    one is repeated only right after itself, and all repeats together are at most as many
    as the times the partition was left between handling a message and committing it.
    Their sequence numbers increase, as long as fewer than 2^64 messages have been
    published in the room. *)
Theorem socket_order_is_log_order s c userID roomID p l x :
  reachable s -> conns s !! c = Some (Live userID roomID p l x) ->
  (exists ps, Forall2 (shows (topic_log (pipe s)) (TrimSpace roomID)) (Session.responses (Session.wire x)) ps /\
     StronglySorted le ps /\ length ps <= different ps + replays (pipe s) /\
     (replays (pipe s) = 0 -> StronglySorted lt ps)) /\
  (forall sy, room_at (pipe s) p = Some sy -> (Z.of_nat (length (Room.s_log sy)) < 2 ^ 64)%Z ->
     StronglySorted (fun r1 r2 => Session.Sequence r1 < Session.Sequence r2)%Z (Session.responses (Session.wire x))).
Proof.
  intros Hr Hx. destruct (wire_of_room _ _ _ _ _ _ _ Hr Hx) as (sy & ps & Hsy & _ & Hinc & Hf & Ho). split.
  - by exists ps.
  - intros sy' Hsy'. rewrite Hsy in Hsy'. injection Hsy' as <-. exact Hinc.
Qed.

(** ** A run: two users join, one is admitted and reads what the other does not *)

Inductive act :=
  | AConsumer (a : Pipeline.act) | AFind (roomID : string) | AJoinRoom (c : nat) (userID roomID : string)
  | AAdmit (c : nat) | ATake (c : nat) | AWritten (c : nat).

Definition do_act (a : act) (s : system) : option system :=
  match a with
  | AConsumer a =>
    match a with
    | AAppend _ | AAssigned | AMove _ | AFetch | AHandle _ | ACommit _ _ | ALeave =>
      pl ← Pipeline.do_act a (pipe s); Some (mkSystem pl (table s) (conns s))
    | _ => None
    end
  | AFind roomID => Some (mkSystem (with_gateway (GetOrCreate roomID (gateway (pipe s))).2 (pipe s)) (table s) (conns s))
  | AJoinRoom c userID roomID =>
    match conns s !! c with Some _ => None | None =>
      p ← rooms (gateway (pipe s)) !! TrimSpace roomID; sy ← room_at (pipe s) p;
      match Room.Join userID (Room.s_room sy) (Room.s_heap sy) with
      | (Ok client, r, h) =>
        Some (mkSystem (put_client p (Room.mkSys r h (Room.s_log sy) (Room.s_got sy)) (pipe s)) (table s)
          (<[c := Joined userID roomID p (Room.Messages client)]> (conns s)))
      | _ => None
      end
    end
  | AAdmit c =>
    match conns s !! c with
    | Some (Joined userID roomID p l) =>
      sy ← room_at (pipe s) p;
      match add c (table s) with
      | (true, t) => Some (mkSystem (pipe s) t (<[c := Live userID roomID p l (Session.established sy t)]> (conns s)))
      | _ => None
      end
    | _ => None
    end
  | ATake c =>
    match conns s !! c with
    | Some (Live userID roomID p l x) =>
      sy ← room_at (pipe s) p;
      match Session.writer_step l Session.TakeMessage (view sy (table s) x) with
      | Some (Returns x') => Some (mkSystem (put_client p (Session.sys x') (pipe s)) (Session.table x')
          (<[c := Live userID roomID p l x']> (conns s)))
      | _ => None
      end
    | _ => None
    end
  | AWritten c =>
    match conns s !! c with
    | Some (Live userID roomID p l x) =>
      sy ← room_at (pipe s) p;
      match Session.writer_step l (Session.Written None) (view sy (table s) x) with
      | Some (Returns x') => Some (mkSystem (pipe s) (Session.table x') (<[c := Live userID roomID p l x']> (conns s)))
      | _ => None
      end
    | _ => None
    end
  end.

Lemma socket_act_step a s s' : do_act a s = Some s' -> step s s'.
Proof.
  destruct a as [a|roomID|c userID roomID|c|c|c]; cbn [do_act]; intros Ha.
  - assert (Hcases : (exists m, a = AAppend m) \/ consumer_act a = true) by (destruct a; try done; by eauto).
    destruct Hcases as [[m ->]|Hc].
    + destruct (Pipeline.do_act (AAppend m) (pipe s)) as [pl|] eqn:Hp; [|done]. injection Ha as <-.
      apply append_act_step in Hp as (Ho & Hg & Hr). by apply step_elsewhere.
    + assert (Ha' : (pl ← Pipeline.do_act a (pipe s); Some (mkSystem pl (table s) (conns s))) = Some s') by (by destruct a).
      destruct (Pipeline.do_act a (pipe s)) as [pl|] eqn:Hp; [|done]. injection Ha' as <-.
      apply step_consumer. by eapply consumer_act_step.
  - injection Ha as <-. destruct (GetOrCreate roomID (gateway (pipe s))) as [res gw] eqn:HG. by eapply step_find.
  - destruct (conns s !! c) eqn:Hc; [done|]. destruct (rooms (gateway (pipe s)) !! TrimSpace roomID) as [p|] eqn:Hp; [|done].
    cbn in Ha. destruct (room_at (pipe s) p) as [sy|] eqn:Hsy; [|done]. cbn in Ha.
    destruct (Room.Join userID (Room.s_room sy) (Room.s_heap sy)) as [[[client|e] r] h] eqn:HJ; [|done]. injection Ha as <-.
    by eapply step_join.
  - destruct (conns s !! c) as [[userID roomID p l|]|] eqn:Hc; [|done..]. destruct (room_at (pipe s) p) as [sy|] eqn:Hsy; [|done].
    cbn in Ha. destruct (add c (table s)) as [[] t] eqn:Hadd; [|done]. injection Ha as <-. by eapply step_admit.
  - destruct (conns s !! c) as [[|userID roomID p l x]|] eqn:Hc; [done| |done]. destruct (room_at (pipe s) p) as [sy|] eqn:Hsy; [|done].
    cbn [mbind option_bind] in Ha. destruct (Session.writer_step _ _ _) as [[x'|]|] eqn:Hw; [|done..]. injection Ha as <-.
    assert (Hr : exists v h, Room.Receive l (Room.s_heap sy) = Some (v, h) /\ Session.sys x' =
      Room.mkSys (Room.s_room sy) h (Room.s_log sy) (<[l := Room.got sy l ++ option_list v]> (Room.s_got sy))).
    { clear -Hw. destruct x as [sy0 ta ga op sh fa pe dn hb wd rd wr ht wi ef]. unfold Session.writer_step, view in Hw. cbn in Hw.
      destruct wr; try done. cbn in Hw. destruct (Room.Receive l (Room.s_heap sy)) as [[v h]|]; [|done].
      cbn in Hw. injection Hw as <-. exists v, h. split; [done|]. by destruct v. }
    destruct Hr as (v & h & HR & Hsys). eapply step_own_room; [exact Hc|exact Hsy|by eapply own_writer|..]; rewrite Hsys; [|done].
    by apply Room.step_receive.
  - destruct (conns s !! c) as [[|userID roomID p l x]|] eqn:Hc; [done| |done]. destruct (room_at (pipe s) p) as [sy|] eqn:Hsy; [|done].
    cbn [mbind option_bind] in Ha. destruct (Session.writer_step _ _ _) as [[x'|]|] eqn:Hw; [|done..]. injection Ha as <-.
    eapply step_own; [exact Hc|exact Hsy|by eapply own_writer|].
    clear -Hw. destruct x as [sy0 ta ga op sh fa pe dn hb wd rd wr ht wi ef]. unfold Session.writer_step, view in Hw. cbn in Hw.
    destruct wr, op, sh; try done; cbn in Hw; by injection Hw as <-.
Qed.

Fixpoint do_acts (acts : list act) (s : system) : option system :=
  match acts with [] => Some s | a :: acts => s ← do_act a s; do_acts acts s end.

Lemma socket_acts_reachable acts : forall s s', reachable s -> do_acts acts s = Some s' -> reachable s'.
Proof.
  induction acts as [|a acts IH]; cbn; intros s s' Hr He; [by simplify_eq|].
  destruct (do_act a s) as [s1|] eqn:Ha; [|done]. apply (IH s1); [|done]. eapply reachable_step; [exact Hr|by eapply socket_act_step].
Qed.

End sockets.

(** Alice and Bob join; only Alice's writer takes the first message before the second
    comes, which Bob's full channel has no place for. *)
Definition sample_acts : list act :=
  [AFind "room"; AJoinRoom 0 "alice" " room"; AJoinRoom 1 "bob" "room"; AAdmit 0; AAdmit 1;
   AConsumer (AAppend (KafkaConsume.sample_message 0 (KafkaConsume.sample_text "a")));
   AConsumer (AAppend (KafkaConsume.sample_message 1 (KafkaConsume.sample_text "b")));
   AConsumer AAssigned; AConsumer (AMove (Generation.SetOffset None));
   AConsumer AFetch; AConsumer (AHandle [Room.mkClient "alice" 0; Room.mkClient "bob" 1]); AConsumer (ACommit None true);
   ATake 0; AWritten 0;
   AConsumer AFetch; AConsumer (AHandle [Room.mkClient "alice" 0; Room.mkClient "bob" 1]); AConsumer (ACommit None true);
   ATake 0; AWritten 0; ATake 1; AWritten 1].
Definition sample_end : system := default start (do_acts sample_acts start).

Definition sample_filter : Sensitive.Filter := Sensitive.New (H := Sensitive.ascii_cases) ["scam"%string].
Definition sample_reachable : system -> Prop :=
  reachable (H := Sensitive.ascii_cases) (H0 := RateLimit.binary64) sample_filter.

Lemma sockets_sample_reachable : sample_reachable sample_end.
Proof. apply (socket_acts_reachable _ sample_acts start); [apply reachable_start|]. vm_compute. reflexivity. Qed.

(** The connection [c] at the end. *)
Definition sample_conn (c : nat) : Session.session :=
  match conns sample_end !! c with
  | Some (Live _ _ _ _ x) => x
  | _ => Session.established Room.sys_init newWebSocketConnections
  end.

Lemma gateway_refines_parts_witness : exists sy,
  room_at (pipe sample_end) 0 = Some sy /\
  Session.reachable (H := Sensitive.ascii_cases) (H0 := RateLimit.binary64) sample_filter "bob" "room" 1 1
    (view sy (table sample_end) (sample_conn 1)).
Proof.
  destruct (gateway_refines_parts (H := Sensitive.ascii_cases) (H0 := RateLimit.binary64) sample_filter sample_end
    sockets_sample_reachable) as [_ Hc].
  destruct (Hc 1 "bob"%string "room"%string 0 1 (sample_conn 1)) as (sy & Hsy & Hr & _); [vm_compute; reflexivity|].
  exists sy. split; [exact Hsy|exact Hr].
Defined.

Lemma socket_order_is_log_order_witness :
  Session.responses (Session.wire (sample_conn 0)) = [Session.mkResponse 1 "a"; Session.mkResponse 2 "b"] /\
  Session.responses (Session.wire (sample_conn 1)) = [Session.mkResponse 1 "a"] /\
  exists ps, Forall2 (shows (topic_log (pipe sample_end)) "room") (Session.responses (Session.wire (sample_conn 0))) ps /\
    StronglySorted lt ps.
Proof.
  split; [vm_compute; reflexivity|]. split; [vm_compute; reflexivity|].
  destruct (socket_order_is_log_order (H := Sensitive.ascii_cases) (H0 := RateLimit.binary64) sample_filter sample_end
    0 "alice" " room" 0 0 (sample_conn 0) sockets_sample_reachable) as [(ps & Hf & _ & _ & Hlt) _]; [vm_compute; reflexivity|].
  exists ps. split; [exact Hf|]. apply Hlt. vm_compute. reflexivity.
Defined.

End Sockets.
