(* ===== verification/EndToEnd.v ===== *)
(** * From one client to another

    The components composed: a frame that a client of one gateway sends goes through the
    handler, the JSON of the bus, a consumer, the room of the gateway that owns it, the
    queue of a member and the JSON of the socket, to another client.  And the load
    generator against the server: what it sends is accepted and recognised. *)

From stdpp Require Import pretty.
From S2P Require Import Prelude.
From S2P Require Import Utf8.
From S2P Require Import GoStrings.
From S2P Require Import GoTime.
From S2P Require Import Json.
From S2P Require Import JsonValid.
From S2P Require Import Message.
From S2P Require Import GoChan.
From S2P Require Import Room.
From S2P Require Import RoomRegistry.
From S2P Require Import Sensitive.
From S2P Require Import RateLimit.
From S2P Require Import Kafka.
From S2P Require Import KafkaConsume.
From S2P Require Import Broadcast.
From S2P Require Import Connections.
From S2P Require Import WebSocket.
From S2P Require Import Session.
From S2P Require Import Generation.
From S2P Require Import Pipeline.
From S2P Require Import Sockets.
From S2P Require Import Server.
From S2P Require Import Gateway.
From S2P Require Import LoadTest.

Module EndToEnd.
Import Registry.

(** ** The JSON of the socket *)

Definition MarshalResponse (r : Session.websocketResponse) : string :=
  encode_struct [("sequence", encode_uint64 (Session.Sequence r)); ("content", encode_text (Session.Content r))]%string.
Definition MarshalErrorResponse (r : WebSocket.websocketErrorResponse) : string :=
  encode_struct [("code", encode_text (WebSocket.Code r)); ("message", encode_text (WebSocket.Text r))]%string.

(** A client that keeps both fields. *)
Definition set_full (name : string) (v : json) (r : Session.websocketResponse) : result Session.websocketResponse :=
  if bool_decide (name = "sequence"%string) then
    n ← decode_uint64 v (Session.Sequence r); Ok (Session.mkResponse n (Session.Content r))
  else text ← decode_string v (Session.Content r); Ok (Session.mkResponse (Session.Sequence r) text).
Definition UnmarshalFull (text : string) : result Session.websocketResponse :=
  decode_struct ["sequence"; "content"]%string set_full (Session.mkResponse 0 "") text.

(** Setting the fields that have a name, and skipping the others. *)
Fixpoint set_found {A} (names : list string) (set : string -> json -> A -> result A)
  (members : list (string * json)) (acc : A) : result A :=
  match members with
  | [] => Ok acc
  | (name, v) :: members =>
    acc ← match find_field names (to_valid (bytes name)) with Some name => set name v acc | None => Ok acc end;
    set_found names set members acc
  end.

Lemma decode_encode_found {A} names (set : string -> json -> A -> result A) zero fields js :
  Forall2 (fun f j => reads f.2 j) fields js -> fields <> [] ->
  decode_struct names set zero (encode_struct fields) = set_found names set (zip fields.*1 js) zero.
Proof.
  intros Hf Hne. unfold decode_struct. rewrite (parse_encode_struct fields js) by done. clear Hne.
  revert zero. induction Hf as [|[name v] j fields js _ _ IH]; intros zero; [done|].
  cbn [zip_with fmap list_fmap decode_members set_found tree_of fst].
  rewrite unquote_quote by apply bytes_range.
  destruct (match find_field names (to_valid (bytes name)) with Some name => set name j zero | None => Ok zero end)
    as [acc|err]; [|done]. cbn. apply IH.
Qed.

Lemma response_reads (r : Session.websocketResponse) : (0 <= Session.Sequence r)%Z ->
  Forall2 (fun (f : string * list Z) j => reads f.2 j)
    [("sequence", encode_uint64 (Session.Sequence r)); ("content", encode_text (Session.Content r))]%string
    [JNumber (encode_uint64 (Session.Sequence r)); JString (quote 0 (bytes (Session.Content r)))].
Proof.
  intros Hs. repeat first [apply Forall2_nil_2 | apply Forall2_cons_2]; cbn [snd]; [by apply reads_uint64|apply reads_text].
Qed.

Lemma set_full_sequence v r :
  set_full "sequence" v r = (n ← decode_uint64 v (Session.Sequence r); Ok (Session.mkResponse n (Session.Content r))).
Proof. reflexivity. Qed.

Lemma set_full_content v r :
  set_full "content" v r = (text ← decode_string v (Session.Content r); Ok (Session.mkResponse (Session.Sequence r) text)).
Proof. reflexivity. Qed.

Lemma UnmarshalFull_Marshal r :
  (0 <= Session.Sequence r < 2 ^ 64)%Z ->
  UnmarshalFull (MarshalResponse r) = Ok (Session.mkResponse (Session.Sequence r) (ToValid (Session.Content r))).
Proof.
  intros Hs. unfold UnmarshalFull, MarshalResponse. rewrite (decode_encode_found _ _ _ _ _ (response_reads r ltac:(lia))) by done.
  cbn [zip zip_with fmap list_fmap fst set_found].
  replace (find_field ["sequence"; "content"]%string (to_valid (bytes "sequence"))) with (Some "sequence"%string) by (by vm_compute).
  replace (find_field ["sequence"; "content"]%string (to_valid (bytes "content"))) with (Some "content"%string) by (by vm_compute).
  rewrite set_full_sequence, decode_uint64_Itoa by done. cbn [mbind result_bind].
  by rewrite set_full_content, decode_string_text.
Qed.

(** The load generator's client keeps the content. *)
Lemma UnmarshalResponse_Marshal r :
  (0 <= Session.Sequence r)%Z -> LoadTest.UnmarshalResponse (MarshalResponse r) = Ok (ToValid (Session.Content r)).
Proof.
  intros Hs. unfold LoadTest.UnmarshalResponse, MarshalResponse.
  rewrite (decode_encode_found _ _ _ _ _ (response_reads r Hs)) by done.
  cbn [zip zip_with fmap list_fmap fst set_found].
  replace (find_field ["content"%string] (to_valid (bytes "sequence"))) with (@None string) by (by vm_compute).
  replace (find_field ["content"%string] (to_valid (bytes "content"))) with (Some "content"%string) by (by vm_compute).
  cbn [mbind result_bind]. unfold LoadTest.set_response. by rewrite decode_string_text.
Qed.

Lemma UnmarshalRequest_Marshal content :
  WebSocket.UnmarshalRequest (LoadTest.MarshalRequest content) = Ok (WebSocket.mkRequest (ToValid content)).
Proof.
  unfold WebSocket.UnmarshalRequest, LoadTest.MarshalRequest.
  rewrite (decode_encode_found _ _ _ _ [JString (quote 0 (bytes content))]).
  - cbn [zip zip_with fmap list_fmap fst set_found].
    replace (find_field ["content"%string] (to_valid (bytes "content"))) with (Some "content"%string) by (by vm_compute).
    unfold WebSocket.set_request. by rewrite decode_string_text.
  - repeat first [apply Forall2_nil_2 | apply Forall2_cons_2]. apply reads_text.
  - done.
Qed.

(** ** Decoded texts are valid UTF-8 *)

Lemma empty_valid : valid_utf8 "".
Proof. by exists []. Qed.

(** The content of a request. *)
Lemma request_valid payload request :
  WebSocket.UnmarshalRequest payload = Ok request -> valid_utf8 (WebSocket.content request).
Proof.
  unfold WebSocket.UnmarshalRequest.
  apply (decode_struct_valid (fun r => valid_utf8 (WebSocket.content r))); [apply empty_valid|].
  intros name v acc acc' Hv Hacc Hs. unfold WebSocket.set_request in Hs.
  destruct (decode_string v (WebSocket.content acc)) as [text|] eqn:Hd; [|done]. injection Hs as <-.
  by eapply decode_string_valid.
Qed.

(** Every text field of a consumed danmaku. *)
Lemma danmaku_valid text d :
  UnmarshalDanmaku text = Ok d ->
  valid_utf8 (MessageID d) /\ valid_utf8 (RoomID d) /\ valid_utf8 (UserID d) /\ valid_utf8 (Content d).
Proof.
  apply (decode_struct_valid (fun d => valid_utf8 (MessageID d) /\ valid_utf8 (RoomID d) /\ valid_utf8 (UserID d) /\
    valid_utf8 (Content d))); [by split_and!; apply empty_valid|].
  intros name v [id room user content n t] acc' Hv (H1 & H2 & H3 & H4) Hs. cbn in H1, H2, H3, H4.
  unfold set_danmaku in Hs. repeat (case_bool_decide; [|]).
  - destruct (decode_string v id) eqn:Hd; [|done]. injection Hs as <-. cbn. split_and!; try done.
    exact (decode_string_valid _ _ _ Hv H1 Hd).
  - destruct (decode_string v room) eqn:Hd; [|done]. injection Hs as <-. cbn. split_and!; try done.
    exact (decode_string_valid _ _ _ Hv H2 Hd).
  - destruct (decode_string v user) eqn:Hd; [|done]. injection Hs as <-. cbn. split_and!; try done.
    exact (decode_string_valid _ _ _ Hv H3 Hd).
  - destruct (decode_string v content) eqn:Hd; [|done]. injection Hs as <-. cbn. split_and!; try done.
    exact (decode_string_valid _ _ _ Hv H4 Hd).
  - destruct (decode_uint64 v n); [|done]. by injection Hs as <-.
  - destruct (decode_time v t); [|done]. by injection Hs as <-.
Qed.


(** ** A message's way *)

(** The danmaku of a frame keeps its text on the wire of the bus. *)
Lemma wire_text d : valid_utf8 (RoomID d) -> valid_utf8 (Content d) ->
  RoomID (wire d) = RoomID d /\ Content (wire d) = Content d.
Proof. intros Hr Hc. unfold wire. cbn [RoomID Content]. by rewrite !ToValid_id. Qed.

(** C2: from one client to another.  A frame that passes the checks of its gateway
    becomes a danmaku; Publish hands the writer its text under the room's identifier;
    whoever fetches that text calls the handler, which does not fail; and every member of
    the room whose queue is not full finds a message with exactly the content that was
    sent and the room's next number, which a client reads back from the JSON of the
    socket: no byte is changed on the way, the contents of frames being valid UTF-8
    whatever the payload was. *)
Theorem frame_reaches_members `{CaseTable} {F} `{Float F} filter userID roomID payload e (l : Limiter F) request d
  zone write b text it m order w p r h k c ch :
  WebSocket.passes filter userID payload e l request -> WebSocket.danmaku_of userID roomID e request = Some d ->
  ~ blank_string userID -> ~ blank_string roomID -> TrimSpace roomID = roomID -> valid_utf8 roomID ->
  WebSocket.created_now e <> time_zero ->
  (forall value, WebSocket.random e = Ok value -> length value = WebSocket.messageIDBytes /\ Forall is_byte value) ->
  zone_ok zone -> Kafka.writer b <> None -> MarshalDanmaku zone d = Ok text ->
  KafkaConsume.fetched it = Ok m -> Kafka.Value m = text ->
  world_inv w -> rooms w !! roomID = Some p -> store w !! p = Some (r, h) -> Room.range_order r order ->
  Room.clients r !! k = Some c -> Room.chans h !! Room.Messages c = Some ch ->
  let message := Room.mkMessage (wrap_u64 (Room.sequence r + 1)) (WebSocket.content request) in
  WebSocket.published (WebSocket.handle_frame filter userID roomID payload e l).1.1 = [d] /\
  Kafka.Publish zone write (Some b) d = write roomID text /\
  (exists d' dropped w' r' h',
     head (KafkaConsume.consume_one it).1 = Some (KafkaConsume.EHandler m d' (KafkaConsume.handled it)) /\
     Broadcast.consumer_handler order d' w = Returns (None, dropped, w') /\
     store w' !! p = Some (r', h') /\
     Room.chans h' !! Room.Messages c = Some (if full ch then ch else mkChan (cap ch) (buf ch ++ [message]) (closed ch))) /\
  UnmarshalFull (MarshalResponse (Session.response_of message)) = Ok (Session.response_of message).
Proof.
  intros Hpass Hd Hu Hr Htrim Hrv Ht Hrand Hz Hw Hm Hf Hv Hwi Hp Hs Ho Hk Hch message.
  pose proof Hpass as (Hun & (Hblank & _) & _). pose proof (request_valid _ _ Hun) as Hcv.
  pose proof (WebSocket.danmaku_of_valid userID roomID e request d Hu Hr Ht Hrand Hblank Hd) as Hval.
  assert (Hfields : RoomID d = roomID /\ Content d = WebSocket.content request /\ Sequence d = 0%Z).
  { unfold WebSocket.danmaku_of in Hd. destruct (WebSocket.random e); [|done]. by injection Hd as <-. }
  destruct Hfields as (Hdr & Hdc & Hds). destruct (wire_text d) as [Hwr Hwc]; [by rewrite Hdr|by rewrite Hdc|].
  split_and!.
  - by apply (WebSocket.handle_frame_published_once _ _ _ _ _ _ request).
  - unfold Kafka.Publish. cbn [mbind option_bind]. destruct (Kafka.writer b); [|done]. by rewrite Hm, Hdr.
  - assert (Hwv : Validate (wire d) = None) by (by rewrite Validate_wire).
    destruct (Broadcast.handler_room order (wire d) w p r h Hwi (proj1 (Validate_well_formed _) Hwv))
      as (dropped & r' & h' & HH & _ & Hcase); [by rewrite Hwr, Hdr, Htrim|done|done|].
    destruct Hcase as [(He & _)|(_ & HP)]; [by rewrite He in Hk|].
    destruct (Room.Publish_cases order (Content (wire d)) r h (inv_rooms _ Hwi _ _ _ Hs) Ho)
      as [[_ HP']|[(_ & _ & HP')|(_ & _ & h1 & HP' & _ & Hmem & _)]]; rewrite HP' in HP; simplify_eq.
    eexists (wire d), _, _, _, _. split_and!; [|exact HH|cbn; apply lookup_insert_eq|].
    + unfold KafkaConsume.consume_one. rewrite Hf, (Unmarshal_Marshal zone d _ Hz ltac:(rewrite Hds; lia) Hm), Hwv.
      by destruct (KafkaConsume.handled it).
    + rewrite Hmem, Hch by (by exists k, c). unfold Room.push. rewrite Hwc, Hdc. cbn. by destruct (full ch).
  - rewrite UnmarshalFull_Marshal by apply wrap_u64_range.
    unfold message, Session.response_of. cbn [Room.Sequence Room.Content Session.Sequence Session.Content].
    by rewrite ToValid_id.
Qed.

(** C35: whatever arrives on a consumer's topic, what it hands to the rooms, and so what a
    client is ever sent, is valid UTF-8: the JSON of the socket shows the client the
    content of the room's message, unchanged. *)
Theorem consumed_content_survives it m d err seq :
  head (KafkaConsume.consume_one it).1 = Some (KafkaConsume.EHandler m d err) -> (0 <= seq < 2 ^ 64)%Z ->
  valid_utf8 (Content d) /\
  UnmarshalFull (MarshalResponse (Session.mkResponse seq (Content d))) = Ok (Session.mkResponse seq (Content d)).
Proof.
  intros Hc Hs. assert (Hv : valid_utf8 (Content d)).
  { unfold KafkaConsume.consume_one in Hc. destruct (KafkaConsume.fetched it) as [m'|]; [|done].
    destruct (UnmarshalDanmaku (Kafka.Value m')) as [d'|] eqn:Hu; [|done]. destruct (Validate d'); [done|].
    apply danmaku_valid in Hu as (_ & _ & _ & Hu). destruct (KafkaConsume.handled it); cbn in Hc; by injection Hc as _ <- _. }
  split; [done|]. rewrite UnmarshalFull_Marshal by done. cbn [Session.Sequence Session.Content]. by rewrite ToValid_id.
Qed.


(** ** Where a response comes from *)

(** A frame and where it came from: the user and the room of the connection that sent it,
    its payload, and what its gateway had at hand. *)
Record origin (F : Type) := mkOrigin {
  sender : string; to_room : string; payload : string; around : WebSocket.surroundings; limiter : Limiter F;
}.
Arguments mkOrigin {F} _ _ _ _ _.
Arguments sender {F} _.
Arguments to_room {F} _.
Arguments payload {F} _.
Arguments around {F} _.
Arguments limiter {F} _.

(** The message of the topic that Publish wrote for the danmaku a gateway made of a frame:
    under the room's key, with the text of its JSON. *)
Definition published_for `{CaseTable} {F} `{Float F} (filter : Sensitive.Filter) (o : origin F)
  (m : Kafka.KafkaMessage) : Prop :=
  exists d zone,
    d ∈ WebSocket.published (WebSocket.handle_frame filter (sender o) (to_room o) (payload o) (around o) (limiter o)).1.1 /\
    zone_ok zone /\ MarshalDanmaku zone d = Ok (Kafka.Value m) /\ Kafka.Key m = RoomID d.

(** A response carries the frame at a position of the topic to a room: the content of a
    request that passed all checks, sent to that room, and read back by the client. *)
Definition carries_frame `{CaseTable} {F} `{Float F} (filter : Sensitive.Filter) (origins : list (origin F))
  (roomID : string) (r : Session.websocketResponse) (i : nat) : Prop :=
  exists o request, origins !! i = Some o /\
    WebSocket.passes filter (sender o) (payload o) (around o) (limiter o) request /\
    Session.Content r = WebSocket.content request /\
    TrimSpace (ToValid (to_room o)) = TrimSpace roomID /\
    (valid_utf8 (to_room o) -> TrimSpace (to_room o) = TrimSpace roomID) /\
    ((0 <= Session.Sequence r < 2 ^ 64)%Z -> UnmarshalFull (MarshalResponse r) = Ok r).

Lemma published_for_deliverable `{CaseTable} {F} `{Float F} filter (o : origin F) m d :
  published_for filter o m -> KafkaConsume.deliverable m = Some d ->
  exists request,
    WebSocket.passes filter (sender o) (payload o) (around o) (limiter o) request /\
    valid_utf8 (WebSocket.content request) /\ Content d = WebSocket.content request /\ RoomID d = ToValid (to_room o).
Proof.
  intros (d0 & zone & Hpub & Hz & Hm & Hkey) Hd.
  apply WebSocket.handle_frame_published in Hpub as (request & Hpass & Hof).
  exists request. pose proof (request_valid _ _ (proj1 Hpass)) as Hcv.
  unfold WebSocket.danmaku_of in Hof. destruct (WebSocket.random (around o)) as [value|]; [|done]. injection Hof as <-.
  unfold KafkaConsume.deliverable in Hd. eapply Unmarshal_Marshal in Hm; [|exact Hz|cbn; lia]. rewrite Hm in Hd.
  destruct (Validate _); [done|]. injection Hd as <-. unfold wire. cbn [Content RoomID] in *. split_and!; try done. by apply ToValid_id.
Qed.

(** What shows the message at a position carries the frame that the message is for. *)
Lemma shows_carries `{CaseTable} {F} `{Float F} filter (origins : list (origin F)) log roomID r i :
  Forall2 (published_for filter) origins log -> Sockets.shows log (TrimSpace roomID) r i ->
  carries_frame filter origins roomID r i.
Proof.
  intros Hlog (m & d & Hm & Hd & Hk & Hc). destruct (Forall2_lookup_r _ _ _ _ _ Hlog Hm) as (o & Ho & Hpub).
  destruct (published_for_deliverable _ _ _ _ Hpub Hd) as (request & Hpass & Hv & Hcd & Hrd).
  exists o, request. rewrite Hrd in Hk. split_and!; [done|done|congruence|done| |].
  - intros Hroom. by rewrite (ToValid_id _ Hroom) in Hk.
  - intros Hseq. rewrite UnmarshalFull_Marshal by done. rewrite <- Hc, Hcd, (ToValid_id _ Hv), <- Hcd, Hc. by destruct r.
Qed.

(** C5: nothing is made up.  Take the frames whose danmaku Publish wrote to the topic, one
    for each message, and nothing else on it.  Then on every socket of a gateway, whatever
    its consumer, its clients and the other connections do, the responses carry frames of
    that list, in its order, repeated at most as often as the partition was left between
    handling and committing.  The frame passed all checks of its gateway (acceptable,
    within its sender's rate), it was sent on a connection to the receiver's room (the
    identifiers are equal up to surrounding space when the sender's is valid UTF-8, and
    otherwise once its broken bytes are replaced), the response has its content, and the
    client that decodes the response's JSON has exactly that content. *)
Theorem nothing_is_made_up `{CaseTable} {F} `{Float F} filter s c userID roomID p l x (origins : list (origin F)) :
  Sockets.reachable filter s -> Sockets.conns s !! c = Some (Sockets.Live userID roomID p l x) ->
  Forall2 (published_for filter) origins (Pipeline.topic_log (Sockets.pipe s)) ->
  exists positions,
    Forall2 (carries_frame filter origins roomID) (Session.responses (Session.wire x)) positions /\
    StronglySorted le positions /\
    length positions <= Pipeline.different positions + Pipeline.replays (Sockets.pipe s).
Proof.
  intros Hs Hx Hlog. destruct (Sockets.wire_of_room _ _ _ _ _ _ _ _ Hs Hx) as (_ & ps & _ & _ & _ & Hf & Hle & Hn & _).
  exists ps. split_and!; [|done..]. eapply Forall2_impl; [exact Hf|]. intros r i. by apply shows_carries.
Qed.

(** ** The load generator against the server *)

(** Printable ASCII without the space. *)
Definition printable (b : Z) : Prop := (0x21 <= b <= 0x7E)%Z.

Lemma printable_enc l : Forall printable l -> (l ≫= enc_arith) = l.
Proof.
  induction 1 as [|b l Hb _ IH]; [done|]. cbn. rewrite IH. unfold printable in Hb.
  unfold enc_arith. by rewrite (proj2 (Z.leb_le _ _)) by lia.
Qed.

Lemma printable_valid l : Forall printable l -> Forall valid_rune l.
Proof. intros Hp. eapply Forall_impl; [exact Hp|]. unfold printable, valid_rune. lia. Qed.

Lemma printable_text s : Forall printable (bytes s) -> s = Sensitive.text (bytes s).
Proof.
  intros Hp. apply bytes_inj. rewrite Sensitive.bytes_text by by apply printable_valid. by rewrite printable_enc.
Qed.

Lemma printable_utf8 s : Forall printable (bytes s) -> valid_utf8 s.
Proof. intros Hp. exists (bytes s). split; [by apply printable_valid|]. by rewrite printable_enc. Qed.

Lemma printable_no_space b : printable b -> IsSpace b = false.
Proof.
  unfold printable, IsSpace. intros Hb. rewrite (proj2 (Z.leb_le _ _)) by lia.
  apply bool_decide_eq_false_2. rewrite !elem_of_cons, elem_of_nil. lia.
Qed.

Lemma printable_drop l : Forall printable l -> Sensitive.drop_spaces l = l.
Proof. intros [|b l' Hb _]; [done|]. cbn. by rewrite printable_no_space. Qed.

Lemma printable_trim s : Forall printable (bytes s) -> TrimSpace s = s.
Proof.
  intros Hp. rewrite (printable_text s Hp) at 1. rewrite Sensitive.TrimSpace_text by by apply printable_valid.
  rewrite (printable_drop _ Hp), printable_drop by by apply Forall_rev.
  rewrite rev_involutive. symmetry. by apply printable_text.
Qed.

(** Han characters have no case. *)
Class HanCase `{CaseTable} := { han_case : forall r, (0x4E00 <= r <= 0x9FFF)%Z -> lower_table r = r }.

Lemma lower_printable `{CaseTable} b : printable b -> (unicode_ToLower b < 0x80)%Z /\ valid_rune (unicode_ToLower b).
Proof.
  unfold printable, unicode_ToLower, valid_rune. intros Hb. rewrite (proj2 (Z.leb_le _ _)) by lia.
  destruct ((65 <=? b) && (b <=? 90))%Z eqn:Hu; lia.
Qed.

(** Normalising a printable text leaves ASCII bytes. *)
Lemma normalize_printable `{CaseTable} s :
  Forall printable (bytes s) -> Forall (fun b => b < 0x80)%Z (bytes (Sensitive.normalize s)).
Proof.
  intros Hp. unfold Sensitive.normalize. rewrite printable_trim by done.
  unfold ToLower. rewrite (printable_text s Hp), Sensitive.bytes_text by by apply printable_valid.
  unfold runes. rewrite runes_go_enc by (by apply printable_valid || done).
  assert (Hv : Forall valid_rune (unicode_ToLower <$> bytes s)).
  { apply Forall_fmap. eapply Forall_impl; [exact Hp|]. intros b Hb. by apply lower_printable. }
  assert (He : (r ← bytes s; EncodeRune (unicode_ToLower r)) = ((unicode_ToLower <$> bytes s) ≫= EncodeRune)).
  { generalize (bytes s). intros l. induction l as [|b l IH]; [done|]. cbn. f_equal. exact IH. }
  rewrite He. change (str ((unicode_ToLower <$> bytes s) ≫= EncodeRune)) with (Sensitive.text (unicode_ToLower <$> bytes s)).
  rewrite Sensitive.bytes_text by done. apply Forall_bind, Forall_fmap. eapply Forall_impl; [exact Hp|].
  intros b Hb. destruct (lower_printable b Hb) as [Hlt Hr]. cbn. unfold valid_rune in Hr. unfold enc_arith.
  rewrite (proj2 (Z.leb_le _ _)) by lia. by repeat constructor.
Qed.

(** A word of Han characters is not in it. *)
Lemma han_word `{HanCase} r1 r2 :
  (0x4E00 <= r1 <= 0x9FFF)%Z -> (0x4E00 <= r2 <= 0x9FFF)%Z ->
  IsSpace r1 = false -> IsSpace r2 = false ->
  Sensitive.normalize (Sensitive.text [r1; r2]) = Sensitive.text [r1; r2].
Proof.
  intros H1 H2 Hs1 Hs2.
  assert (Hv : Forall valid_rune [r1; r2]) by (repeat constructor; unfold valid_rune; lia).
  unfold Sensitive.normalize. rewrite Sensitive.TrimSpace_text by done. cbn [Sensitive.drop_spaces]. rewrite Hs1.
  cbn [rev app Sensitive.drop_spaces]. rewrite Hs2. cbn [rev app].
  unfold ToLower, runes. rewrite Sensitive.bytes_text, runes_go_enc by done. cbn.
  unfold unicode_ToLower. rewrite !(proj2 (Z.leb_gt _ _)) by lia. by rewrite !han_case.
Qed.

(** The bytes of the words of the server are not ASCII. *)
Lemma server_words `{HanCase} w :
  w ∈ Sensitive.words (Sensitive.New Gateway.sensitiveWords) -> exists b l, bytes w = b :: l /\ (0x80 <= b)%Z.
Proof.
  intros (_ & raw & Hraw & ->)%Sensitive.words_New. unfold Gateway.sensitiveWords in Hraw.
  assert (Hw : raw = Sensitive.text [0x8D4C; 0x535A]%Z \/ raw = Sensitive.text [0x8BC8; 0x9A97]%Z).
  { repeat (apply elem_of_cons in Hraw as [Hraw|Hraw]); [left|right|by apply elem_of_nil in Hraw]; rewrite Hraw; by vm_compute. }
  destruct Hw as [->| ->]; rewrite han_word by (lia || done); vm_compute; by eexists _, _.
Qed.

(** A printable text does not match. *)
Lemma printable_unmatched `{HanCase} s :
  Forall printable (bytes s) -> (Sensitive.Match (Sensitive.New Gateway.sensitiveWords) s).2 = false.
Proof.
  intros Hp. unfold Sensitive.Match.
  pose proof (Sensitive.match_words_spec (Sensitive.normalize s) (Sensitive.words (Sensitive.New Gateway.sensitiveWords))) as Hm.
  destruct (Sensitive.match_words _ _) as [w [|]]; [|done]. exfalso.
  destruct Hm as (before & after & Hws & Hc & _). apply Contains_spec in Hc as (a & b & Hn).
  destruct (server_words w) as (x & l & Hx & Hge); [rewrite Hws; apply elem_of_app; right; left|].
  pose proof (normalize_printable s Hp) as Hlt. rewrite Hn, !bytes_app, Hx in Hlt.
  apply Forall_app in Hlt as [_ Hlt]. apply Forall_cons in Hlt as [Hlt _]. lia.
Qed.

Lemma parse_digits_bound l : forall acc v, (1 <= acc)%Z -> parse_digits l acc = Some v -> (acc * 10 ^ Z.of_nat (length l) <= v)%Z.
Proof.
  induction l as [|b l IH]; intros acc v Ha Hp; cbn in Hp; [injection Hp as <-; cbn; lia|].
  destruct ((48 <=? b) && (b <=? 57))%Z eqn:Hb; [|done]. apply IH in Hp; [|lia].
  cbn [length]. rewrite Nat2Z.inj_succ, Z.pow_succ_r by lia.
  pose proof (Z.pow_pos_nonneg 10 (Z.of_nat (length l)) ltac:(lia) ltac:(lia)).
  etransitivity; [|exact Hp]. rewrite Z.mul_assoc. apply Z.mul_le_mono_nonneg_r; lia.
Qed.

(** The length of a number. *)
Lemma pretty_length x : (Z.of_N x < 10 ^ 19)%Z -> length (bytes (pretty x)) <= 19.
Proof.
  intros Hx. pose proof (decimal_Itoa (Z.of_N x) ltac:(lia)) as [Hd Hcase].
  assert (Hi : Itoa (Z.of_N x) = pretty x) by by destruct x.
  rewrite Hi in Hd, Hcase. destruct (pretty_N_spec x) as (_ & _ & Hp).
  destruct Hcase as [->|(b & l & Hb & Hne)]; [cbn; lia|]. rewrite Hb in *.
  apply Forall_cons in Hd as [Hb' _]. unfold is_digit in Hb'. cbn [parse_digits] in Hp.
  rewrite (proj2 (Z.leb_le _ _)), (proj2 (Z.leb_le _ _)) in Hp by lia. cbn [andb] in Hp.
  apply parse_digits_bound in Hp; [|lia]. cbn [length].
  destruct (Nat.le_gt_cases (length l) 18) as [|Hgt]; [lia|]. exfalso.
  assert (10 ^ 19 <= 10 ^ Z.of_nat (length l))%Z by (apply Z.pow_le_mono_r; lia).
  set (y := (10 ^ Z.of_nat (length l))%Z) in *. clearbody y.
  assert (1 * y <= (10 * 0 + (b - 48)) * y)%Z by (apply Z.mul_le_mono_nonneg_r; lia). lia.
Qed.

Lemma Itoa_length z : (min_i64 <= z <= max_i64)%Z -> length (bytes (Itoa z)) <= 20.
Proof.
  unfold min_i64, max_i64. intros Hz. destruct (Itoa_cases z) as [(x & Hx & ->)|(x & Hx & ->)];
    pose proof (pretty_length x ltac:(lia)); cbn [length]; lia.
Qed.

Lemma Itoa_printable z : Forall printable (bytes (Itoa z)).
Proof. eapply Forall_impl; [apply Itoa_bytes|]. unfold is_digit, printable. lia. Qed.

(** The contents the load generator sends. *)
Lemma message_content_printable i t :
  (min_i64 <= i <= max_i64)%Z ->
  Forall printable (bytes (LoadTest.message_content i t)) /\ length (bytes (LoadTest.message_content i t)) <= 60.
Proof.
  intros Hi. unfold LoadTest.message_content, LoadTest.user_of. rewrite !bytes_app, !length_app.
  assert (Hlit : Forall printable (bytes LoadTest.messagePrefix) /\ Forall printable (bytes ":") /\ Forall printable (bytes "load-user-")).
  { unfold printable. split_and!; vm_compute; repeat first [apply Forall_nil_2|apply Forall_cons_2; [split; discriminate|]]. }
  destruct Hlit as (H1 & H2 & H3). split.
  - rewrite !Forall_app. split_and!; try done; apply Itoa_printable.
  - pose proof (Itoa_length i Hi). pose proof (Itoa_length (LoadTest.UnixNano t) (wrap_i64_range _)).
    change (length (bytes LoadTest.messagePrefix)) with 8. change (length (bytes ":")) with 1.
    change (length (bytes "load-user-")) with 10. lia.
Qed.

(** C40: the load generator and the server understand each other.  The frame that client
    [i] sends at [t] decodes to its content, which the server accepts: it is not blank, has
    at most 500 runes, and contains no word of its list.  And the response that carries
    the content under any sequence number is recognised by client [i], and by no other,
    as the echo of the message sent at [t]. *)
Theorem load_test_echo `{HanCase} i t seq :
  (min_i64 <= i <= max_i64)%Z -> (min_i64 <= t - LoadTest.unix_epoch <= max_i64)%Z -> (0 <= seq)%Z ->
  let content := LoadTest.message_content i t in
  WebSocket.UnmarshalRequest (LoadTest.MarshalRequest content) = Ok (WebSocket.mkRequest content) /\
  WebSocket.acceptable (Sensitive.New Gateway.sensitiveWords) (WebSocket.mkRequest content) /\
  LoadTest.UnmarshalResponse (MarshalResponse (Session.mkResponse seq content)) = Ok content /\
  LoadTest.own_message (LoadTest.user_of i) content = Some t /\
  (forall j, j <> i -> LoadTest.own_message (LoadTest.user_of j) content = None).
Proof.
  intros Hi Ht Hs content. destruct (message_content_printable i t Hi) as [Hp Hlen]. fold content in Hp, Hlen.
  pose proof (printable_utf8 _ Hp) as Hv. split_and!.
  - by rewrite UnmarshalRequest_Marshal, ToValid_id.
  - unfold WebSocket.acceptable. cbn [WebSocket.content]. split_and!.
    + rewrite <- TrimSpace_blank, printable_trim by done.
      intros He. apply (f_equal String.length) in He. unfold content, LoadTest.message_content in He. done.
    + unfold WebSocket.maxContentRunes. pose proof (RuneCount_le content). lia.
    + by apply printable_unmatched.
  - rewrite UnmarshalResponse_Marshal by done. cbn [Session.Content]. by rewrite ToValid_id.
  - by apply LoadTest.own_message_roundtrip.
  - by apply LoadTest.own_message_roundtrip.
Qed.

(** ** Witnesses *)

#[local] Existing Instance Sensitive.ascii_cases.
#[local] Existing Instance binary64.

Definition sample_filter : Sensitive.Filter := Sensitive.New ["scam"%string].
Definition sample_danmaku : Danmaku :=
  mkDanmaku (EncodeToString (replicate 16 171%Z)) "lobby" "alice" "hello" 0 1000%Z.
Definition sample_text : string := match MarshalDanmaku 0 sample_danmaku with Ok v => v | Err _ => ""%string end.
Definition sample_fetched : Kafka.KafkaMessage := Kafka.mkKafkaMessage "danmu" 1 7 "lobby" sample_text.
Definition sample_iteration : KafkaConsume.iteration := KafkaConsume.mkIteration (Ok sample_fetched) None None true.

Lemma sample_passes :
  WebSocket.passes sample_filter "alice" WebSocket.sample_payload WebSocket.sample_frame WebSocket.sample_limiter
    (WebSocket.mkRequest "hello").
Proof.
  split; [vm_compute; reflexivity|]. split; [split_and!|split; vm_compute; reflexivity].
  - rewrite <- is_blank_false. vm_compute. reflexivity.
  - vm_compute. lia.
  - vm_compute. reflexivity.
Qed.

Lemma frame_reaches_members_witness :
  exists d' dropped w' r' h',
    head (KafkaConsume.consume_one sample_iteration).1 = Some (KafkaConsume.EHandler sample_fetched d' None) /\
    Broadcast.consumer_handler [Broadcast.sample_alice] d' Broadcast.sample_world = Returns (None, dropped, w') /\
    store w' !! 0 = Some (r', h') /\
    Room.chans h' !! 0 = Some (mkChan 1 [Room.mkMessage 1 "hello"] false).
Proof.
  destruct (Kafka.NewKafka KafkaConsume.sample_config) as [b|] eqn:Hb; [|by vm_compute in Hb].
  assert (Hw : Kafka.writer b <> None) by (vm_compute in Hb; by injection Hb as <-). clear Hb.
  destruct (frame_reaches_members sample_filter "alice" "lobby" WebSocket.sample_payload WebSocket.sample_frame
    WebSocket.sample_limiter (WebSocket.mkRequest "hello") sample_danmaku 0%Z (fun _ _ => None) b sample_text sample_iteration
    sample_fetched [Broadcast.sample_alice] Broadcast.sample_world 0 (fst Broadcast.sample_room) (snd Broadcast.sample_room)
    "alice" Broadcast.sample_alice (make_chan 1)) as (_ & _ & (d' & dropped & w' & r' & h' & H1 & H2 & H3 & H4) & _).
  - exact sample_passes.
  - reflexivity.
  - rewrite <- is_blank_false. vm_compute. reflexivity.
  - rewrite <- is_blank_false. vm_compute. reflexivity.
  - vm_compute. reflexivity.
  - apply printable_utf8. vm_compute. repeat first [apply Forall_nil_2|apply Forall_cons_2; [split; discriminate|]].
  - discriminate.
  - intros value [= <-]. split; [reflexivity|].
    repeat first [apply Forall_nil_2|apply Forall_cons_2; [unfold is_byte; lia|]].
  - split; [reflexivity|split; reflexivity].
  - exact Hw.
  - vm_compute. reflexivity.
  - reflexivity.
  - reflexivity.
  - apply Broadcast.sample_world_inv.
  - vm_compute. reflexivity.
  - vm_compute. reflexivity.
  - vm_compute. reflexivity.
  - vm_compute. reflexivity.
  - vm_compute. reflexivity.
  - exists d', dropped, w', r', h'. split; [exact H1|]. split; [exact H2|]. split; [exact H3|].
    etransitivity; [exact H4|]. vm_compute. reflexivity.
Defined.

Lemma consumed_content_survives_witness :
  UnmarshalFull (MarshalResponse (Session.mkResponse 3 "hello")) = Ok (Session.mkResponse 3 "hello").
Proof.
  refine (proj2 (consumed_content_survives sample_iteration sample_fetched sample_danmaku None 3 _ _)).
  - vm_compute. reflexivity.
  - lia.
Defined.

#[local] Instance ascii_han : HanCase.
Proof. constructor. done. Qed.

Lemma load_test_echo_witness :
  LoadTest.UnmarshalResponse (MarshalResponse (Session.mkResponse 3 "loadtest:load-user-12:1700000000000000000"))
    = Ok "loadtest:load-user-12:1700000000000000000"%string /\
  LoadTest.own_message "load-user-12" "loadtest:load-user-12:1700000000000000000"
    = Some (LoadTest.unix_epoch + 1700000000000000000)%Z.
Proof.
  destruct (load_test_echo 12 (LoadTest.unix_epoch + 1700000000000000000)%Z 3) as (_ & _ & H1 & H2 & _).
  - unfold min_i64, max_i64. lia.
  - unfold min_i64, max_i64. lia.
  - lia.
  - split; [exact H1|exact H2].
Defined.

(** Alice's frame on Bob's socket. *)
Definition sample_acts : list Sockets.act :=
  [Sockets.AFind "lobby"; Sockets.AJoinRoom 4 "bob" "lobby"; Sockets.AAdmit 4;
   Sockets.AConsumer (Pipeline.AAppend (Kafka.mkKafkaMessage "danmu" 1 0 "lobby" sample_text));
   Sockets.AConsumer Pipeline.AAssigned; Sockets.AConsumer (Pipeline.AMove (Generation.SetOffset None));
   Sockets.AConsumer Pipeline.AFetch; Sockets.AConsumer (Pipeline.AHandle [Room.mkClient "bob" 0]);
   Sockets.AConsumer (Pipeline.ACommit None true); Sockets.ATake 4; Sockets.AWritten 4].
Definition sample_gateway : Sockets.system := default Sockets.start (Sockets.do_acts sample_acts Sockets.start).
Definition sample_socket : Session.session :=
  match Sockets.conns sample_gateway !! 4 with
  | Some (Sockets.Live _ _ _ _ x) => x
  | _ => Session.established Room.sys_init Connections.newWebSocketConnections
  end.

Definition sample_origin : origin SpecFloat.spec_float :=
  mkOrigin "alice" "lobby" WebSocket.sample_payload WebSocket.sample_frame WebSocket.sample_limiter.

Lemma nothing_is_made_up_witness :
  Session.responses (Session.wire sample_socket) = [Session.mkResponse 1 "hello"] /\
  exists positions,
    Forall2 (carries_frame sample_filter [sample_origin] "lobby") [Session.mkResponse 1 "hello"] positions /\
    StronglySorted le positions.
Proof.
  assert (Hr : Session.responses (Session.wire sample_socket) = [Session.mkResponse 1 "hello"]) by (vm_compute; reflexivity).
  split; [exact Hr|].
  destruct (nothing_is_made_up sample_filter sample_gateway 4 "bob" "lobby" 0 0 sample_socket [sample_origin])
    as (positions & H1 & H2 & _).
  - apply (Sockets.socket_acts_reachable _ sample_acts Sockets.start); [apply Sockets.reachable_start|vm_compute; reflexivity].
  - vm_compute. reflexivity.
  - replace (Pipeline.topic_log (Sockets.pipe sample_gateway)) with [Kafka.mkKafkaMessage "danmu" 1 0 "lobby" sample_text]
      by (vm_compute; reflexivity).
    apply Forall2_cons_2; [|apply Forall2_nil_2]. exists sample_danmaku, 0%Z.
    split; [|split; [split; [reflexivity|split; reflexivity]|split; [vm_compute; reflexivity|reflexivity]]].
    apply WebSocket.handle_frame_published. exists (WebSocket.mkRequest "hello"). split; [exact sample_passes|reflexivity].
  - exists positions. rewrite <- Hr. split; [exact H1|exact H2].
Defined.

End EndToEnd.
